(* ===== verification/_CoqProject ===== *)
-Q . S2P
Prelude.v
Conn.v
Frame.v
Tunnels.v
Auth.v
Stream.v
Mux.v
Transport.v
FlowControl.v
Link.v
Session.v
Relay.v
Multiplex.v
SessionEnd.v
Proxy.v
RemoteServer.v
Serve.v
Routing.v
Backoff.v
RemoteClient.v
Identity.v
GoStrings.v
Paths.v
Specs.v
LogBuffer.v
Language.v
Socks5.v
SocksServer.v
KnownHosts.v
UdpProxy.v
Manager.v
ConfigFile.v
Logging.v
Runner.v
Control.v
Daemon.v
Flags.v
Cli.v
Systemd.v
Health.v
