(* ===== verification/Prelude.v ===== *)
(** * Tunnel manager: a verification development

    The program forwards ports: local forwards (TCP and UDP), a SOCKS5 proxy,
    chains of hops, and reverse tunnels through a public server, run ad hoc from
    the command line or by a daemon that keeps a YAML configuration and answers
    a control socket.  This library models its Go code file by file as functions
    and step relations and proves what the parts promise each other.

    ** Conventions

    Integers of a machine width are [Z] with the wrap-around written out
    ([uint16], [int64], ...); byte strings are [list byte]; Go strings are
    [string] where they are only compared and byte lists where they are taken
    apart.  Code that can fail returns a [result]; errors carry their format, so
    that the wrapping of [fmt.Errorf] is visible.  Sequential code on a
    connection is in the monad [IO] of [Conn.v].  A method that holds a lock is
    one atomic function of the state; concurrent goroutines are labelled steps,
    and what is proved about them holds for every interleaving.  Shared objects
    (channels, listeners, tasks, sessions) live in stores that only grow and are
    referred to by index.  What the operating system, the peer or a library
    does is an argument of the step that observes it; [Preserves] (end of this
    file) states invariants and [reachable] lifts them to runs.

    ** The relay layer ([src/relay])

    - [Conn.v], [Frame.v], [Tunnels.v], [Auth.v]: a connection, the frame codec
      ([ctrlframe.go]), the registration payload ([packTunnels],
      [unpackTunnels] of [ctrlconn.go]) and the set-up of a session ([auth.go];
      [handleClient] and [connect] compose it).  Shown: the codecs accept
      exactly the wire format and round-trip, cut input is an error, and the
      two ends agree on a session exactly when the tokens match.
    - [Stream.v], [Mux.v]: a multiplexed channel ([stream.go]) and the control
      connection that carries many ([ctrlconn.go]).  Shown: the invariant of
      the shared store in every interleaving of the read loop with the other
      goroutines, termination of the read loop, what each frame does, and the
      two ways in which it fails (a crash, a writer stuck for good).
    - [Transport.v], [FlowControl.v], [Relay.v]: the interface of a byte
      stream; the window protocol between the two ends of a channel refines a
      bounded pipe, conserves credit and always drains; [Relay] ([relay.go])
      between any two such transports is one again.
    - [Link.v], [Session.v], [Multiplex.v]: a channel with both its directions,
      and a whole control connection: server and client as in [Mux.v], their
      read loops, the network between them.  Shown: every direction of every
      channel is a bounded pipe of its own in every interleaving, neither end
      is ever torn down by the other, what is on the way arrives, and with the
      relays at both ends a reverse tunnel over the real connection delivers
      what was sent, in order, completely.
    - [SessionEnd.v]: what the readers see when that connection is lost: what
      had arrived, then [io.EOF], never a wait for ever; and that this looks
      the same as the end of a complete transfer.
    - [Proxy.v], [Socks5.v] (with [Language.v]), [SocksServer.v], [UdpProxy.v]:
      the listening proxies ([tcpproxy.go], [chainproxy.go], [socks5proxy.go],
      [socks5.go], [udpproxy.go]).  Shown: counters and sessions are right at
      every moment, the SOCKS5 handshake accepts exactly the messages of
      RFC 1928 and RFC 1929 that the server is meant to accept, and a SOCKS
      connection carries to the address it named what the client sent behind
      the handshake, and nothing else.
    - [RemoteServer.v], [Serve.v], [Routing.v]: the public listeners shared by
      several clients, the goroutines of the server ([remoteserver.go]), and
      both with the session set-up and the control connection.  Shown: no
      listener is leaked or goes dead, round-robin order, that a public
      connection only ever reaches a target its client registered with the
      token, what a shutdown waits for, and the race that kills another
      client's tunnel.
    - [Backoff.v], [RemoteClient.v]: the reconnect delay in binary64
      ([reconnect.go]) and the reconnect loop against [Close]
      ([remoteclient.go]).
    - [Identity.v], [KnownHosts.v]: the server's persistent key and certificate
      ([identity.go], [SetupTLS]), the client's store of fingerprints and its
      verification policy ([knownhosts.go], [tls.go]).  Shown: a key, once
      saved, is the identity for ever; a fingerprint, once pinned, is enforced.
    - [Health.v]: the health check ([healthcheck.go]).

    ** The manager layer ([src/manager] and [src/main.go])

    - [GoStrings.v], [Paths.v], [Specs.v], [Flags.v]: the string functions, the
      part of [path/filepath] and the package [flag] of the standard library
      used here, where the program keeps its files, and the two parsers of
      [[bind:]port:host:hostport].
    - [LogBuffer.v], [Logging.v]: the log kept in memory and where else the log
      goes ([logging.go]).
    - [Manager.v], [Runner.v]: the table of tunnels, every control method and
      the configuration file ([manager.go], [config.go]); what the goroutine of
      a tunnel reports ([runLocal] and the other run functions).
    - [ConfigFile.v]: [LoadConfig] and [SaveConfig] on a file system.  Shown:
      what a successful request changed is there after a restart, and the two
      ways in which it is not.
    - [Control.v], [Daemon.v], [Cli.v]: the control protocol ([control.go]), the
      life of the daemon and its pid file ([daemon.go], [runDaemon]), and the
      command line, down to the method of the manager each command reaches.
    - [Systemd.v]: the unit [tunnel init] generates ([systemd.go]).  Shown: it
      starts, reloads and configures the daemon the way the code expects.

    ** Interfaces

    [Transport.System] and [Transport.Reliable] stand between the transports and
    [Relay]; the channel of [FlowControl.v], any channel of a [session]
    ([Multiplex.channel_view]) and the specification [pipe] are instances, and
    so is a relay between two instances.  [Control.Json] is the codec of the
    control protocol and [ConfigFile.Yaml] that of the configuration file, with
    the laws of [encoding/json] and [yaml.v3] the code relies on.  [Preserves] is what a component promises about its own steps.
    Parameters of the other kind are functions: keys and fingerprints in
    [Identity.v], the text of an error, [time.ParseDuration].

    ** Fuel and bounds

    Recursion is structural nearly everywhere: over the input, the list of
    attempts, the events of a run.  Loops over a number have fuel that is shown
    or seen to suffice: [GoStrings.itoa_loop] (20 digits hold every [int64],
    [Itoa_spec]), [Mux.readLoop] (one step more than bytes left,
    [readLoop_terminates]), [Mux.chan_Write_loop] (the bytes to write, each
    round sends at least one), [LogBuffer.swap_loop] ([swap_loop_rev]) and the
    printing of addresses in [Socks5.v] (four hexadecimal digits, eight words).
    Hypotheses of the form [n < 2 ^ 63] say that a list or a pid fits
    a Go [int].

    ** Not modelled

    Time is an event or an argument, not a clock, so nothing is said of how
    long a step takes.  The two ends of a [session] are followed together
    while it lives; once it is lost each end is on its own ([SessionEnd.v],
    [Mux.v], [Serve.v] and [RemoteClient.v]).  Left out: the
    text printed by the commands other than [init], the
    YAML codec and [crypto] (arguments), what systemd does with its unit,
    goroutine memory-model races other than the orders of critical sections,
    and functions the program never calls ([Wait] of the
    client, [SetupTLSCert], [ListenSocks], accessors). *)
From Stdlib Require Export ZArith Lia.
From Stdlib Require Export Strings.Byte.
From Stdlib Require Strings.String.
From stdpp Require Export base tactics numbers list option gmap strings fin_maps relations.

#[global] Open Scope Z_scope.
#[global] Set Default Goal Selector "!".

(** ** Go's integers, slices and errors *)

(** Go's [len]: an [int] wide enough for every slice a process can hold. *)
Definition zlen {A} (l : list A) : Z := Z.of_nat (length l).

(** Wrap-around of the unsigned integer types of width [w]. *)
Definition wrap (w : Z) (z : Z) : Z := z mod 2 ^ w.
Definition uint8 (z : Z) : Z := wrap 8 z.
Definition uint16 (z : Z) : Z := wrap 16 z.
Definition uint32 (z : Z) : Z := wrap 32 z.
Definition uint64 (z : Z) : Z := wrap 64 z.

(** Wrap-around of [int64] (two's complement). *)
Definition int64 (z : Z) : Z := (z + 2 ^ 63) mod 2 ^ 64 - 2 ^ 63.

Definition byte_to_Z (b : byte) : Z := Z.of_N (Byte.to_N b).

Definition byte_of_Z (z : Z) : byte :=
  match Byte.of_N (Z.to_N (uint8 z)) with Some b => b | None => x00 end.

#[global] Instance byte_eq_dec : EqDecision byte := Byte.byte_eq_dec.
#[global] Instance byte_inhabited : Inhabited byte := populate x00.

(** [binary.BigEndian.PutUint16/32/64] on a fresh [n]-byte slice: the bytes of
    [z], most significant first. *)
Fixpoint be_put (n : nat) (z : Z) : list byte :=
  match n with
  | O => []
  | S k => byte_of_Z (Z.shiftr z (8 * Z.of_nat k)) :: be_put k z
  end.

(** [binary.BigEndian.Uint16/32/64] of an [n]-byte slice. *)
Fixpoint be_get (l : list byte) : Z :=
  match l with
  | [] => 0
  | b :: l => Z.shiftl (byte_to_Z b) (8 * zlen l) + be_get l
  end.

(** Conversions [[]byte(s)] and [string(b)]. *)
Definition bytes_of (s : string) : list byte := String.list_byte_of_string s.
Definition string_of (b : list byte) : string := String.string_of_list_byte b.

(** The slice expression [l[lo:hi]] on a slice whose capacity is its length:
    [None] is the run-time panic "slice bounds out of range". *)
Definition slice {A} (l : list A) (lo hi : Z) : option (list A) :=
  if decide (0 <= lo <= hi /\ hi <= zlen l)
  then Some (take (Z.to_nat (hi - lo)) (drop (Z.to_nat lo) l))
  else None.

(** Arguments of a formatted error message. *)
Inductive arg :=
  | AInt (z : Z)
  | AStr (s : string).

(** Go errors.  The sentinels the code compares with [==] or [errors.Is] are
    constructors; [Errorf] and [Wrapf] are [fmt.Errorf] without and with a
    [%w] verb and keep the format string and its arguments, so that two
    errors are equal when they come from the same call with the same data. *)
Inductive error :=
  | EOF                                    (* io.EOF *)
  | ErrUnexpectedEOF                       (* io.ErrUnexpectedEOF *)
  | ErrClosedPipe                          (* io.ErrClosedPipe *)
  | ErrShortWrite                          (* io.ErrShortWrite *)
  | ErrUnknownHost                         (* relay.ErrUnknownHost *)
  | OsError (code : string)                (* from the operating system *)
  | Errorf (format : string) (args : list arg)
  | Wrapf (format : string) (args : list arg) (cause : error).

#[global] Instance arg_eq_dec : EqDecision arg.
Proof. solve_decision. Defined.
#[global] Instance error_eq_dec : EqDecision error.
Proof. solve_decision. Defined.

(** [errors.Is(err, target)] for a target without an [Is] method. *)
Fixpoint errors_Is (err target : error) : bool :=
  bool_decide (err = target) ||
  match err with
  | Wrapf _ _ e => errors_Is e target
  | _ => false
  end.

(** The pair [(value, error)] a Go function returns: exactly one of the two is
    meaningful in this code base. *)
Inductive result (A : Type) :=
  | Ok (a : A)
  | Err (e : error).
Arguments Ok {A} a.
Arguments Err {A} e.

#[global] Instance result_eq_dec `{EqDecision A} : EqDecision (result A).
Proof. solve_decision. Defined.

#[global] Instance result_ret : MRet result := @Ok.
#[global] Instance result_bind : MBind result := fun A B f r =>
  match r with Ok a => f a | Err e => Err e end.
#[global] Instance result_fmap : FMap result := fun A B f r =>
  match r with Ok a => Ok (f a) | Err e => Err e end.

Definition is_Ok {A} (r : result A) : bool :=
  match r with Ok _ => true | Err _ => false end.

(** ** Tactics *)

(** Split every boolean comparison and [decide] of the goal and the context. *)
Ltac case_bools :=
  repeat first
    [ progress case_decide
    | progress case_match
    | progress simplify_eq/= ].

(** Normalise lengths of appended, taken and dropped lists, then [lia]. *)
Ltac len_lia :=
  unfold zlen in *;
  repeat (rewrite ?length_app, ?length_take, ?length_drop, ?length_replicate,
    ?length_cons, ?length_nil in * );
  simpl length in *; lia.

Lemma int64_id z : - 2 ^ 63 <= z < 2 ^ 63 -> int64 z = z.
Proof. intros. unfold int64. rewrite Z.mod_small; lia. Qed.

Lemma int64_range z : - 2 ^ 63 <= int64 z < 2 ^ 63.
Proof. unfold int64. pose proof (Z.mod_pos_bound (z + 2 ^ 63) (2 ^ 64)). lia. Qed.

Lemma int64_add_l a b : int64 (int64 a + b) = int64 (a + b).
Proof.
  unfold int64. f_equal.
  replace ((a + 2 ^ 63) mod 2 ^ 64 - 2 ^ 63 + b + 2 ^ 63) with ((a + 2 ^ 63) mod 2 ^ 64 + b) by lia.
  rewrite Z.add_mod_idemp_l by lia. f_equal. lia.
Qed.

(** ** Bytes and big-endian integers *)

Create HintDb tunnel.
Create Rewrite HintDb tunnel.

Lemma zlen_nonneg {A} (l : list A) : 0 <= zlen l.
Proof. unfold zlen; lia. Qed.

Lemma zlen_app {A} (l k : list A) : zlen (l ++ k) = zlen l + zlen k.
Proof. len_lia. Qed.

Lemma zlen_cons {A} (x : A) l : zlen (x :: l) = zlen l + 1.
Proof. len_lia. Qed.

Lemma zlen_nil {A} : zlen (@nil A) = 0.
Proof. done. Qed.

Lemma zlen_0 {A} (l : list A) : zlen l = 0 <-> l = [].
Proof. destruct l; [done|]. rewrite zlen_cons. pose proof (zlen_nonneg l). split; [lia|done]. Qed.

Lemma byte_to_Z_range b : 0 <= byte_to_Z b < 256.
Proof. unfold byte_to_Z. pose proof (Byte.to_N_bounded b). lia. Qed.

Lemma byte_of_to_Z b : byte_of_Z (byte_to_Z b) = b.
Proof.
  unfold byte_of_Z, byte_to_Z, uint8, wrap. pose proof (Byte.to_N_bounded b).
  rewrite Z.mod_small by lia. by rewrite N2Z.id, Byte.of_to_N.
Qed.

Lemma byte_to_of_Z z : byte_to_Z (byte_of_Z z) = z mod 256.
Proof.
  unfold byte_of_Z, uint8, wrap. change (2 ^ 8) with 256.
  pose proof (Z.mod_pos_bound z 256 ltac:(lia)) as Hb.
  destruct (Byte.of_N (Z.to_N (z mod 256))) as [b|] eqn:E.
  - apply Byte.to_of_N in E. unfold byte_to_Z. lia.
  - apply Byte.of_N_None_iff in E. lia.
Qed.

#[export] Instance byte_to_Z_inj : Inj eq eq byte_to_Z.
Proof. intros a b E. by rewrite <-(byte_of_to_Z a), E, byte_of_to_Z. Qed.

Lemma length_be_put n z : length (be_put n z) = n.
Proof. induction n; cbn; congruence. Qed.

Lemma zlen_be_put n z : zlen (be_put n z) = Z.of_nat n.
Proof. unfold zlen. by rewrite length_be_put. Qed.

Lemma be_get_put n z : be_get (be_put n z) = z mod 2 ^ (8 * Z.of_nat n).
Proof.
  induction n as [|n IH]; [by rewrite Z.mod_1_r|].
  cbn [be_put be_get]. rewrite zlen_be_put, IH, byte_to_of_Z, Z.shiftl_mul_pow2 by lia.
  rewrite Z.shiftr_div_pow2 by lia.
  replace (8 * Z.of_nat (S n)) with (8 * Z.of_nat n + 8) by lia.
  rewrite Z.pow_add_r, (Z.rem_mul_r z) by lia. change (2 ^ 8) with 256. lia.
Qed.

Lemma be_get_range l : 0 <= be_get l < 2 ^ (8 * zlen l).
Proof.
  induction l as [|b l IH]; [done|].
  cbn [be_get]. pose proof (byte_to_Z_range b). rewrite Z.shiftl_mul_pow2 by (pose proof (zlen_nonneg l); lia).
  rewrite zlen_cons. replace (8 * (zlen l + 1)) with (8 * zlen l + 8) by lia.
  rewrite Z.pow_add_r by (pose proof (zlen_nonneg l); lia). nia.
Qed.

Lemma be_get_app l k : be_get (l ++ k) = be_get l * 2 ^ (8 * zlen k) + be_get k.
Proof.
  induction l as [|b l IH]; [done|]. cbn [app be_get]. pose proof (zlen_nonneg l). pose proof (zlen_nonneg k).
  rewrite IH, zlen_app, !Z.shiftl_mul_pow2, Z.mul_add_distr_l, Z.pow_add_r by lia. ring.
Qed.

Lemma be_put_get l : be_put (length l) (be_get l) = l.
Proof.
  assert (H : forall l h, be_put (length l) (h * 2 ^ (8 * zlen l) + be_get l) = l).
  { clear l. induction l as [|b l IH]; intros h; [done|].
    cbn [length be_put be_get]. pose proof (zlen_nonneg l). pose proof (be_get_range l). f_equal.
    - apply (inj byte_to_Z). rewrite byte_to_of_Z, Z.shiftr_div_pow2 by lia.
      change (8 * Z.of_nat (length l)) with (8 * zlen l).
      rewrite zlen_cons, Z.shiftl_mul_pow2 by lia.
      replace (8 * (zlen l + 1)) with (8 + 8 * zlen l) by lia.
      rewrite Z.pow_add_r by lia.
      replace (h * (2 ^ 8 * 2 ^ (8 * zlen l)) + (byte_to_Z b * 2 ^ (8 * zlen l) + be_get l))
        with (be_get l + (h * 256 + byte_to_Z b) * 2 ^ (8 * zlen l)) by (change (2 ^ 8) with 256; ring).
      rewrite Z.div_add, Z.div_small by lia. rewrite Z.add_0_l, Z.add_comm, Z.mod_add by lia.
      apply Z.mod_small, byte_to_Z_range.
    - rewrite zlen_cons, Z.shiftl_mul_pow2 by lia.
      replace (8 * (zlen l + 1)) with (8 + 8 * zlen l) by lia.
      rewrite Z.pow_add_r, Z.mul_assoc, Z.add_assoc, <-Z.mul_add_distr_r by lia. apply IH. }
  rewrite <-(Z.add_0_l (be_get l)), <-(Z.mul_0_l (2 ^ (8 * zlen l))). apply H.
Qed.

Lemma be_put_get_n n l : length l = n -> be_put n (be_get l) = l.
Proof. intros <-. apply be_put_get. Qed.

Lemma be_get_1 b : be_get [b] = byte_to_Z b.
Proof. cbn [be_get]. rewrite Z.shiftl_0_r. lia. Qed.

Lemma be_put_mod n z : be_put n (z mod 2 ^ (8 * Z.of_nat n)) = be_put n z.
Proof. rewrite <-be_get_put. apply be_put_get_n, length_be_put. Qed.

Lemma bytes_of_string_of b : bytes_of (string_of b) = b.
Proof. apply String.list_byte_of_string_of_list_byte. Qed.

Lemma string_of_bytes_of s : string_of (bytes_of s) = s.
Proof. apply String.string_of_list_byte_of_string. Qed.

#[export] Instance bytes_of_inj : Inj eq eq bytes_of.
Proof. intros a b E. by rewrite <-(string_of_bytes_of a), E, string_of_bytes_of. Qed.

#[global] Opaque be_put be_get.

(** ** Slices *)

Lemma slice_Some {A} (l : list A) lo hi :
  0 <= lo <= hi -> hi <= zlen l ->
  slice l lo hi = Some (take (Z.to_nat (hi - lo)) (drop (Z.to_nat lo) l)).
Proof. intros. unfold slice. by rewrite decide_True. Qed.

Lemma slice_None {A} (l : list A) lo hi : hi < lo -> slice l lo hi = None.
Proof. intros. unfold slice. rewrite decide_False; [done|lia]. Qed.

Lemma take_zlen_app {A} (l k : list A) : take (Z.to_nat (zlen l)) (l ++ k) = l.
Proof. apply take_app_length'. len_lia. Qed.

Lemma drop_zlen_app {A} (l k : list A) : drop (Z.to_nat (zlen l)) (l ++ k) = k.
Proof. apply drop_app_length'. len_lia. Qed.

Lemma zlen_take_le {A} (l : list A) n : 0 <= n <= zlen l -> zlen (take (Z.to_nat n) l) = n.
Proof. intros. len_lia. Qed.

Lemma zlen_drop {A} (l : list A) n : 0 <= n <= zlen l -> zlen (drop (Z.to_nat n) l) = zlen l - n.
Proof. intros. len_lia. Qed.

#[export] Hint Rewrite @zlen_app @zlen_cons @zlen_nil zlen_be_put : tunnel.
#[export] Hint Resolve zlen_nonneg byte_to_Z_range : tunnel.

(** ** Invariants of step relations *)

(** What a component promises about its own steps. *)
Class Preserves {St : Type} (step : St -> St -> Prop) (inv : St -> Prop) : Prop :=
  preserves s s' : step s s' -> inv s -> inv s'.

Lemma reachable `{Preserves St step inv} s s' : rtc step s s' -> inv s -> inv s'.
Proof. induction 1 as [|s s1 s2 Hs _ IH]; [done|]. intros Hi. apply IH. by apply (preserves s s1). Qed.
