(* ===== verification/Conn.v ===== *)
(** * One endpoint of a [net.Conn], as the protocol code sees it

    The code of [src/relay] reads with [io.ReadFull] and writes with
    [conn.Write].  A connection is the bytes the peer will still deliver
    ([rx]), the error that follows them ([rx_end], [io.EOF] for an orderly
    close), the bytes written so far ([tx]) and how many more bytes the
    transport accepts before a write fails ([tx_room], [None] for a transport
    that never fails).  [IO] is the state-and-error monad of such code. *)
From S2P Require Import Prelude.

Record conn := Conn {
  rx : list byte;
  rx_end : error;
  tx : list byte;
  tx_room : option nat;
  tx_err : error;
}.

Definition IO (A : Type) : Type := conn -> result A * conn.

#[global] Instance IO_ret : MRet IO := fun A a c => (Ok a, c).
#[global] Instance IO_bind : MBind IO := fun A B f m c =>
  match m c with
  | (Ok a, c') => f a c'
  | (Err e, c') => (Err e, c')
  end.

Definition fail {A} (e : error) : IO A := fun c => (Err e, c).

(** [if err != nil { return fmt.Errorf(format, err) }] around a call. *)
Definition wrap_err {A} (format : string) (m : IO A) : IO A := fun c =>
  match m c with
  | (Ok a, c') => (Ok a, c')
  | (Err e, c') => (Err (Wrapf format [] e), c')
  end.

(** [_ = m]: the call's error is dropped by the caller. *)
Definition ignore_err {A} (m : IO A) : IO unit := fun c => (Ok tt, snd (m c)).

Definition lift {A} (r : result A) : IO A := fun c => (r, c).

(** [io.ReadFull(conn, buf)] with [len(buf) = n]. *)
Definition ReadFull (n : Z) : IO (list byte) := fun c =>
  if decide (n <= zlen (rx c)) then
    (Ok (take (Z.to_nat n) (rx c)),
     Conn (drop (Z.to_nat n) (rx c)) (rx_end c) (tx c) (tx_room c) (tx_err c))
  else
    (Err (if decide (rx c = []) then rx_end c
          else if decide (rx_end c = EOF) then ErrUnexpectedEOF else rx_end c),
     Conn [] (rx_end c) (tx c) (tx_room c) (tx_err c)).

(** [conn.Write(p)]: all of [p], or the prefix the transport still took and
    the transport's error. *)
Definition Write (p : list byte) : IO unit := fun c =>
  match tx_room c with
  | None => (Ok tt, Conn (rx c) (rx_end c) (tx c ++ p) None (tx_err c))
  | Some k =>
      if decide (length p <= k)%nat then
        (Ok tt, Conn (rx c) (rx_end c) (tx c ++ p) (Some (k - length p)%nat) (tx_err c))
      else
        (Err (tx_err c), Conn (rx c) (rx_end c) (tx c ++ take k p) (Some 0%nat) (tx_err c))
  end.

(** A fresh connection on a transport that does not fail. *)
Definition conn_of (input : list byte) : conn := Conn input EOF [] None EOF.

(** The connection after the code consumed [n] bytes and wrote [p]. *)
Definition advance (n : nat) (p : list byte) (c : conn) : conn :=
  Conn (drop n (rx c)) (rx_end c) (tx c ++ p)
    (match tx_room c with None => None | Some k => Some (k - length p)%nat end) (tx_err c).

(** The transport still takes [n] bytes. *)
Definition room (n : nat) (c : conn) : Prop :=
  match tx_room c with None => True | Some k => (n <= k)%nat end.

#[global] Instance room_dec n c : Decision (room n c).
Proof. unfold room. destruct (tx_room c); apply _. Defined.

(** ** What the primitives do *)

Lemma ReadFull_ok n c l r :
  rx c = l ++ r -> zlen l = n ->
  ReadFull n c = (Ok l, Conn r (rx_end c) (tx c) (tx_room c) (tx_err c)).
Proof.
  intros E <-. unfold ReadFull. rewrite E, decide_True by (pose proof (zlen_nonneg r); rewrite zlen_app; lia).
  by rewrite take_zlen_app, drop_zlen_app.
Qed.

(** The inverse reading of [ReadFull]: success splits the input. *)
Lemma ReadFull_inv n c l c' :
  0 <= n -> ReadFull n c = (Ok l, c') ->
  rx c = l ++ rx c' /\ zlen l = n /\ c' = Conn (rx c') (rx_end c) (tx c) (tx_room c) (tx_err c).
Proof.
  intros Hn. unfold ReadFull. case_decide; intros [= <- <-]; simpl.
  rewrite take_drop, zlen_take_le; [done|lia].
Qed.

Lemma ReadFull_short n c :
  zlen (rx c) < n ->
  exists e, ReadFull n c = (Err e, Conn [] (rx_end c) (tx c) (tx_room c) (tx_err c))
    /\ (rx c = [] -> e = rx_end c) /\ (rx c <> [] -> rx_end c = EOF -> e = ErrUnexpectedEOF).
Proof.
  intros Hn. unfold ReadFull. rewrite decide_False by lia.
  eexists; split; [done|]. case_decide; [done|]. case_decide; [|done]. split; [done|done].
Qed.

(** Reading never touches the write side and only ever drops input. *)
Lemma ReadFull_frame n c r c' :
  ReadFull n c = (r, c') ->
  tx c' = tx c /\ tx_room c' = tx_room c /\ tx_err c' = tx_err c /\ rx_end c' = rx_end c
  /\ (length (rx c') <= length (rx c))%nat.
Proof. unfold ReadFull. case_decide; intros [= <- <-]; simpl; rewrite ?length_drop; repeat split; lia. Qed.

Lemma Write_ok p c :
  room (length p) c -> Write p c = (Ok tt, advance 0 p c).
Proof.
  unfold room, Write, advance. destruct (tx_room c); intros; [|done]. by rewrite decide_True.
Qed.

Lemma Write_short p c :
  ~ room (length p) c ->
  exists k, (k < length p)%nat /\ tx_room c = Some k /\
    Write p c = (Err (tx_err c), Conn (rx c) (rx_end c) (tx c ++ take k p) (Some 0%nat) (tx_err c)).
Proof.
  unfold room, Write. destruct (tx_room c) as [k|]; [|done]. intros.
  exists k. rewrite decide_False by done. split; [lia|done].
Qed.

Lemma room_le m n c : (n <= m)%nat -> room m c -> room n c.
Proof. unfold room. destruct (tx_room c); [lia|done]. Qed.

Lemma room_advance m n p c : room (length p + m) c -> room m (advance n p c).
Proof. unfold room, advance. destruct (tx_room c) eqn:E; simpl; [lia|done]. Qed.

Lemma advance_advance n p m q c :
  advance m q (advance n p c) = advance (n + m) (p ++ q) c.
Proof.
  unfold advance. simpl. f_equal.
  - by rewrite drop_drop.
  - by rewrite app_assoc.
  - destruct (tx_room c); [|done]. f_equal. rewrite length_app. lia.
Qed.

Lemma conn_eta c : Conn (rx c) (rx_end c) (tx c) (tx_room c) (tx_err c) = c.
Proof. by destruct c. Qed.

#[export] Hint Resolve room_le room_advance : tunnel.
