(* ===== verification/Frame.v ===== *)
(** * The frame codec of the control connection ([src/relay/ctrlframe.go])

    A frame is a four-byte big-endian length, a type byte and the payload.
    [frame_bytes] is the wire format as a function of the frame: the
    specification against which [WriteFrame] and [ReadFrame] are proved. *)
From S2P Require Import Prelude Conn.

Definition FramePing : byte := x01.
Definition FramePong : byte := x02.
Definition FrameNewChannel : byte := x03.
Definition FrameChannelData : byte := x04.
Definition FrameChannelClose : byte := x05.
Definition FrameAuthRequest : byte := x06.
Definition FrameAuthResponse : byte := x07.
Definition FrameRegister : byte := x08.
Definition FrameWindowUpdate : byte := x09.

Definition maxFramePayload : Z := Z.shiftl 1 24.

Record Frame := mkFrame {
  frame_type : byte;
  frame_payload : list byte;
}.

#[global] Instance Frame_eq_dec : EqDecision Frame.
Proof. solve_decision. Defined.

Definition ReadFrame : IO Frame :=
  header ← wrap_err "read frame header: %w" (ReadFull 5);
  let length := be_get (take 4 header) in
  let typ := default x00 (header !! 4%nat) in
  if decide (maxFramePayload < length) then
    fail (Errorf "frame payload too large: %d" [AInt length])
  else
    payload ← (if decide (0 < length)
               then wrap_err "read frame payload: %w" (ReadFull length)
               else mret []);
    mret (mkFrame typ payload).

Definition WriteFrame (typ : byte) (payload : list byte) : IO unit :=
  if decide (Z.shiftl 1 24 < zlen payload) then
    fail (Errorf "frame payload too large: %d" [AInt (zlen payload)])
  else
    let header := be_put 4 (uint32 (zlen payload)) ++ [typ] in
    _ ← wrap_err "write frame header: %w" (Write header);
    if decide (0 < zlen payload)
    then wrap_err "write frame payload: %w" (Write payload)
    else mret tt.

(** The wire format. *)
Definition frame_bytes (f : Frame) : list byte :=
  be_put 4 (zlen (frame_payload f)) ++ [frame_type f] ++ frame_payload f.

(** The frames the codec carries. *)
Definition frame_ok (f : Frame) : Prop := zlen (frame_payload f) <= maxFramePayload.

#[global] Instance frame_ok_dec f : Decision (frame_ok f).
Proof. unfold frame_ok. apply _. Defined.

(** A reader that collects frames until the connection ends, as the read loop
    does; [fuel] bounds the number of frames. *)
Fixpoint ReadFrames (fuel : nat) (c : conn) : list Frame * error * conn :=
  match fuel with
  | O => ([], EOF, c)
  | S k =>
      match ReadFrame c with
      | (Ok f, c') => let '(fs, e, c'') := ReadFrames k c' in (f :: fs, e, c'')
      | (Err e, c') => ([], e, c')
      end
  end.

(** ** Lemmas *)

Lemma maxFramePayload_eq : maxFramePayload = 2 ^ 24.
Proof. done. Qed.

Lemma length_frame_bytes f : length (frame_bytes f) = (5 + length (frame_payload f))%nat.
Proof. unfold frame_bytes. rewrite !length_app, length_be_put. done. Qed.

Lemma frame_length_header f :
  frame_ok f -> be_get (be_put 4 (zlen (frame_payload f))) = zlen (frame_payload f).
Proof.
  unfold frame_ok. rewrite maxFramePayload_eq. intros. rewrite be_get_put.
  apply Z.mod_small. pose proof (zlen_nonneg (frame_payload f)). lia.
Qed.

Lemma ReadFrame_bytes f c r :
  frame_ok f -> rx c = frame_bytes f ++ r ->
  ReadFrame c = (Ok f, Conn r (rx_end c) (tx c) (tx_room c) (tx_err c)).
Proof.
  intros Hok E. unfold ReadFrame, mbind, IO_bind, wrap_err.
  rewrite (ReadFull_ok 5 c (be_put 4 (zlen (frame_payload f)) ++ [frame_type f])
             (frame_payload f ++ r)).
  2:{ rewrite E. unfold frame_bytes. by rewrite <-!app_assoc. }
  2:{ rewrite zlen_app, zlen_be_put. done. }
  rewrite take_app_length' by (by rewrite length_be_put).
  rewrite lookup_app_r by (rewrite length_be_put; lia).
  rewrite length_be_put. simpl default. rewrite frame_length_header by done.
  rewrite decide_False by (unfold frame_ok in Hok; lia).
  pose proof (zlen_nonneg (frame_payload f)). case_decide.
  - rewrite (ReadFull_ok _ _ (frame_payload f) r) by done. simpl. by destruct f.
  - assert (frame_payload f = []) as Hp by (apply zlen_0; lia).
    unfold mret, IO_ret. rewrite Hp. destruct f; simpl in *; subst. done.
Qed.

Lemma ReadFrame_sound c f c' :
  ReadFrame c = (Ok f, c') ->
  frame_ok f /\ rx c = frame_bytes f ++ rx c'
  /\ c' = Conn (rx c') (rx_end c) (tx c) (tx_room c) (tx_err c).
Proof.
  unfold ReadFrame, mbind, IO_bind, wrap_err.
  destruct (ReadFull 5 c) as [[h|e] c1] eqn:E1; [|done].
  apply ReadFull_inv in E1 as (Hrx & Hh & Hc1); [|lia].
  assert (exists l t, h = l ++ [t] /\ length l = 4%nat) as (l & t & -> & Hl).
  { destruct h as [|b0 [|b1 [|b2 [|b3 [|b4 [|]]]]]]; try (exfalso; clear -Hh; len_lia).
    by exists [b0; b1; b2; b3], b4. }
  rewrite take_app_length' by done. rewrite lookup_app_r, Hl by lia. simpl default.
  case_decide as Hmax; [done|].
  pose proof (be_get_range l) as Hr.
  assert (Hlen : forall p : list byte, zlen p = be_get l -> be_put 4 (zlen p) = l).
  { intros p ->. by apply be_put_get_n. }
  case_decide as Hpos.
  - destruct (ReadFull (be_get l) c1) as [[p|e] c2] eqn:E2; [|done].
    apply ReadFull_inv in E2 as (Hrx2 & Hp & Hc2); [|lia].
    intros [= <- <-]. unfold frame_ok, frame_bytes. cbn [frame_type frame_payload]. rewrite Hlen by done.
    split; [lia|]. split; [|rewrite Hc2, Hc1; done].
    rewrite Hrx, Hrx2. by rewrite <-!app_assoc.
  - intros [= <- <-]. unfold frame_ok, frame_bytes. cbn [frame_type frame_payload].
    rewrite (Hlen []) by (rewrite zlen_nil; lia).
    split; [by rewrite maxFramePayload_eq|]. split; [|done].
    rewrite Hrx. by rewrite <-!app_assoc.
Qed.

(** The frame [WriteFrame typ payload] puts on the wire. *)
Lemma WriteFrame_writes typ p c :
  frame_ok (mkFrame typ p) -> room (5 + length p) c ->
  WriteFrame typ p c = (Ok tt, advance 0 (frame_bytes (mkFrame typ p)) c).
Proof.
  unfold frame_ok. simpl. intros Hok Hroom. unfold WriteFrame.
  pose proof (zlen_nonneg p). rewrite maxFramePayload_eq in Hok.
  change (Z.shiftl 1 24) with (2 ^ 24). rewrite decide_False by lia.
  assert (uint32 (zlen p) = zlen p) as -> by (unfold uint32, wrap; apply Z.mod_small; lia).
  set (h := be_put 4 (zlen p) ++ [typ]).
  assert (length h = 5%nat) as Hh by (unfold h; by rewrite length_app, length_be_put).
  unfold mbind, IO_bind, wrap_err. rewrite Write_ok by (rewrite Hh; eapply room_le; [|done]; lia).
  assert (frame_bytes (mkFrame typ p) = h ++ p) as ->.
  { unfold frame_bytes, h. by rewrite <-app_assoc. }
  case_decide.
  - rewrite Write_ok by (apply room_advance; rewrite Hh; done).
    by rewrite advance_advance.
  - assert (p = []) as -> by (apply zlen_0; lia). by rewrite app_nil_r.
Qed.

Lemma WriteFrame_not_ok f c :
  ~ frame_ok f ->
  WriteFrame (frame_type f) (frame_payload f) c =
    (Err (Errorf "frame payload too large: %d" [AInt (zlen (frame_payload f))]), c).
Proof. unfold frame_ok, WriteFrame, maxFramePayload. intros. by rewrite decide_True by lia. Qed.

Lemma WriteFrame_frame f c :
  frame_ok f -> tx_room c = None ->
  WriteFrame (frame_type f) (frame_payload f) c = (Ok tt, advance 0 (frame_bytes f) c).
Proof.
  intros Hok Hroom. destruct f. apply WriteFrame_writes; [done|]. unfold room. by rewrite Hroom.
Qed.

(** Whatever happens, [WriteFrame] writes a prefix of the frame. *)
Lemma WriteFrame_prefix typ p c r c' :
  WriteFrame typ p c = (r, c') ->
  rx c' = rx c /\ rx_end c' = rx_end c /\
  exists k, tx c' = tx c ++ take k (frame_bytes (mkFrame typ p)).
Proof.
  unfold WriteFrame. case_decide as Hbig.
  { intros [= <- <-]. split; [done|]. split; [done|]. exists 0%nat. by rewrite take_0, app_nil_r. }
  pose proof (zlen_nonneg p). change (Z.shiftl 1 24) with (2 ^ 24) in *.
  assert (uint32 (zlen p) = zlen p) as -> by (unfold uint32, wrap; apply Z.mod_small; lia).
  set (h := be_put 4 (zlen p) ++ [typ]).
  assert (frame_bytes (mkFrame typ p) = h ++ p) as ->.
  { unfold frame_bytes, h. by rewrite <-app_assoc. }
  clearbody h.
  unfold mbind, IO_bind, wrap_err. destruct (decide (room (length h) c)) as [Hr|Hr].
  - rewrite Write_ok by done. case_decide.
    + destruct (decide (room (length p) (advance 0 h c))) as [Hr2|Hr2].
      * rewrite Write_ok by done. rewrite advance_advance. intros [= <- <-]. simpl.
        rewrite drop_0. split; [done|]. split; [done|]. exists (length (h ++ p)). by rewrite firstn_all.
      * destruct (Write_short _ _ Hr2) as (k & ? & ? & ->). intros [= <- <-]. simpl.
        rewrite drop_0. split; [done|]. split; [done|]. exists (length h + k)%nat.
        by rewrite take_app_add, app_assoc.
    + intros [= <- <-]. simpl. rewrite drop_0. split; [done|]. split; [done|].
      exists (length h). by rewrite take_app_length.
  - destruct (Write_short _ _ Hr) as (k & ? & ? & ->). intros [= <- <-]. simpl.
    split; [done|]. split; [done|]. exists k. by rewrite take_app_le by lia.
Qed.

(** Writing a list of frames, one [WriteFrame] call each. *)
Fixpoint WriteFrames (fs : list Frame) : IO unit :=
  match fs with
  | [] => mret tt
  | f :: fs => _ ← WriteFrame (frame_type f) (frame_payload f); WriteFrames fs
  end.

Lemma WriteFrames_writes fs c :
  Forall frame_ok fs -> tx_room c = None ->
  WriteFrames fs c = (Ok tt, advance 0 (mjoin (frame_bytes <$> fs)) c).
Proof.
  revert c. induction fs as [|f fs IH]; intros c Hok Hroom.
  - destruct c; simpl in *; subst. cbn. unfold advance, mret, IO_ret. simpl. by rewrite app_nil_r, drop_0.
  - inversion_clear Hok. cbn [WriteFrames]. unfold mbind at 1, IO_bind.
    rewrite WriteFrame_writes by (unfold room; try rewrite Hroom; destruct f; done).
    rewrite IH by (unfold advance; simpl; by rewrite ?Hroom).
    rewrite advance_advance. by destruct f.
Qed.

Lemma ReadFrames_bytes fs c r fuel :
  Forall frame_ok fs -> rx c = mjoin (frame_bytes <$> fs) ++ r ->
  ReadFrames (length fs + fuel) c =
    let '(fs', e, c') := ReadFrames fuel (Conn r (rx_end c) (tx c) (tx_room c) (tx_err c)) in
    (fs ++ fs', e, c').
Proof.
  revert c. induction fs as [|f fs IH]; intros c Hok E; simpl in *.
  - subst. rewrite conn_eta. by destruct (ReadFrames fuel c) as [[]].
  - inversion_clear Hok. rewrite <-app_assoc in E.
    rewrite (ReadFrame_bytes f c (mjoin (frame_bytes <$> fs) ++ r)) by done.
    rewrite IH by done. simpl. by destruct (ReadFrames fuel _) as [[]].
Qed.

(** ** Properties *)

(** C22: [ReadFrame] parses exactly the wire format: it returns [f] if and only
    if the input starts with the encoding of [f] and the payload is within the
    limit; it consumes that encoding and nothing else, and writes nothing. *)
Theorem ReadFrame_exact (c : conn) (f : Frame) (c' : conn) :
  ReadFrame c = (Ok f, c') <->
  frame_ok f /\ rx c = frame_bytes f ++ rx c'
  /\ c' = Conn (rx c') (rx_end c) (tx c) (tx_room c) (tx_err c).
Proof.
  split; [apply ReadFrame_sound|]. intros (Hok & Hrx & Hc').
  by rewrite (ReadFrame_bytes f c (rx c')), <-Hc'.
Qed.

(** C10: any sequence of frames within the payload limit survives the wire:
    written one after the other on a healthy connection and read back by the
    peer until it sees the end of the stream, the same frames come out in the
    same order, followed by the end-of-stream error and nothing left over. *)
Theorem frames_roundtrip (fs : list Frame) (fuel : nat) :
  Forall frame_ok fs -> (length fs < fuel)%nat ->
  exists c, WriteFrames fs (conn_of []) = (Ok tt, c) /\
    ReadFrames fuel (conn_of (tx c)) =
      (fs, Wrapf "read frame header: %w" [] EOF, conn_of []).
Proof.
  intros Hok Hfuel. eexists. split; [by rewrite WriteFrames_writes|]. simpl tx.
  replace fuel with (length fs + S (fuel - length fs - 1))%nat by lia.
  rewrite (ReadFrames_bytes fs (conn_of _) []) by (try done; simpl; by rewrite app_nil_r).
  simpl. by rewrite app_nil_r.
Qed.

Lemma frames_roundtrip_witness :
  let fs := [mkFrame FramePing [x00; xff]; mkFrame FrameRegister []] in
  exists c, WriteFrames fs (conn_of []) = (Ok tt, c) /\
    ReadFrames 3 (conn_of (tx c)) = (fs, Wrapf "read frame header: %w" [] EOF, conn_of []).
Proof.
  apply (frames_roundtrip [mkFrame FramePing [x00; xff]; mkFrame FrameRegister []] 3).
  - repeat constructor; vm_compute; discriminate.
  - simpl; lia.
Defined.

(** A frame cut anywhere is an error, never a shorter frame: on a strict
    prefix of an encoding followed by the end of the stream, [ReadFrame]
    reports a clean end only at the two places where no byte of the part it
    reads had arrived (before the header, or right after it), an unexpected
    end everywhere else, and consumes the whole prefix. *)
Theorem ReadFrame_truncated (f : Frame) (k : nat) :
  frame_ok f -> (k < length (frame_bytes f))%nat ->
  ReadFrame (conn_of (take k (frame_bytes f))) =
    (Err (Wrapf (if decide (k < 5)%nat then "read frame header: %w" else "read frame payload: %w") []
            (if decide (k = 0 \/ k = 5)%nat then EOF else ErrUnexpectedEOF)),
     conn_of []).
Proof.
  intros Hok Hk. rewrite length_frame_bytes in Hk.
  set (h := be_put 4 (zlen (frame_payload f)) ++ [frame_type f]).
  assert (frame_bytes f = h ++ frame_payload f) as ->
    by (unfold frame_bytes, h; by rewrite <-app_assoc).
  assert (length h = 5%nat) as Hh by (unfold h; by rewrite length_app, length_be_put).
  unfold ReadFrame, mbind, IO_bind, wrap_err, conn_of.
  destruct (decide (k < 5)%nat) as [Hlt|Hge].
  - unfold ReadFull. cbn [rx rx_end tx tx_room tx_err].
    rewrite (decide_False (P := 5 <= _)) by (unfold zlen; rewrite length_take, length_app; lia).
    destruct (decide (k = 0)%nat) as [->|Hk0]; [done|].
    rewrite (decide_False (P := k = 0%nat \/ k = 5%nat)) by lia.
    rewrite decide_False; [done|]. intros Hn%(f_equal length).
    rewrite length_take, length_app in Hn. simpl in Hn; lia.
  - rewrite take_app_ge, Hh by lia.
    rewrite (ReadFull_ok 5 _ h (take (k - 5) (frame_payload f))) by (try done; unfold zlen; lia).
    assert (be_get (take 4 h) = zlen (frame_payload f)) as ->.
    { unfold h. rewrite take_app_length' by done. by apply frame_length_header. }
    rewrite (decide_False (P := maxFramePayload < _)) by (unfold frame_ok in Hok; lia).
    rewrite (decide_True (P := 0 < _)) by (unfold zlen; lia).
    unfold ReadFull. cbn [rx rx_end tx tx_room tx_err].
    rewrite (decide_False (P := zlen _ <= _)) by (unfold zlen; rewrite length_take; lia).
    destruct (decide (k = 5)%nat) as [->|Hk5]; [done|].
    rewrite (decide_False (P := k = 0%nat \/ k = 5%nat)) by lia.
    rewrite decide_False; [done|]. intros Hn%(f_equal length).
    rewrite length_take in Hn. simpl in Hn; lia.
Qed.

Lemma ReadFrame_truncated_witness :
  ReadFrame (conn_of [x00; x00; x00; x02; x01; xff]) =
    (Err (Wrapf "read frame payload: %w" [] ErrUnexpectedEOF), conn_of []).
Proof.
  apply (ReadFrame_truncated (mkFrame FramePing [xff; x00]) 6).
  - vm_compute; discriminate.
  - vm_compute; lia.
Defined.
