(* ===== verification/Tunnels.v ===== *)
(** * The register payload ([src/relay/ctrlconn.go]: [RemoteTunnel],
    [packTunnels], [unpackTunnels])

    A client announces its reverse tunnels as a two-byte count and, per
    tunnel, the port, the bind address and the target, the strings prefixed by
    a two-byte length.  The lengths are truncated to 16 bits by the encoder;
    [tunnels_ok] is what survives that. *)
From S2P Require Import Prelude.

Record RemoteTunnel := mkTunnel {
  RemotePort : Z;
  BindAddr : string;
  TargetAddr : string;
}.

#[global] Instance RemoteTunnel_eq_dec : EqDecision RemoteTunnel.
Proof. solve_decision. Defined.

(** One iteration of the loop of [packTunnels]. *)
Definition packTunnels_step (buf : list byte) (t : RemoteTunnel) : list byte :=
  let buf := buf ++ be_put 2 (RemotePort t) in
  let bindBytes := bytes_of (BindAddr t) in
  let buf := buf ++ be_put 2 (uint16 (zlen bindBytes)) in
  let buf := buf ++ bindBytes in
  let targetBytes := bytes_of (TargetAddr t) in
  let buf := buf ++ be_put 2 (uint16 (zlen targetBytes)) in
  buf ++ targetBytes.

Definition packTunnels (tunnels : list RemoteTunnel) : list byte :=
  foldl packTunnels_step (be_put 2 (uint16 (zlen tunnels))) tunnels.

(** [for range count { ... }] of [unpackTunnels]. *)
Fixpoint unpackTunnels_loop (count : nat) (data : list byte) (tunnels : list RemoteTunnel)
    : result (list RemoteTunnel) :=
  match count with
  | O => Ok tunnels
  | S count =>
      if decide (zlen data < 4) then Err (Errorf "short tunnel entry" []) else
      let port := be_get (take 2 data) in
      let bindLen := be_get (take 2 (drop 2 data)) in
      let data := drop 4 data in
      if decide (zlen data < bindLen) then Err (Errorf "short bind address" []) else
      let bind := string_of (take (Z.to_nat bindLen) data) in
      let data := drop (Z.to_nat bindLen) data in
      if decide (zlen data < 2) then Err (Errorf "short target length" []) else
      let targetLen := be_get (take 2 data) in
      let data := drop 2 data in
      if decide (zlen data < targetLen) then Err (Errorf "short target address" []) else
      let target := string_of (take (Z.to_nat targetLen) data) in
      let data := drop (Z.to_nat targetLen) data in
      unpackTunnels_loop count data (tunnels ++ [mkTunnel port bind target])
  end.

Definition unpackTunnels (data : list byte) : result (list RemoteTunnel) :=
  if decide (zlen data < 2) then Err (Errorf "short register payload" []) else
  let count := be_get (take 2 data) in
  unpackTunnels_loop (Z.to_nat count) (drop 2 data) [].

(** The tunnels the format can carry. *)
Definition tunnel_ok (t : RemoteTunnel) : Prop :=
  0 <= RemotePort t < 2 ^ 16 /\ zlen (bytes_of (BindAddr t)) < 2 ^ 16
  /\ zlen (bytes_of (TargetAddr t)) < 2 ^ 16.

Definition tunnels_ok (ts : list RemoteTunnel) : Prop :=
  zlen ts < 2 ^ 16 /\ Forall tunnel_ok ts.

#[global] Instance tunnel_ok_dec t : Decision (tunnel_ok t).
Proof. unfold tunnel_ok. apply _. Defined.
#[global] Instance tunnels_ok_dec ts : Decision (tunnels_ok ts).
Proof. unfold tunnels_ok. apply _. Defined.

(** One entry on the wire. *)
Definition entry_bytes (t : RemoteTunnel) : list byte :=
  be_put 2 (RemotePort t) ++ be_put 2 (zlen (bytes_of (BindAddr t))) ++ bytes_of (BindAddr t)
  ++ be_put 2 (zlen (bytes_of (TargetAddr t))) ++ bytes_of (TargetAddr t).

(** ** Lemmas *)

Lemma be_put_uint16 z : be_put 2 (uint16 z) = be_put 2 z.
Proof. exact (be_put_mod 2 z). Qed.

Lemma be_get_put2 z : 0 <= z < 2 ^ 16 -> be_get (be_put 2 z) = z.
Proof. intros. rewrite be_get_put. by apply Z.mod_small. Qed.

Lemma packTunnels_eq ts :
  packTunnels ts = be_put 2 (zlen ts) ++ mjoin (entry_bytes <$> ts).
Proof.
  unfold packTunnels. rewrite be_put_uint16. generalize (be_put 2 (zlen ts)) as buf.
  induction ts as [|t ts IH]; intros buf; simpl; [by rewrite app_nil_r|].
  rewrite IH. unfold packTunnels_step, entry_bytes. by rewrite !be_put_uint16, <-!app_assoc.
Qed.

(** Splitting a list at a known prefix of known length. *)
Lemma take_drop_2 z (r : list byte) :
  take 2 (be_put 2 z ++ r) = be_put 2 z /\ drop 2 (be_put 2 z ++ r) = r.
Proof. split; [apply take_app_length'|apply drop_app_length']; by rewrite length_be_put. Qed.

Lemma drop_4 y z (r : list byte) : drop 4 (be_put 2 y ++ be_put 2 z ++ r) = r.
Proof. rewrite app_assoc. apply drop_app_length'. by rewrite length_app, !length_be_put. Qed.

Lemma unpackTunnels_loop_entry n t r acc :
  tunnel_ok t ->
  unpackTunnels_loop (S n) (entry_bytes t ++ r) acc = unpackTunnels_loop n r (acc ++ [t]).
Proof.
  intros (Hp & Hb & Ht). unfold entry_bytes. rewrite <-!app_assoc.
  set (b := bytes_of (BindAddr t)) in *. set (g := bytes_of (TargetAddr t)) in *.
  pose proof (zlen_nonneg b). pose proof (zlen_nonneg g). pose proof (zlen_nonneg r).
  cbn [unpackTunnels_loop].
  rewrite decide_False by (rewrite !zlen_app, !zlen_be_put; lia).
  rewrite drop_4, !(proj1 (take_drop_2 _ _)), !(proj2 (take_drop_2 _ _)).
  rewrite !(proj1 (take_drop_2 _ _)), !be_get_put2 by lia.
  rewrite decide_False by (rewrite !zlen_app, !zlen_be_put; lia).
  rewrite take_zlen_app, drop_zlen_app.
  rewrite decide_False by (rewrite !zlen_app, !zlen_be_put; lia).
  rewrite !(proj1 (take_drop_2 _ _)), !(proj2 (take_drop_2 _ _)), !be_get_put2 by lia.
  rewrite decide_False by (rewrite !zlen_app; lia).
  rewrite take_zlen_app, drop_zlen_app. unfold b, g. rewrite !string_of_bytes_of. by destruct t.
Qed.

Lemma unpackTunnels_loop_complete ts r acc :
  Forall tunnel_ok ts ->
  unpackTunnels_loop (length ts) (mjoin (entry_bytes <$> ts) ++ r) acc = Ok (acc ++ ts).
Proof.
  revert acc. induction ts as [|t ts IH]; intros acc Hok; [by rewrite app_nil_r|].
  inversion_clear Hok. cbn [length fmap list_fmap mjoin list_join]. rewrite <-app_assoc.
  rewrite unpackTunnels_loop_entry, IH by done. by rewrite <-app_assoc.
Qed.

(** Any two-byte prefix is the encoding of some 16-bit integer. *)
Lemma split_be2 (data : list byte) :
  2 <= zlen data -> exists z r, data = be_put 2 z ++ r /\ 0 <= z < 2 ^ 16.
Proof.
  intros H. exists (be_get (take 2 data)), (drop 2 data).
  assert (length (take 2 data) = 2%nat) as Hl by (unfold zlen in H; rewrite length_take; lia).
  rewrite be_put_get_n by done. rewrite take_drop. split; [done|].
  pose proof (be_get_range (take 2 data)) as Hr. unfold zlen in Hr. by rewrite Hl in Hr.
Qed.

(** Any string prefix of a known length. *)
Lemma split_string (data : list byte) n :
  0 <= n <= zlen data -> exists s r, data = bytes_of s ++ r /\ zlen (bytes_of s) = n.
Proof.
  intros H. exists (string_of (take (Z.to_nat n) data)), (drop (Z.to_nat n) data).
  rewrite bytes_of_string_of, take_drop. split; [done|]. by apply zlen_take_le.
Qed.

Lemma unpackTunnels_loop_step n data acc res :
  unpackTunnels_loop (S n) data acc = Ok res ->
  exists t r, data = entry_bytes t ++ r /\ tunnel_ok t
    /\ unpackTunnels_loop n r (acc ++ [t]) = Ok res.
Proof.
  cbn [unpackTunnels_loop]. case_decide as H1; [done|].
  destruct (split_be2 data) as (p & d1 & -> & Hp); [lia|].
  rewrite zlen_app, zlen_be_put in H1.
  destruct (split_be2 d1) as (bl & d2 & -> & Hbl); [lia|].
  rewrite drop_4, !(proj1 (take_drop_2 _ _)), !(proj2 (take_drop_2 _ _)),
    !(proj1 (take_drop_2 _ _)), !be_get_put2 by lia.
  case_decide as H2; [done|].
  destruct (split_string d2 bl) as (b & d3 & -> & <-); [lia|].
  rewrite take_zlen_app, drop_zlen_app. case_decide as H3; [done|].
  destruct (split_be2 d3) as (tl & d4 & -> & Htl); [lia|].
  rewrite !(proj1 (take_drop_2 _ _)), !(proj2 (take_drop_2 _ _)), !be_get_put2 by lia.
  case_decide as H4; [done|].
  destruct (split_string d4 tl) as (g & d5 & -> & <-); [lia|].
  rewrite take_zlen_app, drop_zlen_app, !string_of_bytes_of. intros E.
  exists (mkTunnel p b g), d5. split_and!.
  - unfold entry_bytes. by rewrite <-!app_assoc.
  - split_and!; simpl; lia.
  - done.
Qed.

Lemma unpackTunnels_loop_sound n data acc res :
  unpackTunnels_loop n data acc = Ok res ->
  exists ts r, res = acc ++ ts /\ length ts = n /\ Forall tunnel_ok ts
    /\ data = mjoin (entry_bytes <$> ts) ++ r.
Proof.
  revert data acc. induction n as [|n IH]; intros data acc.
  { intros [= <-]. exists [], data. by rewrite app_nil_r. }
  intros (t & r & -> & Ht & (ts & r' & -> & <- & Hts & ->)%IH)%unpackTunnels_loop_step.
  exists (t :: ts), r'. simpl. rewrite <-!app_assoc. split_and!; [done|done|by constructor|done].
Qed.

Lemma unpackTunnels_iff data ts :
  unpackTunnels data = Ok ts <-> tunnels_ok ts /\ exists rest, data = packTunnels ts ++ rest.
Proof.
  unfold unpackTunnels, tunnels_ok. split.
  - case_decide; [done|]. destruct (split_be2 data) as (n & d & -> & Hn); [lia|].
    rewrite (proj1 (take_drop_2 _ _)), (proj2 (take_drop_2 _ _)), be_get_put2 by lia.
    intros (ts' & r & -> & Hl & Hok & ->)%unpackTunnels_loop_sound. simpl.
    assert (zlen ts' = n) as <- by (unfold zlen; lia).
    split; [split; [lia|done]|]. exists r. by rewrite packTunnels_eq, <-app_assoc.
  - intros [[Hn Hok] [r ->]]. rewrite packTunnels_eq, <-app_assoc. pose proof (zlen_nonneg ts).
    rewrite decide_False by (rewrite !zlen_app, zlen_be_put;
      pose proof (zlen_nonneg (mjoin (entry_bytes <$> ts))); pose proof (zlen_nonneg r); lia).
    rewrite (proj1 (take_drop_2 _ _)), (proj2 (take_drop_2 _ _)), be_get_put2 by lia.
    unfold zlen at 1. rewrite Nat2Z.id. by rewrite unpackTunnels_loop_complete.
Qed.

(** ** Properties *)

(** C20: [unpackTunnels] is the inverse of [packTunnels]: it returns [ts] if and
    only if the payload begins with the packing of [ts] and every count, port
    and length fits its 16-bit field; bytes after the last tunnel are
    ignored, and every other payload is rejected. *)
Theorem unpackTunnels_exact (data : list byte) (ts : list RemoteTunnel) :
  unpackTunnels data = Ok ts <-> tunnels_ok ts /\ exists rest, data = packTunnels ts ++ rest.
Proof. apply unpackTunnels_iff. Qed.

(** [packTunnels] loses information exactly outside [tunnels_ok]: a list
    with 65536 tunnels or an address of 65536 bytes has its 16-bit count or
    length field wrapped, and the server does not get it back. *)
Theorem packTunnels_lossless_iff (ts : list RemoteTunnel) :
  unpackTunnels (packTunnels ts) = Ok ts <-> tunnels_ok ts.
Proof.
  rewrite unpackTunnels_iff. split; [by intros [? _]|].
  intros H. split; [done|]. exists []. by rewrite app_nil_r.
Qed.
