(* ===== verification/Auth.v ===== *)
(** * Authentication and registration ([src/relay/auth.go]) and the session
    set-up built from them ([handleClient] in [src/relay/remoteserver.go],
    [connect] in [src/relay/remoteclient.go])

    Every function is an [IO] computation on its end of the control
    connection; the exchange of the two ends is run by feeding one side's
    output to the other. *)
From S2P Require Import Prelude Conn Frame Tunnels.

Definition boolToByte (b : bool) : byte := if b then x01 else x00.

Definition AuthClient (token : string) : IO unit :=
  let tokenBytes := bytes_of token in
  let payload := be_put 2 (uint16 (zlen tokenBytes)) ++ tokenBytes in
  _ ← wrap_err "auth send: %w" (WriteFrame FrameAuthRequest payload);
  frame ← wrap_err "auth response: %w" ReadFrame;
  if decide (frame_type frame <> FrameAuthResponse) then
    fail (Errorf "unexpected frame type %d during auth" [AInt (byte_to_Z (frame_type frame))])
  else if decide (zlen (frame_payload frame) < 1 \/ frame_payload frame !! 0%nat = Some x00) then
    fail (Errorf "auth rejected" [])
  else mret tt.

Definition AuthServer (token : string) : IO unit :=
  frame ← wrap_err "auth request: %w" ReadFrame;
  if decide (frame_type frame <> FrameAuthRequest) then
    fail (Errorf "expected auth request, got type %d" [AInt (byte_to_Z (frame_type frame))])
  else if decide (zlen (frame_payload frame) < 2) then
    fail (Errorf "short auth payload" [])
  else
    let tokLen := be_get (take 2 (frame_payload frame)) in
    if decide (tokLen <> zlen (frame_payload frame) - 2) then
      fail (Errorf "auth token length mismatch" [])
    else
      let receivedToken := string_of (drop 2 (frame_payload frame)) in
      let ok := bool_decide (receivedToken = token) in
      _ ← wrap_err "auth reply: %w" (WriteFrame FrameAuthResponse [boolToByte ok]);
      if ok then mret tt else fail (Errorf "auth failed: token mismatch" []).

Definition RegisterClient (tunnels : list RemoteTunnel) : IO unit :=
  WriteFrame FrameRegister (packTunnels tunnels).

Definition RegisterServer : IO (list RemoteTunnel) :=
  frame ← wrap_err "register read: %w" ReadFrame;
  if decide (frame_type frame <> FrameRegister) then
    fail (Errorf "expected register, got type %d" [AInt (byte_to_Z (frame_type frame))])
  else lift (unpackTunnels (frame_payload frame)).

(** The part of [RemoteServer.handleClient] that precedes the control
    connection: the tunnels the client may have, or the reason it is dropped. *)
Definition handleClient_setup (token : string) : IO (list RemoteTunnel) :=
  _ ← (if decide (token <> "") then AuthServer token else mret tt);
  RegisterServer.

(** The part of [RemoteClient.connect] between the dial and the control
    connection. *)
Definition connect_setup (token : string) (tunnels : list RemoteTunnel) : IO unit :=
  _ ← (if decide (token <> "") then wrap_err "auth: %w" (AuthClient token) else mret tt);
  wrap_err "register: %w" (RegisterClient tunnels).

(** The request frame of a client with this token. *)
Definition auth_request (token : string) : Frame :=
  mkFrame FrameAuthRequest (be_put 2 (zlen (bytes_of token)) ++ bytes_of token).

Definition auth_response (ok : bool) : Frame :=
  mkFrame FrameAuthResponse [boolToByte ok].

Definition register_frame (ts : list RemoteTunnel) : Frame :=
  mkFrame FrameRegister (packTunnels ts).

(** One round trip: the client's first message, the server's answer to it,
    the client's whole run with that answer, the server's whole run on
    everything the client sent.  The server's first run and the client's first
    run are prefixes of the second ones, since both are deterministic. *)
Definition session (ct : string) (ts : list RemoteTunnel) (st : string)
    : result unit * (result (list RemoteTunnel) * conn) :=
  let request := tx (snd (connect_setup ct ts (conn_of []))) in
  let answer := tx (snd (handleClient_setup st (conn_of request))) in
  let '(cr, c) := connect_setup ct ts (conn_of answer) in
  (cr, handleClient_setup st (conn_of (tx c))).

(** The pairs of tokens with which a session is accepted. *)
Definition tokens_match (ct st : string) : Prop :=
  ct = st /\ zlen (bytes_of ct) < 2 ^ 16.

#[global] Instance tokens_match_dec ct st : Decision (tokens_match ct st).
Proof. unfold tokens_match. apply _. Defined.

(** ** Lemmas *)

Lemma frame_bytes_response ok : length (frame_bytes (auth_response ok)) = 6%nat.
Proof. by rewrite length_frame_bytes. Qed.

Lemma auth_response_ok ok : frame_ok (auth_response ok).
Proof. by destruct ok. Qed.

Lemma frame_bytes_inj_app f g r s :
  frame_ok f -> frame_ok g -> frame_bytes f ++ r = frame_bytes g ++ s -> f = g /\ r = s.
Proof.
  intros Hf Hg E.
  pose proof (ReadFrame_bytes f (conn_of (frame_bytes f ++ r)) r Hf eq_refl) as E1.
  pose proof (ReadFrame_bytes g (conn_of (frame_bytes g ++ s)) s Hg eq_refl) as E2.
  rewrite E in E1. rewrite E1 in E2. by simplify_eq.
Qed.

Lemma auth_request_ok token : zlen (bytes_of token) < 2 ^ 16 -> frame_ok (auth_request token).
Proof.
  unfold frame_ok, auth_request. simpl. rewrite maxFramePayload_eq, zlen_app, zlen_be_put. lia.
Qed.

Lemma auth_request_inj token st : auth_request token = auth_request st -> token = st.
Proof.
  intros Hf%(f_equal frame_payload). unfold auth_request in Hf. cbn [frame_payload] in Hf.
  apply (inj bytes_of). by apply app_inj_1 in Hf as [_ Hf]; [|rewrite !length_be_put].
Qed.

(** A request payload with a consistent length is the request of its token. *)
Lemma auth_payload_inv p :
  2 <= zlen p -> be_get (take 2 p) = zlen p - 2 ->
  exists token, p = frame_payload (auth_request token) /\ string_of (drop 2 p) = token
    /\ zlen (bytes_of token) < 2 ^ 16.
Proof.
  intros H2 Hl. destruct (split_be2 p) as (n & r & -> & Hn); [done|].
  rewrite zlen_app, zlen_be_put, (proj1 (take_drop_2 _ _)), be_get_put2 in Hl by done.
  exists (string_of r). rewrite (proj2 (take_drop_2 _ _)). cbn [auth_request frame_payload].
  rewrite bytes_of_string_of. replace (zlen r) with n by lia. split_and!; [done|done|lia].
Qed.

(** [AuthServer] on a connection whose next frame is [f]. *)
Lemma AuthServer_request token st r c :
  zlen (bytes_of token) < 2 ^ 16 -> rx c = frame_bytes (auth_request token) ++ r -> room 6 c ->
  AuthServer st c =
    ((if decide (token = st) then Ok tt else Err (Errorf "auth failed: token mismatch" [])),
     advance (length (frame_bytes (auth_request token)))
       (frame_bytes (auth_response (bool_decide (token = st)))) c).
Proof.
  intros Hlen E Hroom. unfold AuthServer, mbind, IO_bind, wrap_err.
  rewrite (ReadFrame_bytes _ _ _ (auth_request_ok _ Hlen) E).
  cbn [auth_request frame_type frame_payload]. rewrite decide_False by congruence.
  pose proof (zlen_nonneg (bytes_of token)).
  rewrite decide_False by (rewrite zlen_app, zlen_be_put; lia).
  rewrite (proj1 (take_drop_2 _ _)), (proj2 (take_drop_2 _ _)), be_get_put2, string_of_bytes_of by lia.
  rewrite decide_False by (rewrite zlen_app, zlen_be_put; lia).
  rewrite WriteFrame_writes by done.
  fold (auth_response (bool_decide (token = st))).
  assert (forall p, advance 0 p (Conn r (rx_end c) (tx c) (tx_room c) (tx_err c)) =
    advance (length (frame_bytes (auth_request token))) p c) as ->.
  { intros p. unfold advance. simpl. by rewrite E, drop_app_length, drop_0. }
  case_decide; [by rewrite bool_decide_eq_true_2|by rewrite bool_decide_eq_false_2].
Qed.

(** On any other input [AuthServer] fails without writing a byte. *)
Lemma AuthServer_other st c r c' :
  (forall token rest, zlen (bytes_of token) < 2 ^ 16 ->
     rx c <> frame_bytes (auth_request token) ++ rest) ->
  AuthServer st c = (r, c') -> tx c' = tx c /\ r <> Ok tt.
Proof.
  intros Hno. unfold AuthServer, mbind, IO_bind, wrap_err.
  destruct (ReadFrame c) as [[f|e] c1] eqn:E1.
  - apply ReadFrame_sound in E1 as (Hok & Hrx & Hc1). rewrite Hc1.
    case_decide as Ht; [by intros [= <- <-]|]. case_decide as H2; [by intros [= <- <-]|].
    case_decide as Hl; [by intros [= <- <-]|].
    destruct (auth_payload_inv (frame_payload f)) as (token & Hp & _ & Hlen); [lia|lia|].
    exfalso. apply (Hno token (rx c1) Hlen). rewrite Hrx. f_equal. f_equal.
    destruct f as [ft fp]; simpl in *. subst fp. unfold auth_request. simpl. f_equal.
    destruct (decide (ft = FrameAuthRequest)); [done|by destruct Ht].
  - intros [= <- <-]. split; [|done].
    unfold ReadFrame, mbind, IO_bind, wrap_err in E1.
    destruct (ReadFull 5 c) as [[h|?] c2] eqn:R1.
    + apply ReadFull_frame in R1 as (Ht & _). case_decide.
      * by injection E1 as <- <-.
      * case_decide; [|by injection E1].
        destruct (ReadFull _ c2) as [[?|?] c3] eqn:R2; [by injection E1|].
        apply ReadFull_frame in R2 as (Ht2 & _). injection E1 as <- <-. congruence.
    + apply ReadFull_frame in R1 as (Ht & _). by injection E1 as <- <-.
Qed.

Lemma RegisterServer_iff c ts c' :
  RegisterServer c = (Ok ts, c') <->
  exists p, frame_ok (mkFrame FrameRegister p) /\ unpackTunnels p = Ok ts
    /\ rx c = frame_bytes (mkFrame FrameRegister p) ++ rx c'
    /\ c' = Conn (rx c') (rx_end c) (tx c) (tx_room c) (tx_err c).
Proof.
  unfold RegisterServer, mbind, IO_bind, wrap_err, lift. split.
  - destruct (ReadFrame c) as [[f|e] c1] eqn:E1; [|done].
    apply ReadFrame_sound in E1 as (Hok & Hrx & Hc1).
    case_decide as Ht; [done|]. intros [= Hu <-].
    assert (f = mkFrame FrameRegister (frame_payload f)) as Hf.
    { destruct f; simpl in *. f_equal. by destruct (decide (frame_type = FrameRegister)). }
    exists (frame_payload f). rewrite <-Hf. done.
  - intros (p & Hok & Hu & Hrx & Hc'). rewrite (ReadFrame_bytes _ _ _ Hok Hrx). cbn.
    by rewrite Hu, <-Hc'.
Qed.

(** The two cases of [AuthServer]. *)
Lemma AuthServer_cases st c :
  room 6 c ->
  (exists token rest, zlen (bytes_of token) < 2 ^ 16 /\
     rx c = frame_bytes (auth_request token) ++ rest /\
     AuthServer st c =
       ((if decide (token = st) then Ok tt else Err (Errorf "auth failed: token mismatch" [])),
        advance (length (frame_bytes (auth_request token)))
          (frame_bytes (auth_response (bool_decide (token = st)))) c))
  \/ ((forall token rest, zlen (bytes_of token) < 2 ^ 16 ->
         rx c <> frame_bytes (auth_request token) ++ rest)
      /\ exists e c', AuthServer st c = (Err e, c') /\ tx c' = tx c).
Proof.
  intros Hroom. destruct (ReadFrame c) as [r c1] eqn:E1.
  assert ((exists f p, r = Ok f /\ f = mkFrame FrameAuthRequest p /\ 2 <= zlen p
    /\ be_get (take 2 p) = zlen p - 2) \/ ~ (exists f p, r = Ok f /\ f = mkFrame FrameAuthRequest p
    /\ 2 <= zlen p /\ be_get (take 2 p) = zlen p - 2)) as [H|H].
  { destruct r as [[ft p]|]; [|right; by intros (?&?&?&?)].
    destruct (decide (ft = FrameAuthRequest /\ 2 <= zlen p
      /\ be_get (take 2 p) = zlen p - 2)) as [(Ht&?&?)|Hn].
    - left. subst. by eexists _, _.
    - right. intros (? & ? & [= <-] & [= -> ->] & ? & ?). by apply Hn. }
  - left. destruct H as (f & p & -> & -> & H2 & Hl).
    apply ReadFrame_sound in E1 as (Hok & Hrx & Hc1).
    destruct (auth_payload_inv p H2 Hl) as (token & -> & _ & Hlen).
    exists token, (rx c1). split; [done|]. split; [done|]. by eapply AuthServer_request.
  - right. assert (forall token rest, zlen (bytes_of token) < 2 ^ 16 ->
      rx c <> frame_bytes (auth_request token) ++ rest) as Hno.
    { intros token rest Hlen Hrx. apply H.
      rewrite (ReadFrame_bytes _ _ _ (auth_request_ok _ Hlen) Hrx) in E1. simplify_eq.
      eexists _, _. split; [done|]. split; [done|].
      pose proof (zlen_nonneg (bytes_of token)).
      rewrite (proj1 (take_drop_2 _ _)), zlen_app, zlen_be_put, be_get_put2 by lia. lia. }
    split; [done|]. destruct (AuthServer st c) as [r2 c2] eqn:E2.
    destruct (AuthServer_other _ _ _ _ Hno E2) as [Htx Hr]. destruct r2 as [[]|e]; [done|]. eauto.
Qed.

(** The bytes that make the server with token [st] accept [ts]. *)
Definition setup_bytes (st : string) (p : list byte) : list byte :=
  (if decide (st = "") then [] else frame_bytes (auth_request st))
  ++ frame_bytes (mkFrame FrameRegister p).

Lemma handleClient_setup_sound st c ts c' :
  room 6 c -> handleClient_setup st c = (Ok ts, c') ->
  exists p, frame_ok (mkFrame FrameRegister p) /\ unpackTunnels p = Ok ts
    /\ zlen (bytes_of st) < 2 ^ 16 /\ rx c = setup_bytes st p ++ rx c'.
Proof.
  intros Hroom. unfold handleClient_setup, mbind, IO_bind, setup_bytes.
  destruct (decide (st = "")) as [->|Hst].
  - rewrite decide_False by (intros H; by apply H). cbn [mret IO_ret].
    intros (p & Hok & Hu & Hrx & _)%RegisterServer_iff. exists p. by split_and!.
  - rewrite decide_True by done.
    destruct (AuthServer_cases st c Hroom)
      as [(token & rest & Hlen & Hrx & ->)|(Hno & e & c1 & -> & Htx)]; [|done].
    case_decide; [subst token|done].
    intros (p & Hok & Hu & Hrx' & _)%RegisterServer_iff. exists p. split_and!; [done..|].
    revert Hrx'. unfold advance. cbn [rx]. rewrite Hrx, drop_app_length. intros ->.
    by rewrite <-app_assoc.
Qed.

Lemma handleClient_setup_complete st c ts p rest :
  room 6 c -> frame_ok (mkFrame FrameRegister p) -> unpackTunnels p = Ok ts ->
  zlen (bytes_of st) < 2 ^ 16 -> rx c = setup_bytes st p ++ rest ->
  exists c', handleClient_setup st c = (Ok ts, c') /\ rx c' = rest.
Proof.
  intros Hroom Hok Hu Hlen. unfold handleClient_setup, mbind, IO_bind, setup_bytes.
  rewrite <-app_assoc. destruct (decide (st = "")) as [->|Hst]; intros Hrx.
  - rewrite decide_False by (intros H; by apply H). cbn [mret IO_ret].
    eexists. split; [|shelve]. apply RegisterServer_iff. exists p. split_and!; try done.
    Unshelve. 3: exact (Conn rest (rx_end c) (tx c) (tx_room c) (tx_err c)). all: done.
  - rewrite decide_True by done. rewrite (AuthServer_request st st _ c Hlen Hrx Hroom).
    rewrite decide_True by done. set (c1 := advance _ _ c).
    exists (Conn rest (rx_end c1) (tx c1) (tx_room c1) (tx_err c1)). split; [|done].
    apply RegisterServer_iff. exists p. split_and!; try done.
    unfold c1, advance. cbn [rx]. by rewrite Hrx, drop_app_length.
Qed.

(** *** The two ends together *)

(** [RegisterClient] on a healthy connection: the register frame, or nothing
    when the packed tunnels exceed the frame limit. *)
Lemma RegisterClient_run ts c :
  tx_room c = None ->
  exists r, RegisterClient ts c = (r, advance 0 (if decide (frame_ok (register_frame ts))
      then frame_bytes (register_frame ts) else []) c)
    /\ (r = Ok tt <-> frame_ok (register_frame ts)).
Proof.
  intros Hroom. change (RegisterClient ts) with
    (WriteFrame (frame_type (register_frame ts)) (frame_payload (register_frame ts))).
  case_decide as Hok.
  - exists (Ok tt). by rewrite WriteFrame_frame.
  - exists (Err (Errorf "frame payload too large: %d" [AInt (zlen (packTunnels ts))])).
    rewrite WriteFrame_not_ok by done. split; [|by split].
    unfold advance. rewrite app_nil_r, drop_0, Hroom, <-Hroom, conn_eta. reflexivity.
Qed.

(** [AuthClient] when the peer answers [answer] and then closes. *)
Lemma AuthClient_run token answer :
  frame_ok (auth_request token) ->
  answer = [] \/ (exists ok, answer = frame_bytes (auth_response ok)) ->
  exists r c', AuthClient token (conn_of answer) = (r, c')
    /\ tx c' = frame_bytes (auth_request token) /\ tx_room c' = None
    /\ (r = Ok tt <-> answer = frame_bytes (auth_response true)).
Proof.
  intros Hok Hans. unfold AuthClient. rewrite be_put_uint16.
  unfold mbind, IO_bind, wrap_err.
  change (WriteFrame FrameAuthRequest _) with
    (WriteFrame (frame_type (auth_request token)) (frame_payload (auth_request token))).
  rewrite (WriteFrame_frame (auth_request token) (conn_of answer) Hok eq_refl).
  unfold advance, conn_of. cbn [rx rx_end tx tx_room tx_err app]. rewrite drop_0.
  destruct Hans as [->|[ok ->]].
  - eexists _, _. split; [reflexivity|]. split; [done|]. split; [done|].
    split; [done|]. intros H%(f_equal length). by rewrite frame_bytes_response in H.
  - rewrite (ReadFrame_bytes (auth_response ok) _ []) by (apply auth_response_ok || by rewrite app_nil_r).
    destruct ok; eexists _, _; (split; [reflexivity|]); (split; [done|]); (split; [done|]).
    + done.
    + split; [done|]. intros H.
      pose proof (frame_bytes_inj_app (auth_response false) (auth_response true) [] []) as Hi.
      rewrite !app_nil_r in Hi. by destruct Hi; [apply auth_response_ok..|done|].
Qed.

(** What the server's first run answers to the client's first message. *)
Lemma session_answer ct st :
  ct <> "" -> frame_ok (auth_request ct) ->
  tx (handleClient_setup st (conn_of (frame_bytes (auth_request ct)))).2 =
    if decide (st <> "" /\ zlen (bytes_of ct) < 2 ^ 16)
    then frame_bytes (auth_response (bool_decide (ct = st))) else [].
Proof.
  intros Hct Hok. unfold handleClient_setup, mbind, IO_bind.
  destruct (decide (st = "")) as [->|Hst].
  { rewrite (decide_False (P := "" <> "")) by (intros H; by apply H).
    rewrite decide_False by (intros [H _]; by apply H). cbn [mret IO_ret].
    unfold RegisterServer, mbind, IO_bind, wrap_err.
    rewrite (ReadFrame_bytes (auth_request ct) _ []) by (try done; by rewrite app_nil_r).
    by rewrite decide_True. }
  rewrite (decide_True (P := st <> "")) by done.
  destruct (AuthServer_cases st (conn_of (frame_bytes (auth_request ct))) I)
    as [(token & rest & Hlen & Hrx & ->)|(Hno & e & c1 & -> & Htx)].
  - cbn [rx conn_of] in Hrx. rewrite <-(app_nil_r (frame_bytes (auth_request ct))) in Hrx.
    apply frame_bytes_inj_app in Hrx as [Hf <-]; [|done|by apply auth_request_ok].
    apply auth_request_inj in Hf as <-. rewrite (decide_True (P := st <> "" /\ zlen (bytes_of ct) < 2 ^ 16)) by by split.
    case_decide as Hts; [|by rewrite bool_decide_eq_false_2]. rewrite bool_decide_eq_true_2 by done.
    match goal with |- context [RegisterServer ?c] => destruct (RegisterServer c) as [r c2] eqn:E end.
    cbn [snd]. assert (tx c2 = tx (conn_of (frame_bytes (auth_request ct))) ++ frame_bytes (auth_response true)) as ->; [|done].
    unfold RegisterServer, mbind, IO_bind, wrap_err, advance in E. simpl in E.
    rewrite drop_all in E. vm_compute in E. by injection E as <- <-.
  - rewrite decide_False; [done|]. intros [_ Hlen].
    apply (Hno ct []); [done|]. by rewrite app_nil_r.
Qed.

(** Everything a client puts on the wire in a session. *)
Definition client_sent (ct : string) (ts : list RemoteTunnel) (st : string) : list byte :=
  let reg := if decide (frame_ok (register_frame ts)) then frame_bytes (register_frame ts) else [] in
  if decide (ct = "") then reg
  else if decide (frame_ok (auth_request ct)) then
    frame_bytes (auth_request ct) ++ (if decide (tokens_match ct st) then reg else [])
  else [].

(** [connect_setup] with a token, against an answer. *)
Lemma connect_setup_token ct ts answer :
  ct <> "" -> frame_ok (auth_request ct) ->
  answer = [] \/ (exists ok, answer = frame_bytes (auth_response ok)) ->
  exists r c', connect_setup ct ts (conn_of answer) = (r, c')
    /\ tx c' = frame_bytes (auth_request ct) ++
        (if decide (answer = frame_bytes (auth_response true) /\ frame_ok (register_frame ts))
         then frame_bytes (register_frame ts) else [])
    /\ (r = Ok tt <-> answer = frame_bytes (auth_response true) /\ frame_ok (register_frame ts)).
Proof.
  intros Hct Hok Hans. unfold connect_setup, mbind, IO_bind, wrap_err.
  rewrite decide_True by done.
  destruct (AuthClient_run ct answer Hok Hans) as (r & c1 & -> & Htx & Hroom & Hr).
  destruct r as [[]|e].
  - assert (answer = frame_bytes (auth_response true)) as Ha by (by apply Hr).
    destruct (RegisterClient_run ts c1 Hroom) as (r2 & -> & Hr2).
    destruct r2 as [[]|e2]; eexists _, _; (split; [reflexivity|]); simpl; rewrite Htx; split.
    + assert (frame_ok (register_frame ts)) by (by apply Hr2). by rewrite !decide_True by done.
    + split; [|done]. intros _. split; [done|]. by apply Hr2.
    + assert (~ frame_ok (register_frame ts)) by (intros H; by apply Hr2 in H).
      rewrite !decide_False by tauto. done.
    + split; [done|]. intros [_ H]. by apply Hr2 in H.
  - eexists _, _. split; [reflexivity|]. rewrite Htx.
    assert (answer <> frame_bytes (auth_response true)) by (intros H; by apply Hr in H).
    rewrite decide_False, app_nil_r by tauto. split; [done|]. split; [done|tauto].
Qed.

Lemma session_answer_accepts ct st :
  ct <> "" ->
  let answer := if decide (st <> "" /\ zlen (bytes_of ct) < 2 ^ 16)
                then frame_bytes (auth_response (bool_decide (ct = st))) else [] in
  (answer = [] \/ exists ok, answer = frame_bytes (auth_response ok))
  /\ (answer = frame_bytes (auth_response true) <-> tokens_match ct st).
Proof.
  intros Hct. simpl. unfold tokens_match. case_decide as H.
  - split; [right; eauto|]. split.
    + intros E. destruct (decide (ct = st)); [naive_solver|].
      rewrite bool_decide_eq_false_2 in E by done.
      rewrite <-(app_nil_r (frame_bytes (auth_response false))), <-(app_nil_r (frame_bytes (auth_response true))) in E.
      by apply frame_bytes_inj_app in E as [E _]; [|apply auth_response_ok..].
    + intros [-> _]. by rewrite bool_decide_eq_true_2.
  - split; [by left|]. split; [|naive_solver].
    intros E%(f_equal length). by rewrite frame_bytes_response in E.
Qed.

(** A token too long for a frame stops the client before it writes. *)
Lemma connect_setup_big ct ts :
  ct <> "" -> ~ frame_ok (auth_request ct) ->
  exists e, forall c, connect_setup ct ts c = (Err e, c).
Proof.
  intros Hct Hbig. eexists. intros c. unfold connect_setup. rewrite decide_True by done.
  unfold AuthClient. rewrite be_put_uint16. unfold mbind, IO_bind, wrap_err.
  pose proof (WriteFrame_not_ok (auth_request ct) c Hbig) as E.
  unfold auth_request in E at 1 2. cbn [frame_type frame_payload] in E. rewrite E. reflexivity.
Qed.

Lemma session_client ct ts st :
  exists cr, session ct ts st = (cr, handleClient_setup st (conn_of (client_sent ct ts st)))
    /\ (cr = Ok tt <-> (ct = "" \/ tokens_match ct st) /\ frame_ok (register_frame ts)).
Proof.
  unfold session, client_sent. destruct (decide (ct = "")) as [->|Hct].
  - set (a := tx _). unfold connect_setup, mbind, IO_bind, wrap_err.
    rewrite decide_False by (intros H; by apply H). cbn [mret IO_ret].
    destruct (RegisterClient_run ts (conn_of a) eq_refl) as (r & -> & Hr).
    destruct r as [[]|e]; eexists; (split; [reflexivity|]).
    + split; [|done]. intros _. split; [by left|by apply Hr].
    + split; [done|]. intros [_ H]. by apply Hr in H.
  - destruct (decide (frame_ok (auth_request ct))) as [Hok|Hbig].
    + destruct (connect_setup_token ct ts [] Hct Hok (or_introl eq_refl)) as (r0 & c0 & -> & Htx0 & _).
      cbn [snd]. rewrite Htx0.
      rewrite decide_False, app_nil_r by (intros [H%(f_equal length) _]; by rewrite frame_bytes_response in H).
      rewrite session_answer by done.
      destruct (session_answer_accepts ct st Hct) as [Hans Hacc].
      destruct (connect_setup_token ct ts _ Hct Hok Hans) as (r & c' & -> & Htx & Hr).
      exists r. split.
      * f_equal. f_equal. rewrite Htx. f_equal. f_equal.
        revert Hacc. repeat case_decide; tauto.
      * rewrite Hr. tauto.
    + destruct (connect_setup_big ct ts Hct Hbig) as [e He]. rewrite !He.
      eexists. split; [reflexivity|].
      split; [done|]. intros [[?|[_ Hlen]] _]; [done|]. destruct Hbig. by apply auth_request_ok.
Qed.

(** If what a client sent makes the server accept [ts], the tokens match and
    [ts] is what the client registered. *)
Lemma client_sent_accepted ct ts st p rest :
  zlen (bytes_of st) < 2 ^ 16 -> frame_ok (mkFrame FrameRegister p) -> unpackTunnels p = Ok ts ->
  client_sent ct ts st = setup_bytes st p ++ rest ->
  tokens_match ct st /\ tunnels_ok ts /\ frame_ok (register_frame ts).
Proof.
  intros Hlen Hok Hu E. apply unpackTunnels_iff in Hu as [Hts _].
  assert (Hne : forall f r, [] <> frame_bytes f ++ r).
  { intros f r H%(f_equal length). by rewrite length_app, length_frame_bytes in H. }
  unfold client_sent, setup_bytes in E. rewrite <-app_assoc in E.
  destruct (decide (st = "")) as [->|Hst], (decide (ct = "")) as [->|Hct]; simpl app in E.
  - case_decide; [by split_and!|by apply Hne in E].
  - case_decide as Hreq; [|by apply Hne in E].
    apply frame_bytes_inj_app in E as [[=] _]; done.
  - case_decide; [|by apply Hne in E].
    rewrite <-(app_nil_r (frame_bytes (register_frame ts))) in E.
    apply frame_bytes_inj_app in E as [[=] _]; [done|by apply auth_request_ok].
  - case_decide as Hreq; [|by apply Hne in E].
    apply frame_bytes_inj_app in E as [Ha%auth_request_inj E]; [|done|by apply auth_request_ok].
    case_decide as Hm; [|by apply Hne in E]. case_decide; [by split_and!|by apply Hne in E].
Qed.

(** ** Properties *)

(** The server authenticates a peer exactly when the bytes it sent start
    with the request of the server's own token.  In that case it answers with
    the accepting response and consumes just the request; in every other case
    (wrong token, wrong frame type, inconsistent length, truncated or
    oversized frame) it returns an error and what it wrote, if anything, is
    the rejecting response. *)
Theorem AuthServer_exact (st : string) (c : conn) (r : result unit) (c' : conn) :
  room 6 c -> AuthServer st c = (r, c') ->
  (r = Ok tt /\ zlen (bytes_of st) < 2 ^ 16
     /\ rx c = frame_bytes (auth_request st) ++ rx c'
     /\ tx c' = tx c ++ frame_bytes (auth_response true))
  \/ (r <> Ok tt
     /\ (tx c' = tx c \/ tx c' = tx c ++ frame_bytes (auth_response false))
     /\ ~ (zlen (bytes_of st) < 2 ^ 16 /\ exists rest, rx c = frame_bytes (auth_request st) ++ rest)).
Proof.
  intros Hroom. destruct (AuthServer_cases st c Hroom)
    as [(token & rest & Hlen & Hrx & ->)|(Hno & e & c1 & -> & Htx)].
  - intros [= <- <-]. unfold advance. simpl. case_decide as Ht.
    + left. subst. rewrite bool_decide_eq_true_2 by done. rewrite Hrx, drop_app_length. done.
    + right. rewrite bool_decide_eq_false_2 by done. split; [done|]. split; [by right|].
      intros (Hl & rest' & Hrx'). rewrite Hrx in Hrx'. apply Ht.
      apply frame_bytes_inj_app in Hrx' as [Hf _]; [|by apply auth_request_ok..].
      by apply auth_request_inj.
  - intros [= <- <-]. right. split; [done|]. split; [by left|]. intros (Hl & rest & Hrx). by eapply Hno.
Qed.

Lemma AuthServer_exact_witness :
  (AuthServer "k" (conn_of (frame_bytes (auth_request "k")))).1 = Ok tt /\
  tx (AuthServer "k" (conn_of (frame_bytes (auth_request "k")))).2 = frame_bytes (auth_response true).
Proof.
  destruct (AuthServer_exact "k" (conn_of (frame_bytes (auth_request "k"))) _ _ I (surjective_pairing _))
    as [(Hr & _ & _ & Htx)|(Hr & _)]; [by split|].
  destruct Hr. vm_compute. reflexivity.
Defined.

(** C21: whatever bytes a peer sends, the server's set-up hands it tunnels only
    if those bytes start with the request carrying the server's token (when a
    token is configured) followed by a register frame whose payload packs
    those tunnels; such a peer is always accepted, and the rest of its bytes is
    left for the control connection. *)
Theorem handleClient_setup_exact (st : string) (c : conn) (ts : list RemoteTunnel) (rest : list byte) :
  room 6 c ->
  (exists c', handleClient_setup st c = (Ok ts, c') /\ rx c' = rest) <->
  (exists p, frame_ok (mkFrame FrameRegister p) /\ unpackTunnels p = Ok ts
     /\ zlen (bytes_of st) < 2 ^ 16 /\ rx c = setup_bytes st p ++ rest).
Proof.
  intros Hroom. split.
  - intros (c' & E & <-). by apply handleClient_setup_sound.
  - intros (p & ? & ? & ? & ?). by eapply handleClient_setup_complete.
Qed.

Lemma handleClient_setup_exact_witness :
  exists c', handleClient_setup "k" (conn_of (setup_bytes "k" [x00; x00] ++ [xff])) = (Ok [], c')
    /\ rx c' = [xff].
Proof.
  apply (handleClient_setup_exact "k" (conn_of (setup_bytes "k" [x00; x00] ++ [xff])) [] [xff] I).
  exists [x00; x00]. split_and!; [vm_compute; discriminate|reflexivity|reflexivity|reflexivity].
Defined.

(** C6: the outcome of a whole session set-up, for any pair of tokens and any
    tunnels.  The server ends up with exactly the client's tunnels if and only
    if the tokens are equal and short enough for their 16-bit length and the
    tunnels fit the register payload and the frame limit.  The client's own
    verdict is weaker: without a token it succeeds whatever the server thinks,
    since registration is not acknowledged. *)
Theorem session_accepts_iff (ct st : string) (ts : list RemoteTunnel) :
  ((session ct ts st).2.1 = Ok ts <->
     tokens_match ct st /\ tunnels_ok ts /\ frame_ok (register_frame ts))
  /\ ((session ct ts st).1 = Ok tt <->
     (ct = "" \/ tokens_match ct st) /\ frame_ok (register_frame ts)).
Proof.
  destruct (session_client ct ts st) as (cr & -> & Hcr). cbn [fst snd]. split; [|done].
  destruct (handleClient_setup st (conn_of (client_sent ct ts st))) as [sr sc] eqn:E. cbn [fst].
  split.
  - intros ->. apply handleClient_setup_sound in E as (p & Hok & Hu & Hlen & Hrx); [|exact I].
    cbn [rx conn_of] in Hrx. by eapply client_sent_accepted.
  - intros ([-> Hlen] & Hts & Hreg).
    destruct (handleClient_setup_complete st (conn_of (client_sent st ts st)) ts (packTunnels ts) [])
      as (c' & E' & _); try done.
    + rewrite unpackTunnels_iff. split; [done|]. exists []. by rewrite app_nil_r.
    + rewrite app_nil_r. unfold client_sent, setup_bytes. cbn [rx conn_of].
      rewrite (decide_True (P := frame_ok (register_frame ts))) by done.
      destruct (decide (st = "")); [done|].
      rewrite decide_True by (by apply auth_request_ok). by rewrite decide_True.
    + rewrite E in E'. by injection E'.
Qed.
