(* ===== verification/Stream.v ===== *)
(** * One multiplexed channel ([src/relay/stream.go])

    The fields of [channel] and its methods as pure functions.  A method that
    blocks on a condition variable ([Read] on [rcond], [Write] on [wcond]) is
    given as one attempt that either completes or reports that it waits; the
    attempt is repeated whenever the condition is signalled.  The frames a
    method sends are returned; [Mux.v] puts them on the connection. *)
From S2P Require Import Prelude Frame.

Inductive channelStatus := chOpen | chWriteClosed | chClosed.

#[global] Instance channelStatus_eq_dec : EqDecision channelStatus.
Proof. solve_decision. Defined.

Definition defaultSendWindow : Z := 64 * 1024.
Definition maxReceiveBuffer : Z := 256 * 1024.

Record channel := mkChannel {
  ch_id : Z;
  ch_target : string;
  ch_rb : list byte;
  ch_status : channelStatus;
  ch_rerr : option error;
  ch_sendWindow : Z;
}.

#[global] Instance channel_eq_dec : EqDecision channel.
Proof. solve_decision. Defined.

Definition newChannel (id : Z) (target : string) : channel :=
  mkChannel id target [] chOpen None defaultSendWindow.

Definition set_rb (b : list byte) (ch : channel) : channel :=
  mkChannel (ch_id ch) (ch_target ch) b (ch_status ch) (ch_rerr ch) (ch_sendWindow ch).
Definition set_status (s : channelStatus) (ch : channel) : channel :=
  mkChannel (ch_id ch) (ch_target ch) (ch_rb ch) s (ch_rerr ch) (ch_sendWindow ch).
Definition set_rerr (e : option error) (ch : channel) : channel :=
  mkChannel (ch_id ch) (ch_target ch) (ch_rb ch) (ch_status ch) e (ch_sendWindow ch).
Definition set_sendWindow (w : Z) (ch : channel) : channel :=
  mkChannel (ch_id ch) (ch_target ch) (ch_rb ch) (ch_status ch) (ch_rerr ch) w.

(** The frames of the channel protocol. *)
Definition data_frame (id : Z) (chunk : list byte) : Frame :=
  mkFrame FrameChannelData (be_put 4 id ++ chunk).
Definition close_frame (id : Z) : Frame := mkFrame FrameChannelClose (be_put 4 id).
Definition window_frame (id delta : Z) : Frame :=
  mkFrame FrameWindowUpdate (be_put 4 id ++ be_put 4 (uint32 delta)).

(** One pass of the loop of [Read] with a buffer of [n] bytes: the data and
    the channel left, an error, or [rcond.Wait()].  [Read] reports the bytes
    it took to the peer with [sendWindowUpdate]. *)
Inductive read_result :=
  | RData (data : list byte) (ch : channel) (update : option Frame)
  | RErr (e : error)
  | RWait.

Definition sendWindowUpdate (delta : Z) (ch : channel) : Frame := window_frame (ch_id ch) delta.

Definition Read (n : nat) (ch : channel) : read_result :=
  match ch_rb ch with
  | [] =>
      match ch_rerr ch with
      | Some e => RErr e
      | None => if decide (ch_status ch = chClosed) then RErr EOF else RWait
      end
  | _ =>
      let data := take n (ch_rb ch) in
      RData data (set_rb (drop n (ch_rb ch)) ch)
        (if decide (0 < zlen data) then Some (sendWindowUpdate (zlen data) ch) else None)
  end.

(** [Write] starts by refusing a channel that is closed for writing. *)
Definition Write_guard (ch : channel) : option error :=
  if decide (ch_status ch = chOpen) then None else Some ErrClosedPipe.

(** One pass of the loop of [Write] with [b] still to send: a chunk taken from
    the send window and the frame that carries it, [ErrClosedPipe], or
    [wcond.Wait()]. *)
Inductive write_result :=
  | WChunk (chunk : list byte) (ch : channel) (f : Frame)
  | WClosed
  | WWait.

Definition Write_iter (b : list byte) (ch : channel) : write_result :=
  if decide (ch_sendWindow ch <= 0) then
    if decide (ch_status ch = chOpen) then WWait else WClosed
  else
    let chunk := if decide (zlen b > ch_sendWindow ch)
                 then take (Z.to_nat (ch_sendWindow ch)) b else b in
    WChunk chunk (set_sendWindow (int64 (ch_sendWindow ch - zlen chunk)) ch)
      (data_frame (ch_id ch) chunk).

(** [CloseWrite] and [Close]: the new status and the frame to send, [None] when
    the call returns at once. *)
Definition CloseWrite (ch : channel) : option (channel * Frame) :=
  if decide (ch_status ch = chOpen)
  then Some (set_status chWriteClosed ch, close_frame (ch_id ch))
  else None.

Definition Close (ch : channel) : option (channel * Frame) :=
  if decide (ch_status ch = chClosed) then None
  else Some (set_status chClosed ch, close_frame (ch_id ch)).

(** [pushData]: the channel afterwards and whether it spawned [go ch.Close()]. *)
Definition pushData (data : list byte) (ch : channel) : channel * bool :=
  if decide (zlen (ch_rb ch) + zlen data > maxReceiveBuffer)
  then (set_rerr (Some (Errorf "receive buffer overflow" [])) ch, true)
  else (set_rb (ch_rb ch ++ data) ch, false).

Definition setError (e : error) (ch : channel) : channel := set_rerr (Some e) ch.

Definition addSendWindow (delta : Z) (ch : channel) : channel :=
  set_sendWindow (int64 (ch_sendWindow ch + delta)) ch.

(** The well-formedness every channel keeps. *)
Definition channel_ok (ch : channel) : Prop :=
  0 <= ch_id ch < 2 ^ 32 /\ zlen (ch_rb ch) <= maxReceiveBuffer
  /\ - 2 ^ 63 <= ch_sendWindow ch < 2 ^ 63.

(** ** Lemmas *)

Lemma newChannel_ok id target : 0 <= id < 2 ^ 32 -> channel_ok (newChannel id target).
Proof. intros. unfold channel_ok, newChannel, defaultSendWindow, maxReceiveBuffer. simpl.
  rewrite (zlen_nil (A := byte)). lia.
Qed.

Lemma pushData_ok data ch : channel_ok ch -> channel_ok (pushData data ch).1.
Proof.
  unfold channel_ok, pushData. intros (?&?&?). case_decide; simpl; [done|].
  rewrite zlen_app. lia.
Qed.

Lemma setError_ok e ch : channel_ok ch -> channel_ok (setError e ch).
Proof. done. Qed.

Lemma set_status_ok s ch : channel_ok ch -> channel_ok (set_status s ch).
Proof. done. Qed.

Lemma addSendWindow_ok d ch : channel_ok ch -> channel_ok (addSendWindow d ch).
Proof. unfold channel_ok. intros (?&?&?). simpl. pose proof (int64_range (ch_sendWindow ch + d)). lia. Qed.

Lemma Read_ok n ch data ch' u :
  Read n ch = RData data ch' u -> channel_ok ch -> channel_ok ch'.
Proof.
  unfold Read. destruct (ch_rb ch) as [|b0 rb] eqn:E; [repeat case_match; done|].
  intros [= <- <- <-] (?&Hrb&?). unfold channel_ok. simpl. rewrite E in Hrb.
  split_and!; try lia. pose proof (length_drop (b0 :: rb) n). len_lia.
Qed.

Lemma Write_iter_ok b ch c ch' f :
  Write_iter b ch = WChunk c ch' f -> channel_ok ch -> channel_ok ch'.
Proof.
  unfold Write_iter. repeat case_decide; intros [= <- <- <-] (?&?&?);
  unfold channel_ok; simpl; split_and!; try lia; apply int64_range.
Qed.

(** A chunk is the longest prefix the window allows, and it is not empty
    unless there is nothing to send. *)
Lemma Write_iter_chunk b ch c ch' f :
  - 2 ^ 63 <= ch_sendWindow ch < 2 ^ 63 -> Write_iter b ch = WChunk c ch' f ->
  c = take (length c) b /\ zlen c = Z.min (zlen b) (ch_sendWindow ch)
  /\ ch' = set_sendWindow (ch_sendWindow ch - zlen c) ch /\ 0 < ch_sendWindow ch
  /\ f = data_frame (ch_id ch) c.
Proof.
  unfold Write_iter. intros Hw. case_decide as H1; [by case_decide|].
  pose proof (zlen_nonneg b). case_decide as H2; intros [= <- <- <-].
  - assert (zlen (take (Z.to_nat (ch_sendWindow ch)) b) = ch_sendWindow ch) as E
      by (apply zlen_take_le; lia).
    rewrite E, int64_id by lia. split_and!; try done; try lia.
    f_equal. unfold zlen in E. lia.
  - rewrite int64_id by lia. split_and!; try done; try lia. by rewrite firstn_all.
Qed.

#[export] Hint Resolve newChannel_ok pushData_ok setError_ok set_status_ok addSendWindow_ok : tunnel.
