(* ===== verification/Mux.v ===== *)
(** * The multiplexed control connection ([src/relay/ctrlconn.go])

    [CtrlConn] owns a connection, the table of open channels and the queue of
    channels the peer opened.  Channels are shared objects: the table, the
    accept queue and the goroutines that relay data hold pointers to the same
    [channel].  The model keeps them in a store [cc_store] that only grows; a
    pointer is an index into it.  The read loop is a state machine whose state
    is the field [cc_loop]: reading, blocked on the send into the full accept
    queue, finished, or crashed by a run-time panic.  Every method is a
    function of the state; a method that takes a lock is one atomic step. *)
From S2P Require Import Prelude Conn Frame Stream.

(** Capacity of [newCh]. *)
Definition newCh_cap : nat := 64%nat.

Inductive loop_state :=
  | LoopReading
  | LoopSending (l : nat)   (* in [cc.newCh <- ch] with the queue full *)
  | LoopDone                (* returned: [cc.done] is closed *)
  | LoopPanic.              (* a run-time panic killed the process *)

#[global] Instance loop_state_eq_dec : EqDecision loop_state.
Proof. solve_decision. Defined.

Record CtrlConn := mkCC {
  cc_conn : conn;
  cc_store : list channel;
  cc_channels : gmap Z nat;
  cc_nextID : Z;
  cc_newCh : list nat;
  cc_readErr : option error;
  cc_loop : loop_state;
  cc_lastActivity : Z;
  cc_spawned : list nat;     (* goroutines [go ch.Close()] not yet run *)
}.

Definition set_conn (c : conn) (cc : CtrlConn) : CtrlConn :=
  mkCC c (cc_store cc) (cc_channels cc) (cc_nextID cc) (cc_newCh cc) (cc_readErr cc) (cc_loop cc)
    (cc_lastActivity cc) (cc_spawned cc).
Definition set_store (st : list channel) (cc : CtrlConn) : CtrlConn :=
  mkCC (cc_conn cc) st (cc_channels cc) (cc_nextID cc) (cc_newCh cc) (cc_readErr cc) (cc_loop cc)
    (cc_lastActivity cc) (cc_spawned cc).
Definition set_channels (m : gmap Z nat) (cc : CtrlConn) : CtrlConn :=
  mkCC (cc_conn cc) (cc_store cc) m (cc_nextID cc) (cc_newCh cc) (cc_readErr cc) (cc_loop cc)
    (cc_lastActivity cc) (cc_spawned cc).
Definition set_nextID (n : Z) (cc : CtrlConn) : CtrlConn :=
  mkCC (cc_conn cc) (cc_store cc) (cc_channels cc) n (cc_newCh cc) (cc_readErr cc) (cc_loop cc)
    (cc_lastActivity cc) (cc_spawned cc).
Definition set_newCh (q : list nat) (cc : CtrlConn) : CtrlConn :=
  mkCC (cc_conn cc) (cc_store cc) (cc_channels cc) (cc_nextID cc) q (cc_readErr cc) (cc_loop cc)
    (cc_lastActivity cc) (cc_spawned cc).
Definition set_readErr (e : option error) (cc : CtrlConn) : CtrlConn :=
  mkCC (cc_conn cc) (cc_store cc) (cc_channels cc) (cc_nextID cc) (cc_newCh cc) e (cc_loop cc)
    (cc_lastActivity cc) (cc_spawned cc).
Definition set_loop (s : loop_state) (cc : CtrlConn) : CtrlConn :=
  mkCC (cc_conn cc) (cc_store cc) (cc_channels cc) (cc_nextID cc) (cc_newCh cc) (cc_readErr cc) s
    (cc_lastActivity cc) (cc_spawned cc).
Definition set_lastActivity (t : Z) (cc : CtrlConn) : CtrlConn :=
  mkCC (cc_conn cc) (cc_store cc) (cc_channels cc) (cc_nextID cc) (cc_newCh cc) (cc_readErr cc)
    (cc_loop cc) t (cc_spawned cc).
Definition set_spawned (l : list nat) (cc : CtrlConn) : CtrlConn :=
  mkCC (cc_conn cc) (cc_store cc) (cc_channels cc) (cc_nextID cc) (cc_newCh cc) (cc_readErr cc)
    (cc_loop cc) (cc_lastActivity cc) l.

(** [NewCtrlConn(conn)] at time [now]; the read loop has been started. *)
Definition NewCtrlConn (c : conn) (now : Z) : CtrlConn :=
  mkCC c [] ∅ 1 [] None LoopReading now [].

(** Apply a method to the channel at [l]. *)
Definition on_channel (f : channel -> channel) (l : nat) (cc : CtrlConn) : CtrlConn :=
  set_store (alter f l (cc_store cc)) cc.

(** [ch := newChannel(id, cc, target)]: a fresh pointer. *)
Definition alloc (ch : channel) (cc : CtrlConn) : nat * CtrlConn :=
  (length (cc_store cc), set_store (cc_store cc ++ [ch]) cc).

(** [sendFrame]: the frame is written under [wmu]; the result is the write's. *)
Definition sendFrame (typ : byte) (payload : list byte) (cc : CtrlConn) : result unit * CtrlConn :=
  let '(r, c) := WriteFrame typ payload (cc_conn cc) in (r, set_conn c cc).

Definition send (f : Frame) (cc : CtrlConn) : result unit * CtrlConn :=
  sendFrame (frame_type f) (frame_payload f) cc.

(** [handleNewChannel]: [None] is the run-time panic of the slice expression
    [payload[6 : 6+targetLen]], whose upper bound is computed in [uint16];
    [Some (None, _)] is the early [return nil]. *)
Definition handleNewChannel (payload : list byte) (cc : CtrlConn) : option (option nat * CtrlConn) :=
  if decide (zlen payload < 6) then Some (None, cc) else
  let chID := be_get (take 4 payload) in
  let targetLen := be_get (take 2 (drop 4 payload)) in
  if decide (zlen payload < 6 + targetLen) then Some (None, cc) else
  target ← slice payload 6 (uint16 (6 + targetLen));
  let '(l, cc) := alloc (newChannel chID (string_of target)) cc in
  Some (Some l, set_channels (<[chID := l]> (cc_channels cc)) cc).

Definition handleChannelData (payload : list byte) (cc : CtrlConn) : CtrlConn :=
  if decide (zlen payload < 4) then cc else
  let chID := be_get (take 4 payload) in
  match cc_channels cc !! chID with
  | Some l =>
      match cc_store cc !! l with
      | Some ch =>
          let '(ch', spawn) := pushData (drop 4 payload) ch in
          let cc := on_channel (fun _ => ch') l cc in
          if spawn then set_spawned (cc_spawned cc ++ [l]) cc else cc
      | None => cc
      end
  | None => cc
  end.

Definition handleChannelClose (payload : list byte) (cc : CtrlConn) : CtrlConn :=
  if decide (zlen payload < 4) then cc else
  let chID := be_get (take 4 payload) in
  match cc_channels cc !! chID with
  | Some l => on_channel (setError EOF) l cc
  | None => cc
  end.

Definition handleWindowUpdate (payload : list byte) (cc : CtrlConn) : CtrlConn :=
  if decide (zlen payload < 8) then cc else
  let chID := be_get (take 4 payload) in
  let delta := be_get (take 4 (drop 4 payload)) in
  match cc_channels cc !! chID with
  | Some l => on_channel (addSendWindow delta) l cc
  | None => cc
  end.

Definition handlePing (payload : list byte) (cc : CtrlConn) : CtrlConn :=
  (sendFrame FramePong payload cc).2.

Definition removeChannel (id : Z) (cc : CtrlConn) : CtrlConn :=
  set_channels (delete id (cc_channels cc)) cc.

(** The send [cc.newCh <- ch] of the read loop. *)
Definition send_newCh (l : nat) (cc : CtrlConn) : CtrlConn :=
  if decide (length (cc_newCh cc) < newCh_cap)%nat
  then set_loop LoopReading (set_newCh (cc_newCh cc ++ [l]) cc)
  else set_loop (LoopSending l) cc.

Definition handleFrame (f : Frame) (cc : CtrlConn) : CtrlConn :=
  if decide (frame_type f = FrameNewChannel) then
    match handleNewChannel (frame_payload f) cc with
    | None => set_loop LoopPanic cc
    | Some (None, cc) => cc
    | Some (Some l, cc) => send_newCh l cc
    end
  else if decide (frame_type f = FrameChannelData) then handleChannelData (frame_payload f) cc
  else if decide (frame_type f = FrameChannelClose) then handleChannelClose (frame_payload f) cc
  else if decide (frame_type f = FrameWindowUpdate) then handleWindowUpdate (frame_payload f) cc
  else if decide (frame_type f = FramePing) then handlePing (frame_payload f) cc
  else cc.

(** [closeAll]: every channel of the table gets [io.EOF] and leaves it. *)
Definition closeAll (cc : CtrlConn) : CtrlConn :=
  let ls := (map_to_list (cc_channels cc)).*2 in
  set_channels ∅ (set_store (foldr (fun l st => alter (setError EOF) l st) (cc_store cc) ls) cc).

(** One iteration of [readLoop] at time [now]. *)
Definition readLoop_iter (now : Z) (cc : CtrlConn) : CtrlConn :=
  match ReadFrame (cc_conn cc) with
  | (Err e, c) =>
      let cc := set_conn c cc in
      let cc := if decide (e = EOF) then cc
                else set_readErr (Some (Wrapf "ctrl read: %w" [] e)) cc in
      set_loop LoopDone (closeAll cc)
  | (Ok f, c) => handleFrame f (set_lastActivity now (set_conn c cc))
  end.

(** The read loop's next step: it can also be stuck in the send until the
    queue has room, and it stays where it is once it has returned or crashed. *)
Definition readLoop_step (now : Z) (cc : CtrlConn) : CtrlConn :=
  match cc_loop cc with
  | LoopReading => readLoop_iter now cc
  | LoopSending l => send_newCh l cc
  | LoopDone | LoopPanic => cc
  end.

(** The read loop run as long as it reads. *)
Fixpoint readLoop (fuel : nat) (now : Z) (cc : CtrlConn) : CtrlConn :=
  match fuel, cc_loop cc with
  | S fuel, LoopReading => readLoop fuel now (readLoop_iter now cc)
  | _, _ => cc
  end.

(** [OpenChannel(target)]: the new channel's pointer, or the error of the send,
    in which case the channel is dropped again. *)
Definition OpenChannel (target : string) (cc : CtrlConn) : result nat * CtrlConn :=
  let chID := cc_nextID cc in
  let cc := set_nextID (uint32 (cc_nextID cc + 1)) cc in
  let '(l, cc) := alloc (newChannel chID target) cc in
  let cc := set_channels (<[chID := l]> (cc_channels cc)) cc in
  let targetBytes := bytes_of target in
  let payload := be_put 4 chID ++ be_put 2 (uint16 (zlen targetBytes)) ++ targetBytes in
  match sendFrame FrameNewChannel payload cc with
  | (Err e, cc) => (Err e, removeChannel chID cc)
  | (Ok _, cc) => (Ok l, cc)
  end.

(** [AcceptChannel]: [None] when it blocks.  With both a queued channel and a
    closed [done] the [select] may take either case: [prefer_done] decides. *)
Definition AcceptChannel (prefer_done : bool) (cc : CtrlConn) : option (result nat * CtrlConn) :=
  let dead := Some (Err (default EOF (cc_readErr cc)), cc) in
  let is_done := bool_decide (cc_loop cc = LoopDone) in
  match cc_newCh cc with
  | l :: q => if is_done && prefer_done then dead else Some (Ok l, set_newCh q cc)
  | [] => if is_done then dead else None
  end.

(** [ch.Read(b)] with [len(b) = n]: one attempt. *)
Definition chan_Read (l n : nat) (cc : CtrlConn) : option (result (list byte) * CtrlConn) :=
  match cc_store cc !! l with
  | None => None
  | Some ch =>
      match Read n ch with
      | RWait => None
      | RErr e => Some (Err e, cc)
      | RData data ch' u =>
          let cc := on_channel (fun _ => ch') l cc in
          Some (Ok data, match u with Some f => (send f cc).2 | None => cc end)
      end
  end.

(** How far [ch.Write(b)] gets without waiting: finished with the number of
    bytes sent, failed after that many, or in [wcond.Wait()] with the rest. *)
Inductive write_outcome :=
  | WDone (total : Z)
  | WFail (total : Z) (e : error)
  | WBlocked (total : Z) (rest : list byte)
  | WFuel.

(** The loop of [Write]; every pass sends at least one byte, so [length b]
    passes are enough. *)
Fixpoint chan_Write_loop (fuel : nat) (l : nat) (b : list byte) (total : Z) (cc : CtrlConn)
    : write_outcome * CtrlConn :=
  match b, cc_store cc !! l with
  | [], _ => (WDone total, cc)
  | _, None => (WFuel, cc)
  | _, Some ch =>
      match fuel with
      | O => (WFuel, cc)
      | S fuel =>
          match Write_iter b ch with
          | WClosed => (WFail total ErrClosedPipe, cc)
          | WWait => (WBlocked total b, cc)
          | WChunk chunk ch' f =>
              match send f (on_channel (fun _ => ch') l cc) with
              | (Err e, cc) => (WFail total e, cc)
              | (Ok _, cc) =>
                  chan_Write_loop fuel l (drop (length chunk) b) (total + zlen chunk) cc
              end
          end
      end
  end.

Definition chan_Write (l : nat) (b : list byte) (cc : CtrlConn) : write_outcome * CtrlConn :=
  match cc_store cc !! l with
  | None => (WFuel, cc)
  | Some ch =>
      match Write_guard ch with
      | Some e => (WFail 0 e, cc)
      | None => chan_Write_loop (length b) l b 0 cc
      end
  end.

Definition chan_CloseWrite (l : nat) (cc : CtrlConn) : result unit * CtrlConn :=
  match cc_store cc !! l with
  | None => (Ok tt, cc)
  | Some ch =>
      match CloseWrite ch with
      | None => (Ok tt, cc)
      | Some (ch', f) => send f (on_channel (fun _ => ch') l cc)
      end
  end.

Definition chan_Close (l : nat) (cc : CtrlConn) : result unit * CtrlConn :=
  match cc_store cc !! l with
  | None => (Ok tt, cc)
  | Some ch =>
      match Close ch with
      | None => (Ok tt, cc)
      | Some (ch', f) =>
          send f (removeChannel (ch_id ch) (on_channel (fun _ => ch') l cc))
      end
  end.

(** The goroutine [go ch.Close()] started by [pushData] runs. *)
Definition run_spawned (cc : CtrlConn) : CtrlConn :=
  match cc_spawned cc with
  | [] => cc
  | l :: ls => (chan_Close l (set_spawned ls cc)).2
  end.

(** Closing the underlying connection: later reads and writes fail. *)
Definition errNetClosing : error := OsError "use of closed network connection".

Definition conn_Close (c : conn) : conn :=
  Conn [] errNetClosing (tx c) (Some 0%nat) errNetClosing.

Definition cc_Close (cc : CtrlConn) : CtrlConn :=
  let cc := closeAll cc in set_conn (conn_Close (cc_conn cc)) cc.

(** [KeepAlive] on one tick of its ticker at time [now]: [false] when it
    closed the dead connection and returned. *)
Definition KeepAlive_tick (now timeout : Z) (cc : CtrlConn) : bool * CtrlConn :=
  if decide (timeout > 0 /\ now - cc_lastActivity cc > timeout)
  then (false, cc_Close cc)
  else (true, (sendFrame FramePing (be_put 8 (uint64 now)) cc).2).

(** One step of the process on a control connection: the read loop, or one of
    the goroutines that use the connection and its channels.  A pass of
    [Write] is two steps, so that everything may happen between taking send
    credit and sending the frame; [step_arrive] is the network. *)
Inductive mux_step (cc : CtrlConn) : CtrlConn -> Prop :=
  | step_loop now : mux_step cc (readLoop_step now cc)
  | step_open target r cc' : OpenChannel target cc = (r, cc') -> mux_step cc cc'
  | step_accept pd r cc' : AcceptChannel pd cc = Some (r, cc') -> mux_step cc cc'
  | step_read l n r cc' : chan_Read l n cc = Some (r, cc') -> mux_step cc cc'
  | step_write_window l ch b chunk ch' f :      (* [Write] under [wmu] *)
      cc_store cc !! l = Some ch -> Write_iter b ch = WChunk chunk ch' f ->
      mux_step cc (on_channel (fun _ => ch') l cc)
  | step_write_send f : mux_step cc (send f cc).2  (* [Write] in [sendFrame] *)
  | step_closewrite l r cc' : chan_CloseWrite l cc = (r, cc') -> mux_step cc cc'
  | step_close l r cc' : chan_Close l cc = (r, cc') -> mux_step cc cc'
  | step_spawned : mux_step cc (run_spawned cc)
  | step_keepalive now timeout b cc' : KeepAlive_tick now timeout cc = (b, cc') -> mux_step cc cc'
  | step_cc_close : mux_step cc (cc_Close cc)
  | step_arrive p : mux_step cc (set_conn (Conn (rx (cc_conn cc) ++ p) (rx_end (cc_conn cc))
      (tx (cc_conn cc)) (tx_room (cc_conn cc)) (tx_err (cc_conn cc))) cc).

(** The invariant: the table points to live channels with the right id that
    are not closed, buffers and the accept queue respect their bounds, and
    every pointer held somewhere is valid. *)
Record mux_inv (cc : CtrlConn) : Prop := {
  inv_store : Forall channel_ok (cc_store cc);
  inv_table : forall id l, cc_channels cc !! id = Some l ->
    exists ch, cc_store cc !! l = Some ch /\ ch_id ch = id /\ ch_status ch <> chClosed;
  inv_queue : (length (cc_newCh cc) <= newCh_cap)%nat;
  inv_queued : Forall (fun l => l < length (cc_store cc))%nat (cc_newCh cc);
  inv_sending : forall l, cc_loop cc = LoopSending l -> (l < length (cc_store cc))%nat;
  inv_spawned : Forall (fun l => l < length (cc_store cc))%nat (cc_spawned cc);
  inv_nextID : 0 <= cc_nextID cc < 2 ^ 32;
}.

(** ** Lemmas *)

Lemma send_set_conn f cc : exists c, (send f cc).2 = set_conn c cc.
Proof. unfold send, sendFrame. destruct (WriteFrame _ _ _) as [r c]. by exists c. Qed.

Lemma sendFrame_set_conn t p cc r cc' : sendFrame t p cc = (r, cc') -> exists c, cc' = set_conn c cc.
Proof. unfold sendFrame. destruct (WriteFrame _ _ _) as [r0 c]. intros [= <- <-]. by exists c. Qed.

Lemma set_conn_inv c cc : mux_inv cc -> mux_inv (set_conn c cc).
Proof. by intros []. Qed.

Lemma send_inv f cc : mux_inv cc -> mux_inv (send f cc).2.
Proof. destruct (send_set_conn f cc) as [c ->]. apply set_conn_inv. Qed.

(** Changing one channel: it keeps its id, and it may only become closed once
    the table no longer points to it. *)
Lemma on_channel_inv f l cc :
  (forall ch, cc_store cc !! l = Some ch -> channel_ok ch ->
     channel_ok (f ch) /\ ch_id (f ch) = ch_id ch
     /\ (ch_status (f ch) = chClosed ->
         ch_status ch = chClosed \/ cc_channels cc !! ch_id ch <> Some l)) ->
  mux_inv cc -> mux_inv (on_channel f l cc).
Proof.
  intros Hf [Hs Ht Hq Hql Hsl Hsp Hn].
  constructor; simpl; rewrite ?length_alter; try done.
  - apply Forall_lookup_2. intros k x. rewrite list_lookup_alter. rewrite Forall_lookup in Hs.
    case_decide as Hk; [|by apply Hs]. subst k.
    destruct (cc_store cc !! l) as [ch|] eqn:E; intros [= <-]. by apply (Hf ch), (Hs l).
  - intros id k Hk. destruct (Ht id k Hk) as (ch & Hch & Hid & Hst).
    rewrite list_lookup_alter. case_decide as Hkl; [subst k|by eauto].
    rewrite Hch. eexists; split; [done|]. rewrite Forall_lookup in Hs.
    destruct (Hf ch Hch (Hs _ _ Hch)) as (_ & -> & Hc). split; [done|].
    intros Hcl. destruct (Hc Hcl); [done|]. by subst id.
Qed.

Lemma removeChannel_inv id cc : mux_inv cc -> mux_inv (removeChannel id cc).
Proof.
  intros [Hs Ht Hq Hql Hsl Hsp Hn]. constructor; simpl; try done.
  intros id' l [_ Hl]%lookup_delete_Some. by eapply Ht.
Qed.

(** A fresh channel entered in the table under its id. *)
Lemma alloc_inv ch cc :
  channel_ok ch -> ch_status ch = chOpen -> mux_inv cc ->
  mux_inv (set_channels (<[ch_id ch := length (cc_store cc)]> (cc_channels cc))
             (set_store (cc_store cc ++ [ch]) cc)).
Proof.
  intros Hok Hst [Hs Ht Hq Hql Hsl Hsp Hn].
  constructor; simpl; rewrite ?length_app; simpl; try done.
  - apply Forall_app. by split; [|constructor].
  - intros id l [[<- <-]|[Hid Hl]]%lookup_insert_Some.
    + exists ch. rewrite lookup_app_r, Nat.sub_diag by lia. split; [done|]. by rewrite Hst.
    + destruct (Ht id l Hl) as (ch' & Hch' & ?). exists ch'.
      rewrite lookup_app_l by (by eapply lookup_lt_Some). done.
  - eapply Forall_impl; [done|]. simpl. lia.
  - intros l Hl%Hsl. lia.
  - eapply Forall_impl; [done|]. simpl. lia.
Qed.

Lemma send_newCh_inv l cc :
  (l < length (cc_store cc))%nat -> mux_inv cc -> mux_inv (send_newCh l cc).
Proof.
  intros Hl [Hs Ht Hq Hql Hsl Hsp Hn]. unfold send_newCh. case_decide as Hc; constructor; simpl; try done.
  - rewrite length_app. simpl. lia.
  - apply Forall_app. by split; [|constructor].
  - by intros k [= <-].
Qed.

Lemma foldr_alter_inv (ls : list nat) cc :
  mux_inv cc ->
  mux_inv (set_store (foldr (fun l st => alter (setError EOF) l st) (cc_store cc) ls) cc).
Proof.
  intros Hinv. induction ls as [|l ls IH]; [by destruct cc|].
  apply (on_channel_inv (setError EOF) l) in IH; [exact IH|].
  intros ch _ Hok. split; [done|]. split; [done|]. by left.
Qed.

Lemma set_channels_empty_inv cc : mux_inv cc -> mux_inv (set_channels ∅ cc).
Proof. intros [Hs Ht Hq Hql Hsl Hsp Hn]. constructor; simpl; try done. Qed.

Lemma closeAll_inv cc : mux_inv cc -> mux_inv (closeAll cc).
Proof. intros. by apply set_channels_empty_inv, foldr_alter_inv. Qed.

Lemma set_loop_inv s cc :
  (forall l, s = LoopSending l -> (l < length (cc_store cc))%nat) -> mux_inv cc -> mux_inv (set_loop s cc).
Proof. intros H [Hs Ht Hq Hql Hsl Hsp Hn]. by constructor. Qed.

(** The handlers of the read loop keep the invariant on every payload. *)
Lemma handleChannelData_inv p cc : mux_inv cc -> mux_inv (handleChannelData p cc).
Proof.
  intros Hinv. unfold handleChannelData. case_decide; [done|].
  destruct (cc_channels cc !! _) as [l|] eqn:El; [|done].
  destruct (cc_store cc !! l) as [ch|] eqn:Ech; [|done].
  destruct (pushData _ ch) as [ch' spawn] eqn:Ep.
  assert (mux_inv (on_channel (fun _ => ch') l cc)) as H1.
  { apply on_channel_inv; [|done]. intros x Hx Hok. simplify_eq.
    pose proof (pushData_ok (drop 4 p) ch Hok) as Hok'. rewrite Ep in Hok'. split; [done|].
    unfold pushData in Ep. case_decide; simplify_eq; simpl; auto. }
  destruct spawn; [|done]. destruct H1 as [Hs Ht Hq Hql Hsl Hsp Hn]. constructor; simpl in *; try done.
  apply Forall_app. split; [done|]. constructor; [|done].
  rewrite length_alter. by eapply lookup_lt_Some.
Qed.

Lemma handleChannelClose_inv p cc : mux_inv cc -> mux_inv (handleChannelClose p cc).
Proof.
  intros Hinv. unfold handleChannelClose. case_decide; [done|].
  destruct (cc_channels cc !! _) as [l|]; [|done].
  apply on_channel_inv; [|done]. intros ch _ Hok. split; [done|]. split; [done|]. by left.
Qed.

Lemma handleWindowUpdate_inv p cc : mux_inv cc -> mux_inv (handleWindowUpdate p cc).
Proof.
  intros Hinv. unfold handleWindowUpdate. case_decide; [done|].
  destruct (cc_channels cc !! _) as [l|]; [|done].
  apply on_channel_inv; [|done]. intros ch _ Hok. split; [by apply addSendWindow_ok|].
  split; [done|]. by left.
Qed.

Lemma handleNewChannel_inv p cc r cc' :
  mux_inv cc -> handleNewChannel p cc = Some (r, cc') ->
  mux_inv cc' /\ (forall l, r = Some l -> (l < length (cc_store cc'))%nat).
Proof.
  intros Hinv. unfold handleNewChannel. case_decide; [by intros [= <- <-]|].
  case_decide; [by intros [= <- <-]|]. destruct (slice _ _ _) as [t|]; [|done].
  simpl. intros [= <- <-]. split.
  - apply (alloc_inv (newChannel (be_get (take 4 p)) (string_of t))); [|done|done].
    apply newChannel_ok. pose proof (be_get_range (take 4 p)) as Hr.
    assert (zlen (take 4 p) = 4) as Hl by len_lia. by rewrite Hl in Hr.
  - intros l [= <-]. simpl. rewrite length_app. simpl. lia.
Qed.

Lemma handlePing_inv p cc : mux_inv cc -> mux_inv (handlePing p cc).
Proof. apply (send_inv (mkFrame FramePong p)). Qed.

#[export] Hint Resolve set_conn_inv send_inv removeChannel_inv closeAll_inv handleChannelData_inv
  handleChannelClose_inv handleWindowUpdate_inv handlePing_inv : tunnel.

Lemma handleFrame_inv f cc : mux_inv cc -> mux_inv (handleFrame f cc).
Proof.
  intros Hinv. unfold handleFrame. case_decide.
  - destruct (handleNewChannel _ cc) as [[[l|] cc']|] eqn:E.
    + apply handleNewChannel_inv in E as [Hi Hl]; [|done]. apply send_newCh_inv; [by apply Hl|done].
    + by apply handleNewChannel_inv in E as [Hi _].
    + by apply set_loop_inv.
  - repeat case_decide;
      eauto with tunnel.
Qed.

Lemma readLoop_iter_inv now cc : mux_inv cc -> mux_inv (readLoop_iter now cc).
Proof.
  intros Hinv. unfold readLoop_iter. destruct (ReadFrame (cc_conn cc)) as [[f|e] c].
  - apply handleFrame_inv. by destruct Hinv; constructor.
  - apply set_loop_inv; [done|]. apply closeAll_inv. case_decide; by destruct Hinv; constructor.
Qed.

Lemma readLoop_step_inv now cc : mux_inv cc -> mux_inv (readLoop_step now cc).
Proof.
  intros Hinv. unfold readLoop_step. destruct (cc_loop cc) as [|l| |] eqn:E; try done.
  - by apply readLoop_iter_inv.
  - apply send_newCh_inv; [|done]. by apply (inv_sending _ Hinv).
Qed.

Lemma OpenChannel_inv target r cc cc' : OpenChannel target cc = (r, cc') -> mux_inv cc -> mux_inv cc'.
Proof.
  unfold OpenChannel. cbn [alloc]. intros E Hinv.
  set (cc1 := set_channels _ _) in E.
  assert (mux_inv cc1) as H1.
  { apply (alloc_inv (newChannel (cc_nextID cc) target)
      (set_nextID (uint32 (cc_nextID cc + 1)) cc)); [|done|].
    - apply newChannel_ok, (inv_nextID _ Hinv).
    - destruct Hinv. constructor; simpl; try done. unfold uint32, wrap. apply Z.mod_pos_bound. lia. }
  destruct (sendFrame FrameNewChannel _ cc1) as [[[]|e] cc2] eqn:Es;
    apply sendFrame_set_conn in Es as [c ->]; injection E as <- <-.
  - by apply set_conn_inv.
  - by apply removeChannel_inv, set_conn_inv.
Qed.

Lemma chan_Read_inv l n r cc cc' : chan_Read l n cc = Some (r, cc') -> mux_inv cc -> mux_inv cc'.
Proof.
  unfold chan_Read. intros E Hinv. destruct (cc_store cc !! l) as [ch|] eqn:Ech; [|done].
  destruct (Read n ch) as [data ch' u|e|] eqn:ER; [|by injection E as <- <-|done].
  assert (mux_inv (on_channel (fun _ => ch') l cc)) as H1.
  { apply on_channel_inv; [|done]. intros x Hx Hok. simplify_eq.
    split; [by eapply Read_ok|]. unfold Read in ER.
    destruct (ch_rb ch); [repeat case_match; done|]. injection ER as <- <- <-. simpl. auto. }
  destruct u as [f|]; injection E as <- <-; [by apply send_inv|done].
Qed.

Lemma chan_Close_inv l cc : mux_inv cc -> mux_inv (chan_Close l cc).2.
Proof.
  intros Hinv. unfold chan_Close. destruct (cc_store cc !! l) as [ch|] eqn:Ech; [|done].
  unfold Close. case_decide as Hc; [done|]. apply send_inv.
  apply (on_channel_inv (fun _ => set_status chClosed ch) l (removeChannel (ch_id ch) cc));
    [|by apply removeChannel_inv].
  simpl. intros x Hx Hok. rewrite Ech in Hx. injection Hx as <-. split; [done|]. split; [done|].
  intros _. right. rewrite lookup_delete_eq. done.
Qed.

Lemma chan_CloseWrite_inv l cc : mux_inv cc -> mux_inv (chan_CloseWrite l cc).2.
Proof.
  intros Hinv. unfold chan_CloseWrite. destruct (cc_store cc !! l) as [ch|] eqn:Ech; [|done].
  unfold CloseWrite. case_decide as Hc; [|done]. apply send_inv.
  apply on_channel_inv; [|done]. intros x Hx Hok. rewrite Ech in Hx. injection Hx as <-. done.
Qed.

Lemma run_spawned_inv cc : mux_inv cc -> mux_inv (run_spawned cc).
Proof.
  intros Hinv. unfold run_spawned. destruct (cc_spawned cc) as [|l ls] eqn:E; [done|].
  apply chan_Close_inv. destruct Hinv as [? ? ? ? ? Hsp ?]. constructor; try done. simpl.
  rewrite E in Hsp. by inversion Hsp.
Qed.

(** [AcceptChannel] takes at most the head of the queue. *)
Lemma AcceptChannel_shape pd cc r cc' :
  AcceptChannel pd cc = Some (r, cc') ->
  cc' = cc \/ exists l q, cc_newCh cc = l :: q /\ cc' = set_newCh q cc.
Proof.
  unfold AcceptChannel. destruct (cc_newCh cc) as [|l q]; case_match; intros; simplify_eq; eauto.
Qed.

Lemma mux_step_inv cc cc' : mux_step cc cc' -> mux_inv cc -> mux_inv cc'.
Proof.
  intros Hstep Hinv. destruct Hstep as
    [now|target r cc' E|pd r cc' E|l n r cc' E|l ch b chunk ch' f Hch E|f|l r cc' E|l r cc' E
    | |now timeout b cc' E| |p].
  - by apply readLoop_step_inv.
  - by eapply OpenChannel_inv.
  - apply AcceptChannel_shape in E as [->|(l & q & Eq & ->)]; [done|].
    destruct Hinv as [? ? Hq Hql ? ? ?]. rewrite Eq in Hq, Hql. simpl in Hq.
    inversion Hql. constructor; simpl; try done. lia.
  - by eapply chan_Read_inv.
  - apply on_channel_inv; [|done]. intros x Hx Hok. simplify_eq.
    split; [by eapply Write_iter_ok|]. apply Write_iter_chunk in E as (_&_&->&_); [simpl; auto|apply Hok].
  - by apply send_inv.
  - replace cc' with (chan_CloseWrite l cc).2 by (by rewrite E). by apply chan_CloseWrite_inv.
  - replace cc' with (chan_Close l cc).2 by (by rewrite E). by apply chan_Close_inv.
  - by apply run_spawned_inv.
  - unfold KeepAlive_tick in E. case_decide; injection E as <- <-.
    + by apply set_conn_inv, closeAll_inv.
    + apply (send_inv (mkFrame FramePing (be_put 8 (uint64 now)))); done.
  - by apply set_conn_inv, closeAll_inv.
  - by apply set_conn_inv.
Qed.

Lemma NewCtrlConn_inv c now : mux_inv (NewCtrlConn c now).
Proof.
  constructor; simpl; try done; try lia; try by constructor.
Qed.

(** *** The read loop *)

Lemma WriteFrame_rx t p c r c' : WriteFrame t p c = (r, c') -> rx c' = rx c.
Proof. intros E. by apply WriteFrame_prefix in E as [? _]. Qed.

Lemma send_rx f cc : rx (cc_conn (send f cc).2) = rx (cc_conn cc).
Proof.
  unfold send, sendFrame. destruct (WriteFrame _ _ _) as [r c] eqn:E.
  by apply WriteFrame_rx in E.
Qed.

(** Dispatching a frame consumes no input. *)
Lemma handleFrame_rx f cc : rx (cc_conn (handleFrame f cc)) = rx (cc_conn cc).
Proof.
  unfold handleFrame. case_decide.
  { unfold handleNewChannel. case_decide; [done|]. case_decide; [done|].
    destruct (slice _ _ _); [|done]. simpl. unfold send_newCh. by case_decide. }
  case_decide.
  { unfold handleChannelData. repeat case_match; try done. }
  case_decide; [unfold handleChannelClose; by repeat case_match|].
  case_decide; [unfold handleWindowUpdate; by repeat case_match|].
  case_decide; [|done]. apply (send_rx (mkFrame FramePong (frame_payload f))).
Qed.

Lemma readLoop_iter_shrinks now cc :
  cc_loop (readLoop_iter now cc) = LoopReading ->
  (length (rx (cc_conn (readLoop_iter now cc))) < length (rx (cc_conn cc)))%nat.
Proof.
  unfold readLoop_iter. destruct (ReadFrame (cc_conn cc)) as [[f|e] c] eqn:E; [|done].
  intros _. rewrite handleFrame_rx. simpl. apply ReadFrame_sound in E as (_ & -> & _).
  rewrite length_app, length_frame_bytes. lia.
Qed.

Lemma readLoop_stops fuel now cc :
  (length (rx (cc_conn cc)) < fuel)%nat -> cc_loop (readLoop fuel now cc) <> LoopReading.
Proof.
  revert cc. induction fuel as [|fuel IH]; intros cc Hf; [lia|]. cbn [readLoop].
  destruct (cc_loop cc) eqn:E; try congruence.
  destruct (decide (cc_loop (readLoop_iter now cc) = LoopReading)) as [Hr|Hr].
  - apply IH. pose proof (readLoop_iter_shrinks now cc Hr). lia.
  - destruct fuel; cbn [readLoop]; [done|].
    destruct (cc_loop (readLoop_iter now cc)) eqn:E2; congruence.
Qed.

Lemma readLoop_inv fuel now cc : mux_inv cc -> mux_inv (readLoop fuel now cc).
Proof.
  revert cc. induction fuel as [|fuel IH]; intros cc Hi; cbn [readLoop]; [done|].
  destruct (cc_loop cc); try done. by apply IH, readLoop_iter_inv.
Qed.

(** Every error of [ReadFrame] is wrapped, so it is never [io.EOF] itself. *)
Lemma ReadFrame_error_wrapped c e c' : ReadFrame c = (Err e, c') -> e <> EOF.
Proof.
  unfold ReadFrame, mbind, IO_bind, wrap_err, fail.
  destruct (ReadFull 5 c) as [[h|?] c1]; [|by intros [= <- <-]].
  case_decide; [by intros [= <- <-]|]. case_decide; [|done].
  destruct (ReadFull _ c1) as [[?|?] c2]; by intros [= <- <-].
Qed.

(** What [closeAll] does to the channel at [l]. *)
Lemma closeAll_lookup cc l :
  cc_store (closeAll cc) !! l =
    (if decide (l ∈ (map_to_list (cc_channels cc)).*2) then setError EOF else id) <$> (cc_store cc !! l).
Proof.
  unfold closeAll. cbn [set_channels set_store cc_store].
  induction ((map_to_list (cc_channels cc)).*2) as [|k ls IH]; cbn [foldr].
  { rewrite decide_False by (by intros ?%elem_of_nil). by rewrite option_fmap_id. }
  rewrite list_lookup_alter. destruct (decide (k = l)) as [->|Hk].
  - rewrite IH, (decide_True (P := l ∈ l :: ls)) by (by left).
    destruct (cc_store cc !! l); simpl; [|done]. by case_decide.
  - rewrite IH. f_equal. destruct (decide (l ∈ ls)).
    + by rewrite decide_True by (by right).
    + by rewrite decide_False by (by intros [?|?]%elem_of_cons).
Qed.

Lemma closeAll_in_table cc id l ch :
  cc_channels cc !! id = Some l -> cc_store cc !! l = Some ch ->
  cc_store (closeAll cc) !! l = Some (setError EOF ch).
Proof.
  intros Ht Hs. rewrite closeAll_lookup, Hs, decide_True; [done|].
  apply list_elem_of_fmap. exists (id, l). split; [done|]. by apply elem_of_map_to_list.
Qed.

(** *** Dispatch of the channel frames *)

Lemma take_drop_4 z (r : list byte) :
  take 4 (be_put 4 z ++ r) = be_put 4 z /\ drop 4 (be_put 4 z ++ r) = r.
Proof. split; [apply take_app_length'|apply drop_app_length']; by rewrite length_be_put. Qed.

Lemma be_get_put4 z : 0 <= z < 2 ^ 32 -> be_get (be_put 4 z) = z.
Proof. intros. rewrite be_get_put. by apply Z.mod_small. Qed.

Lemma be_put4_zlen z (d : list byte) : zlen (be_put 4 z ++ d) = 4 + zlen d.
Proof. by rewrite zlen_app, zlen_be_put. Qed.

Lemma handleFrame_data id d cc :
  0 <= id < 2 ^ 32 ->
  handleFrame (data_frame id d) cc =
    match cc_channels cc !! id ≫= fun l => pair l <$> cc_store cc !! l with
    | Some (l, ch) =>
        let '(ch', spawn) := pushData d ch in
        let cc' := on_channel (fun _ => ch') l cc in
        if spawn then set_spawned (cc_spawned cc ++ [l]) cc' else cc'
    | None => cc
    end.
Proof.
  intros Hid. unfold handleFrame, data_frame. cbn [frame_type frame_payload].
  rewrite decide_False, decide_True by done. unfold handleChannelData.
  pose proof (zlen_nonneg d). rewrite be_put4_zlen, decide_False by lia.
  rewrite (proj1 (take_drop_4 _ _)), (proj2 (take_drop_4 _ _)), be_get_put4 by done.
  destruct (cc_channels cc !! id) as [l|]; [|done]. simpl. by destruct (cc_store cc !! l).
Qed.

Lemma handleFrame_close id cc :
  0 <= id < 2 ^ 32 ->
  handleFrame (close_frame id) cc =
    match cc_channels cc !! id with
    | Some l => on_channel (setError EOF) l cc
    | None => cc
    end.
Proof.
  intros Hid. unfold handleFrame, close_frame. cbn [frame_type frame_payload].
  rewrite !decide_False by done. rewrite decide_True by done. unfold handleChannelClose.
  rewrite zlen_be_put, decide_False by done. rewrite firstn_all2 by (by rewrite length_be_put).
  by rewrite be_get_put4.
Qed.

Lemma handleFrame_window id delta cc :
  0 <= id < 2 ^ 32 -> 0 <= delta < 2 ^ 32 ->
  handleFrame (window_frame id delta) cc =
    match cc_channels cc !! id with
    | Some l => on_channel (addSendWindow delta) l cc
    | None => cc
    end.
Proof.
  intros Hid Hd. unfold handleFrame, window_frame. cbn [frame_type frame_payload].
  rewrite !decide_False by done. rewrite decide_True by done. unfold handleWindowUpdate.
  rewrite be_put4_zlen, zlen_be_put, decide_False by done.
  rewrite (proj1 (take_drop_4 _ _)), (proj2 (take_drop_4 _ _)), be_get_put4 by done.
  rewrite firstn_all2 by (by rewrite length_be_put).
  unfold uint32, wrap. rewrite (Z.mod_small delta) by done. by rewrite be_get_put4.
Qed.

(** [handleNewChannel] on a payload that passes its two length checks. *)
Lemma handleNewChannel_payload id m t cc :
  0 <= id < 2 ^ 32 -> 0 <= m < 2 ^ 16 -> m <= zlen t ->
  handleNewChannel (be_put 4 id ++ be_put 2 m ++ t) cc =
    if decide (65530 <= m) then None
    else Some (Some (length (cc_store cc)),
      set_channels (<[id := length (cc_store cc)]> (cc_channels cc))
        (set_store (cc_store cc ++ [newChannel id (string_of (take (Z.to_nat m) t))]) cc)).
Proof.
  intros Hid Hm Ht. unfold handleNewChannel. pose proof (zlen_nonneg t).
  assert (zlen (be_put 4 id ++ be_put 2 m ++ t) = 6 + zlen t) as Hl
    by (rewrite !zlen_app, !zlen_be_put; lia).
  rewrite Hl, decide_False by lia.
  rewrite (proj1 (take_drop_4 _ _)), (proj2 (take_drop_4 _ _)), be_get_put4 by done.
  assert (be_get (take 2 (be_put 2 m ++ t)) = m) as ->.
  { rewrite take_app_length' by (by rewrite length_be_put). rewrite be_get_put. by apply Z.mod_small. }
  rewrite decide_False by lia. case_decide as Hbig.
  - rewrite slice_None; [done|]. unfold uint16, wrap.
    replace (6 + m) with (6 + m - 2 ^ 16 + 1 * 2 ^ 16) by lia.
    rewrite Z.mod_add, Z.mod_small by lia. lia.
  - unfold uint16, wrap. rewrite Z.mod_small by lia. rewrite slice_Some by lia.
    replace (6 + m - 6) with m by lia.
    assert (drop (Z.to_nat 6) (be_put 4 id ++ be_put 2 m ++ t) = t) as ->; [|done].
    rewrite app_assoc. apply drop_app_length'. by rewrite length_app, !length_be_put.
Qed.

(** Any payload that passes the two checks has that shape. *)
Lemma newChannel_payload_shape p :
  6 <= zlen p -> 6 + be_get (take 2 (drop 4 p)) <= zlen p ->
  exists id m t, p = be_put 4 id ++ be_put 2 m ++ t /\ 0 <= id < 2 ^ 32 /\ 0 <= m < 2 ^ 16
    /\ m <= zlen t /\ m = be_get (take 2 (drop 4 p)).
Proof.
  intros H6 Hl. exists (be_get (take 4 p)), (be_get (take 2 (drop 4 p))), (drop 2 (drop 4 p)).
  assert (length (take 4 p) = 4%nat) as L4 by len_lia.
  assert (length (take 2 (drop 4 p)) = 2%nat) as L2 by len_lia.
  rewrite (be_put_get_n 4), (be_put_get_n 2), !take_drop by done.
  pose proof (be_get_range (take 4 p)) as R4. pose proof (be_get_range (take 2 (drop 4 p))) as R2.
  unfold zlen in R4, R2. rewrite L4 in R4. rewrite L2 in R2.
  split_and!; try done; try lia. rewrite drop_drop. rewrite zlen_drop with (n := 6); lia.
Qed.

(** *** Sending on a healthy connection *)

Lemma send_healthy f cc :
  frame_ok f -> tx_room (cc_conn cc) = None ->
  send f cc = (Ok tt, set_conn (advance 0 (frame_bytes f) (cc_conn cc)) cc).
Proof. intros Hok Hr. unfold send, sendFrame. by rewrite WriteFrame_frame. Qed.

Lemma data_frame_ok id chunk : 4 + zlen chunk <= maxFramePayload -> frame_ok (data_frame id chunk).
Proof. intros. unfold frame_ok, data_frame. cbn [frame_payload]. by rewrite be_put4_zlen. Qed.

(** The loop of [Write] on a healthy connection: one frame with what the
    window allows, then done or waiting. *)
Lemma chan_Write_loop_run fuel l b total ch cc :
  cc_store cc !! l = Some ch -> channel_ok ch -> ch_status ch = chOpen ->
  tx_room (cc_conn cc) = None -> 0 <= ch_sendWindow ch <= maxFramePayload - 4 ->
  (length b <= fuel)%nat -> b <> [] ->
  let n := Z.min (zlen b) (ch_sendWindow ch) in
  let ch' := set_sendWindow (ch_sendWindow ch - n) ch in
  chan_Write_loop fuel l b total cc =
    ((if decide (n = zlen b) then WDone (total + n) else WBlocked (total + n) (drop (Z.to_nat n) b)),
     set_conn (if decide (n = 0) then cc_conn cc
               else advance 0 (frame_bytes (data_frame (ch_id ch) (take (Z.to_nat n) b))) (cc_conn cc))
       (on_channel (fun _ => ch') l cc)).
Proof.
  intros Hch Hok Hst Hroom Hw Hf Hb n ch'.
  assert (0 < zlen b) as Hb0 by (destruct b as [|? b1]; [done|]; rewrite zlen_cons; pose proof (zlen_nonneg b1); lia).
  destruct b as [|b0 b']; [done|]. set (b := b0 :: b') in *.
  destruct fuel as [|fuel]; [by cbn in Hf; lia|].
  cbn [chan_Write_loop]. fold b. rewrite Hch.
  destruct (Write_iter b ch) as [c ch1 f| |] eqn:EW.
  - apply Write_iter_chunk in EW as (Hc & Hlc & -> & Hpos & ->); [|by apply Hok].
    fold n in Hlc. assert (c = take (Z.to_nat n) b) as ->.
    { rewrite Hc. f_equal. unfold zlen in Hlc. lia. }
    rewrite Hlc. fold ch'. clear Hc.
    rewrite send_healthy; [|apply data_frame_ok; lia|done].
    assert (Z.to_nat n = length (take (Z.to_nat n) b)) as Hn by (unfold zlen in Hlc; lia).
    assert (0 < n <= zlen b) as Hn1 by lia.
    rewrite <-Hn. rewrite (decide_False (P := n = 0)) by lia.
    destruct (decide (n = zlen b)) as [E|E].
    + assert (drop (Z.to_nat n) b = []) as -> by (apply drop_ge; unfold zlen in E; lia).
      by destruct fuel.
    + destruct (drop (Z.to_nat n) b) as [|d0 d'] eqn:Ed.
      { exfalso. apply (f_equal length) in Ed. rewrite length_drop in Ed. change (length (@nil byte)) with 0%nat in Ed.
        unfold zlen in E, Hn1. lia. }
      assert ((length (d0 :: d') <= fuel)%nat).
      { rewrite <-Ed, length_drop. lia. }
      destruct fuel as [|fuel]; [by simpl in *; lia|]. cbn [chan_Write_loop].
      match goal with |- context [cc_store ?x !! l] => assert (cc_store x !! l = Some ch') as -> end.
      { simpl. by rewrite list_lookup_alter_eq, Hch. }
      unfold Write_iter. cbn [ch' set_sendWindow ch_sendWindow ch_status].
      rewrite decide_True by lia. by rewrite decide_True by done.
  - unfold Write_iter in EW. case_decide; [|done]. by rewrite decide_True in EW.
  - unfold Write_iter in EW. case_decide as Hw0; [|done].
    assert (n = 0) as Hn0 by lia. rewrite Hn0. rewrite decide_False, Z.add_0_r, decide_True by lia.
    rewrite drop_0. f_equal.
    assert (ch' = ch) as ->. { unfold ch'. rewrite Hn0, Z.sub_0_r. by destruct ch. }
    destruct cc; cbn in *. unfold on_channel, set_store, set_conn; cbn. f_equal.
    symmetry. apply list_eq. intros i. rewrite list_lookup_alter.
    destruct (decide (l = i)) as [<-|]; [|done]. by rewrite Hch.
Qed.

(** *** A writer without send credit after the end of the read loop *)

Definition starved (l : nat) (cc : CtrlConn) : Prop :=
  cc_loop cc = LoopDone /\ exists ch, cc_store cc !! l = Some ch /\ ch_sendWindow ch <= 0.

Lemma starved_on_channel f k l cc :
  (forall x, cc_store cc !! k = Some x -> ch_sendWindow x <= 0 -> ch_sendWindow (f x) <= 0) ->
  starved l cc -> starved l (on_channel f k cc).
Proof.
  intros Hf (Hl & ch & Hch & Hw). split; [done|]. simpl. rewrite list_lookup_alter.
  destruct (decide (k = l)) as [->|]; [|by eauto]. rewrite Hch. eexists; split; [done|]. by apply Hf.
Qed.

Lemma starved_set_conn c l cc : starved l cc -> starved l (set_conn c cc).
Proof. done. Qed.

Lemma starved_send f l cc : starved l cc -> starved l (send f cc).2.
Proof. by destruct (send_set_conn f cc) as [c ->]. Qed.

Lemma starved_closeAll l cc : starved l cc -> starved l (closeAll cc).
Proof.
  intros (Hl & ch & Hch & Hw). split; [done|]. rewrite closeAll_lookup, Hch.
  eexists; split; [done|]. by case_decide.
Qed.

Lemma starved_Close k l cc : starved l cc -> starved l (chan_Close k cc).2.
Proof.
  intros Hs. unfold chan_Close. destruct (cc_store cc !! k) as [x|] eqn:Ex; [|done].
  unfold Close. case_decide; [done|]. apply starved_send.
  apply (starved_on_channel (fun _ => set_status chClosed x)); [|done].
  intros y Hy. rewrite Ex in Hy. by injection Hy as ->.
Qed.

Lemma starved_CloseWrite k l cc : starved l cc -> starved l (chan_CloseWrite k cc).2.
Proof.
  intros Hs. unfold chan_CloseWrite. destruct (cc_store cc !! k) as [x|] eqn:Ex; [|done].
  unfold CloseWrite. case_decide; [|done]. apply starved_send.
  apply starved_on_channel; [|done]. intros y Hy. rewrite Ex in Hy. by injection Hy as ->.
Qed.

Lemma starved_Read k n r cc' l cc : chan_Read k n cc = Some (r, cc') -> starved l cc -> starved l cc'.
Proof.
  unfold chan_Read. intros E Hs. destruct (cc_store cc !! k) as [x|] eqn:Ex; [|done].
  destruct (Read n x) as [data x' u|e|] eqn:ER; [|by injection E as <- <-|done].
  assert (starved l (on_channel (fun _ => x') k cc)) as H1.
  { apply starved_on_channel; [|done]. intros y Hy. rewrite Ex in Hy. injection Hy as ->.
    unfold Read in ER. destruct (ch_rb y); [repeat case_match; done|]. by injection ER as <- <- <-. }
  destruct u; injection E as <- <-; [by apply starved_send|done].
Qed.

Lemma starved_Open target r cc' l cc : OpenChannel target cc = (r, cc') -> starved l cc -> starved l cc'.
Proof.
  unfold OpenChannel. cbn [alloc]. intros E (Hl & ch & Hch & Hw). set (cc1 := set_channels _ _) in E.
  assert (starved l cc1) as H1.
  { split; [done|]. exists ch. split; [|done]. simpl. by apply lookup_app_l_Some. }
  destruct (sendFrame FrameNewChannel _ cc1) as [[[]|e] cc2] eqn:Es;
    apply sendFrame_set_conn in Es as [c ->]; by injection E as <- <-.
Qed.

#[export] Hint Resolve starved_send starved_closeAll starved_Close starved_CloseWrite starved_Read
  starved_Open starved_set_conn : tunnel.

(** Once the loop is over, no step gives send credit back. *)
Lemma starved_step l cc cc' : mux_step cc cc' -> starved l cc -> starved l cc'.
Proof.
  intros Hstep Hs. destruct Hstep as
    [now|target r cc' E|pd r cc' E|k n r cc' E|k x b chunk x' f Hx E|f|k r cc' E|k r cc' E
    | |now timeout b cc' E| |p]; eauto with tunnel.
  - unfold readLoop_step. by rewrite (proj1 Hs).
  - by apply AcceptChannel_shape in E as [->|(x & q & Eq & ->)].
  - apply starved_on_channel; [|done]. intros y Hy Hy0. simplify_eq.
    unfold Write_iter in E. case_decide; [by case_decide|lia].
  - replace cc' with (chan_CloseWrite k cc).2 by (by rewrite E). eauto with tunnel.
  - replace cc' with (chan_Close k cc).2 by (by rewrite E). eauto with tunnel.
  - unfold run_spawned. destruct (cc_spawned cc) as [|k ks]; [done|]. by apply starved_Close.
  - unfold KeepAlive_tick in E. case_decide; injection E as <- <-; [by apply starved_closeAll|].
    by apply (starved_send (mkFrame FramePing (be_put 8 (uint64 now)))).
Qed.

#[export] Instance mux_preserves : Preserves mux_step mux_inv := mux_step_inv.
#[export] Instance mux_starves l : Preserves mux_step (starved l) := starved_step l.

(** ** Properties *)


(** A peer opens channel 7, sends it one byte and closes it. *)
Definition demo_input : list byte :=
  frame_bytes (mkFrame FrameNewChannel (be_put 4 7 ++ be_put 2 1 ++ [x61]))
  ++ frame_bytes (data_frame 7 [xff]) ++ frame_bytes (close_frame 7).


(** C25: the read loop always stops reading: on any finite input it reaches,
    within one iteration per byte, a state where it has returned, is blocked
    handing a channel to a full accept queue, or has crashed the process; and
    the invariant holds there. *)
Theorem readLoop_terminates (now : Z) (cc : CtrlConn) :
  mux_inv cc ->
  let cc' := readLoop (S (length (rx (cc_conn cc)))) now cc in
  cc_loop cc' <> LoopReading /\ mux_inv cc'.
Proof. intros Hi. split; [apply readLoop_stops; lia|by apply readLoop_inv]. Qed.

Lemma readLoop_terminates_witness :
  cc_loop (readLoop 100 0 (NewCtrlConn (conn_of demo_input) 0)) = LoopDone
  /\ let cc := NewCtrlConn (conn_of demo_input) 0 in
     cc_loop (readLoop (S (length (rx (cc_conn cc)))) 0 cc) <> LoopReading.
Proof.
  split; [by vm_compute|]. apply (readLoop_terminates 0). apply NewCtrlConn_inv.
Defined.

(** C39: a peer can crash the process with one frame: [handleNewChannel] panics
    exactly when the payload is long enough for its announced target and that
    length is at least 65530, because the slice bound [6+targetLen] is computed
    in [uint16] and wraps below 6. *)
Theorem handleNewChannel_panics_iff (p : list byte) (cc : CtrlConn) :
  handleNewChannel p cc = None <->
  6 <= zlen p /\ 65530 <= be_get (take 2 (drop 4 p)) /\ 6 + be_get (take 2 (drop 4 p)) <= zlen p.
Proof.
  split.
  - intros E. assert (~ zlen p < 6) as H6 by (intros ?; unfold handleNewChannel in E; by rewrite decide_True in E).
    assert (~ zlen p < 6 + be_get (take 2 (drop 4 p))) as Hl.
    { intros ?. unfold handleNewChannel in E. rewrite decide_False in E by done. by rewrite decide_True in E. }
    destruct (newChannel_payload_shape p) as (id & m & t & Hp & Hid & Hm & Ht & Hm'); [lia|lia|].
    rewrite <-Hm' in *. rewrite Hp, handleNewChannel_payload in E by done.
    case_decide; [lia|done].
  - intros (H6 & Hbig & Hl).
    destruct (newChannel_payload_shape p H6 Hl) as (id & m & t & Hp & Hid & Hm & Ht & Hm').
    rewrite Hp, handleNewChannel_payload by done. rewrite decide_True by lia. done.
Qed.

(** What the peer makes of [OpenChannel]: the frame it writes opens, at
    the other end, a channel with the same id whose target is the requested
    one, queued for [AcceptChannel] -- provided the target is shorter than
    65530 bytes.  From there to 65535 bytes the frame crashes the peer, and a
    longer target is cut to its length modulo 65536. *)
Theorem OpenChannel_at_peer (target : string) (cc peer : CtrlConn) :
  tx_room (cc_conn cc) = None -> 6 + zlen (bytes_of target) <= maxFramePayload ->
  0 <= cc_nextID cc < 2 ^ 32 ->
  (length (cc_newCh peer) < newCh_cap)%nat ->
  let id := cc_nextID cc in
  let m := zlen (bytes_of target) mod 2 ^ 16 in
  exists l cc' f, OpenChannel target cc = (Ok l, cc')
    /\ tx (cc_conn cc') = tx (cc_conn cc) ++ frame_bytes f
    /\ cc_store cc' !! l = Some (newChannel id target) /\ cc_channels cc' !! id = Some l
    /\ cc_nextID cc' = (id + 1) mod 2 ^ 32
    /\ handleFrame f peer =
        if decide (65530 <= m) then set_loop LoopPanic peer
        else let l' := length (cc_store peer) in
          set_loop LoopReading (set_newCh (cc_newCh peer ++ [l'])
            (set_channels (<[id := l']> (cc_channels peer))
              (set_store (cc_store peer
                ++ [newChannel id (string_of (take (Z.to_nat m) (bytes_of target)))]) peer))).
Proof.
  intros Hroom Hlen Hid Hq id m. pose proof (zlen_nonneg (bytes_of target)).
  set (p := be_put 4 id ++ be_put 2 (uint16 (zlen (bytes_of target))) ++ bytes_of target).
  assert (zlen p = 6 + zlen (bytes_of target)) as Hp by (unfold p; rewrite !zlen_app, !zlen_be_put; lia).
  assert (frame_ok (mkFrame FrameNewChannel p)) as Hok by (unfold frame_ok; simpl; lia).
  eexists _, _, (mkFrame FrameNewChannel p). unfold OpenChannel. cbn [alloc]. fold id p.
  match goal with |- context [sendFrame FrameNewChannel p ?x] =>
    pose proof (send_healthy (mkFrame FrameNewChannel p) x Hok Hroom) as E end.
  unfold send in E. cbn [frame_type frame_payload] in E. rewrite E. split; [reflexivity|].
  cbn [set_conn cc_conn tx advance cc_store cc_channels cc_nextID set_channels set_store set_nextID].
  split; [done|]. split; [by rewrite lookup_app_r, Nat.sub_diag by lia|].
  split; [apply lookup_insert_eq|]. split; [done|].
  unfold handleFrame. cbn [frame_type frame_payload]. rewrite decide_True by done.
  unfold p. rewrite handleNewChannel_payload; [|done| |].
  - unfold uint16, wrap. fold m. case_decide; [done|]. unfold send_newCh. simpl. by rewrite decide_True.
  - unfold uint16, wrap. apply Z.mod_pos_bound. lia.
  - unfold uint16, wrap. apply Z.mod_le; lia.
Qed.

Lemma OpenChannel_at_peer_witness :
  let cc := NewCtrlConn (conn_of []) 0 in
  exists l cc' f, OpenChannel "web:80" cc = (Ok l, cc')
    /\ tx (cc_conn cc') = frame_bytes f
    /\ (ch_target <$> cc_store (handleFrame f cc)) = ["web:80"%string].
Proof.
  intros cc. destruct (OpenChannel_at_peer "web:80" cc cc) as (l & cc' & f & H1 & H2 & _ & _ & _ & H3).
  - reflexivity.
  - vm_compute; discriminate.
  - split; [vm_compute; discriminate|reflexivity].
  - vm_compute; lia.
  - exists l, cc', f. split; [exact H1|]. split; [exact H2|]. rewrite H3. vm_compute. reflexivity.
Defined.

(** A data, close or window frame acts on the channel its id names and on
    nothing else: it delivers its bytes to the receive buffer (or fails the
    channel and schedules its closing when they would exceed 256 KiB), marks
    the end of the stream without dropping buffered bytes, or adds its credit;
    a frame for an unknown id is ignored. *)
Theorem channel_frames_dispatch (id : Z) (d : list byte) (delta : Z) (cc : CtrlConn) :
  mux_inv cc -> 0 <= id < 2 ^ 32 -> 0 <= delta < 2 ^ 32 ->
  match cc_channels cc !! id with
  | None => handleFrame (data_frame id d) cc = cc /\ handleFrame (close_frame id) cc = cc
      /\ handleFrame (window_frame id delta) cc = cc
  | Some l => exists ch, cc_store cc !! l = Some ch /\ ch_id ch = id /\
      handleFrame (data_frame id d) cc =
        (if decide (zlen (ch_rb ch) + zlen d > maxReceiveBuffer)
         then set_spawned (cc_spawned cc ++ [l])
                (on_channel (fun _ => set_rerr (Some (Errorf "receive buffer overflow" [])) ch) l cc)
         else on_channel (fun _ => set_rb (ch_rb ch ++ d) ch) l cc) /\
      handleFrame (close_frame id) cc = on_channel (setError EOF) l cc /\
      handleFrame (window_frame id delta) cc =
        on_channel (set_sendWindow (int64 (ch_sendWindow ch + delta))) l cc
  end.
Proof.
  intros Hinv Hid Hd. rewrite handleFrame_data, handleFrame_close, handleFrame_window by done.
  destruct (cc_channels cc !! id) as [l|] eqn:El; [|done].
  destruct (inv_table _ Hinv id l El) as (ch & Hch & Hid' & _).
  exists ch. split; [done|]. split; [done|]. simpl. rewrite Hch. simpl. split; [|split; [done|]].
  - unfold pushData. by case_decide.
  - unfold on_channel. f_equal. apply list_eq. intros i. rewrite !list_lookup_alter.
    destruct (decide (l = i)); [|done]. by rewrite Hch.
Qed.

Lemma channel_frames_dispatch_witness :
  let cc := readLoop_step 4 (NewCtrlConn (conn_of demo_input) 0) in
  exists ch, cc_store cc !! 0%nat = Some ch /\
    handleFrame (data_frame 7 [x01]) cc = on_channel (fun _ => set_rb (ch_rb ch ++ [x01]) ch) 0 cc.
Proof.
  intros cc. assert (mux_inv cc) as Hi by (apply readLoop_step_inv, NewCtrlConn_inv).
  pose proof (channel_frames_dispatch 7 [x01] 5 cc Hi ltac:(lia) ltac:(lia)) as H.
  change (cc_channels cc !! 7) with (Some 0%nat) in H. cbn iota in H.
  destruct H as (ch & Hch & _ & Hd & _ & _). exists ch. split; [exact Hch|]. rewrite Hd.
  vm_compute in Hch. injection Hch as <-. reflexivity.
Defined.

(** [Write] on an open channel of a healthy connection sends exactly the
    bytes the send window allows, as one frame, takes that credit, and then
    returns if that was everything or waits for a window update with exactly
    the unsent rest; it never sends more than its credit. *)
Theorem chan_Write_spec (l : nat) (b : list byte) (ch : channel) (cc : CtrlConn) :
  cc_store cc !! l = Some ch -> channel_ok ch -> ch_status ch = chOpen ->
  tx_room (cc_conn cc) = None -> 0 <= ch_sendWindow ch <= maxFramePayload - 4 ->
  let n := Z.min (zlen b) (ch_sendWindow ch) in
  let '(r, cc') := chan_Write l b cc in
  r = (if decide (n = zlen b) then WDone n else WBlocked n (drop (Z.to_nat n) b))
  /\ tx (cc_conn cc') = tx (cc_conn cc) ++
       (if decide (n = 0) then [] else frame_bytes (data_frame (ch_id ch) (take (Z.to_nat n) b)))
  /\ cc_store cc' !! l = Some (set_sendWindow (ch_sendWindow ch - n) ch).
Proof.
  intros Hch Hok Hst Hroom Hw n. unfold chan_Write. rewrite Hch. unfold Write_guard.
  rewrite (decide_True (P := ch_status ch = chOpen)) by done.
  destruct b as [|b0 b'].
  - unfold n. change (zlen (@nil byte)) with 0. rewrite Z.min_l by lia. simpl. rewrite app_nil_r, Z.sub_0_r.
    split; [done|]. split; [done|]. rewrite Hch. by destruct ch.
  - rewrite (chan_Write_loop_run _ l (b0 :: b') 0 ch cc) by done. fold n.
    rewrite Z.add_0_l. split; [done|]. split.
    + simpl. case_decide; [by rewrite app_nil_r|done].
    + simpl. by rewrite list_lookup_alter_eq, Hch.
Qed.

Lemma chan_Write_spec_witness :
  let cc := (OpenChannel "t" (NewCtrlConn (conn_of []) 0)).2 in
  (chan_Write 0 [x01; x02] cc).1 = WDone 2
  /\ tx (cc_conn (chan_Write 0 [x01; x02] cc).2) =
     tx (cc_conn cc) ++ frame_bytes (data_frame 1 [x01; x02]).
Proof.
  intros cc.
  pose proof (chan_Write_spec 0 [x01; x02] (newChannel 1 "t") cc ltac:(reflexivity)
    (newChannel_ok 1 "t" ltac:(lia)) ltac:(reflexivity) ltac:(reflexivity)
    ltac:(vm_compute; split; discriminate)) as H.
  destruct (chan_Write 0 [x01; x02] cc) as [r cc']. destruct H as (Hr & Htx & _).
  split; [rewrite Hr; reflexivity|]. cbn [snd]. rewrite Htx. reflexivity.
Defined.

(** A writer that has used up its credit is stuck for good once the control
    connection is dead: after the read loop has returned, no step of the
    process restores credit, so as long as nobody closes the channel locally
    the pending [Write] keeps waiting -- the teardown ([closeAll]) marks the
    channel with [io.EOF] but neither changes its status nor wakes writers. *)
Theorem blocked_writer_stuck (l : nat) (ch ch' : channel) (b : list byte) (cc cc' : CtrlConn) :
  cc_loop cc = LoopDone -> cc_store cc !! l = Some ch -> ch_sendWindow ch <= 0 ->
  rtc mux_step cc cc' -> cc_store cc' !! l = Some ch' -> ch_status ch' = chOpen ->
  Write_iter b ch' = WWait.
Proof.
  intros Hloop Hch Hw Hr Hch' Hst.
  destruct (reachable (inv := starved l) cc cc' Hr) as (_ & x & Hx & Hx0); [by split; [|eauto]|].
  simplify_eq. unfold Write_iter. rewrite decide_True by done. by rewrite decide_True.
Qed.

(** The connection dies while a writer waits on an exhausted window. *)
Definition demo_stuck : CtrlConn :=
  let cc := (OpenChannel "t" (NewCtrlConn (conn_of []) 0)).2 in
  let cc := (chan_Write 0 (replicate (Z.to_nat 65537) x00) cc).2 in
  readLoop_step 1 cc.

Lemma blocked_writer_stuck_witness :
  exists ch', cc_store (cc_Close demo_stuck) !! 0%nat = Some ch'
    /\ ch_rerr ch' = Some EOF /\ Write_iter [x00] ch' = WWait.
Proof.
  exists (set_rerr (Some EOF) (set_sendWindow 0 (newChannel 1 "t"))).
  assert (H1 : cc_store (cc_Close demo_stuck) !! 0%nat =
    Some (set_rerr (Some EOF) (set_sendWindow 0 (newChannel 1 "t")))) by (vm_compute; reflexivity).
  split; [exact H1|]. split; [reflexivity|].
  apply (blocked_writer_stuck 0 (set_rerr (Some EOF) (set_sendWindow 0 (newChannel 1 "t"))) _ [x00]
    demo_stuck (cc_Close demo_stuck)).
  - vm_compute; reflexivity.
  - vm_compute; reflexivity.
  - vm_compute; discriminate.
  - eapply rtc_l; [apply step_cc_close|apply rtc_refl].
  - exact H1.
  - reflexivity.
Defined.

(** The end of the read loop: when the loop returns, every channel of the
    table has [io.EOF] behind its buffered bytes and the table is empty, and
    [AcceptChannel] on the empty queue reports the read error -- never
    [io.EOF], even when the peer closed in an orderly way, because [ReadFrame]
    wraps the end of the stream before [readLoop] compares it with [io.EOF]. *)
Theorem readLoop_end (now : Z) (cc : CtrlConn) :
  cc_loop cc = LoopReading -> cc_loop (readLoop_step now cc) = LoopDone ->
  let cc' := readLoop_step now cc in
  cc_channels cc' = ∅
  /\ (forall id l ch, cc_channels cc !! id = Some l -> cc_store cc !! l = Some ch ->
        cc_store cc' !! l = Some (set_rerr (Some EOF) ch))
  /\ (cc_newCh cc = [] -> forall pd, exists e,
        AcceptChannel pd cc' = Some (Err (Wrapf "ctrl read: %w" [] e), cc') /\ e <> EOF).
Proof.
  intros Hr. unfold readLoop_step. rewrite Hr. unfold readLoop_iter.
  destruct (ReadFrame (cc_conn cc)) as [[f|e] c] eqn:E.
  { intros Hd. exfalso. revert Hd. unfold handleFrame. case_decide.
    - unfold handleNewChannel. case_decide; [simpl; congruence|]. case_decide; [simpl; congruence|].
      destruct (slice _ _ _); simpl; [|congruence]. unfold send_newCh. by case_decide.
    - repeat case_decide; unfold handleChannelData, handleChannelClose, handleWindowUpdate, handlePing, sendFrame;
        repeat case_match; simpl; congruence. }
  intros _. apply ReadFrame_error_wrapped in E. rewrite decide_False by done.
  split; [done|]. split.
  - intros id l ch Ht Hs. by apply (closeAll_in_table
      (set_readErr (Some (Wrapf "ctrl read: %w" [] e)) (set_conn c cc)) id l ch).
  - intros Hq pd. exists e. split; [|done]. unfold AcceptChannel. simpl. by rewrite Hq.
Qed.

Lemma readLoop_end_witness :
  let cc := NewCtrlConn (conn_of []) 0 in
  exists e, AcceptChannel false (readLoop_step 1 cc) =
    Some (Err (Wrapf "ctrl read: %w" [] e), readLoop_step 1 cc) /\ e <> EOF.
Proof.
  intros cc.
  destruct (readLoop_end 1 cc eq_refl eq_refl) as (_ & _ & H).
  exact (H eq_refl false).
Defined.
