(* ===== verification/Transport.v ===== *)
(** * Byte streams: the interface between the transports and their users

    A transport carries bytes from a writer to a reader.  [System] gives its
    states and labelled steps, [Reliable] is the promise the users of a
    transport rely on, and [pipe] the abstract specification: a bounded buffer.
    [FlowControl.v] discharges the promise for a multiplexed channel, and
    [Relay.v] uses it for the transports on both sides of a relay and
    discharges it again for the two with the relay between them. *)
From S2P Require Import Prelude.

(** What the users of the two ends see. *)
Inductive event :=
  | EvWrite (chunk : list byte)   (* the writer handed over a chunk *)
  | EvClose                       (* the writer closed its side *)
  | EvRead (data : list byte)     (* the reader got data *)
  | EvEOF                         (* the reader got [io.EOF] *)
  | EvFail.                       (* an error on the way *)

Class System (St : Type) := {
  sys_init : St -> Prop;
  sys_step : St -> option event -> St -> Prop;
}.

(** Runs with their trace of events. *)
Inductive run `{System St} (s : St) : list event -> St -> Prop :=
  | run_nil : run s [] s
  | run_snoc tr s1 e s2 : run s tr s1 -> sys_step s1 e s2 -> run s (tr ++ option_list e) s2.

(** All bytes written and read in a trace. *)
Definition written (tr : list event) : list byte :=
  concat ((fun e => match e with EvWrite c => c | _ => [] end) <$> tr).
Definition received (tr : list event) : list byte :=
  concat ((fun e => match e with EvRead d => d | _ => [] end) <$> tr).

(** The promise: the reader has a prefix of what was written, and when nothing
    failed, a reader at the end of the stream has all of it and the writer has
    closed. *)
Class Reliable (St : Type) `{System St} : Prop :=
  reliable : forall (s0 : St) tr s, sys_init s0 -> run s0 tr s ->
    received tr `prefix_of` written tr
    /\ (EvEOF ∈ tr -> EvFail ∉ tr -> received tr = written tr /\ EvClose ∈ tr).

(** A simulation: each step of [St], in states with [sim_inv], is the same step
    of [A] or none. *)
Class Simulation (St A : Type) `{System St, System A} := {
  sim_inv : St -> Prop;
  sim_abs : St -> A;
  sim_init s : sys_init s -> sim_inv s /\ sys_init (sim_abs s);
  sim_step s e s' : sys_step s e s' -> sim_inv s ->
    sim_inv s' /\ match e with
                  | None => sim_abs s' = sim_abs s
                  | Some _ => sys_step (sim_abs s) e (sim_abs s')
                  end;
}.

(** ** Runs *)

Lemma run_trans `{System St} (s s' s'' : St) tr tr' : run s tr s' -> run s' tr' s'' -> run s (tr ++ tr') s''.
Proof.
  intros H1 H2. induction H2 as [|tr' s1 e s2 _ IH Hstep]; [by rewrite app_nil_r|].
  rewrite app_assoc. by econstructor.
Qed.

Lemma run_one `{System St} (s s' : St) e : sys_step s e s' -> run s (option_list e) s'.
Proof. intros Hs. change (option_list e) with ([] ++ option_list e). econstructor; [constructor|done]. Qed.

Lemma run_tau `{System St} (s s' s'' : St) tr : sys_step s None s' -> run s' tr s'' -> run s tr s''.
Proof. intros Hs Hr. by apply (run_trans s s' s'' [] tr); [apply (run_one s s' None)|]. Qed.

Lemma run_event `{System St} (s s' s'' : St) e tr : sys_step s (Some e) s' -> run s' tr s'' -> run s (e :: tr) s''.
Proof. intros Hs Hr. by apply (run_trans s s' s'' [e] tr); [apply (run_one s s' (Some e))|]. Qed.

Lemma written_app tr tr' : written (tr ++ tr') = written tr ++ written tr'.
Proof. unfold written. by rewrite fmap_app, concat_app. Qed.

Lemma received_app tr tr' : received (tr ++ tr') = received tr ++ received tr'.
Proof. unfold received. by rewrite fmap_app, concat_app. Qed.

Lemma written_one e : written [e] = match e with EvWrite c => c | _ => [] end.
Proof. destruct e; [apply app_nil_r|done..]. Qed.

Lemma received_one e : received [e] = match e with EvRead d => d | _ => [] end.
Proof. destruct e; [done|done|apply app_nil_r|done..]. Qed.

(** A simulation carries runs over, and with them the promise. *)
Lemma simulation_run `{Simulation St A} (s : St) tr s' :
  run s tr s' -> sim_inv s -> sim_inv s' /\ run (sim_abs s) tr (sim_abs s').
Proof.
  intros Hrun Hi. induction Hrun as [|tr s1 e s2 _ [Hi1 Hp] Hstep]; [split; [done|constructor]|].
  destruct (sim_step _ _ _ Hstep Hi1) as [Hi2 Hs]. split; [done|].
  destruct e as [ev|]; [by econstructor|]. simpl. rewrite app_nil_r. by rewrite Hs.
Qed.

Lemma simulation_reliable `{Simulation St A, !Reliable A} : Reliable St.
Proof.
  intros s0 tr s Hi Hrun. destruct (sim_init s0 Hi) as [Hs0 Ha0].
  apply simulation_run in Hrun as [_ Hrun]; [|done]. by eapply reliable.
Qed.

(** ** The bounded pipe *)

Record pipe := mkPipe { p_cap : Z; p_buf : list byte; p_closed : bool }.

Inductive pipe_step (p : pipe) : option event -> pipe -> Prop :=
  | ps_write c : p_closed p = false -> zlen (p_buf p ++ c) <= p_cap p ->
      pipe_step p (Some (EvWrite c)) (mkPipe (p_cap p) (p_buf p ++ c) false)
  | ps_close : pipe_step p (Some EvClose) (mkPipe (p_cap p) (p_buf p) true)
  | ps_read d r : p_buf p = d ++ r -> pipe_step p (Some (EvRead d)) (mkPipe (p_cap p) r (p_closed p))
  | ps_eof : p_buf p = [] -> p_closed p = true -> pipe_step p (Some EvEOF) p.

#[export] Instance pipe_system : System pipe :=
  {| sys_init p := p_buf p = [] /\ p_closed p = false /\ 0 <= p_cap p; sys_step := pipe_step |}.

(** What a pipe holds is what was written and not yet read. *)
Lemma pipe_run_bytes (p0 : pipe) tr p :
  sys_init p0 -> run p0 tr p ->
  written tr = received tr ++ p_buf p /\ zlen (p_buf p) <= p_cap p /\ p_cap p = p_cap p0.
Proof.
  intros (Hb0 & _ & Hc0) Hrun.
  induction Hrun as [|tr p1 e p2 _ (IH & Hlen & Hcap) Hstep]; [by rewrite Hb0|].
  rewrite written_app, received_app, IH.
  destruct Hstep as [c _ Hc| |d r Hr|Hb _]; simpl in *;
    rewrite written_one, received_one, ?app_nil_r.
  - split; [by rewrite app_assoc|done].
  - done.
  - rewrite Hr in *. rewrite <-app_assoc. rewrite zlen_app in Hlen. pose proof (zlen_nonneg d). split; [done|]. split; [lia|done].
  - done.
Qed.

Lemma pipe_run_closed (p0 : pipe) tr p : sys_init p0 -> run p0 tr p -> p_closed p = true -> EvClose ∈ tr.
Proof.
  intros (_ & Hc0 & _) Hrun. induction Hrun as [|tr p1 e p2 _ IH Hstep]; [by rewrite Hc0|].
  destruct Hstep; simpl; intros Hc; apply elem_of_app; [done|right; set_solver|left; auto|left; auto].
Qed.

(** After the end of the stream nothing is written and nothing is left. *)
Lemma pipe_run_eof (p0 : pipe) tr p : run p0 tr p -> EvEOF ∈ tr -> p_buf p = [] /\ p_closed p = true.
Proof.
  intros Hrun. induction Hrun as [|tr p1 e p2 _ IH Hstep]; [set_solver|].
  intros [Hin|He]%elem_of_app.
  - destruct (IH Hin) as [Hb Hcl]. destruct Hstep as [c Hc| |d r Hr|]; simpl; [congruence|done| |done].
    rewrite Hb in Hr. symmetry in Hr. by apply app_nil in Hr as [_ ->].
  - destruct Hstep; simpl in He; apply list_elem_of_singleton in He; done.
Qed.

#[export] Instance pipe_reliable : Reliable pipe.
Proof.
  intros p0 tr p Hi Hrun. destruct (pipe_run_bytes p0 tr p Hi Hrun) as (-> & _ & _).
  split; [by apply prefix_app_r|]. intros He _. destruct (pipe_run_eof p0 tr p Hrun He) as [-> Hc].
  split; [by rewrite app_nil_r|]. by eapply pipe_run_closed.
Qed.
