(* ===== verification/FlowControl.v ===== *)
(** * Flow control of one channel, end to end

    The two ends of a channel in one direction: the writer's [channel], the
    reader's [channel], the frames in transit to the reader and the window
    updates in transit back.  The steps are the methods of [Stream.v]; frames
    are received in order through [recv_frame], which is what [handleFrame]
    does to the channel a frame names ([recv_frame_handleFrame]).  The writer
    is one goroutine (the copy loop of [Relay]): it starts a [Write] only
    before it closes the channel.  The specification is a bounded byte pipe;
    [flow_refines_pipe] shows that the window protocol implements it. *)
From S2P Require Import Prelude Conn Frame Stream Mux Transport.

(** What [handleFrame] does to the channel named by [f]. *)
Definition recv_frame (f : Frame) (ch : channel) : channel :=
  if decide (frame_type f = FrameChannelData) then (pushData (drop 4 (frame_payload f)) ch).1
  else if decide (frame_type f = FrameChannelClose) then setError EOF ch
  else if decide (frame_type f = FrameWindowUpdate)
  then addSendWindow (be_get (take 4 (drop 4 (frame_payload f)))) ch
  else ch.

Record flow := mkFlow {
  fl_snd : channel;        (* the writer's end *)
  fl_rcv : channel;        (* the reader's end *)
  fl_data : list Frame;    (* in transit to the reader, oldest first *)
  fl_credit : list Frame;  (* window updates in transit to the writer *)
}.

(** A channel just opened: [OpenChannel] at one end, [handleNewChannel] at the
    other. *)
Definition flow_init (id : Z) (target : string) : flow :=
  mkFlow (newChannel id target) (newChannel id target) [] [].

Inductive flow_step (s : flow) : option event -> flow -> Prop :=
  | fs_write b c snd' f :
      Write_guard (fl_snd s) = None -> Write_iter b (fl_snd s) = WChunk c snd' f ->
      flow_step s (Some (EvWrite c)) (mkFlow snd' (fl_rcv s) (fl_data s ++ [f]) (fl_credit s))
  | fs_closewrite snd' f :
      CloseWrite (fl_snd s) = Some (snd', f) ->
      flow_step s (Some EvClose) (mkFlow snd' (fl_rcv s) (fl_data s ++ [f]) (fl_credit s))
  | fs_close snd' f :
      Close (fl_snd s) = Some (snd', f) ->
      flow_step s (Some EvClose) (mkFlow snd' (fl_rcv s) (fl_data s ++ [f]) (fl_credit s))
  | fs_deliver f q :
      fl_data s = f :: q ->
      flow_step s None (mkFlow (fl_snd s) (recv_frame f (fl_rcv s)) q (fl_credit s))
  | fs_read n d rcv' u :
      Read n (fl_rcv s) = RData d rcv' u ->
      flow_step s (Some (EvRead d)) (mkFlow (fl_snd s) rcv' (fl_data s) (fl_credit s ++ option_list u))
  | fs_eof n :
      Read n (fl_rcv s) = RErr EOF -> flow_step s (Some EvEOF) s
  | fs_credit f q :     (* a closed channel has left the writer's table *)
      fl_credit s = f :: q ->
      flow_step s None (mkFlow (if decide (ch_status (fl_snd s) = chClosed) then fl_snd s
                                else recv_frame f (fl_snd s)) (fl_rcv s) (fl_data s) q).

#[export] Instance flow_system : System flow :=
  {| sys_init s := exists id target, 0 <= id < 2 ^ 32 /\ s = flow_init id target; sys_step := flow_step |}.

(** The bytes of a data frame and the credit of a window update. *)
Definition data_of (f : Frame) : list byte :=
  if decide (frame_type f = FrameChannelData) then drop 4 (frame_payload f) else [].
Definition credit_of (f : Frame) : Z := be_get (take 4 (drop 4 (frame_payload f))).

Definition in_flight (q : list Frame) : list byte := concat (data_of <$> q).
Definition credits (q : list Frame) : Z := foldr Z.add 0 (credit_of <$> q).

(** The pipe a flow state stands for. *)
Definition flow_pipe (s : flow) : pipe :=
  mkPipe defaultSendWindow (ch_rb (fl_rcv s) ++ in_flight (fl_data s)) (bool_decide (ch_status (fl_snd s) <> chOpen)).

(** The invariant: the queue to the reader holds data frames and then close
    frames, nothing comes after the end of the stream, and credit is neither
    lost nor created while the writer is in its table. *)
Record flow_inv (s : flow) : Prop := {
  fi_id : 0 <= ch_id (fl_snd s) < 2 ^ 32;
  fi_data : exists cs k, fl_data s =
      (data_frame (ch_id (fl_snd s)) <$> cs) ++ replicate k (close_frame (ch_id (fl_snd s)))
    /\ (ch_rerr (fl_rcv s) = None /\ (ch_status (fl_snd s) = chOpen <-> k = 0%nat)
        \/ ch_rerr (fl_rcv s) = Some EOF /\ cs = [] /\ ch_status (fl_snd s) <> chOpen);
  fi_rcv : ch_id (fl_rcv s) = ch_id (fl_snd s) /\ ch_status (fl_rcv s) = chOpen;
  fi_credit : Forall (fun f => exists d, f = window_frame (ch_id (fl_snd s)) d /\ 0 <= d < 2 ^ 32) (fl_credit s);
  fi_window : 0 <= ch_sendWindow (fl_snd s);
  fi_sum : ch_sendWindow (fl_snd s) + zlen (in_flight (fl_data s)) + zlen (ch_rb (fl_rcv s))
      + credits (fl_credit s)
      <= defaultSendWindow;
  fi_sum_eq : ch_status (fl_snd s) <> chClosed ->
    ch_sendWindow (fl_snd s) + zlen (in_flight (fl_data s)) + zlen (ch_rb (fl_rcv s))
      + credits (fl_credit s)
      = defaultSendWindow;
}.

(** ** Lemmas *)

Lemma data_of_data id c : data_of (data_frame id c) = c.
Proof. unfold data_of. simpl. apply drop_app_length'. by rewrite length_be_put. Qed.

Lemma data_of_close id : data_of (close_frame id) = [].
Proof. done. Qed.

Lemma credit_of_window id d : 0 <= d < 2 ^ 32 -> credit_of (window_frame id d) = d.
Proof.
  intros Hd. unfold credit_of. simpl. rewrite drop_app_length' by (by rewrite length_be_put).
  rewrite firstn_all2 by (by rewrite length_be_put). unfold uint32, wrap.
  rewrite (Z.mod_small d) by lia. by apply be_get_put4.
Qed.

Lemma in_flight_snoc q f : in_flight (q ++ [f]) = in_flight q ++ data_of f.
Proof. unfold in_flight. rewrite fmap_app, concat_app. simpl. by rewrite app_nil_r. Qed.

Lemma in_flight_cons f q : in_flight (f :: q) = data_of f ++ in_flight q.
Proof. done. Qed.

Lemma credits_snoc q f : credits (q ++ [f]) = credits q + credit_of f.
Proof.
  unfold credits. rewrite fmap_app, foldr_app. simpl.
  induction (credit_of <$> q) as [|z l IH]; simpl; lia.
Qed.

Lemma credits_cons f q : credits (f :: q) = credit_of f + credits q.
Proof. done. Qed.

Lemma credit_of_range f : 0 <= credit_of f < 2 ^ 32.
Proof.
  unfold credit_of. pose proof (be_get_range (take 4 (drop 4 (frame_payload f)))).
  assert (zlen (take 4 (drop 4 (frame_payload f))) <= 4) by len_lia.
  pose proof (Z.pow_le_mono_r 2 (8 * zlen (take 4 (drop 4 (frame_payload f)))) 32 ltac:(lia) ltac:(lia)). lia.
Qed.

Lemma credits_nonneg q : 0 <= credits q.
Proof.
  induction q as [|f q IH]; [done|]. rewrite credits_cons. pose proof (credit_of_range f). lia.
Qed.

Lemma in_flight_data id (cs : list (list byte)) k :
  in_flight ((data_frame id <$> cs) ++ replicate k (close_frame id)) = concat cs.
Proof.
  unfold in_flight. rewrite fmap_app, concat_app, fmap_replicate, data_of_close.
  replace (concat (replicate k [])) with (@nil byte) by (induction k; done). rewrite app_nil_r.
  induction cs as [|c cs IH]; [done|]. rewrite !fmap_cons. cbn [concat]. by rewrite data_of_data, IH.
Qed.

(** [handleFrame] changes the channel a frame names by [recv_frame]. *)
Lemma recv_frame_handleFrame id l ch f cc :
  0 <= id < 2 ^ 32 -> cc_channels cc !! id = Some l -> cc_store cc !! l = Some ch ->
  (exists d, f = data_frame id d) \/ f = close_frame id
    \/ (exists d, f = window_frame id d /\ 0 <= d < 2 ^ 32) ->
  cc_store (handleFrame f cc) !! l = Some (recv_frame f ch).
Proof.
  intros Hid Ht Hs [[d ->]|[->|(d & -> & Hd)]].
  - rewrite handleFrame_data, Ht by done. simpl. rewrite Hs. unfold recv_frame. simpl.
    rewrite drop_app_length' by (by rewrite length_be_put).
    destruct (pushData d ch) as [ch' []]; simpl; by rewrite list_lookup_alter_eq, Hs.
  - rewrite handleFrame_close, Ht by done. simpl. by rewrite list_lookup_alter_eq, Hs.
  - rewrite handleFrame_window, Ht by done. cbn [on_channel cc_store set_store].
    rewrite list_lookup_alter_eq, Hs. unfold recv_frame. rewrite !decide_False, decide_True by done.
    fold (credit_of (window_frame id d)). by rewrite credit_of_window.
Qed.

Lemma recv_data id c ch :
  zlen (ch_rb ch) + zlen c <= maxReceiveBuffer ->
  recv_frame (data_frame id c) ch = set_rb (ch_rb ch ++ c) ch.
Proof.
  intros H. unfold recv_frame. rewrite decide_True by done. simpl.
  rewrite drop_app_length' by (by rewrite length_be_put). unfold pushData. by rewrite decide_False by lia.
Qed.

Lemma recv_close id ch : recv_frame (close_frame id) ch = set_rerr (Some EOF) ch.
Proof. done. Qed.

Lemma recv_window id d ch :
  0 <= d < 2 ^ 32 ->
  recv_frame (window_frame id d) ch = set_sendWindow (int64 (ch_sendWindow ch + d)) ch.
Proof.
  intros H. unfold recv_frame. rewrite !decide_False, decide_True by done.
  fold (credit_of (window_frame id d)). by rewrite credit_of_window.
Qed.

Lemma flow_init_inv id target : 0 <= id < 2 ^ 32 -> flow_inv (flow_init id target).
Proof.
  intros Hid. constructor; try done.
  exists [], 0%nat. split; [done|]. left. done.
Qed.

(** [Read] of a well-formed reader. *)
Lemma Read_data n ch d ch' u :
  Read n ch = RData d ch' u ->
  ch_rb ch = d ++ ch_rb ch' /\ ch' = set_rb (ch_rb ch') ch
  /\ u = if decide (0 < zlen d) then Some (window_frame (ch_id ch) (zlen d)) else None.
Proof.
  unfold Read. destruct (ch_rb ch) as [|b0 rb] eqn:E; [repeat case_match; done|].
  intros [= <- <- <-]. split; [symmetry; apply (take_drop n (b0 :: rb))|done].
Qed.

Lemma Read_eof n ch :
  Read n ch = RErr EOF -> ch_status ch = chOpen -> ch_rb ch = [] /\ ch_rerr ch = Some EOF.
Proof.
  unfold Read. intros H Hst. rewrite Hst in H. destruct (ch_rb ch); [|done].
  destruct (ch_rerr ch) as [e|]; [|done]. by injection H as ->.
Qed.

(** *** Each step keeps the invariant and is a step of the pipe *)

(** A step of the flow seen at the pipe. *)
Definition pipe_sim (s : flow) (e : option event) (s' : flow) : Prop :=
  match e with
  | None => flow_pipe s' = flow_pipe s
  | Some _ => sys_step (flow_pipe s) e (flow_pipe s')
  end.

(** Opens a state and its invariant; brings the sizes into the context. *)
Ltac open_flow s Hi :=
  destruct s as [snd rcv q cr]; destruct Hi as [Hid Hd Hr Hc Hw Hle Heq]; cbn [fl_snd fl_rcv fl_data fl_credit] in *;
  assert (defaultSendWindow = 65536) as Hdw by done;
  pose proof (zlen_nonneg (in_flight q)); pose proof (zlen_nonneg (ch_rb rcv)); pose proof (credits_nonneg cr).

Lemma flow_write_sim s b c snd' f :
  flow_inv s -> Write_guard (fl_snd s) = None -> Write_iter b (fl_snd s) = WChunk c snd' f ->
  let s' := mkFlow snd' (fl_rcv s) (fl_data s ++ [f]) (fl_credit s) in
  flow_inv s' /\ pipe_sim s (Some (EvWrite c)) s'.
Proof.
  intros Hi Hg Hit s'. unfold Write_guard in Hg. case_decide as Hop; [|done]. open_flow s Hi.
  destruct (Write_iter_chunk b snd c snd' f) as (_ & Hn & -> & Hpos & ->); [lia|done|].
  specialize (Heq ltac:(by rewrite Hop)).
  split.
  - constructor; simpl; rewrite ?in_flight_snoc, ?data_of_data, ?zlen_app; try done; try lia.
    destruct Hd as (cs & k & -> & [[Hre Hk]|(?&?&?)]); [|done].
    assert (k = 0%nat) as -> by (by apply Hk). exists (cs ++ [c]), 0%nat.
    split; [|by left]. simpl. by rewrite !app_nil_r, fmap_app.
  - unfold pipe_sim, flow_pipe. simpl. rewrite in_flight_snoc, data_of_data, Hop, app_assoc.
    apply (ps_write (mkPipe _ (ch_rb rcv ++ in_flight q) false)); [done|].
    simpl. rewrite !zlen_app. lia.
Qed.

(** Closing the writer's side, by [CloseWrite] or [Close]. *)
Lemma flow_close_sim s st :
  flow_inv s -> st <> chOpen ->
  let s' := mkFlow (set_status st (fl_snd s)) (fl_rcv s)
              (fl_data s ++ [close_frame (ch_id (fl_snd s))]) (fl_credit s) in
  (st <> chClosed -> ch_status (fl_snd s) <> chClosed) ->
  flow_inv s' /\ pipe_sim s (Some EvClose) s'.
Proof.
  intros Hi Hst s' Hmono. open_flow s Hi. split.
  - constructor; simpl; rewrite ?in_flight_snoc, ?data_of_close, ?app_nil_r; try done; [|by auto].
    destruct Hd as (cs & k & -> & Hk). exists cs, (S k). split.
    + rewrite <-app_assoc. f_equal. by rewrite replicate_S_end.
    + destruct Hk as [[? ?]|(?&?&?)]; [left|by right]. split; [done|]. split; [done|lia].
  - unfold pipe_sim, flow_pipe. simpl. rewrite in_flight_snoc, data_of_close, app_nil_r.
    rewrite (bool_decide_eq_true_2 (st <> _)) by done. exact (ps_close (mkPipe _ _ _)).
Qed.

Lemma flow_deliver_sim s f q :
  flow_inv s -> fl_data s = f :: q ->
  let s' := mkFlow (fl_snd s) (recv_frame f (fl_rcv s)) q (fl_credit s) in
  flow_inv s' /\ pipe_sim s None s'.
Proof.
  intros Hi Hq s'. destruct s as [snd rcv q0 cr]. simpl in Hq. subst q0.
  destruct Hi as [Hid Hd Hr Hc Hw Hle Heq]. simpl in *.
  pose proof (zlen_nonneg (in_flight q)). pose proof (credits_nonneg cr).
  rewrite in_flight_cons, zlen_app in Hle, Heq. destruct Hd as (cs & k & Hq & Hk).
  destruct cs as [|c cs]; [destruct k as [|k]; [done|]|]; injection Hq as Hf Hq.
  - rewrite Hf, data_of_close in *. change (zlen (@nil byte)) with 0 in *.
    split; [|unfold pipe_sim, flow_pipe; simpl; by rewrite Hf].
    constructor; simpl; rewrite ?Hf; try done.
    exists [], k. split; [done|]. right. split; [done|]. split; [done|].
    destruct Hk as [[_ Hk]|(?&?&?)]; [|done]. intros Ho. by apply Hk in Ho.
  - rewrite Hf, data_of_data in *. assert (defaultSendWindow = 65536) as Hdw by done.
    assert (recv_frame (data_frame (ch_id snd) c) rcv = set_rb (ch_rb rcv ++ c) rcv) as Hrf.
    { apply recv_data. change maxReceiveBuffer with 262144. lia. }
    split; [|unfold pipe_sim, flow_pipe; simpl; rewrite Hf, Hrf, in_flight_cons, data_of_data; simpl; by rewrite <-app_assoc].
    constructor; simpl; rewrite ?Hf, ?Hrf; simpl; rewrite ?zlen_app; try done; try lia.
    + exists cs, k. split; [done|]. left. by destruct Hk as [?|(?&?&?)].
    + intros Hst. specialize (Heq Hst). lia.
Qed.

Lemma flow_read_sim s n d rcv' u :
  flow_inv s -> Read n (fl_rcv s) = RData d rcv' u ->
  let s' := mkFlow (fl_snd s) rcv' (fl_data s) (fl_credit s ++ option_list u) in
  flow_inv s' /\ pipe_sim s (Some (EvRead d)) s'.
Proof.
  intros Hi Hread s'. open_flow s Hi.
  destruct (Read_data n rcv d rcv' u Hread) as (Hrb & Hrcv & Hu).
  pose proof (zlen_nonneg d). pose proof (zlen_nonneg (ch_rb rcv')).
  rewrite Hrb, zlen_app in *.
  assert (credits (cr ++ option_list u) = credits cr + zlen d) as Hcr.
  { subst u. destruct (decide (0 < zlen d)) as [Hpos|]; simpl.
    - rewrite credits_snoc, credit_of_window by lia. reflexivity.
    - rewrite app_nil_r. lia. }
  split.
  - constructor; simpl; rewrite ?Hcr; try done; try lia.
    + destruct Hd as (cs & k & -> & Hk). exists cs, k. rewrite Hrcv. by split.
    + by rewrite Hrcv.
    + apply Forall_app. split; [done|]. subst u. destruct (decide (0 < zlen d)); simpl; [|done].
      constructor; [|done]. exists (zlen d). destruct Hr as [-> _]. split; [done|lia].
    + intros Hst. specialize (Heq Hst). lia.
  - unfold pipe_sim, flow_pipe. simpl. rewrite Hrb, <-app_assoc.
    by apply (ps_read (mkPipe _ (d ++ ch_rb rcv' ++ in_flight q) _) d).
Qed.

Lemma flow_eof_sim s n : flow_inv s -> Read n (fl_rcv s) = RErr EOF -> pipe_sim s (Some EvEOF) s.
Proof.
  intros [Hid Hd [_ Hro] _ _ _ _] Hread. destruct (Read_eof n _ Hread Hro) as [Hrb Hre].
  destruct Hd as (cs & k & Hq & [[Hn _]|(_ & -> & Hst)]); [by rewrite Hre in Hn|].
  unfold pipe_sim, flow_pipe. rewrite Hrb, Hq, in_flight_data, (bool_decide_eq_true_2 _ Hst). by apply ps_eof.
Qed.

Lemma flow_credit_sim s f q :
  flow_inv s -> fl_credit s = f :: q ->
  let s' := mkFlow (if decide (ch_status (fl_snd s) = chClosed) then fl_snd s
                    else recv_frame f (fl_snd s)) (fl_rcv s) (fl_data s) q in
  flow_inv s' /\ pipe_sim s None s'.
Proof.
  intros [Hid Hd Hr Hc Hw Hle Heq] Hq s'. destruct s as [snd rcv q0 cr]. simpl in *. subst cr.
  inversion Hc as [|? ? (d & -> & Hdr) Hc']; subst.
  assert (Hdw : defaultSendWindow = 65536) by done.
  pose proof (credits_nonneg q). pose proof (zlen_nonneg (ch_rb rcv)).
  pose proof (zlen_nonneg (in_flight q0)).
  rewrite credits_cons, credit_of_window in Hle, Heq by done. unfold s'. case_decide as Hst.
  - split; [|done]. constructor; simpl; try done; lia.
  - rewrite recv_window by done. rewrite int64_id by lia. split; [|done].
    specialize (Heq Hst). constructor; simpl; try done; lia.
Qed.

Lemma flow_step_sim s e s' : flow_step s e s' -> flow_inv s -> flow_inv s' /\ pipe_sim s e s'.
Proof.
  intros Hstep Hi. destruct Hstep as
    [b c snd' f Hg Hit|snd' f Hcw|snd' f Hcl|f q Hq|n d rcv' u Hr|n Hr|f q Hq].
  - by eapply flow_write_sim.
  - unfold CloseWrite in Hcw. case_decide as Hst; [|done]. injection Hcw as <- <-.
    apply flow_close_sim; [done|done|by rewrite Hst].
  - unfold Close in Hcl. case_decide as Hst; [done|]. injection Hcl as <- <-.
    by apply flow_close_sim.
  - by apply flow_deliver_sim.
  - by eapply flow_read_sim.
  - split; [done|]. by eapply flow_eof_sim.
  - by apply flow_credit_sim.
Qed.

(** The window protocol discharges the promise of a transport. *)
#[export, refine] Instance flow_simulates : Simulation flow pipe :=
  {| sim_inv := flow_inv; sim_abs := flow_pipe; sim_init := _; sim_step := _ |}.
Proof.
  - intros s (id & target & Hid & ->). split; [by apply flow_init_inv|done].
  - intros s e s' Hstep Hi. by apply flow_step_sim.
Defined.

#[export] Instance flow_reliable : Reliable flow := simulation_reliable.

Lemma flow_init_sys id target : 0 <= id < 2 ^ 32 -> sys_init (flow_init id target).
Proof. intros Hid. by exists id, target. Qed.

Lemma flow_run_sim (s : flow) tr s' : run s tr s' -> flow_inv s -> flow_inv s' /\ run (flow_pipe s) tr (flow_pipe s').
Proof. intros Hr Hi. exact (simulation_run (A := pipe) s tr s' Hr Hi). Qed.

(** The network delivers everything in transit. *)
Lemma flow_deliver_all s :
  exists rcv', run s [] (mkFlow (fl_snd s) rcv' [] (fl_credit s)).
Proof.
  destruct s as [snd rcv q cr]. revert rcv. induction q as [|f q IH]; intros rcv; [by exists rcv; constructor|].
  destruct (IH (recv_frame f rcv)) as [rcv' Hrun]. exists rcv'.
  change (@nil event) with (@nil event ++ []). eapply run_trans; [|exact Hrun].
  change (@nil event) with (option_list (@None event)). apply run_one. by apply (fs_deliver (mkFlow snd rcv (f :: q) cr)).
Qed.

Lemma flow_credit_all s :
  exists snd', run s [] (mkFlow snd' (fl_rcv s) (fl_data s) []) /\ ch_status snd' = ch_status (fl_snd s).
Proof.
  destruct s as [snd rcv q cr]. revert snd. induction cr as [|f cr IH]; intros snd; [exists snd; split; [constructor|done]|].
  set (snd1 := if decide (ch_status snd = chClosed) then snd else recv_frame f snd).
  destruct (IH snd1) as (snd' & Hrun & Hst). exists snd'. split.
  - change (@nil event) with (@nil event ++ []) at 1. eapply run_trans; [|exact Hrun].
    change (@nil event) with (option_list (@None event)) at 1. apply run_one. by apply (fs_credit (mkFlow snd rcv q (f :: cr))).
  - rewrite Hst. simpl. unfold snd1. case_decide; [done|]. unfold recv_frame, pushData. by repeat case_decide.
Qed.

(** A reader that takes all it has. *)
Lemma flow_read_all s :
  exists tr rcv' cr', run s tr (mkFlow (fl_snd s) rcv' (fl_data s) cr') /\ written tr = [] /\ ch_rb rcv' = [].
Proof.
  destruct s as [snd rcv q cr]. destruct (ch_rb rcv) as [|b rb] eqn:E.
  { exists [], rcv, cr. split; [constructor|done]. }
  destruct (Read (length (ch_rb rcv)) rcv) as [d rcv' u| |] eqn:ER; unfold Read in ER; rewrite E in ER; [|done|done].
  exists [EvRead d], rcv', (cr ++ option_list u). split; [|split; [done|]].
  - change [EvRead d] with (option_list (Some (EvRead d))). apply run_one.
    apply (fs_read (mkFlow snd rcv q cr) (length (ch_rb rcv))). unfold Read. simpl. by rewrite E.
  - injection ER as <- <- <-. simpl. apply drop_ge. simpl. lia.
Qed.

Lemma flow_drain s :
  flow_inv s -> exists tr s', run s tr s' /\ flow_inv s' /\ written tr = []
    /\ fl_data s' = [] /\ fl_credit s' = [] /\ ch_rb (fl_rcv s') = []
    /\ ch_status (fl_snd s') = ch_status (fl_snd s).
Proof.
  intros Hi. destruct (flow_deliver_all s) as [rcv1 H1].
  destruct (flow_read_all (mkFlow (fl_snd s) rcv1 [] (fl_credit s))) as (tr & rcv2 & cr2 & H2 & Hw & Hrb).
  destruct (flow_credit_all (mkFlow (fl_snd s) rcv2 [] cr2)) as (snd3 & H3 & Hst).
  simpl in *. pose proof (run_trans _ _ _ _ _ (run_trans _ _ _ _ _ H1 H2) H3) as H.
  rewrite app_nil_r in H. simpl in H. eexists tr, _. split; [exact H|]. by apply flow_run_sim in H as [? _].
Qed.

(** ** Properties *)


(** A writer sends two bytes and closes; the reader takes one of them. *)
Definition demo_chunk (b : list byte) (s : flow) : flow :=
  match Write_iter b (fl_snd s) with
  | WChunk c snd' f => mkFlow snd' (fl_rcv s) (fl_data s ++ [f]) (fl_credit s)
  | _ => s
  end.

Definition demo_flow : flow :=
  let s := demo_chunk [x01; x02] (flow_init 1 "t") in
  mkFlow (set_status chWriteClosed (fl_snd s)) (fl_rcv s) (fl_data s ++ [close_frame 1]) (fl_credit s).

Lemma demo_run : run (flow_init 1 "t") [EvWrite [x01; x02]; EvClose] demo_flow.
Proof.
  apply (run_snoc _ [EvWrite [x01; x02]] (demo_chunk [x01; x02] (flow_init 1 "t")) (Some EvClose)).
  - apply (run_snoc _ [] (flow_init 1 "t") (Some (EvWrite [x01; x02]))); [constructor|].
    by eapply (fs_write (flow_init 1 "t") [x01; x02]).
  - by eapply fs_closewrite.
Qed.


(** The window protocol implements a pipe: whatever the interleaving of
    writes, deliveries, reads and window updates, the trace seen at the two
    ends of a channel is a trace of a byte pipe of capacity 64 KiB. *)
Theorem flow_refines_pipe (id : Z) (target : string) (tr : list event) (s : flow) :
  0 <= id < 2 ^ 32 -> run (flow_init id target) tr s ->
  run (mkPipe defaultSendWindow [] false) tr (flow_pipe s).
Proof. intros Hid Hrun. by apply (flow_run_sim _ _ _ Hrun), flow_init_inv. Qed.

Lemma flow_refines_pipe_witness :
  run (mkPipe defaultSendWindow [] false) [EvWrite [x01; x02]; EvClose] (flow_pipe demo_flow)
  /\ p_buf (flow_pipe demo_flow) = [x01; x02].
Proof.
  split; [|reflexivity]. apply (flow_refines_pipe 1 "t" _ demo_flow); [lia|apply demo_run].
Defined.

(** No byte of a channel is lost, duplicated or reordered: what the reader
    has received is at every moment a prefix of what the writer handed over, at
    most 64 KiB behind, and a reader that was told [io.EOF] has received
    everything. *)
Theorem flow_integrity (id : Z) (target : string) (tr : list event) (s : flow) :
  0 <= id < 2 ^ 32 -> run (flow_init id target) tr s ->
  received tr `prefix_of` written tr
  /\ zlen (written tr) - zlen (received tr) <= defaultSendWindow
  /\ (EvEOF ∈ tr -> received tr = written tr).
Proof.
  intros Hid Hrun. apply flow_run_sim in Hrun as [_ Hp]; [|by apply flow_init_inv].
  assert (sys_init (flow_pipe (flow_init id target))) as Hp0 by done.
  destruct (pipe_run_bytes _ _ _ Hp0 Hp) as (-> & Hlen & Hcap). split; [by apply prefix_app_r|].
  split; [rewrite zlen_app; change (p_cap (flow_pipe s)) with defaultSendWindow in Hlen; lia|].
  intros Heof. destruct (pipe_run_eof _ _ _ Hp Heof) as [-> _]. by rewrite app_nil_r.
Qed.

Lemma flow_integrity_witness :
  received [EvWrite [x01; x02]; EvClose] `prefix_of` written [EvWrite [x01; x02]; EvClose].
Proof. apply (flow_integrity 1 "t" _ demo_flow); [lia|apply demo_run]. Defined.

(** Neither end can be stuck while the connection lives: from every
    reachable state the network and the reader alone reach a state where all
    bytes have been read, the writer has its full window back (so a waiting
    [Write] goes on) unless it closed the channel, and, if it closed its side,
    the reader's next [Read] reports the end of the stream. *)
Theorem flow_drains (id : Z) (target : string) (tr : list event) (s : flow) :
  0 <= id < 2 ^ 32 -> run (flow_init id target) tr s ->
  exists tr' s', run s tr' s' /\ written tr' = [] /\ p_buf (flow_pipe s') = []
    /\ (ch_status (fl_snd s) <> chClosed -> ch_sendWindow (fl_snd s') = defaultSendWindow)
    /\ (ch_status (fl_snd s) = chOpen -> forall b, exists c ch f, Write_iter b (fl_snd s') = WChunk c ch f)
    /\ (ch_status (fl_snd s) <> chOpen -> forall n, Read n (fl_rcv s') = RErr EOF).
Proof.
  intros Hid Hrun. apply flow_run_sim in Hrun as [Hi _]; [|by apply flow_init_inv].
  destruct (flow_drain s Hi) as (tr' & s' & Hr & Hi' & Hw & Hd & Hc & Hb & Hst).
  exists tr', s'. split; [done|]. split; [done|].
  assert (ch_status (fl_snd s) <> chClosed -> ch_sendWindow (fl_snd s') = defaultSendWindow) as Hwin.
  { intros Hncl. rewrite <-Hst in Hncl. pose proof (fi_sum_eq s' Hi' Hncl) as H.
    rewrite Hd, Hc, Hb in H. change (zlen (in_flight [])) with 0 in H.
    change (zlen (@nil byte)) with 0 in H. change (credits []) with 0 in H. lia. }
  split; [unfold flow_pipe; simpl; by rewrite Hb, Hd|]. split; [done|]. split.
  - intros Ho b. unfold Write_iter. rewrite Hwin by (by rewrite Ho). rewrite (decide_False (P := defaultSendWindow <= 0)) by (unfold defaultSendWindow; lia). do 3 eexists. reflexivity.
  - intros Hno n. destruct (fi_data s' Hi') as (cs & k & Hq & Hk). rewrite Hd in Hq.
    symmetry in Hq. apply app_nil in Hq as [_ Hk0]. assert (k = 0%nat) as -> by (destruct k; [done|discriminate Hk0]).
    unfold Read. rewrite Hb. destruct Hk as [[_ Hk]|[-> _]]; [|done].
    destruct Hno. rewrite <-Hst. by apply Hk.
Qed.

Lemma flow_drains_witness :
  exists tr' s', run demo_flow tr' s' /\ forall n, Read n (fl_rcv s') = RErr EOF.
Proof.
  destruct (flow_drains 1 "t" _ demo_flow ltac:(lia) demo_run) as (tr' & s' & H & _ & _ & _ & _ & He).
  exists tr', s'. split; [exact H|]. exact (He ltac:(discriminate)).
Defined.
