(* ===== verification/Link.v ===== *)
(** * One channel between its two ends, in both directions

    [FlowControl.v] follows the bytes of a channel in one direction.  A real
    channel ([src/relay/stream.go]) carries both at once over one pair of
    [channel] objects: the frames to one end mix its data with the credit for
    the other direction, the end of one direction ([CloseWrite]) leaves the
    other open, and after [Close] an end has left the table of its connection
    and gets nothing any more.  [link_inv] says that the link is always two
    independent flows. *)
From S2P Require Import Prelude Conn Frame Stream Mux Transport FlowControl.

(** The two ends, and which way bytes go. *)
Inductive side := SideA | SideB.
Inductive io := Out | In.

#[global] Instance side_eq_dec : EqDecision side.
Proof. solve_decision. Defined.

(** The sender of the bytes that end [x] writes or reads. *)
Definition other (x : side) : side := match x with SideA => SideB | SideB => SideA end.
Definition sender_of (x : side) (o : io) : side := match o with Out => x | In => other x end.

Record link := mkLink {
  lk_a : channel;
  lk_b : channel;
  lk_ab : list Frame;   (* in transit from A to B, oldest first *)
  lk_ba : list Frame;
}.

(** What the goroutines that hold a channel do at one end: a pass of [Write],
    [CloseWrite], [Close] and a pass of [Read], with the frames they send.  An
    end does not read from a channel it has closed. *)
Inductive end_step (ch : channel) : io * event -> channel -> list Frame -> Prop :=
  | es_write b c ch' f :
      Write_guard ch = None -> Write_iter b ch = WChunk c ch' f -> end_step ch (Out, EvWrite c) ch' [f]
  | es_closewrite ch' f : CloseWrite ch = Some (ch', f) -> end_step ch (Out, EvClose) ch' [f]
  | es_close ch' f : Close ch = Some (ch', f) -> end_step ch (Out, EvClose) ch' [f]
  | es_read n d ch' u :
      ch_status ch <> chClosed -> Read n ch = RData d ch' u -> end_step ch (In, EvRead d) ch' (option_list u)
  | es_eof n : ch_status ch <> chClosed -> Read n ch = RErr EOF -> end_step ch (In, EvEOF) ch [].

(** A frame arrives: a closed channel is not in the table any more. *)
Definition deliver (f : Frame) (ch : channel) : channel :=
  if decide (ch_status ch = chClosed) then ch else recv_frame f ch.

(** An event of the link: whose bytes, and what happened. *)
Definition at_side (x : side) (e : io * event) : side * event := (sender_of x e.1, e.2).

Inductive link_step (k : link) : option (side * event) -> link -> Prop :=
  | ls_a e ch' fs :
      end_step (lk_a k) e ch' fs ->
      link_step k (Some (at_side SideA e)) (mkLink ch' (lk_b k) (lk_ab k ++ fs) (lk_ba k))
  | ls_b e ch' fs :
      end_step (lk_b k) e ch' fs ->
      link_step k (Some (at_side SideB e)) (mkLink (lk_a k) ch' (lk_ab k) (lk_ba k ++ fs))
  | ls_to_b f q :
      lk_ab k = f :: q -> link_step k None (mkLink (lk_a k) (deliver f (lk_b k)) q (lk_ba k))
  | ls_to_a f q :
      lk_ba k = f :: q -> link_step k None (mkLink (deliver f (lk_a k)) (lk_b k) (lk_ab k) q).

Definition link_init (id : Z) (target : string) : link :=
  mkLink (newChannel id target) (newChannel id target) [] [].

(** The events of one direction. *)
Definition events_of (x : side) (tr : list (side * event)) : list event :=
  omap (fun e => if decide (e.1 = x) then Some e.2 else None) tr.

(** The same link seen from the other end. *)
Definition swap (k : link) : link := mkLink (lk_b k) (lk_a k) (lk_ba k) (lk_ab k).

(** ** The two flows of a link *)

Definition is_credit (f : Frame) : Prop := frame_type f = FrameWindowUpdate.

(** What a flow sees of a channel that writes, and of one that reads. *)
Definition snd_view (ch : channel) : channel :=
  mkChannel (ch_id ch) (ch_target ch) [] (ch_status ch) None (ch_sendWindow ch).
Definition rcv_view (ch : channel) : channel :=
  mkChannel (ch_id ch) (ch_target ch) (ch_rb ch) chOpen (ch_rerr ch) defaultSendWindow.

(** The flow from A to B; a closed reader constrains nothing on its side. *)
Record half (k : link) (f : flow) : Prop := {
  hf_snd : fl_snd f = snd_view (lk_a k);
  hf_credit : fl_credit f = filter is_credit (lk_ba k);
  hf_rcv : ch_status (lk_b k) <> chClosed -> fl_rcv f = rcv_view (lk_b k);
  hf_data : ch_status (lk_b k) <> chClosed -> fl_data f = filter (fun x => ~ is_credit x) (lk_ab k);
}.

Definition flows (id : Z) (target : string) (x : side) (tr : list (side * event)) (k : link) : Prop :=
  exists f, run (flow_init id target) (events_of x tr) f /\ half k f.

(** The invariant: the trace of each direction is a run of the flow system
    that ends in what the link looks like in that direction. *)
Definition link_inv (id : Z) (target : string) (tr : list (side * event)) (k : link) : Prop :=
  flows id target SideA tr k /\ flows id target SideB tr (swap k).

(** ** Lemmas *)

Lemma events_of_app x tr tr' : events_of x (tr ++ tr') = events_of x tr ++ events_of x tr'.
Proof. apply omap_app. Qed.

Lemma events_of_one x y e : events_of x [(y, e)] = if decide (y = x) then [e] else [].
Proof. unfold events_of. simpl. by case_decide. Qed.

Lemma filter_none_data (f : Frame) : ~ is_credit f -> filter is_credit [f] = [].
Proof. intros H. by rewrite filter_cons_False. Qed.

Lemma Write_iter_snd_view b ch c ch' f :
  Write_iter b ch = WChunk c ch' f ->
  Write_iter b (snd_view ch) = WChunk c (snd_view ch') f /\ rcv_view ch' = rcv_view ch /\ ~ is_credit f
  /\ ch_status ch' = ch_status ch.
Proof. unfold Write_iter. simpl. repeat case_decide; intros [= <- <- <-]; by split_and!. Qed.

(** The sender's end: its own flow makes the step, and the other flow, which
    reads there, does not notice while the end is not closed. *)
Lemma out_step ch e ch' fs :
  end_step ch (Out, e) ch' fs ->
  (forall rcv q cr, flow_step (mkFlow (snd_view ch) rcv q cr) (Some e) (mkFlow (snd_view ch') rcv (q ++ fs) cr))
  /\ rcv_view ch' = rcv_view ch /\ filter is_credit fs = [] /\ filter (fun x => ~ is_credit x) fs = fs
  /\ (ch_status ch' <> chClosed -> ch_status ch <> chClosed).
Proof.
  intros H. inversion H as [b c x f Hg Hw|x f Hc|x f Hc| |]; subst.
  - apply Write_iter_snd_view in Hw as (Hw & Hr & Hf & Hs). split_and!; [|done|by apply filter_none_data| |by rewrite Hs].
    + intros rcv q cr. apply (fs_write (mkFlow _ _ _ _) b); [|done]. unfold Write_guard in *. done.
    + by rewrite filter_cons_True.
  - unfold CloseWrite in Hc. case_decide as Hs; [|done]. injection Hc as <- <-. split_and!; [|done|done|done|by rewrite Hs].
    intros rcv q cr. apply (fs_closewrite (mkFlow _ _ _ _)). unfold CloseWrite. simpl. by rewrite Hs.
  - unfold Close in Hc. case_decide as Hs; [done|]. injection Hc as <- <-. split_and!; [|done|done|done|done].
    intros rcv q cr. apply (fs_close (mkFlow _ _ _ _)). unfold Close. simpl. by rewrite decide_False.
Qed.

(** The reader's end: the same with the roles exchanged. *)
Lemma in_step ch e ch' fs :
  end_step ch (In, e) ch' fs ->
  (forall snd q cr, flow_step (mkFlow snd (rcv_view ch) q cr) (Some e) (mkFlow snd (rcv_view ch') q (cr ++ fs)))
  /\ snd_view ch' = snd_view ch /\ filter is_credit fs = fs /\ filter (fun x => ~ is_credit x) fs = []
  /\ ch_status ch <> chClosed.
Proof.
  intros H. inversion H as [| | |n d x u Hs Hr|n Hs Hr]; subst.
  - split_and!; [| | | |done].
    + intros snd q cr. apply (fs_read (mkFlow _ _ _ _) n). unfold Read in *. simpl.
      destruct (ch_rb ch) eqn:E; [repeat case_match; done|]. by injection Hr as <- <- <-.
    + unfold Read in Hr. destruct (ch_rb ch); [repeat case_match; done|]. by injection Hr as <- <- <-.
    + unfold Read in Hr. destruct (ch_rb ch); [repeat case_match; done|]. injection Hr as <- <- <-. by case_decide.
    + unfold Read in Hr. destruct (ch_rb ch); [repeat case_match; done|]. injection Hr as <- <- <-. by case_decide.
  - split_and!; [|done|done|done|done]. intros snd q cr. rewrite app_nil_r.
    apply (fs_eof (mkFlow _ _ _ _) n). unfold Read in *. simpl.
    destruct (ch_rb ch'); [|done]. destruct (ch_rerr ch'); [done|]. by rewrite decide_False in Hr.
Qed.

(** What arrives acts on one of the two views of a channel. *)
Lemma recv_credit f ch :
  is_credit f -> snd_view (recv_frame f ch) = recv_frame f (snd_view ch) /\ rcv_view (recv_frame f ch) = rcv_view ch
    /\ ch_status (recv_frame f ch) = ch_status ch.
Proof.
  unfold is_credit, recv_frame. intros Hf. rewrite Hf. by rewrite !decide_False, !decide_True by done.
Qed.

Lemma recv_other f ch :
  ~ is_credit f -> snd_view (recv_frame f ch) = snd_view ch /\ rcv_view (recv_frame f ch) = recv_frame f (rcv_view ch)
    /\ ch_status (recv_frame f ch) = ch_status ch.
Proof.
  unfold is_credit, recv_frame. intros Hf. rewrite !(decide_False (P := frame_type f = FrameWindowUpdate)) by done.
  unfold pushData. by repeat (case_decide || simpl).
Qed.

Lemma deliver_status f ch : ch_status (deliver f ch) = ch_status ch.
Proof.
  unfold deliver. case_decide; [done|]. destruct (decide (is_credit f)); [by apply recv_credit|by apply recv_other].
Qed.

(** *** The steps *)

Lemma flows_out id t x tr k e ch' fs :
  flows id t x tr k -> end_step (lk_a k) (Out, e) ch' fs ->
  flows id t x (tr ++ [(x, e)]) (mkLink ch' (lk_b k) (lk_ab k ++ fs) (lk_ba k)).
Proof.
  intros (f & Hrun & [Hs Hc Hr Hd]) He. destruct (out_step _ _ _ _ He) as (Hf & _ & _ & Hfs & _).
  exists (mkFlow (snd_view ch') (fl_rcv f) (fl_data f ++ fs) (fl_credit f)). split.
  - rewrite events_of_app, events_of_one, decide_True by done. eapply (run_snoc _ _ f (Some e)); [done|].
    destruct f. simpl in *. subst. apply Hf.
  - constructor; simpl; try done. intros Hb. by rewrite filter_app, Hfs, Hd.
Qed.

Lemma flows_quiet_out id t x y tr k e ch' fs :
  x <> y -> flows id t x tr (swap k) -> end_step (lk_a k) (Out, e) ch' fs ->
  flows id t x (tr ++ [(y, e)]) (swap (mkLink ch' (lk_b k) (lk_ab k ++ fs) (lk_ba k))).
Proof.
  intros Hxy (f & Hrun & [Hs Hc Hr Hd]) He. destruct (out_step _ _ _ _ He) as (_ & Hv & Hfs & _ & Hst).
  exists f. rewrite events_of_app, events_of_one, decide_False, app_nil_r by done. split; [done|].
  constructor; simpl in *; try done.
  - by rewrite filter_app, Hfs, app_nil_r.
  - intros Hn. rewrite Hv. auto.
  - intros Hn. auto.
Qed.

Lemma flows_in id t x y tr k e ch' fs :
  x <> y -> flows id t x tr k -> end_step (lk_a k) (In, e) ch' fs ->
  flows id t x (tr ++ [(y, e)]) (mkLink ch' (lk_b k) (lk_ab k ++ fs) (lk_ba k)).
Proof.
  intros Hxy (f & Hrun & [Hs Hc Hr Hd]) He. destruct (in_step _ _ _ _ He) as (_ & Hv & _ & Hfs & _).
  exists f. rewrite events_of_app, events_of_one, decide_False, app_nil_r by done. split; [done|].
  constructor; simpl; try done.
  - by rewrite Hv.
  - intros Hb. by rewrite filter_app, Hfs, app_nil_r, Hd.
Qed.

Lemma flows_loud_in id t x tr k e ch' fs :
  flows id t x tr (swap k) -> end_step (lk_a k) (In, e) ch' fs ->
  flows id t x (tr ++ [(x, e)]) (swap (mkLink ch' (lk_b k) (lk_ab k ++ fs) (lk_ba k))).
Proof.
  intros (f & Hrun & [Hs Hc Hr Hd]) He. destruct (in_step _ _ _ _ He) as (Hf & _ & Hfs & _ & Hst).
  simpl in *. exists (mkFlow (fl_snd f) (rcv_view ch') (fl_data f) (fl_credit f ++ fs)). split.
  - rewrite events_of_app, events_of_one, decide_True by done. eapply (run_snoc _ _ f (Some e)); [done|].
    specialize (Hr Hst). destruct f. simpl in *. subst. apply Hf.
  - constructor; simpl; [done| |done|auto]. by rewrite filter_app, Hfs, Hc.
Qed.

(** A frame arrives at B: the flow that reads there takes data and the end of
    the stream, the flow that writes there takes credit. *)
Lemma flows_to_reader id t x tr k f q :
  flows id t x tr k -> lk_ab k = f :: q -> flows id t x tr (mkLink (lk_a k) (deliver f (lk_b k)) q (lk_ba k)).
Proof.
  intros (g & Hrun & [Hs Hc Hr Hd]) Hq. rewrite Hq in Hd. unfold deliver.
  destruct (decide (ch_status (lk_b k) = chClosed)) as [Hcl|Hn].
  { exists g. split; [done|]. by constructor. }
  specialize (Hr Hn). specialize (Hd Hn). destruct (decide (is_credit f)) as [Hf|Hf].
  - destruct (recv_credit f (lk_b k) Hf) as (_ & Hv & Hst). rewrite filter_cons_False in Hd by tauto.
    exists g. split; [done|]. constructor; simpl; try done. intros _. by rewrite Hv.
  - destruct (recv_other f (lk_b k) Hf) as (_ & Hv & Hst). rewrite filter_cons_True in Hd by done.
    exists (mkFlow (fl_snd g) (recv_frame f (fl_rcv g)) (filter (fun x => ~ is_credit x) q) (fl_credit g)). split.
    + rewrite <-(app_nil_r (events_of x tr)). apply (run_snoc _ _ g None); [done|]. by apply fs_deliver.
    + constructor; simpl; try done. intros _. by rewrite Hv, Hr.
Qed.

Lemma flows_to_writer id t x tr k f q :
  flows id t x tr (swap k) -> lk_ab k = f :: q ->
  flows id t x tr (swap (mkLink (lk_a k) (deliver f (lk_b k)) q (lk_ba k))).
Proof.
  intros (g & Hrun & [Hs Hc Hr Hd]) Hq. simpl in *. rewrite Hq in Hc. destruct (decide (is_credit f)) as [Hf|Hf].
  - destruct (recv_credit f (lk_b k) Hf) as (Hv & _ & Hst). rewrite filter_cons_True in Hc by done.
    exists (mkFlow (if decide (ch_status (fl_snd g) = chClosed) then fl_snd g else recv_frame f (fl_snd g))
              (fl_rcv g) (fl_data g) (filter is_credit q)). split.
    + rewrite <-(app_nil_r (events_of x tr)). apply (run_snoc _ _ g None); [done|]. by apply fs_credit.
    + constructor; simpl; try done. rewrite Hs. simpl. unfold deliver. by case_decide.
  - rewrite filter_cons_False in Hc by done. exists g. split; [done|]. constructor; simpl; try done.
    rewrite Hs. unfold deliver. case_decide; [done|]. by destruct (recv_other f (lk_b k) Hf) as (-> & _).
Qed.

(** The two ends are alike. *)
Definition flip (e : side * event) : side * event := (other e.1, e.2).

Lemma events_of_flip x tr : events_of x (flip <$> tr) = events_of (other x) tr.
Proof.
  unfold events_of. induction tr as [|[y e] tr IH]; [done|]. cbn. rewrite <-IH. by destruct x, y.
Qed.

Lemma swap_swap k : swap (swap k) = k.
Proof. by destruct k. Qed.

Lemma link_inv_swap id t tr k : link_inv id t tr k -> link_inv id t (flip <$> tr) (swap k).
Proof.
  intros [(f1 & H1 & Hf1) (f2 & H2 & Hf2)]. split.
  - exists f2. by rewrite events_of_flip.
  - exists f1. by rewrite events_of_flip, swap_swap.
Qed.

Lemma flip_flip (tr : list (side * event)) : flip <$> (flip <$> tr) = tr.
Proof.
  rewrite <-list_fmap_compose. transitivity (id <$> tr); [|apply list_fmap_id].
  apply list_fmap_ext. by intros i [[] e].
Qed.

Lemma link_inv_unswap id t tr tr' k :
  link_inv id t ((flip <$> tr) ++ tr') (swap k) -> link_inv id t (tr ++ (flip <$> tr')) k.
Proof. intros H%link_inv_swap. by rewrite swap_swap, fmap_app, flip_flip in H. Qed.

Lemma link_step_a id t tr k e ch' fs :
  link_inv id t tr k -> end_step (lk_a k) e ch' fs ->
  link_inv id t (tr ++ [at_side SideA e]) (mkLink ch' (lk_b k) (lk_ab k ++ fs) (lk_ba k)).
Proof.
  intros [H1 H2] He. destruct e as [[] e]; split.
  - by apply flows_out.
  - by apply flows_quiet_out.
  - by apply flows_in.
  - by apply flows_loud_in.
Qed.

Lemma link_inv_to_b id t tr k f q :
  link_inv id t tr k -> lk_ab k = f :: q -> link_inv id t tr (mkLink (lk_a k) (deliver f (lk_b k)) q (lk_ba k)).
Proof. intros [H1 H2] Hq. split; [by apply flows_to_reader|by apply flows_to_writer]. Qed.

Lemma link_init_inv id t : link_inv id t [] (link_init id t).
Proof. split; (exists (flow_init id t); split; [constructor|by constructor]). Qed.

Lemma link_step_inv id t tr k e k' :
  link_step k e k' -> link_inv id t tr k -> link_inv id t (tr ++ option_list e) k'.
Proof.
  intros H Hi. destruct H as [e ch' fs He|e ch' fs He|f q Hq|f q Hq]; simpl; rewrite ?app_nil_r.
  - by apply link_step_a.
  - apply link_inv_swap in Hi. apply (link_step_a _ _ _ _ _ _ _ Hi) in He.
    apply (link_inv_unswap _ _ _ _ (mkLink _ _ _ _)) in He. by destruct e as [[] ?].
  - by apply link_inv_to_b.
  - apply link_inv_swap in Hi. apply (link_inv_to_b _ _ _ _ _ _ Hi) in Hq. rewrite <-(app_nil_r (flip <$> tr)) in Hq.
    apply (link_inv_unswap _ _ _ _ (mkLink _ _ _ _)) in Hq. by rewrite app_nil_r in Hq.
Qed.

(** Neither end is ever flooded. *)
Lemma link_no_overflow id t tr k f q :
  0 <= id < 2 ^ 32 -> link_inv id t tr k -> lk_ab k = f :: q -> ~ is_credit f -> ch_status (lk_b k) <> chClosed ->
  (pushData (data_of f) (lk_b k)).2 = false.
Proof.
  intros Hid [(g & Hrun & [_ _ Hr Hd]) _] Hq Hf Hst. rewrite Hq, filter_cons_True in Hd by done.
  apply flow_run_sim in Hrun as [Hi _]; [|by apply flow_init_inv].
  pose proof (fi_sum g Hi) as Hle. rewrite (Hd Hst), in_flight_cons, zlen_app, (Hr Hst) in Hle. simpl in Hle.
  pose proof (zlen_nonneg (in_flight (filter (fun x => ~ is_credit x) q))).
  pose proof (credits_nonneg (fl_credit g)). pose proof (fi_window g Hi).
  unfold pushData. rewrite decide_False; [done|]. unfold defaultSendWindow, maxReceiveBuffer in *. lia.
Qed.

(** Each direction of a link is a byte pipe. *)
Lemma link_pipes id t tr k :
  0 <= id < 2 ^ 32 -> link_inv id t tr k ->
  forall x, exists p, run (mkPipe defaultSendWindow [] false) (events_of x tr) p.
Proof.
  intros Hid [(f & H1 & _) (g & H2 & _)] x.
  assert (forall h, run (flow_init id t) (events_of x tr) h -> exists p, run (mkPipe defaultSendWindow [] false) (events_of x tr) p)
    as Hp by (intros h Hh; apply flow_run_sim in Hh as [_ Hh]; [by eexists|by apply flow_init_inv]).
  destruct x; eauto.
Qed.

(** Windows and buffers of both ends stay within the initial window. *)
Lemma link_small id t tr k :
  0 <= id < 2 ^ 32 -> link_inv id t tr k ->
  (0 <= ch_sendWindow (lk_a k) <= defaultSendWindow /\ 0 <= ch_sendWindow (lk_b k) <= defaultSendWindow)
  /\ (ch_status (lk_a k) <> chClosed -> zlen (ch_rb (lk_a k)) <= defaultSendWindow)
  /\ (ch_status (lk_b k) <> chClosed -> zlen (ch_rb (lk_b k)) <= defaultSendWindow).
Proof.
  intros Hid.
  assert (forall x tr k, flows id t x tr k -> 0 <= ch_sendWindow (lk_a k) <= defaultSendWindow
    /\ (ch_status (lk_b k) <> chClosed -> zlen (ch_rb (lk_b k)) <= defaultSendWindow)) as Hf.
  { intros x tr0 k0 (g & Hrun & [Hs _ Hr _]). apply flow_run_sim in Hrun as [Hi _]; [|by apply flow_init_inv].
    pose proof (fi_window g Hi) as Hw. pose proof (fi_sum g Hi) as Hle. pose proof (credits_nonneg (fl_credit g)).
    pose proof (zlen_nonneg (in_flight (fl_data g))). pose proof (zlen_nonneg (ch_rb (fl_rcv g))).
    rewrite Hs in Hw, Hle. simpl in Hw, Hle. split; [lia|]. intros Hn. rewrite (Hr Hn) in Hle. simpl in Hle. rewrite (Hr Hn) in *. simpl in *. lia. }
  intros [H1%Hf H2%Hf]. simpl in H2. tauto.
Qed.

(** With nothing in transit the reader has all that was written, behind it the
    end of the stream if the writer closed its side, and the writer has the
    credit of everything the reader has taken. *)
Lemma link_drained id t tr k :
  0 <= id < 2 ^ 32 -> link_inv id t tr k -> lk_ab k = [] -> lk_ba k = [] -> ch_status (lk_b k) <> chClosed ->
  written (events_of SideA tr) = received (events_of SideA tr) ++ ch_rb (lk_b k)
  /\ (ch_status (lk_a k) <> chOpen -> ch_rerr (lk_b k) = Some EOF)
  /\ (ch_status (lk_a k) <> chClosed -> ch_sendWindow (lk_a k) = defaultSendWindow - zlen (ch_rb (lk_b k))).
Proof.
  intros Hid [(f & Hrun & [Hs Hc Hr Hd]) _] Hab Hba Hst. specialize (Hr Hst). specialize (Hd Hst).
  rewrite Hab in Hd. rewrite Hba in Hc. change (fl_data f = []) in Hd. change (fl_credit f = []) in Hc.
  apply flow_run_sim in Hrun as [Hi Hp]; [|by apply flow_init_inv].
  split; [|split].
  - assert (sys_init (flow_pipe (flow_init id t))) as H0 by done.
    destruct (pipe_run_bytes _ _ _ H0 Hp) as (-> & _). unfold flow_pipe. simpl. by rewrite Hd, Hr, app_nil_r.
  - intros Hno. destruct (fi_data f Hi) as (cs & n & Hq & Hk). rewrite Hd in Hq. symmetry in Hq. apply app_nil in Hq as [_ Hn].
    assert (n = 0%nat) as -> by (destruct n; [done|discriminate Hn]). rewrite Hs, Hr in Hk. simpl in Hk.
    destruct Hk as [[_ Hk]|[? _]]; [|done]. by destruct Hno; apply Hk.
  - intros Hno. pose proof (fi_sum_eq f Hi) as He. rewrite Hs in He. specialize (He Hno). rewrite Hd, Hc, Hr in He. simpl in He.
    change (zlen (in_flight [])) with 0 in He. change (credits []) with 0 in He. lia.
Qed.

(** What the reader has read and what is in its buffer is a prefix of what was
    written; behind an end of the stream that the link delivered there is
    nothing more to come, and the writer has closed its side. *)
Lemma link_received id t tr k :
  0 <= id < 2 ^ 32 -> link_inv id t tr k -> ch_status (lk_b k) <> chClosed ->
  exists rest, written (events_of SideA tr) = (received (events_of SideA tr) ++ ch_rb (lk_b k)) ++ rest
    /\ (ch_rerr (lk_b k) <> None -> rest = [] /\ ch_status (lk_a k) <> chOpen).
Proof.
  intros Hid [(f & Hrun & [Hs _ Hr _]) _] Hst. specialize (Hr Hst).
  apply flow_run_sim in Hrun as [Hi Hp]; [|by apply flow_init_inv].
  assert (sys_init (flow_pipe (flow_init id t))) as H0 by done.
  destruct (pipe_run_bytes _ _ _ H0 Hp) as (-> & _). exists (in_flight (fl_data f)).
  unfold flow_pipe. cbn [p_buf]. rewrite Hr. split; [by rewrite <-app_assoc|]. intros Hn.
  destruct (fi_data f Hi) as (cs & n & Hq & Hk). rewrite Hr, Hs in Hk. simpl in Hk.
  destruct Hk as [[? _]|(_ & -> & Hno)]; [done|]. split; [|done]. rewrite Hq. by rewrite (in_flight_data _ [] n).
Qed.
