(* ===== verification/Session.v ===== *)
(** * A whole control connection between server and client

    Two [CtrlConn]s ([src/relay/ctrlconn.go]), the server's and the client's,
    with a network between them that carries the bytes each writes, in order
    and in pieces of any size.  The steps are the methods of [Mux.v] at either
    end, the two read loops and the network; the server opens channels (in the
    program only [acceptLoop] does, src/relay/remoteserver.go), the client accepts
    them.  The model covers a session while it lives: a read loop that has no
    complete frame to read waits, and an end does not read from a channel it
    has closed itself.  A pass of [Write] takes its credit and sends its frame
    in one step; sends are serialised by [wmu] and every pass is for a chunk of
    its own.  [session_inv] says that every channel is,
    in the bytes of its own that are on the wire, a [link]: what happens on
    other channels does not exist for it. *)
From S2P Require Import Prelude Conn Frame Stream Mux Transport FlowControl Link.

Record session := mkSession {
  se_srv : CtrlConn;
  se_cli : CtrlConn;
  se_down : list byte;   (* in the network towards the client *)
  se_up : list byte;     (* in the network towards the server *)
}.

(** A connection after the set-up of the session: everything that arrived has
    been read. *)
Definition fresh (c : conn) : Prop := rx c = [] /\ tx_room c = None.

Definition session_init (c1 c2 : conn) (now1 now2 : Z) : session :=
  mkSession (NewCtrlConn c1 now1) (NewCtrlConn c2 now2) [] [].

(** Bytes arrive. *)
Definition arrive (p : list byte) (cc : CtrlConn) : CtrlConn :=
  let c := cc_conn cc in set_conn (Conn (rx c ++ p) (rx_end c) (tx c) (tx_room c) (tx_err c)) cc.

(** The goroutines that use a control connection and its channels. *)
Inductive end_op (cc : CtrlConn) : option (nat * (io * event)) -> CtrlConn -> Prop :=
  | op_accept pd r cc' : AcceptChannel pd cc = Some (r, cc') -> end_op cc None cc'
  | op_read l n ch d cc' :
      cc_store cc !! l = Some ch -> ch_status ch <> chClosed ->
      chan_Read l n cc = Some (Ok d, cc') -> end_op cc (Some (l, (In, EvRead d))) cc'
  | op_eof l n ch cc' :
      cc_store cc !! l = Some ch -> ch_status ch <> chClosed ->
      chan_Read l n cc = Some (Err EOF, cc') -> end_op cc (Some (l, (In, EvEOF))) cc'
  | op_write l b ch chunk ch' f :            (* a pass of [Write] *)
      cc_store cc !! l = Some ch -> Write_guard ch = None -> Write_iter b ch = WChunk chunk ch' f ->
      end_op cc (Some (l, (Out, EvWrite chunk))) (send f (on_channel (fun _ => ch') l cc)).2
  | op_closewrite l ch ch' f :
      cc_store cc !! l = Some ch -> CloseWrite ch = Some (ch', f) ->
      end_op cc (Some (l, (Out, EvClose))) (chan_CloseWrite l cc).2
  | op_close l ch ch' f :
      cc_store cc !! l = Some ch -> Close ch = Some (ch', f) ->
      end_op cc (Some (l, (Out, EvClose))) (chan_Close l cc).2
  | op_spawned : end_op cc None (run_spawned cc)
  | op_ping now timeout cc' : KeepAlive_tick now timeout cc = (true, cc') -> end_op cc None cc'.

(** The read loop has something to do: a complete frame is there, or it hands
    a channel over. *)
Definition loop_ready (cc : CtrlConn) : Prop :=
  match cc_loop cc with
  | LoopReading => exists f c, ReadFrame (cc_conn cc) = (Ok f, c)
  | _ => True
  end.

(** An event of the session: which channel, whose bytes, what happened. *)
Definition label := (nat * (side * event))%type.

Definition lift (x : side) (e : nat * (io * event)) : label := (e.1, at_side x e.2).

Inductive session_step (s : session) : option label -> session -> Prop :=
  | st_srv e cc' bs :
      end_op (se_srv s) e cc' -> tx (cc_conn cc') = tx (cc_conn (se_srv s)) ++ bs ->
      session_step s (lift SideA <$> e) (mkSession cc' (se_cli s) (se_down s ++ bs) (se_up s))
  | st_cli e cc' bs :
      end_op (se_cli s) e cc' -> tx (cc_conn cc') = tx (cc_conn (se_cli s)) ++ bs ->
      session_step s (lift SideB <$> e) (mkSession (se_srv s) cc' (se_down s) (se_up s ++ bs))
  | st_open target r cc' bs :      (* the ids have not wrapped around *)
      zlen (bytes_of target) < 65530 -> cc_nextID (se_srv s) < 2 ^ 32 - 1 ->
      OpenChannel target (se_srv s) = (r, cc') -> tx (cc_conn cc') = tx (cc_conn (se_srv s)) ++ bs ->
      session_step s None (mkSession cc' (se_cli s) (se_down s ++ bs) (se_up s))
  | st_srv_loop now cc' bs :
      loop_ready (se_srv s) -> readLoop_step now (se_srv s) = cc' ->
      tx (cc_conn cc') = tx (cc_conn (se_srv s)) ++ bs ->
      session_step s None (mkSession cc' (se_cli s) (se_down s ++ bs) (se_up s))
  | st_cli_loop now cc' bs :
      loop_ready (se_cli s) -> readLoop_step now (se_cli s) = cc' ->
      tx (cc_conn cc') = tx (cc_conn (se_cli s)) ++ bs ->
      session_step s None (mkSession (se_srv s) cc' (se_down s) (se_up s ++ bs))
  | st_down p q :
      se_down s = p ++ q -> session_step s None (mkSession (se_srv s) (arrive p (se_cli s)) q (se_up s))
  | st_up p q :
      se_up s = p ++ q -> session_step s None (mkSession (arrive p (se_srv s)) (se_cli s) (se_down s) q).

(** Runs with their trace. *)
Inductive session_run (s : session) : list label -> session -> Prop :=
  | sr_nil : session_run s [] s
  | sr_snoc tr s1 e s2 :
      session_run s tr s1 -> session_step s1 e s2 -> session_run s (tr ++ option_list e) s2.

(** The events of one channel, and of one direction of it. *)
Definition chan_events (i : nat) (tr : list label) : list (side * event) :=
  omap (fun e => if decide (e.1 = i) then Some e.2 else None) tr.
Definition pipe_events (i : nat) (x : side) (tr : list label) : list event := events_of x (chan_events i tr).

(** ** Frames on the wire *)

(** The [i]-th channel of a session has this id at both ends. *)
Definition chid (i : nat) : Z := Z.of_nat i + 1.

Definition wire (fs : list Frame) : list byte := concat (frame_bytes <$> fs).

Definition new_frame (i : nat) (target : string) : Frame :=
  mkFrame FrameNewChannel (be_put 4 (chid i) ++ be_put 2 (uint16 (zlen (bytes_of target))) ++ bytes_of target).

(** A frame other than [FrameNewChannel] of a connection with [n] channels. *)
Inductive wframe (n : nat) : Frame -> Prop :=
  | wf_data i c : (i < n)%nat -> zlen c <= defaultSendWindow -> wframe n (data_frame (chid i) c)
  | wf_close i : (i < n)%nat -> wframe n (close_frame (chid i))
  | wf_window i d : (i < n)%nat -> 0 <= d < 2 ^ 32 -> wframe n (window_frame (chid i) d)
  | wf_ping p : zlen p <= 8 -> wframe n (mkFrame FramePing p)
  | wf_pong p : zlen p <= 8 -> wframe n (mkFrame FramePong p).

(** The frames towards a client that knows [m] channels of a server that has
    opened channels for [targets]: a channel is announced before it is used. *)
Inductive down_ok (targets : list string) : nat -> list Frame -> Prop :=
  | dn_nil : down_ok targets (length targets) []
  | dn_new m t fs :
      targets !! m = Some t -> zlen (bytes_of t) < 65530 -> down_ok targets (S m) fs ->
      down_ok targets m (new_frame m t :: fs)
  | dn_other m f fs : wframe m f -> down_ok targets m fs -> down_ok targets m (f :: fs).

(** Which channel a frame is for. *)
Definition chan_of (f : Frame) : option Z :=
  if decide (frame_type f = FrameChannelData \/ frame_type f = FrameChannelClose \/ frame_type f = FrameWindowUpdate)
  then Some (be_get (take 4 (frame_payload f))) else None.

Definition sel (i : nat) (fs : list Frame) : list Frame := filter (fun f => chan_of f = Some (chid i)) fs.

(** How many frames the receiving ends still have to deal with, the answers to
    the pings among them included. *)
Definition load (fs : list Frame) : nat :=
  foldr (fun f n => (if decide (frame_type f = FramePing) then 2 else 1) + n)%nat 0%nat fs.

(** ** The invariant *)

(** One end: ids and table are as the channels say, the read loop lives and
    nothing was torn down. *)
Record end_ok (cc : CtrlConn) : Prop := {
  eo_ids : forall i ch, cc_store cc !! i = Some ch -> ch_id ch = chid i;
  eo_table : forall id l, cc_channels cc !! id = Some l <->
    id = chid l /\ exists ch, cc_store cc !! l = Some ch /\ ch_status ch <> chClosed;
  eo_spawned : cc_spawned cc = [];
  eo_loop : cc_loop cc = LoopReading \/ exists l, cc_loop cc = LoopSending l;
  eo_room : tx_room (cc_conn cc) = None;
  eo_len : chid (length (cc_store cc)) < 2 ^ 32;
  eo_queue : (length (cc_newCh cc) <= newCh_cap)%nat;
}.

(** The client's end of a channel; it is as good as open before the client has
    seen its announcement. *)
Definition peer (i : nat) (cs : channel) (cli : CtrlConn) : channel :=
  default (newChannel (chid i) (ch_target cs)) (cc_store cli !! i).

Record session_inv (tr : list label) (s : session) (ws wc : list Frame) : Prop := {
  si_down : rx (cc_conn (se_cli s)) ++ se_down s = wire ws;
  si_up : rx (cc_conn (se_srv s)) ++ se_up s = wire wc;
  si_srv : end_ok (se_srv s);
  si_cli : end_ok (se_cli s);
  si_next : cc_nextID (se_srv s) = chid (length (cc_store (se_srv s)));
  si_ws : down_ok (ch_target <$> cc_store (se_srv s)) (length (cc_store (se_cli s))) ws;
  si_wc : Forall (wframe (length (cc_store (se_cli s)))) wc;
  si_link : forall i cs, cc_store (se_srv s) !! i = Some cs ->
    link_inv (chid i) (ch_target cs) (chan_events i tr) (mkLink cs (peer i cs (se_cli s)) (sel i ws) (sel i wc));
  si_target : forall i cs, cc_store (se_srv s) !! i = Some cs -> ch_target (peer i cs (se_cli s)) = ch_target cs;
  si_none : forall i, (length (cc_store (se_srv s)) <= i)%nat -> chan_events i tr = [];
}.

(** ** Lemmas *)

Lemma wire_app fs gs : wire (fs ++ gs) = wire fs ++ wire gs.
Proof. unfold wire. by rewrite fmap_app, concat_app. Qed.

Lemma wire_one f : wire [f] = frame_bytes f.
Proof. apply app_nil_r. Qed.

Lemma chid_inj i j : chid i = chid j -> i = j.
Proof. unfold chid. lia. Qed.

Lemma wframe_mono n m f : (n <= m)%nat -> wframe n f -> wframe m f.
Proof. intros Hnm []; constructor; lia. Qed.

Lemma wframe_ok n f : wframe n f -> frame_ok f.
Proof.
  intros []; unfold frame_ok, data_frame, close_frame, window_frame; cbn [frame_payload];
    rewrite ?be_put4_zlen, ?zlen_be_put; unfold defaultSendWindow in *; change maxFramePayload with (2 ^ 24); lia.
Qed.

Lemma new_frame_ok i t : zlen (bytes_of t) < 65530 -> frame_ok (new_frame i t).
Proof.
  intros. unfold frame_ok, new_frame. cbn [frame_payload]. rewrite be_put4_zlen, zlen_app, zlen_be_put.
  change maxFramePayload with (2 ^ 24). lia.
Qed.

Lemma wframe_chan n f : chid n <= 2 ^ 32 -> wframe n f ->
  chan_of f = None \/ exists i, (i < n)%nat /\ chan_of f = Some (chid i).
Proof.
  unfold chid. intros Hn []; [right; exists i..|by left|by left]; (split; [done|]); unfold chan_of;
    rewrite decide_True by (cbn; auto); f_equal; unfold data_frame, close_frame, window_frame; cbn [frame_payload];
    rewrite ?(proj1 (take_drop_4 _ _)), ?firstn_all2 by (by rewrite length_be_put); apply be_get_put4; unfold chid; lia.
Qed.

Lemma chan_of_new i t : chan_of (new_frame i t) = None.
Proof. done. Qed.

Lemma sel_app i fs gs : sel i (fs ++ gs) = sel i fs ++ sel i gs.
Proof. apply filter_app. Qed.

Lemma sel_mine i fs : Forall (fun f => chan_of f = Some (chid i)) fs -> sel i fs = fs.
Proof. induction 1 as [|f fs Hf _ IH]; [done|]. unfold sel in *. by rewrite filter_cons_True, IH. Qed.

Lemma sel_others i fs : Forall (fun f => chan_of f <> Some (chid i)) fs -> sel i fs = [].
Proof. induction 1 as [|f fs Hf _ IH]; [done|]. unfold sel in *. by rewrite filter_cons_False, IH. Qed.

Lemma down_ok_le ts m fs : down_ok ts m fs -> (m <= length ts)%nat.
Proof. induction 1; [done|lia|done]. Qed.

Lemma down_ok_snoc ts m fs f : down_ok ts m fs -> wframe (length ts) f -> down_ok ts m (fs ++ [f]).
Proof.
  intros H Hf. induction H as [|m t fs Ht Hl H IH|m g fs Hg H IH]; simpl.
  - apply dn_other; [done|constructor].
  - by apply dn_new.
  - by apply dn_other.
Qed.

Lemma down_ok_app ts m fs gs : down_ok ts m fs -> Forall (wframe (length ts)) gs -> down_ok ts m (fs ++ gs).
Proof.
  intros H Hg. revert fs H. induction Hg as [|g gs Hg _ IH]; intros fs H; [by rewrite app_nil_r|].
  rewrite (cons_middle g), (assoc_L (++)). apply IH. by apply down_ok_snoc.
Qed.

Lemma down_ok_new ts m fs t :
  down_ok ts m fs -> zlen (bytes_of t) < 65530 -> down_ok (ts ++ [t]) m (fs ++ [new_frame (length ts) t]).
Proof.
  intros H Ht. induction H as [|m u fs Hu Hl H IH|m g fs Hg H IH]; simpl.
  - apply dn_new; [by rewrite lookup_app_r, Nat.sub_diag by lia|done|].
    replace (S (length ts)) with (length (ts ++ [t])) by (rewrite length_app; simpl; lia). constructor.
  - apply dn_new; [by apply lookup_app_l_Some|done|done].
  - by apply dn_other.
Qed.

Lemma down_ok_frames ts m fs : down_ok ts m fs -> Forall frame_ok fs.
Proof. induction 1; constructor; try done; [by apply new_frame_ok|by eapply wframe_ok]. Qed.

(** Frames are self-delimiting: what a read loop takes off the wire is the
    first frame that was put on it. *)
Lemma wire_read f r fs : Forall frame_ok fs -> frame_ok f -> frame_bytes f ++ r = wire fs ->
  exists fs', fs = f :: fs' /\ r = wire fs'.
Proof.
  intros Hfs Hf E. destruct fs as [|g fs].
  { apply (f_equal length) in E. rewrite length_app, length_frame_bytes in E. simpl in E. lia. }
  inversion Hfs as [|? ? Hg _]; subst. change (g :: fs) with ([g] ++ fs) in E. rewrite wire_app, wire_one in E.
  pose proof (ReadFrame_bytes f (conn_of (frame_bytes f ++ r)) r Hf eq_refl) as H1.
  pose proof (ReadFrame_bytes g (conn_of (frame_bytes f ++ r)) (wire fs) Hg E) as H2.
  rewrite H1 in H2. injection H2 as -> ->. eauto.
Qed.

Lemma load_app fs gs : load (fs ++ gs) = (load fs + load gs)%nat.
Proof. unfold load. induction fs as [|f fs IH]; [done|]. simpl. rewrite IH. lia. Qed.

Lemma load_cons f fs : load (f :: fs) = (load [f] + load fs)%nat.
Proof. apply (load_app [f]). Qed.

Lemma load_one f : (0 < load [f])%nat.
Proof. simpl. case_decide; lia. Qed.

Lemma chan_events_app i tr tr' : chan_events i (tr ++ tr') = chan_events i tr ++ chan_events i tr'.
Proof. apply omap_app. Qed.

Lemma chan_events_one i j e : chan_events i [(j, e)] = if decide (j = i) then [e] else [].
Proof. unfold chan_events. simpl. by case_decide. Qed.

(** *** What the operations of one end do *)

(** An operation of an end that sends [fs]. *)
Record effect (cc cc' : CtrlConn) (fs : list Frame) : Prop := {
  ef_rx : rx (cc_conn cc') = rx (cc_conn cc);
  ef_tx : tx (cc_conn cc') = tx (cc_conn cc) ++ wire fs;
  ef_next : cc_nextID cc' = cc_nextID cc;
  ef_ok : end_ok cc';
  ef_frames : Forall (wframe (length (cc_store cc))) fs;
}.

(** The windows and buffers that the links guarantee. *)
Definition small (cc : CtrlConn) : Prop :=
  forall l ch, cc_store cc !! l = Some ch ->
    0 <= ch_sendWindow ch <= defaultSendWindow /\ (ch_status ch <> chClosed -> zlen (ch_rb ch) <= defaultSendWindow).

Lemma store_const cc l ch ch' : cc_store cc !! l = Some ch ->
  cc_store (on_channel (fun _ => ch') l cc) = <[l := ch']> (cc_store cc).
Proof.
  intros H. apply list_eq. intros i. simpl. rewrite list_lookup_alter. case_decide as Hi.
  - subst. rewrite H. symmetry. apply list_lookup_insert_eq. by eapply lookup_lt_Some.
  - by rewrite list_lookup_insert_ne.
Qed.

Lemma end_ok_conn c cc : tx_room c = None -> end_ok cc -> end_ok (set_conn c cc).
Proof. intros Hc []. by constructor. Qed.

Lemma end_ok_upd cc l ch ch' :
  end_ok cc -> cc_store cc !! l = Some ch -> ch_id ch' = ch_id ch ->
  (ch_status ch' = chClosed <-> ch_status ch = chClosed) -> end_ok (on_channel (fun _ => ch') l cc).
Proof.
  intros [Hi Ht Hs Hl Hr Hn Hq] Hch Hid Hst. pose proof (store_const _ _ _ ch' Hch) as E.
  constructor; rewrite ?E; try done.
  - intros i x [(<- & <- & _)|[_ Hx]]%list_lookup_insert_Some; [|by apply Hi]. rewrite Hid. by apply Hi.
  - intros id k. rewrite (Ht id k). split; intros [-> (x & Hx & Hc)]; (split; [done|]).
    + destruct (decide (l = k)) as [->|Hk].
      * exists ch'. rewrite list_lookup_insert_eq by (by eapply lookup_lt_Some). simplify_eq. tauto.
      * exists x. by rewrite list_lookup_insert_ne.
    + apply list_lookup_insert_Some in Hx as [(<- & <- & _)|[_ Hx]]; [exists ch; tauto|by exists x].
  - by rewrite length_insert.
Qed.

Lemma end_ok_close cc l ch ch' :
  end_ok cc -> cc_store cc !! l = Some ch -> ch_id ch' = ch_id ch -> ch_status ch' = chClosed ->
  end_ok (removeChannel (ch_id ch) (on_channel (fun _ => ch') l cc)).
Proof.
  intros [Hi Ht Hs Hl Hr Hn Hq] Hch Hid Hst. pose proof (store_const _ _ _ ch' Hch) as E. pose proof (Hi _ _ Hch) as Hid'.
  constructor; cbn [removeChannel set_channels cc_store cc_channels cc_spawned cc_loop cc_conn]; rewrite ?E; try done.
  - intros i x [(<- & <- & _)|[_ Hx]]%list_lookup_insert_Some; [|by apply Hi]. rewrite Hid. by apply Hi.
  - intros id k. rewrite Hid', lookup_delete_Some. change (cc_channels (on_channel _ _ cc)) with (cc_channels cc).
    rewrite (Ht id k). split.
    + intros (Hne & -> & x & Hx & Hc). split; [done|]. exists x. rewrite list_lookup_insert_ne by congruence. done.
    + intros (-> & x & Hx & Hc). apply list_lookup_insert_Some in Hx as [(<- & <- & _)|[Hne Hx]]; [congruence|].
      split; [|by eauto]. intros ?%chid_inj. congruence.
  - by rewrite length_insert.
Qed.

Lemma send_ok f cc : end_ok cc -> frame_ok f ->
  (send f cc).2 = set_conn (advance 0 (frame_bytes f) (cc_conn cc)) cc.
Proof. intros Hi Hf. by rewrite send_healthy by (try done; apply Hi). Qed.

Lemma send_effect n f cc cc0 :
  end_ok cc -> wframe n f -> length (cc_store cc0) = n -> cc_conn cc = cc_conn cc0 -> cc_nextID cc = cc_nextID cc0 ->
  effect cc0 (send f cc).2 [f] /\ cc_store (send f cc).2 = cc_store cc.
Proof.
  intros Hi Hf Hn Hc Hx. rewrite send_ok by (try done; by eapply wframe_ok). split; [|done].
  constructor; cbn [set_conn cc_conn cc_nextID advance rx tx].
  - by rewrite Hc.
  - by rewrite wire_one, Hc.
  - done.
  - apply end_ok_conn; [|done]. simpl. by rewrite (eo_room _ Hi).
  - apply Forall_singleton. by subst.
Qed.

Lemma quiet_effect cc cc' :
  cc_conn cc' = cc_conn cc -> cc_nextID cc' = cc_nextID cc -> end_ok cc' -> effect cc cc' [].
Proof. intros Hc Hn Hi. constructor; try done; rewrite Hc; [done|]. symmetry. apply app_nil_r. Qed.

(** What an operation that is seen at channel [l] amounts to. *)
Definition on_link (cc cc' : CtrlConn) (fs : list Frame) (e : option (nat * (io * event))) : Prop :=
  match e with
  | None => cc_store cc' = cc_store cc /\ Forall (fun f => chan_of f = None) fs
  | Some (l, oe) => exists ch ch', cc_store cc !! l = Some ch /\ cc_store cc' = <[l := ch']> (cc_store cc)
      /\ end_step ch oe ch' fs /\ ch_target ch' = ch_target ch /\ Forall (fun f => chan_of f = Some (chid l)) fs
  end.

Lemma wframe_mine n l f : chid n <= 2 ^ 32 -> wframe n f -> take 4 (frame_payload f) = be_put 4 (chid l) -> (l < n)%nat ->
  chan_of f <> None -> Forall (fun f => chan_of f = Some (chid l)) [f].
Proof.
  intros Hn Hf Ht Hl Hc. apply Forall_singleton. unfold chan_of in *. case_decide; [|done].
  rewrite Ht, be_get_put4; [done|]. unfold chid in *. lia.
Qed.

Lemma op_write_effect cc l b ch chunk ch' f :
  end_ok cc -> small cc -> cc_store cc !! l = Some ch -> Write_guard ch = None -> Write_iter b ch = WChunk chunk ch' f ->
  effect cc (send f (on_channel (fun _ => ch') l cc)).2 [f]
  /\ on_link cc (send f (on_channel (fun _ => ch') l cc)).2 [f] (Some (l, (Out, EvWrite chunk))).
Proof.
  intros Hi Hsm Hch Hg Hw. pose proof (Hsm _ _ Hch) as [Hw0 _]. pose proof (lookup_lt_Some _ _ _ Hch) as Hl.
  pose proof (eo_len _ Hi) as Hn.
  pose proof Hw as Hw'. apply Write_iter_chunk in Hw' as (_ & Hc & -> & _ & ->); [|unfold defaultSendWindow in *; lia].
  rewrite (eo_ids _ Hi _ _ Hch) in *.
  assert (wframe (length (cc_store cc)) (data_frame (chid l) chunk)) as Hf by (constructor; [done|lia]).
  destruct (send_effect _ _ (on_channel (fun _ => set_sendWindow (ch_sendWindow ch - zlen chunk) ch) l cc) cc
    (end_ok_upd _ _ _ (set_sendWindow (ch_sendWindow ch - zlen chunk) ch) Hi Hch eq_refl ltac:(done)) Hf eq_refl eq_refl eq_refl) as [He Hst].
  split; [done|]. do 2 eexists. split; [exact Hch|]. split; [rewrite Hst; by eapply store_const|]. split; [by econstructor|].
  split; [done|]. eapply wframe_mine; [| |apply take_drop_4| |]; [|exact Hf|done|done]. unfold chid in *. lia.
Qed.

Lemma op_close_frame cc l ch : end_ok cc -> cc_store cc !! l = Some ch ->
  wframe (length (cc_store cc)) (close_frame (ch_id ch))
  /\ Forall (fun f => chan_of f = Some (chid l)) [close_frame (ch_id ch)].
Proof.
  intros Hi Hch. rewrite (eo_ids _ Hi _ _ Hch). pose proof (lookup_lt_Some _ _ _ Hch) as Hl. pose proof (eo_len _ Hi).
  assert (wframe (length (cc_store cc)) (close_frame (chid l))) as Hf by (by constructor).
  split; [done|]. eapply wframe_mine; [|exact Hf| |done|done]; [unfold chid in *; lia|].
  simpl. by rewrite firstn_all2 by (by rewrite length_be_put).
Qed.

Lemma op_closewrite_effect cc l ch ch' f :
  end_ok cc -> cc_store cc !! l = Some ch -> CloseWrite ch = Some (ch', f) ->
  effect cc (chan_CloseWrite l cc).2 [f] /\ on_link cc (chan_CloseWrite l cc).2 [f] (Some (l, (Out, EvClose))).
Proof.
  intros Hi Hch Hc. destruct (op_close_frame cc l ch Hi Hch) as [Hf Hmine].
  assert (end_step ch (Out, EvClose) ch' [f]) as Hstep by (by constructor).
  unfold chan_CloseWrite. rewrite Hch, Hc. unfold CloseWrite in Hc. case_decide as Hst; [|done]. injection Hc as <- <-.
  destruct (send_effect _ _ (on_channel (fun _ => set_status chWriteClosed ch) l cc) cc
    (end_ok_upd _ _ _ (set_status chWriteClosed ch) Hi Hch eq_refl ltac:(rewrite Hst; split; discriminate)) Hf eq_refl eq_refl eq_refl) as [He E].
  split; [done|]. exists ch, (set_status chWriteClosed ch). split_and!; try done. rewrite E. by eapply store_const.
Qed.

Lemma op_close_effect cc l ch ch' f :
  end_ok cc -> cc_store cc !! l = Some ch -> Close ch = Some (ch', f) ->
  effect cc (chan_Close l cc).2 [f] /\ on_link cc (chan_Close l cc).2 [f] (Some (l, (Out, EvClose))).
Proof.
  intros Hi Hch Hc. destruct (op_close_frame cc l ch Hi Hch) as [Hf Hmine].
  assert (end_step ch (Out, EvClose) ch' [f]) as Hstep by (by constructor).
  unfold chan_Close. rewrite Hch, Hc. unfold Close in Hc. case_decide as Hst; [done|]. injection Hc as <- <-.
  destruct (send_effect _ _ (removeChannel (ch_id ch) (on_channel (fun _ => set_status chClosed ch) l cc)) cc
    (end_ok_close _ _ _ (set_status chClosed ch) Hi Hch eq_refl eq_refl) Hf) as [He E]; try done.
  split; [done|]. exists ch, (set_status chClosed ch). split_and!; try done. rewrite E. by eapply store_const.
Qed.

Lemma op_read_effect cc l n ch d cc' :
  end_ok cc -> small cc -> cc_store cc !! l = Some ch -> ch_status ch <> chClosed ->
  chan_Read l n cc = Some (Ok d, cc') ->
  exists fs, effect cc cc' fs /\ on_link cc cc' fs (Some (l, (In, EvRead d))).
Proof.
  intros Hi Hsm Hch Hst Hr. pose proof (Hsm _ _ Hch) as [_ Hrb]. specialize (Hrb Hst). pose proof (lookup_lt_Some _ _ _ Hch) as Hl.
  pose proof (eo_len _ Hi) as Hn. pose proof (eo_ids _ Hi _ _ Hch) as Hid.
  unfold chan_Read in Hr. rewrite Hch in Hr. destruct (Read n ch) as [x ch' u| |] eqn:E; [|done|done].
  injection Hr as -> Hcc. exists (option_list u).
  assert (end_step ch (In, EvRead d) ch' (option_list u)) as Hstep by (by econstructor).
  apply Read_data in E as (Hrb' & Hch' & Hu). pose proof (zlen_nonneg d). pose proof (zlen_nonneg (ch_rb ch')).
  rewrite Hrb', zlen_app in Hrb. rewrite Hid in Hu.
  assert (ch_id ch' = ch_id ch /\ ch_status ch' = ch_status ch /\ ch_target ch' = ch_target ch) as (E1 & E2 & E3) by (by rewrite Hch').
  pose proof (end_ok_upd _ _ _ ch' Hi Hch E1 ltac:(by rewrite E2)) as Hok. pose proof (store_const cc l ch ch' Hch) as Est.
  destruct u as [f|].
  - destruct (decide (0 < zlen d)) as [Hpos|]; [|done]. injection Hu as ->.
    assert (wframe (length (cc_store cc)) (window_frame (chid l) (zlen d))) as Hf
      by (constructor; [done|unfold defaultSendWindow in *; lia]).
    destruct (send_effect _ _ (on_channel (fun _ => ch') l cc) cc Hok Hf eq_refl eq_refl eq_refl) as [He Es]. rewrite Hcc in He, Es.
    split; [done|]. exists ch, ch'. split_and!; try done; [by rewrite Es|].
    eapply wframe_mine; [|exact Hf|apply take_drop_4|done|done]. unfold chid in *. lia.
  - subst cc'. split; [by apply quiet_effect|]. exists ch, ch'. by split_and!.
Qed.

Lemma accept_ok pd cc r cc' : AcceptChannel pd cc = Some (r, cc') -> end_ok cc -> effect cc cc' [] /\ cc_store cc' = cc_store cc.
Proof.
  intros [->|(l & q & Hlq & ->)]%AcceptChannel_shape Hi; (split; [|done]); apply quiet_effect; try done.
  destruct Hi as [? ? ? ? ? ? Hq]. rewrite Hlq in Hq. constructor; try done. simpl in *. lia.
Qed.

Lemma end_op_effect cc e cc' : end_op cc e cc' -> end_ok cc -> small cc -> exists fs, effect cc cc' fs /\ on_link cc cc' fs e.
Proof.
  intros H Hi Hsm. destruct H as [pd r cc' H|l n ch d cc' Hch Hst H|l n ch cc' Hch Hst H|l b ch chunk ch' f Hch Hg Hw
    |l ch ch' f Hch Hc|l ch ch' f Hch Hc| |now timeout cc' H].
  - apply accept_ok in H as [He Hs]; [|done]. by exists [].
  - by eapply op_read_effect.
  - exists []. unfold chan_Read in H. rewrite Hch in H. destruct (Read n ch) as [x y u|x|] eqn:E; [done| |done].
    injection H as -> <-. split; [by apply quiet_effect|]. exists ch, ch. split_and!; try done.
    + symmetry. by apply list_insert_id.
    + by econstructor.
  - exists [f]. by apply op_write_effect with (ch := ch) (b := b).
  - exists [f]. by eapply op_closewrite_effect.
  - exists [f]. by eapply op_close_effect.
  - exists []. unfold run_spawned. rewrite (eo_spawned _ Hi). split; [by apply quiet_effect|done].
  - unfold KeepAlive_tick in H. case_decide; [done|]. injection H as <-.
    exists [mkFrame FramePing (be_put 8 (uint64 now))].
    assert (wframe (length (cc_store cc)) (mkFrame FramePing (be_put 8 (uint64 now)))) as Hf by (constructor; by rewrite zlen_be_put).
    destruct (send_effect _ _ cc cc Hi Hf eq_refl eq_refl eq_refl) as [He Hs]. split; [done|]. split; [done|]. by constructor.
Qed.

(** *** What a frame does that the read loop takes *)

Definition on_recv (cc cc' : CtrlConn) (f : Frame) : Prop :=
  match chan_of f with
  | None => cc_store cc' = cc_store cc
  | Some id => exists l ch, id = chid l /\ cc_store cc !! l = Some ch /\ cc_store cc' = <[l := deliver f ch]> (cc_store cc)
  end.

(** The frame does not flood the channel it is for. *)
Definition no_flood (f : Frame) (cc : CtrlConn) : Prop :=
  forall l ch, chan_of f = Some (chid l) -> cc_store cc !! l = Some ch -> ~ is_credit f -> ch_status ch <> chClosed ->
    (pushData (data_of f) ch).2 = false.

Lemma deliver_fields f ch : ch_id (deliver f ch) = ch_id ch /\ ch_target (deliver f ch) = ch_target ch
  /\ ch_status (deliver f ch) = ch_status ch.
Proof.
  split_and!; [| |apply deliver_status]; unfold deliver, recv_frame, pushData; by repeat (case_decide || simpl).
Qed.

Lemma store_recv cc f l ch :
  cc_store cc !! l = Some ch -> ch_status ch <> chClosed ->
  cc_store (on_channel (fun _ => recv_frame f ch) l cc) = <[l := deliver f ch]> (cc_store cc).
Proof. intros Hch Hst. rewrite (store_const _ _ ch) by done. unfold deliver. by rewrite decide_False. Qed.

(** The frames of a channel, in the table of the receiving end. *)
Lemma channel_frame_effect cc f l ch :
  end_ok cc -> wframe (length (cc_store cc)) f -> chan_of f = Some (chid l) -> cc_store cc !! l = Some ch -> no_flood f cc ->
  handleFrame f cc = if decide (ch_status ch = chClosed) then cc else on_channel (fun _ => recv_frame f ch) l cc.
Proof.
  intros Hi Hw Hc Hch Hn. pose proof (Hn l ch Hc Hch) as Hno. pose proof (eo_len _ Hi) as Hlen.
  assert (forall i, (i < length (cc_store cc))%nat -> chid i = chid l -> 0 <= chid i < 2 ^ 32
    /\ cc_channels cc !! chid i = if decide (ch_status ch = chClosed) then None else Some l) as Htab.
  { intros i Hil Hid. split; [unfold chid in *; lia|]. rewrite Hid. case_decide as Hst.
    - destruct (cc_channels cc !! chid l) as [k|] eqn:E; [|done]. apply (eo_table _ Hi) in E as (Hk & x & Hx & Hx').
      apply chid_inj in Hk. simplify_eq.
    - apply (eo_table _ Hi). eauto. }
  assert (forall g, alter g l (cc_store cc) = alter (fun _ => g ch) l (cc_store cc)) as Halt.
  { intros g. apply list_eq. intros i. rewrite !list_lookup_alter. destruct (decide (l = i)) as [<-|]; [|done]. by rewrite Hch. }
  destruct Hw as [i c Hil Hcl|i Hil|i d Hil Hd|p Hp|p Hp]; try done.
  - assert (chan_of (data_frame (chid i) c) = Some (chid i)) as Hci.
    { unfold chan_of. simpl. rewrite (proj1 (take_drop_4 _ _)), be_get_put4; [done|unfold chid in *; lia]. }
    rewrite Hci in Hc. injection Hc as Hid. destruct (Htab i Hil Hid) as [Hr Ht]. rewrite handleFrame_data, Ht by done.
    case_decide as Hst; [done|]. simpl. rewrite Hch. simpl. unfold recv_frame. rewrite decide_True by done. simpl.
    rewrite (proj2 (take_drop_4 _ _)). rewrite data_of_data in Hno. specialize (Hno ltac:(done) Hst).
    destruct (pushData c ch) as [x []]; simpl in Hno; done.
  - assert (chan_of (close_frame (chid i)) = Some (chid i)) as Hci.
    { unfold chan_of. simpl. rewrite firstn_all2 by (by rewrite length_be_put). rewrite be_get_put4; [done|unfold chid in *; lia]. }
    rewrite Hci in Hc. injection Hc as Hid. destruct (Htab i Hil Hid) as [Hr Ht]. rewrite handleFrame_close, Ht by done.
    case_decide as Hst; [done|]. unfold on_channel. by rewrite Halt.
  - assert (chan_of (window_frame (chid i) d) = Some (chid i)) as Hci.
    { unfold chan_of. simpl. rewrite (proj1 (take_drop_4 _ _)), be_get_put4; [done|unfold chid in *; lia]. }
    rewrite Hci in Hc. injection Hc as Hid. destruct (Htab i Hil Hid) as [Hr Ht]. rewrite handleFrame_window, Ht by done.
    case_decide as Hst; [done|]. unfold on_channel. rewrite Halt. unfold recv_frame. rewrite !decide_False, decide_True by done.
    fold (credit_of (window_frame (chid i) d)). by rewrite credit_of_window.
Qed.

Lemma wframe_recv cc f :
  end_ok cc -> wframe (length (cc_store cc)) f -> no_flood f cc ->
  exists fs, effect cc (handleFrame f cc) fs /\ (Forall (fun g => chan_of g = None) fs /\ (load fs < load [f])%nat)
    /\ on_recv cc (handleFrame f cc) f.
Proof.
  intros Hi Hw Hn. pose proof (eo_len _ Hi) as Hlen. destruct (wframe_chan (length (cc_store cc)) f ltac:(lia) Hw) as [Hc|(l & Hl & Hc)].
  - destruct Hw as [i c|i|i d|p Hp|p Hp]; try done.
    + exists [mkFrame FramePong p]. unfold handleFrame. cbn [frame_type frame_payload]. rewrite !decide_False, decide_True by done.
      assert (wframe (length (cc_store cc)) (mkFrame FramePong p)) as Hf by (by constructor).
      destruct (send_effect _ _ cc cc Hi Hf eq_refl eq_refl eq_refl) as [He Hs]. split; [done|]. split; [|done].
      split; [by constructor|]. vm_compute. lia.
    + exists []. unfold handleFrame. cbn [frame_type frame_payload]. rewrite !decide_False by done.
      split; [by apply quiet_effect|]. split; [|done]. split; [done|]. vm_compute. lia.
  - destruct (lookup_lt_is_Some_2 _ _ Hl) as [ch Hch]. exists [].
    rewrite (channel_frame_effect cc f l ch) by done. unfold on_recv. rewrite Hc.
    destruct (deliver_fields f ch) as (E1 & E2 & E3). case_decide as Hst.
    + split; [by apply quiet_effect|]. split; [split; [done|apply load_one]|]. exists l, ch. split_and!; try done.
      unfold deliver. rewrite decide_True by done. symmetry. by apply list_insert_id.
    + split; [|split; [split; [done|apply load_one]|]].
      * apply quiet_effect; [done|done|]. pose proof (deliver_fields f ch) as (D1 & _ & D3). unfold deliver in D1, D3.
        rewrite decide_False in D1, D3 by done. eapply end_ok_upd; [done|exact Hch|done|by rewrite D3].
      * exists l, ch. split_and!; try done. by apply store_recv.
Qed.

(** A fresh channel at the next id, entered in the table. *)
Lemma end_ok_alloc cc t next :
  end_ok cc -> chid (S (length (cc_store cc))) < 2 ^ 32 ->
  let m := length (cc_store cc) in
  end_ok (set_channels (<[chid m := m]> (cc_channels cc))
    (set_store (cc_store cc ++ [newChannel (chid m) t]) (set_nextID next cc))).
Proof.
  intros [Hi Htab Hs Hl Hr Hlen Hq] Hn m. constructor; simpl; try done.
  - intros i ch [Hx|[Hge Hx]]%lookup_app_Some; [by apply Hi|]. apply list_lookup_singleton_Some in Hx as [Hi0 <-]. simpl.
    f_equal. fold m in Hge, Hi0. lia.
  - intros id l. rewrite lookup_insert_Some, (Htab id l). split.
    + intros [[<- <-]|(Hne & -> & ch & Hch & Hst)].
      * split; [done|]. exists (newChannel (chid m) t). split; [|done]. by rewrite lookup_app_r, Nat.sub_diag by (unfold m; lia).
      * split; [done|]. exists ch. split; [by apply lookup_app_l_Some|done].
    + intros (-> & ch & [Hch|[Hge Hch]]%lookup_app_Some & Hst).
      * right. split; [intros ?%chid_inj; subst; apply lookup_lt_Some in Hch; fold m in Hch; lia|eauto].
      * apply list_lookup_singleton_Some in Hch as [Hl0 <-]. left. fold m in Hge, Hl0. split; [f_equal; lia|lia].
  - rewrite length_app. fold m. simpl. by rewrite Nat.add_1_r.
Qed.

(** A channel is announced to the client. *)
Lemma new_frame_recv cc t :
  end_ok cc -> chid (S (length (cc_store cc))) < 2 ^ 32 -> zlen (bytes_of t) < 65530 ->
  let cc' := handleFrame (new_frame (length (cc_store cc)) t) cc in
  end_ok cc' /\ cc_conn cc' = cc_conn cc
  /\ cc_store cc' = cc_store cc ++ [newChannel (chid (length (cc_store cc))) t].
Proof.
  intros Hi Hn Ht. pose proof (zlen_nonneg (bytes_of t)). pose proof (end_ok_alloc cc t (cc_nextID cc) Hi Hn) as Hok.
  cbv zeta in Hok. set (m := length (cc_store cc)) in *.
  unfold handleFrame, new_frame. cbn [frame_type frame_payload]. rewrite decide_True by done.
  assert (uint16 (zlen (bytes_of t)) = zlen (bytes_of t)) as -> by (unfold uint16, wrap; apply Z.mod_small; lia).
  rewrite handleNewChannel_payload, decide_False by (unfold chid in *; lia).
  assert (string_of (take (Z.to_nat (zlen (bytes_of t))) (bytes_of t)) = t) as ->
    by (unfold zlen; by rewrite Nat2Z.id, firstn_all, string_of_bytes_of).
  fold m. destruct Hok. unfold send_newCh.
  case_decide; (split; [|done]); constructor; try done; simpl; eauto; rewrite length_app; simpl in *; lia.
Qed.
