(* ===== verification/Relay.v ===== *)
(** * Relaying bytes ([src/relay/relay.go])

    It is run by the proxies ([Proxy.v]), by [dispatch] of the remote server
    and by [relayChannel] of the remote client.

    [Relay] copies in both directions, each by a goroutine that runs
    [io.CopyBuffer] and then closes the writing side of the destination.  A
    [copier] is such a goroutine; a [hop] is one direction of a relay with the
    transports on its two sides, any two that satisfy [Reliable].  Every
    connection the program relays has a [CloseWrite], so that [closeWrite] is
    the event [EvClose] of the destination. *)
From S2P Require Import Prelude Transport Conn Frame Stream FlowControl.

Definition bufferSize : Z := 32 * 1024.

Inductive copy_phase :=
  | Copying (pending : list byte)   (* in the loop; what was read and not yet written *)
  | Copied                          (* the loop is over *)
  | HalfClosed.                     (* [closeWrite] is done and the goroutine over *)

Record copier := mkCopier {
  cp_phase : copy_phase;
  cp_n : Z;                         (* what [io.CopyBuffer] will return *)
  cp_err : option error;
}.

Definition copier_init : copier := mkCopier (Copying []) 0 None.

(** A read of the source gave [d]. *)
Definition copier_read (d : list byte) (c : copier) : option copier :=
  match cp_phase c with
  | Copying [] => if decide (zlen d <= bufferSize) then Some (mkCopier (Copying d) (cp_n c) (cp_err c)) else None
  | _ => None
  end.

(** The destination took the first [k] pending bytes. *)
Definition copier_write (k : nat) (c : copier) : option (list byte * copier) :=
  match cp_phase c with
  | Copying (b :: p) =>
      let chunk := take k (b :: p) in
      Some (chunk, mkCopier (Copying (drop k (b :: p))) (int64 (cp_n c + zlen chunk)) (cp_err c))
  | _ => None
  end.

(** The loop ends: the source is at its end, or a read or a write failed. *)
Definition copier_eof (c : copier) : option copier :=
  match cp_phase c with
  | Copying [] => Some (mkCopier Copied (cp_n c) None)
  | _ => None
  end.
Definition copier_error (e : error) (c : copier) : option copier :=
  match cp_phase c with
  | Copying _ => Some (mkCopier Copied (cp_n c) (Some e))
  | _ => None
  end.

(** [closeWrite(b)] after the loop, whatever ended it. *)
Definition copier_close (c : copier) : option copier :=
  match cp_phase c with
  | Copied => Some (mkCopier HalfClosed (cp_n c) (cp_err c))
  | _ => None
  end.

Record Stats := mkStats { SentBytes : Z; RecvBytes : Z; SentErr : option error; RecvErr : option error }.

(** [Relay(a, b)] returns once both goroutines are done. *)
Definition Relay (ab ba : copier) : option Stats :=
  match cp_phase ab, cp_phase ba with
  | HalfClosed, HalfClosed => Some (mkStats (cp_n ab) (cp_n ba) (cp_err ab) (cp_err ba))
  | _, _ => None
  end.

(** ** One direction between two transports *)

Section Hop.
Context {A B : Type} `{!System A, !System B}.

Record hop := mkHop { h_src : A; h_copy : copier; h_dst : B }.

(** The events of the two ends that do not belong to the relay. *)
Definition src_event (e : option event) : Prop :=
  match e with Some (EvRead _) | Some EvEOF => False | _ => True end.
Definition dst_event (e : option event) : Prop :=
  match e with Some (EvWrite _) | Some EvClose => False | _ => True end.

Inductive hop_step (h : hop) : option event -> hop -> Prop :=
  | hs_src e a' :
      sys_step (h_src h) e a' -> src_event e -> hop_step h e (mkHop a' (h_copy h) (h_dst h))
  | hs_dst e b' :
      sys_step (h_dst h) e b' -> dst_event e -> hop_step h e (mkHop (h_src h) (h_copy h) b')
  | hs_read d a' c' :
      sys_step (h_src h) (Some (EvRead d)) a' -> copier_read d (h_copy h) = Some c' ->
      hop_step h None (mkHop a' c' (h_dst h))
  | hs_write k chunk b' c' :
      copier_write k (h_copy h) = Some (chunk, c') -> sys_step (h_dst h) (Some (EvWrite chunk)) b' ->
      hop_step h None (mkHop (h_src h) c' b')
  | hs_eof a' c' :
      sys_step (h_src h) (Some EvEOF) a' -> copier_eof (h_copy h) = Some c' ->
      hop_step h None (mkHop a' c' (h_dst h))
  | hs_error e c' :
      copier_error e (h_copy h) = Some c' -> hop_step h (Some EvFail) (mkHop (h_src h) c' (h_dst h))
  | hs_close b' c' :
      copier_close (h_copy h) = Some c' -> sys_step (h_dst h) (Some EvClose) b' ->
      hop_step h None (mkHop (h_src h) c' b').

#[export] Instance hop_system : System hop :=
  {| sys_init h := sys_init (h_src h) /\ h_copy h = copier_init /\ sys_init (h_dst h); sys_step := hop_step |}.

(** What a run of the hop is for its two transports. *)
Record hop_inv (a0 : A) (b0 : B) (h : hop) (tr ta tb : list event) : Prop := {
  hi_src : run a0 ta (h_src h);
  hi_dst : run b0 tb (h_dst h);
  hi_written : written ta = written tr;
  hi_received : received tb = received tr;
  hi_pending : exists p, received ta = written tb ++ p /\ (forall q, cp_phase (h_copy h) = Copying q -> p = q);
  hi_fail : EvFail ∉ tr -> EvFail ∉ ta /\ EvFail ∉ tb;
  hi_close : EvClose ∈ ta -> EvClose ∈ tr;
  hi_eof : EvEOF ∈ tr -> EvEOF ∈ tb;
  hi_closed : EvClose ∈ tb -> forall q, cp_phase (h_copy h) <> Copying q;
  hi_done : EvFail ∉ tr -> (forall q, cp_phase (h_copy h) <> Copying q) ->
    EvEOF ∈ ta /\ received ta = written tb;
  hi_count : cp_n (h_copy h) = int64 (zlen (written tb));
  hi_err : EvFail ∉ tr -> cp_err (h_copy h) = None;
}.

Lemma hop_inv_init (h : hop) : h_copy h = copier_init -> hop_inv (h_src h) (h_dst h) h [] [] [].
Proof.
  intros Hc. constructor; try set_solver; try (by constructor).
  - exists []. split; [done|]. intros q. rewrite Hc. by intros [= <-].
  - intros _ Hn. rewrite Hc in Hn. by destruct (Hn []).
  - by rewrite Hc.
  - by rewrite Hc.
Qed.

Lemma received_quiet e : src_event e -> received (option_list e) = [].
Proof. destruct e as [[]|]; done. Qed.

Lemma written_quiet e : dst_event e -> written (option_list e) = [].
Proof. destruct e as [[]|]; done. Qed.

Lemma not_in_app (x : event) l k : x ∉ l ++ k -> x ∉ l /\ x ∉ k.
Proof. rewrite elem_of_app. tauto. Qed.

Lemma hop_src_inv a0 b0 h tr ta tb e a' :
  hop_inv a0 b0 h tr ta tb -> sys_step (h_src h) e a' -> src_event e ->
  hop_inv a0 b0 (mkHop a' (h_copy h) (h_dst h)) (tr ++ option_list e) (ta ++ option_list e) tb.
Proof.
  intros [] Hs He. pose proof (received_quiet e He) as Hq. constructor; simpl; rewrite ?received_app, ?written_app, ?Hq, ?app_nil_r; try done.
  - by econstructor.
  - congruence.
  - intros [Hn ?]%not_in_app. destruct (hi_fail0 Hn). split; [|done]. rewrite elem_of_app. tauto.
  - rewrite !elem_of_app. intros [?|?]; auto.
  - intros [?|Hin]%elem_of_app; [auto|]. destruct e as [[]|]; simpl in Hin; set_solver.
  - intros [Hn _]%not_in_app Hc. destruct (hi_done0 Hn Hc). rewrite elem_of_app. tauto.
  - intros [Hn _]%not_in_app. auto.
Qed.

Lemma hop_dst_inv a0 b0 h tr ta tb e b' :
  hop_inv a0 b0 h tr ta tb -> sys_step (h_dst h) e b' -> dst_event e ->
  hop_inv a0 b0 (mkHop (h_src h) (h_copy h) b') (tr ++ option_list e) ta (tb ++ option_list e).
Proof.
  intros [] Hs He. pose proof (written_quiet e He) as Hq. constructor; simpl; rewrite ?received_app, ?written_app, ?Hq, ?app_nil_r; try done.
  - by econstructor.
  - congruence.
  - intros [Hn ?]%not_in_app. destruct (hi_fail0 Hn). split; [done|]. rewrite elem_of_app. tauto.
  - intros Hc. rewrite elem_of_app. left. auto.
  - rewrite !elem_of_app. intros [?|?]; auto.
  - intros [?|Hin]%elem_of_app; [auto|]. destruct e as [[]|]; simpl in Hin; set_solver.
  - intros [Hn _]%not_in_app Hc. auto.
  - intros [Hn _]%not_in_app. auto.
Qed.

(** An event of one transport that is the relay's own. *)
Ltac in_snoc := repeat match goal with
  | H : _ ∈ _ ++ [_] |- _ => apply elem_of_app in H as [H|H%list_elem_of_singleton]
  | |- _ ∉ _ ++ [_] => rewrite not_elem_of_app; split
  | |- _ ∉ [_] => rewrite list_elem_of_singleton
  end.

Lemma hop_read_inv a0 b0 h tr ta tb d a' c' :
  hop_inv a0 b0 h tr ta tb -> sys_step (h_src h) (Some (EvRead d)) a' -> copier_read d (h_copy h) = Some c' ->
  hop_inv a0 b0 (mkHop a' c' (h_dst h)) tr (ta ++ [EvRead d]) tb.
Proof.
  intros [] Hs Hc. unfold copier_read in Hc. destruct (cp_phase (h_copy h)) as [[|]| |] eqn:Ep; try done.
  case_decide; [|done]. injection Hc as <-. destruct hi_pending0 as (p & Hp & Hpq). rewrite (Hpq [] eq_refl), app_nil_r in Hp.
  constructor; simpl; rewrite ?received_app, ?written_app, ?received_one, ?written_one, ?app_nil_r; try done.
  - change [EvRead d] with (option_list (Some (EvRead d))). by econstructor.
  - exists d. rewrite Hp. split; [done|]. by intros q [= <-].
  - intros Hn. destruct (hi_fail0 Hn). split; [|done]. by in_snoc.
  - intros Hin. in_snoc; [auto|done].
  - intros Hin. by destruct (hi_closed0 Hin []).
  - intros _ Hn. by destruct (Hn d).
Qed.

Lemma hop_write_inv a0 b0 h tr ta tb k chunk b' c' :
  hop_inv a0 b0 h tr ta tb -> copier_write k (h_copy h) = Some (chunk, c') ->
  sys_step (h_dst h) (Some (EvWrite chunk)) b' ->
  hop_inv a0 b0 (mkHop (h_src h) c' b') tr ta (tb ++ [EvWrite chunk]).
Proof.
  intros [] Hc Hs. unfold copier_write in Hc. destruct (cp_phase (h_copy h)) as [[|b q]| |] eqn:Ep; try done.
  injection Hc as <- <-. destruct hi_pending0 as (p & Hp & Hpq). rewrite (Hpq _ eq_refl) in Hp.
  constructor; rewrite ?received_app, ?written_app, ?received_one, ?written_one, ?app_nil_r; cbn [h_src h_copy h_dst cp_phase]; try done.
  - change [EvWrite (take k (b :: q))] with (option_list (Some (EvWrite (take k (b :: q))))). by econstructor.
  - exists (drop k (b :: q)). rewrite <-app_assoc, take_drop. split; [done|]. by intros r [= <-].
  - intros Hn. destruct (hi_fail0 Hn). split; [done|]. by in_snoc.
  - intros Hin. apply elem_of_app. left. auto.
  - intros Hin. in_snoc; [|done]. by destruct (hi_closed0 Hin (b :: q)).
  - intros _ Hn. by destruct (Hn (drop k (b :: q))).
  - cbn [cp_n]. by rewrite hi_count0, zlen_app, int64_add_l.
Qed.

Lemma hop_eof_inv a0 b0 h tr ta tb a' c' :
  hop_inv a0 b0 h tr ta tb -> sys_step (h_src h) (Some EvEOF) a' -> copier_eof (h_copy h) = Some c' ->
  hop_inv a0 b0 (mkHop a' c' (h_dst h)) tr (ta ++ [EvEOF]) tb.
Proof.
  intros [] Hs Hc. unfold copier_eof in Hc. destruct (cp_phase (h_copy h)) as [[|]| |] eqn:Ep; try done.
  injection Hc as <-. destruct hi_pending0 as (p & Hp & Hpq). rewrite (Hpq [] eq_refl), app_nil_r in Hp.
  constructor; simpl; rewrite ?received_app, ?written_app, ?received_one, ?written_one, ?app_nil_r; try done.
  - change [EvEOF] with (option_list (Some EvEOF)). by econstructor.
  - exists []. by rewrite app_nil_r.
  - intros Hn. destruct (hi_fail0 Hn). split; [|done]. by in_snoc.
  - intros Hin. in_snoc; [auto|done].
  - intros _ _. split; [|done]. apply elem_of_app. right. by apply list_elem_of_singleton.
Qed.

Lemma hop_error_inv a0 b0 h tr ta tb e c' :
  hop_inv a0 b0 h tr ta tb -> copier_error e (h_copy h) = Some c' ->
  hop_inv a0 b0 (mkHop (h_src h) c' (h_dst h)) (tr ++ [EvFail]) ta tb.
Proof.
  intros [] Hc. unfold copier_error in Hc. destruct (cp_phase (h_copy h)) as [q| |] eqn:Ep; try done.
  injection Hc as <-. destruct hi_pending0 as (p & Hp & _).
  constructor; simpl; rewrite ?received_app, ?written_app, ?received_one, ?written_one, ?app_nil_r; try done.
  - by exists p.
  - intros [_ []]%not_in_app. by apply list_elem_of_singleton.
  - intros Hin. apply elem_of_app. auto.
  - intros Hin. in_snoc; [auto|done].
  - intros [_ []]%not_in_app. by apply list_elem_of_singleton.
  - intros [_ []]%not_in_app. by apply list_elem_of_singleton.
Qed.

Lemma hop_close_inv a0 b0 h tr ta tb b' c' :
  hop_inv a0 b0 h tr ta tb -> copier_close (h_copy h) = Some c' -> sys_step (h_dst h) (Some EvClose) b' ->
  hop_inv a0 b0 (mkHop (h_src h) c' b') tr ta (tb ++ [EvClose]).
Proof.
  intros [] Hc Hs. unfold copier_close in Hc. destruct (cp_phase (h_copy h)) as [q| |] eqn:Ep; try done.
  injection Hc as <-. destruct hi_pending0 as (p & Hp & _).
  constructor; simpl; rewrite ?received_app, ?written_app, ?received_one, ?written_one, ?app_nil_r; try done.
  - change [EvClose] with (option_list (Some EvClose)). by econstructor.
  - by exists p.
  - intros Hn. destruct (hi_fail0 Hn). split; [done|]. by in_snoc.
  - intros Hin. apply elem_of_app. left. auto.
  - intros Hn _. by apply hi_done0.
Qed.

Lemma hop_run_inv (h0 : hop) tr h :
  h_copy h0 = copier_init -> run h0 tr h -> exists ta tb, hop_inv (h_src h0) (h_dst h0) h tr ta tb.
Proof.
  intros Hc Hrun. induction Hrun as [|tr h1 e h2 _ (ta & tb & Hi) Hstep]; [do 2 eexists; by apply hop_inv_init|].
  destruct Hstep; simpl; rewrite ?app_nil_r;
    eauto using hop_src_inv, hop_dst_inv, hop_read_inv, hop_write_inv, hop_eof_inv, hop_error_inv, hop_close_inv.
Qed.

(** Two transports with a relay between them are a transport again. *)
#[export] Instance hop_reliable `{!Reliable A, !Reliable B} : Reliable hop.
Proof.
  intros h0 tr h (Ha & Hc & Hb) Hrun. destruct (hop_run_inv h0 tr h Hc Hrun) as (ta & tb & []).
  destruct (reliable _ _ _ Ha hi_src0) as [Hpa Hea]. destruct (reliable _ _ _ Hb hi_dst0) as [Hpb Heb].
  destruct hi_pending0 as (p & Hp & _). rewrite <-hi_written0, <-hi_received0. split.
  - etrans; [exact Hpb|]. etrans; [|exact Hpa]. rewrite Hp. by apply prefix_app_r.
  - intros He Hf. destruct (hi_fail0 Hf) as [Hfa Hfb]. destruct (Heb (hi_eof0 He) Hfb) as [Hall Hcl].
    destruct (hi_done0 Hf (hi_closed0 Hcl)) as [Hea' Hd]. destruct (Hea Hea' Hfa) as [Halla Hcla].
    split; [congruence|auto].
Qed.
End Hop.
Arguments hop : clear implicits.
Arguments mkHop {A B} _ _ _.

(** Two relays with any transport between them: what the reader at the far end
    can rely on. *)
Lemma relay_chain {T1 M T2 : Type} `{!System T1, !System M, !System T2, !Reliable T1, !Reliable M, !Reliable T2}
    (h0 h : hop (hop T1 M) T2) (tr : list event) :
  sys_init h0 -> run h0 tr h ->
  received tr `prefix_of` written tr
  /\ (EvEOF ∈ tr -> EvFail ∉ tr ->
      received tr = written tr /\ EvClose ∈ tr
      /\ cp_n (h_copy h) = int64 (zlen (written tr)) /\ cp_err (h_copy h) = None).
Proof.
  intros Hi Hrun. destruct (reliable h0 tr h Hi Hrun) as [Hp He]. split; [done|]. intros Heof Hf.
  destruct (He Heof Hf) as [Hall Hcl]. destruct Hi as (_ & Hc & Hb).
  destruct (hop_run_inv h0 tr h Hc Hrun) as (ta & tb & []). destruct (hi_fail0 Hf) as [_ Hfb].
  destruct (reliable _ _ _ Hb hi_dst0) as [_ Heb]. destruct (Heb (hi_eof0 Heof) Hfb) as [Hrb _].
  split_and!; [done..| |auto]. rewrite hi_count0, <-Hrb, hi_received0. congruence.
Qed.

(** A relay between transports that have been used before: it goes on where
    the source was read up to, behind what was written to the destination. *)
Lemma relay_from {A B : Type} `{!System A, !System B, !Reliable A, !Reliable B}
    (a0 : A) (b0 : B) (ta0 tb0 tr : list event) (h0 h : hop A B) :
  sys_init a0 -> run a0 ta0 (h_src h0) -> sys_init b0 -> run b0 tb0 (h_dst h0) -> EvClose ∉ tb0 ->
  h_copy h0 = copier_init -> run h0 tr h ->
  exists rest, written (ta0 ++ tr) = received ta0 ++ rest
    /\ received (tb0 ++ tr) `prefix_of` written tb0 ++ rest
    /\ (EvEOF ∈ tb0 ++ tr -> EvFail ∉ ta0 ++ tb0 ++ tr ->
        received (tb0 ++ tr) = written tb0 ++ rest /\ EvClose ∈ ta0 ++ tr).
Proof.
  intros Ha Hra Hb Hrb Hncl Hc Hrun. destruct (hop_run_inv h0 tr h Hc Hrun) as (ta & tb & []).
  destruct (reliable _ _ _ Ha (run_trans _ _ _ _ _ Hra hi_src0)) as [[k Hk] Hea].
  destruct (reliable _ _ _ Hb (run_trans _ _ _ _ _ Hrb hi_dst0)) as [Hpb Heb]. destruct hi_pending0 as (p & Hp & _).
  rewrite !written_app, !received_app in *. exists (received ta ++ k).
  rewrite <-hi_written0, <-hi_received0. split; [by rewrite Hk, <-app_assoc|]. split.
  - etrans; [exact Hpb|]. rewrite Hp, <-!app_assoc. apply prefix_app, prefix_app_r. done.
  - intros He (Hfa & Hf)%not_in_app. apply not_in_app in Hf as [Hfb Hf]. destruct (hi_fail0 Hf) as [Hfa' Hfb'].
    destruct Heb as [Hall Hcl]; [apply elem_of_app in He as [?|?]; apply elem_of_app; auto|rewrite not_elem_of_app; done|].
    apply elem_of_app in Hcl as [?|Hcl]; [done|]. destruct (hi_done0 Hf (hi_closed0 Hcl)) as [Hea' Hd].
    destruct Hea as [Halla Hcla]; [apply elem_of_app; auto|rewrite not_elem_of_app; done|].
    rewrite Halla in Hk. assert (k = []) as -> by (apply (app_inv_head (written ta0 ++ written ta)); by rewrite app_nil_r, <-Hk).
    split; [by rewrite Hall, app_nil_r, Hd|]. apply elem_of_app in Hcla as [?|?]; apply elem_of_app; auto.
Qed.

(** ** Properties *)

(** A reverse tunnel over one channel, seen from the flow of its bytes: the
    user's connection, the server's relay, the window protocol, the client's
    relay and the connection to the target ([Multiplex.tunnel_end_to_end] has
    the whole control connection in the middle). *)
Theorem tunnel_over_flow {T1 T2 : Type} `{!System T1, !System T2, !Reliable T1, !Reliable T2}
    (h0 h : hop (hop T1 flow) T2) (tr : list event) :
  sys_init h0 -> run h0 tr h ->
  received tr `prefix_of` written tr
  /\ (EvEOF ∈ tr -> EvFail ∉ tr ->
      received tr = written tr /\ EvClose ∈ tr
      /\ cp_n (h_copy h) = int64 (zlen (written tr)) /\ cp_err (h_copy h) = None).
Proof. apply relay_chain. Qed.

Definition demo_pipe : pipe := mkPipe 1024 [] false.
Definition demo_hop : hop (hop pipe flow) pipe :=
  mkHop (mkHop demo_pipe copier_init (flow_init 1 "localhost:80")) copier_init demo_pipe.

(** Evaluates the state a run starts from. *)
Ltac norm_state := match goal with
  | |- run ?s ?tr ?h => let s' := eval vm_compute in s in change (run s' tr h)
  end.

Lemma demo_hop_run :
  exists h, run demo_hop [EvWrite [x01; x02]; EvClose; EvRead [x01; x02]; EvEOF] h.
Proof.
  eexists.
  eapply run_event; [apply hs_src; [apply hs_src; [by apply ps_write|done]|done]|]; norm_state.
  eapply run_tau; [apply hs_src; [by eapply hs_read; [by eapply (ps_read _ [x01; x02] [])|]|done]|]; norm_state.
  eapply run_tau; [apply hs_src; [eapply (hs_write _ 2); [reflexivity|by eapply (fs_write _ [x01; x02])]|done]|]; norm_state.
  eapply run_tau; [apply hs_src; [apply hs_dst; [by eapply fs_deliver|done]|done]|]; norm_state.
  eapply run_tau; [eapply (hs_read _ [x01; x02]); [apply hs_dst; [by eapply (fs_read _ 2)|done]|reflexivity]|]; norm_state.
  eapply run_tau; [eapply (hs_write _ 2); [reflexivity|by apply ps_write]|]; norm_state.
  eapply run_event; [apply hs_src; [apply hs_src; [apply ps_close|done]|done]|]; norm_state.
  eapply run_tau; [apply hs_src; [eapply hs_eof; [by apply ps_eof|reflexivity]|done]|]; norm_state.
  eapply run_tau; [apply hs_src; [eapply hs_close; [reflexivity|by eapply fs_closewrite]|done]|]; norm_state.
  eapply run_tau; [apply hs_src; [apply hs_dst; [by eapply fs_deliver|done]|done]|]; norm_state.
  eapply run_tau; [eapply hs_eof; [apply hs_dst; [by eapply (fs_eof _ 2)|done]|reflexivity]|]; norm_state.
  eapply run_tau; [eapply hs_close; [reflexivity|apply ps_close]|]; norm_state.
  eapply run_event; [apply hs_dst; [by apply (ps_read _ [x01; x02] [])|done]|]; norm_state.
  eapply run_event; [apply hs_dst; [by apply ps_eof|done]|]; norm_state.
  constructor.
Qed.

Lemma tunnel_over_flow_witness :
  exists h, run demo_hop [EvWrite [x01; x02]; EvClose; EvRead [x01; x02]; EvEOF] h /\ cp_n (h_copy h) = 2.
Proof.
  destruct demo_hop_run as [h Hrun]. exists h. split; [exact Hrun|].
  destruct (tunnel_over_flow demo_hop h [EvWrite [x01; x02]; EvClose; EvRead [x01; x02]; EvEOF]) as (_ & H); [|exact Hrun|].
  - split; [|split; [done|done]]. split; [done|]. split; [done|]. by apply flow_init_sys.
  - destruct H as (_ & _ & H & _); [set_solver|set_solver|]. exact H.
Defined.

(** A relay that fails half-way does not show it: after a read or write
    error it closes the destination in the same orderly way as at the end of
    the stream, so a reader can be told [io.EOF] although it did not get all
    bytes; the error is only in the relay's own [Stats]. *)
Theorem relay_error_looks_like_end :
  exists (h0 h : hop pipe pipe) (tr : list event),
    sys_init h0 /\ run h0 tr h /\ EvEOF ∈ tr /\ received tr <> written tr
    /\ forall ba, cp_phase ba = HalfClosed -> option_map SentErr (Relay (h_copy h) ba) = Some (Some (OsError "reset")).
Proof.
  exists (mkHop demo_pipe copier_init demo_pipe). eexists. exists [EvWrite [x01]; EvFail; EvEOF].
  split; [done|]. split.
  { eapply run_event; [apply hs_src; [by apply ps_write|done]|].
    eapply run_event; [by apply (hs_error _ (OsError "reset"))|].
    eapply run_tau; [eapply hs_close; [reflexivity|apply ps_close]|].
    eapply run_event; [apply hs_dst; [by apply ps_eof|done]|]. constructor. }
  split; [set_solver|]. split; [done|]. intros ba Hba. unfold Relay. by rewrite Hba.
Qed.
