(* ===== verification/Multiplex.v ===== *)
(** * Channels of a session are independent pipes

    The steps of [Session.v] keep [session_inv]; with [Link.v] and
    [FlowControl.v] below it, every direction of every channel of a live
    control connection is a byte pipe of its own, whatever the other channels
    do, neither end is ever torn down by the other, and what is on the way
    arrives.  [channel_view] makes a channel of a session a transport in the
    sense of [Transport.v], so that the relays at both ends ([relay.go]) can be
    put around the real connection.  [SessionEnd.v] has the end of a session. *)
From S2P Require Import Prelude Conn Frame Stream Mux Transport FlowControl Link Session Relay.

(** ** Lemmas *)

(** *** The steps of the session *)

Lemma small_srv tr s ws wc : session_inv tr s ws wc -> small (se_srv s).
Proof.
  intros H l cs Hcs. pose proof (lookup_lt_Some _ _ _ Hcs) as Hl. pose proof (eo_len _ (si_srv _ _ _ _ H)).
  apply (si_link _ _ _ _ H) in Hcs. apply link_small in Hcs; [|unfold chid in *; lia]. simpl in Hcs. tauto.
Qed.

Lemma cli_in_srv tr s ws wc i cl : session_inv tr s ws wc -> cc_store (se_cli s) !! i = Some cl ->
  exists cs, cc_store (se_srv s) !! i = Some cs /\ peer i cs (se_cli s) = cl.
Proof.
  intros H Hcl. pose proof (down_ok_le _ _ _ (si_ws _ _ _ _ H)) as Hle. rewrite length_fmap in Hle.
  assert (is_Some (cc_store (se_srv s) !! i)) as [cs Hcs] by (apply lookup_lt_is_Some_2; apply lookup_lt_Some in Hcl; lia).
  exists cs. split; [done|]. unfold peer. by rewrite Hcl.
Qed.

Lemma small_cli tr s ws wc : session_inv tr s ws wc -> small (se_cli s).
Proof.
  intros H l cl Hcl. destruct (cli_in_srv _ _ _ _ _ _ H Hcl) as (cs & Hcs & Hp). pose proof (lookup_lt_Some _ _ _ Hcs) as Hl.
  pose proof (eo_len _ (si_srv _ _ _ _ H)).
  apply (si_link _ _ _ _ H) in Hcs. rewrite Hp in Hcs. apply link_small in Hcs; [|unfold chid in *; lia]. simpl in Hcs. tauto.
Qed.

(** The server's end changes and sends [fs]. *)
Lemma update_srv tr tr' s ws wc cc' fs up' wc' :
  session_inv tr s ws wc -> end_ok cc' -> cc_nextID cc' = cc_nextID (se_srv s) ->
  rx (cc_conn cc') ++ up' = wire wc' -> Forall (wframe (length (cc_store (se_cli s)))) wc' ->
  Forall (wframe (length (cc_store (se_srv s)))) fs ->
  length (cc_store cc') = length (cc_store (se_srv s)) ->
  (forall i, (length (cc_store (se_srv s)) <= i)%nat -> chan_events i tr' = []) ->
  (forall i cs, cc_store (se_srv s) !! i = Some cs -> exists cs', cc_store cc' !! i = Some cs' /\ ch_target cs' = ch_target cs
     /\ link_inv (chid i) (ch_target cs) (chan_events i tr') (mkLink cs' (peer i cs (se_cli s)) (sel i (ws ++ fs)) (sel i wc'))) ->
  session_inv tr' (mkSession cc' (se_cli s) (se_down s ++ wire fs) up') (ws ++ fs) wc'.
Proof.
  intros [] Hok Hnext Hup Hwc Hfs Hlen Hnone Hlink.
  assert (ch_target <$> cc_store cc' = ch_target <$> cc_store (se_srv s)) as Hts.
  { apply list_eq_same_length with (n := length (cc_store cc')); [by rewrite !length_fmap|by rewrite length_fmap|].
    intros i x y Hi Hx Hy. apply list_lookup_fmap_Some in Hx as (cx & -> & Hx). apply list_lookup_fmap_Some in Hy as (cy & -> & Hy).
    destruct (Hlink i cy Hy) as (c' & Hc' & Ht & _). congruence. }
  assert (forall i cs', cc_store cc' !! i = Some cs' -> exists cs, cc_store (se_srv s) !! i = Some cs /\ ch_target cs' = ch_target cs
    /\ peer i cs' (se_cli s) = peer i cs (se_cli s)
    /\ link_inv (chid i) (ch_target cs) (chan_events i tr') (mkLink cs' (peer i cs (se_cli s)) (sel i (ws ++ fs)) (sel i wc'))) as Hrev.
  { intros i cs' Hcs'. assert (is_Some (cc_store (se_srv s) !! i)) as [cs Hcs] by (apply lookup_lt_is_Some_2; apply lookup_lt_Some in Hcs'; lia).
    destruct (Hlink i cs Hcs) as (c' & Hc' & Ht & Hk). simplify_eq. exists cs. split_and!; try done. unfold peer. by rewrite Ht. }
  constructor; simpl; try done.
  - by rewrite wire_app, <-si_down, (assoc_L (++)).
  - by rewrite Hnext, Hlen.
  - rewrite Hts. apply down_ok_app; [done|]. by rewrite length_fmap.
  - intros i cs' Hcs'. destruct (Hrev i cs' Hcs') as (cs & Hcs & -> & -> & Hk). done.
  - intros i cs' Hcs'. destruct (Hrev i cs' Hcs') as (cs & Hcs & -> & -> & Hk). by apply si_target.
  - intros i Hi. apply Hnone. lia.
Qed.

(** The client's end changes and sends [fs]. *)
Lemma update_cli tr tr' s ws wc cc' fs down' ws' :
  session_inv tr s ws wc -> end_ok cc' ->
  rx (cc_conn cc') ++ down' = wire ws' -> down_ok (ch_target <$> cc_store (se_srv s)) (length (cc_store cc')) ws' ->
  (length (cc_store (se_cli s)) <= length (cc_store cc'))%nat ->
  Forall (wframe (length (cc_store cc'))) fs ->
  (forall i, (length (cc_store (se_srv s)) <= i)%nat -> chan_events i tr' = []) ->
  (forall i cs, cc_store (se_srv s) !! i = Some cs -> ch_target (peer i cs cc') = ch_target cs
     /\ link_inv (chid i) (ch_target cs) (chan_events i tr') (mkLink cs (peer i cs cc') (sel i ws') (sel i (wc ++ fs)))) ->
  session_inv tr' (mkSession (se_srv s) cc' down' (se_up s ++ wire fs)) ws' (wc ++ fs).
Proof.
  intros [] Hok Hdown Hws Hlen Hfs Hnone Hlink. constructor; simpl; try done.
  - by rewrite wire_app, <-si_up, (assoc_L (++)).
  - apply Forall_app. split; [|done]. eapply Forall_impl; [done|]. intros f. by apply wframe_mono.
  - intros i cs Hcs. by apply Hlink.
  - intros i cs Hcs. by apply Hlink.
Qed.

Lemma other_frames i l fs : l <> i -> Forall (fun f => chan_of f = Some (chid l)) fs -> sel i fs = [].
Proof.
  intros Hne Hf. apply sel_others. eapply Forall_impl; [done|]. simpl. intros f -> [= ?%chid_inj]. done.
Qed.

Lemma no_frames i fs : Forall (fun f => chan_of f = None) fs -> sel i fs = [].
Proof. intros Hf. apply sel_others. eapply Forall_impl; [done|]. by intros f ->. Qed.

Lemma chan_events_lift i tr x l oe :
  chan_events i (tr ++ option_list (lift x <$> Some (l, oe))) = chan_events i tr ++ (if decide (l = i) then [at_side x oe] else []).
Proof. rewrite chan_events_app. f_equal. apply (chan_events_one i l (at_side x oe)). Qed.

Lemma srv_op_inv tr s ws wc e cc' bs :
  session_inv tr s ws wc -> end_op (se_srv s) e cc' -> tx (cc_conn cc') = tx (cc_conn (se_srv s)) ++ bs ->
  exists ws', session_inv (tr ++ option_list (lift SideA <$> e)) (mkSession cc' (se_cli s) (se_down s ++ bs) (se_up s)) ws' wc.
Proof.
  intros H He Htx. destruct (end_op_effect _ _ _ He (si_srv _ _ _ _ H) (small_srv _ _ _ _ H)) as (fs & [] & Hl).
  rewrite Htx in ef_tx. apply app_inv_head in ef_tx as ->. exists (ws ++ fs).
  apply (update_srv tr _ s ws wc cc' fs (se_up s) wc); try done.
  - rewrite ef_rx. apply (si_up _ _ _ _ H).
  - apply (si_wc _ _ _ _ H).
  - destruct e as [[l oe]|]; [|by destruct Hl as [-> _]]. destruct Hl as (ch & ch' & _ & -> & _). by rewrite length_insert.
  - intros i Hi. destruct e as [[l oe]|]; [|simpl; rewrite app_nil_r; by apply (si_none _ _ _ _ H)].
    destruct Hl as (ch & ch' & Hch & _). apply lookup_lt_Some in Hch.
    rewrite (chan_events_lift i tr SideA l oe), decide_False, app_nil_r by lia. by apply (si_none _ _ _ _ H).
  - intros i cs Hcs. pose proof (si_link _ _ _ _ H i cs Hcs) as Hk. rewrite sel_app. destruct e as [[l oe]|].
    + destruct Hl as (ch & ch' & Hch & Hst & Hstep & Htg & Hmine). rewrite (chan_events_lift i tr SideA l oe), Hst. case_decide as Hil.
      * subst i. assert (ch = cs) as -> by congruence. exists ch'. rewrite list_lookup_insert_eq by (by eapply lookup_lt_Some).
        split; [done|]. split; [done|]. rewrite (sel_mine l fs) by done. by apply (link_step_a _ _ _ (mkLink cs _ _ _)).
      * exists cs. rewrite list_lookup_insert_ne by done. rewrite (other_frames i l fs) by done. by rewrite !app_nil_r.
    + destruct Hl as [-> Hq]. exists cs. rewrite (no_frames i fs) by done. simpl. by rewrite !app_nil_r.
Qed.

Lemma peer_insert i l cs ch' cli : (l < length (cc_store cli))%nat ->
  default (newChannel (chid i) (ch_target cs)) (<[l := ch']> (cc_store cli) !! i) = if decide (l = i) then ch' else peer i cs cli.
Proof.
  intros Hl. case_decide as Hi; [subst; by rewrite list_lookup_insert_eq|]. by rewrite list_lookup_insert_ne.
Qed.

Lemma cli_op_inv tr s ws wc e cc' bs :
  session_inv tr s ws wc -> end_op (se_cli s) e cc' -> tx (cc_conn cc') = tx (cc_conn (se_cli s)) ++ bs ->
  exists wc', session_inv (tr ++ option_list (lift SideB <$> e)) (mkSession (se_srv s) cc' (se_down s) (se_up s ++ bs)) ws wc'.
Proof.
  intros H He Htx. destruct (end_op_effect _ _ _ He (si_cli _ _ _ _ H) (small_cli _ _ _ _ H)) as (fs & [] & Hl).
  rewrite Htx in ef_tx. apply app_inv_head in ef_tx as ->. exists (wc ++ fs).
  assert (length (cc_store cc') = length (cc_store (se_cli s))) as Hlen.
  { destruct e as [[l oe]|]; [|by destruct Hl as [-> _]]. destruct Hl as (ch & ch' & _ & -> & _). by rewrite length_insert. }
  pose proof (down_ok_le _ _ _ (si_ws _ _ _ _ H)) as Hle. rewrite length_fmap in Hle.
  apply (update_cli tr _ s ws wc cc' fs (se_down s) ws); rewrite ?Hlen; try done.
  - rewrite ef_rx. apply (si_down _ _ _ _ H).
  - apply (si_ws _ _ _ _ H).
  - intros i Hi. destruct e as [[l oe]|]; [|simpl; rewrite app_nil_r; by apply (si_none _ _ _ _ H)].
    destruct Hl as (ch & ch' & Hch & _). apply lookup_lt_Some in Hch.
    rewrite (chan_events_lift i tr SideB l oe), decide_False, app_nil_r by lia. by apply (si_none _ _ _ _ H).
  - intros i cs Hcs. pose proof (si_link _ _ _ _ H i cs Hcs) as Hk. pose proof (si_target _ _ _ _ H i cs Hcs) as Ht.
    rewrite sel_app. destruct e as [[l oe]|].
    + destruct Hl as (ch & ch' & Hch & Hst & Hstep & Htg & Hmine). rewrite (chan_events_lift i tr SideB l oe).
      unfold peer at 1 2. rewrite Hst, !peer_insert by (by eapply lookup_lt_Some). case_decide as Hil.
      * subst i. unfold peer in Hk, Ht. rewrite Hch in Hk, Ht. simpl in Hk, Ht. rewrite (sel_mine l fs) by done.
        split; [congruence|]. exact (link_step_inv _ _ _ _ _ _ (ls_b (mkLink cs ch _ _) oe ch' fs Hstep) Hk).
      * rewrite (other_frames i l fs) by done. by rewrite !app_nil_r.
    + destruct Hl as [Hst Hq]. unfold peer in *. rewrite Hst, (no_frames i fs) by done. simpl. by rewrite !app_nil_r.
Qed.

Lemma open_ok cc t :
  end_ok cc -> cc_nextID cc = chid (length (cc_store cc)) -> cc_nextID cc < 2 ^ 32 - 1 -> zlen (bytes_of t) < 65530 ->
  let cc' := (OpenChannel t cc).2 in let m := length (cc_store cc) in
  end_ok cc' /\ rx (cc_conn cc') = rx (cc_conn cc) /\ tx (cc_conn cc') = tx (cc_conn cc) ++ frame_bytes (new_frame m t)
  /\ cc_store cc' = cc_store cc ++ [newChannel (chid m) t] /\ cc_nextID cc' = chid (S m).
Proof.
  intros Hi Hnext Hlt Ht. set (m := length (cc_store cc)) in *.
  assert (uint32 (chid m + 1) = chid (S m)) as Hid by (unfold uint32, wrap, chid in *; rewrite Z.mod_small; lia).
  assert (chid (S m) < 2 ^ 32) as Hn by (unfold chid in *; lia).
  pose proof (end_ok_alloc cc t (chid (S m)) Hi Hn) as Hok. cbv zeta in Hok. fold m in Hok.
  unfold OpenChannel. cbn [alloc]. rewrite Hnext, Hid. cbn [set_nextID cc_store]. fold m.
  set (cc1 := set_channels _ _) in Hok |- *.
  change (sendFrame FrameNewChannel _ cc1) with (send (new_frame m t) cc1).
  rewrite send_healthy by (try apply new_frame_ok; try apply Hok; done). cbn [snd]. split; [|done].
  apply end_ok_conn; [|done]. simpl. by rewrite (eo_room _ Hi).
Qed.

Lemma open_inv tr s ws wc target r cc' bs :
  session_inv tr s ws wc -> zlen (bytes_of target) < 65530 -> cc_nextID (se_srv s) < 2 ^ 32 - 1 ->
  OpenChannel target (se_srv s) = (r, cc') -> tx (cc_conn cc') = tx (cc_conn (se_srv s)) ++ bs ->
  exists ws', session_inv tr (mkSession cc' (se_cli s) (se_down s ++ bs) (se_up s)) ws' wc.
Proof.
  intros H Ht Hlt Ho Htx. pose proof (open_ok _ target (si_srv _ _ _ _ H) (si_next _ _ _ _ H) Hlt Ht) as He.
  rewrite Ho in He. cbn [snd] in He. destruct He as (Hok & Hrx & Htx' & Hst & Hnext). rewrite Htx in Htx'. apply app_inv_head in Htx' as ->.
  simpl in *. pose proof (down_ok_le _ _ _ (si_ws _ _ _ _ H)) as Hle. rewrite length_fmap in Hle.
  set (m := length (cc_store (se_srv s))) in *. exists (ws ++ [new_frame m target]).
  assert (forall i, sel i (ws ++ [new_frame m target]) = sel i ws) as Hsel
    by (intros i; rewrite sel_app, (no_frames i [new_frame m target]) by (by apply Forall_singleton); apply app_nil_r).
  assert (forall i cs, cc_store cc' !! i = Some cs -> cc_store (se_srv s) !! i = Some cs
    \/ i = m /\ cs = newChannel (chid m) target /\ peer i cs (se_cli s) = newChannel (chid m) target) as Hcase.
  { intros i cs Hcs. rewrite Hst in Hcs. apply lookup_app_Some in Hcs as [Hcs|[Hge Hcs]]; [by left|right].
    apply list_lookup_singleton_Some in Hcs as [Hi <-]. assert (i = m) as -> by (fold m in Hge, Hi; lia).
    split_and!; [done..|]. unfold peer. by rewrite lookup_ge_None_2. }
  destruct H. constructor; simpl; try done.
  - by rewrite wire_app, wire_one, <-si_down, (assoc_L (++)).
  - by rewrite Hrx.
  - rewrite Hnext, Hst, length_app. fold m. simpl. by rewrite Nat.add_1_r.
  - rewrite Hst, fmap_app. assert (m = length (ch_target <$> cc_store (se_srv s))) as -> by (by rewrite length_fmap).
    by apply down_ok_new.
  - intros i cs Hcs. rewrite Hsel. destruct (Hcase i cs Hcs) as [Hold|(-> & -> & ->)]; [by apply si_link|].
    rewrite si_none by (fold m; lia). assert (sel m ws = [] /\ sel m wc = []) as [-> ->]; [|by apply link_init_inv].
    assert (forall k f, (k <= m)%nat -> wframe k f -> chan_of f <> Some (chid m)) as Hno.
    { intros k f Hk Hf. pose proof (eo_len _ si_srv) as Hlen. fold m in Hlen.
      destruct (wframe_chan k f) as [->|(j & Hj & ->)]; [unfold chid in *; lia|done|done|intros [= ?%chid_inj]; lia]. }
    split.
    + assert (m = length (ch_target <$> cc_store (se_srv s))) as Em by (by rewrite length_fmap).
      apply sel_others. clear -si_ws Hno Em. induction si_ws as [|k t fs Hk _ H IH|k f fs Hf H IH]; constructor; try done; try auto.
      apply (Hno k); [|done]. rewrite Em. by eapply down_ok_le.
    + apply sel_others. eapply Forall_impl; [exact si_wc|]. intros f. by apply Hno.
  - intros i cs Hcs. destruct (Hcase i cs Hcs) as [Hold|(-> & -> & ->)]; [by apply si_target|done].
  - intros i Hi. apply si_none. rewrite Hst, length_app in Hi. fold m in Hi. lia.
Qed.

(** *** The read loops *)

Lemma end_ok_activity now c cc : tx_room c = None -> end_ok cc -> end_ok (set_lastActivity now (set_conn c cc)).
Proof. intros Hc []. by constructor. Qed.

(** A read loop that is ready takes a frame off the wire, or goes on handing a
    channel over. *)
Lemma loop_cases now cc : loop_ready cc -> end_ok cc ->
  cc_loop cc = LoopReading /\ (exists f c, frame_ok f /\ rx (cc_conn cc) = frame_bytes f ++ rx c /\ tx c = tx (cc_conn cc)
     /\ end_ok (set_lastActivity now (set_conn c cc))
     /\ readLoop_step now cc = handleFrame f (set_lastActivity now (set_conn c cc)))
  \/ cc_loop cc <> LoopReading /\ effect cc (readLoop_step now cc) [] /\ cc_store (readLoop_step now cc) = cc_store cc.
Proof.
  intros Hr Hi. unfold loop_ready, readLoop_step in *. destruct (eo_loop _ Hi) as [E|[l E]]; rewrite E in *.
  - left. split; [done|]. destruct Hr as (f & c & Hf). exists f, c. unfold readLoop_iter. rewrite Hf. apply ReadFrame_sound in Hf as (Hok & Hrx & Hc).
    split_and!; try done; [by rewrite Hc|]. apply end_ok_activity; [|done]. rewrite Hc. apply Hi.
  - right. split; [done|]. unfold send_newCh. case_decide; (split; [|done]); apply quiet_effect; try done; destruct Hi;
      constructor; simpl; eauto; rewrite length_app; simpl; lia.
Qed.

(** The head of the wire, as a step of its channel's link. *)
Lemma srv_frame_inv tr s ws f wc' cc1 cc' bs :
  session_inv tr s ws (f :: wc') -> rx (cc_conn cc1) ++ se_up s = wire wc' ->
  tx (cc_conn cc1) = tx (cc_conn (se_srv s)) -> cc_store cc1 = cc_store (se_srv s) -> cc_nextID cc1 = cc_nextID (se_srv s) ->
  end_ok cc1 -> handleFrame f cc1 = cc' -> tx (cc_conn cc') = tx (cc_conn (se_srv s)) ++ bs ->
  exists ws', session_inv tr (mkSession cc' (se_cli s) (se_down s ++ bs) (se_up s)) ws' wc'
    /\ (load ws' + load wc' < load ws + load (f :: wc'))%nat.
Proof.
  intros H Hrx Htx Hst Hnext Hok <- Hbs. pose proof (si_wc _ _ _ _ H) as Hw. apply Forall_cons in Hw as [Hf Hw].
  pose proof (down_ok_le _ _ _ (si_ws _ _ _ _ H)) as Hle. rewrite length_fmap in Hle.
  assert (wframe (length (cc_store cc1)) f) as Hf1 by (rewrite Hst; by eapply wframe_mono).
  pose proof (eo_len _ (si_srv _ _ _ _ H)) as Hlen.
  assert (forall l cs, chan_of f = Some (chid l) -> cc_store (se_srv s) !! l = Some cs ->
    sel l (f :: wc') = f :: sel l wc') as Hsel by (intros l cs Hc _; unfold sel; by rewrite filter_cons_True).
  assert (no_flood f cc1) as Hn.
  { intros l cs Hc Hcs Hcr Hs. rewrite Hst in Hcs. pose proof (lookup_lt_Some _ _ _ Hcs).
    pose proof (si_link _ _ _ _ H l cs Hcs) as Hk. rewrite (Hsel l cs) in Hk by done.
    eapply (link_no_overflow (chid l) _ _ (swap (mkLink _ _ _ _))); [unfold chid in *; lia|by apply link_inv_swap|done..]. }
  destruct (wframe_recv cc1 f Hok Hf1 Hn) as (fs & [] & [Hfs Hld] & Hrecv). rewrite Hbs, Htx in ef_tx. apply app_inv_head in ef_tx as ->.
  exists (ws ++ fs). split; [|rewrite load_app, (load_cons f); lia]. rewrite Hst in ef_frames. unfold on_recv in Hrecv. rewrite Hst in Hrecv.
  apply (update_srv tr tr s ws (f :: wc') _ fs (se_up s) wc'); try done.
  - by rewrite ef_next.
  - by rewrite ef_rx.
  - destruct (chan_of f); [|by rewrite Hrecv]. destruct Hrecv as (l & ch & _ & _ & ->). by rewrite length_insert.
  - apply (si_none _ _ _ _ H).
  - intros i cs Hcs. pose proof (si_link _ _ _ _ H i cs Hcs) as Hk. rewrite sel_app, (no_frames i fs), app_nil_r by done.
    destruct (chan_of f) as [id|] eqn:Ec.
    + destruct Hrecv as (l & ch & -> & Hch & ->). destruct (decide (l = i)) as [->|Hne].
      * assert (ch = cs) as -> by congruence. exists (deliver f cs). rewrite list_lookup_insert_eq by (by eapply lookup_lt_Some).
        split; [done|]. split; [apply deliver_fields|]. rewrite (Hsel i cs) in Hk by done.
        pose proof (link_step_inv _ _ _ _ _ _ (ls_to_a (mkLink cs _ _ _) f (sel i wc') eq_refl) Hk) as G. by rewrite app_nil_r in G.
      * exists cs. rewrite list_lookup_insert_ne by done. split; [done|]. split; [done|].
        assert (sel i (f :: wc') = sel i wc') as <-; [|done]. apply filter_cons_False. rewrite Ec. by intros [= ?%chid_inj].
    + exists cs. rewrite Hrecv. split; [done|]. split; [done|].
      assert (sel i (f :: wc') = sel i wc') as <-; [|done]. apply filter_cons_False. by rewrite Ec.
Qed.

Lemma srv_loop_inv tr s ws wc now cc' bs :
  session_inv tr s ws wc -> loop_ready (se_srv s) -> readLoop_step now (se_srv s) = cc' ->
  tx (cc_conn cc') = tx (cc_conn (se_srv s)) ++ bs ->
  exists ws' wc', session_inv tr (mkSession cc' (se_cli s) (se_down s ++ bs) (se_up s)) ws' wc'
    /\ (load ws' + load wc' <= load ws + load wc)%nat
    /\ (cc_loop (se_srv s) = LoopReading -> load ws' + load wc' < load ws + load wc)%nat.
Proof.
  intros H Hr <- Hbs. destruct (loop_cases now _ Hr (si_srv _ _ _ _ H)) as [(_ & f & c & Hf & Hrx & Htx & Hok & E)|(Hnr & [] & Hst)].
  - pose proof (si_up _ _ _ _ H) as Hup. rewrite Hrx, <-(assoc_L (++)) in Hup.
    apply wire_read in Hup as (wc' & -> & Hup); [|eapply Forall_impl; [exact (si_wc _ _ _ _ H)|]; by apply wframe_ok|done].
    enough (exists ws', session_inv tr (mkSession (readLoop_step now (se_srv s)) (se_cli s) (se_down s ++ bs) (se_up s)) ws' wc'
      /\ (load ws' + load wc' < load ws + load (f :: wc'))%nat) as (ws' & Hi & Hld) by (exists ws', wc'; split_and!; [done|lia|done]).
    by eapply (srv_frame_inv tr s ws f wc' (set_lastActivity now (set_conn c (se_srv s)))).
  - rewrite Hbs in ef_tx. apply app_inv_head in ef_tx as ->. exists (ws ++ []), wc. split; [|rewrite app_nil_r; done].
    apply (update_srv tr tr s ws wc _ [] (se_up s) wc); try done; rewrite ?Hst; try done.
    + rewrite ef_rx. apply (si_up _ _ _ _ H).
    + apply (si_wc _ _ _ _ H).
    + apply (si_none _ _ _ _ H).
    + intros i cs Hcs. exists cs. rewrite app_nil_r. split_and!; try done. by apply (si_link _ _ _ _ H).
Qed.

(** A frame of a known channel, at the client. *)
Lemma cli_frame_inv tr s wc f ws' cc1 bs :
  session_inv tr s (f :: ws') wc -> wframe (length (cc_store (se_cli s))) f ->
  down_ok (ch_target <$> cc_store (se_srv s)) (length (cc_store (se_cli s))) ws' ->
  rx (cc_conn cc1) ++ se_down s = wire ws' ->
  tx (cc_conn cc1) = tx (cc_conn (se_cli s)) -> cc_store cc1 = cc_store (se_cli s) -> end_ok cc1 ->
  tx (cc_conn (handleFrame f cc1)) = tx (cc_conn (se_cli s)) ++ bs ->
  exists wc', session_inv tr (mkSession (se_srv s) (handleFrame f cc1) (se_down s) (se_up s ++ bs)) ws' wc'
    /\ (load ws' + load wc' < load (f :: ws') + load wc)%nat.
Proof.
  intros H Hf Hws Hrx Htx Hst Hok Hbs. pose proof (eo_len _ (si_srv _ _ _ _ H)) as Hlen.
  pose proof (down_ok_le _ _ _ (si_ws _ _ _ _ H)) as Hle. rewrite length_fmap in Hle.
  assert (forall l, chan_of f = Some (chid l) -> sel l (f :: ws') = f :: sel l ws') as Hsel
    by (intros l Hc; unfold sel; by rewrite filter_cons_True).
  assert (no_flood f cc1) as Hn.
  { intros l cl Hc Hcl Hcr Hs. rewrite Hst in Hcl. destruct (cli_in_srv _ _ _ _ _ _ H Hcl) as (cs & Hcs & Hp).
    pose proof (lookup_lt_Some _ _ _ Hcs). pose proof (si_link _ _ _ _ H l cs Hcs) as Hk. rewrite Hp, (Hsel l) in Hk by done.
    eapply (link_no_overflow (chid l) _ _ (mkLink _ _ _ _)); [unfold chid in *; lia|done..]. }
  destruct (wframe_recv cc1 f Hok ltac:(by rewrite Hst) Hn) as (fs & [] & [Hfs Hld] & Hrecv).
  rewrite Hbs, Htx in ef_tx. apply app_inv_head in ef_tx as ->. exists (wc ++ fs). split; [|rewrite load_app, (load_cons f); lia].
  rewrite Hst in ef_frames. unfold on_recv in Hrecv. rewrite Hst in Hrecv.
  assert (length (cc_store (handleFrame f cc1)) = length (cc_store (se_cli s))) as Hl.
  { destruct (chan_of f); [|by rewrite Hrecv]. destruct Hrecv as (l & ch & _ & _ & ->). by rewrite length_insert. }
  apply (update_cli tr tr s (f :: ws') wc _ fs (se_down s) ws'); rewrite ?Hl; try done.
  - by rewrite ef_rx.
  - apply (si_none _ _ _ _ H).
  - intros i cs Hcs. pose proof (si_link _ _ _ _ H i cs Hcs) as Hk. pose proof (si_target _ _ _ _ H i cs Hcs) as Ht.
    rewrite sel_app, (no_frames i fs), app_nil_r by done. destruct (chan_of f) as [id|] eqn:Ec.
    + destruct Hrecv as (l & ch & -> & Hch & Est). unfold peer at 1 2. rewrite Est, !peer_insert by (by eapply lookup_lt_Some).
      case_decide as Hil.
      * subst l. unfold peer in Hk, Ht. rewrite Hch in Hk, Ht. simpl in Hk, Ht. rewrite (Hsel i) in Hk by done.
        destruct (deliver_fields f ch) as (_ & E2 & _). split; [congruence|].
        pose proof (link_step_inv _ _ _ _ _ _ (ls_to_b (mkLink cs ch _ _) f (sel i ws') eq_refl) Hk) as G. by rewrite app_nil_r in G.
      * split; [done|]. assert (sel i (f :: ws') = sel i ws') as <-; [|done]. apply filter_cons_False. rewrite Ec. by intros [= ?%chid_inj].
    + unfold peer in *. rewrite Hrecv. split; [done|].
      assert (sel i (f :: ws') = sel i ws') as <-; [|done]. apply filter_cons_False. by rewrite Ec.
Qed.

(** The announcement of the next channel, at the client. *)
Lemma cli_new_inv tr s wc t ws' cc1 bs :
  let m := length (cc_store (se_cli s)) in
  session_inv tr s (new_frame m t :: ws') wc -> (ch_target <$> cc_store (se_srv s)) !! m = Some t ->
  zlen (bytes_of t) < 65530 -> down_ok (ch_target <$> cc_store (se_srv s)) (S m) ws' ->
  rx (cc_conn cc1) ++ se_down s = wire ws' ->
  tx (cc_conn cc1) = tx (cc_conn (se_cli s)) -> cc_store cc1 = cc_store (se_cli s) -> end_ok cc1 ->
  tx (cc_conn (handleFrame (new_frame m t) cc1)) = tx (cc_conn (se_cli s)) ++ bs ->
  exists wc', session_inv tr (mkSession (se_srv s) (handleFrame (new_frame m t) cc1) (se_down s) (se_up s ++ bs)) ws' wc'
    /\ (load ws' + load wc' < load (new_frame m t :: ws') + load wc)%nat.
Proof.
  intros m H Hm Ht Hws Hrx Htx Hst Hok Hbs. pose proof (eo_len _ (si_srv _ _ _ _ H)) as Hlen.
  pose proof (lookup_lt_Some _ _ _ Hm) as Hlt. rewrite length_fmap in Hlt.
  pose proof (new_frame_recv cc1 t Hok) as Hnew. rewrite Hst in Hnew. fold m in Hnew.
  destruct Hnew as (Hok' & Hc & Hst'); [unfold chid in *; lia|done|].
  rewrite Hc, Htx in Hbs. assert (bs = wire []) as -> by (apply (app_inv_head (tx (cc_conn (se_cli s)))); rewrite <-Hbs; symmetry; apply app_nil_r).
  exists (wc ++ []). split; [|rewrite app_nil_r, (load_cons (new_frame m t)); pose proof (load_one (new_frame m t)); lia].
  assert (length (cc_store (handleFrame (new_frame m t) cc1)) = S m) as Hl
    by (rewrite Hst', length_app; fold m; simpl; lia).
  apply (update_cli tr tr s (new_frame m t :: ws') wc _ [] (se_down s) ws'); rewrite ?Hl, ?Hc; try done.
  - fold m. lia.
  - apply (si_none _ _ _ _ H).
  - intros i cs Hcs. pose proof (si_link _ _ _ _ H i cs Hcs) as Hk. pose proof (si_target _ _ _ _ H i cs Hcs) as Htg.
    assert (peer i cs (handleFrame (new_frame m t) cc1) = peer i cs (se_cli s)) as ->.
    { unfold peer. rewrite Hst'. destruct (decide (i < m)%nat) as [Hi|Hi]; [by rewrite lookup_app_l|].
      rewrite (lookup_ge_None_2 (cc_store (se_cli s))) by (fold m; lia). destruct (decide (i = m)) as [->|Hne].
      - rewrite lookup_app_r by done. fold m. rewrite Nat.sub_diag. simpl. rewrite list_lookup_fmap, Hcs in Hm. by injection Hm as ->.
      - by rewrite lookup_ge_None_2 by (rewrite length_app; fold m; simpl; lia). }
    rewrite app_nil_r. split; [done|].
    assert (sel i (new_frame m t :: ws') = sel i ws') as <-; [|done]. by apply filter_cons_False.
Qed.

Lemma cli_loop_inv tr s ws wc now cc' bs :
  session_inv tr s ws wc -> loop_ready (se_cli s) -> readLoop_step now (se_cli s) = cc' ->
  tx (cc_conn cc') = tx (cc_conn (se_cli s)) ++ bs ->
  exists ws' wc', session_inv tr (mkSession (se_srv s) cc' (se_down s) (se_up s ++ bs)) ws' wc'
    /\ (load ws' + load wc' <= load ws + load wc)%nat
    /\ (cc_loop (se_cli s) = LoopReading -> load ws' + load wc' < load ws + load wc)%nat.
Proof.
  intros H Hr <- Hbs. destruct (loop_cases now _ Hr (si_cli _ _ _ _ H)) as [(_ & f & c & Hf & Hrx & Htx & Hok & E)|(Hnr & [] & Hst)].
  - pose proof (si_down _ _ _ _ H) as Hdown. rewrite Hrx, <-(assoc_L (++)) in Hdown.
    apply wire_read in Hdown as (ws' & -> & Hdown); [|eapply down_ok_frames, (si_ws _ _ _ _ H)|done].
    rewrite E in Hbs |- *. exists ws'.
    enough (exists wc', session_inv tr (mkSession (se_srv s) (handleFrame f (set_lastActivity now (set_conn c (se_cli s)))) (se_down s) (se_up s ++ bs)) ws' wc'
      /\ (load ws' + load wc' < load (f :: ws') + load wc)%nat) as (wc' & Hi & Hld) by (exists wc'; split_and!; [done|lia|done]).
    pose proof (si_ws _ _ _ _ H) as Hws. inversion Hws as [|m t fs Hm Ht Hws'|m g fs Hg Hws']; subst.
    + by eapply cli_new_inv.
    + by eapply cli_frame_inv.
  - rewrite Hbs in ef_tx. apply app_inv_head in ef_tx as ->. exists ws, (wc ++ []). split; [|rewrite app_nil_r; done].
    apply (update_cli tr tr s ws wc _ [] (se_down s) ws); rewrite ?Hst; try done.
    + rewrite ef_rx. apply (si_down _ _ _ _ H).
    + apply (si_ws _ _ _ _ H).
    + apply (si_none _ _ _ _ H).
    + intros i cs Hcs. unfold peer. rewrite Hst, app_nil_r. split; [by apply (si_target _ _ _ _ H)|by apply (si_link _ _ _ _ H)].
Qed.

Lemma end_ok_arrive p cc : end_ok cc -> end_ok (arrive p cc).
Proof. intros Hi. apply end_ok_conn; [apply Hi|done]. Qed.

Lemma session_step_inv tr s e s' ws wc :
  session_step s e s' -> session_inv tr s ws wc -> exists ws' wc', session_inv (tr ++ option_list e) s' ws' wc'.
Proof.
  intros Hstep H. destruct Hstep as [e cc' bs He Hb|e cc' bs He Hb|t r cc' bs Ht Hn Ho Hb|now cc' bs Hr Hc Hb|now cc' bs Hr Hc Hb|p q Hp|p q Hp];
    simpl option_list; rewrite ?app_nil_r.
  - destruct (srv_op_inv _ _ _ _ _ _ _ H He Hb) as [ws' ?]. eauto.
  - destruct (cli_op_inv _ _ _ _ _ _ _ H He Hb) as [wc' ?]. eauto.
  - destruct (open_inv _ _ _ _ _ _ _ _ H Ht Hn Ho Hb) as [ws' ?]. eauto.
  - destruct (srv_loop_inv _ _ _ _ _ _ _ H Hr Hc Hb) as (ws' & wc' & ? & _). eauto.
  - destruct (cli_loop_inv _ _ _ _ _ _ _ H Hr Hc Hb) as (ws' & wc' & ? & _). eauto.
  - exists ws, wc. destruct H. constructor; simpl; try done; [|by apply end_ok_arrive].
    by rewrite <-(assoc_L (++)), <-Hp.
  - exists ws, wc. destruct H. constructor; simpl; try done; [|by apply end_ok_arrive].
    by rewrite <-(assoc_L (++)), <-Hp.
Qed.

Lemma end_ok_init c now : fresh c -> end_ok (NewCtrlConn c now).
Proof.
  intros [_ Hroom]. constructor; simpl; try done; [|by left|lia].
  intros id l. split; [by rewrite lookup_empty|]. intros (_ & ch & Hch & _). by rewrite lookup_nil in Hch.
Qed.

Lemma session_init_inv c1 c2 now1 now2 : fresh c1 -> fresh c2 -> session_inv [] (session_init c1 c2 now1 now2) [] [].
Proof.
  intros H1 H2. destruct (H1) as [R1 _], (H2) as [R2 _]. constructor; simpl; rewrite ?R1, ?R2; try done; try (by apply end_ok_init).
  constructor.
Qed.

Lemma session_run_inv s tr s' :
  session_run s tr s' -> session_inv [] s [] [] -> exists ws wc, session_inv tr s' ws wc.
Proof.
  intros Hrun H. induction Hrun as [|tr s1 e s2 _ (ws & wc & IH) Hstep]; [by exists [], []|]. by eapply session_step_inv.
Qed.

(** *** Everything on the way arrives *)

Lemma session_run_trans s s1 s2 tr tr' : session_run s tr s1 -> session_run s1 tr' s2 -> session_run s (tr ++ tr') s2.
Proof.
  intros H1 H2. induction H2 as [|tr' s2 e s3 _ IH Hstep]; [by rewrite app_nil_r|]. rewrite (assoc_L (++)). by econstructor.
Qed.

Lemma session_one s e s1 : session_step s e s1 -> session_run s (option_list e) s1.
Proof. intros H. change (option_list e) with ([] ++ option_list e). econstructor; [constructor|done]. Qed.

Lemma session_quiet s s1 s2 tr : session_step s None s1 -> session_run s1 tr s2 -> session_run s tr s2.
Proof. intros H1 H2. by apply (session_run_trans s s1 s2 [] tr); [apply (session_one s None)|]. Qed.

Lemma session_event s s1 s2 e tr : session_step s (Some e) s1 -> session_run s1 tr s2 -> session_run s (e :: tr) s2.
Proof. intros H1 H2. by apply (session_run_trans s s1 s2 [e] tr); [apply (session_one s (Some e))|]. Qed.

(** An end that only hands channels over. *)
Definition same_end (cc cc' : CtrlConn) : Prop :=
  end_ok cc' /\ cc_conn cc' = cc_conn cc /\ cc_store cc' = cc_store cc /\ cc_nextID cc' = cc_nextID cc.

Lemma same_ends tr s ws wc srv' cli' :
  session_inv tr s ws wc -> same_end (se_srv s) srv' -> same_end (se_cli s) cli' ->
  session_inv tr (mkSession srv' cli' (se_down s) (se_up s)) ws wc.
Proof.
  intros [] (Hs & Es1 & Es2 & Es3) (Hc & Ec1 & Ec2 & _).
  constructor; simpl; unfold peer in *; rewrite ?Es1, ?Es2, ?Es3, ?Ec1, ?Ec2; done.
Qed.

Lemma same_end_refl cc : end_ok cc -> same_end cc cc.
Proof. by unfold same_end. Qed.

(** A read loop that waits for room in the accept queue goes on after one
    [AcceptChannel]. *)
Lemma resume cc l : end_ok cc -> cc_loop cc = LoopSending l ->
  exists cc1, (cc1 = cc \/ exists r, AcceptChannel false cc = Some (r, cc1)) /\ same_end cc cc1 /\ loop_ready cc1
    /\ same_end cc (readLoop_step 0 cc1) /\ cc_loop (readLoop_step 0 cc1) = LoopReading.
Proof.
  intros Hi Hl. destruct (decide (length (cc_newCh cc) < newCh_cap)%nat) as [Hq|Hq].
  - exists cc. unfold loop_ready, readLoop_step. rewrite Hl. unfold send_newCh. rewrite decide_True by done.
    split; [by left|]. split; [by apply same_end_refl|]. split; [done|]. split; [|done]. split; [|done].
    destruct Hi. constructor; try done; [by left|]. simpl. rewrite length_app. simpl. lia.
  - destruct (cc_newCh cc) as [|l0 q] eqn:E; [by destruct Hq; vm_compute; lia|]. exists (set_newCh q cc).
    unfold AcceptChannel, loop_ready, readLoop_step. rewrite E, Hl. cbn [set_newCh cc_loop cc_newCh]. rewrite Hl.
    pose proof (eo_queue _ Hi) as Hcap. rewrite E in Hcap. simpl in Hcap.
    assert (end_ok (set_newCh q cc)) as H1 by (destruct Hi; constructor; try done; simpl; eauto; lia).
    split; [right; eexists; done|]. split; [done|]. split; [done|]. unfold send_newCh. cbn [set_newCh cc_newCh].
    rewrite decide_True by lia. split; [|done]. split; [|done]. destruct H1. constructor; try done; [by left|].
    simpl in *. rewrite length_app. simpl. lia.
Qed.

Lemma handleFrame_tx f cc : exists bs, tx (cc_conn (handleFrame f cc)) = tx (cc_conn cc) ++ bs.
Proof.
  assert (forall cc', cc_conn cc' = cc_conn cc -> exists bs, tx (cc_conn cc') = tx (cc_conn cc) ++ bs) as Hsame
    by (intros cc' ->; exists []; by rewrite app_nil_r).
  unfold handleFrame. case_decide; [|repeat case_decide].
  - unfold handleNewChannel. repeat case_decide; try by apply Hsame. destruct (slice _ _ _); simpl; [|by apply Hsame].
    unfold send_newCh. case_decide; by apply Hsame.
  - unfold handleChannelData. repeat case_match; by apply Hsame.
  - unfold handleChannelClose. repeat case_match; by apply Hsame.
  - unfold handleWindowUpdate. repeat case_match; by apply Hsame.
  - unfold handlePing, sendFrame. destruct (WriteFrame _ _ _) as [r c1] eqn:Ew.
    apply WriteFrame_prefix in Ew as (_ & _ & k & Hk). simpl. eauto.
  - by apply Hsame.
Qed.

Lemma readLoop_tx now cc : loop_ready cc -> end_ok cc -> exists bs, tx (cc_conn (readLoop_step now cc)) = tx (cc_conn cc) ++ bs.
Proof.
  intros Hr Hi. destruct (loop_cases now cc Hr Hi) as [(_ & f & c & _ & _ & Htx & _ & ->)|(_ & [] & _)]; [|eauto].
  rewrite <-Htx. apply (handleFrame_tx f (set_lastActivity now (set_conn c cc))).
Qed.

(** The network delivers what it holds. *)
Lemma settle_network tr s ws wc : session_inv tr s ws wc ->
  exists s', session_run s [] s' /\ session_inv tr s' ws wc /\ se_down s' = [] /\ se_up s' = [].
Proof.
  intros H. set (s1 := mkSession (se_srv s) (arrive (se_down s) (se_cli s)) [] (se_up s)).
  set (s2 := mkSession (arrive (se_up s) (se_srv s)) (se_cli s1) [] []). exists s2. split_and!; try done.
  - apply (session_quiet s s1); [apply (st_down s (se_down s) []); by rewrite app_nil_r|].
    apply (session_quiet s1 s2); [apply (st_up s1 (se_up s) []); by rewrite app_nil_r|]. constructor.
  - destruct H. constructor; simpl; rewrite ?app_nil_r; try done; by apply end_ok_arrive.
Qed.

(** A read loop that waits to hand over a channel reads again. *)
Lemma settle_cli tr s ws wc : session_inv tr s ws wc ->
  exists s', session_run s [] s' /\ session_inv tr s' ws wc /\ cc_loop (se_cli s') = LoopReading
    /\ cc_conn (se_cli s') = cc_conn (se_cli s) /\ se_down s' = se_down s /\ se_up s' = se_up s.
Proof.
  intros H. destruct (eo_loop _ (si_cli _ _ _ _ H)) as [E|[l E]]; [exists s; split_and!; try done; constructor|].
  destruct (resume _ _ (si_cli _ _ _ _ H) E) as (cc1 & Hcc1 & Hs1 & Hr & Hs2 & Hloop).
  set (s1 := mkSession (se_srv s) cc1 (se_down s) (se_up s)).
  set (s2 := mkSession (se_srv s) (readLoop_step 0 cc1) (se_down s) (se_up s)). exists s2. split_and!; try done.
  - destruct Hs1 as (_ & Ec1 & _), Hs2 as (_ & Ec2 & _).
    assert (session_run s1 [] s2) as H12.
    { apply (session_quiet s1 s2); [|constructor]. unfold s2. rewrite <-(app_nil_r (se_up s)).
      apply (st_cli_loop s1 0 (readLoop_step 0 cc1) []); [done|done|]. by rewrite app_nil_r, Ec2, <-Ec1. }
    destruct Hcc1 as [->|[r Hacc]]; [by destruct s|]. apply (session_quiet s s1); [|done].
    unfold s1. rewrite <-(app_nil_r (se_up s)). apply (st_cli s None); [by eapply op_accept|]. by rewrite Ec1, app_nil_r.
  - apply (same_ends tr s); [done| |done]. apply same_end_refl, (si_srv _ _ _ _ H).
  - exact (proj1 (proj2 Hs2)).
Qed.

Lemma settle_srv tr s ws wc : session_inv tr s ws wc ->
  exists s', session_run s [] s' /\ session_inv tr s' ws wc /\ cc_loop (se_srv s') = LoopReading
    /\ cc_conn (se_srv s') = cc_conn (se_srv s) /\ se_down s' = se_down s /\ se_up s' = se_up s.
Proof.
  intros H. destruct (eo_loop _ (si_srv _ _ _ _ H)) as [E|[l E]]; [exists s; split_and!; try done; constructor|].
  destruct (resume _ _ (si_srv _ _ _ _ H) E) as (cc1 & Hcc1 & Hs1 & Hr & Hs2 & Hloop).
  set (s1 := mkSession cc1 (se_cli s) (se_down s) (se_up s)).
  set (s2 := mkSession (readLoop_step 0 cc1) (se_cli s) (se_down s) (se_up s)). exists s2. split_and!; try done.
  - destruct Hs1 as (_ & Ec1 & _), Hs2 as (_ & Ec2 & _).
    assert (session_run s1 [] s2) as H12.
    { apply (session_quiet s1 s2); [|constructor]. unfold s2. rewrite <-(app_nil_r (se_down s)).
      apply (st_srv_loop s1 0 (readLoop_step 0 cc1) []); [done|done|]. by rewrite app_nil_r, Ec2, <-Ec1. }
    destruct Hcc1 as [->|[r Hacc]]; [by destruct s|]. apply (session_quiet s s1); [|done].
    unfold s1. rewrite <-(app_nil_r (se_down s)). apply (st_srv s None); [by eapply op_accept|]. by rewrite Ec1, app_nil_r.
  - apply (same_ends tr s); [done|done|]. apply same_end_refl, (si_cli _ _ _ _ H).
  - exact (proj1 (proj2 Hs2)).
Qed.

Lemma ready_frame cc f fs : cc_loop cc = LoopReading -> frame_ok f -> rx (cc_conn cc) = wire (f :: fs) -> loop_ready cc.
Proof.
  intros Hl Hf Hrx. unfold loop_ready. rewrite Hl. change (f :: fs) with ([f] ++ fs) in Hrx. rewrite wire_app, wire_one in Hrx.
  do 2 eexists. by apply ReadFrame_bytes.
Qed.

Lemma session_settle n tr s ws wc : (load ws + load wc < n)%nat -> session_inv tr s ws wc ->
  exists s', session_run s [] s' /\ session_inv tr s' [] [] /\ se_down s' = [] /\ se_up s' = [].
Proof.
  revert s ws wc. induction n as [|n IH]; intros s ws wc Hn H; [lia|].
  destruct (settle_network _ _ _ _ H) as (s1 & Hr1 & H1 & Hd & Hu).
  destruct ws as [|f ws]; [destruct wc as [|f wc]; [by exists s1|]|].
  - destruct (settle_srv _ _ _ _ H1) as (s2 & Hr2 & H2 & Hl & Hc & Hd2 & Hu2). rewrite Hd in Hd2. rewrite Hu in Hu2.
    pose proof (si_up _ _ _ _ H2) as Hrx. rewrite Hu2, app_nil_r in Hrx.
    assert (loop_ready (se_srv s2)) as Hready.
    { eapply ready_frame; [done| |exact Hrx]. pose proof (si_wc _ _ _ _ H2) as Hw. apply Forall_cons in Hw as [Hw _]. by eapply wframe_ok. }
    destruct (readLoop_tx 0 _ Hready (si_srv _ _ _ _ H2)) as [bs Hbs].
    destruct (srv_loop_inv _ _ _ _ 0 _ bs H2 Hready eq_refl Hbs) as (ws' & wc' & H3 & _ & Hlt). specialize (Hlt Hl).
    destruct (IH _ ws' wc' ltac:(lia) H3) as (s4 & Hr4 & H4). exists s4. split; [|done].
    apply (session_run_trans s s1 s4 [] []); [done|]. apply (session_run_trans s1 s2 s4 [] []); [done|].
    eapply session_quiet; [by apply (st_srv_loop s2 0 (readLoop_step 0 (se_srv s2)) bs)|done].
  - destruct (settle_cli _ _ _ _ H1) as (s2 & Hr2 & H2 & Hl & Hc & Hd2 & Hu2). rewrite Hd in Hd2. rewrite Hu in Hu2.
    pose proof (si_down _ _ _ _ H2) as Hrx. rewrite Hd2, app_nil_r in Hrx.
    assert (loop_ready (se_cli s2)) as Hready.
    { eapply ready_frame; [done| |exact Hrx]. pose proof (down_ok_frames _ _ _ (si_ws _ _ _ _ H2)) as Hw. by apply Forall_cons in Hw as [Hw _]. }
    destruct (readLoop_tx 0 _ Hready (si_cli _ _ _ _ H2)) as [bs Hbs].
    destruct (cli_loop_inv _ _ _ _ 0 _ bs H2 Hready eq_refl Hbs) as (ws' & wc' & H3 & _ & Hlt). specialize (Hlt Hl).
    destruct (IH _ ws' wc' ltac:(lia) H3) as (s4 & Hr4 & H4). exists s4. split; [|done].
    apply (session_run_trans s s1 s4 [] []); [done|]. apply (session_run_trans s1 s2 s4 [] []); [done|].
    eapply session_quiet; [by apply (st_cli_loop s2 0 (readLoop_step 0 (se_cli s2)) bs)|done].
Qed.

Lemma chid_range tr s ws wc i cs : session_inv tr s ws wc -> cc_store (se_srv s) !! i = Some cs -> 0 <= chid i < 2 ^ 32.
Proof.
  intros H Hcs. apply lookup_lt_Some in Hcs. pose proof (eo_len _ (si_srv _ _ _ _ H)). unfold chid in *. lia.
Qed.

Lemma session_pipe tr s ws wc i x :
  session_inv tr s ws wc -> exists p, run (mkPipe defaultSendWindow [] false) (pipe_events i x tr) p.
Proof.
  intros H. destruct (cc_store (se_srv s) !! i) as [cs|] eqn:E.
  - eapply link_pipes; [by eapply chid_range|by eapply (si_link _ _ _ _ H)].
  - unfold pipe_events. rewrite (si_none _ _ _ _ H) by (by apply lookup_ge_None_1). eexists. constructor.
Qed.

(** ** A channel of a session as a transport *)

(** The bytes of side [x] on channel [i]; everything else that happens in the
    session is internal. *)
Record channel_view (i : nat) (x : side) := View { in_session : session }.
Arguments in_session {i x} _.

Definition seen (i : nat) (x : side) (l : label) : option event :=
  if decide (l.1 = i /\ l.2.1 = x) then Some l.2.2 else None.

#[export] Instance view_system i x : System (channel_view i x) := {|
  sys_init v := exists c1 c2 now1 now2, fresh c1 /\ fresh c2 /\ in_session v = session_init c1 c2 now1 now2;
  sys_step v e v' := exists l, session_step (in_session v) l (in_session v') /\ e = l ≫= seen i x;
|}.

Lemma pipe_events_snoc i x tr l : pipe_events i x (tr ++ option_list l) = pipe_events i x tr ++ option_list (l ≫= seen i x).
Proof.
  unfold pipe_events. rewrite chan_events_app, events_of_app. f_equal. destruct l as [[j [y e]]|]; [|done].
  simpl option_list at 1. rewrite chan_events_one. unfold seen. simpl. repeat case_decide; try tauto; try done; by rewrite events_of_one, ?decide_True, ?decide_False by tauto.
Qed.

Lemma view_run i x (v0 : channel_view i x) tr v :
  run v0 tr v -> exists tr', session_run (in_session v0) tr' (in_session v) /\ pipe_events i x tr' = tr.
Proof.
  intros Hrun. induction Hrun as [|tr v1 e v2 _ (tr' & IH & <-) (l & Hstep & ->)].
  - exists []. split; [constructor|done].
  - exists (tr' ++ option_list l). split; [by econstructor|apply pipe_events_snoc].
Qed.

Lemma view_tau i x s s' : session_step s None s' -> sys_step (View i x s) None (View i x s').
Proof. intros H. by exists None. Qed.

Lemma view_event i x s e s' : session_step s (Some (i, (x, e))) s' -> sys_step (View i x s) (Some e) (View i x s').
Proof. intros H. exists (Some (i, (x, e))). split; [done|]. simpl. unfold seen. by rewrite decide_True. Qed.

(** The promise of a transport, for every channel of every session. *)
#[export] Instance view_reliable i x : Reliable (channel_view i x).
Proof.
  intros v0 tr v (c1 & c2 & now1 & now2 & H1 & H2 & Hv) Hrun. apply view_run in Hrun as (tr' & Hrun & <-). rewrite Hv in Hrun.
  destruct (session_run_inv _ _ _ Hrun (session_init_inv _ _ _ _ H1 H2)) as (ws & wc & Hi).
  destruct (session_pipe _ _ _ _ i x Hi) as [p Hp]. by apply (reliable (mkPipe defaultSendWindow [] false) _ p).
Qed.

(** Everything that was on the way to [rcv] has arrived there. *)
Definition arrived (snd rcv : channel) (tr : list event) : Prop :=
  ch_status rcv <> chClosed ->
  written tr = received tr ++ ch_rb rcv
  /\ (ch_status snd <> chOpen -> ch_rerr rcv = Some EOF)
  /\ (ch_status snd <> chClosed -> ch_sendWindow snd = defaultSendWindow - zlen (ch_rb rcv)).

(** ** Properties *)

(** C1: a reverse tunnel carries bytes faithfully from end to end, over the
    real control connection: a user's connection to the server's public port,
    the server's relay, any one of the channels multiplexed over the connection
    between server and client (with whatever else happens on that connection),
    the client's relay and the connection to the local target.  For any two
    connections that carry bytes reliably, the target has at every moment a
    prefix of what the user sent, and if nothing failed and the target sees the
    end of the stream, it has everything, the user has closed, and the client's
    relay has counted exactly those bytes and no error. *)
Theorem tunnel_end_to_end {T1 T2 : Type} `{!System T1, !System T2, !Reliable T1, !Reliable T2} (i : nat)
    (h0 h : hop (hop T1 (channel_view i SideA)) T2) (tr : list event) :
  sys_init h0 -> run h0 tr h ->
  received tr `prefix_of` written tr
  /\ (EvEOF ∈ tr -> EvFail ∉ tr ->
      received tr = written tr /\ EvClose ∈ tr
      /\ cp_n (h_copy h) = int64 (zlen (written tr)) /\ cp_err (h_copy h) = None).
Proof. apply relay_chain. Qed.

(** Steps of a concrete session; the state is evaluated before the next one. *)
Ltac norm_session := match goal with
  | |- session_run ?s ?tr ?h => let s' := eval vm_compute in s in change (session_run s' tr h)
  | |- run (View ?i ?x ?s) ?tr ?h => let s' := eval vm_compute in s in change (run (View i x s') tr h)
  end.
Ltac by_computing := vm_compute; first [reflexivity|congruence|by eauto].
Ltac quietly step := eapply session_quiet; [step; [by_computing..]|]; norm_session.
Ltac at_server e op := eapply session_event; [eapply (st_srv _ (Some e)); [op; [by_computing..]|by_computing]|]; norm_session.
Ltac at_client e op := eapply session_event; [eapply (st_cli _ (Some e)); [op; [by_computing..]|by_computing]|]; norm_session.

(** A session in which the server opens a channel, sends two bytes on it and
    closes its side. *)
Definition demo_start : session := session_init (conn_of []) (conn_of []) 0 0.

Lemma demo_fresh : fresh (conn_of []).
Proof. done. Qed.

Lemma demo_sent :
  exists s, session_run demo_start [(0%nat, (SideA, EvWrite [x01; x02])); (0%nat, (SideA, EvClose))] s
    /\ length (se_down s) = 32%nat.
Proof.
  eexists. split.
  - quietly ltac:(eapply (st_open _ "t")).
    at_server (0%nat, (Out, EvWrite [x01; x02])) ltac:(eapply (op_write _ 0 [x01; x02])).
    at_server (0%nat, (Out, EvClose)) ltac:(eapply (op_closewrite _ 0)).
    constructor.
  - reflexivity.
Qed.

(** A user sends two bytes through the session and closes. *)
Definition demo_tunnel : hop (hop pipe (channel_view 0 SideA)) pipe :=
  mkHop (mkHop demo_pipe copier_init (View 0 SideA demo_start)) copier_init demo_pipe.

(** Steps of [demo_tunnel] inside the session. *)
Ltac norm_hop := match goal with
  | |- run ?s ?tr ?h => let s' := eval vm_compute in s in change (run s' tr h)
  end.
Ltac internal step :=
  eapply run_tau; [apply hs_src; [apply hs_dst; [eapply view_tau; step; [by_computing..]|done]|done]|]; norm_hop.
Ltac server_event e op := eapply view_event; eapply (st_srv _ (Some e)); [op; [by_computing..]|by_computing].
Ltac client_event e op := eapply view_event; eapply (st_cli _ (Some e)); [op; [by_computing..]|by_computing].

Lemma demo_tunnel_run :
  exists h, run demo_tunnel [EvWrite [x01; x02]; EvClose; EvRead [x01; x02]; EvEOF] h.
Proof.
  eexists.
  eapply run_event; [apply hs_src; [apply hs_src; [by apply ps_write|done]|done]|]; norm_hop.
  internal ltac:(eapply (st_open _ "t")).
  eapply run_tau; [apply hs_src; [by eapply hs_read; [by eapply (ps_read _ [x01; x02] [])|]|done]|]; norm_hop.
  eapply run_tau; [apply hs_src; [eapply (hs_write _ 2); [reflexivity|]|done]|].
  { server_event (0%nat, (Out, EvWrite [x01; x02])) ltac:(eapply (op_write _ 0 [x01; x02])). }
  norm_hop.
  eapply run_event; [apply hs_src; [apply hs_src; [apply ps_close|done]|done]|]; norm_hop.
  eapply run_tau; [apply hs_src; [eapply hs_eof; [by apply ps_eof|reflexivity]|done]|]; norm_hop.
  eapply run_tau; [apply hs_src; [eapply hs_close; [reflexivity|]|done]|].
  { server_event (0%nat, (Out, EvClose)) ltac:(eapply (op_closewrite _ 0)). }
  norm_hop.
  internal ltac:(eapply (st_down ?[s] (se_down ?s) [])).
  do 3 internal ltac:(eapply (st_cli_loop _ 0)).
  eapply run_tau; [eapply (hs_read _ [x01; x02]); [apply hs_dst; [|done]|reflexivity]|].
  { client_event (0%nat, (In, EvRead [x01; x02])) ltac:(eapply (op_read _ 0 2)). }
  norm_hop.
  eapply run_tau; [eapply (hs_write _ 2); [reflexivity|by apply ps_write]|]; norm_hop.
  eapply run_tau; [eapply hs_eof; [apply hs_dst; [|done]|reflexivity]|].
  { client_event (0%nat, (In, EvEOF)) ltac:(eapply (op_eof _ 0 2)). }
  norm_hop.
  eapply run_tau; [eapply hs_close; [reflexivity|apply ps_close]|]; norm_hop.
  eapply run_event; [apply hs_dst; [by apply (ps_read _ [x01; x02] [])|done]|]; norm_hop.
  eapply run_event; [apply hs_dst; [by apply ps_eof|done]|]; norm_hop.
  constructor.
Qed.

Lemma tunnel_end_to_end_witness :
  exists h, run demo_tunnel [EvWrite [x01; x02]; EvClose; EvRead [x01; x02]; EvEOF] h /\ cp_n (h_copy h) = 2.
Proof.
  destruct demo_tunnel_run as [h Hrun]. exists h. split; [exact Hrun|].
  destruct (tunnel_end_to_end 0 demo_tunnel h [EvWrite [x01; x02]; EvClose; EvRead [x01; x02]; EvEOF]) as (_ & H); [|exact Hrun|].
  - split; [|split; [done|done]]. split; [done|]. split; [done|]. by exists (conn_of []), (conn_of []), 0, 0.
  - destruct H as (_ & _ & H & _); [set_solver|set_solver|]. exact H.
Defined.

(** C3: multiplexing is transparent: in every run of a session, whatever the
    order in which goroutines, read loops and the network move and however the
    bytes of the connection are cut into pieces, what is seen at the two ends
    of any one channel, in either direction, is a run of its own byte pipe of
    capacity 64 KiB. *)
Theorem session_refines_pipes (c1 c2 : conn) (now1 now2 : Z) (tr : list label) (s : session) (i : nat) (x : side) :
  fresh c1 -> fresh c2 -> session_run (session_init c1 c2 now1 now2) tr s ->
  exists p, run (mkPipe defaultSendWindow [] false) (pipe_events i x tr) p.
Proof.
  intros H1 H2 Hrun. destruct (session_run_inv _ _ _ Hrun (session_init_inv _ _ _ _ H1 H2)) as (ws & wc & Hi).
  by eapply session_pipe.
Qed.

Lemma session_refines_pipes_witness :
  exists p, run (mkPipe defaultSendWindow [] false) [EvWrite [x01; x02]; EvClose] p.
Proof.
  destruct demo_sent as (s & Hrun & _).
  exact (session_refines_pipes _ _ 0 0 _ s 0 SideA demo_fresh demo_fresh Hrun).
Defined.




