(* ===== verification/SessionEnd.v ===== *)
(** * The end of a control connection

    What the readers of the channels see when the connection under them is lost
    ([readLoop] fails and calls [closeAll]) or closed ([CtrlConn.Close], by the
    program or by [KeepAlive] on a dead peer): [src/relay/ctrlconn.go]. *)
From S2P Require Import Prelude Conn Frame Stream Mux Transport FlowControl Link Session Multiplex Relay.

Definition end_of (x : side) (s : session) : CtrlConn := match x with SideA => se_srv s | SideB => se_cli s end.

(** The ways in which one end of a session ends. *)
Inductive session_end (cc : CtrlConn) : CtrlConn -> Prop :=
  | end_read now :                   (* the connection fails under the read loop *)
      cc_loop cc = LoopReading -> cc_loop (readLoop_step now cc) = LoopDone ->
      session_end cc (readLoop_step now cc)
  | end_close : session_end cc (cc_Close cc)
  | end_dead now timeout cc' :       (* the peer has been silent for too long *)
      KeepAlive_tick now timeout cc = (false, cc') -> session_end cc cc'.

(** Reads with a buffer of [n] bytes until one fails: the bytes and the error,
    as [io.CopyBuffer] gets them; [None] when a read blocks. *)
Fixpoint ReadAll (fuel n l : nat) (cc : CtrlConn) : option (list byte * error * CtrlConn) :=
  match fuel with
  | O => None
  | S fuel =>
      match chan_Read l n cc with
      | None => None
      | Some (Err e, cc) => Some ([], e, cc)
      | Some (Ok d, cc) =>
          match ReadAll fuel n l cc with
          | Some (d', e, cc) => Some (d ++ d', e, cc)
          | None => None
          end
      end
  end.

(** ** Lemmas *)

Lemma KeepAlive_dead now timeout cc cc' : KeepAlive_tick now timeout cc = (false, cc') -> cc' = cc_Close cc.
Proof. unfold KeepAlive_tick. case_decide; congruence. Qed.

(** Whatever ends it, the table is empty and every channel that was in it has
    [io.EOF] behind its buffer. *)
Lemma session_end_channels cc cc' :
  session_end cc cc' ->
  cc_channels cc' = ∅
  /\ forall id l ch, cc_channels cc !! id = Some l -> cc_store cc !! l = Some ch ->
       cc_store cc' !! l = Some (set_rerr (Some EOF) ch).
Proof.
  intros H. assert (forall id l ch, cc_channels cc !! id = Some l -> cc_store cc !! l = Some ch ->
    cc_store (cc_Close cc) !! l = Some (set_rerr (Some EOF) ch)) as Hc by (intros; by eapply closeAll_in_table).
  destruct H as [now Hr Hd| |now timeout cc' ->%KeepAlive_dead]; [|done|done].
  destruct (readLoop_end now cc Hr Hd) as (H1 & H2 & _). done.
Qed.

(** A channel with an error behind its buffer is read to the end. *)
Lemma ReadAll_drains n l e : (0 < n)%nat -> forall fuel ch cc,
  cc_store cc !! l = Some ch -> ch_rerr ch = Some e -> (length (ch_rb ch) < fuel)%nat ->
  exists cc', ReadAll fuel n l cc = Some (ch_rb ch, e, cc').
Proof.
  intros Hn fuel. induction fuel as [|fuel IH]; intros ch cc Hch He Hf; [lia|]. cbn [ReadAll]. unfold chan_Read. rewrite Hch.
  destruct (ch_rb ch) as [|b rb] eqn:Erb.
  - unfold Read. rewrite Erb, He. by eexists.
  - destruct (Read n ch) as [d ch' u| |] eqn:Er; [|unfold Read in Er; by rewrite Erb in Er..].
    assert (d = take n (b :: rb)) as Hd by (unfold Read in Er; rewrite Erb in Er; congruence).
    apply Read_data in Er as (Hrb & Hch' & _). rewrite Erb in Hrb.
    set (cc1 := match u with Some f => _ | None => _ end).
    assert (cc_store cc1 !! l = Some ch') as Hst.
    { assert (cc_store cc1 = cc_store (on_channel (fun _ => ch') l cc)) as ->
        by (unfold cc1; destruct u as [f|]; [|done]; by destruct (send_set_conn f (on_channel (fun _ => ch') l cc)) as [c ->]).
      unfold on_channel. simpl. by rewrite list_lookup_alter_eq, Hch. }
    destruct (IH ch' cc1 Hst) as [cc' ->].
    + by rewrite Hch'.
    + rewrite Hrb, length_app in Hf. rewrite Hd in Hf. destruct n; [lia|]. simpl in Hf. lia.
    + eexists. by rewrite Hrb.
Qed.

(** What an end of a live session has read and still holds is a prefix of what
    the other end wrote. *)
Lemma session_received tr s ws wc x i ch :
  session_inv tr s ws wc -> cc_store (end_of x s) !! i = Some ch -> ch_status ch <> chClosed ->
  exists rest, written (pipe_events i (other x) tr) = (received (pipe_events i (other x) tr) ++ ch_rb ch) ++ rest
    /\ (ch_rerr ch <> None -> rest = []).
Proof.
  intros H Hch Hst. unfold pipe_events. destruct x; simpl in *.
  - pose proof (chid_range _ _ _ _ _ _ H Hch) as Hid. pose proof (si_link _ _ _ _ H i ch Hch) as Hk. apply link_inv_swap in Hk.
    destruct (link_received _ _ _ _ Hid Hk Hst) as (rest & Hw & He). rewrite events_of_flip in Hw. exists rest. split; [done|].
    intros Hn. by apply He.
  - destruct (cli_in_srv _ _ _ _ _ _ H Hch) as (cs & Hcs & Hp). pose proof (chid_range _ _ _ _ _ _ H Hcs) as Hid.
    pose proof (si_link _ _ _ _ H i cs Hcs) as Hk. rewrite Hp in Hk.
    destruct (link_received _ _ _ _ Hid Hk Hst) as (rest & Hw & He). exists rest. split; [done|]. intros Hn. by apply He.
Qed.

(** A reader of a channel that was open gets its buffer and then [io.EOF]. *)
Lemma lost_reads tr s ws wc x cc' i n ch :
  session_inv tr s ws wc -> session_end (end_of x s) cc' -> cc_store (end_of x s) !! i = Some ch -> ch_status ch <> chClosed ->
  (0 < n)%nat -> exists cc'', ReadAll (S (length (ch_rb ch))) n i cc' = Some (ch_rb ch, EOF, cc'').
Proof.
  intros H Hend Hch Hst Hn. destruct (session_end_channels _ _ Hend) as [_ Hstore].
  assert (end_ok (end_of x s)) as Hok by (destruct x; apply H).
  assert (cc_channels (end_of x s) !! chid i = Some i) as Htab by (apply (eo_table _ Hok); split; [done|]; by exists ch).
  apply (ReadAll_drains n i EOF Hn _ (set_rerr (Some EOF) ch) cc' (Hstore _ _ _ Htab Hch) eq_refl). simpl. lia.
Qed.

(** ** Properties *)


(** A session whose connection is cut while two bytes are on the way: the
    client knows the channel, the server has written to it and not closed. *)
Lemma demo_cut :
  exists s ch, session_run demo_start [(0%nat, (SideA, EvWrite [x01; x02]))] s
    /\ cc_store (se_cli s) !! 0%nat = Some ch /\ ch_status ch = chOpen /\ ch_rb ch = []
    /\ cc_loop (se_cli s) = LoopReading /\ cc_loop (readLoop_step 0 (se_cli s)) = LoopDone.
Proof.
  eexists. eexists. split.
  - quietly ltac:(eapply (st_open _ "t")).
    quietly ltac:(eapply (st_down ?[s] (se_down ?s) [])).
    quietly ltac:(eapply (st_cli_loop _ 0)).
    at_server (0%nat, (Out, EvWrite [x01; x02])) ltac:(eapply (op_write _ 0 [x01; x02])).
    constructor.
  - split_and!; vm_compute; reflexivity.
Qed.


(** The reader cannot tell a lost connection from the end of a stream:
    [closeAll] gives [io.EOF], not the error of the connection.  Here the two
    bytes the server sent are lost and it never closed its side, but the
    client's read returns [io.EOF], so that its relay ends without an error and
    closes the connection to the target as if it had everything. *)
Theorem loss_looks_like_end :
  exists tr s cc' cc'' c', session_run demo_start tr s /\ session_end (se_cli s) cc'
    /\ written (pipe_events 0 SideA tr) = [x01; x02] /\ EvClose ∉ pipe_events 0 SideA tr
    /\ received (pipe_events 0 SideA tr) = [] /\ ReadAll 1 512 0 cc' = Some ([], EOF, cc'')
    /\ copier_eof copier_init = Some c' /\ cp_err c' = None /\ copier_close c' <> None.
Proof.
  destruct demo_cut as (s & ch & Hrun & Hch & Hst & Hrb & Hl & Hd).
  destruct (session_run_inv _ _ _ Hrun (session_init_inv _ _ _ _ demo_fresh demo_fresh)) as (ws & wc & Hi).
  pose proof (end_read _ 0 Hl Hd) as Hend.
  destruct (lost_reads _ _ _ _ SideB _ _ 512 ch Hi Hend Hch ltac:(by rewrite Hst) ltac:(lia)) as [cc'' Hread].
  rewrite Hrb in Hread. do 5 eexists. split; [exact Hrun|]. split; [exact Hend|]. split; [reflexivity|]. split; [by intros [?|?%elem_of_nil]%elem_of_cons|].
  split; [reflexivity|]. split; [exact Hread|]. split; [reflexivity|]. split; [reflexivity|discriminate].
Qed.
