(* ===== verification/Proxy.v ===== *)
(** * The TCP proxies ([src/relay/tcpproxy.go], [chainproxy.go] and the server
    part of [socks5proxy.go])

    The three have one shape: a listener, a goroutine per accepted connection
    that reaches the other side and relays, counters under a lock.  What
    differs is how a connection gets its other side: [Proxy] dials [dialAddr],
    [ChainProxy] its first hop, [SocksProxy] runs the handshake of [Socks5.v]
    and dials the address it names.  The outcome of that is an argument. *)
From S2P Require Import Prelude Transport Stream FlowControl Relay.

(** A goroutine of [handle]. *)
Inductive handler :=
  | HConnecting                  (* before the other side is reached *)
  | HRelaying                    (* in [Relay] *)
  | HFinished (s : Stats)        (* returned after [Relay] *)
  | HFailed.                     (* returned without an other side *)

Record Proxy := mkProxy {
  px_closed : bool;
  px_done : bool;                (* [done] is closed *)
  px_stats : Stats;
  px_connCount : Z;
  px_handlers : list handler;
}.

Definition zero_stats : Stats := mkStats 0 0 None None.
Definition NewProxy : Proxy := mkProxy false false zero_stats 0 [].

(** The other side: [Proxy] has one address, [ChainProxy] a list of hops of
    which it dials the first; its constructor makes no proxy without hops. *)
Definition NewChainProxy (hops : list string) : option (string * Proxy) :=
  match hops with [] => None | h :: _ => Some (h, NewProxy) end.

(** What [Serve] returns when [Accept] fails with [err]. *)
Definition Serve_return (err : error) (p : Proxy) : result unit :=
  if px_closed p then Ok tt else Err err.

Definition accept (p : Proxy) : Proxy :=
  mkProxy (px_closed p) (px_done p) (px_stats p) (px_connCount p) (px_handlers p ++ [HConnecting]).

(** The other side of connection [i] is reached, or not. *)
Definition handle_dial (i : nat) (ok : bool) (p : Proxy) : Proxy :=
  if ok
  then mkProxy (px_closed p) (px_done p) (px_stats p) (int64 (px_connCount p + 1)) (<[i := HRelaying]> (px_handlers p))
  else mkProxy (px_closed p) (px_done p) (px_stats p) (px_connCount p) (<[i := HFailed]> (px_handlers p)).

(** [p.stats] after a relay with result [s]. *)
Definition add_stats (p s : Stats) : Stats :=
  mkStats (int64 (SentBytes p + SentBytes s)) (int64 (RecvBytes p + RecvBytes s))
    (match SentErr s with Some e => Some e | None => SentErr p end)
    (match RecvErr s with Some e => Some e | None => RecvErr p end).

Definition handle_finish (i : nat) (s : Stats) (p : Proxy) : Proxy :=
  mkProxy (px_closed p) (px_done p) (add_stats (px_stats p) s) (int64 (px_connCount p - 1))
    (<[i := HFinished s]> (px_handlers p)).

Definition proxy_Close (p : Proxy) : Proxy :=
  mkProxy true true (px_stats p) (px_connCount p) (px_handlers p).

Inductive proxy_step (p : Proxy) : Proxy -> Prop :=
  | pxs_accept : px_closed p = false -> proxy_step p (accept p)
  | pxs_dial i ok : px_handlers p !! i = Some HConnecting -> proxy_step p (handle_dial i ok p)
  | pxs_finish i ab ba s :
      px_handlers p !! i = Some HRelaying -> Relay ab ba = Some s -> proxy_step p (handle_finish i s p)
  | pxs_close : proxy_step p (proxy_Close p).

(** What the handlers add up to. *)
Definition relaying (h : handler) : Z := match h with HRelaying => 1 | _ => 0 end.
Definition sent (h : handler) : Z := match h with HFinished s => SentBytes s | _ => 0 end.
Definition recvd (h : handler) : Z := match h with HFinished s => RecvBytes s | _ => 0 end.
Definition total (f : handler -> Z) (hs : list handler) : Z := foldr (fun h z => f h + z) 0 hs.

Record proxy_inv (p : Proxy) : Prop := {
  pi_count : px_connCount p = int64 (total relaying (px_handlers p));
  pi_sent : SentBytes (px_stats p) = int64 (total sent (px_handlers p));
  pi_recv : RecvBytes (px_stats p) = int64 (total recvd (px_handlers p));
  pi_done : px_done p = px_closed p;
  pi_err : forall e, SentErr (px_stats p) = Some e -> exists s, HFinished s ∈ px_handlers p /\ SentErr s = Some e;
  pi_noerr : SentErr (px_stats p) = None -> forall s, HFinished s ∈ px_handlers p -> SentErr s = None;
}.

(** ** Lemmas *)

Lemma total_snoc f hs h : total f (hs ++ [h]) = total f hs + f h.
Proof. unfold total. rewrite foldr_app. simpl. induction hs as [|z l IH]; simpl; lia. Qed.

Lemma total_insert f hs i h h' : hs !! i = Some h -> total f (<[i := h']> hs) = total f hs - f h + f h'.
Proof.
  revert i. induction hs as [|x hs IH]; intros i Hi; [done|]. unfold total in *.
  destruct i as [|i]; simpl in *; [injection Hi as ->; lia|]. rewrite (IH i Hi). lia.
Qed.

Lemma finished_insert (hs : list handler) (i : nat) h h' s :
  hs !! i = Some h -> (forall s, h <> HFinished s) ->
  HFinished s ∈ <[i := h']> hs <-> h' = HFinished s \/ HFinished s ∈ hs.
Proof.
  intros Hi Hh. assert (i < length hs)%nat as Hlt by (by eapply lookup_lt_Some).
  rewrite !list_elem_of_lookup. split.
  - intros [j Hj]. apply list_lookup_insert_Some in Hj as [(_ & ? & _)|[_ Hj]]; [by left|right; by exists j].
  - intros [->|[j Hj]]; [exists i; by apply list_lookup_insert_eq|]. exists j.
    rewrite list_lookup_insert_ne; [done|]. intros <-. rewrite Hi in Hj. by injection Hj as ->; destruct (Hh s).
Qed.

Lemma finished_snoc (hs : list handler) s : HFinished s ∈ hs ++ [HConnecting] <-> HFinished s ∈ hs.
Proof. rewrite elem_of_app, list_elem_of_singleton. naive_solver. Qed.

#[export] Instance proxy_preserves : Preserves proxy_step proxy_inv.
Proof.
  intros p p' Hs []. destruct Hs as [Hc|i ok Hi|i ab ba s Hi Hr|].
  - constructor; simpl; rewrite ?total_snoc; simpl; rewrite ?Z.add_0_r; try done; setoid_rewrite finished_snoc; done.
  - destruct ok; constructor; simpl; rewrite ?(total_insert _ _ _ _ _ Hi); simpl; rewrite ?Z.sub_0_r, ?Z.add_0_r; try done.
    + rewrite pi_count0, int64_add_l. f_equal. 
    + intros e He. destruct (pi_err0 e He) as (s & Hs & Hse). exists s. split; [|done].
      apply (finished_insert _ _ _ _ _ Hi); [done|by right].
    + intros Hn s Hs. apply (finished_insert _ _ _ _ _ Hi) in Hs as [?|?]; [done|by apply pi_noerr0|done].
    + intros e He. destruct (pi_err0 e He) as (s & Hs & Hse). exists s. split; [|done].
      apply (finished_insert _ _ _ _ _ Hi); [done|by right].
    + intros Hn s Hs. apply (finished_insert _ _ _ _ _ Hi) in Hs as [?|?]; [done|by apply pi_noerr0|done].
  - constructor; simpl; rewrite ?(total_insert _ _ _ _ _ Hi); simpl; try done.
    + rewrite pi_count0. unfold Z.sub. rewrite int64_add_l. f_equal. lia.
    + rewrite pi_sent0, int64_add_l. f_equal. lia.
    + rewrite pi_recv0, int64_add_l. f_equal. lia.
    + intros e. destruct (SentErr s) as [e'|] eqn:Es.
      * intros [= ->]. exists s. split; [|done]. apply (finished_insert _ _ _ _ _ Hi); [done|by left].
      * intros He. destruct (pi_err0 e He) as (x & Hx & Hxe). exists x. split; [|done].
        apply (finished_insert _ _ _ _ _ Hi); [done|by right].
    + destruct (SentErr s) as [e'|] eqn:Es; [done|]. intros Hn x Hx.
      apply (finished_insert _ _ _ _ _ Hi) in Hx as [[= <-]|?]; [done|by apply pi_noerr0|done].
  - by constructor.
Qed.

Lemma NewProxy_inv : proxy_inv NewProxy.
Proof. constructor; try done. simpl. intros _ s Hs. set_solver. Qed.

(** ** Properties *)


(** One connection is relayed with a write error, another is being relayed. *)
Definition demo_copier (n : Z) (e : option error) : copier := mkCopier HalfClosed n e.
Definition demo_proxy : Proxy :=
  handle_finish 0 (mkStats 5 7 (Some (OsError "EPIPE")) None) (handle_dial 1 true (handle_dial 0 true (accept (accept NewProxy)))).

