(* ===== verification/RemoteServer.v ===== *)
(** * The remote server's public listeners ([src/relay/remoteserver.go])

    A control connection is a pointer, here a number; [rs_dead] are those whose
    [Done] channel is closed.  Shared listeners live in a store that only
    grows, [rs_listeners] and the goroutines hold indices into it.  Every
    critical section of [rs.mu] and [sl.mu] is one step; the part of
    [detachSharedListener] and of [Close] that runs outside the locks is a
    list of pending closers, so that everything may happen in between. *)
From S2P Require Import Prelude.

Record sharedListener := mkSL {
  sl_port : Z;
  sl_bindAddr : string;
  sl_ln_open : bool;              (* the operating system's listener *)
  sl_conns : gmap nat string;     (* control conn -> target address *)
  sl_order : list nat;            (* round-robin order *)
  sl_next : nat;                  (* index of the next control conn to use *)
  sl_closed : bool;
}.

Notation listenerKey := (Z * string)%type.
Definition sl_key (sl : sharedListener) : listenerKey := (sl_port sl, sl_bindAddr sl).

Definition sl_set (conns : gmap nat string) (order : list nat) (next : nat) (sl : sharedListener) :=
  mkSL (sl_port sl) (sl_bindAddr sl) (sl_ln_open sl) conns order next (sl_closed sl).
Definition sl_set_closed (sl : sharedListener) : sharedListener :=
  mkSL (sl_port sl) (sl_bindAddr sl) (sl_ln_open sl) (sl_conns sl) (sl_order sl) (sl_next sl) true.
Definition sl_close_ln (sl : sharedListener) : sharedListener :=
  mkSL (sl_port sl) (sl_bindAddr sl) false (sl_conns sl) (sl_order sl) (sl_next sl) (sl_closed sl).

Definition defaultBindAddr (addr : string) : string :=
  if decide (addr = "") then "0.0.0.0" else addr.

(** [listenTunnel]: the outcomes of the successive [net.Listen] calls, each
    with the clock and whether the control connection is dead when it
    returns; [None] when it has not returned yet. *)
Fixpoint listenTunnel (deadline : Z) (attempts : list (result unit * Z * bool)) : option (result unit) :=
  match attempts with
  | [] => None
  | (Ok _, _, _) :: _ => Some (Ok tt)
  | (Err e, now, dead) :: rest =>
      if decide (now > deadline) then Some (Err e)
      else if (dead : bool) then Some (Err e)
      else listenTunnel deadline rest
  end.

(** The critical section of [dispatch]: the control connection and target
    chosen for the accepted connection, [None] when it is closed instead. *)
Definition dispatch (sl : sharedListener) : option (nat * string) * sharedListener :=
  match sl_order sl with
  | [] => (None, sl)
  | o => let cc := default 0%nat (o !! (sl_next sl `mod` length o)%nat) in
      (Some (cc, default "" (sl_conns sl !! cc)),
       sl_set (sl_conns sl) o ((sl_next sl + 1) `mod` length o)%nat sl)
  end.

(** The critical section of [attachSharedListener] on an open listener. *)
Definition sl_attach (cc : nat) (target : string) (sl : sharedListener) : sharedListener :=
  match sl_conns sl !! cc with
  | None => sl_set (<[cc := target]> (sl_conns sl)) (sl_order sl ++ [cc]) (sl_next sl) sl
  | Some _ => sl_set (<[cc := target]> (sl_conns sl)) (sl_order sl) (sl_next sl) sl
  end.

(** The index of the first occurrence of [cc]. *)
Fixpoint index_of (cc : nat) (l : list nat) : option nat :=
  match l with
  | [] => None
  | c :: l => if decide (c = cc) then Some 0%nat else S <$> index_of cc l
  end.

(** The critical section of [detachSharedListener]: the listener afterwards and
    [shouldClose], or nothing when [cc] is not registered. *)
Definition sl_detach (cc : nat) (sl : sharedListener) : option (sharedListener * bool) :=
  match sl_conns sl !! cc with
  | None => None
  | Some _ =>
      let conns := delete cc (sl_conns sl) in
      let '(order, next) :=
        match index_of cc (sl_order sl) with
        | None => (sl_order sl, sl_next sl)
        | Some idx =>
            let order := take idx (sl_order sl) ++ drop (S idx) (sl_order sl) in
            let next := if decide (idx < sl_next sl)%nat then pred (sl_next sl) else sl_next sl in
            (order, if decide (length order <= next)%nat then 0%nat else next)
        end in
      Some (sl_set conns order next sl, bool_decide (length order = 0%nat))
  end.

(** A goroutine in [sl.Close] or after it: about to take the lock, to close the
    operating system's listener, or past it; [cl_detach] when it is
    [detachSharedListener] and will then drop the table entry. *)
Inductive close_phase := PClose | PLn | PRemove.

Record closer := mkCloser { cl_sl : nat; cl_phase : close_phase; cl_detach : bool }.

Record RemoteServer := mkRS {
  rs_conns : gset nat;
  rs_closed : bool;
  rs_listeners : gmap listenerKey nat;
  rs_store : list sharedListener;
  rs_closers : list closer;
  rs_dead : gset nat;
}.

Definition NewRemoteServer : RemoteServer := mkRS ∅ false ∅ [] [] ∅.

Definition rs_set_conns (c : gset nat) (rs : RemoteServer) : RemoteServer :=
  mkRS c (rs_closed rs) (rs_listeners rs) (rs_store rs) (rs_closers rs) (rs_dead rs).
Definition rs_set_listeners (m : gmap listenerKey nat) (rs : RemoteServer) : RemoteServer :=
  mkRS (rs_conns rs) (rs_closed rs) m (rs_store rs) (rs_closers rs) (rs_dead rs).
Definition rs_set_store (st : list sharedListener) (rs : RemoteServer) : RemoteServer :=
  mkRS (rs_conns rs) (rs_closed rs) (rs_listeners rs) st (rs_closers rs) (rs_dead rs).
Definition rs_set_closers (cl : list closer) (rs : RemoteServer) : RemoteServer :=
  mkRS (rs_conns rs) (rs_closed rs) (rs_listeners rs) (rs_store rs) cl (rs_dead rs).

Definition trackConn (cc : nat) (rs : RemoteServer) : bool * RemoteServer :=
  if rs_closed rs then (false, rs) else (true, rs_set_conns ({[cc]} ∪ rs_conns rs) rs).

Definition untrackConn (cc : nat) (rs : RemoteServer) : RemoteServer :=
  rs_set_conns (rs_conns rs ∖ {[cc]}) rs.

(** The end of [attachSharedListener]: bind and enter a fresh listener. *)
Definition attach_new (port : Z) (bindAddr target : string) (cc : nat) (listen : result unit)
    (rs : RemoteServer) : result nat * RemoteServer :=
  match listen with
  | Err e => (Err e, rs)
  | Ok _ =>
      let sl := mkSL port bindAddr true {[cc := target]} [cc] 0%nat false in
      let l := length (rs_store rs) in
      (Ok l, rs_set_listeners (<[(port, bindAddr) := l]> (rs_listeners rs))
               (rs_set_store (rs_store rs ++ [sl]) rs))
  end.

(** [attachSharedListener]; [listen] is what [listenTunnel] returns if it is
    called. *)
Definition attachSharedListener (port : Z) (bindAddr target : string) (cc : nat) (listen : result unit)
    (rs : RemoteServer) : result nat * RemoteServer :=
  let key := (port, bindAddr) in
  if rs_closed rs then (Err (Errorf "server closed" []), rs) else
  match l ← rs_listeners rs !! key; sl ← rs_store rs !! l; Some (l, sl) with
  | Some (l, sl) =>
      if sl_closed sl
      then attach_new port bindAddr target cc listen (rs_set_listeners (delete key (rs_listeners rs)) rs)
      else (Ok l, rs_set_store (<[l := sl_attach cc target sl]> (rs_store rs)) rs)
  | None => attach_new port bindAddr target cc listen rs
  end.

(** [detachSharedListener] up to [sl.mu.Unlock]; a goroutine that has to close
    the listener becomes a closer. *)
Definition detachSharedListener (l cc : nat) (rs : RemoteServer) : RemoteServer :=
  match sl ← rs_store rs !! l; sl_detach cc sl with
  | None => rs
  | Some (sl, shouldClose) =>
      let rs := rs_set_store (<[l := sl]> (rs_store rs)) rs in
      if (shouldClose : bool) then rs_set_closers (rs_closers rs ++ [mkCloser l PClose true]) rs else rs
  end.

(** One step of the [i]-th closer: [sl.Close] under [sl.mu], then [ln.Close],
    then (for a detach) the table entry under [rs.mu]. *)
Definition closer_step (i : nat) (rs : RemoteServer) : RemoteServer :=
  match c ← rs_closers rs !! i; sl ← rs_store rs !! (cl_sl c); Some (c, sl) with
  | None => rs
  | Some (mkCloser l ph det, sl) =>
      let goto ph := <[i := mkCloser l ph det]> (rs_closers rs) in
      match ph with
      | PClose =>
          if sl_closed sl then rs_set_closers (goto PRemove) rs
          else rs_set_closers (goto PLn) (rs_set_store (<[l := sl_set_closed sl]> (rs_store rs)) rs)
      | PLn => rs_set_closers (goto PRemove) (rs_set_store (<[l := sl_close_ln sl]> (rs_store rs)) rs)
      | PRemove =>
          let rs := rs_set_closers (delete i (rs_closers rs)) rs in
          if decide (det = true /\ rs_listeners rs !! sl_key sl = Some l)
          then rs_set_listeners (delete (sl_key sl) (rs_listeners rs)) rs else rs
      end
  end.

(** [Close] under [rs.mu]; the loop over the listeners becomes closers. *)
Definition rs_Close (rs : RemoteServer) : RemoteServer :=
  if rs_closed rs then rs else
  mkRS (rs_conns rs) true (rs_listeners rs) (rs_store rs)
    (rs_closers rs ++ ((fun l => mkCloser l PClose false) <$> (map_to_list (rs_listeners rs)).*2))
    (rs_dead rs).

(** [acceptLoop] hands an accepted connection to [dispatch]. *)
Definition rs_dispatch (l : nat) (rs : RemoteServer) : option (nat * string) * RemoteServer :=
  match rs_store rs !! l with
  | None => (None, rs)
  | Some sl => let '(r, sl) := dispatch sl in (r, rs_set_store (<[l := sl]> (rs_store rs)) rs)
  end.

(** The steps of the server's goroutines. *)
Inductive rs_step (rs : RemoteServer) : RemoteServer -> Prop :=
  | rss_track cc b rs' : trackConn cc rs = (b, rs') -> rs_step rs rs'
  | rss_untrack cc : rs_step rs (untrackConn cc rs)
  | rss_attach port bind target cc listen r rs' :
      attachSharedListener port bind target cc listen rs = (r, rs') -> rs_step rs rs'
  | rss_dispatch l r rs' :      (* for a connection accepted earlier *)
      rs_dispatch l rs = (r, rs') -> rs_step rs rs'
  | rss_die cc : rs_step rs (mkRS (rs_conns rs) (rs_closed rs) (rs_listeners rs) (rs_store rs)
                              (rs_closers rs) ({[cc]} ∪ rs_dead rs))
  | rss_detach l cc : cc ∈ rs_dead rs -> rs_step rs (detachSharedListener l cc rs)
  | rss_closer i : rs_step rs (closer_step i rs)
  | rss_close : rs_step rs (rs_Close rs).

(** The invariant of one listener. *)
Definition sl_ok (sl : sharedListener) : Prop :=
  NoDup (sl_order sl) /\ (forall cc, cc ∈ sl_order sl <-> is_Some (sl_conns sl !! cc))
  /\ (sl_next sl < length (sl_order sl) \/ sl_order sl = [] /\ sl_next sl = 0)%nat.

(** The invariant of the server: listeners are well formed, the table maps a
    key to the listener bound to it, a listener that is closed or has no
    client is in the table only while somebody is taking it down, and an open
    operating-system listener is in the table or about to be closed. *)
Record rs_inv (rs : RemoteServer) : Prop := {
  ri_sl : Forall sl_ok (rs_store rs);
  ri_key : forall k l, rs_listeners rs !! k = Some l -> exists sl, rs_store rs !! l = Some sl /\ sl_key sl = k;
  ri_live : forall k l sl, rs_listeners rs !! k = Some l -> rs_store rs !! l = Some sl ->
    sl_closed sl = true \/ sl_order sl = [] ->
    rs_closed rs = true \/ exists ph, mkCloser l ph true ∈ rs_closers rs;
  ri_table : forall l sl, rs_store rs !! l = Some sl -> sl_closed sl = false ->
    rs_listeners rs !! sl_key sl = Some l;
  ri_ln : forall l sl, rs_store rs !! l = Some sl -> sl_closed sl = true -> sl_ln_open sl = true ->
    exists det, mkCloser l PLn det ∈ rs_closers rs;
  ri_ph : forall l sl ph det, rs_store rs !! l = Some sl -> mkCloser l ph det ∈ rs_closers rs -> ph <> PClose ->
    sl_closed sl = true;
  ri_cl : rs_closed rs = true -> forall l sl, rs_store rs !! l = Some sl -> sl_closed sl = false ->
    exists det, mkCloser l PClose det ∈ rs_closers rs;
  ri_valid : Forall (fun c => cl_sl c < length (rs_store rs))%nat (rs_closers rs);
  ri_open : Forall (fun sl => sl_closed sl = false -> sl_ln_open sl = true) (rs_store rs);
}.

(** The control connections in the order in which they will be used next. *)
Definition upcoming (sl : sharedListener) : list nat :=
  drop (sl_next sl) (sl_order sl) ++ take (sl_next sl) (sl_order sl).

(** The control connections picked for the next [n] public connections. *)
Fixpoint dispatches (n : nat) (sl : sharedListener) : list nat * sharedListener :=
  match n with
  | O => ([], sl)
  | S n =>
      match dispatch sl with
      | (None, sl) => dispatches n sl
      | (Some (cc, _), sl) => let '(ps, sl) := dispatches n sl in (cc :: ps, sl)
      end
  end.

(** ** Lemmas on one listener *)

Lemma index_of_spec cc l : cc ∈ l -> exists a b, l = a ++ cc :: b /\ index_of cc l = Some (length a) /\ cc ∉ a.
Proof.
  induction l as [|c l IH]; [set_solver|]. intros Hin. simpl. case_decide as Hc.
  - exists [], l. subst c. split_and!; [done|done|set_solver].
  - destruct IH as (a & b & -> & -> & Ha); [set_solver|]. exists (c :: a), b. split_and!; [done|done|set_solver].
Qed.

Lemma NoDup_app_cons (a b : list nat) c : NoDup (a ++ c :: b) -> NoDup (a ++ b) /\ c ∉ a /\ c ∉ b.
Proof.
  rewrite !NoDup_app, NoDup_cons. intros (Ha & Hab & Hc & Hb). split_and!; try done.
  - intros x Hx Hxb. apply (Hab x Hx). by right.
  - intros Hca. apply (Hab c Hca). by left.
Qed.

Lemma filter_not_in (cc : nat) (l : list nat) : cc ∉ l -> filter (.≠ cc) l = l.
Proof.
  induction l as [|x l IH]; [done|]. intros [Hx Hl]%not_elem_of_cons. rewrite filter_cons_True by done.
  by rewrite IH.
Qed.

Lemma in_drop_take (x : nat) n (l : list nat) : x ∈ drop n l \/ x ∈ take n l -> x ∈ l.
Proof. rewrite <-(take_drop n l) at 3. set_solver. Qed.

Lemma sl_ok_upcoming sl : sl_ok sl -> upcoming sl ≡ₚ sl_order sl.
Proof. intros _. unfold upcoming. by rewrite (comm (++)), take_drop. Qed.

(** [dispatch] takes the head of the queue and moves it to the back. *)
Lemma dispatch_upcoming sl x q :
  sl_ok sl -> upcoming sl = x :: q ->
  exists sl', dispatch sl = (Some (x, default "" (sl_conns sl !! x)), sl')
    /\ upcoming sl' = q ++ [x] /\ sl_order sl' = sl_order sl /\ sl_conns sl' = sl_conns sl
    /\ sl_next sl' = ((sl_next sl + 1) `mod` length (sl_order sl))%nat.
Proof.
  intros (Hnd & Hdom & Hnext) Hup. unfold upcoming in Hup.
  destruct Hnext as [Hlt|[Ho _]]; [|rewrite Ho, drop_nil, take_nil in Hup; done].
  destruct (lookup_lt_is_Some_2 _ _ Hlt) as [y Hy].
  rewrite (drop_S _ y) in Hup by done. injection Hup as -> <-.
  unfold dispatch. destruct (sl_order sl) as [|o0 o] eqn:Eo; [simpl in Hlt; lia|]. rewrite <-Eo in *.
  rewrite Nat.mod_small, Hy by done. eexists. split; [done|]. split; [|done].
  unfold upcoming. cbn [sl_order sl_next sl_set].
  destruct (decide (sl_next sl + 1 = length (sl_order sl))%nat) as [E|E].
  - rewrite E, Nat.Div0.mod_same, drop_0, take_0, app_nil_r.
    rewrite (drop_ge (sl_order sl) (S _)) by lia. rewrite app_nil_l, <-(take_S_r _ _ _ Hy), take_ge by lia. done.
  - rewrite Nat.mod_small by lia. rewrite Nat.add_1_r, (take_S_r _ _ _ Hy). by rewrite app_assoc.
Qed.

Lemma sl_attach_upcoming cc target sl :
  sl_ok sl -> sl_conns sl !! cc = None ->
  exists q1 q2, upcoming sl = q1 ++ q2 /\ upcoming (sl_attach cc target sl) = q1 ++ cc :: q2.
Proof.
  intros (_ & _ & Hn) Hc. exists (drop (sl_next sl) (sl_order sl)), (take (sl_next sl) (sl_order sl)).
  split; [done|]. unfold upcoming, sl_attach. rewrite Hc. simpl.
  assert (sl_next sl <= length (sl_order sl))%nat by (destruct Hn as [?|[-> ->]]; simpl; lia).
  rewrite drop_app_le, take_app_le by done. by rewrite <-app_assoc.
Qed.

(** [detachSharedListener] takes [cc] out of the queue, the rest keeps its order. *)
Lemma sl_detach_upcoming cc sl :
  sl_ok sl -> is_Some (sl_conns sl !! cc) ->
  exists sl', sl_detach cc sl = Some (sl', bool_decide (upcoming sl' = []))
    /\ upcoming sl' = filter (.≠ cc) (upcoming sl) /\ sl_conns sl' = delete cc (sl_conns sl)
    /\ (exists a b, sl_order sl = a ++ cc :: b /\ sl_order sl' = a ++ b)
    /\ (sl_next sl' < length (sl_order sl') \/ sl_order sl' = [] /\ sl_next sl' = 0)%nat.
Proof.
  intros (Hnd & Hdom & Hnext) Hc. destruct Hc as [t Ht].
  assert (cc ∈ sl_order sl) as Hin by (by apply Hdom; exists t).
  destruct (index_of_spec cc _ Hin) as (a & b & Ho & Hidx & Ha).
  assert (cc ∉ b) as Hb. { rewrite Ho in Hnd. apply NoDup_app in Hnd as (_ & _ & Hnd). by apply NoDup_cons in Hnd as [? _]. }
  assert (forall l : list nat, cc ∉ l -> filter (.≠ cc) l = l) as Hfl.
  { intros l Hl. by apply filter_not_in. }
  unfold sl_detach. rewrite Ht, Hidx, Ho.
  assert (drop (S (length a)) (a ++ cc :: b) = b) as Hdb.
  { rewrite (cons_middle cc a b), app_assoc. apply drop_app_length'. rewrite length_app. simpl. lia. }
  rewrite take_app_length, Hdb.
  destruct Hnext as [Hlt|[Hnil _]]; [|rewrite Ho in Hnil; by destruct a].
  rewrite Ho, length_app in Hlt. simpl in Hlt.
  set (n := sl_next sl) in *. eexists. split.
  { f_equal. f_equal. apply bool_decide_ext. unfold upcoming. cbn [sl_set sl_order sl_next].
    rewrite <-length_zero_iff_nil, !length_app, length_drop, length_take, !length_app. case_decide; lia. }
  split; [|split; [done|split; [by exists a, b|]]].
  - unfold upcoming. cbn [sl_set sl_order sl_next]. fold n. rewrite Ho, filter_app.
    destruct (decide (length a < n)%nat) as [Hln|Hln].
    + rewrite decide_False by (rewrite length_app; lia).
      assert (exists k, n = S (length a + k)) as [k ->] by (exists (n - S (length a))%nat; lia).
      cbn [pred]. rewrite !drop_app_ge, !take_app_ge by lia.
      replace (S (length a + k) - length a)%nat with (S k) by lia.
      replace (length a + k - length a)%nat with k by lia. cbn [drop take].
      rewrite filter_app, filter_cons_False by (by intros ?). rewrite !Hfl; [done|..];
        intros Hx; first [by eapply Ha|by eapply Hb, in_drop_take; eauto].
    + rewrite (drop_app_le _ (cc :: b)), (take_app_le _ (cc :: b)) by lia.
      rewrite filter_app, filter_cons_False by (by intros ?).
      rewrite !Hfl by (intros Hx; eauto using in_drop_take).
      case_decide as Hle; rewrite length_app in Hle.
      * assert (b = []) as -> by (apply length_zero_iff_nil; lia).
        rewrite drop_0, take_0, !app_nil_r, drop_ge, take_ge by lia. done.
      * rewrite drop_app_le, take_app_le by lia. by rewrite <-app_assoc.
  - cbn [sl_set sl_order sl_next]. case_decide as Hle; rewrite length_app in *; [|left; lia].
    destruct (decide (length a + length b = 0)%nat) as [E|E]; [|lia].
    right. split; [|done]. apply length_zero_iff_nil. rewrite length_app. lia.
Qed.

Lemma sl_attach_ok cc target sl : sl_ok sl -> sl_ok (sl_attach cc target sl).
Proof.
  intros (Hnd & Hdom & Hn). unfold sl_attach. destruct (sl_conns sl !! cc) as [t|] eqn:E;
    unfold sl_ok; cbn [sl_set sl_order sl_conns sl_next].
  - split; [done|]. split; [|done]. intros c. rewrite Hdom, lookup_insert_is_Some'. naive_solver.
  - assert (cc ∉ sl_order sl) as Hni by (rewrite Hdom, E; by intros [? ?]). split_and!.
    + apply NoDup_app. split_and!; [done| |apply NoDup_singleton]. intros x Hx ->%list_elem_of_singleton. done.
    + intros c. rewrite elem_of_app, list_elem_of_singleton, Hdom, lookup_insert_is_Some'. naive_solver.
    + rewrite length_app. simpl. destruct Hn as [?|[-> ->]]; left; simpl; lia.
Qed.

Lemma sl_detach_ok cc sl sl' b : sl_detach cc sl = Some (sl', b) -> sl_ok sl ->
  sl_ok sl' /\ sl_key sl' = sl_key sl /\ sl_closed sl' = sl_closed sl /\ sl_ln_open sl' = sl_ln_open sl
  /\ b = bool_decide (sl_order sl' = []).
Proof.
  intros Hd Hok. assert (is_Some (sl_conns sl !! cc)) as Hc.
  { unfold sl_detach in Hd. destruct (sl_conns sl !! cc); [by eexists|done]. }
  destruct (sl_detach_upcoming cc sl Hok Hc) as (sl1 & Hd1 & _ & Hconns & (a & b0 & Ho & Ho') & Hn).
  rewrite Hd in Hd1. injection Hd1 as <- Hb. destruct Hok as (Hnd & Hdom & _). split_and!.
  - split_and!; [| |done].
    + rewrite Ho'. rewrite Ho in Hnd. by apply NoDup_app_cons in Hnd as [? _].
    + intros c. rewrite Hconns, lookup_delete_is_Some, <-Hdom, Ho, Ho'.
      rewrite Ho in Hnd. apply NoDup_app_cons in Hnd. set_solver.
  - unfold sl_detach in Hd. by repeat case_match; simplify_eq.
  - unfold sl_detach in Hd. by repeat case_match; simplify_eq.
  - unfold sl_detach in Hd. by repeat case_match; simplify_eq.
  - rewrite Hb. apply bool_decide_ext. unfold upcoming.
    rewrite <-!length_zero_iff_nil, length_app, length_drop, length_take. lia.
Qed.

Lemma dispatch_ok sl r sl' : dispatch sl = (r, sl') -> sl_ok sl ->
  sl_ok sl' /\ sl_key sl' = sl_key sl /\ sl_closed sl' = sl_closed sl /\ sl_ln_open sl' = sl_ln_open sl
  /\ sl_order sl' = sl_order sl.
Proof.
  unfold dispatch. intros Hd (Hnd & Hdom & Hn). destruct (sl_order sl) as [|o0 o] eqn:E; injection Hd as <- <-.
  - split; [|done]. split_and!; by rewrite ?E.
  - unfold sl_ok. cbn [sl_set sl_order sl_conns sl_next]. split_and!; try done.
    left. change ((sl_next sl + 1) `mod` length (o0 :: o) < length (o0 :: o))%nat. by apply Nat.mod_upper_bound.
Qed.

(** ** Lemmas on the server *)

(** Steps that change one listener but neither its key, nor whether it is
    closed, nor its operating-system listener. *)
Lemma set_sl_inv l sl sl' rs :
  rs_store rs !! l = Some sl -> sl_ok sl' -> sl_key sl' = sl_key sl -> sl_closed sl' = sl_closed sl ->
  sl_ln_open sl' = sl_ln_open sl ->
  (sl_order sl' = [] -> sl_order sl = [] \/ exists ph, mkCloser l ph true ∈ rs_closers rs) ->
  rs_inv rs -> rs_inv (rs_set_store (<[l := sl']> (rs_store rs)) rs).
Proof.
  intros Hl Hok Hkey Hcl Hln Hord [H1 H2 H3 H4 H5 H6 H7 H8 H9].
  assert (forall k x, <[l := sl']> (rs_store rs) !! k = Some x ->
    exists y, rs_store rs !! k = Some y /\ sl_key x = sl_key y /\ sl_closed x = sl_closed y
      /\ sl_ln_open x = sl_ln_open y
      /\ (sl_order x = [] -> sl_order y = [] \/ exists ph, mkCloser k ph true ∈ rs_closers rs)) as Hx.
  { intros k x [(-> & -> & _)|[_ Hk]]%list_lookup_insert_Some; [exists sl|exists x]; split_and!; auto. }
  constructor; simpl.
  - by apply Forall_insert.
  - intros k j Hk. destruct (H2 k j Hk) as (y & Hy & Hyk).
    destruct (decide (j = l)) as [->|Hjl].
    + exists sl'. rewrite list_lookup_insert_eq by (by eapply lookup_lt_Some). split; [done|]. congruence.
    + exists y. by rewrite list_lookup_insert_ne by done.
  - intros k j x Hk Hj Hc. destruct (Hx _ _ Hj) as (y & Hy & _ & Hyc & _ & Hyo).
    destruct Hc as [Hc|Hc]; [apply (H3 k j y); auto; left; congruence|].
    destruct (Hyo Hc) as [?|?]; [|by right]. apply (H3 k j y); auto.
  - intros j x Hj Hc. destruct (Hx _ _ Hj) as (y & Hy & -> & Hyc & _). apply H4; congruence.
  - intros j x Hj Hc Ho. destruct (Hx _ _ Hj) as (y & Hy & _ & Hyc & Hyo & _). apply (H5 j y); congruence.
  - intros j x ph det Hj Hin Hph. destruct (Hx _ _ Hj) as (y & Hy & _ & -> & _). by apply (H6 j y ph det).
  - intros Hrc j x Hj Hc. destruct (Hx _ _ Hj) as (y & Hy & _ & Hyc & _). apply (H7 Hrc j y); congruence.
  - by rewrite length_insert.
  - apply Forall_insert; [done|]. rewrite Forall_lookup in H9. rewrite Hcl, Hln. by apply (H9 l).
Qed.

Lemma attach_new_inv port bind target cc listen r rs rs' :
  attach_new port bind target cc listen rs = (r, rs') ->
  rs_closed rs = false -> rs_listeners rs !! (port, bind) = None -> rs_inv rs -> rs_inv rs'.
Proof.
  intros Ha Hop Hk [H1 H2 H3 H4 H5 H6 H7 H8 H9]. unfold attach_new in Ha.
  destruct listen; injection Ha as <- <-; [|done].
  set (sl := mkSL port bind true {[cc := target]} [cc] 0 false).
  assert (forall j x, (rs_store rs ++ [sl]) !! j = Some x ->
    rs_store rs !! j = Some x \/ j = length (rs_store rs) /\ x = sl) as Hx.
  { intros j x [Hj|[Hlen Hj]]%lookup_app_Some; [by left|]. right.
    apply list_lookup_singleton_Some in Hj as [Hj <-]. split; [lia|done]. }
  constructor; simpl.
  - apply Forall_app. split; [done|]. constructor; [|done]. unfold sl_ok, sl. simpl. split_and!.
    + apply NoDup_singleton.
    + intros c. rewrite list_elem_of_singleton. rewrite lookup_singleton_is_Some. naive_solver.
    + left. lia.
  - intros k j [[<- <-]|[Hne Hj]]%lookup_insert_Some.
    + exists sl. rewrite lookup_app_r, Nat.sub_diag by lia. done.
    + destruct (H2 k j Hj) as (y & Hy & ?). exists y. rewrite lookup_app_l by (by eapply lookup_lt_Some). done.
  - intros k j x [[<- <-]|[Hne Hj]]%lookup_insert_Some Hx' Hc.
    + rewrite lookup_app_r, Nat.sub_diag in Hx' by lia. injection Hx' as <-. simpl in Hc. by destruct Hc.
    + destruct (H2 k j Hj) as (y & Hy & ?). rewrite lookup_app_l in Hx' by (by eapply lookup_lt_Some).
      by apply (H3 k j x).
  - intros j x [Hj|[-> ->]]%Hx Hc; [|by rewrite lookup_insert_eq].
    rewrite lookup_insert_ne; [by apply H4|]. intros Heq. pose proof (H4 j x Hj Hc) as H. by rewrite <-Heq, Hk in H.
  - intros j x [Hj|[-> ->]]%Hx; [by apply H5|done].
  - intros j x ph det [Hj|[-> ->]]%Hx Hin Hph; [by apply (H6 j x ph det)|].
    rewrite Forall_forall in H8. specialize (H8 _ Hin). simpl in H8. lia.
  - intros ?. congruence.
  - eapply Forall_impl; [done|]. intros c. rewrite length_app. simpl. lia.
  - apply Forall_app. by split; [|constructor].
Qed.

Lemma delete_key_inv k l sl rs :
  rs_listeners rs !! k = Some l -> rs_store rs !! l = Some sl -> sl_closed sl = true ->
  rs_inv rs -> rs_inv (rs_set_listeners (delete k (rs_listeners rs)) rs).
Proof.
  intros Hk Hl Hc [H1 H2 H3 H4 H5 H6 H7 H8 H9]. constructor; simpl; try done.
  - intros k' j [_ Hj]%lookup_delete_Some. by apply H2.
  - intros k' j x [_ Hj]%lookup_delete_Some. by apply (H3 k').
  - intros j x Hj Hx. rewrite lookup_delete_ne; [by apply H4|].
    intros ->. pose proof (H4 j x Hj Hx). congruence.
Qed.

Lemma attach_inv port bind target cc listen r rs rs' :
  attachSharedListener port bind target cc listen rs = (r, rs') -> rs_inv rs -> rs_inv rs'.
Proof.
  unfold attachSharedListener. intros Ha Hi. destruct (rs_closed rs) eqn:Ec; [by injection Ha as <- <-|].
  destruct (rs_listeners rs !! (port, bind)) as [l|] eqn:Ek; simpl in Ha.
  2: by eapply attach_new_inv.
  destruct (ri_key rs Hi _ _ Ek) as (sl & Hl & Hkey). rewrite Hl in Ha. simpl in Ha.
  destruct (sl_closed sl) eqn:Es.
  - eapply attach_new_inv; [exact Ha|done|apply lookup_delete_eq|]. by eapply delete_key_inv.
  - injection Ha as <- <-. pose proof (ri_sl rs Hi) as Hsl. rewrite Forall_lookup in Hsl.
    apply (set_sl_inv l sl); try done; [by apply sl_attach_ok, (Hsl l)| | | |];
      unfold sl_attach; destruct (sl_conns sl !! cc); try done; [by left|].
    intros [_ ?]%app_nil. done.
Qed.

(** Closers may be added freely, as long as they are at the start of
    [sl.Close]. *)
Lemma add_closers_inv cls rs :
  Forall (fun c => cl_sl c < length (rs_store rs) /\ cl_phase c = PClose)%nat cls ->
  rs_inv rs -> rs_inv (rs_set_closers (rs_closers rs ++ cls) rs).
Proof.
  intros Hc [H1 H2 H3 H4 H5 H6 H7 H8 H9]. constructor; simpl; try done.
  - intros k l sl Hk Hl Hd. destruct (H3 k l sl Hk Hl Hd) as [?|[ph ?]]; [by left|].
    right. exists ph. apply elem_of_app. by left.
  - intros l sl Hl Hcl Ho. destruct (H5 l sl Hl Hcl Ho) as [det ?]. exists det. apply elem_of_app. by left.
  - intros l sl ph det Hl [Hin|Hin]%elem_of_app Hph; [by apply (H6 l sl ph det)|].
    rewrite Forall_forall in Hc. destruct (Hc _ Hin). done.
  - intros Hrc l sl Hl Hcl. destruct (H7 Hrc l sl Hl Hcl) as [det ?]. exists det. apply elem_of_app. by left.
  - apply Forall_app. split; [done|]. eapply Forall_impl; [done|]. by intros c [? _].
Qed.

Lemma detach_inv l cc rs : rs_inv rs -> rs_inv (detachSharedListener l cc rs).
Proof.
  intros Hi. unfold detachSharedListener. destruct (rs_store rs !! l) as [sl|] eqn:El; [|done]. simpl.
  destruct (sl_detach cc sl) as [[sl' b]|] eqn:Ed; [|done].
  pose proof (ri_sl rs Hi) as Hsl. rewrite Forall_lookup in Hsl.
  destruct (sl_detach_ok cc sl sl' b Ed (Hsl _ _ El)) as (Hok & Hk & Hcl & Hln & Hb).
  assert (l < length (rs_store rs))%nat as Hlt by (by eapply lookup_lt_Some).
  destruct b.
  - apply (set_sl_inv l sl sl' (rs_set_closers (rs_closers rs ++ [mkCloser l PClose true]) rs));
      try done; simpl.
    + intros _. right. exists PClose. apply elem_of_app. right. by left.
    + apply add_closers_inv; [|done]. by constructor; [|constructor].
  - apply (set_sl_inv l sl); try done. intros Hnil. by rewrite Hnil in Hb.
Qed.

Lemma rs_Close_inv rs : rs_inv rs -> rs_inv (rs_Close rs).
Proof.
  intros Hi. unfold rs_Close. destruct (rs_closed rs) eqn:Ec; [done|].
  set (cls := (fun l => mkCloser l PClose false) <$> (map_to_list (rs_listeners rs)).*2).
  assert (forall l k, rs_listeners rs !! k = Some l -> mkCloser l PClose false ∈ cls) as Hin.
  { intros l k Hk. apply list_elem_of_fmap. exists l. split; [done|].
    apply list_elem_of_fmap. exists (k, l). split; [done|]. by apply elem_of_map_to_list. }
  assert (rs_inv (rs_set_closers (rs_closers rs ++ cls) rs)) as Hi'.
  { apply add_closers_inv; [|done]. apply Forall_forall. intros c Hc.
    apply list_elem_of_fmap in Hc as (l & -> & Hl). apply list_elem_of_fmap in Hl as ([k j] & -> & Hj).
    apply elem_of_map_to_list in Hj. destruct (ri_key rs Hi _ _ Hj) as (sl & Hsl & _).
    split; [by eapply lookup_lt_Some|done]. }
  destruct Hi' as [H1 H2 H3 H4 H5 H6 H7 H8 H9]. constructor; simpl in *; try done.
  - intros k l sl Hk Hl _. by left.
  - intros _ l sl Hl Hc. exists false. apply elem_of_app. right. by apply (Hin l (sl_key sl)), H4.
Qed.

(** A pending closer other than the one that moved is still pending. *)
Lemma elem_of_moved (c d x : closer) i (cls : list closer) :
  cls !! i = Some d -> c ∈ cls -> c <> d -> c ∈ <[i := x]> cls /\ c ∈ delete i cls.
Proof.
  intros Hi [j Hj]%list_elem_of_lookup_1 Hcd. assert (i <> j) as Hij by congruence. split.
  - apply list_elem_of_lookup_2 with j. by rewrite list_lookup_insert_ne.
  - destruct (decide (j < i)%nat).
    + apply list_elem_of_lookup_2 with j. by rewrite list_lookup_delete_lt.
    + apply list_elem_of_lookup_2 with (pred j). rewrite list_lookup_delete_ge by lia.
      by replace (S (pred j)) with j by lia.
Qed.

Lemma elem_of_goto (c x : closer) i (cls : list closer) : c ∈ <[i := x]> cls -> c = x \/ c ∈ cls.
Proof.
  intros [j Hj]%list_elem_of_lookup_1. apply list_lookup_insert_Some in Hj as [(_ & -> & _)|[_ Hj]]; [by left|].
  right. by eapply list_elem_of_lookup_2.
Qed.

(** What a move of the closer [i] and an update of its listener [l] leave alone:
    the other listeners and their closers. *)
Lemma moved_lookup {l k : nat} {sl' x : sharedListener} {st : list sharedListener} :
  <[l := sl']> st !! k = Some x -> (k = l /\ x = sl') \/ (k <> l /\ st !! k = Some x).
Proof. intros [(-> & -> & _)|[? ?]]%list_lookup_insert_Some; [by left|right; auto]. Qed.

Definition det_inv (rs : RemoteServer) : Prop :=
  Forall (fun c => cl_detach c = false -> rs_closed rs = true) (rs_closers rs).

(** Common part of the three moves of a closer [c] of [l]: the listener becomes
    [sl'], closed and with the same key, and [c] becomes the closers [cls]. *)
Lemma closer_move_inv i l ph det sl sl' cls rs :
  rs_closers rs !! i = Some (mkCloser l ph det) -> rs_store rs !! l = Some sl ->
  sl_ok sl' -> sl_key sl' = sl_key sl -> sl_closed sl' = true ->
  (forall c, c ∈ rs_closers rs -> c <> mkCloser l ph det -> c ∈ cls) ->
  (forall c, c ∈ cls -> c ∈ rs_closers rs \/ cl_sl c = l) ->
  (det = true -> (exists ph', mkCloser l ph' true ∈ cls)
     \/ rs_listeners rs !! sl_key sl <> Some l) ->
  (sl_ln_open sl' = true -> exists d, mkCloser l PLn d ∈ cls) ->
  det_inv rs -> rs_inv rs ->
  rs_inv (rs_set_closers cls (rs_set_store (<[l := sl']> (rs_store rs)) rs)).
Proof.
  intros Hi Hl Hok Hkey Hcl Hkeep Honly Hdet Hln Hdi [H1 H2 H3 H4 H5 H6 H7 H8 H9].
  assert (l < length (rs_store rs))%nat as Hll by (by eapply lookup_lt_Some).
  constructor; simpl.
  - by apply Forall_insert.
  - intros k j Hk. destruct (H2 k j Hk) as (y & Hy & Hyk). destruct (decide (j = l)) as [->|].
    + exists sl'. rewrite list_lookup_insert_eq by done. split; congruence.
    + exists y. by rewrite list_lookup_insert_ne by done.
  - intros k j x Hk Hj Hd. destruct (moved_lookup Hj) as [[-> ->]|[Hne Hj']].
    + destruct (H2 k l Hk) as (y & Hy & Hyk). destruct det.
      * destruct (Hdet eq_refl) as [?|Hno]; [by right|]. by simplify_eq.
      * left. unfold det_inv in Hdi. rewrite Forall_lookup in Hdi. by apply (Hdi i _ Hi).
    + destruct (H3 k j x Hk Hj' Hd) as [?|[ph' Hph]]; [by left|]. right. exists ph'.
      apply Hkeep; [done|]. intros [=]. done.
  - intros j x Hj Hx. destruct (moved_lookup Hj) as [[-> ->]|[Hne Hj']]; [congruence|by apply H4].
  - intros j x Hj Hx Ho. destruct (moved_lookup Hj) as [[-> ->]|[Hne Hj']]; [by apply Hln|].
    destruct (H5 j x Hj' Hx Ho) as [d Hd]. exists d. apply Hkeep; [done|]. intros [=]. done.
  - intros j x ph' d Hj Hin Hph. destruct (moved_lookup Hj) as [[-> ->]|[Hne Hj']]; [done|].
    destruct (Honly _ Hin) as [Hin'|?]; [by apply (H6 j x ph' d)|done].
  - intros Hrc j x Hj Hx. destruct (moved_lookup Hj) as [[-> ->]|[Hne Hj']]; [congruence|].
    destruct (H7 Hrc j x Hj' Hx) as [d Hd]. exists d. apply Hkeep; [done|]. intros [=]. done.
  - apply Forall_forall. intros c Hc. rewrite length_insert.
    destruct (Honly _ Hc) as [Hin| ->]; [|done]. rewrite Forall_forall in H8. by apply H8.
  - apply Forall_insert; [done|]. by rewrite Hcl.
Qed.

Lemma closer_step_inv i rs : det_inv rs -> rs_inv rs -> rs_inv (closer_step i rs).
Proof.
  intros Hdi Hinv. unfold closer_step. destruct (rs_closers rs !! i) as [[l ph det]|] eqn:Ei; [|done]. simpl.
  destruct (rs_store rs !! l) as [sl|] eqn:El; [|done]. simpl.
  assert (i < length (rs_closers rs))%nat as Hlt by (by eapply lookup_lt_Some).
  assert (forall ph', mkCloser l ph' det ∈ <[i := mkCloser l ph' det]> (rs_closers rs)) as Hnew.
  { intros ph'. apply list_elem_of_lookup_2 with i. by apply list_lookup_insert_eq. }
  assert (sl_ok sl) as Hok by (pose proof (ri_sl rs Hinv) as H; rewrite Forall_lookup in H; by apply (H l)).
  assert (forall ph' c, c ∈ <[i := mkCloser l ph' det]> (rs_closers rs) -> c ∈ rs_closers rs \/ cl_sl c = l) as Honly.
  { intros ph' c [-> | ?]%elem_of_goto; [by right|by left]. }
  assert (forall ph' c, c ∈ rs_closers rs -> c <> mkCloser l ph det ->
    c ∈ <[i := mkCloser l ph' det]> (rs_closers rs)) as Hkeep.
  { intros ph' c Hc Hne. by apply (elem_of_moved c _ _ i _ Ei Hc). }
  assert (rs_store rs = <[l := sl]> (rs_store rs)) as Hid by (by rewrite list_insert_id).
  destruct ph.
  - destruct (sl_closed sl) eqn:Ec.
    + replace (rs_set_closers (<[i := mkCloser l PRemove det]> (rs_closers rs)) rs)
        with (rs_set_closers (<[i := mkCloser l PRemove det]> (rs_closers rs))
               (rs_set_store (<[l := sl]> (rs_store rs)) rs)) by (by rewrite <-Hid).
      apply (closer_move_inv i l PClose det sl); eauto.
      * intros ->. left. eauto.
      * intros Ho. destruct (ri_ln rs Hinv l sl El Ec Ho) as [d Hd]. exists d. by apply Hkeep.
    + apply (closer_move_inv i l PClose det sl); eauto. intros ->. left. eauto.
  - assert (sl_closed sl = true) as Ec by (by eapply (ri_ph rs Hinv l sl PLn); [|eapply list_elem_of_lookup_2|]).
    apply (closer_move_inv i l PLn det sl); eauto; [|done]. intros ->; left; eauto.
  - assert (sl_closed sl = true) as Ec by (by eapply (ri_ph rs Hinv l sl PRemove); [|eapply list_elem_of_lookup_2|]).
    assert (forall c, c ∈ delete i (rs_closers rs) -> c ∈ rs_closers rs \/ cl_sl c = l) as Honly'.
    { intros c Hc. left. by eapply list_elem_of_delete_inv. }
    assert (forall c, c ∈ rs_closers rs -> c <> mkCloser l PRemove det -> c ∈ delete i (rs_closers rs)) as Hkeep'.
    { intros c Hc Hne. by apply (elem_of_moved c _ (mkCloser l PRemove det) i _ Ei Hc). }
    assert (sl_ln_open sl = true -> exists d, mkCloser l PLn d ∈ delete i (rs_closers rs)) as Hln.
    { intros Ho. destruct (ri_ln rs Hinv l sl El Ec Ho) as [d Hd]. exists d. by apply Hkeep'. }
    case_decide as Hk; [destruct Hk as [-> Hk]|].
    + replace (rs_set_listeners _ _) with (rs_set_closers (delete i (rs_closers rs)) (rs_set_store (<[l := sl]> (rs_store rs))
        (rs_set_listeners (delete (sl_key sl) (rs_listeners rs)) rs))) by (by rewrite <-Hid).
      apply (closer_move_inv i l PRemove true sl sl (delete i (rs_closers rs))
        (rs_set_listeners (delete (sl_key sl) (rs_listeners rs)) rs)); [done|done|done|done|done|done|done| |done|exact Hdi|].
      * intros _. right. simpl. by rewrite lookup_delete_eq.
      * exact (delete_key_inv (sl_key sl) l sl rs Hk El Ec Hinv).
    + replace (rs_set_closers _ _) with (rs_set_closers (delete i (rs_closers rs)) (rs_set_store (<[l := sl]> (rs_store rs)) rs))
        by (by rewrite <-Hid; destruct rs).
      apply (closer_move_inv i l PRemove det sl); try done. intros ->. right. by intros ?; apply Hk.
Qed.

Lemma det_inv_step rs rs' : rs_step rs rs' -> det_inv rs -> det_inv rs'.
Proof.
  intros Hs Hd. unfold det_inv in *. destruct Hs as [cc b rs' E|cc|port bind target cc listen r rs' E|l r rs' E|cc|l cc _|i|].
  - unfold trackConn in E. destruct (rs_closed rs) eqn:Ec; injection E as <- <-; [by rewrite Ec|]. simpl. by rewrite Ec.
  - done.
  - assert (rs_closers rs' = rs_closers rs /\ rs_closed rs' = rs_closed rs) as [-> ->]; [|done].
    unfold attachSharedListener, attach_new in E. by repeat case_match; simplify_eq.
  - unfold rs_dispatch in E. by repeat case_match; simplify_eq.
  - done.
  - unfold detachSharedListener. repeat case_match; try done. simpl. apply Forall_app. split; [done|by constructor].
  - unfold closer_step. destruct (rs_closers rs !! i) as [[l ph det]|] eqn:Ei; [|done]. simpl.
    destruct (rs_store rs !! l); [|done]. simpl.
    assert (det = false -> rs_closed rs = true) as Hdet by (rewrite Forall_lookup in Hd; apply (Hd i _ Ei)).
    assert (Forall (fun c => cl_detach c = false -> rs_closed rs = true) (delete i (rs_closers rs))) as Hdel.
    { apply Forall_forall. intros c Hc%list_elem_of_delete_inv. rewrite Forall_forall in Hd. by apply Hd. }
    destruct ph; [case_match| |case_decide]; simpl; try done; by apply Forall_insert.
  - unfold rs_Close. destruct (rs_closed rs) eqn:Ec; [by rewrite Ec|]. simpl.
    apply Forall_forall. done.
Qed.

Lemma rs_step_inv rs rs' : rs_step rs rs' -> det_inv rs -> rs_inv rs -> rs_inv rs'.
Proof.
  intros Hs Hd Hi. destruct Hs as [cc b rs' E|cc|port bind target cc listen r rs' E|l r rs' E|cc|l cc _|i|].
  - unfold trackConn in E. destruct (rs_closed rs) eqn:Ec; injection E as <- <-; [done|]. destruct Hi. by constructor.
  - destruct Hi. by constructor.
  - by eapply attach_inv.
  - unfold rs_dispatch in E. destruct (rs_store rs !! l) as [sl|] eqn:Hl; [|by injection E as <- <-].
    destruct (dispatch sl) as [p sl'] eqn:Ed. injection E as <- <-.
    pose proof (ri_sl rs Hi) as H. rewrite Forall_lookup in H.
    destruct (dispatch_ok sl p sl' Ed (H l sl Hl)) as (? & ? & ? & ? & Hor).
    apply (set_sl_inv l sl); try done. intros Hn. left. by rewrite <-Hor.
  - destruct Hi. by constructor.
  - by apply detach_inv.
  - by apply closer_step_inv.
  - by apply rs_Close_inv.
Qed.

Lemma NewRemoteServer_inv : rs_inv NewRemoteServer /\ det_inv NewRemoteServer.
Proof. split; [|by apply Forall_nil_2]. constructor; try done. Qed.

#[export] Instance server_preserves : Preserves rs_step (fun rs => rs_inv rs /\ det_inv rs).
Proof. intros rs rs' Hs [? ?]. eauto using rs_step_inv, det_inv_step. Qed.

(** A whole round of [dispatch]. *)
Lemma dispatches_upcoming q sl r :
  sl_ok sl -> upcoming sl = q ++ r ->
  (dispatches (length q) sl).1 = q /\ upcoming (dispatches (length q) sl).2 = r ++ q.
Proof.
  revert sl r. induction q as [|x q IH]; intros sl r Hok Hup; [by rewrite app_nil_r|].
  destruct (dispatch_upcoming sl x (q ++ r) Hok Hup) as (sl' & Hd & Hup' & _).
  assert (sl_ok sl') as Hok' by (by apply (dispatch_ok sl _ _ Hd)).
  rewrite <-app_assoc in Hup'. destruct (IH sl' (r ++ [x]) Hok' Hup') as [H1 H2].
  cbn [length dispatches]. rewrite Hd. destruct (dispatches (length q) sl') as [ps sl2]. simpl in *.
  rewrite H1. split; [done|]. rewrite H2, <-app_assoc. done.
Qed.

(** A listener of the operating system that was closed stays closed. *)
Definition ln_closed (l : nat) (rs : RemoteServer) : Prop :=
  exists sl, rs_store rs !! l = Some sl /\ sl_ln_open sl = false.

Lemma ln_closed_insert l k sl sl' rs st :
  rs_store rs !! k = Some sl -> (sl_ln_open sl = false -> sl_ln_open sl' = false) ->
  st = <[k := sl']> (rs_store rs) -> ln_closed l rs -> exists x, st !! l = Some x /\ sl_ln_open x = false.
Proof.
  intros Hk Ho -> (x & Hx & Hxo). destruct (decide (k = l)) as [->|].
  - exists sl'. rewrite list_lookup_insert_eq by (by eapply lookup_lt_Some). simplify_eq. auto.
  - exists x. by rewrite list_lookup_insert_ne.
Qed.

Lemma sl_attach_ln cc target sl : sl_ln_open (sl_attach cc target sl) = sl_ln_open sl.
Proof. unfold sl_attach. by destruct (sl_conns sl !! cc). Qed.

Lemma ln_closed_step l rs rs' : rs_step rs rs' -> ln_closed l rs -> ln_closed l rs'.
Proof.
  intros Hs Hc. destruct Hs as [cc b rs' E|cc|port bind target cc listen r rs' E|k r rs' E|cc|k cc _|i|].
  - unfold trackConn in E. by destruct (rs_closed rs); injection E as <- <-.
  - done.
  - assert (forall m, ln_closed l (attach_new port bind target cc listen (rs_set_listeners m rs)).2) as Hnew.
    { intros m. unfold attach_new. destruct listen; [|done]. destruct Hc as (x & Hx & ?). exists x. simpl.
      by rewrite lookup_app_l by (by eapply lookup_lt_Some). }
    replace rs' with (attachSharedListener port bind target cc listen rs).2 by (by rewrite E). clear E r.
    unfold attachSharedListener. destruct (rs_closed rs); [done|].
    destruct (rs_listeners rs !! (port, bind)) as [k|]; simpl; [|specialize (Hnew (rs_listeners rs)); by destruct rs].
    destruct (rs_store rs !! k) as [sl|] eqn:Ek; simpl; [|specialize (Hnew (rs_listeners rs)); by destruct rs].
    destruct (sl_closed sl); [apply Hnew|]. eapply ln_closed_insert; [exact Ek| |reflexivity|done].
    by rewrite sl_attach_ln.
  - unfold rs_dispatch in E. destruct (rs_store rs !! k) as [sl|] eqn:Hk; [|by injection E as <- <-].
    destruct (dispatch sl) as [p sl'] eqn:Ed. injection E as <- <-.
    eapply ln_closed_insert; [exact Hk| |reflexivity|done]. unfold dispatch in Ed; by repeat case_match; simplify_eq.
  - done.
  - unfold detachSharedListener. destruct (rs_store rs !! k) as [sl|] eqn:Ek; [|done]. simpl.
    destruct (sl_detach cc sl) as [[sl' b]|] eqn:Ed; [|done].
    assert (ln_closed l (rs_set_store (<[k := sl']> (rs_store rs)) rs)); [|by destruct b].
    eapply ln_closed_insert; [exact Ek| |reflexivity|done].
    unfold sl_detach in Ed. by repeat case_match; simplify_eq.
  - unfold closer_step. destruct (rs_closers rs !! i) as [[k ph det]|]; [|done]. simpl.
    destruct (rs_store rs !! k) as [sl|] eqn:Ek; [|done]. simpl.
    destruct ph; [case_match; [done|]| |case_decide; done];
      (eapply ln_closed_insert; [exact Ek| |reflexivity|done]); done.
  - unfold rs_Close. by destruct (rs_closed rs).
Qed.

#[export] Instance server_stays_closed l : Preserves rs_step (ln_closed l) := ln_closed_step l.

(** Client 2 registers the address of client 1 between the moment client 1,
    whose connection died, left the listener and the moment its goroutine
    closes it. *)
Definition race_first : RemoteServer :=
  (attachSharedListener 8080 "" "a:1" 1 (Ok tt) NewRemoteServer).2.
Definition race_died : RemoteServer :=
  mkRS (rs_conns race_first) (rs_closed race_first) (rs_listeners race_first) (rs_store race_first)
    (rs_closers race_first) ({[1%nat]} ∪ rs_dead race_first).
Definition race_left : RemoteServer := detachSharedListener 0 1 race_died.
Definition race_second : RemoteServer :=
  (attachSharedListener 8080 "" "b:1" 2 (Ok tt) race_left).2.
Definition race_server : RemoteServer := closer_step 0 (closer_step 0 (closer_step 0 race_second)).

Lemma race_server_reachable : rtc rs_step NewRemoteServer race_server.
Proof.
  apply rtc_l with race_first.
  { apply (rss_attach _ 8080 "" "a:1" 1%nat (Ok tt) (attachSharedListener 8080 "" "a:1" 1 (Ok tt) NewRemoteServer).1).
    apply surjective_pairing. }
  apply rtc_l with race_died; [apply rss_die|].
  apply rtc_l with race_left; [apply rss_detach, elem_of_union_l, elem_of_singleton; reflexivity|].
  apply rtc_l with race_second.
  { apply (rss_attach _ 8080 "" "b:1" 2%nat (Ok tt) (attachSharedListener 8080 "" "b:1" 2 (Ok tt) race_left).1).
    apply surjective_pairing. }
  eapply rtc_l; [apply (rss_closer _ 0%nat)|]. eapply rtc_l; [apply (rss_closer _ 0%nat)|].
  eapply rtc_l; [apply (rss_closer _ 0%nat)|apply rtc_refl].
Qed.

(** ** Properties *)


(** Client 1 registers port 8080, and a second listener is closed again. *)
Definition demo_server : RemoteServer :=
  (attachSharedListener 8080 "" "localhost:80" 1 (Ok tt) NewRemoteServer).2.


(** C26: public connections are distributed round-robin: the clients of a
    listener form a queue; [dispatch] serves the first and moves it to the end,
    so that every full round serves each client exactly once and returns to
    the same state; a new client enters the queue without disturbing the order
    of the others, and a client that leaves is taken out of it. *)
Theorem dispatch_round_robin (sl : sharedListener) :
  sl_ok sl ->
  (forall x q, upcoming sl = x :: q -> exists sl',
     dispatch sl = (Some (x, default "" (sl_conns sl !! x)), sl') /\ upcoming sl' = q ++ [x])
  /\ (upcoming sl = [] -> dispatch sl = (None, sl))
  /\ (let '(ps, sl') := dispatches (length (sl_order sl)) sl in
      ps ≡ₚ sl_order sl /\ ps = upcoming sl /\ upcoming sl' = upcoming sl)
  /\ (forall cc target, sl_conns sl !! cc = None -> exists q1 q2,
       upcoming sl = q1 ++ q2 /\ upcoming (sl_attach cc target sl) = q1 ++ cc :: q2)
  /\ (forall cc, is_Some (sl_conns sl !! cc) -> exists sl',
       sl_detach cc sl = Some (sl', bool_decide (upcoming sl' = []))
       /\ upcoming sl' = filter (.≠ cc) (upcoming sl)).
Proof.
  intros Hok. split_and!.
  - intros x q Hq. destruct (dispatch_upcoming sl x q Hok Hq) as (sl' & ? & ? & _). by exists sl'.
  - intros Hn. unfold dispatch. destruct (sl_order sl) eqn:E; [done|].
    apply (f_equal length) in Hn. unfold upcoming in Hn.
    rewrite length_app, length_drop, length_take, E in Hn. simpl in Hn. lia.
  - destruct (dispatches_upcoming (upcoming sl) sl []) as [H1 H2]; [done|by rewrite app_nil_r|].
    rewrite <-(Permutation_length (sl_ok_upcoming sl Hok)).
    destruct (dispatches (length (upcoming sl)) sl) as [ps sl']. simpl in *. subst ps.
    split; [by apply sl_ok_upcoming|done].
  - intros cc target Hc. by apply sl_attach_upcoming.
  - intros cc Hc. destruct (sl_detach_upcoming cc sl Hok Hc) as (sl' & ? & ? & _). by exists sl'.
Qed.

Lemma dispatch_round_robin_witness :
  let sl := sl_attach 3 "b:1" (mkSL 80 "" true {[7%nat := "a:1"]} [7%nat] 0 false) in
  (dispatches 2 sl).1 = [7%nat; 3%nat].
Proof.
  intros sl. assert (sl_ok sl) as Hok.
  { apply sl_attach_ok. split_and!; [apply NoDup_singleton| |left; simpl; lia].
    intros c. simpl. rewrite list_elem_of_singleton, lookup_singleton_is_Some. naive_solver. }
  destruct (dispatch_round_robin sl Hok) as (_ & _ & H & _ & _).
  change (length (sl_order sl)) with 2%nat in H. destruct (dispatches 2 sl) as [ps sl'].
  destruct H as (_ & -> & _). reflexivity.
Defined.

(** What [attachSharedListener] promises: on success the client is
    registered with its target at the open listener the table has for that
    address, and if that listener existed it is shared with the clients it
    already had; it fails only when the server is closed or the address cannot
    be bound, and then no listener changes. *)
Theorem attach_registers (port : Z) (bind target : string) (cc : nat) (listen : result unit) (rs : RemoteServer) :
  rs_inv rs ->
  match attachSharedListener port bind target cc listen rs with
  | (Ok l, rs') => exists sl, rs_store rs' !! l = Some sl /\ sl_conns sl !! cc = Some target
      /\ cc ∈ sl_order sl /\ sl_closed sl = false /\ rs_listeners rs' !! (port, bind) = Some l
      /\ (forall sl0, rs_store rs !! l = Some sl0 -> sl_conns sl = <[cc := target]> (sl_conns sl0))
  | (Err e, rs') => rs_store rs' = rs_store rs /\ (rs_closed rs = true \/ listen = Err e)
  end.
Proof.
  intros Hi. unfold attachSharedListener. destruct (rs_closed rs) eqn:Ec; [by split; [|left]|].
  assert (forall r, match attach_new port bind target cc listen
      (rs_set_listeners r rs) with
    | (Ok l, rs') => exists sl, rs_store rs' !! l = Some sl /\ sl_conns sl !! cc = Some target
        /\ cc ∈ sl_order sl /\ sl_closed sl = false /\ rs_listeners rs' !! (port, bind) = Some l
        /\ (forall sl0, rs_store rs !! l = Some sl0 -> sl_conns sl = <[cc := target]> (sl_conns sl0))
    | (Err e, rs') => rs_store rs' = rs_store rs /\ (false = true \/ listen = Err e)
    end) as Hnew.
  { intros r. unfold attach_new. destruct listen as [[]|e]; [|by split; [|right]]. simpl.
    eexists. split; [by rewrite lookup_app_r, Nat.sub_diag by lia|]. simpl. split_and!; try done.
    - apply lookup_singleton_eq.
    - by left.
    - apply lookup_insert_eq.
    - intros sl0 H. apply lookup_lt_Some in H. lia. }
  destruct (rs_listeners rs !! (port, bind)) as [l|] eqn:Ek; simpl.
  2: { specialize (Hnew (rs_listeners rs)). by destruct rs. }
  destruct (ri_key rs Hi _ _ Ek) as (sl & Hl & Hkey). rewrite Hl. simpl.
  destruct (sl_closed sl) eqn:Es; [apply Hnew|].
  exists (sl_attach cc target sl). simpl. split.
  { apply list_lookup_insert_eq. by eapply lookup_lt_Some. }
  pose proof (ri_sl rs Hi) as Hsl. rewrite Forall_lookup in Hsl. destruct (Hsl l sl Hl) as (_ & Hdom & _).
  assert (sl_conns (sl_attach cc target sl) = <[cc := target]> (sl_conns sl)) as Hc
    by (unfold sl_attach; by destruct (sl_conns sl !! cc)).
  destruct (sl_attach_ok cc target sl (Hsl l sl Hl)) as (_ & Hdom' & _).
  rewrite Hdom', Hc, lookup_insert_eq. split_and!; try done.
  - unfold sl_attach. by destruct (sl_conns sl !! cc).
  - intros sl0 H. by simplify_eq.
Qed.

Lemma attach_registers_witness :
  let rs := (attachSharedListener 8080 "" "b:1" 2 (Ok tt) demo_server).2 in
  exists sl, rs_store rs !! 0%nat = Some sl /\ sl_conns sl !! 2%nat = Some "b:1" /\ sl_closed sl = false.
Proof.
  intros rs. assert (rs_inv demo_server) as Hi.
  { apply (attach_inv 8080 "" "localhost:80" 1 (Ok tt) (Ok 0%nat) NewRemoteServer); [reflexivity|].
    apply NewRemoteServer_inv. }
  destruct (attach_registers 8080 "" "b:1" 2 (Ok tt) demo_server Hi) as (sl & H1 & H2 & _ & H3 & _).
  by exists sl.
Defined.

(** The tear-down of a listener can kill a tunnel of another client: in a
    reachable state without any tear-down in progress a live client is
    registered (its [attachSharedListener] succeeded) at a listener that is
    closed and no longer in the table, and it stays closed whatever happens
    next.  [detachSharedListener] decides to close under [sl.mu] but sets
    [closed] later, and a client may attach in between. *)
Theorem attach_detach_race :
  exists rs l sl, rtc rs_step NewRemoteServer rs /\ rs_closers rs = [] /\ rs_closed rs = false
    /\ rs_store rs !! l = Some sl /\ sl_conns sl !! 2%nat = Some "b:1" /\ 2%nat ∉ rs_dead rs
    /\ rs_listeners rs !! sl_key sl = None
    /\ forall rs', rtc rs_step rs rs' ->
         exists sl', rs_store rs' !! l = Some sl' /\ sl_ln_open sl' = false.
Proof.
  exists race_server, 0%nat, (mkSL 8080 "" false {[2%nat := "b:1"]} [2%nat] 0 true). split_and!; try done.
  - apply race_server_reachable.
  - intros rs' Hr. apply (reachable (inv := ln_closed 0) _ _ Hr). by eexists.
Qed.
