(* ===== verification/Serve.v ===== *)
(** * The goroutines of the remote server ([Serve], [handleClient],
    [serveRemoteTunnel], [Close] and [Wait] in [src/relay/remoteserver.go])

    One [handleClient] per accepted control connection and one
    [serveRemoteTunnel] per tunnel it registered, on top of the tables of
    [RemoteServer.v].  The control connection of the [i]-th handler is number
    [i].  The set-up of a session is [handleClient_setup] of [Auth.v], run on
    whatever the peer sends.  [Wait] waits for all goroutines counted in [wg]. *)
From S2P Require Import Prelude Conn Frame Tunnels Auth RemoteServer.

Inductive handler :=
  | HSetup                               (* authentication and registration *)
  | HReady (ts : list RemoteTunnel)      (* before [trackConn] *)
  | HSpawning (ts : list RemoteTunnel)   (* in the loop over the tunnels *)
  | HWaiting                             (* at [<-cc.Done()] *)
  | HEnded.

Inductive worker_phase := WAttach | WServing (l : nat) | WEnded.

Record worker := mkWorker { w_cc : nat; w_tunnel : RemoteTunnel; w_phase : worker_phase }.

Record server := mkServer {
  sv_rs : RemoteServer;
  sv_ln_open : bool;            (* [ctrlLn] *)
  sv_accepting : bool;          (* [Serve] has not returned *)
  sv_handlers : list handler;
  sv_workers : list worker;
  sv_toclose : list nat;        (* what [Close] still has to close *)
  sv_shut : gset nat;           (* control connections the server has closed *)
}.

Definition NewServer : server := mkServer NewRemoteServer true true [] [] [] ∅.

Definition sv_set_rs (rs : RemoteServer) (s : server) : server :=
  mkServer rs (sv_ln_open s) (sv_accepting s) (sv_handlers s) (sv_workers s) (sv_toclose s) (sv_shut s).
Definition sv_set_handlers (hs : list handler) (s : server) : server :=
  mkServer (sv_rs s) (sv_ln_open s) (sv_accepting s) hs (sv_workers s) (sv_toclose s) (sv_shut s).
Definition sv_set_workers (ws : list worker) (s : server) : server :=
  mkServer (sv_rs s) (sv_ln_open s) (sv_accepting s) (sv_handlers s) ws (sv_toclose s) (sv_shut s).

Definition goto (i : nat) (h : handler) (s : server) : server := sv_set_handlers (<[i := h]> (sv_handlers s)) s.

Definition set_phase (j : nat) (w : worker) (p : worker_phase) (s : server) : server :=
  sv_set_workers (<[j := mkWorker (w_cc w) (w_tunnel w) p]> (sv_workers s)) s.

Inductive event :=
  | EAccept                                 (* a client connects *)
  | EAcceptEnd                              (* [Accept] fails *)
  | ESetup (i : nat) (c : conn)             (* the set-up returns; [c] is what the peer did *)
  | ETrack (i : nat)
  | ESpawn (i : nat)
  | EDone (i : nat)
  | EAttach (j : nat) (listen : result unit)
  | EDetach (j : nat)
  | ECloser (k : nat)                       (* a step of closing a listener *)
  | EClose                                  (* [Close], under the lock *)
  | ECloseLn                                (* [ctrlLn.Close()] *)
  | EShut                                   (* [Close] closes the next connection *)
  | EDie (i : nat)                          (* a read loop ends: [Done] is closed *)
  | EDispatch (l : nat).

Definition control_conn (h : handler) : bool :=
  match h with HSetup => false | _ => true end.

(** The deferred calls of [handleClient] after the wait. *)
Definition handler_done (i : nat) (s : server) : server := goto i HEnded (sv_set_rs (untrackConn i (sv_rs s)) s).

Definition handler_step (i : nat) (token : string) (ev : event) (h : handler) (s : server) : option server :=
  match ev, h with
  | ESetup _ c, HSetup =>
      Some (goto i (match (handleClient_setup token c).1 with Ok ts => HReady ts | Err _ => HEnded end) s)
  | ETrack _, HReady ts =>
      let '(ok, rs) := trackConn i (sv_rs s) in
      Some (goto i (if (ok : bool) then HSpawning ts else HEnded) (sv_set_rs rs s))
  | ESpawn _, HSpawning [] => Some (goto i HWaiting s)
  | ESpawn _, HSpawning (t :: ts) =>
      Some (goto i (HSpawning ts) (sv_set_workers (sv_workers s ++ [mkWorker i t WAttach]) s))
  | EDone _, HWaiting => if decide (i ∈ rs_dead (sv_rs s)) then Some (handler_done i s) else None
  | _, _ => None
  end.

Definition worker_step (j : nat) (ev : event) (w : worker) (s : server) : option server :=
  match ev, w_phase w with
  | EAttach _ listen, WAttach =>
      let t := w_tunnel w in
      let '(r, rs) := attachSharedListener (RemotePort t) (BindAddr t) (TargetAddr t) (w_cc w) listen (sv_rs s) in
      Some (set_phase j w (match r with Ok l => WServing l | Err _ => WEnded end) (sv_set_rs rs s))
  | EDetach _, WServing l =>
      if decide (w_cc w ∈ rs_dead (sv_rs s))
      then Some (set_phase j w WEnded (sv_set_rs (detachSharedListener l (w_cc w) (sv_rs s)) s))
      else None
  | _, _ => None
  end.

(** A control connection is dead. *)
Definition rs_die (i : nat) (rs : RemoteServer) : RemoteServer :=
  mkRS (rs_conns rs) (rs_closed rs) (rs_listeners rs) (rs_store rs) (rs_closers rs) ({[i]} ∪ rs_dead rs).

Definition serve_apply (token : string) (ev : event) (s : server) : option server :=
  let rs := sv_rs s in
  match ev with
  | EAccept =>
      if sv_ln_open s && sv_accepting s then Some (sv_set_handlers (sv_handlers s ++ [HSetup]) s) else None
  | EAcceptEnd =>
      if sv_accepting s
      then Some (mkServer rs (sv_ln_open s) false (sv_handlers s) (sv_workers s) (sv_toclose s) (sv_shut s))
      else None
  | ESetup i _ | ETrack i | ESpawn i | EDone i => h ← sv_handlers s !! i; handler_step i token ev h s
  | EAttach j _ | EDetach j => w ← sv_workers s !! j; worker_step j ev w s
  | ECloser k => if decide (k < length (rs_closers rs))%nat then Some (sv_set_rs (closer_step k rs) s) else None
  | EClose =>
      if rs_closed rs then None
      else Some (mkServer (rs_Close rs) (sv_ln_open s) (sv_accepting s) (sv_handlers s) (sv_workers s)
                   (elements (rs_conns rs)) (sv_shut s))
  | ECloseLn =>
      if rs_closed rs && sv_ln_open s
      then Some (mkServer rs false (sv_accepting s) (sv_handlers s) (sv_workers s) (sv_toclose s) (sv_shut s))
      else None
  | EShut =>
      match sv_toclose s with
      | [] => None
      | i :: l => Some (mkServer rs (sv_ln_open s) (sv_accepting s) (sv_handlers s) (sv_workers s) l ({[i]} ∪ sv_shut s))
      end
  | EDie i =>
      h ← sv_handlers s !! i;
      if decide (control_conn h = true /\ i ∉ rs_dead rs) then Some (sv_set_rs (rs_die i rs) s) else None
  | EDispatch l => Some (sv_set_rs (rs_dispatch l rs).2 s)
  end.

Fixpoint serve_run (token : string) (evs : list event) (s : server) : option server :=
  match evs with
  | [] => Some s
  | ev :: evs => serve_apply token ev s ≫= serve_run token evs
  end.

(** Events that need nobody outside the process: not a client that connects,
    sends or goes away, nor a user. *)
Definition own (ev : event) (s : server) : bool :=
  match ev with
  | EAccept | ESetup _ _ | EClose | EDispatch _ => false
  | EAcceptEnd => negb (sv_ln_open s)
  | EDie i => bool_decide (i ∈ sv_shut s)
  | _ => true
  end.

Definition own_step (token : string) (s s' : server) : Prop :=
  exists ev, own ev s = true /\ serve_apply token ev s = Some s'.

(** The counter of [wg]: a goroutine that detaches goes on to close. *)
Definition running_handler (h : handler) : bool := match h with HEnded => false | _ => true end.
Definition running_worker (w : worker) : bool := match w_phase w with WEnded => false | _ => true end.

Definition wg (s : server) : nat :=
  length (filter (fun h => running_handler h = true) (sv_handlers s))
  + length (filter (fun w => running_worker w = true) (sv_workers s))
  + length (filter (fun c => cl_detach c = true) (rs_closers (sv_rs s))).

Definition in_setup (i : nat) (s : server) : Prop := sv_handlers s !! i = Some HSetup.

(** ** The invariant *)

Definition active (h : handler) : Prop :=
  match h with HSpawning _ | HWaiting => True | _ => False end.

(** Somebody sees to it that control connection [i] dies. *)
Definition doomed (i : nat) (s : server) : Prop :=
  i ∈ sv_toclose s \/ i ∈ sv_shut s \/ i ∈ rs_dead (sv_rs s).

Record sv_inv (s : server) : Prop := {
  si_rs : rs_inv (sv_rs s) /\ det_inv (sv_rs s);
  (* only connections of handlers past their set-up are known to anybody *)
  si_known : forall i, i ∈ rs_conns (sv_rs s) \/ i ∈ sv_toclose s \/ i ∈ sv_shut s ->
    exists h, sv_handlers s !! i = Some h /\ control_conn h = true;
  (* a connection in use is tracked, or will be closed *)
  si_active : forall i h, sv_handlers s !! i = Some h -> active h ->
    if rs_closed (sv_rs s) then doomed i s else i ∈ rs_conns (sv_rs s);
  (* the handler of a tunnel's connection outlives it, unless it is dead *)
  si_worker : forall j w, sv_workers s !! j = Some w -> w_phase w <> WEnded ->
    w_cc w ∈ rs_dead (sv_rs s) \/ exists h, sv_handlers s !! w_cc w = Some h /\ active h;
}.

(** ** Lemmas *)

Lemma NewServer_inv : sv_inv NewServer.
Proof. constructor; simpl; [apply NewRemoteServer_inv|set_solver|done..]. Qed.

(** The tables other goroutines see change by the steps of [RemoteServer.v]. *)
Lemma attach_fixed port bind target cc listen rs r rs' :
  attachSharedListener port bind target cc listen rs = (r, rs') ->
  rs_conns rs' = rs_conns rs /\ rs_dead rs' = rs_dead rs /\ rs_closed rs' = rs_closed rs /\ rs_closers rs' = rs_closers rs
  /\ (rs_closed rs = true -> exists e, r = Err e).
Proof.
  unfold attachSharedListener, attach_new. destruct (rs_closed rs) eqn:E; [intros [= <- <-]; split_and!; eauto|].
  repeat case_match; intros [= <- <-]; done.
Qed.

Lemma detach_fixed l cc rs :
  let rs' := detachSharedListener l cc rs in
  rs_conns rs' = rs_conns rs /\ rs_dead rs' = rs_dead rs /\ rs_closed rs' = rs_closed rs
  /\ (rs_closers rs' = rs_closers rs \/ rs_closers rs' = rs_closers rs ++ [mkCloser l PClose true]).
Proof. unfold detachSharedListener. repeat case_match; simpl; auto. Qed.

Lemma closer_fixed k rs :
  let rs' := closer_step k rs in
  rs_conns rs' = rs_conns rs /\ rs_dead rs' = rs_dead rs /\ rs_closed rs' = rs_closed rs.
Proof. unfold closer_step. repeat case_match; done. Qed.

Lemma dispatch_fixed l rs :
  let rs' := (rs_dispatch l rs).2 in
  rs_conns rs' = rs_conns rs /\ rs_dead rs' = rs_dead rs /\ rs_closed rs' = rs_closed rs /\ rs_closers rs' = rs_closers rs.
Proof. unfold rs_dispatch. repeat case_match; done. Qed.

(** Every event is a step of the tables, or leaves them as they are. *)
Lemma serve_refines token ev s s' :
  serve_apply token ev s = Some s' -> rtc rs_step (sv_rs s) (sv_rs s').
Proof.
  assert (forall rs rs', rs_step rs rs' -> rtc rs_step rs rs') as Hone by (intros; by apply rtc_once).
  unfold serve_apply, handler_step, worker_step. intros H.
  repeat match type of H with
         | (_ ≫= _) = Some _ => apply bind_Some in H as (? & ? & H)
         | context [match ?x with _ => _ end] => destruct x eqn:?
         end; simplify_eq/=; try done; apply Hone.
  all: first [by eapply rss_track | apply rss_untrack | by eapply rss_attach | by apply rss_detach | apply rss_closer
             | apply rss_close | apply rss_die | eapply rss_dispatch, surjective_pairing].
Qed.

Notation good rs := (rs_inv rs /\ det_inv rs).

(** A handler moves on, to at most one new worker. *)
Lemma goto_inv i h h' rs' ln acc ws s :
  sv_inv s -> good rs' -> sv_handlers s !! i = Some h ->
  rs_dead rs' = rs_dead (sv_rs s) -> rs_closed rs' = rs_closed (sv_rs s) ->
  (control_conn h = true -> control_conn h' = true) ->
  (forall k, k ∈ rs_conns rs' -> k ∈ rs_conns (sv_rs s) \/ k = i /\ control_conn h' = true) ->
  (forall k, k <> i -> k ∈ rs_conns (sv_rs s) -> k ∈ rs_conns rs') ->
  (active h' -> if rs_closed (sv_rs s) then doomed i s else i ∈ rs_conns rs') ->
  (active h -> active h' \/ i ∈ rs_dead (sv_rs s)) ->
  (forall w, w ∈ ws -> w_cc w = i /\ active h') ->
  sv_inv (mkServer rs' ln acc (<[i := h']> (sv_handlers s)) (sv_workers s ++ ws) (sv_toclose s) (sv_shut s)).
Proof.
  intros [_ Hk Ha Hw] Hrs Hh Hd Hc Hctl Hc1 Hc2 Hact Hkeep Hws.
  assert (forall k x, <[i := h']> (sv_handlers s) !! k = Some x -> (k = i /\ x = h') \/ (k <> i /\ sv_handlers s !! k = Some x)) as Hins.
  { intros k x [(-> & -> & _)|[? ?]]%list_lookup_insert_Some; [by left|right; auto]. }
  assert (<[i := h']> (sv_handlers s) !! i = Some h') as Hii by (apply list_lookup_insert_eq; by eapply lookup_lt_Some).
  constructor; cbn [sv_rs sv_handlers sv_workers sv_toclose sv_shut]; [done| | |].
  - intros k Hin. destruct (decide (k = i)) as [->|Hne].
    + exists h'. split; [done|]. destruct Hin as [Hin|Hin]; [destruct (Hc1 i Hin) as [?|[_ ?]]; [|done]|];
        (destruct (Hk i) as (x & Hx & Hxc); [by auto|]; apply Hctl; congruence).
    + rewrite list_lookup_insert_ne by done. apply Hk. destruct Hin as [Hin|Hin]; [|by right].
      destruct (Hc1 k Hin) as [?|[? _]]; [by left|done].
  - intros k x Hx Hax. rewrite Hc. unfold doomed. cbn [sv_rs sv_toclose sv_shut]. rewrite Hd.
    destruct (Hins k x Hx) as [[-> ->]|[Hne Hx']]; [by apply Hact|].
    specialize (Ha k x Hx' Hax). destruct (rs_closed (sv_rs s)); [done|auto].
  - intros j w Hj Hp. rewrite Hd. apply lookup_app_Some in Hj as [Hj|[_ Hj]].
    + destruct (Hw j w Hj Hp) as [?|(x & Hx & Hax)]; [by left|]. destruct (decide (w_cc w = i)) as [E|Hne].
      * rewrite E in *. assert (x = h) as -> by congruence. destruct (Hkeep Hax) as [?|?]; [right; eauto|by left].
      * right. exists x. by rewrite list_lookup_insert_ne.
    + apply list_elem_of_lookup_2, Hws in Hj as [-> ?]. right. eauto.
Qed.

(** The tables or the workers move on. *)
Lemma tables_inv rs' ln acc ws s :
  sv_inv s -> good rs' ->
  rs_conns rs' = rs_conns (sv_rs s) -> rs_closed rs' = rs_closed (sv_rs s) -> rs_dead (sv_rs s) ⊆ rs_dead rs' ->
  (forall j w', ws !! j = Some w' -> w_phase w' <> WEnded ->
     exists w, sv_workers s !! j = Some w /\ w_cc w = w_cc w' /\ w_phase w <> WEnded) ->
  sv_inv (mkServer rs' ln acc (sv_handlers s) ws (sv_toclose s) (sv_shut s)).
Proof.
  intros [_ Hk Ha Hw] Hrs Hc Hcl Hd Hws. constructor; cbn [sv_rs sv_handlers sv_workers sv_toclose sv_shut]; [done| | |].
  - by rewrite Hc.
  - intros i h Hh Hah. rewrite Hcl, Hc. specialize (Ha i h Hh Hah). destruct (rs_closed (sv_rs s)); [|done].
    unfold doomed in *. cbn [sv_rs sv_toclose sv_shut]. destruct Ha as [?|[?|?]]; auto.
  - intros j w' Hj Hp. destruct (Hws j w' Hj Hp) as (w & Hw' & <- & Hp'). destruct (Hw j w Hw' Hp') as [?|?]; auto.
Qed.

Lemma same_workers s j w' : sv_workers s !! j = Some w' -> w_phase w' <> WEnded ->
  exists w, sv_workers s !! j = Some w /\ w_cc w = w_cc w' /\ w_phase w <> WEnded.
Proof. eauto. Qed.

Lemma moved_workers s j w p k w' : sv_workers s !! j = Some w -> w_phase w <> WEnded ->
  <[j := mkWorker (w_cc w) (w_tunnel w) p]> (sv_workers s) !! k = Some w' -> w_phase w' <> WEnded ->
  exists w, sv_workers s !! k = Some w /\ w_cc w = w_cc w' /\ w_phase w <> WEnded.
Proof. intros Hj Hp [(<- & <- & _)|[? ?]]%list_lookup_insert_Some ?; eauto. Qed.

Lemma handler_step_inv i token ev h s s' :
  handler_step i token ev h s = Some s' -> sv_handlers s !! i = Some h -> good (sv_rs s') -> sv_inv s -> sv_inv s'.
Proof.
  intros H Hh Hg Hi.
  pose proof (fun h' rs' ws => goto_inv i h h' rs' (sv_ln_open s) (sv_accepting s) ws s Hi) as Hgo.
  destruct ev, h; try done; simpl in H.
  - injection H as <-. specialize (Hgo (match (handleClient_setup token c).1 with Ok ts => HReady ts | Err _ => HEnded end) (sv_rs s) []).
    rewrite app_nil_r in Hgo. destruct (handleClient_setup token c).1; apply Hgo; simpl; auto; set_solver.
  - destruct (trackConn i (sv_rs s)) as [ok rs] eqn:E. injection H as <-. unfold trackConn in E.
    destruct (rs_closed (sv_rs s)) eqn:Ec; injection E as <- <-.
    + specialize (Hgo HEnded (sv_rs s) []). rewrite app_nil_r in Hgo. apply Hgo; simpl; auto; set_solver.
    + specialize (Hgo (HSpawning ts) (rs_set_conns ({[i]} ∪ rs_conns (sv_rs s)) (sv_rs s)) []). rewrite app_nil_r in Hgo.
      apply Hgo; simpl in *; rewrite ?Ec; auto; set_solver.
  - assert (if rs_closed (sv_rs s) then doomed i s else i ∈ rs_conns (sv_rs s)) as Hact by (by apply (si_active _ Hi i (HSpawning ts))).
    destruct ts as [|t ts]; injection H as <-.
    + specialize (Hgo HWaiting (sv_rs s) []). rewrite app_nil_r in Hgo. apply Hgo; simpl; auto; set_solver.
    + apply (Hgo (HSpawning ts) (sv_rs s) [mkWorker i t WAttach]); simpl; auto.
      intros w ->%list_elem_of_singleton. done.
  - case_decide as Hd; [|done]. injection H as <-. unfold handler_done.
    specialize (Hgo HEnded (untrackConn i (sv_rs s)) []). rewrite app_nil_r in Hgo.
    apply Hgo; simpl; auto; set_solver.
Qed.

Lemma worker_step_inv j ev w s s' :
  worker_step j ev w s = Some s' -> sv_workers s !! j = Some w -> good (sv_rs s') -> sv_inv s -> sv_inv s'.
Proof.
  intros H Hj Hg Hi. destruct ev; try done; simpl in H.
  - destruct (w_phase w) eqn:Ep; try done.
    destruct (attachSharedListener _ _ _ _ _ _) as [r rs] eqn:E. injection H as <-.
    destruct (attach_fixed _ _ _ _ _ _ _ _ E) as (? & Hd & ? & _).
    apply (tables_inv _ _ _ _ s); [done|done|done|done|simpl; by rewrite Hd|].
    intros k w' Hl Hp. by apply (moved_workers s j w _ k w' Hj ltac:(by rewrite Ep) Hl Hp).
  - destruct (w_phase w) eqn:Ep; try done. case_decide; [|done]. injection H as <-.
    destruct (detach_fixed l (w_cc w) (sv_rs s)) as (? & Hd & ? & _).
    apply (tables_inv _ _ _ _ s); [done|done|done|done|simpl; by rewrite Hd|].
    intros k w' Hl Hp. by apply (moved_workers s j w _ k w' Hj ltac:(by rewrite Ep) Hl Hp).
Qed.

Lemma serve_inv token ev s s' : serve_apply token ev s = Some s' -> sv_inv s -> sv_inv s'.
Proof.
  intros H Hi.
  pose proof (reachable (inv := fun rs => good rs) _ _ (serve_refines _ _ _ _ H) (si_rs _ Hi)) as Hg.
  assert (forall rs' ln acc, s' = mkServer rs' ln acc (sv_handlers s) (sv_workers s) (sv_toclose s) (sv_shut s) ->
    rs_conns rs' = rs_conns (sv_rs s) -> rs_closed rs' = rs_closed (sv_rs s) -> rs_dead (sv_rs s) ⊆ rs_dead rs' -> sv_inv s') as Htab.
  { intros rs' ln acc -> ? ? ?. apply tables_inv; try done. apply same_workers. }
  destruct ev; cbn [serve_apply] in H;
    try (apply bind_Some in H as (h & Hh & H); first [exact (handler_step_inv _ _ _ _ _ _ H Hh Hg Hi) | exact (worker_step_inv _ _ _ _ _ H Hh Hg Hi)]).
  - destruct (sv_ln_open s && sv_accepting s); [|done]. injection H as <-. destruct Hi as [_ Hk Ha Hw].
    constructor; simpl; [done| | |].
    + intros i Hin. destruct (Hk i Hin) as (h & Hh & ?). exists h. split; [by apply lookup_app_l_Some|done].
    + intros i h [Hh|[_ Hh]]%lookup_app_Some Hah; [by apply (Ha i h)|].
      apply list_lookup_singleton_Some in Hh as [_ <-]. done.
    + intros j w Hj Hp. destruct (Hw j w Hj Hp) as [?|(h & Hh & ?)]; [by left|right].
      exists h. split; [by apply lookup_app_l_Some|done].
  - destruct (sv_accepting s); [|done]. injection H as <-. by eapply Htab.
  - case_decide; [|done]. injection H as <-. destruct (closer_fixed k (sv_rs s)) as (? & Hd & ?).
    eapply Htab; [done|done|done|by rewrite Hd].
  - destruct (rs_closed (sv_rs s)) eqn:Ec; [done|]. injection H as <-. destruct Hi as [_ Hk Ha Hw].
    assert (rs_conns (rs_Close (sv_rs s)) = rs_conns (sv_rs s) /\ rs_closed (rs_Close (sv_rs s)) = true
      /\ rs_dead (rs_Close (sv_rs s)) = rs_dead (sv_rs s)) as (H1 & H2 & H3) by (unfold rs_Close; by rewrite Ec).
    constructor; cbn [sv_rs sv_handlers sv_workers sv_toclose sv_shut]; [done| | |].
    + intros i Hin. rewrite H1, elem_of_elements in Hin. apply Hk. tauto.
    + intros i h Hh Hah. rewrite H2. left. simpl. apply elem_of_elements.
      specialize (Ha i h Hh Hah). by rewrite Ec in Ha.
    + rewrite H3. done.
  - destruct (rs_closed (sv_rs s) && sv_ln_open s); [|done]. injection H as <-. by eapply Htab.
  - destruct (sv_toclose s) as [|i l] eqn:El; [done|]. injection H as <-. destruct Hi as [_ Hk Ha Hw].
    rewrite El in Hk. constructor; cbn [sv_rs sv_handlers sv_workers sv_toclose sv_shut]; [done| | |done].
    + intros k Hin. apply Hk. set_solver.
    + intros k h Hh Hah. specialize (Ha k h Hh Hah). destruct (rs_closed (sv_rs s)); [|done].
      unfold doomed in *. rewrite El in Ha. cbn [sv_rs sv_toclose sv_shut]. set_solver.
  - apply bind_Some in H as (h & Hh & H). case_decide; [|done]. injection H as <-.
    eapply Htab; [done|done|done|simpl; set_solver].
  - injection H as <-. destruct (dispatch_fixed l (sv_rs s)) as (? & Hd & ? & _).
    eapply Htab; [done|done|done|by rewrite Hd].
Qed.

(** ** The work a closed server has left *)

Definition handler_work (h : handler) : nat :=
  match h with
  | HSetup | HEnded => 0
  | HReady _ | HWaiting => 1
  | HSpawning ts => 2 + 2 * length ts
  end.
Definition worker_work (w : worker) : nat :=
  match w_phase w with WAttach => 1 | WServing _ => 4 | WEnded => 0 end.
Definition closer_work (c : closer) : nat :=
  match cl_phase c with PClose => 3 | PLn => 2 | PRemove => 1 end.

Definition work {A} (f : A -> nat) (l : list A) : nat := sum_list_with f l.

Definition todo (s : server) : nat :=
  work handler_work (sv_handlers s) + work worker_work (sv_workers s) + work closer_work (rs_closers (sv_rs s))
  + 2 * length (sv_toclose s) + size (sv_shut s ∖ rs_dead (sv_rs s)).

Lemma work_app {A} (f : A -> nat) l k : work f (l ++ k) = (work f l + work f k)%nat.
Proof. apply sum_list_with_app. Qed.

Lemma work_insert {A} (f : A -> nat) l i (x y : A) :
  l !! i = Some x -> (work f (<[i := y]> l) + f x = work f l + f y)%nat.
Proof.
  intros Hx. pose proof (lookup_lt_Some _ _ _ Hx). rewrite insert_take_drop by done.
  rewrite <-(take_drop_middle l i x Hx) at 3. unfold work. rewrite !sum_list_with_app. simpl. lia.
Qed.

Lemma work_delete {A} (f : A -> nat) l i (x : A) : l !! i = Some x -> (work f (delete i l) + f x = work f l)%nat.
Proof.
  intros Hx. rewrite delete_take_drop. rewrite <-(take_drop_middle l i x Hx) at 3.
  unfold work. rewrite !sum_list_with_app. simpl. lia.
Qed.

Lemma work_pos {A} (f : A -> nat) l : work f l <> 0%nat -> exists i x, l !! i = Some x /\ f x <> 0%nat.
Proof.
  induction l as [|x l IH]; [done|]. simpl. intros H. destruct (decide (f x = 0%nat)) as [E|E].
  - destruct IH as (i & y & ? & ?); [unfold work in *; lia|]. by exists (S i), y.
  - by exists 0%nat, x.
Qed.

Lemma work_0 {A} (f : A -> nat) l x : work f l = 0%nat -> x ∈ l -> f x = 0%nat.
Proof.
  intros H [i Hx]%list_elem_of_lookup. pose proof (work_delete f l i x Hx). lia.
Qed.

(** Every step of a closer is progress. *)
Lemma closer_work_step rs k c :
  rs_inv rs -> rs_closers rs !! k = Some c ->
  (work closer_work (rs_closers (closer_step k rs)) < work closer_work (rs_closers rs))%nat.
Proof.
  intros Hi Hk. pose proof (ri_valid rs Hi) as Hv. rewrite Forall_lookup in Hv.
  destruct (lookup_lt_is_Some_2 _ _ (Hv k c Hk)) as [sl Hsl]. unfold closer_step. rewrite Hk. simpl. rewrite Hsl. simpl.
  destruct c as [l ph det]. pose proof (work_delete closer_work _ k _ Hk) as Hd.
  pose proof (fun y => work_insert closer_work _ k _ y Hk) as Hins.
  pose proof (Hins (mkCloser l PLn det)) as H2. pose proof (Hins (mkCloser l PRemove det)) as H1.
  change (closer_work (mkCloser l PLn det)) with 2%nat in H2. change (closer_work (mkCloser l PRemove det)) with 1%nat in H1.
  destruct ph; [change (closer_work (mkCloser l PClose det)) with 3%nat in *; destruct (sl_closed sl)
               |change (closer_work (mkCloser l PLn det)) with 2%nat in *
               |change (closer_work (mkCloser l PRemove det)) with 1%nat in *; case_decide];
    cbn [rs_set_closers rs_set_store rs_set_listeners rs_closers]; lia.
Qed.

(** A closed server whose clients have all said what they want. *)
Definition closing (s : server) : Prop := rs_closed (sv_rs s) = true /\ forall i, ~ in_setup i s.

Lemma goto_closing i h rs' ln acc ws tc sh s :
  closing s -> rs_closed rs' = rs_closed (sv_rs s) -> h <> HSetup ->
  closing (mkServer rs' ln acc (<[i := h]> (sv_handlers s)) ws tc sh).
Proof.
  intros [Hc Hno] Hrs Hh. split; [simpl; congruence|]. intros k. unfold in_setup. simpl.
  intros [(_ & -> & _)|[_ Hk]]%list_lookup_insert_Some; [done|by apply (Hno k)].
Qed.

(** The goroutines of the server do not reopen it. *)
Lemma own_step_closing token s s' : own_step token s s' -> closing s -> closing s'.
Proof.
  intros (ev & Ho & H) Hcl. pose proof Hcl as [Hc Hno].
  destruct ev; try done; cbn [serve_apply] in H;
    repeat match type of H with
           | (_ ≫= _) = Some _ => apply bind_Some in H as (? & ? & H)
           end; unfold handler_step, worker_step in H.
  - destruct (sv_accepting s); by simplify_eq.
  - destruct x; try done. unfold trackConn in H. rewrite Hc in H. injection H as <-. by apply goto_closing.
  - destruct x as [| |[|t ts]| |]; try done; injection H as <-; by apply goto_closing.
  - destruct x; try done. case_decide; [|done]. injection H as <-. by apply goto_closing.
  - destruct (w_phase x); try done. destruct (attachSharedListener _ _ _ _ _ _) as [r rs] eqn:E. injection H as <-.
    destruct (attach_fixed _ _ _ _ _ _ _ _ E) as (_ & _ & E' & _). split; [simpl; congruence|done].
  - destruct (w_phase x) as [|l|]; try done. case_decide; [|done]. injection H as <-.
    destruct (detach_fixed l (w_cc x) (sv_rs s)) as (_ & _ & E' & _). split; [simpl; congruence|done].
  - case_decide; [|done]. injection H as <-. destruct (closer_fixed k (sv_rs s)) as (_ & _ & E'). split; [simpl; congruence|done].
  - destruct (_ && _); by simplify_eq.
  - destruct (sv_toclose s); by simplify_eq.
  - case_decide; by simplify_eq.
Qed.

(** Where a connection in use cannot wait for anybody else any more, it is dead. *)
Lemma doomed_dead i s :
  sv_toclose s = [] -> size (sv_shut s ∖ rs_dead (sv_rs s)) = 0%nat -> doomed i s -> i ∈ rs_dead (sv_rs s).
Proof.
  intros Ht Hs [H|[H|H]]; [rewrite Ht in H; by apply elem_of_nil in H| |done].
  apply size_empty_inv in Hs. destruct (decide (i ∈ rs_dead (sv_rs s))); [done|]. set_solver.
Qed.

(** A handler or a tunnel with work left does a part of it. *)
Lemma handler_progress token i h s :
  sv_inv s -> closing s -> (forall k, doomed k s -> k ∈ rs_dead (sv_rs s)) ->
  sv_handlers s !! i = Some h -> handler_work h <> 0%nat ->
  exists s', own_step token s s' /\ (todo s' < todo s)%nat.
Proof.
  intros Hi [Hc Hno] Hdead Hh Hw.
  pose proof (fun h' => work_insert handler_work (sv_handlers s) i h h' Hh) as Hins.
  assert (active h -> i ∈ rs_dead (sv_rs s)) as Hact.
  { intros Ha. apply Hdead. pose proof (si_active _ Hi i h Hh Ha) as H. by rewrite Hc in H. }
  destruct h as [|ts|[|t ts]| |]; try done.
  - specialize (Hins HEnded). exists (goto i HEnded (sv_set_rs (sv_rs s) s)). split.
    + exists (ETrack i). split; [done|]. cbn [serve_apply]. rewrite Hh. simpl. unfold trackConn. by rewrite Hc.
    + unfold todo. simpl in *. lia.
  - specialize (Hins HWaiting). exists (goto i HWaiting s). split.
    + exists (ESpawn i). split; [done|]. cbn [serve_apply]. by rewrite Hh.
    + unfold todo. simpl in *. lia.
  - specialize (Hins (HSpawning ts)). eexists. split.
    + exists (ESpawn i). split; [done|]. cbn [serve_apply]. rewrite Hh. reflexivity.
    + unfold todo. cbn [goto sv_set_handlers sv_set_workers sv_handlers sv_workers sv_rs sv_toclose sv_shut].
      rewrite work_app. simpl in *. lia.
  - specialize (Hins HEnded). exists (handler_done i s). split.
    + exists (EDone i). split; [done|]. cbn [serve_apply]. rewrite Hh. simpl. rewrite decide_True; [done|]. by apply Hact.
    + unfold todo. simpl in *. lia.
Qed.

Lemma worker_progress token j w s :
  sv_inv s -> closing s -> (forall k, doomed k s -> k ∈ rs_dead (sv_rs s)) ->
  sv_workers s !! j = Some w -> worker_work w <> 0%nat ->
  exists s', own_step token s s' /\ (todo s' < todo s)%nat.
Proof.
  intros Hi [Hc Hno] Hdead Hj Hw. pose proof (fun w' => work_insert worker_work (sv_workers s) j w w' Hj) as Hins.
  specialize (Hins (mkWorker (w_cc w) (w_tunnel w) WEnded)).
  assert (w_phase w <> WEnded) as Hp by (intros E; unfold worker_work in Hw; by rewrite E in Hw).
  destruct (w_phase w) as [|l|] eqn:Ep; [| |done].
  - destruct (attachSharedListener (RemotePort (w_tunnel w)) (BindAddr (w_tunnel w)) (TargetAddr (w_tunnel w))
      (w_cc w) (Ok tt) (sv_rs s)) as [r rs] eqn:E.
    destruct (attach_fixed _ _ _ _ _ _ _ _ E) as (_ & Hd & _ & Hcl & Herr). destruct (Herr Hc) as [e ->].
    eexists. split.
    + exists (EAttach j (Ok tt)). split; [done|]. cbn [serve_apply]. rewrite Hj. simpl. rewrite Ep, E. reflexivity.
    + unfold todo, worker_work in *. rewrite Ep in Hins. simpl in *. rewrite Hd, Hcl. lia.
  - assert (w_cc w ∈ rs_dead (sv_rs s)) as Hin.
    { destruct (si_worker _ Hi j w Hj) as [?|(h & Hh & Ha)]; [by rewrite Ep|done|].
      apply Hdead. pose proof (si_active _ Hi _ h Hh Ha) as H. by rewrite Hc in H. }
    destruct (detach_fixed l (w_cc w) (sv_rs s)) as (_ & Hd & _ & Hcl).
    eexists. split.
    + exists (EDetach j). split; [done|]. cbn [serve_apply]. rewrite Hj. simpl. rewrite Ep, decide_True by done. reflexivity.
    + unfold todo, worker_work in *. rewrite Ep in Hins. simpl in *. rewrite Hd.
      destruct Hcl as [->| ->]; rewrite ?work_app; simpl; lia.
Qed.

(** While work is left, some goroutine of the server can do a part of it. *)
Lemma progress token s :
  sv_inv s -> closing s -> todo s <> 0%nat -> exists s', own_step token s s' /\ (todo s' < todo s)%nat.
Proof.
  intros Hi [Hc Hno] Hw.
  assert (forall ev s', own ev s = true -> serve_apply token ev s = Some s' -> (todo s' < todo s)%nat ->
    exists s', own_step token s s' /\ (todo s' < todo s)%nat) as Hgo.
  { intros ev s' ? ? ?. exists s'. split; [by exists ev|done]. }
  destruct (sv_toclose s) as [|i l] eqn:Et.
  2: { eapply (Hgo EShut _ eq_refl); [cbn [serve_apply]; by rewrite Et|]. unfold todo. simpl. rewrite Et. simpl.
       assert (size (({[i]} ∪ sv_shut s) ∖ rs_dead (sv_rs s)) <= 1 + size (sv_shut s ∖ rs_dead (sv_rs s)))%nat; [|lia].
       trans (size ({[i]} ∪ (sv_shut s ∖ rs_dead (sv_rs s)) : gset nat)); [apply subseteq_size; set_solver|].
       rewrite size_union_alt, size_singleton. assert (size ((sv_shut s ∖ rs_dead (sv_rs s)) ∖ {[i]}) <= size (sv_shut s ∖ rs_dead (sv_rs s)))%nat; [apply subseteq_size; set_solver|lia]. }
  destruct (decide (size (sv_shut s ∖ rs_dead (sv_rs s)) = 0%nat)) as [Es|Es].
  2: { apply size_non_empty_iff in Es. apply set_choose in Es as [i Hin]. apply elem_of_difference in Hin as [Hsh Hd].
       destruct (si_known _ Hi i) as (h & Hh & Hctl); [auto|].
       apply (Hgo (EDie i) (sv_set_rs (rs_die i (sv_rs s)) s)); [by apply bool_decide_eq_true|
         cbn [serve_apply]; rewrite Hh; simpl; by rewrite decide_True|].
       unfold todo. simpl. assert (size (sv_shut s ∖ ({[i]} ∪ rs_dead (sv_rs s))) < size (sv_shut s ∖ rs_dead (sv_rs s)))%nat; [|lia].
       apply subset_size. set_solver. }
  assert (forall i, doomed i s -> i ∈ rs_dead (sv_rs s)) as Hdead by (intros; by apply doomed_dead).
  destruct (decide (work closer_work (rs_closers (sv_rs s)) = 0%nat)) as [Ecl|Ecl].
  2: { apply work_pos in Ecl as (k & c & Hk & _). pose proof (closer_work_step _ _ _ (proj1 (si_rs _ Hi)) Hk).
       destruct (closer_fixed k (sv_rs s)) as (_ & Hd & _).
       eapply (Hgo (ECloser k) _ eq_refl); [cbn [serve_apply]; rewrite decide_True by (by eapply lookup_lt_Some); done|].
       unfold todo. simpl. rewrite Hd. lia. }
  destruct (decide (work handler_work (sv_handlers s) = 0%nat)) as [Eh|Eh].
  - destruct (decide (work worker_work (sv_workers s) = 0%nat)) as [Ew|Ew]; [unfold todo in Hw; rewrite Et in Hw; simpl in Hw; lia|].
    apply work_pos in Ew as (j & w & Hj & Hww). by apply (worker_progress token j w s).
  - apply work_pos in Eh as (i & h & Hh & Hhw). by apply (handler_progress token i h s).
Qed.

Lemma count_none {A} (f : A -> bool) (l : list A) :
  (forall x, x ∈ l -> f x = false) -> length (filter (fun x => f x = true) l) = 0%nat.
Proof.
  induction l as [|x l IH]; intros H; [done|]. rewrite filter_cons_False by (rewrite H; [done|by left]).
  apply IH. intros y Hy. apply H. by right.
Qed.

(** When no work is left, nobody is counted and nothing is open. *)
Lemma finished s :
  sv_inv s -> closing s -> todo s = 0%nat ->
  wg s = 0%nat /\ forall l sl, rs_store (sv_rs s) !! l = Some sl -> sl_ln_open sl = false.
Proof.
  intros Hi [Hc Hno] Ht. unfold todo in Ht.
  assert (rs_closers (sv_rs s) = []) as Ecl.
  { destruct (rs_closers (sv_rs s)) as [|c cs] eqn:E; [done|]. rewrite <-E in Ht.
    assert (closer_work c = 0%nat) as H by (apply (work_0 closer_work (rs_closers (sv_rs s))); [lia|rewrite E; by left]).
    by destruct c as [? []]. }
  split.
  - unfold wg. rewrite Ecl, filter_nil.
    rewrite (count_none running_handler), (count_none running_worker); [done| |].
    + intros w Hw. pose proof (work_0 worker_work (sv_workers s) w ltac:(lia) Hw) as H. unfold worker_work in H. unfold running_worker.
      by destruct (w_phase w).
    + intros h Hh. pose proof (work_0 handler_work (sv_handlers s) h ltac:(lia) Hh) as H. apply list_elem_of_lookup in Hh as [i Hh].
      destruct h; try done. by destruct (Hno i).
  - intros l sl Hl. destruct (sl_ln_open sl) eqn:Eo; [|done]. destruct (si_rs _ Hi) as [Hr _].
    destruct (sl_closed sl) eqn:Es.
    + destruct (ri_ln _ Hr l sl Hl Es Eo) as [d Hd]. rewrite Ecl in Hd. by apply elem_of_nil in Hd.
    + destruct (ri_cl _ Hr Hc l sl Hl Es) as [d Hd]. rewrite Ecl in Hd. by apply elem_of_nil in Hd.
Qed.

Lemma own_steps_inv token s s' : rtc (own_step token) s s' -> sv_inv s -> closing s -> sv_inv s' /\ closing s'.
Proof.
  induction 1 as [|s s1 s2 Hs _ IH]; [done|]. intros Hi Hc. pose proof Hs as (ev & _ & H).
  apply IH; [by eapply serve_inv|by eapply own_step_closing].
Qed.

Lemma closing_finishes token s :
  sv_inv s -> closing s -> exists s', rtc (own_step token) s s' /\ wg s' = 0%nat
    /\ forall l sl, rs_store (sv_rs s') !! l = Some sl -> sl_ln_open sl = false.
Proof.
  remember (todo s) as n eqn:En. revert s En. induction n as [n IH] using lt_wf_ind. intros s -> Hi Hc.
  destruct (decide (todo s = 0%nat)) as [E|E]; [exists s; split; [done|by apply finished]|].
  destruct (progress token s Hi Hc E) as (s1 & Hs & Hlt).
  assert (rtc (own_step token) s s1) as Hr by (by apply rtc_once).
  destruct (own_steps_inv _ _ _ Hr Hi Hc) as [Hi1 Hc1].
  destruct (IH (todo s1) Hlt s1 eq_refl Hi1 Hc1) as (s2 & Hr2 & H2). exists s2. split; [by eapply rtc_l|done].
Qed.

Lemma serve_run_inv token evs s s' :
  serve_run token evs s = Some s' -> sv_inv s -> sv_inv s' /\ rtc rs_step (sv_rs s) (sv_rs s').
Proof.
  revert s. induction evs as [|ev evs IH]; intros s H Hi; simpl in H; [by injection H as <-|].
  apply bind_Some in H as (s1 & H1 & H2). destruct (IH s1 H2) as [? ?]; [by eapply serve_inv|].
  split; [done|]. etrans; [by eapply serve_refines|done].
Qed.

(** A handler in its set-up stays there until its peer lets it go on. *)
Definition sets_up (i : nat) (ev : event) : bool := match ev with ESetup k _ => bool_decide (k = i) | _ => false end.

Lemma setup_stays token i ev s s' :
  in_setup i s -> serve_apply token ev s = Some s' -> sets_up i ev = false -> in_setup i s'.
Proof.
  unfold in_setup. intros Hi H Hev.
  destruct ev as [| |k c|k|k|k|j listen|j|k| | | |k|l]; cbn [serve_apply] in H;
    repeat match type of H with
           | (_ ≫= _) = Some _ => apply bind_Some in H as (? & ? & H)
           end; unfold handler_step, worker_step in H;
    repeat match type of H with
           | context [match ?x with _ => _ end] => destruct x eqn:?
           end; simplify_eq/=; try done; try (by apply lookup_app_l_Some).
  all: try (destruct (decide (k = i)) as [->|]; [congruence|by rewrite list_lookup_insert_ne]).
  all: try (apply bool_decide_eq_false in Hev; by rewrite list_lookup_insert_ne).
Qed.

Lemma setup_stays_run token i evs s s' :
  in_setup i s -> serve_run token evs s = Some s' -> existsb (sets_up i) evs = false -> in_setup i s'.
Proof.
  revert s. induction evs as [|ev evs IH]; intros s Hi H He; simpl in *; [by injection H as <-|].
  apply bind_Some in H as (s1 & H1 & H2). apply orb_false_iff in He as [He1 He2].
  apply (IH s1); [by eapply setup_stays|done|done].
Qed.

Lemma in_setup_wg i s : in_setup i s -> (0 < wg s)%nat.
Proof.
  unfold in_setup, wg. intros Hi. destruct (filter _ (sv_handlers s)) as [|h l] eqn:E; [|simpl; lia].
  exfalso. eapply (filter_nil_not_elem_of _ _ _ E); [|by eapply list_elem_of_lookup_2]. done.
Qed.

(** ** Properties *)


(** A client that registers a tunnel, one that says nothing, and [Close]. *)
Definition demo_register : conn := conn_of (frame_bytes (mkFrame FrameRegister (packTunnels [mkTunnel 8080 "" "web:80"]))).
Definition demo_events : list event :=
  [EAccept; ESetup 0 demo_register; ETrack 0; ESpawn 0; EAttach 0 (Ok tt); ESpawn 0; EAccept; EClose; ECloseLn; EShut; EDie 0].

