(* ===== verification/Routing.v ===== *)
(** * Where a public connection ends up

    The remote server, its set-up of sessions and the multiplexed connection
    put together: every target a public connection is forwarded to was
    registered, for that port and bind address, by the client that gets the
    connection, in a session set-up that proved the token; and the client's end
    of the control connection opens a channel to that very target. *)
From S2P Require Import Prelude Conn Frame Tunnels Auth Stream Mux RemoteServer Serve.

Section Registered.
(** What the [i]-th client has registered. *)
Variable registered : nat -> RemoteTunnel -> Prop.

(** A listener's entry comes from a registration for its own address. *)
Definition entries_ok (sl : sharedListener) : Prop :=
  forall cc target, sl_conns sl !! cc = Some target -> registered cc (mkTunnel (sl_port sl) (sl_bindAddr sl) target).

Definition pending (h : handler) : list RemoteTunnel :=
  match h with HReady ts | HSpawning ts => ts | _ => [] end.

Record reg_inv (s : server) : Prop := {
  rg_handlers : forall i h t, sv_handlers s !! i = Some h -> t ∈ pending h -> registered i t;
  rg_workers : forall w, w ∈ sv_workers s -> registered (w_cc w) (w_tunnel w);
  rg_store : Forall entries_ok (rs_store (sv_rs s));
}.

(** ** The tables *)

Lemma entries_ok_insert l sl st : Forall entries_ok st -> entries_ok sl -> Forall entries_ok (<[l := sl]> st).
Proof. intros Hst Hsl. by apply Forall_insert. Qed.

Lemma attach_entries t cc listen rs r rs' :
  attachSharedListener (RemotePort t) (BindAddr t) (TargetAddr t) cc listen rs = (r, rs') ->
  rs_inv rs -> registered cc t -> Forall entries_ok (rs_store rs) -> Forall entries_ok (rs_store rs').
Proof.
  intros H Hi Hreg Hst.
  assert (forall m rs1, attach_new (RemotePort t) (BindAddr t) (TargetAddr t) cc listen (rs_set_listeners m rs) = (r, rs1) ->
    Forall entries_ok (rs_store rs1)) as Hnew.
  { intros m rs1 H1. unfold attach_new in H1. destruct listen; injection H1 as <- <-; [|done]. simpl.
    apply Forall_app. split; [done|]. apply Forall_singleton. intros c target. simpl.
    intros [<- <-]%lookup_singleton_Some. by destruct t. }
  unfold attachSharedListener in H. destruct (rs_closed rs); [by injection H as <- <-|].
  destruct (rs_listeners rs !! (RemotePort t, BindAddr t)) as [l|] eqn:El; simpl in H.
  2: { apply (Hnew (rs_listeners rs)). by destruct rs. }
  destruct (ri_key _ Hi _ _ El) as (sl & Hl & Hkey). rewrite Hl in H. simpl in H.
  destruct (sl_closed sl); [by eapply Hnew|]. injection H as <- <-. simpl. apply entries_ok_insert; [done|].
  rewrite Forall_lookup in Hst. pose proof (Hst l sl Hl) as Hsl. injection Hkey as Hp Hb.
  assert (sl_conns (sl_attach cc (TargetAddr t) sl) = <[cc := TargetAddr t]> (sl_conns sl)
    /\ sl_port (sl_attach cc (TargetAddr t) sl) = sl_port sl
    /\ sl_bindAddr (sl_attach cc (TargetAddr t) sl) = sl_bindAddr sl) as (E1 & E2 & E3)
    by (unfold sl_attach; by destruct (sl_conns sl !! cc)).
  intros c target. rewrite E1, E2, E3. intros [[<- <-]|[_ Hc]]%lookup_insert_Some; [|by apply Hsl].
  rewrite Hp, Hb. by destruct t.
Qed.

Lemma detach_entries l cc rs : Forall entries_ok (rs_store rs) -> Forall entries_ok (rs_store (detachSharedListener l cc rs)).
Proof.
  intros Hst. unfold detachSharedListener. destruct (rs_store rs !! l) as [sl|] eqn:El; simpl; [|done].
  unfold sl_detach. destruct (sl_conns sl !! cc) eqn:Ec; simpl; [|done].
  destruct (match index_of cc (sl_order sl) with Some _ => _ | None => _ end) as [order next].
  rewrite Forall_lookup in Hst. pose proof (Hst l sl El) as Hsl.
  assert (Forall entries_ok (<[l := sl_set (delete cc (sl_conns sl)) order next sl]> (rs_store rs))) as H.
  { apply entries_ok_insert; [by apply Forall_lookup|]. intros c target. simpl. intros [_ Hc]%lookup_delete_Some. by apply Hsl. }
  by case_match.
Qed.

Lemma closer_entries k rs : Forall entries_ok (rs_store rs) -> Forall entries_ok (rs_store (closer_step k rs)).
Proof.
  intros Hst. unfold closer_step. destruct (rs_closers rs !! k) as [c|]; simpl; [|done].
  destruct (rs_store rs !! cl_sl c) as [sl|] eqn:El; simpl; [|done]. destruct c as [l ph det]. simpl in El.
  rewrite Forall_lookup in Hst. pose proof (Hst l sl El) as Hsl. apply Forall_lookup in Hst.
  destruct ph; [destruct (sl_closed sl)| |case_decide]; simpl; try done; by apply entries_ok_insert.
Qed.

Lemma dispatch_entries l rs : Forall entries_ok (rs_store rs) -> Forall entries_ok (rs_store (rs_dispatch l rs).2).
Proof.
  intros Hst. unfold rs_dispatch. destruct (rs_store rs !! l) as [sl|] eqn:El; [|done].
  rewrite Forall_lookup in Hst. pose proof (Hst l sl El) as Hsl. apply Forall_lookup in Hst.
  unfold dispatch. destruct (sl_order sl); simpl; by apply entries_ok_insert.
Qed.

(** ** The goroutines *)

Lemma goto_reg i h rs' ln acc ws tc sh s :
  reg_inv s -> Forall entries_ok (rs_store rs') ->
  (forall t, t ∈ pending h -> registered i t) -> (forall w, w ∈ ws -> registered (w_cc w) (w_tunnel w)) ->
  reg_inv (mkServer rs' ln acc (<[i := h]> (sv_handlers s)) (sv_workers s ++ ws) tc sh).
Proof.
  intros [Hh Hw _] Hst Hp Hws. constructor; simpl; [| |done].
  - intros k x t [(<- & <- & _)|[_ Hx]]%list_lookup_insert_Some; [apply Hp|by apply (Hh k x)].
  - intros w [?|?]%elem_of_app; auto.
Qed.

Lemma workers_reg rs' ln acc j w p tc sh s :
  reg_inv s -> Forall entries_ok (rs_store rs') -> sv_workers s !! j = Some w ->
  reg_inv (mkServer rs' ln acc (sv_handlers s) (<[j := mkWorker (w_cc w) (w_tunnel w) p]> (sv_workers s)) tc sh).
Proof.
  intros [Hh Hw _] Hst Hj. constructor; simpl; [done| |done].
  intros x [k Hx]%list_elem_of_lookup. apply list_lookup_insert_Some in Hx as [(_ & <- & _)|[_ Hx]]; simpl;
    apply Hw; by eapply list_elem_of_lookup_2.
Qed.

Lemma tables_reg rs' ln acc tc sh s :
  reg_inv s -> Forall entries_ok (rs_store rs') -> reg_inv (mkServer rs' ln acc (sv_handlers s) (sv_workers s) tc sh).
Proof. intros [Hh Hw _] Hst. by constructor. Qed.

Lemma reg_step token ev s s' :
  serve_apply token ev s = Some s' -> sv_inv s ->
  (forall i c ts t, ev = ESetup i c -> (handleClient_setup token c).1 = Ok ts -> t ∈ ts -> registered i t) ->
  reg_inv s -> reg_inv s'.
Proof.
  intros H Hi Hset Hr. pose proof (rg_store _ Hr) as Hst. pose proof (rg_handlers _ Hr) as Hh.
  assert (forall rs h i, Forall entries_ok (rs_store rs) -> (forall t, t ∈ pending h -> registered i t) ->
    reg_inv (goto i h (sv_set_rs rs s))) as Hgo.
  { intros rs h i Hrs Hp. pose proof (goto_reg i h rs (sv_ln_open s) (sv_accepting s) [] (sv_toclose s) (sv_shut s) s Hr Hrs Hp) as G.
    rewrite app_nil_r in G. apply G. intros w Hw. by apply elem_of_nil in Hw. }
  destruct ev; cbn [serve_apply] in H;
    try (apply bind_Some in H as (x & Hx & H)); unfold handler_step, worker_step in H.
  - destruct (_ && _); [|done]. injection H as <-. constructor; simpl; [|apply (rg_workers _ Hr)|done].
    intros i h t [Hx|[_ Hx]]%lookup_app_Some; [by apply (Hh i h)|].
    apply list_lookup_singleton_Some in Hx as [_ <-]. intros Ht. by apply elem_of_nil in Ht.
  - destruct (sv_accepting s); [|done]. injection H as <-. by apply tables_reg.
  - destruct x; try done. injection H as <-. apply (Hgo (sv_rs s)); [done|].
    destruct (handleClient_setup token c).1 as [ts|] eqn:E; intros t Ht; [by eapply Hset|by apply elem_of_nil in Ht].
  - destruct x as [|ts| | |]; try done. unfold trackConn in H. destruct (rs_closed (sv_rs s)); injection H as <-; apply Hgo; try done.
    + intros t Ht. by apply elem_of_nil in Ht.
    + intros t Ht. by apply (Hh i (HReady ts)).
  - destruct x as [| |[|t ts]| |]; try done; injection H as <-.
    + apply (Hgo (sv_rs s)); [done|]. intros t Ht. by apply elem_of_nil in Ht.
    + apply (goto_reg i (HSpawning ts) (sv_rs s) (sv_ln_open s) (sv_accepting s) [mkWorker i t WAttach] (sv_toclose s) (sv_shut s) s Hr Hst).
      * intros u Hu. apply (Hh i (HSpawning (t :: ts))); [done|by right].
      * intros w ->%list_elem_of_singleton. apply (Hh i (HSpawning (t :: ts))); [done|by left].
  - destruct x; try done. case_decide; [|done]. injection H as <-. apply Hgo; [done|]. intros t Ht. by apply elem_of_nil in Ht.
  - destruct (w_phase x); try done. destruct (attachSharedListener _ _ _ _ _ _) as [r rs] eqn:E. injection H as <-.
    apply (workers_reg rs _ _ j x _ _ _ s Hr); [|done]. eapply attach_entries; [done|apply (si_rs _ Hi)| |done].
    apply (rg_workers _ Hr). by eapply list_elem_of_lookup_2.
  - destruct (w_phase x) as [|l|]; try done. case_decide; [|done]. injection H as <-.
    apply (workers_reg _ _ _ j x _ _ _ s Hr); [|done]. by apply detach_entries.
  - case_decide; [|done]. injection H as <-. apply tables_reg; [done|]. by apply closer_entries.
  - destruct (rs_closed (sv_rs s)) eqn:Ec; [done|]. injection H as <-. apply tables_reg; [done|]. unfold rs_Close. by rewrite Ec.
  - destruct (_ && _); [|done]. injection H as <-. by apply tables_reg.
  - destruct (sv_toclose s); [done|]. injection H as <-. by apply tables_reg.
  - case_decide; [|done]. injection H as <-. by apply tables_reg.
  - injection H as <-. apply tables_reg; [done|]. by apply dispatch_entries.
Qed.
End Registered.

(** What the clients of a run have registered. *)
Definition registrations (token : string) (evs : list event) (i : nat) (t : RemoteTunnel) : Prop :=
  exists c ts, ESetup i c ∈ evs /\ (handleClient_setup token c).1 = Ok ts /\ t ∈ ts.

Lemma serve_run_registered token evs0 evs s s' :
  serve_run token evs s = Some s' -> sv_inv s -> (forall ev, ev ∈ evs -> ev ∈ evs0) ->
  reg_inv (registrations token evs0) s -> reg_inv (registrations token evs0) s'.
Proof.
  revert s. induction evs as [|ev evs IH]; intros s H Hi Hin Hr; simpl in H; [by injection H as <-|].
  apply bind_Some in H as (s1 & H1 & H2). apply (IH s1 H2).
  - by eapply serve_inv.
  - intros x Hx. apply Hin. by right.
  - apply (reg_step _ token ev s); [done|done| |done]. intros i c ts t -> Hts Ht. exists c, ts.
    split_and!; [apply Hin; by left|done|done].
Qed.

(** What the other end makes of the frame of [OpenChannel]. *)
Lemma open_at_peer target (srv cli : CtrlConn) :
  tx_room (cc_conn srv) = None -> 0 <= cc_nextID srv < 2 ^ 32 -> (length (cc_newCh cli) < newCh_cap)%nat ->
  zlen (bytes_of target) < 65530 ->
  exists f l' srv' cli', OpenChannel target srv = (Ok l', srv')
    /\ tx (cc_conn srv') = tx (cc_conn srv) ++ frame_bytes f
    /\ handleFrame f cli = cli' /\ cc_newCh cli' = cc_newCh cli ++ [length (cc_store cli)]
    /\ cc_store cli' !! length (cc_store cli) = Some (newChannel (cc_nextID srv) target).
Proof.
  intros Hroom Hid Hq Hlen. pose proof (zlen_nonneg (bytes_of target)).
  destruct (OpenChannel_at_peer target srv cli Hroom) as (l' & srv' & f & H1 & H2 & _ & _ & _ & H3);
    [change maxFramePayload with (2 ^ 24); lia|done|done|].
  rewrite Z.mod_small, decide_False in H3 by lia.
  exists f, l', srv', (handleFrame f cli). split_and!; try done; rewrite H3; simpl; [done|].
  rewrite lookup_app_r, Nat.sub_diag by lia. simpl. do 2 f_equal.
  unfold zlen. by rewrite Nat2Z.id, firstn_all, string_of_bytes_of.
Qed.

(** [dispatch] hands out an entry of the listener. *)
Lemma dispatch_entry sl cc target sl' :
  sl_ok sl -> dispatch sl = (Some (cc, target), sl') -> sl_conns sl !! cc = Some target.
Proof.
  intros (_ & Hdom & Hn) H. unfold dispatch in H. destruct (sl_order sl) as [|o0 o] eqn:Eo; [done|]. rewrite <-Eo in *.
  destruct Hn as [Hlt|[Hnil _]]; [|by rewrite Eo in Hnil]. injection H as Hcc Ht _.
  rewrite Nat.mod_small in Hcc, Ht by done. destruct (lookup_lt_is_Some_2 _ _ Hlt) as [y Hy].
  rewrite Hy in Hcc, Ht. simpl in Hcc, Ht. subst y.
  destruct (proj1 (Hdom cc)) as [t E]; [by eapply list_elem_of_lookup_2|]. rewrite E in Ht |- *. by subst.
Qed.

(** ** Properties *)


(** A client with the token registers port 8080; a public connection arrives. *)
Definition demo_session : conn := conn_of (setup_bytes "secret" (packTunnels [mkTunnel 8080 "" "web:80"])).
Definition demo_run : list event := [EAccept; ESetup 0 demo_session; ETrack 0; ESpawn 0; EAttach 0 (Ok tt)].

