(* ===== verification/Backoff.v ===== *)
(** * The reconnect delay ([src/relay/reconnect.go])

    The delay is computed in [float64].  Floats are the binary64 numbers of
    [SpecFloat], with the operations rounded to nearest even, each on its own
    (no fused multiply-add, which Go may use on some processors); a
    [time.Duration] is a number of nanoseconds. *)
From Stdlib Require Import Floats.SpecFloat.
From S2P Require Import Prelude.

Definition fmul : spec_float -> spec_float -> spec_float := SFmul 53 1024.
Definition fadd : spec_float -> spec_float -> spec_float := SFadd 53 1024.
Definition fsub : spec_float -> spec_float -> spec_float := SFsub 53 1024.

(** [float64(z)] and [time.Duration(f)], which truncates. *)
Definition float64 (z : Z) : spec_float := binary_normalize 53 1024 z 0 false.
Definition Duration (f : spec_float) : Z :=
  match f with
  | S754_finite s m e =>
      let v := if decide (0 <= e) then Z.pos m * 2 ^ e else Z.pos m / 2 ^ (- e) in
      if s then - v else v
  | _ => 0
  end.

Record BackoffConfig := mkBackoff {
  bo_BaseDelay : Z;
  bo_MaxDelay : Z;
  bo_JitterRatio : spec_float;
}.

Definition Second : Z := 1000000000.

(** The constant 0.2 is the double nearest to it. *)
Definition DefaultBackoff : BackoffConfig :=
  mkBackoff Second (30 * Second) (S754_finite false 7205759403792794 (-55)).

Fixpoint double (n : nat) (d : spec_float) : spec_float :=
  match n with O => d | S n => double n (fmul d (float64 2)) end.

(** The delay before the jitter: the loop and the cap. *)
Definition backoff_base (cfg : BackoffConfig) (attempt : Z) : spec_float :=
  let n := Z.min attempt 30 in
  let d := double (Z.to_nat n) (float64 (bo_BaseDelay cfg)) in
  if SFltb (float64 (bo_MaxDelay cfg)) d then float64 (bo_MaxDelay cfg) else d.

(** [BackoffDelay]; [r] is what [rand.Float64()] returns. *)
Definition BackoffDelay (cfg : BackoffConfig) (attempt : Z) (r : spec_float) : Z :=
  let d := backoff_base cfg attempt in
  let jitter := fmul d (bo_JitterRatio cfg) in
  Duration (fadd (fsub d jitter) (fmul (fmul r (float64 2)) jitter)).

(** The values of [rand.Float64()]: multiples of [2^-53] below one. *)
Definition rand_float (k : Z) : spec_float := binary_normalize 53 1024 k (-53) false.

(** ** Lemmas *)

Lemma backoff_base_large cfg n : 30 <= n -> backoff_base cfg n = backoff_base cfg 30.
Proof. intros Hn. unfold backoff_base. by rewrite !Z.min_r by lia. Qed.

Lemma backoff_base_neg cfg n : n <= 0 -> backoff_base cfg n = backoff_base cfg 0.
Proof. intros Hn. unfold backoff_base. rewrite !Z.min_l by lia. by rewrite (Z2Nat.nonpos n). Qed.

Lemma BackoffDelay_base cfg n n' r :
  backoff_base cfg n = backoff_base cfg n' -> BackoffDelay cfg n r = BackoffDelay cfg n' r.
Proof. intros E. unfold BackoffDelay. by rewrite E. Qed.

(** The delay before the jitter, in exact arithmetic. *)
Definition exact_base (attempt : Z) : Z := Z.min (Second * 2 ^ Z.max 0 (Z.min attempt 30)) (30 * Second).

Definition delays_ok (n : Z) : bool :=
  bool_decide (Duration (backoff_base DefaultBackoff n) = exact_base n)
  && bool_decide (5 * BackoffDelay DefaultBackoff n (rand_float 0) = 4 * exact_base n)
  && bool_decide (5 * BackoffDelay DefaultBackoff n (rand_float (2 ^ 53 - 1)) = 6 * exact_base n).

Lemma delays_ok_all : forallb (fun n => delays_ok (Z.of_nat n)) (seq 0 31) = true.
Proof. vm_compute. reflexivity. Qed.

(** ** Properties *)

(** The reconnect delays are what they are meant to be, without rounding
    errors: for every attempt number the delay before the jitter is exactly
    [min (1s * 2^attempt) 30s] (1, 2, 4, 8, 16, 30, 30, ... seconds; a negative
    attempt counts as the first), and the jitter spans exactly 80% to 120% of
    it -- so that the delay can exceed the 30 s maximum by 6 s. *)
Theorem BackoffDelay_exact (attempt : Z) :
  Duration (backoff_base DefaultBackoff attempt) = exact_base attempt
  /\ 5 * BackoffDelay DefaultBackoff attempt (rand_float 0) = 4 * exact_base attempt
  /\ 5 * BackoffDelay DefaultBackoff attempt (rand_float (2 ^ 53 - 1)) = 6 * exact_base attempt.
Proof.
  assert (exists n, 0 <= n <= 30 /\ backoff_base DefaultBackoff attempt = backoff_base DefaultBackoff n
    /\ exact_base attempt = exact_base n) as (n & Hn & Hb & He).
  { unfold exact_base. destruct (decide (attempt <= 0)); [|destruct (decide (30 <= attempt))].
    - exists 0. split; [lia|]. split; [by apply backoff_base_neg|]. do 3 f_equal. lia.
    - exists 30. split; [lia|]. split; [by apply backoff_base_large|]. do 3 f_equal. lia.
    - exists attempt. split; [lia|done]. }
  rewrite Hb, He, !(BackoffDelay_base _ _ _ _ Hb).
  pose proof (proj1 (List.forallb_forall _ _) delays_ok_all (Z.to_nat n)) as H. cbv beta in H. rewrite Z2Nat.id in H by lia.
  specialize (H ltac:(apply List.in_seq; lia)).
  unfold delays_ok in H. by apply andb_prop in H as [[?%bool_decide_eq_true ?%bool_decide_eq_true]%andb_prop ?%bool_decide_eq_true].
Qed.
