(* ===== verification/RemoteClient.v ===== *)
(** * The remote client's reconnect loop ([src/relay/remoteclient.go])

    [Run] is a goroutine whose position is [rc_phase]; [Close] is called by
    another one, at any moment.  The control connections of the client are
    numbered in the order it makes them; [rc_conns] says which of them [Close]
    has closed.  Everything up to the control connection is [connect_setup] of
    [Auth.v], the delays are those of [Backoff.v], and the channels of a
    session belong to [Mux.v]: here they only set the last error. *)
From S2P Require Import Prelude Conn Frame Tunnels Auth Backoff.
From Stdlib Require Import Floats.SpecFloat.

Inductive client_phase :=
  | PTop                            (* at the head of the loop *)
  | PConnect                        (* in [connect], before [rc.cc] is set *)
  | PSession (n : nat)              (* in [handleChannels] on connection [n] *)
  | PReturned (err : option error)  (* [connect] has returned *)
  | PSleep (delay : Z)              (* waiting for the delay or for [Close] *)
  | PDone.                          (* [Run] has returned *)

Record RemoteClient := mkRC {
  rc_stopped : bool;                (* [stopCh] is closed *)
  rc_cc : option nat;
  rc_conns : list bool;             (* closed by [Close] *)
  rc_phase : client_phase;
  rc_attempt : Z;
  rc_reconnectCount : Z;
  rc_lastErr : option error;
  rc_panic : bool;
}.

Definition NewRemoteClient : RemoteClient := mkRC false None [] PTop 0 0 None false.

Definition rc_at (ph : client_phase) (rc : RemoteClient) : RemoteClient :=
  mkRC (rc_stopped rc) (rc_cc rc) (rc_conns rc) ph (rc_attempt rc) (rc_reconnectCount rc) (rc_lastErr rc) (rc_panic rc).

Definition setLastErr (e : error) (rc : RemoteClient) : RemoteClient :=
  mkRC (rc_stopped rc) (rc_cc rc) (rc_conns rc) (rc_phase rc) (rc_attempt rc) (rc_reconnectCount rc) (Some e) (rc_panic rc).

Definition IsConnected (rc : RemoteClient) : bool := bool_decide (rc_cc rc <> None).

(** [connect] up to the control connection; [dial] is what the dial gives. *)
Definition connect (dial : result conn) (token : string) (tunnels : list RemoteTunnel) : result conn :=
  match dial with
  | Err e => Err (Wrapf "dial server: %w" [] e)
  | Ok c => match connect_setup token tunnels c with
            | (Err e, _) => Err e
            | (Ok _, c) => Ok c
            end
  end.

(** The head of the loop. *)
Definition client_top (rc : RemoteClient) : RemoteClient :=
  rc_at (if rc_stopped rc then PDone else PConnect) rc.

(** The outcome of [connect]'s first part: an error, or a session. *)
Definition client_connect (r : result conn) (rc : RemoteClient) : RemoteClient :=
  match r with
  | Err e => rc_at (PReturned (Some e)) rc
  | Ok _ =>
      let n := length (rc_conns rc) in
      mkRC (rc_stopped rc) (Some n) (rc_conns rc ++ [false]) (PSession n) (rc_attempt rc) (rc_reconnectCount rc)
        (rc_lastErr rc) (rc_panic rc)
  end.

(** [AcceptChannel] fails with [e]: [handleChannels] and [connect] return. *)
Definition client_session_end (e : error) (rc : RemoteClient) : RemoteClient :=
  mkRC (rc_stopped rc) None (rc_conns rc) (PReturned None) (rc_attempt rc) (rc_reconnectCount rc)
    (Some (Wrapf "accept channel: %w" [] e)) (rc_panic rc).

(** The rest of the loop body; [r] is what [rand.Float64()] returns. *)
Definition client_returned (err : option error) (r : spec_float) (rc : RemoteClient) : RemoteClient :=
  match err with
  | None => mkRC (rc_stopped rc) (rc_cc rc) (rc_conns rc) PTop 0 (rc_reconnectCount rc) (rc_lastErr rc) (rc_panic rc)
  | Some e =>
      if rc_stopped rc then rc_at PDone rc
      else mkRC (rc_stopped rc) (rc_cc rc) (rc_conns rc) (PSleep (BackoffDelay DefaultBackoff (rc_attempt rc) r))
             (rc_attempt rc + 1) (int64 (rc_reconnectCount rc + 1)) (Some e) (rc_panic rc)
  end.

(** [Close]: closing [stopCh] a second time panics. *)
Definition client_Close (rc : RemoteClient) : RemoteClient :=
  if rc_stopped rc
  then mkRC true (rc_cc rc) (rc_conns rc) (rc_phase rc) (rc_attempt rc) (rc_reconnectCount rc) (rc_lastErr rc) true
  else mkRC true (rc_cc rc) (match rc_cc rc with Some n => <[n := true]> (rc_conns rc) | None => rc_conns rc end)
         (rc_phase rc) (rc_attempt rc) (rc_reconnectCount rc) (rc_lastErr rc) (rc_panic rc).

(** Who makes a step: [Run], the server or the network, a user of the client. *)
Inductive actor := ByClient | ByPeer | ByUser.

Inductive client_step (rc : RemoteClient) : actor -> RemoteClient -> Prop :=
  | rcs_top : rc_phase rc = PTop -> client_step rc ByClient (client_top rc)
  | rcs_connect dial token tunnels :
      rc_phase rc = PConnect -> client_step rc ByClient (client_connect (connect dial token tunnels) rc)
  | rcs_closed n e :     (* the read loop fails on the connection [Close] closed *)
      rc_phase rc = PSession n -> rc_conns rc !! n = Some true ->
      client_step rc ByClient (client_session_end e rc)
  | rcs_lost n e :       (* the server went away, or the keep-alive gave up *)
      rc_phase rc = PSession n -> client_step rc ByPeer (client_session_end e rc)
  | rcs_returned err k :
      rc_phase rc = PReturned err -> client_step rc ByClient (client_returned err (rand_float k) rc)
  | rcs_wake d : rc_phase rc = PSleep d -> client_step rc ByClient (rc_at PTop rc)
  | rcs_woken d : rc_phase rc = PSleep d -> rc_stopped rc = true -> client_step rc ByClient (rc_at PDone rc)
  | rcs_target e :       (* [relayChannel] cannot dial the local target *)
      client_step rc ByPeer (setLastErr e rc)
  | rcs_close : client_step rc ByUser (client_Close rc).

Definition any_step (rc rc' : RemoteClient) : Prop := exists a, client_step rc a rc'.
Definition own_step (rc rc' : RemoteClient) : Prop := client_step rc ByClient rc'.

(** The invariant: [rc.cc] is set during a session and only then, to the last
    connection made, which [Close] closed if it came during the session. *)
Record rc_inv (rc : RemoteClient) : Prop := {
  ri_cc : match rc_phase rc with
          | PSession n => rc_cc rc = Some n /\ S n = length (rc_conns rc)
          | _ => rc_cc rc = None
          end;
  ri_attempt : 0 <= rc_attempt rc;
}.

(** ** Lemmas *)

Lemma rc_inv_init : rc_inv NewRemoteClient.
Proof. by constructor. Qed.

#[export] Instance client_preserves : Preserves any_step rc_inv.
Proof.
  intros rc rc' [a Hs] [Hc Ha]. destruct Hs as [Hp|dial token ts Hp|n e Hp _|n e Hp|err k Hp|d Hp|d Hp _|e|];
    try rewrite Hp in Hc.
  - constructor; simpl; [|done]. by destruct (rc_stopped rc).
  - destruct (connect dial token ts); constructor; simpl; try done. split; [done|]. rewrite length_app. simpl. lia.
  - by constructor.
  - by constructor.
  - unfold client_returned. destruct err as [e|]; [destruct (rc_stopped rc)|]; constructor; simpl; try done; lia.
  - by constructor.
  - by constructor.
  - by constructor.
  - unfold client_Close. destruct (rc_stopped rc); constructor; simpl; try done.
    destruct (rc_phase rc); [done|done| |done..]. destruct Hc as [-> Hl]. by rewrite length_insert.
Qed.

(** A closed client on its way out: it dials no more. *)
Definition leaving (conns : list bool) (rc : RemoteClient) : Prop :=
  rc_stopped rc = true /\ rc_conns rc = conns
  /\ match rc_phase rc with
     | PConnect => False
     | PSession n => rc_conns rc !! n = Some true
     | _ => True
     end.

#[export] Instance leaving_preserves conns : Preserves any_step (leaving conns).
Proof.
  intros rc rc' [a Hs] (Hst & Hc & Hp).
  destruct Hs as [E|dial token ts E|n e E _|n e E|err k E|d E|d E _|e|]; unfold leaving in *; try rewrite E in Hp; simpl.
  - by rewrite Hst.
  - done.
  - done.
  - done.
  - unfold client_returned. rewrite Hst. by destruct err.
  - done.
  - done.
  - done.
  - unfold client_Close. by rewrite Hst.
Qed.

(** The own steps a client that is leaving still makes. *)
Definition steps_left (rc : RemoteClient) : nat :=
  match rc_phase rc with
  | PSession _ => 3 | PReturned (Some _) => 1 | PReturned None => 2 | PSleep _ => 2 | PTop => 1 | _ => 0
  end.

Lemma leaving_step conns rc rc' : leaving conns rc -> own_step rc rc' -> (steps_left rc' < steps_left rc)%nat.
Proof.
  intros (Hst & _ & Hp) Hs. inversion Hs as [E|dial token ts E|n e E _|n e E|err k E|d E|d E _|e|]; subst;
    unfold steps_left; rewrite E; simpl; try lia.
  - rewrite Hst. lia.
  - by rewrite E in Hp.
  - unfold client_returned. rewrite Hst. destruct err; simpl; lia.
Qed.

Lemma leaving_steps conns rc n rc' : leaving conns rc -> nsteps own_step n rc rc' -> (n + steps_left rc' <= steps_left rc)%nat.
Proof.
  intros Hl Hn. revert Hl. induction Hn as [rc|n rc rc1 rc2 Hs _ IH]; intros Hl; [lia|].
  pose proof (leaving_step conns rc rc1 Hl Hs).
  specialize (IH (preserves (inv := leaving conns) rc rc1 (ex_intro _ ByClient Hs) Hl)). lia.
Qed.

Lemma leaving_goes_on conns rc : leaving conns rc -> rc_phase rc = PDone \/ exists rc', own_step rc rc'.
Proof.
  intros (Hst & Hc & Hp). destruct (rc_phase rc) as [| |n|err|d|] eqn:E; [right|done|right..|by left].
  - eexists. by apply rcs_top.
  - eexists. by apply (rcs_closed _ n EOF).
  - eexists. by apply (rcs_returned _ err 0).
  - eexists. by eapply rcs_wake.
Qed.

(** ** Properties *)

(** C14: [Close] stops the client, except while it is dialling: called at any
    reachable moment outside [connect]'s set-up, no connection is made
    afterwards whatever happens, a session in progress is closed, and [Run]
    returns after at most three of its own steps -- it is never stuck. *)
Theorem client_Close_stops (rc rc' : RemoteClient) :
  rtc any_step NewRemoteClient rc -> rc_stopped rc = false -> rc_phase rc <> PConnect ->
  rtc any_step (client_Close rc) rc' ->
  rc_conns rc' = rc_conns (client_Close rc)
  /\ (forall n, rc_phase rc' = PSession n -> rc_conns rc' !! n = Some true)
  /\ (rc_phase rc' = PDone \/ exists rc'', own_step rc' rc'')
  /\ (forall k rc'', nsteps own_step k rc' rc'' -> (k <= 3)%nat).
Proof.
  intros Hr Hst Hph Hr'. destruct (reachable _ _ Hr rc_inv_init) as [Hcc _].
  assert (leaving (rc_conns (client_Close rc)) (client_Close rc)) as Hl.
  { unfold leaving, client_Close. rewrite Hst. simpl. split; [done|]. split; [done|].
    destruct (rc_phase rc) as [| |n| | |]; try done. destruct Hcc as [-> Hn].
    apply list_lookup_insert_eq. lia. }
  pose proof (reachable (inv := leaving _) _ _ Hr' Hl) as Hl'. destruct Hl' as (? & Hc & Hp). split_and!.
  - done.
  - intros n E. by rewrite E in Hp.
  - by eapply leaving_goes_on.
  - intros k rc'' Hk. pose proof (leaving_steps (rc_conns (client_Close rc)) rc' k rc'' ltac:(done) Hk).
    assert (steps_left rc' <= 3)%nat by (unfold steps_left; destruct (rc_phase rc') as [| | |[]| |]; lia). lia.
Qed.

(** A client whose first connection has been set up. *)
Definition demo_session : RemoteClient :=
  client_connect (connect (Ok (conn_of [])) "" []) (client_top NewRemoteClient).

Lemma demo_session_reachable : rtc any_step NewRemoteClient demo_session.
Proof.
  eapply rtc_l; [exists ByClient; by apply rcs_top|].
  eapply rtc_l; [exists ByClient; by apply (rcs_connect _ (Ok (conn_of [])) "" [])|]. apply rtc_refl.
Qed.

Lemma client_Close_stops_witness :
  rc_conns (client_Close demo_session) = [true] /\ exists rc'', own_step (client_Close demo_session) rc''.
Proof.
  destruct (client_Close_stops demo_session (client_Close demo_session) demo_session_reachable) as (_ & _ & H & _).
  - reflexivity.
  - discriminate.
  - apply rtc_refl.
  - split; [reflexivity|]. destruct H as [H|H]; [discriminate H|exact H].
Defined.

(** A [Close] during the dial is lost: while the client dials or registers
    it finds no connection to close, and [connect] does not look at
    [stopCh] again before it starts the session.  The client ends up connected
    after it was closed, with a session that only the server or the network
    can end -- no step of the client or of its user does, unless a second
    [Close] crashes the process. *)
Theorem client_Close_lost :
  exists rc, rtc any_step NewRemoteClient rc /\ rc_stopped rc = true /\ IsConnected rc = true
    /\ rc_conns rc = [false]
    /\ forall rc', rtc (fun a b => client_step a ByClient b \/ client_step a ByUser b) rc rc' ->
         rc_phase rc' = PSession 0 /\ rc_conns rc' = [false] /\ (rc' = rc \/ rc_panic rc' = true).
Proof.
  set (rc := client_connect (connect (Ok (conn_of [])) "" []) (client_Close (client_top NewRemoteClient))).
  exists rc. split.
  { eapply rtc_l; [exists ByClient; by apply rcs_top|]. eapply rtc_l; [exists ByUser; apply rcs_close|].
    eapply rtc_l; [exists ByClient; by apply (rcs_connect _ (Ok (conn_of [])) "" [])|]. apply rtc_refl. }
  split; [done|]. split; [done|]. split; [done|].
  assert (Preserves (fun a b => client_step a ByClient b \/ client_step a ByUser b)
    (fun x => rc_stopped x = true /\ rc_phase x = PSession 0 /\ rc_conns x = [false]
              /\ (x = rc \/ rc_panic x = true))) as Hpres.
  { intros x y Hs (Hst & Hp & Hc & _).
    destruct Hs as [Hs|Hs]; inversion Hs as [E|? ? ? E|n ? E Hn|n ? E|? ? E|? E|? E|e|]; subst;
      try (rewrite Hp in E; discriminate E).
    - rewrite Hp in E. injection E as <-. by rewrite Hc in Hn.
    - unfold client_Close. rewrite Hst. simpl. auto. }
  intros rc' Hr. destruct (reachable _ _ Hr) as (_ & ?); [|done]. auto.
Qed.
