(* ===== verification/Identity.v ===== *)
(** * The persistent TLS identity ([src/relay/identity.go], [SetupTLS] in
    [src/relay/tls.go])

    The identity of a directory is a key file and a certificate file.  Keys and
    their cryptography are parameters: [pub] is the public half of a key and
    [PublicKeyFingerprint] its fingerprint.  A certificate is what the code
    looks at: its public key and its expiry.  What the system and the random
    generator do during one call is a [call]; time is in seconds, the
    resolution of a certificate. *)
From S2P Require Import Prelude.

(** A file that is missing, cannot be read or decoded, or holds a value. *)
Inductive file (A : Type) := NoFile | BadFile | GoodFile (a : A).
Arguments NoFile {A}.
Arguments BadFile {A}.
Arguments GoodFile {A} a.

(** Writing a file: done, or failed with the old content left or not. *)
Inductive write_outcome := Written | WriteFailed (e : error) (kept : bool).

Definition write {A} (w : write_outcome) (a : A) (f : file A) : result unit * file A :=
  match w with
  | Written => (Ok tt, GoodFile a)
  | WriteFailed e kept => (Err e, if (kept : bool) then f else BadFile)
  end.

Definition day : Z := 24 * 3600.
Definition rotationWindow : Z := 30 * day.

Section Identity.
Context {key pubkey : Type} `{!EqDecision pubkey}.
Variable pub : key -> pubkey.
Variable PublicKeyFingerprint : pubkey -> result string.

Record cert := mkCert { ct_key : pubkey; ct_notAfter : Z }.

Record identity_dir := mkDir { id_key : file key; id_cert : file cert }.

Record call := mkCall {
  ca_now : Z;
  ca_mkdir : result unit;
  ca_newkey : result key;              (* [ecdsa.GenerateKey] *)
  ca_sign : result unit;               (* [rand.Int] and [x509.CreateCertificate] *)
  ca_write_key : write_outcome;
  ca_write_cert : write_outcome;
}.

(** The outcome of a load: certificate and fingerprint. *)
Definition loaded : Type := result (cert * string).

Record identity := mkIdentity {
  id_cache : gmap string loaded;
  id_dirs : gmap string identity_dir;
}.

Definition dir_of (dir : string) (st : identity) : identity_dir :=
  default (mkDir NoFile NoFile) (id_dirs st !! dir).

Definition certNeedsRotation (now : Z) (c : cert) : bool :=
  bool_decide (ct_notAfter c - now < rotationWindow).

Definition loadIdentityKey (d : identity_dir) : result key :=
  match id_key d with
  | GoodFile k => Ok k
  | NoFile => Err (OsError "ENOENT")
  | BadFile => Err (Errorf "no PEM data in %s" [])
  end.

(** [tls.LoadX509KeyPair]: both files, and the certificate is for the key. *)
Definition LoadX509KeyPair (d : identity_dir) : result cert :=
  match id_cert d, id_key d with
  | GoodFile c, GoodFile k =>
      if decide (ct_key c = pub k) then Ok c else Err (Errorf "tls: private key does not match public key" [])
  | _, _ => Err (OsError "ENOENT")
  end.

Definition tryLoadCert (now : Z) (k : key) (d : identity_dir) : result cert :=
  c ← LoadX509KeyPair d;
  if decide (now > ct_notAfter c) then Err (Errorf "identity certificate expired" []) else
  if certNeedsRotation now c then Err (Errorf "identity certificate near expiry" []) else
  if decide (ct_key c <> pub k) then Err (Errorf "certificate public key does not match identity key" []) else
  Ok c.

Definition generateCertWithKey (ca : call) (k : key) : result cert :=
  match ca_sign ca with
  | Err e => Err (Wrapf "create cert: %w" [] e)
  | Ok _ => Ok (mkCert (pub k) (ca_now ca + 365 * day))
  end.

Definition GenerateCert (ca : call) : result cert :=
  match ca_newkey ca with
  | Err e => Err (Wrapf "generate key: %w" [] e)
  | Ok k => generateCertWithKey ca k
  end.

(** The key: loaded, or a new one that is saved. *)
Definition identity_key (ca : call) (d : identity_dir) : result key * identity_dir :=
  match loadIdentityKey d with
  | Ok k => (Ok k, d)
  | Err _ =>
      match ca_newkey ca with
      | Err e => (Err (Wrapf "generate identity key: %w" [] e), d)
      | Ok k =>
          let '(r, f) := write (ca_write_key ca) k (id_key d) in
          (match r with Err e => Err (Wrapf "save identity key: %w" [] e) | Ok _ => Ok k end, mkDir f (id_cert d))
      end
  end.

Definition with_fingerprint (c : cert) (k : key) : loaded :=
  fp ← PublicKeyFingerprint (pub k); Ok (c, fp).

Definition loadOrGenerateIdentityLocked (ca : call) (d : identity_dir) : loaded * identity_dir :=
  match ca_mkdir ca with
  | Err e => (Err (Wrapf "identity mkdir: %w" [] e), d)
  | Ok _ =>
      match identity_key ca d with
      | (Err e, d) => (Err e, d)
      | (Ok k, d) =>
          match tryLoadCert (ca_now ca) k d with
          | Ok c => (with_fingerprint c k, d)
          | Err _ =>
              match generateCertWithKey ca k with
              | Err e => (Err (Wrapf "generate identity cert: %w" [] e), d)
              | Ok c =>
                  match write (ca_write_cert ca) c (id_cert d) with
                  | (Err e, f) => (Err (Wrapf "save identity cert: %w" [] e), mkDir (id_key d) f)
                  | (Ok _, f) => (with_fingerprint c k, mkDir (id_key d) f)
                  end
              end
          end
      end
  end.

(** The cached outcome, if it may be used at [now]: an error, or a certificate
    that is not close to its expiry. *)
Definition cached (now : Z) (dir : string) (st : identity) : option loaded :=
  match id_cache st !! dir with
  | Some (Err e) => Some (Err e)
  | Some (Ok (c, fp)) => if certNeedsRotation now c then None else Some (Ok (c, fp))
  | None => None
  end.

Definition LoadOrGenerateIdentity (dir : string) (ca : call) (st : identity) : loaded * identity :=
  if decide (dir = "") then
    (c ← GenerateCert ca; fp ← PublicKeyFingerprint (ct_key c); Ok (c, fp), st)
  else
  match cached (ca_now ca) dir st with
  | Some r => (r, st)
  | None =>
      let '(r, d) := loadOrGenerateIdentityLocked ca (dir_of dir st) in
      (r, mkIdentity (<[dir := r]> (id_cache st)) (<[dir := d]> (id_dirs st)))
  end.

Definition tlsCertFingerprint (c : cert) : result string := PublicKeyFingerprint (ct_key c).

(** The fields of a [TLSConfig] that [SetupTLS] sets: certificate, fingerprint,
    [Insecure].  [files] is what [tls.LoadX509KeyPair] makes of the given files,
    [dir] is [DefaultIdentityDir]. *)
Definition own_certificate (certFile keyFile : string) (files : result cert) (dir : string) (ca : call) (st : identity)
    : loaded * identity :=
  if decide (certFile <> "" /\ keyFile <> "")
  then (match files with
        | Err e => Err (Wrapf "tls cert: %w" [] e)
        | Ok c => match tlsCertFingerprint c with Err e => Err (Wrapf "tls fingerprint: %w" [] e) | Ok fp => Ok (c, fp) end
        end, st)
  else
    let '(r, st) := LoadOrGenerateIdentity dir ca st in
    (match r with Err e => Err (Wrapf "tls identity: %w" [] e) | Ok l => Ok l end, st).

Definition SetupTLS (certFile keyFile : string) (verify : bool) (files : result cert) (dir : string) (ca : call)
    (st : identity) : result (cert * string * bool) * identity :=
  let '(r, st) := own_certificate certFile keyFile files dir ca st in
  (l ← r; Ok (l, negb verify), st).

(** A process: a sequence of calls, for any directories. *)
Fixpoint calls (cs : list (string * call)) (st : identity) : list (string * loaded) * identity :=
  match cs with
  | [] => ([], st)
  | (dir, ca) :: cs =>
      let '(r, st) := LoadOrGenerateIdentity dir ca st in
      let '(rs, st) := calls cs st in ((dir, r) :: rs, st)
  end.

(** ** Lemmas *)

(** The key file of [dir] holds [k] and the cache agrees with it. *)
Definition identity_is (dir : string) (k : key) (st : identity) : Prop :=
  id_key (dir_of dir st) = GoodFile k
  /\ forall c fp, id_cache st !! dir = Some (Ok (c, fp)) -> ct_key c = pub k /\ PublicKeyFingerprint (pub k) = Ok fp.

Lemma with_fingerprint_Ok c k c' fp :
  with_fingerprint c k = Ok (c', fp) -> c' = c /\ PublicKeyFingerprint (pub k) = Ok fp.
Proof.
  unfold with_fingerprint. destruct (PublicKeyFingerprint (pub k)) as [f|e] eqn:E; simpl; [|done].
  by intros [= <- <-].
Qed.

Lemma tryLoadCert_Ok now k d c :
  tryLoadCert now k d = Ok c -> ct_key c = pub k /\ certNeedsRotation now c = false.
Proof.
  unfold tryLoadCert. destruct (LoadX509KeyPair d) as [x|]; simpl; [|done].
  case_decide; [done|]. destruct (certNeedsRotation now x) eqn:Er; [done|]. case_decide as Hk; [done|].
  intros [= <-]. split; [|done]. destruct (decide (ct_key x = pub k)); [done|tauto].
Qed.

Lemma generated_fresh ca k c :
  generateCertWithKey ca k = Ok c -> ct_key c = pub k /\ certNeedsRotation (ca_now ca) c = false.
Proof.
  unfold generateCertWithKey. destruct (ca_sign ca); [|done]. intros [= <-]. split; [done|].
  apply bool_decide_eq_false. simpl. unfold rotationWindow, day. lia.
Qed.

(** What a load from disk does: a success is for the key then in the key file,
    and a good key file is never touched. *)
Lemma load_spec ca d r d' :
  loadOrGenerateIdentityLocked ca d = (r, d') ->
  (forall k, id_key d = GoodFile k -> id_key d' = GoodFile k)
  /\ forall c fp, r = Ok (c, fp) -> exists k, id_key d' = GoodFile k /\ ct_key c = pub k
       /\ PublicKeyFingerprint (pub k) = Ok fp /\ certNeedsRotation (ca_now ca) c = false.
Proof.
  unfold loadOrGenerateIdentityLocked. destruct (ca_mkdir ca) as [|e]; [|by intros [= <- <-]].
  destruct (identity_key ca d) as [rk d1] eqn:Ek.
  assert ((forall k, id_key d = GoodFile k -> id_key d1 = GoodFile k) /\ forall k, rk = Ok k -> id_key d1 = GoodFile k)
    as [Hkeep Hk].
  { unfold identity_key, loadIdentityKey in Ek. destruct (id_key d) as [| |k] eqn:Ed;
      [destruct (ca_newkey ca), (ca_write_key ca)|destruct (ca_newkey ca), (ca_write_key ca)|];
      simpl in Ek; injection Ek as <- <-; rewrite ?Ed; split; simpl; congruence. }
  destruct rk as [k|e]; [|intros [= <- <-]; by split]. specialize (Hk k eq_refl).
  destruct (tryLoadCert (ca_now ca) k d1) as [c|] eqn:Et.
  - intros [= <- <-]. split; [done|]. intros c' fp [-> Hf]%with_fingerprint_Ok.
    apply tryLoadCert_Ok in Et as [? ?]. by exists k.
  - destruct (generateCertWithKey ca k) as [c|] eqn:Eg; [|intros [= <- <-]; by split].
    apply generated_fresh in Eg as [? ?]. destruct (ca_write_cert ca); simpl; intros [= <- <-]; simpl; (split; [done|]).
    + intros c' fp [-> Hf]%with_fingerprint_Ok. by exists k.
    + done.
Qed.

Lemma dir_of_insert dir dir' c d st :
  dir_of dir (mkIdentity c (<[dir' := d]> (id_dirs st))) = if decide (dir = dir') then d else dir_of dir st.
Proof.
  unfold dir_of. simpl. case_decide as Hd; [subst; by rewrite lookup_insert_eq|]. by rewrite lookup_insert_ne.
Qed.

(** One call keeps the identity of every directory, and a successful one answers
    with it. *)
Lemma call_identity dir k dir' ca st r st' :
  identity_is dir k st -> LoadOrGenerateIdentity dir' ca st = (r, st') ->
  identity_is dir k st' /\ (dir' = dir -> dir <> "" -> forall c fp, r = Ok (c, fp) ->
    ct_key c = pub k /\ PublicKeyFingerprint (pub k) = Ok fp /\ certNeedsRotation (ca_now ca) c = false).
Proof.
  intros [Hk Hc] H. unfold LoadOrGenerateIdentity in H. case_decide as Hd.
  { injection H as <- <-. split; [done|congruence]. }
  destruct (cached (ca_now ca) dir' st) as [r0|] eqn:Ec.
  - injection H as <- <-. split; [done|]. intros -> _ c fp ->. unfold cached in Ec.
    destruct (id_cache st !! dir) as [[[c0 fp0]|e]|] eqn:El; [|done..].
    destruct (certNeedsRotation (ca_now ca) c0) eqn:Er; [done|]. injection Ec as -> ->.
    destruct (Hc c fp eq_refl). by split_and!.
  - destruct (loadOrGenerateIdentityLocked ca (dir_of dir' st)) as [r0 d] eqn:El. injection H as <- <-.
    destruct (load_spec ca _ _ _ El) as [Hkeep Hok]. unfold identity_is. rewrite dir_of_insert. simpl.
    destruct (decide (dir = dir')) as [->|Hne].
    + specialize (Hkeep k Hk).
      assert (forall c fp, r0 = Ok (c, fp) -> ct_key c = pub k /\ PublicKeyFingerprint (pub k) = Ok fp
        /\ certNeedsRotation (ca_now ca) c = false) as Hr0.
      { intros c fp Hr. destruct (Hok c fp Hr) as (k' & Hk' & ? & ? & ?). rewrite Hkeep in Hk'.
        injection Hk' as <-. done. }
      split; [|auto]. split; [done|]. intros c fp Hin. rewrite lookup_insert_eq in Hin. injection Hin as Hin.
      by destruct (Hr0 c fp Hin) as (? & ? & _).
    + split; [|congruence]. split; [done|]. intros c fp. rewrite lookup_insert_ne by done. apply Hc.
Qed.

Lemma calls_identity dir k cs st rs st' :
  identity_is dir k st -> calls cs st = (rs, st') -> dir <> "" ->
  identity_is dir k st'
  /\ forall c fp, (dir, Ok (c, fp)) ∈ rs -> ct_key c = pub k /\ PublicKeyFingerprint (pub k) = Ok fp.
Proof.
  revert st rs. induction cs as [|[dir' ca] cs IH]; intros st rs Hi H Hd; simpl in H.
  { injection H as <- <-. split; [done|]. intros c fp Hin. set_solver. }
  destruct (LoadOrGenerateIdentity dir' ca st) as [r st1] eqn:E1. destruct (calls cs st1) as [rs1 st2] eqn:E2.
  injection H as <- <-. destruct (call_identity _ _ _ _ _ _ _ Hi E1) as [Hi1 Hr].
  destruct (IH st1 rs1 Hi1 E2 Hd) as [Hi2 Hrs]. split; [done|]. intros c fp [Heq|Hin]%elem_of_cons.
  - injection Heq as <- <-. destruct (Hr eq_refl Hd c fp eq_refl) as (? & ? & _). done.
  - by apply Hrs.
Qed.
End Identity.

(** ** Properties *)


(** Keys are numbers, the public key is the number doubled. *)
Definition demo_pub (k : Z) : Z := 2 * k.
Definition demo_fingerprint (p : Z) : result string := Ok (if decide (p = 14) then "SHA256:14" else "SHA256:other")%string.
Definition demo_call (now newkey : Z) : call := mkCall now (Ok tt) (Ok newkey) (Ok tt) Written Written.
Definition demo_identity : identity (key := Z) (pubkey := Z) :=
  mkIdentity ∅ {["id" := mkDir (GoodFile 7) NoFile]}.


(** A failure to load the identity is remembered for ever: once a call
    fails, every later call of the process for that directory returns the same
    error without looking at the disk again, whatever has been repaired in the
    meantime; only a restart helps. *)
Theorem identity_error_sticky {key pubkey : Type} `{!EqDecision pubkey} (pub : key -> pubkey)
    (fingerprint : pubkey -> result string) (dir : string) (ca ca' : call) (cs : list (string * call))
    (e : error) (st st1 st2 : identity) (rs : list (string * loaded)) :
  dir <> "" -> LoadOrGenerateIdentity pub fingerprint dir ca st = (Err e, st1) ->
  calls pub fingerprint cs st1 = (rs, st2) ->
  LoadOrGenerateIdentity pub fingerprint dir ca' st2 = (Err e, st2).
Proof.
  intros Hd H1 Hcs.
  assert (forall st r st', LoadOrGenerateIdentity pub fingerprint dir ca st = (r, st') -> r = Err e ->
    id_cache st' !! dir = Some (Err e)) as Hfirst.
  { intros s r s' H ->. unfold LoadOrGenerateIdentity, cached in H. rewrite decide_False in H by done.
    destruct (id_cache s !! dir) as [[[c fp]|e']|] eqn:Ec; [destruct (certNeedsRotation _ _)| |];
      try (injection H as H ?; discriminate H);
      try (destruct (loadOrGenerateIdentityLocked _ _ _ _); injection H as -> <-; simpl; by rewrite lookup_insert_eq).
    injection H as -> <-. done. }
  assert (id_cache st1 !! dir = Some (Err e)) as Hc1 by (by eapply Hfirst).
  assert (id_cache st2 !! dir = Some (Err e)) as Hc2.
  { clear H1 Hfirst. revert st1 rs Hcs Hc1. induction cs as [|[d a] cs IH]; intros s rs' H Hc; simpl in H.
    { by injection H as <- <-. }
    destruct (LoadOrGenerateIdentity pub fingerprint d a s) as [r s1] eqn:E1.
    destruct (calls pub fingerprint cs s1) as [rs1 s2] eqn:E2. injection H as <- <-.
    apply (IH s1 rs1 E2). unfold LoadOrGenerateIdentity in E1. case_decide; [by injection E1 as <- <-|].
    destruct (decide (d = dir)) as [->|Hne].
    - unfold cached in E1. rewrite Hc in E1. by injection E1 as <- <-.
    - destruct (cached _ d s); [by injection E1 as <- <-|].
      destruct (loadOrGenerateIdentityLocked _ _ _ _). injection E1 as <- <-. simpl. by rewrite lookup_insert_ne. }
  unfold LoadOrGenerateIdentity, cached. rewrite decide_False by done. by rewrite Hc2.
Qed.

(** The directory cannot be created at first. *)
Definition demo_failing : call (key := Z) :=
  mkCall 0 (Err (OsError "EACCES")) (Ok 1) (Ok tt) Written Written.

Lemma identity_error_sticky_witness :
  let st1 := (LoadOrGenerateIdentity demo_pub demo_fingerprint "id" demo_failing demo_identity).2 in
  (LoadOrGenerateIdentity demo_pub demo_fingerprint "id" (demo_call 0 1) st1).1
    = Err (Wrapf "identity mkdir: %w" [] (OsError "EACCES")).
Proof.
  intros st1. rewrite (identity_error_sticky demo_pub demo_fingerprint "id" demo_failing (demo_call 0 1) []
    (Wrapf "identity mkdir: %w" [] (OsError "EACCES")) demo_identity st1 st1 []); [reflexivity|discriminate|reflexivity|reflexivity].
Defined.
