(* ===== verification/GoStrings.v ===== *)
(** * The string functions of Go's standard library the code uses

    Strings are byte lists.  [strings.LastIndexByte], [strings.ContainsAny],
    [strings.Contains], [strings.HasPrefix], [strings.TrimSpace] (ASCII white
    space), [strconv.ParseUint] (base 10), [strconv.Atoi], [strconv.Itoa] and
    [net.JoinHostPort]. *)
From S2P Require Import Prelude.

Notation bytes := (list byte).

Definition colon : byte := x3a.
Definition newline : byte := x0a.

(** [strings.LastIndexByte(s, c)]: -1 when absent. *)
Fixpoint last_index_byte (s : bytes) (c : byte) : Z :=
  match s with
  | [] => -1
  | b :: s =>
      let i := last_index_byte s c in
      if decide (0 <= i) then i + 1 else if decide (b = c) then 0 else -1
  end.

(** [strings.ContainsAny(s, chars)]. *)
Definition contains_any (s chars : bytes) : bool := existsb (fun b => bool_decide (b ∈ chars)) s.

(** [strings.HasPrefix(s, p)]. *)
Fixpoint has_prefix (s p : bytes) : bool :=
  match p, s with
  | [], _ => true
  | _, [] => false
  | a :: p, b :: s => bool_decide (a = b) && has_prefix s p
  end.

(** [strings.Contains(s, sub)]. *)
Fixpoint contains (s sub : bytes) : bool :=
  has_prefix s sub || match s with [] => false | _ :: s => contains s sub end.

(** White space, and [strings.TrimSpace(s)]. *)
Definition is_space (b : byte) : bool :=
  bool_decide (b ∈ [x09; x0a; x0b; x0c; x0d; x20]).

Fixpoint trim_left (s : bytes) : bytes :=
  match s with b :: s' => if is_space b then trim_left s' else s | [] => [] end.

Definition TrimSpace (s : bytes) : bytes := rev (trim_left (rev (trim_left s))).

(** [strconv.ParseUint(s, 10, bits)]: digits only, checked against the largest
    value at every digit. *)
Definition digit_value (b : byte) : option Z :=
  let z := byte_to_Z b in if decide (48 <= z <= 57) then Some (z - 48) else None.

Definition num_error (fn : string) (s : bytes) (what : string) : error :=
  Errorf "strconv.%s: parsing %q: %s" [AStr fn; AStr (string_of s); AStr what].

Fixpoint parse_uint_loop (fn : string) (maxVal : Z) (s0 s : bytes) (n : Z) : result Z :=
  match s with
  | [] => Ok n
  | b :: s =>
      match digit_value b with
      | None => Err (num_error fn s0 "invalid syntax")
      | Some d =>
          let n1 := 10 * n + d in
          if decide (n1 > maxVal) then Err (num_error fn s0 "value out of range")
          else parse_uint_loop fn maxVal s0 s n1
      end
  end.

Definition parse_uint (fn : string) (s0 s : bytes) (bits : Z) : result Z :=
  if decide (s = []) then Err (num_error fn s0 "invalid syntax")
  else parse_uint_loop fn (2 ^ bits - 1) s0 s 0.

Definition ParseUint (s : bytes) (bits : Z) : result Z := parse_uint "ParseUint" s s bits.

(** [strconv.Atoi(s)]: an optional sign and digits, within [int64]. *)
Definition Atoi (s : bytes) : result Z :=
  let '(neg, digits) := match s with
    | x2d :: t => (true, t)
    | x2b :: t => (false, t)
    | _ => (false, s)
    end in
  un ← parse_uint "Atoi" s digits 64;
  if decide (un > if (neg : bool) then 2 ^ 63 else 2 ^ 63 - 1)
  then Err (num_error "Atoi" s "value out of range")
  else Ok (if neg then - un else un).

(** [strconv.Itoa(n)] of a non-negative [int]; 20 digits hold every [int64]. *)
Definition digit_byte (d : Z) : byte := byte_of_Z (48 + d).

Fixpoint itoa_loop (fuel : nat) (n : Z) (acc : bytes) : bytes :=
  match fuel with
  | O => acc
  | S fuel =>
      let acc := digit_byte (n mod 10) :: acc in
      if decide (n < 10) then acc else itoa_loop fuel (n / 10) acc
  end.

Definition Itoa (n : Z) : bytes := itoa_loop 20 n [].

(** [net.JoinHostPort(host, port)]. *)
Definition JoinHostPort (host port : bytes) : bytes :=
  if decide (colon ∈ host) then bytes_of "[" ++ host ++ bytes_of "]:" ++ port
  else host ++ colon :: port.

(** ** Lemmas *)

Lemma last_index_byte_range s c : -1 <= last_index_byte s c < zlen s.
Proof.
  induction s as [|b s IH]; [done|]. rewrite zlen_cons. pose proof (zlen_nonneg s). simpl.
  repeat case_decide; lia.
Qed.

Lemma last_index_byte_none s c : last_index_byte s c < 0 <-> c ∉ s.
Proof.
  induction s as [|b s IH]; [split; [set_solver|done]|]. simpl. rewrite not_elem_of_cons, <-IH.
  pose proof (last_index_byte_range s c). case_decide; [naive_solver lia|]. case_decide; [naive_solver lia|].
  split; [|lia]. intros _. split; [congruence|lia].
Qed.

Lemma last_index_byte_app a b c : c ∉ b -> last_index_byte (a ++ c :: b) c = zlen a.
Proof.
  intros Hb. apply last_index_byte_none in Hb. induction a as [|x a IH]; simpl.
  - rewrite (decide_False (P := 0 <= last_index_byte b c)) by lia. by rewrite decide_True.
  - rewrite IH, zlen_cons. pose proof (zlen_nonneg a). by rewrite decide_True by lia.
Qed.

(** Splitting at the last separator. *)
Lemma last_index_byte_split s c :
  0 <= last_index_byte s c ->
  exists a b, s = a ++ c :: b /\ c ∉ b /\ last_index_byte s c = zlen a
    /\ take (Z.to_nat (zlen a)) s = a /\ drop (Z.to_nat (zlen a + 1)) s = b.
Proof.
  intros Hi. assert (exists a b, s = a ++ c :: b /\ c ∉ b) as (a & b & -> & Hb).
  { induction s as [|x s IH]; [done|]. destruct (decide (c ∈ s)) as [Hin|Hni].
    - destruct IH as (a & b & -> & Hb); [|by exists (x :: a), b].
      destruct (decide (0 <= last_index_byte s c)); [done|]. exfalso.
      assert (c ∉ s) by (apply last_index_byte_none; lia). done.
    - exists [], s. split; [|done]. assert (last_index_byte s c < 0) by (by apply last_index_byte_none).
      simpl in Hi. destruct (decide (0 <= last_index_byte s c)); [lia|]. destruct (decide (x = c)) as [->|]; [done|lia]. }
  exists a, b. rewrite last_index_byte_app by done. split_and!; try done; [apply take_zlen_app|].
  rewrite cons_middle, app_assoc. replace (zlen a + 1) with (zlen (a ++ [c])) by (rewrite zlen_app; done).
  apply drop_zlen_app.
Qed.

Lemma digit_value_byte d : 0 <= d < 10 -> digit_value (digit_byte d) = Some d.
Proof.
  intros Hd. unfold digit_value, digit_byte. rewrite byte_to_of_Z, Z.mod_small by lia.
  rewrite decide_True by lia. f_equal. lia.
Qed.

(** The bytes of a decimal numeral. *)
Definition decimal (s : bytes) : Prop := Forall (fun b => is_Some (digit_value b)) s.

(** The value of a digit string. *)
Fixpoint dec_value (s : bytes) (n : Z) : Z :=
  match s with
  | [] => n
  | b :: s => dec_value s (10 * n + default 0 (digit_value b))
  end.

Lemma digit_value_range b d : digit_value b = Some d -> 0 <= d < 10.
Proof. unfold digit_value. case_decide; intros [= <-]; lia. Qed.

Lemma dec_value_le s n : 0 <= n -> n <= dec_value s n.
Proof.
  revert n. induction s as [|b s IH]; intros n Hn; simpl; [lia|].
  assert (0 <= default 0 (digit_value b)) as Hd.
  { destruct (digit_value b) eqn:E; simpl; [apply digit_value_range in E; lia|lia]. }
  pose proof (IH (10 * n + default 0 (digit_value b)) ltac:(lia)). lia.
Qed.

(** [ParseUint] accepts exactly the digit strings within range. *)
Lemma parse_uint_loop_iff fn m s0 s n v :
  0 <= n <= m -> parse_uint_loop fn m s0 s n = Ok v <-> decimal s /\ dec_value s n = v /\ v <= m.
Proof.
  unfold decimal. revert n. induction s as [|b s IH]; intros n Hn; simpl.
  { split; [intros [= <-]; split_and!; [constructor|done|lia]|by intros (_ & -> & _)]. }
  rewrite Forall_cons. destruct (digit_value b) as [d|] eqn:E; simpl.
  2: { split; [done|]. intros ([[? [=]] _] & _). }
  apply digit_value_range in E. case_decide as Hm.
  - split; [done|]. intros (_ & <- & Hle). pose proof (dec_value_le s (10 * n + d) ltac:(lia)). lia.
  - rewrite IH by lia. naive_solver.
Qed.

Lemma parse_uint_iff fn s0 s bits v :
  0 <= bits -> parse_uint fn s0 s bits = Ok v <-> s <> [] /\ decimal s /\ dec_value s 0 = v /\ v < 2 ^ bits.
Proof.
  intros Hb. unfold parse_uint. case_decide as Hs; [naive_solver|].
  rewrite parse_uint_loop_iff by lia. pose proof (Z.pow_pos_nonneg 2 bits). naive_solver lia.
Qed.

Lemma ParseUint_iff s bits v :
  0 <= bits -> ParseUint s bits = Ok v <-> s <> [] /\ decimal s /\ dec_value s 0 = v /\ v < 2 ^ bits.
Proof. apply parse_uint_iff. Qed.

Lemma dec_value_app s t n : dec_value (s ++ t) n = dec_value t (dec_value s n).
Proof. revert n. induction s; intros n; simpl; auto. Qed.

Lemma itoa_loop_acc fuel n acc : itoa_loop fuel n acc = itoa_loop fuel n [] ++ acc.
Proof.
  revert n acc. induction fuel as [|fuel IH]; intros n acc; [done|]. cbn [itoa_loop].
  case_decide; [done|]. rewrite (IH (n / 10) (_ :: acc)), (IH (n / 10) [_]). by rewrite <-app_assoc.
Qed.

Lemma itoa_loop_spec fuel n :
  0 <= n < 10 ^ Z.of_nat fuel -> n <> 0 \/ fuel <> O ->
  decimal (itoa_loop fuel n []) /\ dec_value (itoa_loop fuel n []) 0 = n /\ itoa_loop fuel n [] <> [].
Proof.
  revert n. induction fuel as [|fuel IH]; intros n Hn Hf; [simpl in Hn; lia|].
  pose proof (Z.mod_pos_bound n 10 ltac:(lia)) as Hm. pose proof (digit_value_byte (n mod 10) Hm) as Hd.
  cbn [itoa_loop]. case_decide as H10.
  - split_and!; [constructor; [by rewrite Hd; eexists|constructor]| |done]. simpl. rewrite Hd. simpl.
    rewrite Z.mod_small by lia. lia.
  - rewrite itoa_loop_acc. rewrite Nat2Z.inj_succ, Z.pow_succ_r in Hn by lia.
    pose proof (Z.div_mod n 10 ltac:(lia)) as Hdm.
    destruct (IH (n / 10)) as (Hdec & Hv & Hne); [lia|left; lia|]. split_and!.
    + apply Forall_app. split; [done|]. constructor; [by rewrite Hd; eexists|constructor].
    + rewrite dec_value_app, Hv. simpl. rewrite Hd. simpl. lia.
    + intros [? _]%app_nil. done.
Qed.

Lemma Itoa_spec n : 0 <= n < 2 ^ 63 -> decimal (Itoa n) /\ dec_value (Itoa n) 0 = n /\ Itoa n <> [].
Proof. intros Hn. apply itoa_loop_spec; [|by right]. change (10 ^ Z.of_nat 20) with (10 ^ 20). lia. Qed.

Lemma decimal_not_in s c : digit_value c = None -> decimal s -> c ∉ s.
Proof. intros Hc Hs Hin. unfold decimal in Hs. rewrite Forall_forall in Hs. destruct (Hs c Hin). congruence. Qed.

Lemma contains_any_false s chars : contains_any s chars = false <-> forall b, b ∈ chars -> b ∉ s.
Proof.
  unfold contains_any. induction s as [|x s IH]; simpl; [set_solver|].
  rewrite orb_false_iff, IH, bool_decide_eq_false. set_solver.
Qed.

Lemma has_prefix_spec s p : has_prefix s p = true <-> exists r, s = p ++ r.
Proof.
  revert s. induction p as [|a p IH]; intros s.
  { split; [intros _; by exists s|by destruct s]. }
  destruct s as [|b s]; [split; [done|by intros [r [=]]]|]. cbn [has_prefix].
  rewrite andb_true_iff, bool_decide_eq_true, IH. split.
  - intros [-> [r ->]]. by exists r.
  - intros [r [= -> ->]]. split; [done|by exists r].
Qed.

Lemma contains_spec s sub : contains s sub = true <-> exists a b, s = a ++ sub ++ b.
Proof.
  induction s as [|x s IH]; cbn [contains]; rewrite orb_true_iff, has_prefix_spec.
  - split; [intros [[r Hr]|?]; [by exists [], r|done]|]. intros (a & b & Hab). left.
    destruct a; [by exists b|done].
  - rewrite IH. split.
    + intros [[r ->]|(a & b & ->)]; [by exists [], r|by exists (x :: a), b].
    + intros ([|y a] & b & Hab); [left; by exists b|]. right. injection Hab as -> ->. by exists a, b.
Qed.

(** ** White space and numerals *)

Lemma trim_left_head b s : is_space b = false -> trim_left (b :: s) = b :: s.
Proof. intros H. simpl. by rewrite H. Qed.

(** A text with no white space at its ends is not trimmed. *)
Lemma TrimSpace_id a s b : is_space a = false -> is_space b = false -> TrimSpace (a :: s ++ [b]) = a :: s ++ [b].
Proof.
  intros Ha Hb. unfold TrimSpace. rewrite (trim_left_head a) by done.
  change (a :: s ++ [b]) with ((a :: s) ++ [b]). rewrite rev_app_distr.
  change (rev [b] ++ rev (a :: s)) with (b :: rev (a :: s)). rewrite (trim_left_head b) by done.
  cbn [rev]. by rewrite rev_app_distr, rev_involutive.
Qed.

Lemma digit_not_space b : is_Some (digit_value b) -> is_space b = false.
Proof.
  intros [d Hd]. unfold digit_value in Hd. unfold is_space. apply bool_decide_eq_false. intros Hin.
  repeat (apply elem_of_cons in Hin as [Hin|Hin]; [subst b; discriminate Hd|]). by apply elem_of_nil in Hin.
Qed.

Lemma trim_left_decimal s t : decimal s -> s <> [] -> trim_left (s ++ t) = s ++ t.
Proof. intros Hs Hne. destruct Hs as [|b s Hb Hs]; [done|]. by apply trim_left_head, digit_not_space. Qed.

(** A numeral and a newline trim to the numeral. *)
Lemma TrimSpace_decimal s : decimal s -> s <> [] -> TrimSpace (s ++ [newline]) = s.
Proof.
  intros Hs Hne. unfold TrimSpace. rewrite trim_left_decimal, rev_app_distr by done. simpl.
  assert (decimal (rev s)) as Hr by (by apply Forall_rev).
  rewrite <-(app_nil_r (rev s)), trim_left_decimal, app_nil_r; [apply rev_involutive|done|].
  intros E%(f_equal (@rev _)). by rewrite rev_involutive in E.
Qed.

Lemma Atoi_decimal s n : decimal s -> s <> [] -> dec_value s 0 = n -> n < 2 ^ 63 -> Atoi s = Ok n.
Proof.
  intros Hs Hne Hn Hlt. assert (parse_uint "Atoi" s s 64 = Ok n) as E by (apply parse_uint_iff; [lia|split_and!; auto; lia]).
  unfold Atoi. destruct Hs as [|b s Hb Hs]; [done|].
  assert (b <> x2d /\ b <> x2b) as [H1 H2] by (split; intros ->; by destruct Hb).
  assert ((match b :: s with x2d :: t => (true, t) | x2b :: t => (false, t) | _ => (false, b :: s) end) = (false, b :: s)) as ->
    by (destruct b; done).
  simpl in E |- *. rewrite E. simpl. by rewrite decide_False by lia.
Qed.

Lemma Atoi_Itoa n : 0 <= n < 2 ^ 63 -> Atoi (Itoa n) = Ok n.
Proof. intros Hn. destruct (Itoa_spec n Hn) as (? & ? & ?). apply Atoi_decimal; auto; lia. Qed.
