(* ===== verification/Paths.v ===== *)
(** * Files and their names

    [filepath.Clean], [Join] and [Dir] of the standard library, as on Unix,
    [os.WriteFile], and the places where the program keeps its files
    (src/manager/config.go, src/manager/daemon.go, src/manager/control.go,
    [init] of src/main.go). *)
From S2P Require Import Prelude GoStrings.

Definition slash : byte := x2f.
Definition dot : bytes := [x2e].
Definition dotdot : bytes := [x2e; x2e].

(** The elements between the slashes. *)
Fixpoint elements_loop (s cur : bytes) : list bytes :=
  match s with
  | [] => [cur]
  | b :: s => if decide (b = slash) then cur :: elements_loop s [] else elements_loop s (cur ++ [b])
  end.
Definition elements (s : bytes) : list bytes := elements_loop s [].

(** [Clean] drops empty elements and dots and lets [..] take back the element
    before it; [out] holds the elements kept so far, the last one first. *)
Fixpoint clean_loop (rooted : bool) (cs out : list bytes) : list bytes :=
  match cs with
  | [] => rev out
  | c :: cs =>
      if decide (c = [] \/ c = dot) then clean_loop rooted cs out
      else if decide (c = dotdot) then
        match out with
        | [] => clean_loop rooted cs (if rooted then [] else [c])
        | top :: rest => if decide (top = dotdot) then clean_loop rooted cs (c :: out) else clean_loop rooted cs rest
        end
      else clean_loop rooted cs (c :: out)
  end.

Fixpoint join_slash (cs : list bytes) : bytes :=
  match cs with
  | [] => []
  | [c] => c
  | c :: cs => c ++ slash :: join_slash cs
  end.

Definition is_rooted (s : bytes) : bool := match s with b :: _ => bool_decide (b = slash) | [] => false end.

(** The text of a path with these elements. *)
Definition path_text (rooted : bool) (cs : list bytes) : bytes :=
  if rooted then slash :: join_slash cs
  else match cs with [] => dot | _ => join_slash cs end.

Definition Clean (s : bytes) : bytes := path_text (is_rooted s) (clean_loop (is_rooted s) (elements s) []).

(** [Join]: leading empty elements are skipped. *)
Fixpoint Join (elems : list bytes) : bytes :=
  match elems with
  | [] => []
  | [] :: elems => Join elems
  | _ => Clean (join_slash elems)
  end.

(** [Dir]: everything up to the last slash, cleaned. *)
Definition Dir (s : bytes) : bytes := Clean (take (Z.to_nat (last_index_byte s slash + 1)) s).

Definition join (elems : list string) : string := string_of (Join (bytes_of <$> elems)).

(** ** Files *)

Notation files := (gmap string bytes).

(** How [os.WriteFile] ends: the file cannot be opened, or it is truncated and
    the write stops after [n] bytes. *)
Inductive write_outcome := Written | WriteRefused (e : error) | WriteCut (e : error) (n : nat).

Definition WriteFile (path : string) (data : bytes) (o : write_outcome) (fs : files) : result unit * files :=
  match o with
  | Written => (Ok tt, <[path := data]> fs)
  | WriteRefused e => (Err e, fs)
  | WriteCut e n => (Err e, <[path := take n data]> fs)
  end.

(** ** The files of the program, by the value of [$HOME] *)

Definition DefaultConfigDir (home : string) : string :=
  if decide (home = ""%string) then "/etc/tunnel" else join [home; ".config"; "tunnel"]%string.
Definition DefaultDataDir (home : string) : string :=
  if decide (home = ""%string) then "/var/lib/tunnel" else join [home; ".local"; "share"; "tunnel"]%string.

Definition ConfigPath (home : string) : string := join [DefaultConfigDir home; "config.yaml"]%string.
Definition PidfilePath (home : string) : string := join [DefaultDataDir home; "tunneld.pid"]%string.
Definition DefaultControlSocket (home : string) : string := join [DefaultDataDir home; "control.sock"]%string.
Definition KnownHostsPath (home : string) : string := join [DefaultConfigDir home; "known_hosts"]%string.
Definition DefaultIdentityDir (home : string) : string := join [DefaultConfigDir home; "identity"]%string.

(** ** Lemmas *)

(** An element of a clean path. *)
Definition plain (c : bytes) : Prop := c <> [] /\ c <> dot /\ c <> dotdot /\ slash ∉ c.

#[global] Instance plain_dec c : Decision (plain c).
Proof. apply _. Defined.

(** Proves that given names are plain. *)
Ltac plains := apply (bool_decide_unpack _); vm_compute; exact I.

(** The elements of a clean path: [..] only at the front of a relative one. *)
Definition clean_elements (rooted : bool) (cs : list bytes) : Prop :=
  exists n ds, cs = replicate n dotdot ++ ds /\ Forall plain ds /\ (rooted = true -> n = 0%nat).

Lemma elements_loop_app s t cur : slash ∉ s -> elements_loop (s ++ slash :: t) cur = (cur ++ s) :: elements_loop t [].
Proof.
  revert cur. induction s as [|b s IH]; intros cur Hs; simpl.
  - by rewrite app_nil_r.
  - apply not_elem_of_cons in Hs as [Hb Hs]. rewrite decide_False by done. by rewrite IH, <-app_assoc.
Qed.

Lemma elements_loop_last s cur : slash ∉ s -> elements_loop s cur = [cur ++ s].
Proof.
  revert cur. induction s as [|b s IH]; intros cur Hs; simpl; [by rewrite app_nil_r|].
  apply not_elem_of_cons in Hs as [Hb Hs]. rewrite decide_False by done. by rewrite IH, <-app_assoc.
Qed.

Lemma elements_join cs : cs <> [] -> Forall (fun c => slash ∉ c) cs -> elements (join_slash cs) = cs.
Proof.
  intros Hne H. unfold elements. induction H as [|c cs Hc H IH]; [done|].
  destruct cs as [|d cs]; [by apply elements_loop_last|].
  change (join_slash (c :: d :: cs)) with (c ++ slash :: join_slash (d :: cs)). rewrite elements_loop_app by done.
  by rewrite IH.
Qed.

Lemma elements_noslash s cur : slash ∉ cur -> Forall (fun c => slash ∉ c) (elements_loop s cur).
Proof.
  revert cur. induction s as [|b s IH]; intros cur Hc; simpl; [by constructor|]. case_decide as Hb.
  - constructor; [done|]. apply IH. by intros ?%elem_of_nil.
  - apply IH. rewrite elem_of_app, list_elem_of_singleton. intros [?|?]; congruence.
Qed.

(** What [clean_loop] has collected so far is clean. *)
Lemma clean_loop_clean rooted cs out :
  Forall (fun c => slash ∉ c) cs -> clean_elements rooted (rev out) -> clean_elements rooted (clean_loop rooted cs out).
Proof.
  intros Hcs. revert out. induction Hcs as [|c cs Hc _ IH]; intros out Hout; simpl; [done|].
  case_decide as H1; [by apply IH|]. apply Decidable.not_or in H1 as [Hne Hnd]. case_decide as H2.
  - subst c. destruct out as [|top out].
    + apply IH. destruct rooted; [done|]. by exists 1%nat, [].
    + destruct Hout as (n & ds & Hrev & Hds & Hn). simpl in Hrev. case_decide as H3; apply IH.
      * subst top. destruct (decide (ds = [])) as [->|Hdne].
        { destruct n as [|n]; [rewrite app_nil_r in Hrev; by apply app_nil in Hrev as [_ ?]|].
          exists (S (S n)), []. rewrite app_nil_r in Hrev. split; [|split; [done|by intros ?%Hn]].
          change (rev (dotdot :: dotdot :: out)) with ((rev out ++ [dotdot]) ++ [dotdot]). rewrite Hrev, app_nil_r.
          change [dotdot] with (replicate 1 dotdot). rewrite <-replicate_add. f_equal. lia. }
        exfalso. destruct (exists_last Hdne) as (ds' & d & ->). rewrite (assoc_L (++)) in Hrev.
        apply app_inj_tail in Hrev as [_ <-]. apply Forall_app in Hds as [_ Hd]. apply Forall_cons in Hd as [(_ & _ & ? & _) _]. done.
      * destruct (decide (ds = [])) as [->|Hdne].
        { exfalso. rewrite app_nil_r in Hrev. destruct n as [|n]; [by apply app_nil in Hrev as [_ ?]|].
          replace (S n) with (n + 1)%nat in Hrev by lia. rewrite replicate_add in Hrev. by apply app_inj_tail in Hrev as [_ ->]. }
        destruct (exists_last Hdne) as (ds' & d & ->). rewrite (assoc_L (++)) in Hrev. apply app_inj_tail in Hrev as [Hrev ->].
        exists n, ds'. split; [done|]. apply Forall_app in Hds as [? _]. done.
  - apply IH. destruct Hout as (n & ds & Hrev & Hds & Hn). exists n, (ds ++ [c]). simpl. rewrite Hrev, (assoc_L (++)).
    split; [done|]. split; [|done]. apply Forall_app. split; [done|]. apply Forall_singleton. done.
Qed.

(** On clean elements [clean_loop] changes nothing. *)
Lemma clean_loop_plain rooted ds out : Forall plain ds -> clean_loop rooted ds out = rev out ++ ds.
Proof.
  intros H. revert out. induction H as [|d ds (H1 & H2 & H3 & _) _ IH]; intros out; simpl; [by rewrite app_nil_r|].
  rewrite decide_False by tauto. rewrite decide_False by done. rewrite IH. simpl. by rewrite <-app_assoc.
Qed.

Lemma clean_loop_dots n ds k : clean_loop false (replicate n dotdot ++ ds) (replicate k dotdot) = clean_loop false ds (replicate (n + k) dotdot).
Proof.
  revert k. induction n as [|n IH]; intros k; [done|]. cbn [replicate app clean_loop].
  rewrite decide_False by (intros [?|?]; done). rewrite decide_True by done. destruct k as [|k].
  - cbn [replicate]. change [dotdot] with (replicate 1 dotdot). rewrite IH. f_equal. f_equal. lia.
  - cbn [replicate]. rewrite decide_True by done. change (dotdot :: dotdot :: replicate k dotdot) with (replicate (S (S k)) dotdot).
    rewrite IH. f_equal. f_equal. lia.
Qed.

Lemma clean_loop_id rooted cs : clean_elements rooted cs -> clean_loop rooted cs [] = cs.
Proof.
  intros (n & ds & -> & Hds & Hn). destruct rooted.
  - rewrite (Hn eq_refl). by apply (clean_loop_plain true ds []).
  - pose proof (clean_loop_dots n ds 0) as E. cbn [replicate] in E. rewrite E, clean_loop_plain, Nat.add_0_r by done. f_equal.
    clear. induction n as [|n IH]; [done|]. simpl. rewrite IH. change [dotdot] with (replicate 1 dotdot).
    rewrite <-replicate_add, Nat.add_1_r. done.
Qed.

Lemma clean_elements_noslash rooted cs : clean_elements rooted cs -> Forall (fun c => slash ∉ c /\ c <> []) cs.
Proof.
  intros (n & ds & -> & Hds & _). apply Forall_app. split.
  - apply Forall_replicate. split; [|done]. unfold dotdot, slash. set_solver.
  - eapply Forall_impl; [done|]. by intros c (? & _ & _ & ?).
Qed.

(** The text of clean elements, read back. *)
Lemma Clean_path_text rooted cs : clean_elements rooted cs -> Clean (path_text rooted cs) = path_text rooted cs.
Proof.
  intros Hcl. pose proof (clean_elements_noslash _ _ Hcl) as Hns.
  assert (Forall (fun c => slash ∉ c) cs) as Hs by (eapply Forall_impl; [done|]; by intros c [? _]).
  destruct rooted.
  - change (slash :: join_slash (clean_loop true (elements (join_slash cs)) []) = slash :: join_slash cs).
    destruct cs as [|c cs]; [done|]. by rewrite elements_join, clean_loop_id.
  - destruct cs as [|c cs]; [done|]. unfold Clean. change (path_text false (c :: cs)) with (join_slash (c :: cs)).
    assert (is_rooted (join_slash (c :: cs)) = false) as ->.
    { inversion Hns as [|? ? [H1 H2] _]; subst. destruct c as [|b c]; [done|].
      assert (is_rooted ((b :: c)) = false) as E by (simpl; apply bool_decide_eq_false; intros ->; apply H1; by left).
      destruct cs; [exact E|]. exact E. }
    rewrite elements_join by done. by rewrite clean_loop_id.
Qed.

Lemma Clean_shape s : exists cs, Clean s = path_text (is_rooted s) cs /\ clean_elements (is_rooted s) cs.
Proof.
  eexists. split; [done|]. apply clean_loop_clean; [apply elements_noslash; by intros ?%elem_of_nil|]. exists 0%nat, []. done.
Qed.

(** [Clean] gives a normal form. *)
Lemma Clean_idem s : Clean (Clean s) = Clean s.
Proof. destruct (Clean_shape s) as (cs & E & H). rewrite E. by apply Clean_path_text. Qed.

Lemma elements_loop_split s t cur : elements_loop (s ++ slash :: t) cur = elements_loop s cur ++ elements t.
Proof.
  revert cur. induction s as [|b s IH]; intros cur; simpl; [done|]. case_decide; [by rewrite IH|by rewrite IH].
Qed.

Lemma elements_split s t : elements (s ++ slash :: t) = elements s ++ elements t.
Proof. apply elements_loop_split. Qed.

Lemma clean_loop_app rooted xs ys out : clean_loop rooted (xs ++ ys) out = clean_loop rooted ys (rev (clean_loop rooted xs out)).
Proof.
  revert out. induction xs as [|c xs IH]; intros out; simpl; [by rewrite rev_involutive|].
  case_decide; [done|]. case_decide; [|done]. destruct out; [done|]. by case_decide.
Qed.

Lemma clean_loop_text rooted cs : clean_elements rooted cs -> clean_loop rooted (elements (path_text rooted cs)) [] = cs.
Proof.
  intros H. pose proof (clean_elements_noslash _ _ H) as Hns.
  assert (Forall (fun c => slash ∉ c) cs) as Hs by (eapply Forall_impl; [done|]; by intros c [? _]).
  destruct rooted.
  - change (clean_loop true (elements (join_slash cs)) [] = cs).
    destruct cs as [|c cs]; [done|]. by rewrite elements_join, clean_loop_id.
  - destruct cs as [|c cs]; [done|]. change (path_text false (c :: cs)) with (join_slash (c :: cs)).
    by rewrite elements_join, clean_loop_id.
Qed.

Lemma path_text_head rooted cs : clean_elements rooted cs -> path_text rooted cs <> [] /\ is_rooted (path_text rooted cs) = rooted.
Proof.
  intros H. apply clean_elements_noslash in H. destruct rooted; [done|]. destruct H as [|c cs [H1 H2] _]; [done|].
  destruct c as [|b c]; [done|]. assert (is_rooted (b :: c) = false) as E by (simpl; apply bool_decide_eq_false; intros ->; apply H1; by left).
  destruct cs; (split; [done|exact E]).
Qed.

Lemma plain_noslash cs : Forall plain cs -> Forall (fun c => slash ∉ c) cs.
Proof. intros H. eapply Forall_impl; [done|]. by intros c (_ & _ & _ & ?). Qed.

(** Below a clean path [Join] only adds elements, and [Dir] takes the last one
    off again. *)
Lemma Join_below rooted cs names :
  clean_elements rooted cs -> Forall plain names -> names <> [] ->
  Join (path_text rooted cs :: names) = path_text rooted (cs ++ names).
Proof.
  intros Hcs Hn Hne. destruct (path_text_head _ _ Hcs) as [Hb Hr].
  assert (Join (path_text rooted cs :: names) = Clean (path_text rooted cs ++ slash :: join_slash names)) as ->.
  { destruct names as [|n names]; [done|]. destruct (path_text rooted cs) as [|b p]; [done|]. reflexivity. }
  unfold Clean. assert (is_rooted (path_text rooted cs ++ slash :: join_slash names) = rooted) as ->
    by (rewrite <-Hr at 2; by destruct (path_text rooted cs)).
  rewrite elements_split, elements_join by (try done; by apply plain_noslash).
  rewrite clean_loop_app, clean_loop_text, clean_loop_plain, rev_involutive by done. done.
Qed.

Lemma join_slash_snoc cs c : cs <> [] -> join_slash (cs ++ [c]) = join_slash cs ++ slash :: c.
Proof.
  induction cs as [|d cs IH]; [done|]. intros _. destruct cs as [|e cs]; [done|].
  change (join_slash ((d :: e :: cs) ++ [c])) with (d ++ slash :: join_slash ((e :: cs) ++ [c])).
  rewrite IH by done. change (join_slash (d :: e :: cs)) with (d ++ slash :: join_slash (e :: cs)). by rewrite <-app_assoc.
Qed.

Lemma Dir_below rooted cs c : clean_elements rooted cs -> plain c -> Dir (path_text rooted (cs ++ [c])) = path_text rooted cs.
Proof.
  intros Hcs (Hc1 & Hc2 & Hc3 & Hc4).
  assert (forall a, take (Z.to_nat (last_index_byte (a ++ slash :: c) slash + 1)) (a ++ slash :: c) = a ++ [slash]) as Htake.
  { intros a. rewrite last_index_byte_app by done. rewrite (cons_middle slash), (assoc_L (++)). apply take_app_length'.
    rewrite length_app. simpl. unfold zlen. lia. }
  assert (forall a, Clean (a ++ [slash]) = path_text (is_rooted (a ++ [slash])) (clean_loop (is_rooted (a ++ [slash])) (elements a) [])) as Hclean.
  { intros a. unfold Clean. rewrite elements_split, clean_loop_app. change (elements []) with [@nil byte].
    cbn [clean_loop]. rewrite decide_True by (by left). by rewrite rev_involutive. }
  unfold Dir. destruct (decide (cs = [])) as [->|Hne].
  - destruct rooted; [exact (f_equal Clean (Htake []))|]. simpl path_text.
    assert (last_index_byte c slash < 0) as Hl by (by apply last_index_byte_none).
    pose proof (last_index_byte_range c slash). replace (last_index_byte c slash + 1) with 0 by lia. done.
  - destruct (path_text_head _ _ Hcs) as [Hb Hr].
    assert (path_text rooted (cs ++ [c]) = path_text rooted cs ++ slash :: c) as ->.
    { destruct rooted; simpl; [by rewrite join_slash_snoc|]. destruct cs as [|d cs]; [done|].
      change (path_text false ((d :: cs) ++ [c])) with (join_slash ((d :: cs) ++ [c])). by rewrite join_slash_snoc. }
    rewrite Htake, Hclean. assert (is_rooted (path_text rooted cs ++ [slash]) = rooted) as ->
      by (rewrite <-Hr at 2; by destruct (path_text rooted cs)).
    by rewrite clean_loop_text.
Qed.

(** A home directory as login programs set it: absolute, clean, not the root. *)
Definition home_ok (home : string) : Prop :=
  Clean (bytes_of home) = bytes_of home /\ is_rooted (bytes_of home) = true /\ home <> "/"%string.

(** The directory at [names] below the home directory. *)
Definition below (home : string) (names : list string) : string :=
  string_of (bytes_of home ++ slash :: join_slash (bytes_of <$> names)).

Lemma bytes_of_inj s t : bytes_of s = bytes_of t -> s = t.
Proof. intros E. by rewrite <-(string_of_bytes_of s), E, string_of_bytes_of. Qed.

Lemma join_slash_app xs ys : xs <> [] -> ys <> [] -> join_slash (xs ++ ys) = join_slash xs ++ slash :: join_slash ys.
Proof.
  intros Hx Hy. induction xs as [|x xs IH]; [done|]. destruct xs as [|z xs].
  - destruct ys; [done|]. done.
  - change (join_slash ((x :: z :: xs) ++ ys)) with (x ++ slash :: join_slash ((z :: xs) ++ ys)).
    rewrite IH by done. change (join_slash (x :: z :: xs)) with (x ++ slash :: join_slash (z :: xs)). by rewrite <-app_assoc.
Qed.

Lemma home_shape home : home_ok home ->
  exists cs, cs <> [] /\ clean_elements true cs /\ bytes_of home = path_text true cs /\ home <> ""%string
    /\ forall names, names <> [] -> bytes_of (below home names) = path_text true (cs ++ (bytes_of <$> names)).
Proof.
  intros (Hc & Hr & Hne). destruct (Clean_shape (bytes_of home)) as (cs & E & Hcs). rewrite Hc, Hr in E. rewrite Hr in Hcs.
  assert (cs <> []) as Hcne by (intros ->; apply Hne, bytes_of_inj; by rewrite E).
  exists cs. split_and!; try done.
  - intros ->. discriminate Hr.
  - intros names Hn. unfold below. rewrite bytes_of_string_of, E. simpl.
    rewrite join_slash_app; [done|done|]. by destruct names.
Qed.

Lemma join_home home names names' :
  home_ok home -> Forall plain (bytes_of <$> names) -> Forall plain (bytes_of <$> names') -> names <> [] -> names' <> [] ->
  join (home :: names) = below home names /\ join (below home names :: names') = below home (names ++ names').
Proof.
  intros Hh Hp Hp' Hn Hn'. destruct (home_shape home Hh) as (cs & Hne & Hcs & E & _ & Hb).
  assert (clean_elements true (cs ++ (bytes_of <$> names))) as Hcs'.
  { destruct Hcs as (n & ds & -> & Hds & Hz). rewrite (Hz eq_refl). exists 0%nat, (ds ++ (bytes_of <$> names)).
    split; [done|]. split; [by apply Forall_app|done]. }
  unfold join. split; apply bytes_of_inj; rewrite bytes_of_string_of, Hb; [|done| |by destruct names].
  - rewrite fmap_cons, E. apply Join_below; [done|done|by destruct names].
  - rewrite fmap_cons, Hb by done. rewrite fmap_app, (assoc_L (++)). apply Join_below; [done|done|by destruct names'].
Qed.

Lemma Dir_home home names last :
  home_ok home -> Forall plain (bytes_of <$> (names ++ [last])) -> names <> [] ->
  string_of (Dir (bytes_of (below home (names ++ [last])))) = below home names.
Proof.
  intros Hh Hp Hn. destruct (home_shape home Hh) as (cs & Hne & Hcs & E & _ & Hb). apply bytes_of_inj.
  rewrite bytes_of_string_of, !Hb by (try done; by destruct names). rewrite fmap_app in *. apply Forall_app in Hp as [Hp Hl].
  rewrite (assoc_L (++)). apply Dir_below.
  - destruct Hcs as (n & ds & -> & Hds & Hz). rewrite (Hz eq_refl). exists 0%nat, (ds ++ (bytes_of <$> names)).
    split; [done|]. split; [by apply Forall_app|done].
  - by apply Forall_cons in Hl as [Hl _].
Qed.

(** Evaluates [Join] below the home directory. *)
Ltac join_names home Hh := repeat match goal with
  | |- context [join (home :: ?a)] =>
      rewrite (proj1 (join_home home a ["x"%string] Hh ltac:(plains) ltac:(plains) ltac:(done) ltac:(done)))
  | |- context [join (below home ?a :: ?b)] =>
      rewrite (proj2 (join_home home a b Hh ltac:(plains) ltac:(plains) ltac:(done) ltac:(done)))
  end.

(** ** Properties *)

(** Under a usual home directory the files of the program are where the README
    says, no two are the same, and the directory the program creates before it
    writes one ([MkdirAll(Dir(path))]) is its configuration or data directory;
    without a home directory they are under [/etc] and [/var/lib]. *)
Theorem program_files (home : string) :
  (home_ok home ->
   DefaultConfigDir home = below home [".config"; "tunnel"]
   /\ DefaultDataDir home = below home [".local"; "share"; "tunnel"]
   /\ ConfigPath home = below home [".config"; "tunnel"; "config.yaml"]
   /\ KnownHostsPath home = below home [".config"; "tunnel"; "known_hosts"]
   /\ DefaultIdentityDir home = below home [".config"; "tunnel"; "identity"]
   /\ PidfilePath home = below home [".local"; "share"; "tunnel"; "tunneld.pid"]
   /\ DefaultControlSocket home = below home [".local"; "share"; "tunnel"; "control.sock"]
   /\ string_of (Dir (bytes_of (ConfigPath home))) = DefaultConfigDir home
   /\ string_of (Dir (bytes_of (KnownHostsPath home))) = DefaultConfigDir home
   /\ string_of (Dir (bytes_of (PidfilePath home))) = DefaultDataDir home
   /\ string_of (Dir (bytes_of (DefaultControlSocket home))) = DefaultDataDir home)
  /\ (ConfigPath "", PidfilePath "", DefaultControlSocket "")
     = ("/etc/tunnel/config.yaml", "/var/lib/tunnel/tunneld.pid", "/var/lib/tunnel/control.sock")%string.
Proof.
  split; [|by vm_compute]. intros Hh.
  destruct (home_shape home Hh) as (_ & _ & _ & _ & Hne & _).
  unfold ConfigPath, KnownHostsPath, DefaultIdentityDir, PidfilePath, DefaultControlSocket, DefaultConfigDir, DefaultDataDir.
  rewrite !decide_False by done.
  join_names home Hh.
  rewrite (Dir_home home [".config"; "tunnel"]%string "config.yaml" Hh) by (done || plains).
  rewrite (Dir_home home [".config"; "tunnel"]%string "known_hosts" Hh) by (done || plains).
  rewrite (Dir_home home [".local"; "share"; "tunnel"]%string "tunneld.pid" Hh) by (done || plains).
  rewrite (Dir_home home [".local"; "share"; "tunnel"]%string "control.sock" Hh) by (done || plains).
  done.
Qed.

Lemma program_files_witness : ConfigPath "/home/ann" = "/home/ann/.config/tunnel/config.yaml"%string.
Proof.
  destruct (program_files "/home/ann") as [H _]. destruct H as (_ & _ & H & _); [|exact H].
  split; [vm_compute; reflexivity|]. split; [reflexivity|discriminate].
Defined.
