(* ===== verification/Specs.v ===== *)
(** * Tunnel configurations and forwarding specs ([src/manager/config.go],
    the ad-hoc helpers of [src/main.go], [parseRemoteSpec] of
    [src/manager/manager.go])

    A spec is the text [[bind:]port:host:hostport]; the command line and the
    manager each have their own parser for it. *)
From S2P Require Import Prelude GoStrings.

Record TunnelConfig := mkTC {
  tc_Name : string;
  tc_Mode : string;
  tc_Local : string;
  tc_Remote : string;
  tc_Server : string;
  tc_Token : string;
  tc_TLS : bool;
  tc_TLSCert : string;
  tc_TLSKey : string;
  tc_TLSVerify : bool;
  tc_TLSTrustOnFirstUse : bool;
  tc_TLSServerFingerprint : string;
  tc_Protocol : string;
  tc_Autostart : bool;
  tc_Group : string;
  tc_Hops : list string;
  tc_Connections : Z;
  tc_HealthCheck : string;
  tc_SocksUser : string;
  tc_SocksPass : string;
}.

#[global] Instance TunnelConfig_eq_dec : EqDecision TunnelConfig.
Proof. solve_decision. Defined.

Definition zero_tc : TunnelConfig :=
  mkTC "" "" "" "" "" "" false "" "" false false "" "" false "" [] 0 "" "" "".

Record forwardSpec := mkFS { fs_bind : string; fs_port : Z; fs_host : string; fs_hostPort : Z }.

#[global] Instance forwardSpec_eq_dec : EqDecision forwardSpec.
Proof. solve_decision. Defined.

(** [s[:i]] and [s[i+1:]] around a separator found at [i]. *)
Definition before (i : Z) (s : bytes) : bytes := take (Z.to_nat i) s.
Definition after (i : Z) (s : bytes) : bytes := drop (Z.to_nat (i + 1)) s.

Definition parsePort (s : bytes) : result Z :=
  if decide (s = []) then Err (Errorf "port is empty" []) else
  match ParseUint s 16 with
  | Err _ => Err (Errorf "%q is not a valid port" [AStr (string_of s)])
  | Ok p => Ok (uint16 p)
  end.

Definition wrap_result {A} (format : string) (args : list arg) (r : result A) : result A :=
  match r with Ok a => Ok a | Err e => Err (Wrapf format args e) end.

Definition parseForwardSpec (spec defaultBind : string) (allowBind : bool) : result forwardSpec :=
  let s := bytes_of spec in
  let invalid := "invalid format %q (expected [bind:]port:host:hostport)" in
  if decide (s = []) then Err (Errorf "empty forwarding spec" []) else
  if contains_any s (bytes_of "[]")
  then Err (Errorf "IPv6 literals are not supported: %q" [AStr spec]) else
  let hostPortSep := last_index_byte s colon in
  if decide (hostPortSep < 0) then Err (Errorf invalid [AStr spec]) else
  let hostPortStr := after hostPortSep s in
  let mid := before hostPortSep s in
  let portHostSep := last_index_byte mid colon in
  if decide (portHostSep < 0) then Err (Errorf invalid [AStr spec]) else
  let host := after portHostSep mid in
  let front := before portHostSep mid in
  let bindSep := last_index_byte front colon in
  let '(bind, portStr) := if decide (bindSep >= 0) then (before bindSep front, after bindSep front)
                          else ([], front) in
  if decide (host = []) then Err (Errorf "invalid format %q: target host is empty" [AStr spec]) else
  if decide (bind <> [] /\ allowBind = false)
  then Err (Errorf "invalid format %q: bind prefix is not supported for this mode" [AStr spec]) else
  let bind := if decide (bind = []) then bytes_of defaultBind else bind in
  port ← wrap_result "invalid listen port in %q: %w" [AStr spec] (parsePort portStr);
  hostPort ← wrap_result "invalid target port in %q: %w" [AStr spec] (parsePort hostPortStr);
  Ok (mkFS (string_of bind) port (string_of host) hostPort).

(** [net.JoinHostPort(host, strconv.Itoa(int(port)))]. *)
Definition join_addr (host : string) (port : Z) : string :=
  string_of (JoinHostPort (bytes_of host) (Itoa port)).

Definition parseLocalSpec (spec : string) : result (string * string) :=
  fs ← parseForwardSpec spec "127.0.0.1" true;
  Ok (join_addr (fs_bind fs) (fs_port fs), join_addr (fs_host fs) (fs_hostPort fs)).

Definition parseRemoteSpec (spec : string) : result (string * Z * string) :=
  fs ← parseForwardSpec spec "0.0.0.0" true;
  Ok (fs_bind fs, fs_port fs, join_addr (fs_host fs) (fs_hostPort fs)).

(** The manager's own [parseRemoteSpec]. *)
Definition manager_parseRemoteSpec (spec : string) : result (string * Z * string) :=
  let s := bytes_of spec in
  let invalid := "invalid remote spec %q (expected [bind:]port:host:hostport)" in
  if decide (s = []) then Err (Errorf "empty remote spec" []) else
  if contains_any s (bytes_of "[]")
  then Err (Errorf "IPv6 literals are not supported: %q" [AStr spec]) else
  let hostPortSep := last_index_byte s colon in
  if decide (hostPortSep < 0) then Err (Errorf invalid [AStr spec]) else
  let hostPortStr := after hostPortSep s in
  let mid := before hostPortSep s in
  let portHostSep := last_index_byte mid colon in
  if decide (portHostSep < 0) then Err (Errorf invalid [AStr spec]) else
  let host := after portHostSep mid in
  let front := before portHostSep mid in
  if decide (host = []) then Err (Errorf "invalid remote spec %q: target host is empty" [AStr spec]) else
  let bindSep := last_index_byte front colon in
  let '(bind, portStr) := if decide (bindSep >= 0) then (before bindSep front, after bindSep front)
                          else ([], front) in
  portU ← wrap_result "invalid remote port %q: %w" [AStr (string_of portStr)] (ParseUint portStr 16);
  hostPort ← wrap_result "invalid target port %q: %w" [AStr (string_of hostPortStr)] (ParseUint hostPortStr 16);
  let bind := if decide (bind = []) then bytes_of "0.0.0.0" else bind in
  Ok (string_of bind, uint16 portU, join_addr (string_of host) hostPort).

Record addParams := mkAdd {
  ap_local : string; ap_remote : string; ap_dynamic : string; ap_name : string;
  ap_server : string; ap_token : string;
  ap_tls : bool; ap_tlsVerify : bool;
  ap_tlsCert : string; ap_tlsKey : string;
  ap_tlsTrustOnFirstUse : bool;
  ap_tlsServerFingerprint : string;
  ap_socksUser : string; ap_socksPass : string;
  ap_protocol : string;
  ap_group : string;
  ap_autostart : bool;
}.

Definition defaultName (name fallback : string) : string :=
  if decide (name <> "") then name else fallback.

Definition normalizeListenAddr (spec : string) : string :=
  if contains (bytes_of spec) (bytes_of ":") then spec else ("127.0.0.1:" ++ spec)%string.

Definition buildTunnelConfig (p : addParams) : result TunnelConfig :=
  if decide (ap_local p <> "") then
    '(listen, target) ← parseLocalSpec (ap_local p);
    Ok (mkTC (defaultName (ap_name p) ("local-" ++ ap_local p)) "local" listen target "" "" false "" ""
          false false "" (ap_protocol p) (ap_autostart p) (ap_group p) [] 0 "" "" "")
  else if decide (ap_remote p <> "") then
    if decide (ap_server p = "") then Err (Errorf "-R requires -s server:port" []) else
    Ok (mkTC (defaultName (ap_name p) ("remote-" ++ ap_remote p)) "remote" "" (ap_remote p)
          (ap_server p) (ap_token p) (ap_tls p) (ap_tlsCert p) (ap_tlsKey p) (ap_tlsVerify p)
          (ap_tlsTrustOnFirstUse p) (ap_tlsServerFingerprint p) "" (ap_autostart p) (ap_group p)
          [] 0 "" "" "")
  else if decide (ap_dynamic p <> "") then
    Ok (mkTC (defaultName (ap_name p) ("dynamic-" ++ ap_dynamic p)) "dynamic"
          (normalizeListenAddr (ap_dynamic p)) "" "" "" false "" "" false false "" ""
          (ap_autostart p) (ap_group p) [] 0 "" (ap_socksUser p) (ap_socksPass p))
  else Err (Errorf "specify -L, -R, or -D" []).

(** What a spec means: how a text splits into bind address, port, target host
    and target port. *)
Definition spec_text (bind : option bytes) (port host hostPort : bytes) : bytes :=
  match bind with Some b => b ++ colon :: port | None => port end
  ++ colon :: host ++ colon :: hostPort.

Definition port_text (s : bytes) (p : Z) : Prop :=
  s <> [] /\ decimal s /\ dec_value s 0 = p /\ p < 2 ^ 16.

Definition no_brackets (s : bytes) : Prop := x5b ∉ s /\ x5d ∉ s.

(** The spec of a forwarding. *)
Definition format_spec (fs : forwardSpec) : string :=
  string_of (spec_text (Some (bytes_of (fs_bind fs))) (Itoa (fs_port fs)) (bytes_of (fs_host fs))
    (Itoa (fs_hostPort fs))).

(** ** Lemmas *)

Lemma no_brackets_iff s : contains_any s (bytes_of "[]") = false <-> no_brackets s.
Proof. rewrite contains_any_false. unfold no_brackets. change (bytes_of "[]") with [x5b; x5d]. set_solver. Qed.

Lemma port_text_no_colon s p : port_text s p -> colon ∉ s.
Proof. intros (_ & Hd & _). by apply decimal_not_in. Qed.

Lemma port_text_range s p : port_text s p -> 0 <= p < 2 ^ 16.
Proof. intros (_ & _ & <- & ?). pose proof (dec_value_le s 0). lia. Qed.

Lemma uint16_small p : 0 <= p < 2 ^ 16 -> uint16 p = p.
Proof. intros. by apply Z.mod_small. Qed.

Lemma ParseUint16_iff s p : ParseUint s 16 = Ok p <-> port_text s p.
Proof. rewrite ParseUint_iff by lia. unfold port_text. naive_solver. Qed.

Lemma parsePort_iff s p : parsePort s = Ok p <-> port_text s p.
Proof.
  unfold parsePort. case_decide as Hs; [split; [done|by intros [? _]]|].
  destruct (ParseUint s 16) as [q|e] eqn:E.
  - pose proof (proj1 (ParseUint16_iff s q) E) as Hq.
    rewrite uint16_small by (by eapply port_text_range). by rewrite <-ParseUint16_iff, E.
  - by rewrite <-ParseUint16_iff, E.
Qed.

Lemma Itoa_port_text p : 0 <= p < 2 ^ 16 -> port_text (Itoa p) p.
Proof. intros Hp. destruct (Itoa_spec p) as (? & ? & ?); [lia|]. split_and!; try done; lia. Qed.

(** Cutting at the last colon. *)
Lemma cut_last s :
  0 <= last_index_byte s colon ->
  exists a b, s = a ++ colon :: b /\ colon ∉ b
    /\ before (last_index_byte s colon) s = a /\ after (last_index_byte s colon) s = b.
Proof.
  intros H. destruct (last_index_byte_split s colon H) as (a & b & Hs & Hb & Hi & Ht & Hd).
  exists a, b. unfold before, after. by rewrite Hi.
Qed.

Lemma cut_app a b :
  colon ∉ b -> let s := a ++ colon :: b in
  0 <= last_index_byte s colon /\ before (last_index_byte s colon) s = a
  /\ after (last_index_byte s colon) s = b.
Proof.
  intros Hb s. assert (last_index_byte s colon = zlen a) as Hi by (by apply last_index_byte_app).
  pose proof (zlen_nonneg a). split; [lia|].
  destruct (cut_last s) as (a' & b' & Hs & Hb' & Ha & Hbb); [lia|]. rewrite Ha, Hbb.
  assert (zlen a' = zlen a) as Hl by (rewrite <-Hi, Hs; symmetry; by apply last_index_byte_app).
  apply app_inj_1 in Hs as [-> [= ->]]; [done|]. unfold zlen in Hl. lia.
Qed.

(** Both parsers cut the text in the same way. *)
Definition cut_spec (s : bytes) : option (bytes * bytes * bytes * bytes) :=
  let i := last_index_byte s colon in
  if decide (i < 0) then None else
  let mid := before i s in
  let j := last_index_byte mid colon in
  if decide (j < 0) then None else
  let front := before j mid in
  let k := last_index_byte front colon in
  let '(bind, portStr) := if decide (k >= 0) then (before k front, after k front) else ([], front) in
  Some (bind, portStr, after j mid, after i s).

Lemma cut_spec_sound s b p h q :
  cut_spec s = Some (b, p, h, q) -> exists bo, s = spec_text bo p h q /\ default [] bo = b
    /\ colon ∉ p /\ colon ∉ h /\ colon ∉ q.
Proof.
  unfold cut_spec. case_decide as Hi; [done|].
  destruct (cut_last s) as (mid & q' & -> & Hq' & -> & ->); [lia|].
  case_decide as Hj; [done|]. destruct (cut_last mid) as (front & h' & -> & Hh' & -> & ->); [lia|].
  case_decide as Hk.
  - destruct (cut_last front) as (b' & p' & -> & Hp' & -> & ->); [lia|]. intros [= <- <- <- <-].
    exists (Some b'). unfold spec_text. by rewrite <-!app_assoc.
  - intros [= <- <- <- <-]. exists None. unfold spec_text. rewrite <-!app_assoc. split_and!; try done.
    apply last_index_byte_none. lia.
Qed.

Lemma cut_spec_text bo p h q :
  colon ∉ p -> colon ∉ h -> colon ∉ q -> cut_spec (spec_text bo p h q) = Some (default [] bo, p, h, q).
Proof.
  intros Hp Hh Hq. unfold cut_spec, spec_text.
  set (front := match bo with Some b => b ++ colon :: p | None => p end).
  replace (front ++ colon :: h ++ colon :: q) with ((front ++ colon :: h) ++ colon :: q) by (by rewrite <-app_assoc).
  destruct (cut_app (front ++ colon :: h) q Hq) as (H1 & -> & ->). rewrite decide_False by lia.
  destruct (cut_app front h Hh) as (H2 & -> & ->). rewrite decide_False by lia.
  destruct bo as [b|]; unfold front.
  - destruct (cut_app b p Hp) as (H3 & -> & ->). by rewrite decide_True by lia.
  - apply last_index_byte_none in Hp. by rewrite decide_False by lia.
Qed.

(** Success of the command line's parser, read off its steps. *)
Lemma parseForwardSpec_cut spec d allow fs :
  parseForwardSpec spec d allow = Ok fs <->
  no_brackets (bytes_of spec) /\ exists b p h q, cut_spec (bytes_of spec) = Some (b, p, h, q)
    /\ h <> [] /\ (b = [] \/ allow = true) /\ port_text p (fs_port fs) /\ port_text q (fs_hostPort fs)
    /\ fs_host fs = string_of h /\ fs_bind fs = (if decide (b = []) then d else string_of b).
Proof.
  rewrite <-no_brackets_iff. unfold parseForwardSpec, cut_spec. set (s := bytes_of spec).
  destruct (decide (s = [])) as [Hs|Hs]; [split; [done|rewrite Hs; intros (_ & ? & ? & ? & ? & ? & _); done]|].
  destruct (contains_any s (bytes_of "[]")); [split; [done|by intros [? _]]|].
  destruct (decide (last_index_byte s colon < 0)); [split; [done|by intros (_ & ? & ? & ? & ? & ? & _)]|].
  set (mid := before _ s). destruct (decide (last_index_byte mid colon < 0));
    [split; [done|by intros (_ & ? & ? & ? & ? & ? & _)]|].
  set (front := before _ mid). set (h := after _ mid). set (q := after _ s).
  destruct (if decide (last_index_byte front colon >= 0) then _ else _) as [b p].
  transitivity (h <> [] /\ (b = [] \/ allow = true) /\ port_text p (fs_port fs) /\ port_text q (fs_hostPort fs)
    /\ fs_host fs = string_of h /\ fs_bind fs = (if decide (b = []) then d else string_of b)).
  2: { split; [intros H; split; [done|by exists b, p, h, q]|].
       intros (_ & ? & ? & ? & ? & [= <- <- <- <-] & H). exact H. }
  destruct (decide (h = [])) as [Hh|Hh]; [split; [done|by intros [? _]]|].
  destruct (decide (b <> [] /\ allow = false)) as [[Hb Ha]|Hba].
  { split; [done|]. intros (_ & [?|?] & _); congruence. }
  assert (b = [] \/ allow = true) as Hba' by (destruct (decide (b = [])), allow; tauto).
  rewrite <-!parsePort_iff. destruct fs as [fb fp fh fq]. simpl.
  destruct (parsePort p) as [p'|e]; [|split; [done|by intros (_ & _ & [=] & _)]]. simpl.
  destruct (parsePort q) as [q'|e]; [|split; [done|by intros (_ & _ & _ & [=] & _)]]. simpl.
  split.
  - intros [= <- <- <- <-]. split_and!; try done. case_decide; [apply string_of_bytes_of|done].
  - intros (_ & _ & [= <-] & [= <-] & -> & ->). f_equal. f_equal.
    case_decide; [apply string_of_bytes_of|done].
Qed.

Lemma manager_parse_cut spec r :
  manager_parseRemoteSpec spec = Ok r <->
  no_brackets (bytes_of spec) /\ exists b p h q, cut_spec (bytes_of spec) = Some (b, p, h, q)
    /\ h <> [] /\ exists hp, port_text p r.1.2 /\ port_text q hp
    /\ r = ((if decide (b = []) then "0.0.0.0"%string else string_of b), r.1.2, join_addr (string_of h) hp).
Proof.
  rewrite <-no_brackets_iff. unfold manager_parseRemoteSpec, cut_spec. set (s := bytes_of spec).
  destruct (decide (s = [])) as [Hs|Hs]; [split; [done|rewrite Hs; intros (_ & ? & ? & ? & ? & ? & _); done]|].
  destruct (contains_any s (bytes_of "[]")); [split; [done|by intros [? _]]|].
  destruct (decide (last_index_byte s colon < 0)); [split; [done|by intros (_ & ? & ? & ? & ? & ? & _)]|].
  set (mid := before _ s). destruct (decide (last_index_byte mid colon < 0));
    [split; [done|by intros (_ & ? & ? & ? & ? & ? & _)]|].
  set (front := before _ mid). set (h := after _ mid). set (q := after _ s).
  destruct (if decide (last_index_byte front colon >= 0) then _ else _) as [b p].
  transitivity (h <> [] /\ exists hp, port_text p r.1.2 /\ port_text q hp
    /\ r = ((if decide (b = []) then "0.0.0.0"%string else string_of b), r.1.2, join_addr (string_of h) hp)).
  2: { split; [intros H; split; [done|by exists b, p, h, q]|].
       intros (_ & ? & ? & ? & ? & [= <- <- <- <-] & H). exact H. }
  destruct (decide (h = [])) as [Hh|Hh]; [split; [done|by intros [? _]]|].
  destruct (ParseUint p 16) as [p'|e] eqn:Ep; simpl.
  2: { split; [done|]. intros (_ & hp & Hp%ParseUint16_iff & _). congruence. }
  destruct (ParseUint q 16) as [q'|e] eqn:Eq; simpl.
  2: { split; [done|]. intros (_ & hp & _ & Hq%ParseUint16_iff & _). congruence. }
  apply ParseUint16_iff in Ep, Eq. rewrite uint16_small by (by eapply port_text_range).
  assert (string_of (if decide (b = []) then bytes_of "0.0.0.0" else b)
    = (if decide (b = []) then "0.0.0.0"%string else string_of b)) as -> by (case_decide; [apply string_of_bytes_of|done]).
  split.
  - intros [= <-]. split; [done|]. exists q'. done.
  - intros (_ & hp & (_ & _ & Hp & _) & (_ & _ & Hq & _) & ->).
    destruct Ep as (_ & _ & <- & _), Eq as (_ & _ & <- & _). by rewrite Hp, Hq.
Qed.

(** ** Properties *)


(** Formatting and parsing a forwarding are inverse: every bind address and
    host without colons in the host, brackets or emptiness survives. *)
Theorem forwardSpec_roundtrip (fs : forwardSpec) (d : string) :
  0 <= fs_port fs < 2 ^ 16 -> 0 <= fs_hostPort fs < 2 ^ 16 ->
  no_brackets (bytes_of (fs_bind fs)) -> no_brackets (bytes_of (fs_host fs)) ->
  fs_bind fs <> "" -> fs_host fs <> "" -> colon ∉ bytes_of (fs_host fs) ->
  parseForwardSpec (format_spec fs) d true = Ok fs.
Proof.
  intros Hp Hq Hnb Hnh Hb Hh Hch. apply parseForwardSpec_cut.
  pose proof (Itoa_port_text _ Hp) as Hpt. pose proof (Itoa_port_text _ Hq) as Hqt.
  assert (forall s p, port_text s p -> no_brackets s) as Hnum.
  { intros s p (_ & Hd & _). split; by apply decimal_not_in. }
  assert (forall s, s <> "" -> bytes_of s <> []) as Hne.
  { intros s Hs He. apply Hs. rewrite <-(string_of_bytes_of s), He. done. }
  unfold format_spec. rewrite bytes_of_string_of. split.
  - pose proof (Hnum _ _ Hpt). pose proof (Hnum _ _ Hqt).
    unfold no_brackets, spec_text, colon in *. set_solver.
  - exists (bytes_of (fs_bind fs)), (Itoa (fs_port fs)), (bytes_of (fs_host fs)), (Itoa (fs_hostPort fs)).
    split; [apply cut_spec_text; [by eapply port_text_no_colon|done|by eapply port_text_no_colon]|].
    rewrite !string_of_bytes_of, decide_False by auto. split_and!; auto.
Qed.

Lemma forwardSpec_roundtrip_witness :
  format_spec (mkFS "127.0.0.1" 8080 "db.internal" 5432) = "127.0.0.1:8080:db.internal:5432"
  /\ parseForwardSpec (format_spec (mkFS "127.0.0.1" 8080 "db.internal" 5432)) "" true
     = Ok (mkFS "127.0.0.1" 8080 "db.internal" 5432).
Proof.
  split; [vm_compute; reflexivity|].
  apply (forwardSpec_roundtrip (mkFS "127.0.0.1" 8080 "db.internal" 5432) "").
  - simpl; lia.
  - simpl; lia.
  - apply no_brackets_iff; reflexivity.
  - apply no_brackets_iff; reflexivity.
  - discriminate.
  - discriminate.
  - apply last_index_byte_none; vm_compute; reflexivity.
Defined.

(** C32: the two parsers of remote specs agree: the command line's and the
    manager's accept the same texts and give the same bind address, port and
    target; so a tunnel added with [tunnel add -R] means what [tunnel -R] does. *)
Theorem parseRemoteSpec_equiv (spec : string) (r : string * Z * string) :
  parseRemoteSpec spec = Ok r <-> manager_parseRemoteSpec spec = Ok r.
Proof.
  rewrite manager_parse_cut. unfold parseRemoteSpec. split.
  - destruct (parseForwardSpec spec "0.0.0.0" true) as [fs|e] eqn:E; [|done]. intros [= <-].
    apply parseForwardSpec_cut in E as (Hnb & b & p & h & q & Hcut & Hh & _ & Hp & Hq & Hhost & Hbind).
    split; [done|]. exists b, p, h, q. split; [done|]. split; [done|]. exists (fs_hostPort fs).
    simpl. by rewrite <-Hhost, <-Hbind.
  - intros (Hnb & b & p & h & q & Hcut & Hh & hp & Hp & Hq & ->). simpl in *.
    assert (parseForwardSpec spec "0.0.0.0" true =
      Ok (mkFS (if decide (b = []) then "0.0.0.0"%string else string_of b) r.1.2 (string_of h) hp)) as ->; [|done].
    apply parseForwardSpec_cut. split; [done|]. exists b, p, h, q. split_and!; auto.
Qed.
