(* ===== verification/LogBuffer.v ===== *)
(** * The daemon's in-memory log ([src/manager/logging.go])

    [LogBuffer] keeps the most recent [capacity] lines.  Loops over indices are
    written as the loops they are: [Lines] scans downwards and then swaps the
    result in place. *)
From S2P Require Import Prelude GoStrings.

Record LogBuffer := mkLB { lb_lines : list bytes; lb_capacity : Z }.

Definition NewLogBuffer (capacity : Z) : LogBuffer :=
  mkLB [] (if decide (capacity <= 0) then 1000 else capacity).

(** [strings.TrimRight(s, "\n")]. *)
Fixpoint trim_right_newlines (s : bytes) : bytes :=
  match s with
  | [] => []
  | b :: s =>
      match trim_right_newlines s with
      | [] => if decide (b = newline) then [] else [b]
      | t => b :: t
      end
  end.

(** [strings.Split(s, "\n")]: never empty. *)
Fixpoint split_lines (s : bytes) : list bytes :=
  match s with
  | [] => [[]]
  | b :: s =>
      if decide (b = newline) then [] :: split_lines s
      else match split_lines s with
           | l :: ls => (b :: l) :: ls
           | [] => [[b]]
           end
  end.

Definition appendLocked (line : bytes) (lb : LogBuffer) : LogBuffer :=
  let lines := if decide (zlen (lb_lines lb) >= lb_capacity lb) then drop 1 (lb_lines lb) else lb_lines lb in
  mkLB (lines ++ [line]) (lb_capacity lb).

(** [Write]: the number of bytes it reports and the buffer. *)
Definition Write (p : bytes) (lb : LogBuffer) : Z * LogBuffer :=
  let parts := split_lines (trim_right_newlines p) in
  (zlen p, foldl (fun lb line => if decide (line = []) then lb else appendLocked line lb) lb parts).

Definition Add (line : bytes) (lb : LogBuffer) : LogBuffer := appendLocked line lb.

(** The scan of [Lines] from index [i - 1] down. *)
Fixpoint scan_lines (name : bytes) (limit : Z) (lines : list bytes) (i : nat) (out : list bytes) : list bytes :=
  match i with
  | O => out
  | S i =>
      if decide (zlen out < limit) then
        let line := default [] (lines !! i) in
        scan_lines name limit lines i
          (if decide (name = []) then out ++ [line] else if contains line name then out ++ [line] else out)
      else out
  end.

(** [for i, j := 0, len(out)-1; i < j; i, j = i+1, j-1 { swap }]. *)
Fixpoint swap_loop (fuel : nat) (i j : nat) (out : list bytes) : list bytes :=
  match fuel with
  | O => out
  | S fuel =>
      if decide (i < j)%nat then
        swap_loop fuel (S i) (pred j) (<[i := default [] (out !! j)]> (<[j := default [] (out !! i)]> out))
      else out
  end.

Definition Lines (name : bytes) (limit : Z) (lb : LogBuffer) : list bytes :=
  let limit := if decide (limit <= 0) then 100 else limit in
  let out := scan_lines name limit (lb_lines lb) (length (lb_lines lb)) [] in
  swap_loop (length out) 0 (pred (length out)) out.

(** The specification: the last [n] elements. *)
Definition lastn {A} (n : Z) (l : list A) : list A := drop (Z.to_nat (zlen l - n)) l.

(** The lines a [Write] stores. *)
Definition log_lines (p : bytes) : list bytes :=
  filter (.≠ []) (split_lines (trim_right_newlines p)).

Definition matches (name line : bytes) : bool :=
  if decide (name = []) then true else contains line name.

Definition Writes (ps : list bytes) (lb : LogBuffer) : LogBuffer := foldl (fun lb p => (Write p lb).2) lb ps.

(** ** Lemmas *)

Lemma lastn_snoc {A} n (l : list A) x : 0 < n ->
  lastn n (lastn n l ++ [x]) = lastn n (l ++ [x]) /\ zlen (lastn n l) <= n.
Proof.
  intros Hn. unfold lastn. split; [|len_lia].
  destruct (decide (zlen l <= n)).
  - replace (Z.to_nat (zlen l - n)) with 0%nat by lia. by rewrite drop_0.
  - assert (exists a, length l = (Z.to_nat (zlen l - n) + Z.to_nat n)%nat /\ a = Z.to_nat (zlen l - n)) as (a & Hl & Ha).
    { eexists. split; [unfold zlen in *; lia|done]. }
    rewrite <-Ha in *. rewrite !zlen_app. change (zlen [x]) with 1.
    assert (zlen (drop a l) = n) as -> by (unfold zlen; rewrite length_drop; lia).
    replace (zlen l + 1 - n) with (Z.of_nat (S a)) by lia. replace (n + 1 - n) with 1 by lia.
    change (Z.to_nat 1) with 1%nat. rewrite Nat2Z.id.
    rewrite !drop_app_le by (rewrite ?length_drop; lia). rewrite drop_drop. do 2 f_equal. lia.
Qed.

Lemma appendLocked_lastn line all lb :
  0 < lb_capacity lb -> lb_lines lb = lastn (lb_capacity lb) all ->
  lb_lines (appendLocked line lb) = lastn (lb_capacity lb) (all ++ [line])
  /\ lb_capacity (appendLocked line lb) = lb_capacity lb.
Proof.
  intros Hc Hl. split; [|done]. unfold appendLocked. simpl.
  destruct (lastn_snoc (lb_capacity lb) all line Hc) as [Hs Hlen]. rewrite <-Hs, <-Hl in *.
  unfold lastn. rewrite zlen_app. change (zlen [line]) with 1. pose proof (zlen_nonneg (lb_lines lb)).
  case_decide.
  - replace (zlen (lb_lines lb) + 1 - lb_capacity lb) with 1 by lia.
    rewrite drop_app_le; [done|]. change (Z.to_nat 1) with 1%nat. unfold zlen in *. lia.
  - replace (Z.to_nat (zlen (lb_lines lb) + 1 - lb_capacity lb)) with 0%nat by lia. done.
Qed.

Lemma store_parts_lastn parts all lb :
  0 < lb_capacity lb -> lb_lines lb = lastn (lb_capacity lb) all ->
  let lb' := foldl (fun lb line => if decide (line = []) then lb else appendLocked line lb) lb parts in
  lb_lines lb' = lastn (lb_capacity lb) (all ++ filter (.≠ []) parts) /\ lb_capacity lb' = lb_capacity lb.
Proof.
  revert all lb. induction parts as [|line parts IH]; intros all lb Hc Hl; [by rewrite app_nil_r|].
  cbn [foldl]. destruct (decide (line = [])) as [He|He].
  - rewrite filter_cons_False by (by intros ?). by apply IH.
  - destruct (appendLocked_lastn line all lb Hc Hl) as [Hl' Hc'].
    destruct (IH (all ++ [line]) (appendLocked line lb)) as [H1 H2]; [by rewrite Hc'|by rewrite Hc'|].
    rewrite filter_cons_True by done. rewrite H1, H2, Hc', <-app_assoc. done.
Qed.

(** The scan collects the matching lines from the newest, at most [limit]. *)
Lemma scan_lines_spec name limit lines i out :
  (i <= length lines)%nat ->
  scan_lines name limit lines i out =
    out ++ take (Z.to_nat (limit - zlen out)) (filter (fun l => matches name l = true) (rev (take i lines))).
Proof.
  revert out. induction i as [|i IH]; intros out Hi.
  { rewrite take_0. cbn [rev scan_lines]. by rewrite filter_nil, take_nil, app_nil_r. }
  cbn [scan_lines].
  destruct (lookup_lt_is_Some_2 lines i) as [line Hline]; [lia|]. rewrite Hline. cbn [default].
  case_decide as Hlim.
  2: { replace (Z.to_nat (limit - zlen out)) with 0%nat by lia. by rewrite take_0, app_nil_r. }
  rewrite (take_S_r _ _ _ Hline), rev_app_distr. cbn [rev app].
  assert (forall o, o = (if matches name line then out ++ [line] else out) ->
    scan_lines name limit lines i o = out ++ take (Z.to_nat (limit - zlen out))
      (filter (fun l => matches name l = true) (line :: rev (take i lines)))) as H.
  { intros o ->. destruct (matches name line) eqn:Em.
    - rewrite IH, filter_cons_True, zlen_app by (done || lia). change (zlen [line]) with 1.
      rewrite <-app_assoc. f_equal. replace (Z.to_nat (limit - zlen out)) with (S (Z.to_nat (limit - (zlen out + 1)))) by lia.
      done.
    - rewrite IH, filter_cons_False by (congruence || lia). done. }
  apply H. unfold matches. case_decide; [done|by destruct (contains _ _)].
Qed.

Lemma swap_loop_lookup fuel i j out k :
  (j < i + 2 * fuel)%nat -> (j < length out)%nat ->
  swap_loop fuel i j out !! k =
    if decide (i <= k <= j)%nat then out !! (i + j - k)%nat else out !! k.
Proof.
  revert i j out. induction fuel as [|fuel IH]; intros i j out Hf Hj; simpl.
  { rewrite decide_False by lia. done. }
  case_decide as Hij.
  2: { case_decide; [|done]. by replace (i + j - k)%nat with k by lia. }
  destruct (lookup_lt_is_Some_2 out i) as [x Hx]; [lia|]. destruct (lookup_lt_is_Some_2 out j) as [y Hy]; [lia|].
  rewrite IH by (rewrite ?length_insert; lia). rewrite Hx, Hy. simpl.
  destruct (decide (k = i)) as [->|Hki].
  { rewrite decide_False, decide_True by lia. rewrite list_lookup_insert_eq by (rewrite length_insert; lia).
    by replace (i + j - i)%nat with j by lia. }
  destruct (decide (k = j)) as [->|Hkj].
  { rewrite decide_False, decide_True by lia. rewrite list_lookup_insert_ne by lia.
    rewrite list_lookup_insert_eq by lia. by replace (i + j - j)%nat with i by lia. }
  case_decide; [rewrite decide_True by lia|rewrite decide_False by lia]; rewrite !list_lookup_insert_ne by lia; [|done].
  f_equal. lia.
Qed.

Lemma swap_loop_rev out : swap_loop (length out) 0 (pred (length out)) out = rev out.
Proof.
  destruct out as [|x out]; [done|]. set (l := x :: out). assert (0 < length l)%nat by (simpl; lia).
  apply list_eq. intros k. rewrite swap_loop_lookup by lia.
  destruct (decide (k < length l)%nat).
  - rewrite decide_True by lia. rewrite (rev_alt l). change (rev_append l []) with (reverse l).
    rewrite reverse_lookup by lia. f_equal; lia.
  - rewrite decide_False by lia. rewrite !lookup_ge_None_2; [done|rewrite length_rev; lia|lia].
Qed.

(** *** The two halves *)

(** The buffer is a sliding window: after any sequence of writes to a new
    buffer it holds exactly the last [capacity] of all non-empty lines written,
    in order, and every write reports that it took all its bytes. *)
Lemma LogBuffer_window (capacity : Z) (ps : list bytes) (p : bytes) :
  let lb := NewLogBuffer capacity in
  lb_lines (Writes ps lb) = lastn (lb_capacity lb) (concat (log_lines <$> ps))
  /\ 0 < lb_capacity lb /\ lb_capacity (Writes ps lb) = lb_capacity lb
  /\ zlen (lb_lines (Writes ps lb)) <= lb_capacity lb
  /\ (Write p (Writes ps lb)).1 = zlen p.
Proof.
  intros lb. assert (0 < lb_capacity lb) as Hc by (unfold lb, NewLogBuffer; simpl; case_decide; lia).
  assert (forall ps all lb, 0 < lb_capacity lb -> lb_lines lb = lastn (lb_capacity lb) all ->
    lb_lines (Writes ps lb) = lastn (lb_capacity lb) (all ++ concat (log_lines <$> ps))
    /\ lb_capacity (Writes ps lb) = lb_capacity lb) as H.
  { clear. intros ps. induction ps as [|p ps IH]; intros all lb Hc Hl; [by rewrite app_nil_r|].
    destruct (store_parts_lastn (split_lines (trim_right_newlines p)) all lb Hc Hl) as [H1 H2].
    fold (log_lines p) in H1. change (Writes (p :: ps) lb) with (Writes ps (Write p lb).2).
    destruct (IH (all ++ log_lines p) (Write p lb).2) as [H3 H4]; [simpl; by rewrite H2|simpl; by rewrite H2|].
    rewrite H3, H4. cbn [Write snd] in *. rewrite H2, <-app_assoc. done. }
  destruct (H ps [] lb Hc) as [H1 H2]; [unfold lastn; by rewrite drop_nil|]. simpl in H1. split_and!; try done.
  rewrite H1. by apply (lastn_snoc (lb_capacity lb) _ []).
Qed.

(** [Lines] answers with the most recent lines: the last [limit] (100 when
    the limit is not positive) of the stored lines that contain the name, oldest
    first. *)
Lemma Lines_exact (name : bytes) (limit : Z) (lb : LogBuffer) :
  let n := if decide (limit <= 0) then 100 else limit in
  Lines name limit lb = lastn n (filter (fun l => matches name l = true) (lb_lines lb)).
Proof.
  intros n. unfold Lines. fold n. rewrite swap_loop_rev, scan_lines_spec by lia.
  rewrite firstn_all, app_nil_l. change (zlen (@nil bytes)) with 0. rewrite Z.sub_0_r.
  set (l := lb_lines lb). assert (forall k : list bytes, filter (fun l => matches name l = true) (rev k)
    = rev (filter (fun l => matches name l = true) k)) as ->.
  { intros k. induction k as [|x k IH]; [done|]. cbn [rev]. rewrite filter_app, IH, !filter_cons, filter_nil.
    case_decide; simpl; [done|by rewrite app_nil_r]. }
  set (k := filter _ l). unfold lastn.
  rewrite firstn_rev, rev_involutive. f_equal. unfold zlen. assert (0 < n) by (unfold n; case_decide; lia). lia.
Qed.

(** ** Properties *)

