(* ===== verification/Language.v ===== *)
(** * The language of an [IO] parser

    A protocol function that reads, checks and answers is described by its
    language: the inputs it consumes successfully, with the bytes it writes
    and the value it returns.  [io_lang m L] says that [L] is exactly that for
    [m] on a transport that does not fail, and the lemmas compute the language
    of a function from its text. *)
From S2P Require Import Prelude Conn.

Definition lang (A : Type) : Type := list byte -> list byte -> A -> Prop.

(** The connection after consuming [l] and writing [w]. *)
Definition io_step (c : conn) (l w : list byte) (c' : conn) : Prop :=
  rx c = l ++ rx c' /\ c' = Conn (rx c') (rx_end c) (tx c ++ w) None (tx_err c).

Definition io_lang {A} (m : IO A) (L : lang A) : Prop :=
  forall c a c', tx_room c = None -> m c = (Ok a, c') <-> exists l w, L l w a /\ io_step c l w c'.

Lemma io_step_room c l w c' : io_step c l w c' -> tx_room c' = None.
Proof. by intros [_ ->]. Qed.

Lemma io_step_nil c c' : tx_room c = None -> io_step c [] [] c' <-> c' = c.
Proof.
  intros Hr. unfold io_step. split.
  - intros [Hrx ->]. simpl in Hrx. rewrite app_nil_r. destruct c; simpl in *. congruence.
  - intros ->. split; [done|]. rewrite app_nil_r. destruct c; simpl in *. congruence.
Qed.

Lemma io_step_app c l1 l2 w1 w2 c' :
  io_step c (l1 ++ l2) (w1 ++ w2) c' <-> exists c1, io_step c l1 w1 c1 /\ io_step c1 l2 w2 c'.
Proof.
  unfold io_step. split.
  - intros [Hrx ->]. exists (Conn (l2 ++ rx c') (rx_end c) (tx c ++ w1) None (tx_err c)). simpl.
    by rewrite Hrx, <-!app_assoc.
  - intros (c1 & [H1 ->] & [H2 ->]). simpl in *. by rewrite H1, H2, <-!app_assoc.
Qed.

Lemma lang_ext {A} (m : IO A) L K : (forall l w a, L l w a <-> K l w a) -> io_lang m L -> io_lang m K.
Proof. intros H Hm c a c' Hr. rewrite (Hm c a c' Hr). by setoid_rewrite H. Qed.

Lemma lang_ret {A} (a0 : A) : io_lang (mret a0) (fun l w a => l = [] /\ w = [] /\ a = a0).
Proof.
  intros c a c' Hr. split.
  - intros [= -> ->]. exists [], []. split; [done|]. by apply io_step_nil.
  - by intros (l & w & (-> & -> & ->) & ->%io_step_nil).
Qed.

Lemma lang_fail {A} e : io_lang (fail (A := A) e) (fun _ _ _ => False).
Proof. intros c a c' Hr. split; [done|naive_solver]. Qed.

(** A reply on an error path, whose own error is dropped. *)
Lemma lang_reply_fail {A} p e :
  io_lang (_ ← ignore_err (Write p); fail (A := A) e) (fun _ _ _ => False).
Proof. intros c a c' Hr. split; [done|naive_solver]. Qed.

Lemma lang_wrap {A} s (m : IO A) L : io_lang m L -> io_lang (wrap_err s m) L.
Proof.
  intros Hm c a c' Hr. rewrite <-(Hm c a c' Hr). unfold wrap_err.
  destruct (m c) as [[x|x] cx]; [done|]. split; [done|congruence].
Qed.

Lemma lang_ReadFull n : 0 <= n -> io_lang (ReadFull n) (fun l w a => zlen l = n /\ w = [] /\ a = l).
Proof.
  intros Hn c a c' Hr. split.
  - intros H%ReadFull_inv; [|done]. destruct H as (Hrx & Hl & Hc). exists a, [].
    split; [done|]. split; [done|]. by rewrite app_nil_r, <-Hr.
  - intros (l & w & (Hl & -> & ->) & Hrx & Hc). rewrite (ReadFull_ok n c l (rx c')) by done.
    f_equal. rewrite Hc. by rewrite Hr, app_nil_r.
Qed.

Lemma lang_Write p : io_lang (Write p) (fun l w _ => l = [] /\ w = p).
Proof.
  intros c a c' Hr. unfold Write. rewrite Hr. split.
  - intros [= <- <-]. by exists [], p.
  - intros (l & w & [-> ->] & Hrx & ->). simpl in Hrx. by rewrite Hrx; destruct a.
Qed.

Lemma lang_bind {A B} (m : IO A) (f : A -> IO B) L K :
  io_lang m L -> (forall a, io_lang (f a) (K a)) ->
  io_lang (m ≫= f) (fun l w b => exists a l1 l2 w1 w2,
    l = l1 ++ l2 /\ w = w1 ++ w2 /\ L l1 w1 a /\ K a l2 w2 b).
Proof.
  intros Hm Hf c b c' Hr. unfold mbind, IO_bind. split.
  - intros H. destruct (m c) as [[a|e] c1] eqn:E; [|done].
    apply Hm in E as (l1 & w1 & HL & H1); [|done].
    apply Hf in H as (l2 & w2 & HK & H2); [|by eapply io_step_room].
    exists (l1 ++ l2), (w1 ++ w2). split; [by exists a, l1, l2, w1, w2|]. apply io_step_app. by exists c1.
  - intros (l & w & (a & l1 & l2 & w1 & w2 & -> & -> & HL & HK) & H).
    apply io_step_app in H as (c1 & H1 & H2).
    assert (m c = (Ok a, c1)) as -> by (apply Hm; [done|by exists l1, w1]).
    apply Hf; [by eapply io_step_room|by exists l2, w2].
Qed.

Lemma lang_if {A} P `{Decision P} (m k : IO A) L K :
  io_lang m L -> io_lang k K ->
  io_lang (if decide P then m else k) (fun l w a => P /\ L l w a \/ ~ P /\ K l w a).
Proof.
  intros Hm Hk c a c' Hr. case_decide.
  - rewrite (Hm c a c' Hr). naive_solver.
  - rewrite (Hk c a c' Hr). naive_solver.
Qed.

(** The guard [if P then return error]. *)
Lemma lang_guard {A} P `{Decision P} (e : error) (m : IO A) L :
  io_lang m L -> io_lang (if decide P then fail e else m) (fun l w a => ~ P /\ L l w a).
Proof.
  intros Hm. eapply lang_ext; [|apply lang_if; [apply lang_fail|exact Hm]]. naive_solver.
Qed.

Lemma lang_guard_reply {A} P `{Decision P} p (e : error) (m : IO A) L :
  io_lang m L ->
  io_lang (if decide P then _ ← ignore_err (Write p); fail e else m) (fun l w a => ~ P /\ L l w a).
Proof.
  intros Hm. eapply lang_ext; [|apply lang_if; [apply lang_reply_fail|exact Hm]]. naive_solver.
Qed.

(** [ReadFull] followed by the rest of a function. *)
Lemma lang_read {B} n s (f : list byte -> IO B) K :
  0 <= n -> (forall a, io_lang (f a) (K a)) ->
  io_lang (x ← wrap_err s (ReadFull n); f x) (fun l w b => exists a l2, l = a ++ l2 /\ zlen a = n /\ K a l2 w b).
Proof.
  intros Hn Hf. eapply lang_ext; [|apply lang_bind; [apply lang_wrap, lang_ReadFull, Hn|exact Hf]].
  intros l w b. split.
  - intros (a & l1 & l2 & w1 & w2 & -> & -> & (? & -> & ->) & HK). by exists l1, l2.
  - intros (a & l2 & -> & Hz & HK). by exists a, a, l2, [], w.
Qed.

Lemma lang_write {B} p s (m : IO B) K :
  io_lang m K ->
  io_lang (_ ← wrap_err s (Write p); m) (fun l w b => exists w2, w = p ++ w2 /\ K l w2 b).
Proof.
  intros Hm. eapply lang_ext; [|apply lang_bind; [apply lang_wrap, lang_Write|intros ?; exact Hm]].
  intros l w b. split.
  - intros (a & l1 & l2 & w1 & w2 & Hl & Hw & [H1 H2] & HK). subst. by exists w2.
  - intros (w2 & -> & HK). by exists tt, [], l, p, w2.
Qed.
