(* ===== verification/Socks5.v ===== *)
(** * The SOCKS5 front end ([src/relay/socks5.go], [socks5proxy.go])

    [socksHandshake], [socksPasswordAuth] and [socksReply] as [IO] functions on
    the client's connection, with the textual form of addresses ([net.IP] and
    [net.JoinHostPort] of the standard library) and [packedAddr]. *)
From S2P Require Import Prelude Conn GoStrings Language.

Definition socksVer5 : byte := x05.
Definition socksCmdConnect : byte := x01.
Definition socksAtypIPv4 : byte := x01.
Definition socksAtypDomain : byte := x03.
Definition socksAtypIPv6 : byte := x04.
Definition socksAuthNone : byte := x00.
Definition socksAuthPassword : byte := x02.
Definition socksAuthNoAccept : byte := xff.
Definition socksRepSuccess : byte := x00.

(** [net.IP.String] of a 4-byte address. *)
Fixpoint dotted (a : bytes) : bytes :=
  match a with
  | [] => []
  | [b] => Itoa (byte_to_Z b)
  | b :: a => Itoa (byte_to_Z b) ++ x2e :: dotted a
  end.

(** The 16-bit groups of a 16-byte address and their hexadecimal form. *)
Fixpoint words (a : bytes) : list Z :=
  match a with
  | h :: l :: a => be_get [h; l] :: words a
  | _ => []
  end.

Definition hex_digit (d : Z) : byte := if decide (d < 10) then byte_of_Z (48 + d) else byte_of_Z (87 + d).

Fixpoint hex_loop (fuel : nat) (n : Z) (acc : bytes) : bytes :=
  match fuel with
  | O => acc
  | S fuel =>
      let acc := hex_digit (n mod 16) :: acc in
      if decide (n < 16) then acc else hex_loop fuel (n / 16) acc
  end.

Definition hex16 (n : Z) : bytes := hex_loop 4 n [].

(** The first longest run of zero groups, as a half-open interval. *)
Fixpoint zero_run (ws : list Z) : nat :=
  match ws with w :: ws => if decide (w = 0) then S (zero_run ws) else O | [] => O end.

Fixpoint longest_run (i : nat) (ws : list Z) (e : nat * nat) : nat * nat :=
  match ws with
  | [] => e
  | _ :: ws' =>
      let n := zero_run ws in
      longest_run (S i) ws' (if decide (e.2 - e.1 < n)%nat then (i, (i + n)%nat) else e)
  end.

Fixpoint ip6_print (fuel : nat) (e : nat * nat) (i : nat) (ws : list Z) : bytes :=
  match fuel with
  | O => []
  | S fuel =>
      if decide (length ws <= i)%nat then [] else
      if decide (i = e.1 /\ 2 <= e.2 - e.1)%nat then
        bytes_of "::" ++
          (if decide (length ws <= e.2)%nat then []
           else hex16 (default 0 (ws !! e.2)) ++ ip6_print fuel e (S e.2) ws)
      else (if decide (0 < i)%nat then [colon] else []) ++ hex16 (default 0 (ws !! i)) ++ ip6_print fuel e (S i) ws
  end.

(** [net.IP.To4]. *)
Definition To4 (ip : bytes) : option bytes :=
  if decide (length ip = 4%nat) then Some ip
  else if decide (length ip = 16%nat /\ take 12 ip = replicate 10 x00 ++ [xff; xff]) then Some (drop 12 ip)
  else None.

Definition IP_String (ip : bytes) : bytes :=
  match To4 ip with
  | Some a => dotted a
  | None => let ws := words ip in ip6_print 8 (longest_run 0 ws (0%nat, 0%nat)) 0 ws
  end.

Record socksTarget := mkTarget {
  st_raw : bytes;    (* atyp + addr + port *)
  st_addr : string;
}.

(** [socksPasswordAuth]: RFC 1929 sub-negotiation. *)
Definition socksPasswordAuth (user pass : bytes) : IO unit :=
  header ← wrap_err "socks password auth: %w" (ReadFull 2);
  if decide (header !! 0%nat <> Some x01) then
    _ ← ignore_err (Write [x01; x01]);
    fail (Errorf "socks password auth: unsupported version %d" [AInt (be_get (take 1 header))])
  else
  let userLen := be_get (drop 1 header) in
  if decide (userLen < 1 \/ userLen > 255) then
    _ ← ignore_err (Write [x01; x02]);
    fail (Errorf "socks password auth: invalid username length %d" [AInt userLen])
  else
  userBuf ← wrap_err "socks password auth username: %w" (ReadFull userLen);
  plen ← wrap_err "socks password auth password len: %w" (ReadFull 1);
  let passLen := be_get plen in
  if decide (passLen < 1 \/ passLen > 255) then
    _ ← ignore_err (Write [x01; x02]);
    fail (Errorf "socks password auth: invalid password length %d" [AInt passLen])
  else
  passBuf ← wrap_err "socks password auth password: %w" (ReadFull passLen);
  if decide (userBuf <> user \/ passBuf <> pass) then
    _ ← ignore_err (Write [x01; x01]);
    fail (Errorf "socks: authentication failed" [])
  else
  _ ← wrap_err "socks password auth success: %w" (Write [x01; x00]);
  mret tt.

(** The authentication method the server picks. *)
Definition choose_method (requireAuth : bool) (methods : bytes) : byte :=
  if requireAuth
  then if decide (socksAuthPassword ∈ methods) then socksAuthPassword else socksAuthNoAccept
  else socksAuthNone.

(** The destination address of a request: its raw form and its text. *)
Definition socksAddr (atyp : byte) : IO (bytes * bytes) :=
  if decide (atyp = socksAtypIPv4) then
    addr ← wrap_err "socks ipv4: %w" (ReadFull 4);
    mret (atyp :: addr, IP_String addr)
  else if decide (atyp = socksAtypIPv6) then
    addr ← wrap_err "socks ipv6: %w" (ReadFull 16);
    mret (atyp :: addr, IP_String addr)
  else if decide (atyp = socksAtypDomain) then
    lenByte ← wrap_err "socks domain len: %w" (ReadFull 1);
    domain ← wrap_err "socks domain: %w" (ReadFull (be_get lenByte));
    mret (atyp :: lenByte ++ domain, domain)
  else fail (Errorf "socks: unknown address type %d" [AInt (byte_to_Z atyp)]).

Definition socksRequest : IO socksTarget :=
  req ← wrap_err "socks request: %w" (ReadFull 4);
  if decide (req !! 0%nat <> Some socksVer5) then
    fail (Errorf "socks: request version %d" [AInt (be_get (take 1 req))])
  else if decide (req !! 1%nat <> Some socksCmdConnect) then
    fail (Errorf "socks: unsupported command %d" [AInt (be_get (take 1 (drop 1 req)))])
  else
  target ← socksAddr (default x00 (req !! 3%nat));
  port ← wrap_err "socks port: %w" (ReadFull 2);
  mret (mkTarget (target.1 ++ port) (string_of (JoinHostPort target.2 (Itoa (be_get port))))).

Definition socksHandshake (user pass : bytes) : IO socksTarget :=
  let requireAuth := bool_decide (user <> [] \/ pass <> []) in
  header ← wrap_err "socks greeting: %w" (ReadFull 2);
  if decide (header !! 0%nat <> Some socksVer5) then
    fail (Errorf "socks: unsupported version %d" [AInt (be_get (take 1 header))])
  else
  let nmethods := be_get (drop 1 header) in
  if decide (nmethods < 1) then fail (Errorf "socks: no auth methods" []) else
  methods ← wrap_err "socks methods: %w" (ReadFull nmethods);
  let chosen := choose_method requireAuth methods in
  _ ← wrap_err "socks auth response: %w" (Write [socksVer5; chosen]);
  if decide (chosen = socksAuthNoAccept) then fail (Errorf "socks: no acceptable auth method" []) else
  _ ← (if decide (chosen = socksAuthPassword) then socksPasswordAuth user pass else mret tt);
  socksRequest.

Definition socksReply (rep atyp : byte) (addr port : bytes) : IO unit :=
  Write ([socksVer5; rep; x00; atyp] ++ addr ++ port).

(** [packedAddr]; [None] is an address that is not a [*net.TCPAddr]. *)
Definition packedAddr (addr : option (bytes * Z)) : bytes :=
  match addr with
  | None => socksAtypIPv4 :: replicate 6 x00
  | Some (ip, port) =>
      let port := [byte_of_Z (Z.shiftr port 8); byte_of_Z port] in
      match To4 ip with
      | Some ip4 => socksAtypIPv4 :: ip4 ++ port
      | None =>
          if decide (length ip = 16%nat) then socksAtypIPv6 :: ip ++ port
          else socksAtypIPv4 :: replicate 4 x00 ++ port
      end
  end.

(** The reply [handle] sends once it has dialled the target, or failed to:
    [rawAddr[0]], [rawAddr[1:len-2]] and [rawAddr[len-2:]]; [None] would be a
    run-time panic. *)
Definition handle_reply (dialled : option (option (bytes * Z))) : option (IO unit) :=
  match dialled with
  | None => Some (socksReply x04 socksAtypIPv4 [x00; x00; x00; x00] [x00; x00])
  | Some addr =>
      let rawAddr := packedAddr addr in
      atyp ← rawAddr !! 0%nat;
      a ← slice rawAddr 1 (zlen rawAddr - 2);
      p ← slice rawAddr (zlen rawAddr - 2) (zlen rawAddr);
      Some (socksReply socksRepSuccess atyp a p)
  end.

(** The messages of a client: greeting, credentials, request. *)
Definition greeting (methods : bytes) : bytes := socksVer5 :: byte_of_Z (zlen methods) :: methods.

Definition credentials (user pass : bytes) : bytes :=
  x01 :: byte_of_Z (zlen user) :: user ++ byte_of_Z (zlen pass) :: pass.

Inductive destination := DstIPv4 (a : bytes) | DstIPv6 (a : bytes) | DstDomain (d : bytes).

Definition dst_ok (d : destination) : Prop :=
  match d with
  | DstIPv4 a => zlen a = 4
  | DstIPv6 a => zlen a = 16
  | DstDomain d => zlen d < 256
  end.

Definition dst_raw (d : destination) : bytes :=
  match d with
  | DstIPv4 a => socksAtypIPv4 :: a
  | DstIPv6 a => socksAtypIPv6 :: a
  | DstDomain d => socksAtypDomain :: byte_of_Z (zlen d) :: d
  end.

Definition dst_text (d : destination) : bytes :=
  match d with DstIPv4 a | DstIPv6 a => IP_String a | DstDomain d => d end.

Definition request (rsv : byte) (d : destination) (port : bytes) : bytes :=
  [socksVer5; socksCmdConnect; rsv] ++ dst_raw d ++ port.

Definition target_of (d : destination) (port : bytes) : socksTarget :=
  mkTarget (dst_raw d ++ port) (string_of (JoinHostPort (dst_text d) (Itoa (be_get port)))).

(** ** Lemmas *)

Lemma zlen_1 {A} (l : list A) : zlen l = 1 -> exists x, l = [x].
Proof. destruct l as [|x [|]]; unfold zlen; simpl; intros; [lia|by eexists|lia]. Qed.

Lemma zlen_2 {A} (l : list A) : zlen l = 2 -> exists x y, l = [x; y].
Proof. destruct l as [|x [|y [|]]]; unfold zlen; simpl; intros; [lia|lia|by do 2 eexists|lia]. Qed.

Lemma zlen_4 {A} (l : list A) : zlen l = 4 -> exists x y z t, l = [x; y; z; t].
Proof. destruct l as [|x [|y [|z [|t [|]]]]]; unfold zlen; simpl; intros; try lia. by do 4 eexists. Qed.

(** A one-byte length prefix. *)
Lemma byte_length b n : byte_to_Z b = n <-> b = byte_of_Z n /\ 0 <= n < 256.
Proof.
  split.
  - intros <-. split; [by rewrite byte_of_to_Z|apply byte_to_Z_range].
  - intros [-> Hn]. rewrite byte_to_of_Z. by apply Z.mod_small.
Qed.

Lemma socksPasswordAuth_lang user pass :
  io_lang (socksPasswordAuth user pass) (fun l w _ =>
    l = credentials user pass /\ w = [x01; x00] /\ 1 <= zlen user <= 255 /\ 1 <= zlen pass <= 255).
Proof.
  unfold socksPasswordAuth. eapply lang_ext.
  2: { apply lang_read; [lia|]. intros header. apply lang_guard_reply, lang_guard_reply.
       apply lang_read; [pose proof (be_get_range (drop 1 header)); lia|]. intros ub.
       apply lang_read; [lia|]. intros plen. apply lang_guard_reply.
       apply lang_read; [pose proof (be_get_range plen); lia|]. intros pb.
       apply lang_guard_reply, lang_write, lang_ret. }
  intros l w []. split.
  - intros (h & l1 & -> & Hh & Hv & Hul & ub & l2 & -> & Hub & pl & l3 & -> & Hpl & Hpr & pb & l4 & -> & Hpb
      & Hm & w' & -> & -> & -> & _).
    apply zlen_2 in Hh as (v & ul & ->). apply zlen_1 in Hpl as (p & ->).
    cbn [drop] in *. rewrite be_get_1 in *.
    destruct (decide (v = x01)) as [->|?]; [|destruct Hv; by intros [= ->]].
    destruct (decide (ub = user)) as [->|?]; [|tauto]. destruct (decide (pb = pass)) as [->|?]; [|tauto].
    symmetry in Hub, Hpb. apply byte_length in Hub as [-> ?], Hpb as [-> ?].
    rewrite byte_to_of_Z, Z.mod_small in * by lia.
    split_and!; try lia; [|done]. unfold credentials. simpl. by rewrite app_nil_r.
  - intros (-> & -> & Hu & Hp). unfold credentials.
    assert (byte_to_Z (byte_of_Z (zlen user)) = zlen user) as Hbu by (by apply byte_length; split; [|lia]).
    assert (byte_to_Z (byte_of_Z (zlen pass)) = zlen pass) as Hbp by (by apply byte_length; split; [|lia]).
    exists [x01; byte_of_Z (zlen user)], (user ++ byte_of_Z (zlen pass) :: pass).
    cbn [drop]. rewrite be_get_1, Hbu. split_and!; try done; [naive_solver|lia|].
    exists user, (byte_of_Z (zlen pass) :: pass). split_and!; try done.
    exists [byte_of_Z (zlen pass)], pass. rewrite be_get_1, Hbp. split_and!; try done; [lia|].
    exists pass, []. rewrite app_nil_r. split_and!; try done; [tauto|]. by exists [].
Qed.

(** What [socksAddr] reads after the address type. *)
Lemma socksAddr_lang atyp :
  io_lang (socksAddr atyp) (fun l w a => exists d, dst_ok d /\ dst_raw d = atyp :: l /\ w = []
    /\ a = (dst_raw d, dst_text d)).
Proof.
  unfold socksAddr. eapply lang_ext.
  2: { apply lang_if; [apply lang_read; [lia|intros a; apply lang_ret]|].
       apply lang_if; [apply lang_read; [lia|intros a; apply lang_ret]|].
       apply lang_if; [|apply lang_fail]. apply lang_read; [lia|]. intros lb.
       apply lang_read; [pose proof (be_get_range lb); lia|]. intros dm. apply lang_ret. }
  intros l w a. split.
  - intros [(-> & ad & l2 & -> & Hl & -> & -> & ->)|(_ & [(-> & ad & l2 & -> & Hl & -> & -> & ->)|(_ &
      [(-> & lb & l2 & -> & Hl & dm & l3 & -> & Hd & -> & -> & ->)|(_ & [])])])]; rewrite ?app_nil_r.
    + by exists (DstIPv4 ad).
    + by exists (DstIPv6 ad).
    + apply zlen_1 in Hl as [b ->]. rewrite be_get_1 in Hd. symmetry in Hd. apply byte_length in Hd as [-> ?].
      exists (DstDomain dm). simpl. split_and!; try done. lia.
  - intros (d & Hok & Hraw & -> & ->). destruct d as [ad|ad|dm]; simpl in Hok, Hraw; injection Hraw as <- <-.
    + left. split; [done|]. exists ad, []. by rewrite app_nil_r.
    + right. split; [done|]. left. split; [done|]. exists ad, []. by rewrite app_nil_r.
    + right. split; [done|]. right. split; [done|]. left. split; [done|].
      exists [byte_of_Z (zlen dm)], dm. split; [done|]. split; [done|]. exists dm, []. rewrite app_nil_r, be_get_1.
      split; [done|]. split; [symmetry; apply byte_length; split; [done|pose proof (zlen_nonneg dm); lia]|done].
Qed.

Lemma socksRequest_lang :
  io_lang socksRequest (fun l w t => exists rsv d port, dst_ok d /\ zlen port = 2
    /\ l = request rsv d port /\ w = [] /\ t = target_of d port).
Proof.
  unfold socksRequest. eapply lang_ext.
  2: { apply lang_read; [lia|]. intros req. apply lang_guard, lang_guard. apply lang_bind; [apply socksAddr_lang|].
       intros a. apply lang_read; [lia|]. intros port. apply lang_ret. }
  intros l w t. split.
  - intros (rq & l1 & -> & Hrq & Hv & Hc & a & l2 & l3 & w1 & w2 & -> & -> & (d & Hok & Hraw & -> & ->)
      & port & l4 & -> & Hp & -> & -> & ->).
    apply zlen_4 in Hrq as (v & c & rsv & aty & ->). simpl in Hraw.
    destruct (decide (v = socksVer5)) as [->|?]; [|destruct Hv; by intros [= ->]].
    destruct (decide (c = socksCmdConnect)) as [->|?]; [|destruct Hc; by intros [= ->]].
    exists rsv, d, port. split_and!; try done. unfold request. rewrite Hraw, app_nil_r. simpl. done.
  - intros (rsv & d & port & Hok & Hp & -> & -> & ->).
    assert (exists aty l, dst_raw d = aty :: l) as (aty & l & Hraw) by (destruct d; by do 2 eexists).
    exists [socksVer5; socksCmdConnect; rsv; aty], (l ++ port). unfold request. rewrite Hraw.
    split_and!; try done; try (by intros H; apply H).
    exists (dst_raw d, dst_text d), l, port, [], []. split_and!; try done.
    + exists d. simpl. by rewrite Hraw.
    + exists port, []. rewrite app_nil_r. by split_and!.
Qed.

Definition requireAuth (user pass : bytes) : bool := bool_decide (user <> [] \/ pass <> []).

Lemma choose_method_accepts req ms :
  choose_method req ms <> socksAuthNoAccept <-> (req = true -> socksAuthPassword ∈ ms).
Proof. unfold choose_method. destruct req; [|done]. case_decide; naive_solver. Qed.

Lemma choose_method_password req ms :
  choose_method req ms <> socksAuthNoAccept ->
  choose_method req ms = (if req then socksAuthPassword else socksAuthNone).
Proof. unfold choose_method. destruct req; [|done]. by case_decide. Qed.

(** The language of the whole handshake. *)
Lemma socksHandshake_lang user pass :
  io_lang (socksHandshake user pass) (fun l w t => exists ms rsv d port,
    1 <= zlen ms <= 255 /\ dst_ok d /\ zlen port = 2 /\ t = target_of d port
    /\ if requireAuth user pass
       then socksAuthPassword ∈ ms /\ 1 <= zlen user <= 255 /\ 1 <= zlen pass <= 255
         /\ l = greeting ms ++ credentials user pass ++ request rsv d port
         /\ w = [socksVer5; socksAuthPassword; x01; x00]
       else l = greeting ms ++ request rsv d port /\ w = [socksVer5; socksAuthNone]).
Proof.
  unfold socksHandshake. fold (requireAuth user pass). set (req := requireAuth user pass).
  eapply lang_ext.
  2: { apply lang_read; [lia|]. intros header. apply lang_guard, lang_guard.
       apply lang_read; [pose proof (be_get_range (drop 1 header)); lia|]. intros ms.
       apply lang_write, lang_guard. apply lang_bind; [apply lang_if; [apply socksPasswordAuth_lang|apply lang_ret]|].
       intros u. apply socksRequest_lang. }
  intros l w t. split.
  - intros (h & l1 & -> & Hh & Hv & Hn & ms & l2 & -> & Hms & w2 & -> & Hne & u & l3 & l4 & w3 & w4 & -> & -> & Ha
      & rsv & d & port & Hok & Hp & -> & -> & ->).
    apply zlen_2 in Hh as (v & n & ->). cbn [drop] in *. rewrite be_get_1 in *.
    destruct (decide (v = socksVer5)) as [->|?]; [|destruct Hv; by intros [= ->]].
    symmetry in Hms. apply byte_length in Hms as [-> ?]. rewrite byte_to_of_Z, Z.mod_small in Hn by lia.
    rewrite (choose_method_password req ms Hne) in *.
    pose proof (proj1 (choose_method_accepts req ms) Hne) as Hin.
    exists ms, rsv, d, port. split_and!; try done; try lia. destruct req.
    + destruct Ha as [(_ & -> & -> & ?)|[[] _]]; [|done].
      split; [by apply Hin|]. split; [lia|]. split; [lia|]. split; [|done].
      unfold greeting. simpl. by rewrite <-!app_assoc.
    + destruct Ha as [(? & _)|(_ & -> & -> & _)]; [done|]. split; [|done].
      unfold greeting. simpl. done.
  - intros (ms & rsv & d & port & Hms & Hok & Hp & -> & Hcase).
    assert (byte_to_Z (byte_of_Z (zlen ms)) = zlen ms) as Hb by (by apply byte_length; split; [|lia]).
    set (auth := if req then credentials user pass else []).
    assert (l = greeting ms ++ auth ++ request rsv d port) as -> by (unfold auth; destruct req; [apply Hcase|apply Hcase]).
    assert (choose_method req ms <> socksAuthNoAccept) as Hne.
    { apply choose_method_accepts. intros ->. apply Hcase. }
    exists [socksVer5; byte_of_Z (zlen ms)], (ms ++ auth ++ request rsv d port). cbn [drop]. rewrite be_get_1, Hb.
    split_and!; try done; [by intros H; apply H|lia|].
    exists ms, (auth ++ request rsv d port). split; [done|]. split; [done|].
    rewrite (choose_method_password req ms Hne).
    exists (if req then [x01; x00] else []). split; [destruct req; apply Hcase|]. split; [by destruct req|].
    exists tt, auth, (request rsv d port), (if req then [x01; x00] else []), [].
    split_and!; [done|by rewrite app_nil_r| |by exists rsv, d, port].
    unfold auth. destruct req; [left|right; by split]. split; [done|]. naive_solver.
Qed.

Lemma To4_length ip a : To4 ip = Some a -> length a = 4%nat.
Proof.
  unfold To4. case_decide as H4; [by intros [= <-]|]. case_decide as H16; [|done]. intros [= <-].
  rewrite length_drop. lia.
Qed.

(** A packed address: its type, the bytes of the address and the port. *)
Lemma packedAddr_shape addr :
  exists atyp a p, packedAddr addr = atyp :: a ++ p /\ length p = 2%nat
    /\ (atyp = socksAtypIPv4 /\ length a = 4%nat \/ atyp = socksAtypIPv6 /\ length a = 16%nat)
    /\ match addr with Some (_, port) => 0 <= port < 2 ^ 16 -> be_get p = port | None => be_get p = 0 end.
Proof.
  unfold packedAddr. destruct addr as [[ip port]|].
  2: { exists socksAtypIPv4, (replicate 4 x00), (replicate 2 x00). split_and!; auto. }
  set (p := [byte_of_Z (Z.shiftr port 8); byte_of_Z port]).
  assert (0 <= port < 2 ^ 16 -> be_get p = port) as Hp.
  { intros H. assert (p = be_put 2 port) as -> by done. rewrite be_get_put. by apply Z.mod_small. }
  destruct (To4 ip) as [a|] eqn:E4; [|case_decide as H16].
  - exists socksAtypIPv4, a, p. apply To4_length in E4. split_and!; auto.
  - exists socksAtypIPv6, ip, p. split_and!; auto.
  - exists socksAtypIPv4, (replicate 4 x00), p. split_and!; auto.
Qed.

(** A success reply is the packed address behind a fixed header. *)
Lemma handle_reply_packed addr : handle_reply (Some addr) = Some (Write ([socksVer5; socksRepSuccess; x00] ++ packedAddr addr)).
Proof.
  unfold handle_reply. destruct (packedAddr_shape addr) as (atyp & a & p & -> & Hp & _ & _).
  assert (zlen p = 2) as Hzp by (unfold zlen; lia). pose proof (zlen_nonneg a).
  assert (zlen (atyp :: a ++ p) = zlen a + 3) as Hl by (rewrite zlen_cons, zlen_app; lia).
  assert (slice (atyp :: a ++ p) 1 (zlen (atyp :: a ++ p) - 2) = Some a) as Hs1.
  { rewrite slice_Some by lia. rewrite Hl. replace (zlen a + 3 - 2 - 1) with (zlen a) by lia.
    change (Z.to_nat 1) with 1%nat. rewrite skipn_cons, drop_0. by rewrite take_zlen_app. }
  assert (slice (atyp :: a ++ p) (zlen (atyp :: a ++ p) - 2) (zlen (atyp :: a ++ p)) = Some p) as Hs2.
  { rewrite slice_Some by lia. rewrite Hl.
    replace (Z.to_nat (zlen a + 3 - 2)) with (S (Z.to_nat (zlen a))) by lia. rewrite skipn_cons, drop_zlen_app.
    rewrite take_ge; [done|]. lia. }
  cbn [lookup list_lookup mbind option_bind]. rewrite Hs1. cbn [mbind option_bind]. rewrite Hs2. done.
Qed.

(** ** Properties *)


(** A client that authenticates and asks for [db:5432]. *)
Definition demo_client : bytes :=
  greeting [x00; x02] ++ credentials (bytes_of "u") (bytes_of "pw")
  ++ request x00 (DstDomain (bytes_of "db")) (be_put 2 5432).


(** The reply of a proxied connection is always well formed: whatever
    address the operating system reports for the upstream socket, [handle]
    slices the packed address within its bounds and sends a success reply with
    an IPv4 or IPv6 address of the right length and the port in network order,
    and a failed dial is answered with reply code 4. *)
Theorem handle_reply_wellformed (dialled : option (option (bytes * Z))) :
  exists io rep atyp a p, handle_reply dialled = Some io
    /\ (forall c, tx_room c = None -> io c = (Ok tt, advance 0 ([socksVer5; rep; x00; atyp] ++ a ++ p) c))
    /\ (atyp = socksAtypIPv4 /\ length a = 4%nat \/ atyp = socksAtypIPv6 /\ length a = 16%nat)
    /\ length p = 2%nat
    /\ rep = (if decide (dialled = None) then x04 else socksRepSuccess)
    /\ match dialled with Some (Some (_, port)) => 0 <= port < 2 ^ 16 -> be_get p = port | _ => be_get p = 0 end.
Proof.
  assert (forall q c, tx_room c = None -> Write q c = (Ok tt, advance 0 q c)) as Hw.
  { intros q c Hr. apply Write_ok. unfold room. by rewrite Hr. }
  destruct dialled as [addr|].
  - rewrite handle_reply_packed. destruct (packedAddr_shape addr) as (atyp & a & p & -> & Hp & Ha & Hv).
    exists (Write ([socksVer5; socksRepSuccess; x00] ++ atyp :: a ++ p)), socksRepSuccess, atyp, a, p. split_and!; try done.
    intros c Hr. by apply Hw.
  - exists (socksReply x04 socksAtypIPv4 [x00; x00; x00; x00] [x00; x00]), x04, socksAtypIPv4,
      [x00; x00; x00; x00], [x00; x00]. split_and!; try done; [|by left].
    intros c Hr. by apply Hw.
Qed.
