(* ===== verification/SocksServer.v ===== *)
(** * A SOCKS connection from end to end ([SocksProxy.handle] of
    [src/relay/socks5proxy.go])

    [handle] runs the handshake of [Socks5.v], dials the address it names,
    answers and relays.  Its handshake and its relay use the same connection
    one after the other, so what counts is that nothing is lost, repeated or
    mixed between the two. *)
From S2P Require Import Prelude Conn GoStrings Language Socks5 Transport Stream FlowControl Relay.

(** How [handle] ends, or that it goes on to [Relay(upstream, conn)]. *)
Inductive socks_outcome :=
  | Refused (e : error)          (* [socksHandshake] failed *)
  | Unreachable (addr : string)  (* [net.Dial] failed *)
  | Unanswered (addr : string) (e : error)
  | Relaying (addr : string)
  | Panicked.

(** [handle] up to [Relay]; [dial] is what [net.Dial] gives for an address: the
    local address of the new connection, or a failure. *)
Definition socks_handle (user pass : bytes) (dial : string -> option (option (bytes * Z))) : conn -> socks_outcome * conn := fun c =>
  match socksHandshake user pass c with
  | (Err e, c) => (Refused e, c)
  | (Ok target, c) =>
      let addr := st_addr target in
      match handle_reply (dial addr) with
      | None => (Panicked, c)
      | Some reply =>
          let '(r, c) := reply c in
          match dial addr, r with
          | None, _ => (Unreachable addr, c)
          | Some _, Err e => (Unanswered addr e, c)
          | Some _, Ok _ => (Relaying addr, c)
          end
      end
  end.

(** What a client sends to be connected to [d] and [port], with a server
    configured for [user] and [pass]. *)
Definition opening (user pass ms : bytes) (rsv : byte) (d : destination) (port : bytes) : bytes :=
  greeting ms ++ (if requireAuth user pass then credentials user pass else []) ++ request rsv d port.

(** What it is sent before the data of the target. *)
Definition answer (user pass : bytes) (local : option (bytes * Z)) : bytes :=
  (if requireAuth user pass then [socksVer5; socksAuthPassword; x01; x00] else [socksVer5; socksAuthNone])
  ++ [socksVer5; socksRepSuccess; x00] ++ packedAddr local.

(** ** Lemmas *)

(** The relay starts exactly when the client has opened correctly, the address
    it named was dialled and it has the answer. *)
Lemma socks_relaying user pass dial c addr c' :
  tx_room c = None -> socks_handle user pass dial c = (Relaying addr, c') ->
  exists ms rsv d port local, dst_ok d /\ zlen port = 2
    /\ addr = st_addr (target_of d port) /\ dial addr = Some local
    /\ rx c = opening user pass ms rsv d port ++ rx c' /\ tx c' = tx c ++ answer user pass local
    /\ (requireAuth user pass = true -> 1 <= zlen user /\ 1 <= zlen pass).
Proof.
  intros Hr. unfold socks_handle. destruct (socksHandshake user pass c) as [[t|e] c1] eqn:E; [|done].
  apply (socksHandshake_lang user pass c t c1 Hr) in E as (l & w & (ms & rsv & d & port & _ & Hd & Hp & -> & Hc) & Hrx & ->).
  destruct (dial _) as [local|] eqn:Ed; [|by destruct (handle_reply None); [destruct (i _)|]].
  rewrite handle_reply_packed. simpl. intros [= <- <-]. exists ms, rsv, d, port, local. simpl. rewrite Hrx. unfold opening, answer.
  destruct (requireAuth user pass); [destruct Hc as (_ & ? & ? & -> & ->)|destruct Hc as [-> ->]];
    split_and!; try done; rewrite <-?app_assoc; try done; simpl; try lia.
Qed.

(** ** Properties *)

(** C30: a SOCKS connection from end to end.  When [handle] comes to relay, the
    client has sent an opening that the server accepts, with its exact
    credentials if it has any configured, and the address dialled is the one
    the opening names.  From then on the target has at every moment a prefix of
    what the client sent after its opening, and the client a prefix of the
    answer and what the target sends; if nothing fails and the end of the
    stream comes through, it is all of it, and the sender has closed.  The two
    uses of the connection, handshake and relay, lose and repeat nothing. *)
Theorem socks_connection {T1 T2 T3 T4 : Type}
    `{!System T1, !System T2, !System T3, !System T4, !Reliable T1, !Reliable T2, !Reliable T3, !Reliable T4}
    (user pass : bytes) (dial : string -> option (option (bytes * Z))) (addr : string) (e e' : error)
    (a0 : T1) (b0 : T4) (ta0 tb0 tru trd : list event) (up0 up : hop T1 T2) (down0 down : hop T3 T4) :
  sys_init a0 -> run a0 ta0 (h_src up0) -> h_copy up0 = copier_init -> sys_init (h_dst up0) -> run up0 tru up ->
  sys_init b0 -> run b0 tb0 (h_dst down0) -> EvClose ∉ tb0 -> h_copy down0 = copier_init -> sys_init (h_src down0) -> run down0 trd down ->
  socks_handle user pass dial (Conn (received ta0) e [] None e') = (Relaying addr, Conn [] e (written tb0) None e') ->
  exists ms rsv d port local sent,
    dst_ok d /\ addr = st_addr (target_of d port) /\ dial addr = Some local
    /\ (requireAuth user pass = true -> 1 <= zlen user /\ 1 <= zlen pass)
    /\ written (ta0 ++ tru) = opening user pass ms rsv d port ++ sent
    /\ received tru `prefix_of` sent
    /\ (EvEOF ∈ tru -> EvFail ∉ ta0 ++ tru -> received tru = sent /\ EvClose ∈ ta0 ++ tru)
    /\ received (tb0 ++ trd) `prefix_of` answer user pass local ++ written trd
    /\ (EvEOF ∈ tb0 ++ trd -> EvFail ∉ tb0 ++ trd ->
        received (tb0 ++ trd) = answer user pass local ++ written trd /\ EvClose ∈ trd).
Proof.
  intros Ha Hra Hcu Hdu Hu Hb Hrb Hncl Hcd Hsd Hd Hh.
  apply socks_relaying in Hh as (ms & rsv & d & port & local & Hok & _ & Haddr & Hdial & Hrx & Htx & Hauth); [|done].
  simpl in Hrx, Htx. rewrite app_nil_r in Hrx.
  destruct (relay_from a0 _ ta0 [] tru up0 up Ha Hra Hdu (run_nil _) ltac:(set_solver) Hcu Hu) as (sent & Hw & Hp & He).
  destruct (relay_from _ b0 [] tb0 trd down0 down Hsd (run_nil _) Hb Hrb Hncl Hcd Hd) as (back & Hw' & Hp' & He').
  simpl in *. subst back. rewrite Htx in Hp', He'. rewrite Hrx in Hw. exists ms, rsv, d, port, local, sent. by split_and!.
Qed.

(** A client that logs in, asks for [db:5432] and sends one byte right behind. *)
Definition demo_local : option (bytes * Z) := Some ([x7f; x00; x00; x01], 40000).
Definition demo_answer : bytes := answer (bytes_of "u") (bytes_of "pw") demo_local.
Definition demo_up : hop pipe pipe := mkHop (mkPipe 1024 [x07] false) copier_init demo_pipe.
Definition demo_down : hop pipe pipe := mkHop demo_pipe copier_init (mkPipe 1024 demo_answer false).

Lemma demo_up_run : exists h, run demo_up [EvRead [x07]] h.
Proof.
  eexists. eapply run_tau; [by eapply hs_read; [by eapply (ps_read _ [x07] [])|]|]; norm_state.
  eapply run_tau; [eapply (hs_write _ 1); [reflexivity|by apply ps_write]|]; norm_state.
  eapply run_event; [apply hs_dst; [by eapply (ps_read _ [x07] [])|done]|]. constructor.
Qed.

Lemma socks_connection_witness :
  exists ms rsv d port sent,
    demo_client ++ [x07] = opening (bytes_of "u") (bytes_of "pw") ms rsv d port ++ sent /\ [x07] `prefix_of` sent.
Proof.
  destruct demo_up_run as [up Hup].
  destruct (socks_connection (bytes_of "u") (bytes_of "pw") (fun _ => Some demo_local) "db:5432" EOF EOF demo_pipe demo_pipe
    [EvWrite (demo_client ++ [x07]); EvRead demo_client] [EvWrite demo_answer] [EvRead [x07]] [] demo_up up demo_down demo_down)
    as (ms & rsv & d & port & local & sent & _ & _ & _ & _ & Hw & Hp & _).
  - split_and!; [reflexivity|reflexivity|vm_compute; discriminate].
  - eapply run_event; [apply ps_write; [reflexivity|vm_compute; discriminate]|]. norm_state. eapply run_event; [by eapply (ps_read _ demo_client [x07])|]. constructor.
  - reflexivity.
  - split_and!; [reflexivity|reflexivity|vm_compute; discriminate].
  - exact Hup.
  - split_and!; [reflexivity|reflexivity|vm_compute; discriminate].
  - eapply run_event; [apply ps_write; [reflexivity|vm_compute; discriminate]|]. constructor.
  - intros Hin. apply list_elem_of_singleton in Hin. discriminate Hin.
  - reflexivity.
  - split_and!; [reflexivity|reflexivity|vm_compute; discriminate].
  - constructor.
  - vm_compute. reflexivity.
  - exists ms, rsv, d, port, sent. split; [exact Hw|exact Hp].
Defined.

(** The other ends of a connection: when the handshake fails nothing is dialled
    and the outcome does not depend on the network; when the dial fails the
    client is told so with reply code 4; the address reported by the operating
    system never makes [handle] panic. *)
Theorem socks_handle_failures (user pass : bytes) (dial : string -> option (option (bytes * Z))) (c : conn) :
  tx_room c = None ->
  (forall err c', socksHandshake user pass c = (Err err, c') -> socks_handle user pass dial c = (Refused err, c'))
  /\ (forall t c', socksHandshake user pass c = (Ok t, c') -> dial (st_addr t) = None ->
        exists c'', socks_handle user pass dial c = (Unreachable (st_addr t), c'')
          /\ tx c'' = tx c' ++ [socksVer5; x04; x00; socksAtypIPv4; x00; x00; x00; x00; x00; x00])
  /\ (socks_handle user pass dial c).1 <> Panicked.
Proof.
  intros Hr. unfold socks_handle. destruct (socksHandshake user pass c) as [[t|err] c1] eqn:E.
  - apply (socksHandshake_lang user pass c t c1 Hr) in E as (l & w & _ & _ & Hc1).
    assert (tx_room c1 = None) as Hr1 by (by rewrite Hc1). split; [done|]. split.
    + intros t' c' [= <- <-] Hdial. rewrite Hdial. simpl. unfold socksReply, Write. rewrite Hr1. by eexists.
    + destruct (dial (st_addr t)) as [local|] eqn:Ed; [rewrite handle_reply_packed|]; simpl.
      * by destruct (Write _ c1) as [[] ?].
      * by destruct (socksReply _ _ _ _ c1) as [[] ?].
  - split; [|done]. by intros err' c' [= <- <-].
Qed.
