(* ===== verification/KnownHosts.v ===== *)
(** * Server identity: the known-hosts store ([src/relay/knownhosts.go]) and the
    verification policy of TLS clients ([src/relay/tls.go])

    The store is a map from [host:port] to a fingerprint; its file is text, one
    entry a line.  What the operating system and [crypto/tls] do is an argument:
    the outcome of opening or writing the file, and of the TLS handshake with
    or without certificate verification, with the fingerprints of the
    certificates the server presented.  White space is that of ASCII
    ([GoStrings.v]): a file with other Unicode spaces is not covered. *)
From S2P Require Import Prelude GoStrings.

Record KnownHosts := mkKH {
  kh_path : string;
  kh_entries : gmap string string;   (* host:port -> fingerprint *)
}.

(** ** Text *)

(** [strings.Fields(s)]; [cur] is the field being read. *)
Fixpoint fields_loop (s cur : bytes) : list bytes :=
  match s with
  | [] => if decide (cur = []) then [] else [cur]
  | b :: s =>
      if is_space b then (if decide (cur = []) then [] else [cur]) ++ fields_loop s []
      else fields_loop s (cur ++ [b])
  end.

Definition Fields (s : bytes) : list bytes := fields_loop s [].

(** [bufio.ScanLines]: the lines of a text, without the newline and one
    carriage return before it. *)
Definition drop_cr (l : bytes) : bytes :=
  match last l with Some b => if decide (b = x0d) then removelast l else l | None => l end.

Fixpoint scan_lines (s cur : bytes) : list bytes :=
  match s with
  | [] => if decide (cur = []) then [] else [cur]
  | b :: s => if decide (b = newline) then cur :: scan_lines s [] else scan_lines s (cur ++ [b])
  end.

(** The scanner stops at a line longer than its buffer. *)
Definition maxLine : Z := 65535.
Definition ErrTooLong : error := Errorf "bufio.Scanner: token too long" [].

(** ** The store *)

(** The body of the loop of [LoadKnownHosts]. *)
Definition load_line (text : bytes) (entries : gmap string string) : gmap string string :=
  let line := TrimSpace text in
  if decide (line = []) then entries
  else if has_prefix line (bytes_of "#") then entries
  else match Fields line with
       | host :: fp :: _ =>
           if has_prefix fp (bytes_of "SHA256:")
           then <[string_of host := string_of fp]> entries else entries
       | _ => entries
       end.

Fixpoint load_lines (ls : list bytes) (entries : gmap string string) : result (gmap string string) :=
  match ls with
  | [] => Ok entries
  | l :: ls => if decide (zlen l > maxLine) then Err ErrTooLong else load_lines ls (load_line (drop_cr l) entries)
  end.

(** What [os.Open] gives: the file's text, that it does not exist, an error. *)
Inductive open_result := FileText (text : bytes) | FileMissing | OpenFailed (e : error).

Definition LoadKnownHosts (path : string) (file : open_result) : result KnownHosts :=
  match file with
  | FileMissing => Ok (mkKH path ∅)
  | OpenFailed e => Err (Wrapf "open known_hosts: %w" [] e)
  | FileText text =>
      entries ← load_lines (scan_lines text []) ∅;
      Ok (mkKH path entries)
  end.

Definition Verify (host fingerprint : string) (kh : KnownHosts) : result unit :=
  match kh_entries kh !! host with
  | None => Err (Wrapf "%w %q" [AStr host] ErrUnknownHost)
  | Some recorded =>
      if decide (recorded <> fingerprint)
      then Err (Errorf "host %q fingerprint mismatch: expected %s, got %s" [AStr host; AStr recorded; AStr fingerprint])
      else Ok tt
  end.

(** [saveLocked]; [disk] is the outcome of creating and writing the file. *)
Definition saveLocked (disk : result unit) (kh : KnownHosts) : result unit :=
  if decide (kh_path kh = "") then Err (Errorf "known_hosts path not set" []) else disk.

(** The text [saveLocked] writes; Go visits a map in an arbitrary order. *)
Definition save_text (order : list (string * string)) : bytes :=
  concat ((fun e => bytes_of e.1 ++ x20 :: bytes_of e.2 ++ [newline]) <$> order).

Definition Accept (host fingerprint : string) (disk : result unit) (kh : KnownHosts) : result unit * KnownHosts :=
  match kh_entries kh !! host with
  | Some recorded =>
      if decide (recorded <> fingerprint)
      then (Err (Errorf "host %q fingerprint mismatch: expected %s, got %s"
                   [AStr host; AStr recorded; AStr fingerprint]), kh)
      else let kh := mkKH (kh_path kh) (<[host := fingerprint]> (kh_entries kh)) in (saveLocked disk kh, kh)
  | None => let kh := mkKH (kh_path kh) (<[host := fingerprint]> (kh_entries kh)) in (saveLocked disk kh, kh)
  end.

(** ** The TLS client *)

Record TLSConfig := mkTLS {
  tls_Enabled : bool;
  tls_Insecure : bool;
  tls_TrustOnFirstUse : bool;
  tls_ServerFingerprint : string;
  tls_KnownHosts : option KnownHosts;
}.

Definition set_kh (kh : option KnownHosts) (cfg : TLSConfig) : TLSConfig :=
  mkTLS (tls_Enabled cfg) (tls_Insecure cfg) (tls_TrustOnFirstUse cfg) (tls_ServerFingerprint cfg) kh.

(** [verifyServerFingerprint]; [certs] are the fingerprints of the peer's
    certificates, leaf first, [host] is the host part of [addr]. *)
Definition verifyServerFingerprint (addr host : string) (certs : list string) (disk : result unit)
    (cfg : TLSConfig) : result unit * TLSConfig :=
  match certs with
  | [] => (Err (Errorf "tls: server presented no certificate" []), cfg)
  | fp :: _ =>
      if decide (tls_ServerFingerprint cfg <> "") then
        if decide (fp <> tls_ServerFingerprint cfg)
        then (Err (Errorf "tls: server %s fingerprint mismatch: expected %s, got %s"
                     [AStr host; AStr (tls_ServerFingerprint cfg); AStr fp]), cfg)
        else (Ok tt, cfg)
      else
      match tls_KnownHosts cfg with
      | None => (Err (Errorf "tls: trust-on-first-use requested but no known_hosts store configured" []), cfg)
      | Some kh =>
          match Verify addr fp kh with
          | Ok _ => (Ok tt, cfg)
          | Err e =>
              if errors_Is e ErrUnknownHost then
                let '(r, kh) := Accept addr fp disk kh in
                match r with
                | Err aerr => (Err (Wrapf "tls: trust-on-first-use failed: %w" [] aerr), set_kh (Some kh) cfg)
                | Ok _ => (Ok tt, set_kh (Some kh) cfg)
                end
              else (Err (Wrapf "tls: %w" [] e), cfg)
          end
      end
  end.

(** [TLSDial]; [dial skip] is the handshake of [tls.Dial] with
    [InsecureSkipVerify = skip]. *)
Definition TLSDial (addr host : string) (dial : bool -> result (list string)) (disk : result unit)
    (cfg : TLSConfig) : result (list string) * TLSConfig :=
  let manualVerify := tls_TrustOnFirstUse cfg || bool_decide (tls_ServerFingerprint cfg <> "") in
  match dial (tls_Insecure cfg || manualVerify) with
  | Err e => (Err (Wrapf "tls dial: %w" [] e), cfg)
  | Ok certs =>
      if manualVerify then
        match verifyServerFingerprint addr host certs disk cfg with
        | (Err e, cfg) => (Err e, cfg)
        | (Ok _, cfg) => (Ok certs, cfg)
        end
      else (Ok certs, cfg)
  end.

(** A sequence of dials with one configuration: what each connected to. *)
Record attempt := mkAttempt {
  at_addr : string; at_host : string; at_dial : bool -> result (list string); at_disk : result unit }.

Fixpoint dials (ats : list attempt) (cfg : TLSConfig) : list (result (list string)) * TLSConfig :=
  match ats with
  | [] => ([], cfg)
  | a :: ats =>
      let '(r, cfg) := TLSDial (at_addr a) (at_host a) (at_dial a) (at_disk a) cfg in
      let '(rs, cfg) := dials ats cfg in (r :: rs, cfg)
  end.

(** The hosts and fingerprints a file can hold. *)
Definition entry_ok (host fp : string) : Prop :=
  host <> "" /\ forallb (fun b => negb (is_space b)) (bytes_of host) = true
  /\ has_prefix (bytes_of host) (bytes_of "#") = false
  /\ forallb (fun b => negb (is_space b)) (bytes_of fp) = true
  /\ has_prefix (bytes_of fp) (bytes_of "SHA256:") = true
  /\ zlen (bytes_of host) + zlen (bytes_of fp) < maxLine.

(** ** Lemmas on text *)

Definition nospace (s : bytes) : Prop := Forall (fun b => is_space b = false) s.

Lemma nospace_iff s : forallb (fun b => negb (is_space b)) s = true <-> nospace s.
Proof.
  unfold nospace. rewrite forallb_forall, Forall_forall. setoid_rewrite negb_true_iff.
  by setoid_rewrite list_elem_of_In.
Qed.

Lemma fields_loop_word w s cur :
  nospace w -> fields_loop (w ++ s) cur = fields_loop s (cur ++ w).
Proof.
  intros Hw. revert cur. induction Hw as [|b w Hb Hw IH]; intros cur; [by rewrite app_nil_r|].
  simpl. by rewrite Hb, IH, <-app_assoc.
Qed.

Lemma Fields_two a b :
  nospace a -> nospace b -> a <> [] -> b <> [] -> Fields (a ++ x20 :: b) = [a; b].
Proof.
  intros Ha Hb Hna Hnb. unfold Fields. rewrite fields_loop_word by done. simpl. rewrite decide_False by done.
  rewrite <-(app_nil_r b), fields_loop_word by done. simpl. rewrite app_nil_r. by rewrite decide_False.
Qed.

Lemma scan_lines_word w s cur : newline ∉ w -> scan_lines (w ++ newline :: s) cur = (cur ++ w) :: scan_lines s [].
Proof.
  revert cur. induction w as [|b w IH]; intros cur Hw; simpl.
  - by rewrite app_nil_r.
  - apply not_elem_of_cons in Hw as [Hb Hw]. rewrite decide_False by done. by rewrite IH, <-app_assoc.
Qed.

Lemma nospace_newline s : nospace s -> newline ∉ s.
Proof. unfold nospace. rewrite Forall_forall. intros H Hin. apply H in Hin. done. Qed.

(** The line of an entry and what loading makes of it. *)
Definition entry_line (host fp : string) : bytes := bytes_of host ++ x20 :: bytes_of fp.

Lemma load_entry_line host fp entries :
  entry_ok host fp ->
  load_line (drop_cr (entry_line host fp)) entries = <[host := fp]> entries
  /\ newline ∉ entry_line host fp /\ zlen (entry_line host fp) <= maxLine.
Proof.
  intros (Hne & Hh%nospace_iff & Hc & Hf%nospace_iff & Hp & Hlen). unfold entry_line.
  assert (bytes_of host <> []) as Hhn.
  { intros E. apply Hne. rewrite <-(string_of_bytes_of host), E. done. }
  assert (bytes_of fp <> []) as Hfn by (intros E; by rewrite E in Hp).
  set (f := bytes_of fp) in *.
  destruct (bytes_of host) as [|h0 h] eqn:Eh; [done|]. destruct (exists_last Hfn) as (f' & fl & Ef).
  assert (is_space h0 = false) as Hh0 by (by inversion Hh).
  assert (is_space fl = false) as Hfl.
  { unfold nospace in Hf. rewrite Ef in Hf. apply Forall_app in Hf as [_ Hf]. by inversion Hf. }
  assert ((h0 :: h) ++ x20 :: f = h0 :: (h ++ x20 :: f') ++ [fl]) as Heq.
  { rewrite Ef. simpl. by rewrite <-app_assoc. }
  split_and!.
  - unfold drop_cr. rewrite Heq at 1. change (h0 :: (h ++ x20 :: f') ++ [fl]) with ((h0 :: h ++ x20 :: f') ++ [fl]).
    rewrite last_snoc. cbv iota beta. rewrite decide_False by (intros ->; done).
    unfold load_line. cbv zeta. rewrite Heq, TrimSpace_id, <-Heq by done. rewrite decide_False by done.
    assert (has_prefix ((h0 :: h) ++ x20 :: f) (bytes_of "#") = has_prefix (h0 :: h) (bytes_of "#")) as ->
      by (by destruct h).
    rewrite Hc, Fields_two by done. rewrite Hp. unfold f. by rewrite <-Eh, !string_of_bytes_of.
  - intros [Hin|[?|Hin]%elem_of_cons]%elem_of_app; [|done|];
      [by apply (nospace_newline _ Hh)|by apply (nospace_newline _ Hf)].
  - rewrite zlen_app, (zlen_cons x20). lia.
Qed.

Lemma load_saved order entries :
  Forall (fun e => entry_ok e.1 e.2) order ->
  load_lines (scan_lines (save_text order) []) entries
  = Ok (foldl (fun m e => <[e.1 := e.2]> m) entries order).
Proof.
  intros H. revert entries. induction H as [|[host fp] order He _ IH]; intros entries; [done|].
  destruct (load_entry_line host fp entries He) as (Hl & Hn & Hlen).
  assert (save_text ((host, fp) :: order) = entry_line host fp ++ newline :: save_text order) as ->.
  { unfold save_text, entry_line. cbn [fmap list_fmap concat fst snd].
    rewrite <-!app_assoc. cbn [app]. by rewrite <-!app_assoc. }
  rewrite scan_lines_word, app_nil_l by done. cbn [load_lines foldl fst snd].
  rewrite decide_False by lia. by rewrite Hl.
Qed.

Lemma foldl_insert_map (order : list (string * string)) (m : gmap string string) :
  order ≡ₚ map_to_list m -> foldl (fun m e => <[e.1 := e.2]> m) ∅ order = m.
Proof.
  intros Hp.
  assert (forall (o : list (string * string)) (m0 : gmap string string), NoDup (o.*1) ->
    foldl (fun m e => <[e.1 := e.2]> m) m0 o = list_to_map o ∪ m0) as H.
  { induction o as [|[k v] o IH]; intros m0 Hnd; [simpl; by rewrite (left_id_L ∅ (∪))|].
    apply NoDup_cons in Hnd as [Hk Hnd]. cbn [foldl]. rewrite IH by done. simpl.
    rewrite <-insert_union_r by (by apply not_elem_of_list_to_map_1). by rewrite insert_union_l. }
  assert (NoDup (order.*1)) as Hnd by (rewrite Hp; apply NoDup_fst_map_to_list).
  rewrite H, map_union_empty by done. rewrite (list_to_map_proper order (map_to_list m)) by done.
  apply list_to_map_to_list.
Qed.

(** ** Lemmas on the verification *)

(** A successful trust-on-first-use dial connected to the fingerprint the store
    now has for the address, and stores only grow. *)
Definition recorded (cfg : TLSConfig) (addr : string) : option string :=
  kh ← tls_KnownHosts cfg; kh_entries kh !! addr.

Definition tofu (cfg : TLSConfig) : Prop := tls_TrustOnFirstUse cfg = true /\ tls_ServerFingerprint cfg = "".

Lemma verify_tofu addr host certs disk cfg r cfg' :
  tofu cfg -> verifyServerFingerprint addr host certs disk cfg = (r, cfg') ->
  tofu cfg' /\ (forall a f, recorded cfg a = Some f -> recorded cfg' a = Some f)
  /\ (r = Ok tt -> exists fp rest, certs = fp :: rest /\ recorded cfg' addr = Some fp).
Proof.
  intros [Ht Hs]. unfold verifyServerFingerprint. destruct certs as [|fp certs]; [intros [= <- <-]; by split_and!|].
  rewrite decide_False by (by intros ?). unfold recorded.
  destruct (tls_KnownHosts cfg) as [kh|] eqn:Ek; [|intros [= <- <-]; rewrite Ek; by split_and!]. simpl.
  unfold Verify, Accept. destruct (kh_entries kh !! addr) as [f|] eqn:Ea.
  - case_decide as Hf; simpl; intros [= <- <-]; rewrite Ek; simpl; [by split_and!|].
    split_and!; try done. intros _. exists fp, certs. split; [done|].
    destruct (decide (f = fp)) as [->|]; [done|tauto].
  - cbn [errors_Is]. rewrite (bool_decide_eq_true_2 (ErrUnknownHost = _)) by done.
    rewrite orb_true_r.
    destruct (saveLocked disk _); intros [= <- <-]; simpl; (split; [done|]); (split;
      [intros a' g Hg; rewrite lookup_insert_ne; [done|congruence]|]); [|done].
    intros _. exists fp, certs. by rewrite lookup_insert_eq.
Qed.

Lemma TLSDial_tofu addr host dial disk cfg r cfg' :
  tofu cfg -> TLSDial addr host dial disk cfg = (r, cfg') ->
  tofu cfg' /\ (forall a f, recorded cfg a = Some f -> recorded cfg' a = Some f)
  /\ (forall certs, r = Ok certs -> exists fp rest, certs = fp :: rest /\ recorded cfg' addr = Some fp).
Proof.
  intros Hcfg. unfold TLSDial. destruct (dial _) as [certs|e]; [|intros [= <- <-]; by split_and!].
  rewrite (proj1 Hcfg). simpl.
  destruct (verifyServerFingerprint addr host certs disk cfg) as [[u|e] cfg1] eqn:Ev;
    destruct (verify_tofu _ _ _ _ _ _ _ Hcfg Ev) as (H1 & H2 & H3); intros [= <- <-]; split_and!; try done.
  intros c [= <-]. apply H3. by destruct u.
Qed.

Lemma dials_tofu ats cfg rs cfg' :
  tofu cfg -> dials ats cfg = (rs, cfg') ->
  (forall a f, recorded cfg a = Some f -> recorded cfg' a = Some f)
  /\ forall i a certs, ats !! i = Some a -> rs !! i = Some (Ok certs) ->
       exists fp rest, certs = fp :: rest /\ recorded cfg' (at_addr a) = Some fp.
Proof.
  revert cfg rs. induction ats as [|a ats IH]; intros cfg rs Hcfg; simpl; [by intros [= <- <-]|].
  destruct (TLSDial _ _ _ _ cfg) as [r cfg1] eqn:Ed. destruct (dials ats cfg1) as [rs1 cfg2] eqn:Es.
  intros [= <- <-]. destruct (TLSDial_tofu _ _ _ _ _ _ _ Hcfg Ed) as (H1 & H2 & H3).
  destruct (IH cfg1 rs1 H1 Es) as [H4 H5]. split; [auto|].
  intros [|i] b certs Hb Hr; simpl in *; [|by eapply H5].
  injection Hb as <-. injection Hr as ->. destruct (H3 certs eq_refl) as (fp & rest & -> & Hrec).
  exists fp, rest. auto.
Qed.

(** ** Properties *)

(** C13: trust on first use pins: over any sequence of dials with one store, to
    any servers and with any disk failures, all connections to an address that
    succeed are to servers with the same fingerprint -- the one recorded
    before, if there was one.  (A failed save still counts: the dial that meets
    an unknown server and cannot store its fingerprint fails, yet the same
    dial succeeds the next time, because [Accept] records the entry in memory
    before it saves.) *)
Theorem tofu_pins (ats : list attempt) (cfg cfg' : TLSConfig) (rs : list (result (list string))) :
  tofu cfg -> dials ats cfg = (rs, cfg') ->
  (forall i j a b ca cb, ats !! i = Some a -> ats !! j = Some b -> at_addr a = at_addr b ->
     rs !! i = Some (Ok ca) -> rs !! j = Some (Ok cb) -> exists fp, head ca = Some fp /\ head cb = Some fp)
  /\ (forall i a ca f, ats !! i = Some a -> recorded cfg (at_addr a) = Some f ->
       rs !! i = Some (Ok ca) -> head ca = Some f)
  /\ (forall addr host fp e kh, tls_KnownHosts cfg = Some kh -> kh_entries kh !! addr = None -> kh_path kh <> "" ->
       let '(r1, cfg1) := TLSDial addr host (fun _ => Ok [fp]) (Err e) cfg in
       r1 = Err (Wrapf "tls: trust-on-first-use failed: %w" [] e)
       /\ (TLSDial addr host (fun _ => Ok [fp]) (Err e) cfg1).1 = Ok [fp]).
Proof.
  intros Hcfg Hd. destruct (dials_tofu ats cfg rs cfg' Hcfg Hd) as [Hmono Hrec]. split_and!.
  - intros i j a b ca cb Ha Hb Hab Hca Hcb. destruct (Hrec i a ca Ha Hca) as (f & ra & -> & Hf).
    destruct (Hrec j b cb Hb Hcb) as (g & rb & -> & Hg). exists f. rewrite Hab in Hf. split; [done|]. simpl. congruence.
  - intros i a ca f Ha Hf Hca. destruct (Hrec i a ca Ha Hca) as (g & ra & -> & Hg).
    apply Hmono in Hf. simpl. congruence.
  - intros addr host fp e kh Hk Hn Hp. destruct Hcfg as [Ht Hs].
    unfold TLSDial at 1. rewrite Ht. simpl. unfold verifyServerFingerprint. rewrite decide_False by (by intros ?).
    rewrite Hk. unfold Verify, Accept. rewrite Hn. cbn [errors_Is].
    rewrite (bool_decide_eq_true_2 (ErrUnknownHost = _)), orb_true_r by done.
    unfold saveLocked. simpl. rewrite decide_False by done. split; [done|].
    unfold TLSDial. simpl. rewrite Ht. simpl. unfold verifyServerFingerprint. simpl.
    rewrite decide_False by (by intros ?). unfold Verify. simpl. rewrite lookup_insert_eq.
    by rewrite decide_False by (by intros ?).
Qed.

(** Two servers answer for the same address, one after the other. *)
Definition demo_attempt (fp : string) : attempt :=
  mkAttempt "vps:9000" "vps" (fun _ => Ok [fp]) (Ok tt).
Definition demo_tls : TLSConfig :=
  mkTLS true true true "" (Some (mkKH "/etc/tunnel/known_hosts" ∅)).

Lemma tofu_pins_witness :
  (dials [demo_attempt "SHA256:a"; demo_attempt "SHA256:b"] demo_tls).1 !! 0%nat = Some (Ok ["SHA256:a"])
  /\ forall cb, (dials [demo_attempt "SHA256:a"; demo_attempt "SHA256:b"] demo_tls).1 !! 1%nat = Some (Ok cb) ->
     head cb = Some "SHA256:a".
Proof.
  split; [vm_compute; reflexivity|]. intros cb Hcb.
  destruct (tofu_pins [demo_attempt "SHA256:a"; demo_attempt "SHA256:b"] demo_tls
    (dials [demo_attempt "SHA256:a"; demo_attempt "SHA256:b"] demo_tls).2
    (dials [demo_attempt "SHA256:a"; demo_attempt "SHA256:b"] demo_tls).1) as (H & _ & _).
  - split; reflexivity.
  - apply surjective_pairing.
  - destruct (H 0%nat 1%nat (demo_attempt "SHA256:a") (demo_attempt "SHA256:b") ["SHA256:a"] cb)
      as (fp & Ha & Hb); [reflexivity|reflexivity|reflexivity|vm_compute; reflexivity|exact Hcb|].
    rewrite Hb. rewrite <-Ha. reflexivity.
Defined.

(** C36: when a TLS client connects: exactly if the handshake succeeds -- with
    certificate verification unless the configuration is insecure or checks
    fingerprints -- and, with a pinned fingerprint, the server's leaf
    certificate has that fingerprint, or, with trust on first use, its
    fingerprint is the recorded one or is new and could be stored. *)
Theorem TLSDial_policy (addr host : string) (dial : bool -> result (list string)) (disk : result unit)
    (cfg : TLSConfig) (certs : list string) :
  (TLSDial addr host dial disk cfg).1 = Ok certs <->
  if tls_TrustOnFirstUse cfg || bool_decide (tls_ServerFingerprint cfg <> "") then
    dial true = Ok certs /\ exists fp, head certs = Some fp
      /\ (if decide (tls_ServerFingerprint cfg <> "") then fp = tls_ServerFingerprint cfg
          else exists kh, tls_KnownHosts cfg = Some kh
            /\ (kh_entries kh !! addr = Some fp
                \/ kh_entries kh !! addr = None /\ kh_path kh <> "" /\ disk = Ok tt))
  else dial (tls_Insecure cfg) = Ok certs.
Proof.
  unfold TLSDial. set (manual := tls_TrustOnFirstUse cfg || bool_decide (tls_ServerFingerprint cfg <> "")).
  destruct manual; [rewrite orb_true_r|rewrite orb_false_r].
  2: { destruct (dial (tls_Insecure cfg)); simpl; split; congruence. }
  destruct (dial true) as [cs|e]; simpl; [|split; [done|by intros [? _]]].
  unfold verifyServerFingerprint. destruct cs as [|fp cs]; simpl.
  { split; [done|]. intros [[= <-] (f & [=] & _)]. }
  case_decide as Hsf.
  - case_decide as Hf; simpl; split; try done.
    + intros [[= <-] (f & [= ->] & Hx)]. done.
    + intros [= <-]. split; [done|]. exists fp. split; [done|]. by destruct (decide (fp = tls_ServerFingerprint cfg)).
    + by intros [[= <-] _].
  - destruct (tls_KnownHosts cfg) as [kh|]; simpl.
    2: { split; [done|]. intros [_ (f & _ & k & [=] & _)]. }
    unfold Verify, Accept, saveLocked. destruct (kh_entries kh !! addr) as [g|] eqn:Eg.
    + case_decide as Hg; simpl; split; try done.
      * intros [[= <-] (f & [= ->] & k & [= <-] & [H|[H _]])]; congruence.
      * intros [= <-]. split; [done|]. exists fp. split; [done|]. exists kh. split; [done|]. left.
        destruct (decide (g = fp)); [congruence|tauto].
      * by intros [[= <-] _].
    + cbn [errors_Is]. rewrite (bool_decide_eq_true_2 (ErrUnknownHost = _)), orb_true_r by done. simpl.
      case_decide as Hp; simpl; [split; [done|]; intros [_ (f & _ & k & [= <-] & [H|(_ & H & _)])]; congruence|].
      destruct disk as [[]|e]; simpl; split; try done.
      * intros [= <-]. split; [done|]. exists fp. split; [done|]. exists kh. split; [done|]. by right.
      * by intros [[= <-] _].
      * intros [_ (f & _ & k & [= <-] & [H|(_ & _ & H)])]; congruence.
Qed.

(** The known-hosts file is faithful: whatever order the entries are
    written in, reading the saved file gives back the same store, as long as
    every host is a non-empty word that does not look like a comment and every
    fingerprint a word that starts with [SHA256:]. *)
Theorem known_hosts_roundtrip (kh : KnownHosts) (order : list (string * string)) :
  order ≡ₚ map_to_list (kh_entries kh) ->
  (forall host fp, kh_entries kh !! host = Some fp -> entry_ok host fp) ->
  LoadKnownHosts (kh_path kh) (FileText (save_text order)) = Ok kh.
Proof.
  intros Hp Hok. assert (Forall (fun e => entry_ok e.1 e.2) order) as Hall.
  { apply Forall_forall. intros [h f] Hin. rewrite Hp in Hin. apply Hok. by apply elem_of_map_to_list in Hin. }
  unfold LoadKnownHosts. rewrite (load_saved order ∅ Hall). cbn [mbind result_bind].
  rewrite (foldl_insert_map order (kh_entries kh) Hp). by destruct kh.
Qed.

Lemma known_hosts_roundtrip_witness :
  let kh := mkKH "/k" {["vps:9000" := "SHA256:abc"]} in
  LoadKnownHosts "/k" (FileText (bytes_of "vps:9000 SHA256:abc" ++ [newline])) = Ok kh.
Proof.
  intros kh. apply (known_hosts_roundtrip kh [("vps:9000", "SHA256:abc")]).
  - unfold kh. cbn [kh_entries]. rewrite map_to_list_singleton. reflexivity.
  - intros host fp H. unfold kh in H. cbn [kh_entries] in H. apply lookup_singleton_Some in H as [<- <-]. unfold entry_ok. vm_compute. split_and!; congruence.
Defined.
