(* ===== verification/UdpProxy.v ===== *)
(** * The UDP proxy ([src/relay/udpproxy.go])

    One session per client address: a socket to the target and the goroutine
    that reads from it.  Sessions live in a store that only grows; the table
    maps the client's address to its session.  Time is in seconds. *)
From S2P Require Import Prelude.

Definition udpSessionTimeout : Z := 60.

Record udpSession := mkSess {
  us_clientAddr : string;
  us_open : bool;          (* [targetConn] is open *)
  us_reading : bool;       (* [readFromTarget] is running *)
  us_lastActive : Z;
  us_deadline : Z;         (* read deadline of [targetConn] *)
}.

Record UDPProxy := mkUDP {
  up_closed : bool;
  up_sessions : gmap string nat;
  up_store : list udpSession;
  up_to_target : list (nat * list byte);     (* packets written to a session's socket *)
  up_to_client : list (string * list byte);  (* packets written to a client *)
  up_now : Z;
}.

Definition NewUDPProxy (now : Z) : UDPProxy := mkUDP false ∅ [] [] [] now.

Definition up_set (sessions : gmap string nat) (store : list udpSession) (p : UDPProxy) : UDPProxy :=
  mkUDP (up_closed p) sessions store (up_to_target p) (up_to_client p) (up_now p).

Definition sess_touch (now : Z) (s : udpSession) : udpSession :=
  mkSess (us_clientAddr s) (us_open s) (us_reading s) now (us_deadline s).
Definition sess_close (s : udpSession) : udpSession :=
  mkSess (us_clientAddr s) false (us_reading s) (us_lastActive s) (us_deadline s).
Definition sess_stop (s : udpSession) : udpSession :=
  mkSess (us_clientAddr s) (us_open s) false (us_lastActive s) (us_deadline s).

(** [sess.targetConn.Write(packet)]. *)
Definition target_write (i : nat) (packet : list byte) (p : UDPProxy) : UDPProxy :=
  match up_store p !! i with
  | Some s =>
      if us_open s
      then mkUDP (up_closed p) (up_sessions p) (up_store p) (up_to_target p ++ [(i, packet)]) (up_to_client p) (up_now p)
      else p
  | None => p
  end.

(** [handlePacket]; [dial] is whether [net.DialUDP] succeeds if it is called. *)
Definition handlePacket (packet : list byte) (key : string) (dial : bool) (p : UDPProxy) : UDPProxy :=
  match up_sessions p !! key with
  | None =>
      if dial then
        let i := length (up_store p) in
        let sess := mkSess key true true (up_now p) (up_now p + udpSessionTimeout) in
        target_write i packet (up_set (<[key := i]> (up_sessions p)) (up_store p ++ [sess]) p)
      else p
  | Some i => target_write i packet (up_set (up_sessions p) (alter (sess_touch (up_now p)) i (up_store p)) p)
  end.

Definition removeSession (key : string) (p : UDPProxy) : UDPProxy :=
  match up_sessions p !! key with
  | Some i => up_set (delete key (up_sessions p)) (alter sess_close i (up_store p)) p
  | None => p
  end.

(** One pass of the loop of [readFromTarget]: the read gives a packet, or an
    error ([None]), which ends the goroutine. *)
Definition readFromTarget_pass (i : nat) (s : udpSession) (read : option (list byte)) (p : UDPProxy) : UDPProxy :=
  match read with
  | None => removeSession (us_clientAddr s) (up_set (up_sessions p) (alter sess_stop i (up_store p)) p)
  | Some packet =>
      let out := if up_closed p then up_to_client p else up_to_client p ++ [(us_clientAddr s, packet)] in
      mkUDP (up_closed p) (up_sessions p)
        (<[i := mkSess (us_clientAddr s) (us_open s) true (up_now p) (up_now p + udpSessionTimeout)]> (up_store p))
        (up_to_target p) out (up_now p)
  end.

Definition udp_Close (p : UDPProxy) : UDPProxy :=
  mkUDP true ∅ (foldr (alter sess_close) (up_store p) (map_to_list (up_sessions p)).*2)
    (up_to_target p) (up_to_client p) (up_now p).

(** The steps: packets of clients (also one read just before [Close]), packets
    and errors of targets, the read deadline, [Close], time. *)
Inductive udp_step (p : UDPProxy) : UDPProxy -> Prop :=
  | us_packet packet key dial : udp_step p (handlePacket packet key dial p)
  | us_target i s packet :
      up_store p !! i = Some s -> us_reading s = true -> us_open s = true ->
      udp_step p (readFromTarget_pass i s (Some packet) p)
  | us_error i s :      (* an error of the socket, its deadline, or closed *)
      up_store p !! i = Some s -> us_reading s = true -> udp_step p (readFromTarget_pass i s None p)
  | us_close : udp_step p (udp_Close p)
  | us_tick d : 0 <= d ->
      udp_step p (mkUDP (up_closed p) (up_sessions p) (up_store p) (up_to_target p) (up_to_client p) (up_now p + d)).

(** The invariant: the open target sockets are exactly those in the table, each
    under its client's address; packets went only through sockets that exist. *)
Record udp_inv (p : UDPProxy) : Prop := {
  ui_table : forall k i, up_sessions p !! k = Some i ->
    exists s, up_store p !! i = Some s /\ us_clientAddr s = k /\ us_open s = true;
  ui_open : forall i s, up_store p !! i = Some s -> us_open s = true -> up_sessions p !! us_clientAddr s = Some i;
  ui_reading : forall i s, up_store p !! i = Some s -> us_open s = true -> us_reading s = true;
}.

(** ** Lemmas *)

(** A change of one session that keeps its address, and keeps it open and read. *)
Lemma alter_sess_inv f i p :
  (forall s, up_store p !! i = Some s -> us_clientAddr (f s) = us_clientAddr s /\ us_open (f s) = us_open s
     /\ us_reading (f s) = us_reading s) ->
  udp_inv p -> udp_inv (up_set (up_sessions p) (alter f i (up_store p)) p).
Proof.
  intros Hf [Ht Ho Hr]. constructor; simpl.
  - intros k j Hk. destruct (Ht k j Hk) as (s & Hs & <- & Hso). rewrite list_lookup_alter.
    destruct (decide (i = j)) as [->|]; [|by exists s]. rewrite Hs. destruct (Hf s Hs) as (? & ? & _).
    exists (f s). split; [done|]. split; congruence.
  - intros j x. rewrite list_lookup_alter. destruct (decide (i = j)) as [->|]; [|by apply Ho].
    destruct (up_store p !! j) as [s|] eqn:Es; [|done]. intros [= <-]. destruct (Hf s eq_refl) as (-> & -> & _). by apply Ho.
  - intros j x. rewrite list_lookup_alter. destruct (decide (i = j)) as [->|]; [|by apply Hr].
    destruct (up_store p !! j) as [s|] eqn:Es; [|done]. intros [= <-]. destruct (Hf s eq_refl) as (_ & -> & ->). by eapply Hr.
Qed.

Lemma target_write_inv i packet p : udp_inv p -> udp_inv (target_write i packet p).
Proof. intros Hi. unfold target_write. repeat case_match; try done. destruct Hi. by constructor. Qed.

Lemma handlePacket_inv packet key dial p : udp_inv p -> udp_inv (handlePacket packet key dial p).
Proof.
  intros Hi. unfold handlePacket. destruct (up_sessions p !! key) as [i|] eqn:Ek.
  - apply target_write_inv, alter_sess_inv; [done|done].
  - destruct dial; [|done]. apply target_write_inv. destruct Hi as [Ht Ho Hr].
    assert (forall j s x, (up_store p ++ [x]) !! j = Some s ->
      up_store p !! j = Some s \/ j = length (up_store p) /\ s = x) as Happ.
    { intros j s x [?|[? Hx]]%lookup_app_Some; [by left|right].
      apply list_lookup_singleton_Some in Hx as [? <-]. split; [lia|done]. }
    constructor; simpl.
    + intros k j [[<- <-]|[Hne Hk]]%lookup_insert_Some.
      * eexists. rewrite lookup_app_r, Nat.sub_diag by lia. done.
      * destruct (Ht k j Hk) as (s & Hs & ?). exists s. by rewrite lookup_app_l by (by eapply lookup_lt_Some).
    + intros j s [Hs|[-> ->]]%Happ Hso; simpl; [|by rewrite lookup_insert_eq].
      rewrite lookup_insert_ne; [by apply Ho|]. intros Heq. pose proof (Ho j s Hs Hso). congruence.
    + intros j s [Hs|[-> ->]]%Happ Hso; [by eapply Hr|done].
Qed.

(** Closing the session of a table entry, whatever happens to its goroutine. *)
Lemma close_sess_inv k i f p :
  (forall s, us_clientAddr (f s) = us_clientAddr s /\ us_open (f s) = false) ->
  up_sessions p !! k = Some i -> udp_inv p ->
  udp_inv (up_set (delete k (up_sessions p)) (alter f i (up_store p)) p).
Proof.
  intros Hf Hk [Ht Ho Hr]. destruct (Ht k i Hk) as (s0 & Hs0 & Hk0 & Hs0o). constructor; simpl.
  - intros k' j [Hne Hj]%lookup_delete_Some. destruct (Ht k' j Hj) as (s & Hs & Hsk & Hso). exists s.
    rewrite list_lookup_alter. destruct (decide (i = j)) as [->|]; [|done]. congruence.
  - intros j x. rewrite list_lookup_alter. destruct (decide (i = j)) as [->|Hne].
    + rewrite Hs0. intros [= <-]. by rewrite (proj2 (Hf s0)).
    + intros Hx Hxo. rewrite lookup_delete_ne; [by apply Ho|]. intros Heq. pose proof (Ho j x Hx Hxo). congruence.
  - intros j x. rewrite list_lookup_alter. destruct (decide (i = j)) as [->|Hne]; [|by apply Hr].
    rewrite Hs0. intros [= <-]. by rewrite (proj2 (Hf s0)).
Qed.

Lemma read_error_inv i s p :
  up_store p !! i = Some s -> udp_inv p -> udp_inv (readFromTarget_pass i s None p).
Proof.
  intros Hs Hi. unfold readFromTarget_pass, removeSession. cbn [up_set up_sessions up_store].
  destruct (up_sessions p !! us_clientAddr s) as [j|] eqn:Ej.
  - destruct (decide (j = i)) as [->|Hji].
    + assert (alter sess_close i (alter sess_stop i (up_store p))
        = alter (fun s => sess_close (sess_stop s)) i (up_store p)) as ->.
      { apply list_eq. intros k. destruct (decide (i = k)) as [->|].
        - rewrite !list_lookup_alter_eq. by destruct (up_store p !! k).
        - by rewrite !list_lookup_alter_ne. }
      change (udp_inv (up_set (delete (us_clientAddr s) (up_sessions p))
        (alter (fun s => sess_close (sess_stop s)) i (up_store p)) p)).
      by apply close_sess_inv.
    + assert (us_open s = false) as Hso.
      { destruct (us_open s) eqn:E; [|done]. pose proof (ui_open p Hi i s Hs E). congruence. }
      assert (udp_inv (up_set (up_sessions p) (alter sess_stop i (up_store p)) p)) as Hi1.
      { destruct Hi as [Ht Ho Hr]. constructor; simpl.
        - intros k l Hk. destruct (Ht k l Hk) as (x & Hx & ?). exists x. rewrite list_lookup_alter_ne; [done|].
          intros <-. naive_solver.
        - intros l x. rewrite list_lookup_alter. destruct (decide (i = l)) as [->|]; [|by apply Ho].
          rewrite Hs. intros [= <-]. simpl. congruence.
        - intros l x. rewrite list_lookup_alter. destruct (decide (i = l)) as [->|]; [|by apply Hr].
          rewrite Hs. intros [= <-]. simpl. congruence. }
      by apply (close_sess_inv (us_clientAddr s) j sess_close _ ltac:(done)) in Hi1.
  - assert (us_open s = false) as Hso.
    { destruct (us_open s) eqn:E; [|done]. pose proof (ui_open p Hi i s Hs E). congruence. }
    destruct Hi as [Ht Ho Hr]. constructor; simpl.
    + intros k l Hk. destruct (Ht k l Hk) as (x & Hx & ?). exists x. rewrite list_lookup_alter_ne; [done|].
      intros <-. naive_solver.
    + intros l x. rewrite list_lookup_alter. destruct (decide (i = l)) as [->|]; [|by apply Ho].
      rewrite Hs. intros [= <-]. simpl. congruence.
    + intros l x. rewrite list_lookup_alter. destruct (decide (i = l)) as [->|]; [|by apply Hr].
      rewrite Hs. intros [= <-]. simpl. congruence.
Qed.

Lemma close_all_open (ls : list nat) (st : list udpSession) (i : nat) (s : udpSession) :
  foldr (alter sess_close) st ls !! i = Some s -> us_open s = true -> i ∉ ls /\ st !! i = Some s.
Proof.
  revert s. induction ls as [|l ls IH]; intros s; simpl; [intros; split; [set_solver|done]|].
  rewrite list_lookup_alter. destruct (decide (l = i)) as [->|Hne].
  - destruct (foldr (alter sess_close) st ls !! i) as [x|]; [|done]. by intros [= <-].
  - intros Hs Ho. destruct (IH s Hs Ho). split; [set_solver|done].
Qed.

Lemma udp_Close_spec p : udp_inv p -> udp_inv (udp_Close p)
  /\ forall i s, up_store (udp_Close p) !! i = Some s -> us_open s = false.
Proof.
  intros Hi. assert (forall i s, up_store (udp_Close p) !! i = Some s -> us_open s = false) as Hall.
  { intros i s Hs. destruct (us_open s) eqn:E; [|done]. apply close_all_open in Hs as [Hni Hs]; [|done].
    destruct Hni. apply list_elem_of_fmap. exists (us_clientAddr s, i). split; [done|].
    apply elem_of_map_to_list. by apply (ui_open p Hi). }
  split; [|done]. constructor; [done|..]; intros i s Hs Ho; by rewrite (Hall i s Hs) in Ho.
Qed.

Lemma udp_step_inv p p' : udp_step p p' -> udp_inv p -> udp_inv p'.
Proof.
  intros Hs Hi. destruct Hs as [packet key dial|i s packet Hs Hr Ho|i s Hs Hr| |d Hd].
  - by apply handlePacket_inv.
  - simpl. assert (udp_inv (up_set (up_sessions p)
      (alter (fun s => mkSess (us_clientAddr s) (us_open s) true (up_now p) (up_now p + udpSessionTimeout)) i (up_store p)) p)) as H.
    { apply alter_sess_inv; [|done]. intros x Hx. simplify_eq. by rewrite Hr. }
    assert (forall f, <[i := f s]> (up_store p) = alter f i (up_store p)) as Hia.
    { intros f. apply list_eq. intros j. rewrite list_lookup_alter. destruct (decide (i = j)) as [->|].
      - rewrite list_lookup_insert_eq by (by eapply lookup_lt_Some). by rewrite Hs.
      - by rewrite list_lookup_insert_ne. }
    rewrite (Hia (fun s => mkSess (us_clientAddr s) (us_open s) true (up_now p) (up_now p + udpSessionTimeout))).
    destruct H. by constructor.
  - by apply read_error_inv.
  - by apply udp_Close_spec.
  - destruct Hi. by constructor.
Qed.

#[export] Instance udp_preserves : Preserves udp_step udp_inv := udp_step_inv.

Lemma target_write_store i packet p : up_store (target_write i packet p) = up_store p.
Proof. unfold target_write. by repeat case_match. Qed.

Lemma handlePacket_deadline packet key dial p i s :
  up_store p !! i = Some s ->
  exists s', up_store (handlePacket packet key dial p) !! i = Some s' /\ us_deadline s' = us_deadline s.
Proof.
  intros Hs. unfold handlePacket. destruct (up_sessions p !! key) as [j|]; [|destruct dial; [|by exists s]].
  - rewrite target_write_store. cbn [up_set up_store]. rewrite list_lookup_alter.
    destruct (decide (j = i)) as [->|]; rewrite Hs; eexists; (split; [reflexivity|done]).
  - rewrite target_write_store. simpl. exists s. by rewrite lookup_app_l by (by eapply lookup_lt_Some).
Qed.

(** ** Properties *)


