(* ===== verification/Manager.v ===== *)
(** * The tunnel manager ([src/manager/manager.go], [control.go], [config.go])

    The manager owns the configuration, the table of started tunnels and one
    goroutine per started tunnel.  A goroutine is a [task] in a store that only
    grows; the table maps a tunnel's name to its task.  Every method runs under
    [m.mu] and is one function of the state; the goroutines' own steps are
    events ([task_apply]) of [m_step].  Outcomes of the file system and of decoding a request are
    arguments.  Closing a closed channel is a run-time panic, [m_panic]. *)
From S2P Require Import Prelude GoStrings Specs LogBuffer.

(** ** Configuration files *)

Record GlobalConfig := mkGlobal { g_LogFile : string; g_ControlSocket : string }.
Record Config := mkConfig { c_Tunnels : list TunnelConfig; c_Global : GlobalConfig }.

Definition DefaultConfig : Config := mkConfig [] (mkGlobal "" "").

(** The paths [LoadConfig] and [SaveConfig] use. *)
Definition load_path (path env default_path : string) : string :=
  let path := if decide (path = "") then env else path in
  if decide (path = "") then default_path else path.

Definition save_path (path default_path : string) : string :=
  if decide (path = "") then default_path else path.

(** Reading a file: its decoded configuration, that it does not exist, or an
    error of reading or decoding it. *)
Inductive read_result := ReadConfig (c : Config) | ReadMissing | ReadFailed (e : error).

Definition LoadConfig (file : read_result) : result Config :=
  match file with
  | ReadConfig c => Ok c
  | ReadMissing => Ok DefaultConfig
  | ReadFailed e => Err e
  end.

(** Writing the file: done, or failed with the old content left or not. *)
Inductive save_result := Saved | SaveFailed (e : error) (kept : bool).

(** ** Tunnel state *)

Record TunnelState := mkTS {
  ts_Status : string; ts_Since : Z; ts_ReconnectCount : Z; ts_LastErr : string }.

Definition ts_Set (now : Z) (status err : string) (ts : TunnelState) : TunnelState :=
  if decide (ts_Status ts <> status)
  then mkTS status now (ts_ReconnectCount ts) err
  else mkTS (ts_Status ts) (ts_Since ts) (ts_ReconnectCount ts) err.

Definition ts_SetReconnectCount (n : Z) (ts : TunnelState) : TunnelState :=
  mkTS (ts_Status ts) (ts_Since ts) n (ts_LastErr ts).

(** The function a tunnel's goroutine runs. *)
Inductive runner :=
  | RunLocal | RunChain | RunDynamic | RunRemoteClient | RunRemoteClientMulti | RunRemoteServer.

Definition run_fn (tc : TunnelConfig) : option runner :=
  if decide (tc_Mode tc = "local") then
    Some (if decide (0 < zlen (tc_Hops tc)) then RunChain else RunLocal)
  else if decide (tc_Mode tc = "dynamic") then Some RunDynamic
  else if decide (tc_Mode tc = "remote") then
    Some (if decide (tc_Server tc <> "")
          then if decide (tc_Connections tc > 1) then RunRemoteClientMulti else RunRemoteClient
          else RunRemoteServer)
  else None.

(** The control connections of [runRemoteClientMulti] and the status it
    reports. *)
Definition multi_clients (connections : Z) : Z :=
  let n := if decide (connections < 1) then 1 else connections in
  if decide (n > 10) then 10 else n.

Definition multi_status (connected n : Z) : string :=
  if decide (connected = n) then "established"
  else if decide (connected > 0) then "degraded" else "reconnecting".

Record task := mkTask {
  tk_cfg : TunnelConfig;
  tk_run : runner;
  tk_state : TunnelState;
  tk_cancelled : bool;         (* [ctx] is closed *)
  tk_done : bool;              (* [done] is closed *)
  tk_lastErr : option error;
}.

Definition new_task (tc : TunnelConfig) (r : runner) : task :=
  mkTask tc r (mkTS "" 0 0 "") false false None.

Definition tk_cancel (t : task) : task :=
  mkTask (tk_cfg t) (tk_run t) (tk_state t) true (tk_done t) (tk_lastErr t).
Definition tk_set_state (ts : TunnelState) (t : task) : task :=
  mkTask (tk_cfg t) (tk_run t) ts (tk_cancelled t) (tk_done t) (tk_lastErr t).

(** What a goroutine does: report a status, or return. *)
Inductive task_event :=
  | EvStatus (status : string)           (* starting, listening, established, ... *)
  | EvReconnects (n : Z)
  | EvReturn (err : option error) (text : string).

Definition task_apply (now : Z) (ev : task_event) (t : task) : task :=
  match ev with
  | EvStatus s => tk_set_state (ts_Set now s "" (tk_state t)) t
  | EvReconnects n => tk_set_state (ts_SetReconnectCount n (tk_state t)) t
  | EvReturn None _ =>
      mkTask (tk_cfg t) (tk_run t) (ts_Set now "stopped" "" (tk_state t)) (tk_cancelled t) true (tk_lastErr t)
  | EvReturn (Some e) text =>
      mkTask (tk_cfg t) (tk_run t) (ts_Set now "error" text (tk_state t)) (tk_cancelled t) true (Some e)
  end.

(** ** The manager *)

Record Manager := mkM {
  m_cfg : Config;
  m_tunnels : gmap string nat;
  m_tasks : list task;
  m_disk : option Config;      (* the saved configuration, when it is known *)
  m_panic : bool;
}.

Definition NewManager (cfg : Config) (disk : option Config) : Manager := mkM cfg ∅ [] disk false.

Definition m_set_cfg (c : Config) (m : Manager) : Manager :=
  mkM c (m_tunnels m) (m_tasks m) (m_disk m) (m_panic m).
Definition m_set_tunnels (t : gmap string nat) (m : Manager) : Manager :=
  mkM (m_cfg m) t (m_tasks m) (m_disk m) (m_panic m).
Definition m_set_tasks (t : list task) (m : Manager) : Manager :=
  mkM (m_cfg m) (m_tunnels m) t (m_disk m) (m_panic m).

(** [mt.cancel()]: [close(ctx)]. *)
Definition cancel (t : nat) (m : Manager) : Manager :=
  match m_tasks m !! t with
  | Some tk =>
      if tk_cancelled tk then mkM (m_cfg m) (m_tunnels m) (m_tasks m) (m_disk m) true
      else m_set_tasks (<[t := tk_cancel tk]> (m_tasks m)) m
  | None => m
  end.

Definition SaveConfig (disk : save_result) (m : Manager) : result unit * Manager :=
  match disk with
  | Saved => (Ok tt, mkM (m_cfg m) (m_tunnels m) (m_tasks m) (Some (m_cfg m)) (m_panic m))
  | SaveFailed e kept =>
      (Err e, mkM (m_cfg m) (m_tunnels m) (m_tasks m) (if (kept : bool) then m_disk m else None) (m_panic m))
  end.

Fixpoint find_index (name : string) (i : Z) (ts : list TunnelConfig) : Z :=
  match ts with
  | [] => -1
  | tc :: ts => if decide (tc_Name tc = name) then i else find_index name (i + 1) ts
  end.

Definition findConfig (name : string) (m : Manager) : Z := find_index name 0 (c_Tunnels (m_cfg m)).

Definition set_tunnels (ts : list TunnelConfig) (m : Manager) : Manager :=
  m_set_cfg (mkConfig ts (c_Global (m_cfg m))) m.

Definition startOne (tc : TunnelConfig) (m : Manager) : result unit * Manager :=
  match m_tunnels m !! tc_Name tc with
  | Some _ => (Ok tt, m)
  | None =>
      match run_fn tc with
      | None => (Err (Errorf "unknown mode %q" [AStr (tc_Mode tc)]), m)
      | Some r =>
          (Ok tt, m_set_tunnels (<[tc_Name tc := length (m_tasks m)]> (m_tunnels m))
                    (m_set_tasks (m_tasks m ++ [new_task tc r]) m))
      end
  end.

Definition startLocked (m : Manager) : Manager :=
  foldl (fun m tc => if tc_Autostart tc then (startOne tc m).2 else m) m (c_Tunnels (m_cfg m)).

(** [stopTunnelLocked]; waiting for the goroutine changes nothing here. *)
Definition stopTunnelLocked (name : string) (t : nat) (m : Manager) : Manager :=
  let m := cancel t m in m_set_tunnels (delete name (m_tunnels m)) m.

Definition stopLocked (m : Manager) : Manager :=
  foldl (fun m e => stopTunnelLocked e.1 e.2 m) m (map_to_list (m_tunnels m)).

Definition StopGroup (group : string) (m : Manager) : Manager :=
  foldl (fun m e =>
    match m_tasks m !! e.2 with
    | Some tk => if decide (tc_Group (tk_cfg tk) = group) then stopTunnelLocked e.1 e.2 m else m
    | None => m
    end) m (map_to_list (m_tunnels m)).

Definition StartGroup (group : string) (m : Manager) : Manager :=
  foldl (fun m tc =>
    if decide (tc_Group tc = group) then
      match m_tunnels m !! tc_Name tc with
      | Some _ => m
      | None => (startOne tc m).2
      end
    else m) m (c_Tunnels (m_cfg m)).

Record TunnelStatus := mkStatus {
  s_Name : string; s_Mode : string; s_Local : string; s_Remote : string; s_Status : string;
  s_Group : string; s_Error : string; s_Since : Z; s_ReconnectCount : Z }.

Definition tunnelStatusLocked (tc : TunnelConfig) (m : Manager) : TunnelStatus :=
  let st status err since n :=
    mkStatus (tc_Name tc) (tc_Mode tc) (tc_Local tc) (tc_Remote tc) status (tc_Group tc) err since n in
  match t ← m_tunnels m !! tc_Name tc; m_tasks m !! t with
  | Some tk =>
      let ts := tk_state tk in
      st (if decide (ts_Status ts = "") then "running"%string else ts_Status ts)
        (ts_LastErr ts) (ts_Since ts) (ts_ReconnectCount ts)
  | None => st "stopped" "" 0 0
  end.

Definition List_ (m : Manager) : list TunnelStatus :=
  (fun tc => tunnelStatusLocked tc m) <$> c_Tunnels (m_cfg m).

Definition errNotFound (name : string) : error := Errorf "tunnel %q not found" [AStr name].

Definition config_at (i : Z) (m : Manager) : TunnelConfig :=
  default zero_tc (c_Tunnels (m_cfg m) !! Z.to_nat i).

Definition Status (name : string) (m : Manager) : result TunnelStatus :=
  let idx := findConfig name m in
  if decide (idx < 0) then Err (errNotFound name) else Ok (tunnelStatusLocked (config_at idx m) m).

Definition Logs (name : string) (limit : Z) (lb : LogBuffer) (m : Manager) : result (list bytes) :=
  if decide (name <> "" /\ findConfig name m < 0) then Err (errNotFound name)
  else Ok (Lines (bytes_of name) limit lb).

Definition Add (tc : TunnelConfig) (disk : save_result) (m : Manager) : result unit * Manager :=
  if decide (findConfig (tc_Name tc) m >= 0)
  then (Err (Errorf "tunnel %q already exists" [AStr (tc_Name tc)]), m) else
  let m := set_tunnels (c_Tunnels (m_cfg m) ++ [tc]) m in
  match SaveConfig disk m with
  | (Err e, m) => (Err (Wrapf "save config: %w" [] e), m)
  | (Ok _, m) => if tc_Autostart tc then startOne tc m else (Ok tt, m)
  end.

Definition stop_if_running (name : string) (m : Manager) : Manager :=
  match m_tunnels m !! name with
  | Some t => stopTunnelLocked name t m
  | None => m
  end.

Definition Remove (name : string) (disk : save_result) (m : Manager) : result unit * Manager :=
  let m := stop_if_running name m in
  let idx := findConfig name m in
  if decide (idx < 0) then (Err (errNotFound name), m) else
  let ts := c_Tunnels (m_cfg m) in
  SaveConfig disk (set_tunnels (take (Z.to_nat idx) ts ++ drop (Z.to_nat (idx + 1)) ts) m).

Definition Reload (file : read_result) (m : Manager) : result unit * Manager :=
  match LoadConfig file with
  | Err e => (Err (Wrapf "reload config: %w" [] e), m)
  | Ok newCfg => (Ok tt, startLocked (m_set_cfg newCfg (stopLocked m)))
  end.

Definition with_autostart (b : bool) (tc : TunnelConfig) : TunnelConfig :=
  mkTC (tc_Name tc) (tc_Mode tc) (tc_Local tc) (tc_Remote tc) (tc_Server tc) (tc_Token tc) (tc_TLS tc)
    (tc_TLSCert tc) (tc_TLSKey tc) (tc_TLSVerify tc) (tc_TLSTrustOnFirstUse tc) (tc_TLSServerFingerprint tc)
    (tc_Protocol tc) b (tc_Group tc) (tc_Hops tc) (tc_Connections tc) (tc_HealthCheck tc)
    (tc_SocksUser tc) (tc_SocksPass tc).

(** [m.cfg.Tunnels[idx].Autostart = b]. *)
Definition set_autostart (idx : Z) (b : bool) (m : Manager) : Manager :=
  set_tunnels (alter (with_autostart b) (Z.to_nat idx) (c_Tunnels (m_cfg m))) m.

Definition Enable (name : string) (disk : save_result) (m : Manager) : result unit * Manager :=
  let idx := findConfig name m in
  if decide (idx < 0) then (Err (errNotFound name), m) else
  match SaveConfig disk (set_autostart idx true m) with
  | (Err e, m) => (Err (Wrapf "save config: %w" [] e), m)
  | (Ok _, m) =>
      match m_tunnels m !! name with
      | Some _ => (Ok tt, m)
      | None => startOne (config_at idx m) m
      end
  end.

Definition Disable (name : string) (disk : save_result) (m : Manager) : result unit * Manager :=
  let idx := findConfig name m in
  if decide (idx < 0) then (Err (errNotFound name), m) else
  match SaveConfig disk (set_autostart idx false m) with
  | (Err e, m) => (Err (Wrapf "save config: %w" [] e), m)
  | (Ok _, m) => (Ok tt, stop_if_running name m)
  end.

Definition Restart (name : string) (m : Manager) : result unit * Manager :=
  let idx := findConfig name m in
  if decide (idx < 0) then (Err (errNotFound name), m) else
  let m := stop_if_running name m in startOne (config_at idx m) m.

Definition Save (disk : save_result) (m : Manager) : result unit * Manager := SaveConfig disk m.

(** ** Control requests *)

(** A request: its method and what [json.Unmarshal] makes of its parameters for
    that method. *)
Inductive Method :=
  | MList
  | MStop
  | MStopGroup (params : result string)
  | MStartGroup (params : result string)
  | MAdd (params : result TunnelConfig)
  | MRemove (params : result string)
  | MEnable (params : result string)
  | MDisable (params : result string)
  | MRestart (params : result string)
  | MSave
  | MStatus (params : result string)
  | MLogs (params : result (string * Z))
  | MReload
  | MUnknown (method : string).

Inductive Result := RNull | RStatuses (l : list TunnelStatus) | RStatus (s : TunnelStatus) | RLines (l : list bytes).

Record Response := mkResp { rs_Result : result Result; rs_ID : Z }.

Definition invalid_params (e : error) : error := Wrapf "invalid params: %v" [] e.

(** What the environment does during a request. *)
Record env := mkEnv { e_disk : save_result; e_file : read_result; e_log : LogBuffer }.

Definition reply (r : result unit * Manager) : result Result * Manager :=
  (r.1 ≫= fun _ => Ok RNull, r.2).

(** The common shape of the cases with parameters. *)
Definition with_params {A} (params : result A) (m : Manager) (k : A -> result Result * Manager)
    : result Result * Manager :=
  match params with Err e => (Err (invalid_params e), m) | Ok a => k a end.

Definition handle (method : Method) (e : env) (m : Manager) : result Result * Manager :=
  match method with
  | MList => (Ok (RStatuses (List_ m)), m)
  | MStop => (Ok RNull, stopLocked m)
  | MStopGroup p => with_params p m (fun g => (Ok RNull, StopGroup g m))
  | MStartGroup p => with_params p m (fun g => (Ok RNull, StartGroup g m))
  | MAdd p => with_params p m (fun tc => reply (Add tc (e_disk e) m))
  | MRemove p => with_params p m (fun n => reply (Remove n (e_disk e) m))
  | MEnable p => with_params p m (fun n => reply (Enable n (e_disk e) m))
  | MDisable p => with_params p m (fun n => reply (Disable n (e_disk e) m))
  | MRestart p => with_params p m (fun n => reply (Restart n m))
  | MSave => reply (Save (e_disk e) m)
  | MStatus p => with_params p m (fun n => (RStatus <$> Status n m, m))
  | MLogs p => with_params p m (fun q => (RLines <$> Logs q.1 q.2 (e_log e) m, m))
  | MReload => reply (Reload (e_file e) m)
  | MUnknown s => (Err (Errorf "unknown method %q" [AStr s]), m)
  end.

Definition HandleControl (method : Method) (id : Z) (e : env) (m : Manager) : Response * Manager :=
  let '(r, m) := handle method e m in (mkResp r id, m).

(** One step of the daemon: start-up, a control request, a reload by signal, the
    final stop, or a goroutine's event; a goroutine that has returned is over. *)
Inductive m_step (m : Manager) : Manager -> Prop :=
  | ms_start : m_step m (startLocked m)
  | ms_control method id e resp m' : HandleControl method id e m = (resp, m') -> m_step m m'
  | ms_task t tk now ev :
      m_tasks m !! t = Some tk -> tk_done tk = false ->
      m_step m (m_set_tasks (<[t := task_apply now ev tk]> (m_tasks m)) m).

(** The invariant: table entries and live goroutines correspond one to one, and
    no channel was closed twice. *)
Record m_inv (m : Manager) : Prop := {
  mi_table : forall name t, m_tunnels m !! name = Some t ->
    exists tk, m_tasks m !! t = Some tk /\ tk_cancelled tk = false /\ tc_Name (tk_cfg tk) = name;
  mi_live : forall t tk, m_tasks m !! t = Some tk -> tk_cancelled tk = false ->
    m_tunnels m !! tc_Name (tk_cfg tk) = Some t;
  mi_nopanic : m_panic m = false;
}.

(** ** Lemmas: stopping *)

(** Cancelling the live task of a table entry and dropping the entry. *)
Lemma stopTunnel_spec name t m :
  m_inv m -> m_tunnels m !! name = Some t ->
  let m' := stopTunnelLocked name t m in
  m_inv m' /\ m_tunnels m' = delete name (m_tunnels m) /\ m_cfg m' = m_cfg m /\ m_disk m' = m_disk m
  /\ (forall i, tk_cfg <$> m_tasks m' !! i = tk_cfg <$> m_tasks m !! i)
  /\ length (m_tasks m') = length (m_tasks m).
Proof.
  intros [Ht Hl Hp] Hn m'. destruct (Ht name t Hn) as (tk & Htk & Hc & Hname).
  unfold m', stopTunnelLocked, cancel. rewrite Htk, Hc. simpl.
  assert (forall i x, <[t := tk_cancel tk]> (m_tasks m) !! i = Some x ->
    (i = t /\ x = tk_cancel tk) \/ (i <> t /\ m_tasks m !! i = Some x)) as Hi.
  { intros i x [(-> & -> & _)|[? ?]]%list_lookup_insert_Some; [by left|right; auto]. }
  assert (t < length (m_tasks m))%nat as Hlt by (by eapply lookup_lt_Some).
  split; [constructor; simpl|split_and!; try done].
  - intros n i [Hne Hni]%lookup_delete_Some. destruct (Ht n i Hni) as (x & Hx & Hxc & Hxn).
    exists x. rewrite list_lookup_insert_ne; [done|]. intros <-. congruence.
  - intros i x Hx Hxc. destruct (Hi i x Hx) as [[-> ->]|[Hne Hx']]; [done|].
    rewrite lookup_delete_ne; [by apply Hl|]. intros Heq. pose proof (Hl i x Hx' Hxc). congruence.
  - done.
  - intros i. destruct (decide (i = t)) as [->|].
    + rewrite list_lookup_insert_eq by done. by rewrite Htk.
    + by rewrite list_lookup_insert_ne.
  - apply length_insert.
Qed.

(** The loops of [Stop] and [StopGroup]: [sel] says which tunnels they stop. *)
Definition stop_entries (sel : option TunnelConfig -> bool) (l : list (string * nat)) (m : Manager) : Manager :=
  foldl (fun m e => if sel (tk_cfg <$> m_tasks m !! e.2) then stopTunnelLocked e.1 e.2 m else m) m l.

Lemma stop_entries_spec sel l m :
  m_inv m -> NoDup (l.*1) -> (forall n t, (n, t) ∈ l -> m_tunnels m !! n = Some t) ->
  let m' := stop_entries sel l m in
  m_inv m' /\ m_cfg m' = m_cfg m /\ m_disk m' = m_disk m /\ length (m_tasks m') = length (m_tasks m)
  /\ forall n t, m_tunnels m' !! n = Some t <->
       m_tunnels m !! n = Some t /\ ~ ((n, t) ∈ l /\ sel (tk_cfg <$> m_tasks m !! t) = true).
Proof.
  revert m. induction l as [|[n0 t0] l IH]; intros m Hi Hnd Hin; simpl.
  { split_and!; try done. intros n t. split; [|by intros [? _]]. intros H. split; [done|]. intros [Hx _]. by apply elem_of_nil in Hx. }
  apply NoDup_cons in Hnd as [Hn0 Hnd].
  assert (m_tunnels m !! n0 = Some t0) as Hnt by (apply Hin; by left).
  unfold stop_entries. cbn [foldl fst snd]. destruct (sel (tk_cfg <$> m_tasks m !! t0)) eqn:Es.
  - destruct (stopTunnel_spec n0 t0 m Hi Hnt) as (H1 & H2 & H3 & H4 & H5 & H6).
    set (m1 := stopTunnelLocked n0 t0 m) in *.
    destruct (IH m1 H1 Hnd) as (K1 & K2 & K3 & K4 & K5).
    { intros n t Hx. rewrite H2, lookup_delete_ne; [apply Hin; by right|]. intros ->. apply Hn0.
      apply list_elem_of_fmap. by exists (n, t). }
    fold (stop_entries sel l m1). split_and!; [done|congruence|congruence|congruence|]. intros n t. rewrite K5, H2, H5, lookup_delete_Some, elem_of_cons.
    split.
    + intros [[Hne Hx] Hno]. split; [done|]. intros [[[= -> ->]|Hx'] Hs]; [done|tauto].
    + intros [Hx Hno]. split; [split; [|done]|tauto]. intros ->. apply Hno. rewrite Hnt in Hx. injection Hx as ->. auto.
  - destruct (IH m Hi Hnd) as (K1 & K2 & K3 & K4 & K5); [intros n t Hx; apply Hin; by right|].
    fold (stop_entries sel l m). split_and!; try done. intros n t. rewrite K5, elem_of_cons.
    split; [|tauto]. intros [Hx Hno]. split; [done|]. intros [[[= -> ->]|Hx'] Hs]; [congruence|tauto].
Qed.

Lemma stop_entries_all sel m :
  m_inv m -> let m' := stop_entries sel (map_to_list (m_tunnels m)) m in
  m_inv m' /\ m_cfg m' = m_cfg m /\ m_disk m' = m_disk m /\ length (m_tasks m') = length (m_tasks m)
  /\ forall n t, m_tunnels m' !! n = Some t <->
       m_tunnels m !! n = Some t /\ sel (tk_cfg <$> m_tasks m !! t) = false.
Proof.
  intros Hi m'. destruct (stop_entries_spec sel (map_to_list (m_tunnels m)) m Hi) as (H1 & H2 & H3 & H4 & H5).
  - apply NoDup_fst_map_to_list.
  - intros n t Hx. by apply elem_of_map_to_list.
  - subst m'. split_and!; try done. intros n t. rewrite H5, elem_of_map_to_list.
    destruct (sel (tk_cfg <$> m_tasks m !! t)); naive_solver.
Qed.

Lemma stopLocked_entries m : stopLocked m = stop_entries (fun _ => true) (map_to_list (m_tunnels m)) m.
Proof. done. Qed.

Definition in_group (g : string) (c : option TunnelConfig) : bool :=
  match c with Some tc => bool_decide (tc_Group tc = g) | None => false end.

Lemma StopGroup_entries g m : StopGroup g m = stop_entries (in_group g) (map_to_list (m_tunnels m)) m.
Proof.
  unfold StopGroup, stop_entries. generalize (map_to_list (m_tunnels m)) at 1 2. intros l.
  revert m. induction l as [|[n t] l IH]; intros m; [done|]. cbn [foldl fst snd]. rewrite IH. f_equal.
  destruct (m_tasks m !! t); [|done]. simpl. case_decide; [by rewrite bool_decide_eq_true_2|by rewrite bool_decide_eq_false_2].
Qed.

Lemma stop_if_running_spec name m :
  m_inv m -> let m' := stop_if_running name m in
  m_inv m' /\ m_tunnels m' = delete name (m_tunnels m) /\ m_cfg m' = m_cfg m /\ m_disk m' = m_disk m
  /\ length (m_tasks m') = length (m_tasks m).
Proof.
  intros Hi. unfold stop_if_running. destruct (m_tunnels m !! name) as [t|] eqn:E.
  - destruct (stopTunnel_spec name t m Hi E) as (? & ? & ? & ? & _ & ?). by split_and!.
  - split_and!; try done. by rewrite delete_id.
Qed.

(** ** Lemmas: starting *)

(** What starting leaves of a state: configuration, file and old tasks stay,
    the table only grows. *)
Record grows (m m' : Manager) : Prop := {
  gr_inv : m_inv m';
  gr_cfg : m_cfg m' = m_cfg m;
  gr_disk : m_disk m' = m_disk m;
  gr_tasks : m_tasks m `prefix_of` m_tasks m';
  gr_table : m_tunnels m ⊆ m_tunnels m';
}.

Lemma grows_refl m : m_inv m -> grows m m.
Proof. by constructor. Qed.

Lemma grows_trans m1 m2 m3 : grows m1 m2 -> grows m2 m3 -> grows m1 m3.
Proof.
  intros [] []. constructor; try done; try congruence; by etrans.
Qed.

Lemma startOne_grows tc m :
  m_inv m -> grows m (startOne tc m).2
  /\ (forall n t, m_tunnels (startOne tc m).2 !! n = Some t -> m_tunnels m !! n = Some t
        \/ n = tc_Name tc /\ tk_cfg <$> m_tasks (startOne tc m).2 !! t = Some tc
           /\ (length (m_tasks m) <= t)%nat /\ run_fn tc <> None)
  /\ (run_fn tc <> None -> (startOne tc m).1 = Ok tt /\ is_Some (m_tunnels (startOne tc m).2 !! tc_Name tc)).
Proof.
  intros Hi. unfold startOne. destruct (m_tunnels m !! tc_Name tc) as [t|] eqn:E; simpl.
  { split; [by apply grows_refl|]. split; [by left|]. intros _. split; [done|by eexists]. }
  destruct (run_fn tc) as [r|] eqn:Er; simpl; [|split; [by apply grows_refl|split; [by left|done]]].
  destruct Hi as [Ht Hl Hp]. split; [constructor; try done|split].
  - constructor; simpl; [| |done].
    + intros n t [[<- <-]|[Hne Hn]]%lookup_insert_Some.
      * exists (new_task tc r). by rewrite lookup_app_r, Nat.sub_diag by lia.
      * destruct (Ht n t Hn) as (x & Hx & ?). exists x. rewrite lookup_app_l by (by eapply lookup_lt_Some). done.
    + intros t x [Hx|[Hlen Hx]]%lookup_app_Some Hc.
      * rewrite lookup_insert_ne; [by apply Hl|]. intros Heq. pose proof (Hl t x Hx Hc). congruence.
      * apply list_lookup_singleton_Some in Hx as [Hx <-]. simpl. replace t with (length (m_tasks m)) by lia.
        apply lookup_insert_eq.
  - by apply prefix_app_r.
  - by apply insert_subseteq.
  - intros n t [[<- <-]|[Hne Hn]]%lookup_insert_Some; [right|by left].
    rewrite lookup_app_r, Nat.sub_diag by lia. done.
  - intros _. split; [done|]. rewrite lookup_insert_eq. by eexists.
Qed.

(** The loops of [Start] and [StartGroup] over the configured tunnels. *)
Definition start_all (cond : TunnelConfig -> bool) (tcs : list TunnelConfig) (m : Manager) : Manager :=
  foldl (fun m tc => if cond tc then (startOne tc m).2 else m) m tcs.

Lemma start_all_spec cond tcs m :
  m_inv m -> let m' := start_all cond tcs m in
  grows m m'
  /\ (forall tc, tc ∈ tcs -> cond tc = true -> run_fn tc <> None -> is_Some (m_tunnels m' !! tc_Name tc))
  /\ (forall n t, m_tunnels m' !! n = Some t -> m_tunnels m !! n = Some t
       \/ exists tc, tc ∈ tcs /\ cond tc = true /\ run_fn tc <> None /\ n = tc_Name tc
          /\ tk_cfg <$> m_tasks m' !! t = Some tc /\ (length (m_tasks m) <= t)%nat).
Proof.
  revert m. induction tcs as [|tc tcs IH]; intros m Hi; simpl.
  { split; [by apply grows_refl|]. split; [|by left]. intros tc Hx. by apply elem_of_nil in Hx. }
  set (m1 := if cond tc then (startOne tc m).2 else m).
  assert (grows m m1 /\ (forall n t, m_tunnels m1 !! n = Some t -> m_tunnels m !! n = Some t
      \/ cond tc = true /\ run_fn tc <> None /\ n = tc_Name tc /\ tk_cfg <$> m_tasks m1 !! t = Some tc
         /\ (length (m_tasks m) <= t)%nat)
    /\ (cond tc = true -> run_fn tc <> None -> is_Some (m_tunnels m1 !! tc_Name tc))) as (G1 & Hnew & Hin).
  { unfold m1. destruct (cond tc); [|split; [by apply grows_refl|split; [by left|done]]].
    destruct (startOne_grows tc m Hi) as (G & Hn & Hr). split; [done|]. split; [|intros _ H; by apply Hr].
    intros n t Hx. destruct (Hn n t Hx) as [?|(? & ? & ? & ?)]; [by left|by right]. }
  destruct (IH m1 (gr_inv _ _ G1)) as (G2 & H2 & H3).
  split; [by eapply grows_trans|]. split.
  - intros tc' [->|Hx]%elem_of_cons Hc Hr; [|by apply H2].
    destruct (Hin Hc Hr) as [t Ht]. exists t. eapply lookup_weaken; [exact Ht|apply (gr_table _ _ G2)].
  - intros n t Hx. destruct (H3 n t Hx) as [Hx1|(tc' & ? & ? & ? & ? & ? & ?)].
    + destruct (Hnew n t Hx1) as [?|(Hc & Hr & -> & Hcfg & Hlen)]; [by left|]. right. exists tc.
      split; [by left|]. split_and!; try done.
      destruct (m_tasks m1 !! t) as [tk|] eqn:Etk; [|done].
      fold m1. change (foldl _ m1 tcs) with (start_all cond tcs m1).
      by rewrite (prefix_lookup_Some _ _ _ _ Etk (gr_tasks _ _ G2)).
    + right. exists tc'. split; [by right|]. split_and!; try done.
      pose proof (prefix_length _ _ (gr_tasks _ _ G1)). lia.
Qed.

Lemma startLocked_all m : startLocked m = start_all tc_Autostart (c_Tunnels (m_cfg m)) m.
Proof. done. Qed.

Lemma StartGroup_all g m :
  StartGroup g m = start_all (fun tc => bool_decide (tc_Group tc = g)) (c_Tunnels (m_cfg m)) m.
Proof.
  unfold StartGroup, start_all. generalize (c_Tunnels (m_cfg m)). intros l.
  revert m. induction l as [|tc l IH]; intros m; [done|]. cbn [foldl]. rewrite IH. f_equal.
  case_decide; [rewrite bool_decide_eq_true_2 by done|by rewrite bool_decide_eq_false_2].
  unfold startOne. by destruct (m_tunnels m !! tc_Name tc).
Qed.

(** ** Lemmas: the operations *)

Lemma m_set_cfg_inv c m : m_inv m -> m_inv (m_set_cfg c m).
Proof. intros []. by constructor. Qed.

Lemma SaveConfig_spec disk m :
  let '(r, m') := SaveConfig disk m in
  m_tunnels m' = m_tunnels m /\ m_tasks m' = m_tasks m /\ m_cfg m' = m_cfg m /\ m_panic m' = m_panic m
  /\ match disk with
     | Saved => r = Ok tt /\ m_disk m' = Some (m_cfg m)
     | SaveFailed e kept => r = Err e /\ m_disk m' = if kept then m_disk m else None
     end.
Proof. by destruct disk. Qed.

Lemma SaveConfig_inv disk m : m_inv m -> m_inv (SaveConfig disk m).2.
Proof.
  intros []. pose proof (SaveConfig_spec disk m) as H. destruct (SaveConfig disk m) as [r m'].
  destruct H as (Ht & Hk & _ & Hp & _). constructor; simpl; by rewrite ?Ht, ?Hk, ?Hp.
Qed.

Lemma find_index_spec name i ts :
  (find_index name i ts = -1 /\ Forall (fun tc => tc_Name tc <> name) ts) \/
  exists a tc b, ts = a ++ tc :: b /\ tc_Name tc = name /\ Forall (fun tc => tc_Name tc <> name) a
    /\ find_index name i ts = i + zlen a.
Proof.
  revert i. induction ts as [|tc ts IH]; intros i; simpl; [by left|]. case_decide as Hn.
  - right. exists [], tc, ts. split_and!; try done. change (zlen (@nil TunnelConfig)) with 0. lia.
  - destruct (IH (i + 1)) as [[H1 H2]|(a & x & b & -> & Hx & Ha & ->)]; [left; split; [done|by constructor]|].
    right. exists (tc :: a), x, b. split_and!; try done; [by constructor|]. rewrite zlen_cons. lia.
Qed.

(** The first tunnel of that name, its index, and the list around it. *)
Lemma findConfig_spec name m :
  (findConfig name m < 0 /\ Forall (fun tc => tc_Name tc <> name) (c_Tunnels (m_cfg m))) \/
  exists a tc b, c_Tunnels (m_cfg m) = a ++ tc :: b /\ tc_Name tc = name
    /\ Forall (fun tc => tc_Name tc <> name) a /\ findConfig name m = zlen a.
Proof.
  unfold findConfig. destruct (find_index_spec name 0 (c_Tunnels (m_cfg m))) as [[-> ?]|(a & x & b & -> & ? & ? & ->)].
  - left. split; [lia|done].
  - right. by exists a, x, b.
Qed.

Lemma alter_middle {A} f (a b : list A) x : alter f (Z.to_nat (zlen a)) (a ++ x :: b) = a ++ f x :: b.
Proof.
  unfold zlen. rewrite Nat2Z.id. by rewrite alter_app_r_alt, Nat.sub_diag by lia.
Qed.

Lemma lookup_middle {A} (a b : list A) x : (a ++ x :: b) !! Z.to_nat (zlen a) = Some x.
Proof. unfold zlen. rewrite Nat2Z.id. by rewrite lookup_app_r, Nat.sub_diag by lia. Qed.

Lemma Add_inv tc disk m : m_inv m -> m_inv (Add tc disk m).2.
Proof.
  intros Hi. unfold Add. case_decide; [done|].
  pose proof (SaveConfig_inv disk _ (m_set_cfg_inv (mkConfig (c_Tunnels (m_cfg m) ++ [tc]) (c_Global (m_cfg m))) m Hi)) as Hs.
  unfold set_tunnels. destruct (SaveConfig disk _) as [[[]|e] m']; [|done]. simpl in *.
  destruct (tc_Autostart tc); [|done]. by destruct (startOne_grows tc m' Hs) as [[] _].
Qed.

Lemma Remove_inv name disk m : m_inv m -> m_inv (Remove name disk m).2.
Proof.
  intros Hi. unfold Remove. destruct (stop_if_running_spec name m Hi) as [Hs _].
  case_decide; [done|]. by apply SaveConfig_inv, m_set_cfg_inv.
Qed.

Lemma Enable_inv name disk m : m_inv m -> m_inv (Enable name disk m).2.
Proof.
  intros Hi. unfold Enable. case_decide; [done|].
  pose proof (SaveConfig_inv disk _ (m_set_cfg_inv (m_cfg (set_autostart (findConfig name m) true m)) m Hi)) as Hs.
  change (m_set_cfg _ m) with (set_autostart (findConfig name m) true m) in Hs.
  destruct (SaveConfig disk _) as [[[]|e] m']; [|done]. simpl in Hs.
  destruct (m_tunnels m' !! name); [done|].
  by destruct (startOne_grows (config_at (findConfig name m) m') m' Hs) as [[] _].
Qed.

Lemma Disable_inv name disk m : m_inv m -> m_inv (Disable name disk m).2.
Proof.
  intros Hi. unfold Disable. case_decide; [done|].
  pose proof (SaveConfig_inv disk _ (m_set_cfg_inv (m_cfg (set_autostart (findConfig name m) false m)) m Hi)) as Hs.
  change (m_set_cfg _ m) with (set_autostart (findConfig name m) false m) in Hs.
  destruct (SaveConfig disk _) as [[[]|e] m']; [|done]. by apply stop_if_running_spec.
Qed.

Lemma Restart_inv name m : m_inv m -> m_inv (Restart name m).2.
Proof.
  intros Hi. unfold Restart. case_decide; [done|]. destruct (stop_if_running_spec name m Hi) as [Hs _].
  by destruct (startOne_grows (config_at (findConfig name m) (stop_if_running name m)) _ Hs) as [[] _].
Qed.

Lemma Reload_inv file m : m_inv m -> m_inv (Reload file m).2.
Proof.
  intros Hi. unfold Reload. destruct (LoadConfig file) as [c|e]; [|done]. simpl.
  rewrite stopLocked_entries. destruct (stop_entries_all (fun _ => true) m Hi) as [Hs _].
  rewrite startLocked_all. by apply start_all_spec, m_set_cfg_inv.
Qed.

Lemma handle_inv method e m : m_inv m -> m_inv (handle method e m).2.
Proof.
  intros Hi. destruct method as [| |p|p|p|p|p|p|p| |p|p| |s]; simpl; try done;
    try (destruct p; simpl; [|done]).
  - rewrite stopLocked_entries. by apply stop_entries_all.
  - rewrite StopGroup_entries. by apply stop_entries_all.
  - rewrite StartGroup_all. by apply start_all_spec.
  - by apply Add_inv.
  - by apply Remove_inv.
  - by apply Enable_inv.
  - by apply Disable_inv.
  - by apply Restart_inv.
  - by apply SaveConfig_inv.
  - done.
  - done.
  - by apply Reload_inv.
Qed.

Lemma task_apply_frame now ev tk :
  tk_cfg (task_apply now ev tk) = tk_cfg tk /\ tk_cancelled (task_apply now ev tk) = tk_cancelled tk.
Proof. by destruct ev as [| |[]]. Qed.

Lemma m_step_inv m m' : m_step m m' -> m_inv m -> m_inv m'.
Proof.
  intros Hs Hi. destruct Hs as [|method id e resp m' E|t tk now ev Htk Hd].
  - rewrite startLocked_all. by apply start_all_spec.
  - unfold HandleControl in E. pose proof (handle_inv method e m Hi) as H.
    destruct (handle method e m). by injection E as <- <-.
  - destruct (task_apply_frame now ev tk) as [Hc Hx]. destruct Hi as [Ht Hl Hp]. constructor; simpl; [| |done].
    + intros n i Hn. destruct (Ht n i Hn) as (x & Hxi & ? & ?). destruct (decide (i = t)) as [->|].
      * exists (task_apply now ev tk). rewrite list_lookup_insert_eq by (by eapply lookup_lt_Some).
        split; [done|]. split; congruence.
      * exists x. by rewrite list_lookup_insert_ne.
    + intros i x [(<- & <- & _)|[? ?]]%list_lookup_insert_Some Hxc; [|by apply Hl].
      rewrite Hc. apply Hl; [done|congruence].
Qed.

#[export] Instance manager_preserves : Preserves m_step m_inv := m_step_inv.

Lemma NewManager_inv cfg disk : m_inv (NewManager cfg disk).
Proof. by constructor. Qed.

(** [findConfig] of a tunnel known to be the first of its name. *)
Lemma findConfig_first name m a x b :
  c_Tunnels (m_cfg m) = a ++ x :: b -> tc_Name x = name -> Forall (fun tc => tc_Name tc <> name) a ->
  findConfig name m = zlen a.
Proof.
  intros Hc Hx Ha. unfold findConfig. rewrite Hc. clear Hc.
  assert (forall i, find_index name i (a ++ x :: b) = i + zlen a) as ->; [|lia].
  induction Ha as [|y a Hy Ha IH]; intros i; simpl; [rewrite decide_True by done; unfold zlen; simpl; lia|].
  rewrite decide_False by done. rewrite IH, zlen_cons. lia.
Qed.

(** Starting and stopping touch neither the configuration nor the file. *)
Lemma startOne_config tc m : m_disk (startOne tc m).2 = m_disk m /\ m_cfg (startOne tc m).2 = m_cfg m.
Proof. unfold startOne. destruct (m_tunnels m !! _); [done|]. by destruct (run_fn tc). Qed.

Lemma stop_if_running_config name m :
  m_disk (stop_if_running name m) = m_disk m /\ m_cfg (stop_if_running name m) = m_cfg m.
Proof.
  unfold stop_if_running, stopTunnelLocked, cancel. destruct (m_tunnels m !! name) as [t|]; [|done].
  by destruct (m_tasks m !! t) as [[? ? ? [] ? ?]|].
Qed.

Definition running (name : string) (m : Manager) : Prop := is_Some (m_tunnels m !! name).

(** ** Properties *)

(** C4: the manager never loses or doubles a tunnel: in every reachable state
    the table has exactly the goroutines that have not been cancelled, each
    under the name of its configuration -- so at most one per name, whatever
    the configuration file says -- and no cancel channel was closed twice,
    which would crash the daemon. *)
Theorem manager_consistent (cfg : Config) (disk : option Config) (m : Manager) :
  rtc m_step (NewManager cfg disk) m ->
  m_panic m = false
  /\ (forall name t, m_tunnels m !! name = Some t <->
       exists tk, m_tasks m !! t = Some tk /\ tk_cancelled tk = false /\ tc_Name (tk_cfg tk) = name)
  /\ (forall t1 t2 k1 k2, m_tasks m !! t1 = Some k1 -> m_tasks m !! t2 = Some k2 ->
       tk_cancelled k1 = false -> tk_cancelled k2 = false -> tc_Name (tk_cfg k1) = tc_Name (tk_cfg k2) -> t1 = t2).
Proof.
  intros Hr. destruct (reachable (inv := m_inv) _ _ Hr (NewManager_inv cfg disk)) as [Ht Hl Hp]. split_and!; [done| |].
  - intros name t. split; [apply Ht|]. intros (tk & Htk & Hc & <-). by apply Hl.
  - intros t1 t2 k1 k2 H1 H2 C1 C2 Hn. pose proof (Hl t1 k1 H1 C1). pose proof (Hl t2 k2 H2 C2). congruence.
Qed.

Definition demo_tc (name mode : string) : TunnelConfig :=
  mkTC name mode "127.0.0.1:8080" "db:80" "" "" false "" "" false false "" "" true "" [] 0 "" "" "".
Definition demo_cfg : Config := mkConfig [demo_tc "web" "local"; demo_tc "bad" "nope"] (mkGlobal "" "").

Lemma manager_consistent_witness :
  let m := startLocked (NewManager demo_cfg None) in
  m_panic m = false /\ m_tunnels m !! "web" = Some 0%nat.
Proof.
  intros m. destruct (manager_consistent demo_cfg None m) as (H & _).
  - eapply rtc_l; [apply ms_start|apply rtc_refl].
  - split; [exact H|reflexivity].
Defined.

(** C23: a reload replaces everything: if the file can be read, the running
    tunnels afterwards are exactly the autostart tunnels of the new
    configuration with a known mode, each freshly started from it, and every
    goroutine of before is cancelled; otherwise nothing changes.  A missing
    file counts as an empty configuration. *)
Theorem Reload_exact (file : read_result) (m : Manager) :
  m_inv m ->
  match LoadConfig file with
  | Err e => Reload file m = (Err (Wrapf "reload config: %w" [] e), m)
  | Ok c => exists m', Reload file m = (Ok tt, m') /\ m_cfg m' = c
      /\ (forall name, running name m' <->
           exists tc, tc ∈ c_Tunnels c /\ tc_Autostart tc = true /\ run_fn tc <> None /\ tc_Name tc = name)
      /\ (forall name t, m_tunnels m' !! name = Some t -> (length (m_tasks m) <= t)%nat
           /\ exists tc, tc ∈ c_Tunnels c /\ tc_Autostart tc = true /\ tk_cfg <$> m_tasks m' !! t = Some tc)
      /\ (forall t tk, (t < length (m_tasks m))%nat -> m_tasks m' !! t = Some tk -> tk_cancelled tk = true)
  end.
Proof.
  intros Hi. unfold Reload. destruct (LoadConfig file) as [c|e]; [|done]. eexists. split; [done|].
  rewrite stopLocked_entries, startLocked_all.
  destruct (stop_entries_all (fun _ => true) m Hi) as (Hs & Hcf & Hdk & Hlen & Htab).
  set (m1 := stop_entries _ _ m) in *.
  assert (forall n t, m_tunnels m1 !! n <> Some t) as Hnone by (intros n t Hx; by apply Htab in Hx as [_ ?]).
  destruct (start_all_spec tc_Autostart (c_Tunnels c) (m_set_cfg c m1) (m_set_cfg_inv c m1 Hs)) as (G & Hin & Hout).
  cbn [m_set_cfg m_cfg] in *. set (m2 := start_all _ _ _) in *. rewrite <-Hlen.
  assert (forall n t, m_tunnels m2 !! n = Some t -> exists tc, tc ∈ c_Tunnels c /\ tc_Autostart tc = true
    /\ run_fn tc <> None /\ n = tc_Name tc /\ tk_cfg <$> m_tasks m2 !! t = Some tc /\ (length (m_tasks m1) <= t)%nat) as Hnew.
  { intros n t Hx. destruct (Hout n t Hx) as [Hx'|?]; [|done]. by destruct (Hnone n t Hx'). }
  split_and!.
  - apply (gr_cfg _ _ G).
  - intros name. split.
    + intros [t Ht]. destruct (Hnew name t Ht) as (tc & ? & ? & ? & ? & _). by exists tc.
    + intros (tc & ? & ? & ? & <-). by apply Hin.
  - intros name t Ht. destruct (Hnew name t Ht) as (tc & ? & ? & _ & _ & ? & ?). split; [done|]. by exists tc.
  - intros t tk Hlt Htk. destruct (tk_cancelled tk) eqn:Ec; [done|].
    pose proof (mi_live _ (gr_inv _ _ G) t tk Htk Ec) as Hx. destruct (Hnew _ t Hx) as (? & _ & _ & _ & _ & _ & ?). lia.
Qed.

Lemma Reload_exact_witness :
  exists m', Reload (ReadConfig demo_cfg) (NewManager DefaultConfig None) = (Ok tt, m') /\ running "web" m'.
Proof.
  destruct (Reload_exact (ReadConfig demo_cfg) (NewManager DefaultConfig None) (NewManager_inv _ _))
    as (m' & H & _ & Hrun & _).
  exists m'. split; [exact H|]. apply Hrun. exists (demo_tc "web" "local").
  split; [left|]. split; [reflexivity|]. split; [discriminate|reflexivity].
Defined.



(** C38: when the saved file and the manager agree: a control request that
    changes the configuration and is answered without an error has saved it,
    and no other request but a reload touches configuration or file.  The
    converse fails: when the file cannot be written, [add] answers with an
    error but keeps the new tunnel, so that it is listed, cannot be added
    again, and is saved by the next request that succeeds. *)
Theorem config_persistence (method : Method) (e : env) (m : Manager) :
  let '(r, m') := handle method e m in
  (match method with
   | MAdd _ | MRemove _ | MEnable _ | MDisable _ | MSave => is_Ok r = true -> m_disk m' = Some (m_cfg m')
   | MReload => m_inv m -> m_disk m' = m_disk m
   | _ => m_inv m -> m_cfg m' = m_cfg m /\ m_disk m' = m_disk m
   end)
  /\ (forall tc err kept, method = MAdd (Ok tc) -> findConfig (tc_Name tc) m < 0 -> e_disk e = SaveFailed err kept ->
       r = Err (Wrapf "save config: %w" [] err) /\ c_Tunnels (m_cfg m') = c_Tunnels (m_cfg m) ++ [tc]
       /\ m_disk m' = if kept then m_disk m else None).
Proof.
  destruct (handle method e m) as [r m'] eqn:E. split.
  - destruct method as [| |p|p|p|p|p|p|p| |p|p| |s]; simpl in E; try (destruct p; simpl in E);
      try (by injection E as <- <-).
    + injection E as <- <-. intros Hi. rewrite stopLocked_entries. by destruct (stop_entries_all (fun _ => true) m Hi) as (_ & ? & ? & _).
    + injection E as <- <-. intros Hi. rewrite StopGroup_entries. by destruct (stop_entries_all (in_group a) m Hi) as (_ & ? & ? & _).
    + injection E as <- <-. intros Hi. rewrite StartGroup_all.
      by destruct (start_all_spec (fun tc => bool_decide (tc_Group tc = a)) (c_Tunnels (m_cfg m)) m Hi) as ([] & _).
    + unfold Add in E. case_decide; [by injection E as <- <-|].
      destruct (e_disk e) as [|er kept]; simpl in E; [|by injection E as <- <-].
      destruct (tc_Autostart a); injection E as <- <-; intros _; [|done]. simpl.
      match goal with |- context [startOne a ?n] => destruct (startOne_config a n) as [-> ->] end. done.
    + unfold Remove in E. case_decide; [by injection E as <- <-|].
      destruct (e_disk e) as [|er kept]; simpl in E; by injection E as <- <-.
    + unfold Enable in E. case_decide; [by injection E as <- <-|].
      destruct (e_disk e) as [|er kept]; simpl in E; [|by injection E as <- <-].
      destruct (m_tunnels m !! a); injection E as <- <-; intros _; [done|]. simpl.
      match goal with |- context [startOne ?tc ?n] => destruct (startOne_config tc n) as [-> ->] end. done.
    + unfold Disable in E. case_decide; [by injection E as <- <-|].
      destruct (e_disk e) as [|er kept]; simpl in E; [|by injection E as <- <-].
      injection E as <- <-. intros _. simpl.
      match goal with |- context [stop_if_running a ?n] => destruct (stop_if_running_config a n) as [-> ->] end. done.
    + injection E as <- <-. intros _. unfold Restart. case_decide; [done|].
      match goal with |- context [startOne ?tc ?n] => destruct (startOne_config tc n) as [-> ->] end.
      by destruct (stop_if_running_config a m) as [-> ->].
    + destruct (e_disk e); simpl in E; by injection E as <- <-.
    + injection E as <- <-. intros Hi. unfold Reload. destruct (LoadConfig (e_file e)) as [c|er]; [|done].
      rewrite stopLocked_entries, startLocked_all.
      destruct (stop_entries_all (fun _ => true) m Hi) as (Hs & _ & Hd & _).
      destruct (start_all_spec tc_Autostart (c_Tunnels c) _ (m_set_cfg_inv c _ Hs)) as ([_ _ Hd' _ _] & _).
      simpl in *. congruence.
  - intros tc err kept -> Hf He. simpl in E. unfold Add in E. rewrite decide_False in E by lia. rewrite He in E.
    simpl in E. by injection E as <- <-.
Qed.

Lemma config_persistence_witness :
  m_disk (handle (MAdd (Ok (demo_tc "api" "dynamic"))) (mkEnv Saved ReadMissing (NewLogBuffer 5))
            (NewManager demo_cfg None)).2
  = Some (mkConfig (c_Tunnels demo_cfg ++ [demo_tc "api" "dynamic"]) (c_Global demo_cfg)).
Proof.
  pose proof (config_persistence (MAdd (Ok (demo_tc "api" "dynamic"))) (mkEnv Saved ReadMissing (NewLogBuffer 5))
    (NewManager demo_cfg None)) as H.
  destruct (handle _ _ _) as [r m'] eqn:E. destruct H as [H _]. simpl in E. injection E as <- <-.
  apply H. reflexivity.
Defined.

(** A tunnel that failed cannot be started again by starting it: when its
    goroutine has returned (the port was taken, say) but nobody stopped it, its
    table entry remains, and [enable], [start-group] and start-up count it as
    running and start nothing; only [restart] (or a reload) does. *)
Theorem failed_tunnel_not_restarted (name : string) (t : nat) (tk : task) (m : Manager) (a b : list TunnelConfig)
    (x : TunnelConfig) :
  m_inv m -> m_tunnels m !! name = Some t -> m_tasks m !! t = Some tk -> tk_done tk = true ->
  c_Tunnels (m_cfg m) = a ++ x :: b -> tc_Name x = name -> Forall (fun tc => tc_Name tc <> name) a ->
  ((Enable name Saved m).1 = Ok tt /\ m_tasks (Enable name Saved m).2 = m_tasks m)
  /\ (forall tc, tc_Name tc = name -> startOne tc m = (Ok tt, m))
  /\ (forall g, m_tunnels (StartGroup g m) !! name = Some t /\ m_tasks (StartGroup g m) !! t = Some tk)
  /\ (run_fn x <> None -> m_tunnels (Restart name m).2 !! name = Some (length (m_tasks m))).
Proof.
  intros Hi Ht Htk Hdone Hc Hx Ha. pose proof (findConfig_first name m a x b Hc Hx Ha) as Hf. pose proof (zlen_nonneg a).
  split_and!.
  - unfold Enable. rewrite Hf, decide_False by lia. simpl. by rewrite Ht.
  - unfold Enable. rewrite Hf, decide_False by lia. simpl. by rewrite Ht.
  - intros tc Hn. unfold startOne. by rewrite Hn, Ht.
  - intros g. rewrite StartGroup_all.
    destruct (start_all_spec (fun tc => bool_decide (tc_Group tc = g)) (c_Tunnels (m_cfg m)) m Hi) as (G & _ & _).
    split; [eapply lookup_weaken; [exact Ht|apply (gr_table _ _ G)]|].
    by eapply prefix_lookup_Some, (gr_tasks _ _ G).
  - intros Hr. destruct (stop_if_running_spec name m Hi) as (_ & Hst & Hsc & _ & Hsl).
    unfold Restart. rewrite Hf, decide_False by lia.
    assert (config_at (zlen a) (stop_if_running name m) = x) as -> by (unfold config_at; by rewrite Hsc, Hc, lookup_middle).
    unfold startOne. rewrite Hx, Hst, lookup_delete_eq. destruct (run_fn x); [|done]. simpl.
    by rewrite lookup_insert_eq, Hsl.
Qed.

(** The listener of [web] cannot be opened. *)
Definition demo_return : task_event := EvReturn (Some (OsError "address already in use")) "proxy failed".
Definition demo_task : task := new_task (demo_tc "web" "local") RunLocal.
Definition demo_started : Manager := startLocked (NewManager demo_cfg None).
Definition demo_failed : Manager :=
  m_set_tasks (<[0%nat := task_apply 1 demo_return demo_task]> (m_tasks demo_started)) demo_started.

Lemma failed_tunnel_not_restarted_witness :
  m_tasks (Enable "web" Saved demo_failed).2 = m_tasks demo_failed
  /\ s_Status <$> List_ demo_failed = ["error"%string; "stopped"%string].
Proof.
  split; [|reflexivity].
  destruct (failed_tunnel_not_restarted "web" 0%nat (task_apply 1 demo_return demo_task)
    demo_failed [] [demo_tc "bad" "nope"] (demo_tc "web" "local")) as ((_ & H) & _).
  - apply (m_step_inv demo_started); [|apply (m_step_inv (NewManager demo_cfg None)); [apply ms_start|apply NewManager_inv]].
    apply (ms_task demo_started 0%nat demo_task 1 demo_return); reflexivity.
  - reflexivity.
  - reflexivity.
  - reflexivity.
  - reflexivity.
  - reflexivity.
  - constructor.
  - exact H.
Defined.
