(* ===== verification/ConfigFile.v ===== *)
(** * The configuration file ([src/manager/config.go]) and a restart

    [LoadConfig] and [SaveConfig] on a file system, with the codec
    (gopkg.in/yaml.v3) as the class [Yaml] and its laws.  They refine the
    outcomes [read_result] and [save_result] that [Manager.v] works with, and
    with the manager they show what a control request leaves behind for the
    next daemon. *)
From S2P Require Import Prelude GoStrings Paths Specs LogBuffer Manager.

(** What the program relies on: a marshalled configuration reads back, and an
    empty document leaves the configuration as it was declared. *)
Class Yaml := {
  yaml_Marshal : Config -> result bytes;
  yaml_Unmarshal : bytes -> result Config;
  yaml_ok : Config -> Prop;
  yaml_Marshal_ok c : yaml_ok c -> exists data, yaml_Marshal c = Ok data;
  yaml_Unmarshal_Marshal c data : yaml_ok c -> yaml_Marshal c = Ok data -> yaml_Unmarshal data = Ok c;
  yaml_Unmarshal_empty : yaml_Unmarshal [] = Ok DefaultConfig;
}.

Section ConfigFile.
Context `{!Yaml}.
Variable home : string.       (* [$HOME] *)
Variable env : string.        (* [$TUNNEL_CONFIG] *)

(** [LoadConfig(path)]; [failed] is an error of reading an existing file. *)
Definition load_file (path : string) (failed : option error) (fs : files) : result Config :=
  let path := load_path path env (ConfigPath home) in
  match failed with
  | Some e => Err e
  | None =>
      match fs !! path with
      | None => Ok DefaultConfig
      | Some data => yaml_Unmarshal data
      end
  end.

(** [SaveConfig(cfg, path)]; [mkdir] and [written] are the outcomes of
    [os.MkdirAll] and [os.WriteFile]. *)
Definition save_file (cfg : Config) (path : string) (mkdir : result unit) (written : write_outcome) (fs : files)
    : result unit * files :=
  let path := save_path path (ConfigPath home) in
  match mkdir with
  | Err e => (Err e, fs)
  | Ok _ =>
      match yaml_Marshal cfg with
      | Err e => (Err e, fs)
      | Ok data => WriteFile path data written fs
      end
  end.

(** ** The outcomes the manager sees *)

Definition read_outcome (path : string) (failed : option error) (fs : files) : read_result :=
  match failed with
  | Some e => ReadFailed e
  | None =>
      match fs !! load_path path env (ConfigPath home) with
      | None => ReadMissing
      | Some data => match yaml_Unmarshal data with Ok c => ReadConfig c | Err e => ReadFailed e end
      end
  end.

Definition save_outcome (mkdir : result unit) (written : write_outcome) : save_result :=
  match mkdir with
  | Err e => SaveFailed e true
  | Ok _ => match written with Written => Saved | WriteRefused e => SaveFailed e true | WriteCut e _ => SaveFailed e false end
  end.

(** The file holds what the manager takes for saved. *)
Definition disk_agrees (path : string) (m : Manager) (fs : files) : Prop :=
  forall c, m_disk m = Some c -> load_file path None fs = Ok c.

(** ** Lemmas *)

Lemma load_file_outcome path failed fs : load_file path failed fs = LoadConfig (read_outcome path failed fs).
Proof.
  unfold load_file, read_outcome. destruct failed; [done|]. destruct (fs !! _) as [data|]; [|done].
  by destruct (yaml_Unmarshal data).
Qed.

(** The file-level functions are the ones of [Manager.v]. *)
Lemma save_file_outcome path mkdir written m fs :
  yaml_ok (m_cfg m) -> load_path path env (ConfigPath home) = save_path path (ConfigPath home) -> disk_agrees path m fs ->
  (SaveConfig (save_outcome mkdir written) m).1 = (save_file (m_cfg m) path mkdir written fs).1
  /\ disk_agrees path (SaveConfig (save_outcome mkdir written) m).2 (save_file (m_cfg m) path mkdir written fs).2.
Proof.
  intros Hok Hpath Hd. destruct (yaml_Marshal_ok _ Hok) as [data Hdata]. unfold save_file, save_outcome. rewrite Hdata.
  destruct mkdir; [|done]. destruct written; (split; [done|]); try done.
  intros c [= <-]. unfold load_file. simpl. rewrite Hpath, lookup_insert_eq. by eapply yaml_Unmarshal_Marshal.
Qed.

(** A successful save reads back. *)
Lemma save_load path mkdir written cfg fs fs' :
  yaml_ok cfg -> load_path path env (ConfigPath home) = save_path path (ConfigPath home) ->
  save_file cfg path mkdir written fs = (Ok tt, fs') -> load_file path None fs' = Ok cfg.
Proof.
  intros Hok Hpath. unfold save_file. destruct mkdir; [|done]. destruct (yaml_Marshal cfg) as [data|] eqn:E; [|done].
  destruct written; try done. intros [= <-]. unfold load_file. rewrite Hpath, lookup_insert_eq. by apply yaml_Unmarshal_Marshal.
Qed.
End ConfigFile.

(** The requests that save the configuration. *)
Definition saves (method : Method) : bool :=
  match method with
  | MAdd _ | MRemove _ | MEnable _ | MDisable _ | MSave => true
  | _ => false
  end.

(** When one of them succeeds, the file was written, with what the manager has
    afterwards. *)
Lemma saves_ok method e m r m' :
  saves method = true -> handle method e m = (Ok r, m') ->
  e_disk e = Saved /\ m_disk m' = Some (m_cfg m').
Proof.
  intros Hs E. destruct method as [| |p|p|p|p|p|p|p| |p|p| |s]; try done; simpl in E; try (destruct p; simpl in E; [|done]).
  - unfold Add in E. case_decide; [done|]. destruct (e_disk e) as [|er kept]; simpl in E; [|done]. split; [done|].
    destruct (tc_Autostart a).
    + pose proof (startOne_config a (mkM (m_cfg (set_tunnels (c_Tunnels (m_cfg m) ++ [a]) m)) (m_tunnels m) (m_tasks m)
        (Some (m_cfg (set_tunnels (c_Tunnels (m_cfg m) ++ [a]) m))) (m_panic m))) as [H1 H2].
      simpl in *. destruct (startOne a _) as [[[]|] m1]; [|done]. injection E as <- <-. simpl in *. congruence.
    + by injection E as <- <-.
  - unfold Remove in E. case_decide; [done|]. destruct (e_disk e) as [|er kept]; simpl in E; [|done]. by injection E as <- <-.
  - unfold Enable in E. case_decide; [done|]. destruct (e_disk e) as [|er kept]; simpl in E; [|done]. split; [done|].
    destruct (m_tunnels m !! a); [by injection E as <- <-|].
    match type of E with context [startOne ?tc ?n] => pose proof (startOne_config tc n) as [H1 H2]; destruct (startOne tc n) as [[[]|] m1]; [|done] end.
    injection E as <- <-. simpl in *. congruence.
  - unfold Disable in E. case_decide; [done|]. destruct (e_disk e) as [|er kept]; simpl in E; [|done]. split; [done|].
    injection E as <- <-.
    match goal with |- context [stop_if_running a ?n] => pose proof (stop_if_running_config a n) as [H1 H2] end. simpl in *. congruence.
  - destruct (e_disk e) as [|er kept]; simpl in E; [|done]. by injection E as <- <-.
Qed.

Lemma save_outcome_saved mkdir written : save_outcome mkdir written = Saved -> is_Ok mkdir = true /\ written = Written.
Proof. destruct mkdir, written; done. Qed.

(** ** Properties *)


(** A codec that knows one configuration. *)
Definition demo_added : Config := mkConfig (c_Tunnels demo_cfg ++ [demo_tc "api" "dynamic"]) (c_Global demo_cfg).

#[refine] Definition demo_yaml : Yaml := {|
  yaml_Marshal c := Ok [x79];
  yaml_Unmarshal data := match data with [] => Ok DefaultConfig | _ => Ok demo_added end;
  yaml_ok c := c = demo_added;
|}.
Proof.
  - by eauto.
  - by intros c data -> [= <-].
  - done.
Defined.


(** With [TUNNEL_CONFIG] set to another file the daemon reads that one and
    saves to the default one: whatever is saved, the next daemon does not see
    it. *)
Theorem tunnel_config_not_saved `{!Yaml} (home env : string) (cfg : Config) (mkdir : result unit) (written : write_outcome)
    (failed : option error) (fs : files) :
  env <> ""%string -> env <> ConfigPath home ->
  load_file home env "" failed (save_file home cfg "" mkdir written fs).2 = load_file home env "" failed fs.
Proof.
  intros Hne Hdef. unfold load_file, save_file, load_path, save_path. rewrite (decide_True (P := ""%string = ""%string)) by done.
  rewrite !(decide_False (P := env = ""%string)) by done. rewrite (decide_True (P := ""%string = ""%string)) by done.
  destruct failed, mkdir; try done. destruct (yaml_Marshal cfg); [|done]. destruct written; try done; simpl; by rewrite lookup_insert_ne.
Qed.

(** [os.WriteFile] truncates the file before it writes: when nothing can be
    written (a full disk), the file is empty, and the next daemon starts
    without any tunnel and without an error. *)
Theorem failed_save_loses_all `{!Yaml} (home env : string) (cfg : Config) (e : error) (fs : files) :
  yaml_ok cfg -> load_path "" env (ConfigPath home) = save_path "" (ConfigPath home) ->
  let '(r, fs') := save_file home cfg "" (Ok tt) (WriteCut e 0) fs in
  r = Err e /\ load_file home env "" None fs' = Ok DefaultConfig.
Proof.
  intros Hok Hpath. unfold save_file. destruct (yaml_Marshal_ok _ Hok) as [data ->]. split; [done|].
  unfold load_file. rewrite Hpath, lookup_insert_eq, take_0. apply yaml_Unmarshal_empty.
Qed.
