(* ===== verification/Logging.v ===== *)
(** * Where the log goes ([src/manager/logging.go], start of [runDaemon] in
    [src/main.go])

    The output of package [log] as a [writer]: the standard error, the log file
    of the configuration, the buffer of [LogBuffer.v], or two of them behind
    [io.MultiWriter].  One entry is one call of [Write], whose result the
    package ignores. *)
From S2P Require Import Prelude GoStrings Paths Specs LogBuffer Manager.
Open Scope string_scope.

Inductive writer :=
  | Stderr
  | LogFile (path : string)            (* opened with [O_APPEND] *)
  | Buffer                             (* [defaultLogBuffer] *)
  | MultiWriter (first second : writer).

Record sinks := mkSinks { sk_stderr : bytes; sk_files : files; sk_buffer : LogBuffer }.

(** [w.Write(p)]; [fault] says which writes fail.  [MultiWriter] stops at the
    first of its writers that fails. *)
Fixpoint emit (fault : writer -> option error) (w : writer) (p : bytes) (s : sinks) : result unit * sinks :=
  match w with
  | MultiWriter a b =>
      match emit fault a p s with
      | (Err e, s) => (Err e, s)
      | (Ok _, s) => emit fault b p s
      end
  | _ =>
      match fault w with
      | Some e => (Err e, s)
      | None =>
          (Ok tt,
           match w with
           | LogFile path => mkSinks (sk_stderr s) (<[path := (default [] (sk_files s !! path) ++ p)%list]> (sk_files s)) (sk_buffer s)
           | Buffer => mkSinks (sk_stderr s) (sk_files s) (LogBuffer.Write p (sk_buffer s)).2
           | _ => mkSinks (sk_stderr s ++ p)%list (sk_files s) (sk_buffer s)
           end)
      end
  end.

(** [SetupLogFile(path)]; [opened] is the outcome of [os.OpenFile]. *)
Definition SetupLogFile (path : string) (opened : result unit) (out : writer) (s : sinks) : result unit * writer * sinks :=
  match opened with
  | Err e => (Err (Wrapf "open log file: %w" [] e), out, s)
  | Ok _ =>
      (Ok tt, LogFile path,
       mkSinks (sk_stderr s) (<[path := default [] (sk_files s !! path)]> (sk_files s)) (sk_buffer s))
  end.

Definition InstallLogCapture (orig : option writer) : writer := MultiWriter (default Stderr orig) Buffer.

(** The start of [runDaemon]; [entry] is the log entry for an error. *)
Definition setup_logging (fault : writer -> option error) (entry : error -> bytes) (g : GlobalConfig) (opened : result unit)
    (out : writer) (s : sinks) : writer * sinks :=
  let '(out, s) :=
    if decide (g_LogFile g <> "") then
      match SetupLogFile (g_LogFile g) opened out s with
      | (Err e, out, s) => (out, (emit fault out (entry (Wrapf "log file: %v" [] e)) s).2)
      | (Ok _, out, s) => (out, s)
      end
    else (out, s) in
  (InstallLogCapture (Some out), s).

(** Entries logged one after the other. *)
Definition log_entries (fault : writer -> option error) (out : writer) (ps : list bytes) (s : sinks) : sinks :=
  foldl (fun s p => (emit fault out p s).2) s ps.

(** ** Lemmas *)

Lemma log_entries_cons fault out p ps s :
  log_entries fault out (p :: ps) s = log_entries fault out ps (emit fault out p s).2.
Proof. done. Qed.

Lemma log_to_stderr ps s :
  log_entries (fun _ => None) (MultiWriter Stderr Buffer) ps s =
    mkSinks (sk_stderr s ++ concat ps)%list (sk_files s) (Writes ps (sk_buffer s)).
Proof.
  revert s. induction ps as [|p ps IH]; intros [err fs lb]; [simpl; by rewrite app_nil_r|].
  rewrite log_entries_cons, IH. simpl. by rewrite <-app_assoc.
Qed.

Lemma log_to_file path old ps s :
  sk_files s !! path = Some old ->
  log_entries (fun _ => None) (MultiWriter (LogFile path) Buffer) ps s =
    mkSinks (sk_stderr s) (<[path := (old ++ concat ps)%list]> (sk_files s)) (Writes ps (sk_buffer s)).
Proof.
  revert old s. induction ps as [|p ps IH]; intros old [err fs lb] Hold; simpl in Hold.
  - simpl. by rewrite app_nil_r, insert_id.
  - rewrite log_entries_cons, (IH (old ++ p)%list); simpl; rewrite Hold; [|by rewrite lookup_insert_eq].
    simpl. by rewrite insert_insert_eq, <-app_assoc.
Qed.

(** ** Properties *)

(** The log of the daemon.  As long as writing works every entry is in the
    buffer that [tunnel logs] reads, and at the end of exactly one other place:
    the log file, if one is configured and could be opened, behind what was in
    it before; the standard error otherwise, where the reason comes first. *)
Theorem daemon_log (entry : error -> bytes) (g : GlobalConfig) (opened : result unit) (ps : list bytes) (s : sinks) :
  let fault := fun _ => None in
  let '(out, s1) := setup_logging fault entry g opened Stderr s in
  let s2 := log_entries fault out ps s1 in
  sk_buffer s2 = Writes ps (sk_buffer s)
  /\ (g_LogFile g <> "" -> opened = Ok tt ->
        sk_stderr s2 = sk_stderr s
        /\ sk_files s2 = <[g_LogFile g := (default [] (sk_files s !! g_LogFile g) ++ concat ps)%list]> (sk_files s))
  /\ (g_LogFile g = "" -> sk_stderr s2 = (sk_stderr s ++ concat ps)%list /\ sk_files s2 = sk_files s)
  /\ (forall e, g_LogFile g <> "" -> opened = Err e ->
        sk_stderr s2 = (sk_stderr s ++ entry (Wrapf "log file: %v" [] (Wrapf "open log file: %w" [] e)) ++ concat ps)%list
        /\ sk_files s2 = sk_files s).
Proof.
  intros fault. unfold setup_logging, InstallLogCapture. destruct (decide (g_LogFile g = "")) as [He|He].
  - rewrite (decide_False (P := g_LogFile g <> "")) by auto. simpl. unfold fault. rewrite log_to_stderr. by split_and!.
  - rewrite (decide_True (P := g_LogFile g <> "")) by done. destruct opened as [[]|e]; simpl; unfold fault.
    + rewrite (log_to_file _ (default [] (sk_files s !! g_LogFile g))) by (simpl; by rewrite lookup_insert_eq).
      simpl. by rewrite insert_insert_eq.
    + rewrite log_to_stderr. simpl. split_and!; try done. intros e' _ [= <-]. by rewrite <-app_assoc.
Qed.

(** The buffer comes behind the file, and [MultiWriter] stops at an error:
    while the log file cannot be written (its disk is full), entries reach the
    buffer no more than the file, and [tunnel logs] shows none of them. *)
Theorem full_disk_hides_log (fault : writer -> option error) (path : string) (e : error) (ps : list bytes) (s : sinks) :
  fault (LogFile path) = Some e -> log_entries fault (InstallLogCapture (Some (LogFile path))) ps s = s.
Proof. intros Hf. induction ps as [|p ps IH]; [done|]. rewrite log_entries_cons. simpl. by rewrite Hf. Qed.
