(* ===== verification/Runner.v ===== *)
(** * What a tunnel's goroutine does ([runLocal], [runChain], [runDynamic],
    [runRemoteClient], [runRemoteClientMulti] and [runRemoteServer] in
    [src/manager/manager.go])

    A run function sets something up, reports its status and waits for [stop]
    or for the end of its [Serve] loop.  Its run is the list of the events the
    manager sees ([task_event] in [Manager.v]) and the error it returns; the
    outcomes of the set-up and what the ticker observes are an [outcomes]. *)
From S2P Require Import Prelude Transport Relay Proxy GoStrings Specs LogBuffer Manager.

(** Which case of the final [select] is taken. *)
Inductive wait := StopRequested | ServeReturned (r : result unit).

(** What one tick observes of a client: [IsConnected], [ReconnectCount]. *)
Definition observation : Type := bool * Z.

Record outcomes := mkOutcomes {
  oc_tls : result unit;                 (* [SetupTLS] *)
  oc_listen : result unit;              (* the constructor of the proxy or server *)
  oc_wait : wait;
  oc_ticks : list (list observation);   (* per tick, per client, until [stop] *)
}.

Definition outcome : Type := list task_event * option error.

Definition failed (e : error) : outcome := ([], Some e).

(** Listen, report, serve until [stop]. *)
Definition serve_tunnel (format : string) (o : outcomes) : outcome :=
  match oc_listen o with
  | Err e => failed (Wrapf format [] e)
  | Ok _ => ([EvStatus "listening"],
             match oc_wait o with StopRequested | ServeReturned (Ok _) => None | ServeReturned (Err e) => Some e end)
  end.

(** The TLS set-up several runners begin with. *)
Definition with_tls (tc : TunnelConfig) (o : outcomes) (k : outcome) : outcome :=
  if tc_TLS tc
  then match oc_tls o with Err e => failed (Wrapf "tls: %w" [] e) | Ok _ => k end
  else k.

Definition runLocal (tc : TunnelConfig) (o : outcomes) : outcome :=
  if decide (tc_Protocol tc = "udp") then
    if tc_TLS tc then failed (Errorf "tls is not supported with UDP" [])
    else serve_tunnel "udp proxy failed: %w" o
  else with_tls tc o (serve_tunnel "proxy failed: %w" o).

Definition runChain (tc : TunnelConfig) (o : outcomes) : outcome :=
  match NewChainProxy (tc_Hops tc) with
  | None => failed (Errorf "chain proxy nil" [])
  | Some _ => serve_tunnel "chain proxy failed: %w" o
  end.

Definition runDynamic (tc : TunnelConfig) (o : outcomes) : outcome := serve_tunnel "socks proxy failed: %w" o.

Definition runRemoteServer (tc : TunnelConfig) (o : outcomes) : outcome :=
  with_tls tc o (serve_tunnel "server: %w" o).

(** The remote spec of a client. *)
Definition with_spec (tc : TunnelConfig) (k : outcome) : outcome :=
  match manager_parseRemoteSpec (tc_Remote tc) with
  | Err e => failed (Wrapf "invalid remote spec: %w" [] e)
  | Ok _ => k
  end.

Definition client_tick (obs : list observation) : list task_event :=
  match obs with
  | (connected, n) :: _ =>
      [EvStatus (if connected : bool then "established" else "reconnecting"); EvReconnects n]
  | [] => []
  end.

Definition runRemoteClient (tc : TunnelConfig) (o : outcomes) : outcome :=
  with_tls tc o (with_spec tc (concat (client_tick <$> oc_ticks o), None)).

(** A tick over [n] clients; the sums are machine integers. *)
Definition connected_of (obs : list observation) : Z := zlen (filter (fun ob => ob.1 = true) obs).
Definition reconnects_of (obs : list observation) : Z := foldl (fun t ob => int64 (t + ob.2)) 0 obs.

Definition multi_tick (n : Z) (obs : list observation) : list task_event :=
  [EvStatus (multi_status (connected_of obs) n); EvReconnects (reconnects_of obs)].

Definition runRemoteClientMulti (tc : TunnelConfig) (o : outcomes) : outcome :=
  with_tls tc o (with_spec tc (concat (multi_tick (multi_clients (tc_Connections tc)) <$> oc_ticks o), None)).

Definition run (r : runner) (tc : TunnelConfig) (o : outcomes) : outcome :=
  match r with
  | RunLocal => runLocal tc o
  | RunChain => runChain tc o
  | RunDynamic => runDynamic tc o
  | RunRemoteClient => runRemoteClient tc o
  | RunRemoteClientMulti => runRemoteClientMulti tc o
  | RunRemoteServer => runRemoteServer tc o
  end.

(** The goroutine [startOne] starts; [Error] is the method [Error] of errors. *)
Definition run_task (Error : error -> string) (r : runner) (tc : TunnelConfig) (o : outcomes) : list task_event :=
  let '(evs, err) := run r tc o in
  EvStatus "starting" :: evs ++ [EvReturn err (match err with Some e => Error e | None => "" end)].

(** The state of the tunnel after its events, at the given times. *)
Definition run_events (now : Z) (evs : list task_event) (t : task) : task :=
  foldl (fun t ev => task_apply now ev t) t evs.

(** The statuses a list of events sets before the goroutine returns. *)
Definition statuses (evs : list task_event) : list string :=
  omap (fun ev => match ev with EvStatus s => Some s | _ => None end) evs.

(** The runners that listen; the others keep control connections. *)
Definition listens (r : runner) : bool :=
  match r with RunRemoteClient | RunRemoteClientMulti => false | _ => true end.

(** Whether the TLS set-up of a runner succeeds, where it has one. *)
Definition tls_ok (r : runner) (tc : TunnelConfig) (o : outcomes) : Prop :=
  match r with
  | RunChain | RunDynamic => True
  | RunLocal => tc_TLS tc = true -> tc_Protocol tc <> "udp" /\ is_Ok (oc_tls o) = true
  | _ => tc_TLS tc = true -> is_Ok (oc_tls o) = true
  end.

(** ** Lemmas *)

Lemma with_tls_cases tc o k :
  (with_tls tc o k = k /\ (tc_TLS tc = true -> is_Ok (oc_tls o) = true))
  \/ exists e, with_tls tc o k = failed e /\ tc_TLS tc = true /\ is_Ok (oc_tls o) = false.
Proof. unfold with_tls. destruct (tc_TLS tc), (oc_tls o) as [|e]; eauto. Qed.

Lemma serve_tunnel_cases format o :
  (is_Ok (oc_listen o) = true /\ (serve_tunnel format o).1 = [EvStatus "listening"]
    /\ ((serve_tunnel format o).2 = None <-> forall e, oc_wait o <> ServeReturned (Err e)))
  \/ exists e, is_Ok (oc_listen o) = false /\ serve_tunnel format o = failed e.
Proof.
  unfold serve_tunnel. destruct (oc_listen o) as [|e]; [left|right; eauto]. split; [done|]. split; [done|].
  destruct (oc_wait o) as [|[|e]]; simpl; split; try done. intros H. by destruct (H e).
Qed.

Lemma statuses_app k l : statuses (k ++ l) = statuses k ++ statuses l.
Proof. apply omap_app. Qed.

Lemma multi_status_client connected n :
  multi_status connected n ∈ ["established"; "degraded"; "reconnecting"]%string.
Proof. unfold multi_status. repeat case_decide; set_solver. Qed.

Lemma client_statuses (tick : list observation -> list task_event) ticks s :
  (forall obs, Forall (fun s => s ∈ ["established"; "degraded"; "reconnecting"]%string) (statuses (tick obs))) ->
  s ∈ statuses (concat (tick <$> ticks)) -> s ∈ ["established"; "degraded"; "reconnecting"]%string.
Proof.
  intros Ht. induction ticks as [|obs ticks IH]; simpl; [set_solver|].
  rewrite statuses_app. intros [Hin|Hin]%elem_of_app; [|by apply IH].
  by apply (proj1 (Forall_forall _ _) (Ht obs)).
Qed.

Lemma client_tick_statuses obs :
  Forall (fun s => s ∈ ["established"; "degraded"; "reconnecting"]%string) (statuses (client_tick obs)).
Proof. destruct obs as [|[[] n] obs]; simpl; repeat constructor; set_solver. Qed.

Lemma multi_tick_statuses n obs :
  Forall (fun s => s ∈ ["established"; "degraded"; "reconnecting"]%string) (statuses (multi_tick n obs)).
Proof. simpl. constructor; [apply multi_status_client|constructor]. Qed.

Lemma run_events_app now k l t : run_events now (k ++ l) t = run_events now l (run_events now k t).
Proof. apply foldl_app. Qed.

Definition quiet (ev : task_event) : Prop := match ev with EvReturn _ _ => False | _ => True end.

Lemma serve_tunnel_quiet format o : Forall quiet (serve_tunnel format o).1.
Proof. unfold serve_tunnel. destruct (oc_listen o); by repeat constructor. Qed.

Lemma with_tls_quiet tc o k : Forall quiet k.1 -> Forall quiet (with_tls tc o k).1.
Proof. unfold with_tls. intros. destruct (tc_TLS tc), (oc_tls o); by try constructor. Qed.

Lemma with_spec_quiet tc k : Forall quiet k.1 -> Forall quiet (with_spec tc k).1.
Proof. unfold with_spec. destruct (manager_parseRemoteSpec _); [done|by constructor]. Qed.

Lemma ticks_quiet (tick : list observation -> list task_event) ticks :
  (forall obs, Forall quiet (tick obs)) -> Forall quiet (concat (tick <$> ticks)).
Proof. intros Ht. induction ticks as [|obs ticks IH]; simpl; [constructor|]. apply Forall_app. by split. Qed.

(** A run function never returns twice. *)
Lemma run_quiet r tc o : Forall quiet (run r tc o).1.
Proof.
  destruct r; simpl.
  - unfold runLocal. case_decide; [destruct (tc_TLS tc); [constructor|]|apply with_tls_quiet]; apply serve_tunnel_quiet.
  - unfold runChain. destruct (NewChainProxy _); [apply serve_tunnel_quiet|constructor].
  - apply serve_tunnel_quiet.
  - apply with_tls_quiet, with_spec_quiet, ticks_quiet. intros [|[[] n] obs]; by repeat constructor.
  - apply with_tls_quiet, with_spec_quiet, ticks_quiet. intros obs. by repeat constructor.
  - apply with_tls_quiet, serve_tunnel_quiet.
Qed.

Lemma run_events_quiet now evs t : Forall quiet evs -> tk_lastErr (run_events now evs t) = tk_lastErr t.
Proof.
  intros Hq. revert t. induction Hq as [|ev evs He _ IH]; intros t; [done|].
  change (run_events now (ev :: evs) t) with (run_events now evs (task_apply now ev t)). rewrite IH. by destruct ev.
Qed.

Lemma ts_Set_status now s e ts : ts_Status (ts_Set now s e ts) = s /\ ts_LastErr (ts_Set now s e ts) = e.
Proof. unfold ts_Set. case_decide as Hs; [done|]. simpl. split; [|done]. by destruct (decide (ts_Status ts = s)). Qed.

(** The state the goroutine leaves behind. *)
Lemma run_task_final Error now r tc o :
  let t := run_events now (run_task Error r tc o) (new_task tc r) in
  let err := (run r tc o).2 in
  tk_done t = true /\ tk_lastErr t = err
  /\ ts_Status (tk_state t) = (if err then "error" else "stopped")%string
  /\ ts_LastErr (tk_state t) = match err with Some e => Error e | None => ""%string end.
Proof.
  intros t err. subst t. unfold run_task. pose proof (run_quiet r tc o) as Hq.
  destruct (run r tc o) as [evs e] eqn:E. simpl in err, Hq. subst err.
  rewrite app_comm_cons, run_events_app. set (t := run_events now (EvStatus "starting" :: evs) (new_task tc r)).
  assert (tk_lastErr t = None) as Hl by (unfold t; by rewrite run_events_quiet by (by constructor)).
  destruct e as [e|]; simpl.
  - destruct (ts_Set_status now "error" (Error e) (tk_state t)) as [-> ->]. done.
  - destruct (ts_Set_status now "stopped" "" (tk_state t)) as [-> ->]. done.
Qed.

(** What a listening runner reports and returns. *)
Lemma run_listening r tc o :
  run_fn tc = Some r -> listens r = true ->
  (tls_ok r tc o /\ is_Ok (oc_listen o) = true /\ (run r tc o).1 = [EvStatus "listening"]
     /\ ((run r tc o).2 = None <-> forall e, oc_wait o <> ServeReturned (Err e)))
  \/ (~ (tls_ok r tc o /\ is_Ok (oc_listen o) = true) /\ exists e, run r tc o = failed e).
Proof.
  intros Hr Hl. destruct r; try done; simpl.
  - unfold runLocal. destruct (decide (tc_Protocol tc = "udp")) as [Hp|Hp].
    + destruct (tc_TLS tc) eqn:Ht; [right; split; [|by eexists]; intros [H _]; by destruct (H eq_refl)|].
      destruct (serve_tunnel_cases "udp proxy failed: %w" o) as [(?&?&?)|(e & Hn & ->)]; [left; by split_and!|right].
      split; [rewrite Hn; by intros [_ ?]|by eexists].
    + destruct (with_tls_cases tc o (serve_tunnel "proxy failed: %w" o)) as [[-> Ht]|(e & -> & Ht & Hn)].
      * destruct (serve_tunnel_cases "proxy failed: %w" o) as [(?&?&?)|(e & Hn & ->)]; [left; split_and!; auto|right].
        split; [rewrite Hn; by intros [_ ?]|by eexists].
      * right. split; [|by eexists]. intros [H _]. destruct (H Ht) as [_ H']. by rewrite Hn in H'.
  - unfold runChain. destruct (tc_Hops tc) as [|h hs] eqn:Eh.
    { unfold run_fn in Hr. rewrite Eh in Hr. repeat case_decide; try discriminate Hr. done. }
    simpl. destruct (serve_tunnel_cases "chain proxy failed: %w" o) as [(?&?&?)|(e & Hn & ->)]; [left; by split_and!|right].
    split; [rewrite Hn; by intros [_ ?]|by eexists].
  - unfold runDynamic. destruct (serve_tunnel_cases "socks proxy failed: %w" o) as [(?&?&?)|(e & Hn & ->)]; [left; by split_and!|right].
    split; [rewrite Hn; by intros [_ ?]|by eexists].
  - unfold runRemoteServer. destruct (with_tls_cases tc o (serve_tunnel "server: %w" o)) as [[-> Ht]|(e & -> & Ht & Hn)].
    + destruct (serve_tunnel_cases "server: %w" o) as [(?&?&?)|(e & Hn & ->)]; [left; split_and!; auto|right].
      split; [rewrite Hn; by intros [_ ?]|by eexists].
    + right. split; [|by eexists]. intros [H _]. specialize (H Ht). by rewrite Hn in H.
Qed.

(** What a remote client reports and returns. *)
Lemma run_client r tc o :
  listens r = false ->
  Forall (fun s => s ∈ ["established"; "degraded"; "reconnecting"]%string) (statuses (run r tc o).1)
  /\ ((run r tc o).2 = None <-> tls_ok r tc o /\ is_Ok (manager_parseRemoteSpec (tc_Remote tc)) = true).
Proof.
  intros Hl.
  assert (forall tick : list observation -> list task_event,
    (forall obs, Forall (fun s => s ∈ ["established"; "degraded"; "reconnecting"]%string) (statuses (tick obs))) ->
    let k := with_tls tc o (with_spec tc (concat (tick <$> oc_ticks o), None)) in
    Forall (fun s => s ∈ ["established"; "degraded"; "reconnecting"]%string) (statuses k.1)
    /\ (k.2 = None <-> (tc_TLS tc = true -> is_Ok (oc_tls o) = true)
         /\ is_Ok (manager_parseRemoteSpec (tc_Remote tc)) = true)) as H.
  { intros tick Ht k. unfold k. destruct (with_tls_cases tc o (with_spec tc (concat (tick <$> oc_ticks o), None)))
      as [[-> Hok]|(e & -> & Htls & Hn)].
    - unfold with_spec. destruct (manager_parseRemoteSpec (tc_Remote tc)); simpl.
      + split; [|by split]. apply Forall_forall. intros s Hs. by eapply client_statuses.
      + split; [constructor|]. split; [done|by intros [_ ?]].
    - split; [constructor|]. split; [done|]. intros [H _]. specialize (H Htls). by rewrite Hn in H. }
  destruct r; try done; [apply (H _ client_tick_statuses)|apply (H _ (multi_tick_statuses _))].
Qed.

(** ** Properties *)


(** A local tunnel whose port is taken, and one that is stopped. *)
Definition demo_outcomes (listen : result unit) : outcomes := mkOutcomes (Ok tt) listen StopRequested [].

