(* ===== verification/Control.v ===== *)
(** * The control socket ([src/manager/control.go], the request side of
    [HandleControl] in [manager.go])

    A client sends one request over a connection and reads one response.  The
    JSON codec is an interface, [Json]: its laws say that a value it can
    represent ([json_ok], text in valid UTF-8) decodes to itself and leaves the
    rest of the stream, and that a value cut short does not decode. *)
From S2P Require Import Prelude Conn GoStrings Specs LogBuffer Manager.

Class Json (A : Type) := {
  json_encode : A -> list byte;
  json_decode : list byte -> option (A * list byte);
  json_error : list byte -> error -> error;      (* what [Decode] reports *)
  json_ok : A -> Prop;
  json_decode_encode a rest : json_ok a -> json_decode (json_encode a ++ rest) = Some (a, rest);
  json_decode_prefix a p q : json_ok a -> json_encode a = p ++ q -> q <> [] -> json_decode p = None;
}.

(** The parameters the clients send, as the JSON object they are. *)
Inductive params :=
  | PName (name : string)
  | PGroup (group : string)
  | PLogs (name : string) (lines : Z)
  | PTunnel (tc : TunnelConfig).

Record Request := mkReq { rq_Method : string; rq_Params : option params; rq_ID : Z }.

(** The response on the wire: no result and no error text are left out. *)
Record wire := mkWire { w_Result : option Result; w_Error : string; w_ID : Z }.

(** [json.Unmarshal(req.Params, &params)] for each shape of parameters; a field
    that is not in the object stays zero. *)
Definition no_params : error := Errorf "unexpected end of JSON input" [].

Definition name_param (p : option params) : result string :=
  match p with
  | None => Err no_params
  | Some (PName n) | Some (PLogs n _) => Ok n
  | Some (PTunnel tc) => Ok (tc_Name tc)
  | Some (PGroup _) => Ok ""%string
  end.

Definition group_param (p : option params) : result string :=
  match p with
  | None => Err no_params
  | Some (PGroup g) => Ok g
  | Some (PTunnel tc) => Ok (tc_Group tc)
  | Some _ => Ok ""%string
  end.

Definition logs_param (p : option params) : result (string * Z) :=
  n ← name_param p;
  Ok (n, match p with Some (PLogs _ l) => l | _ => 0 end).

Definition named_tunnel (n g : string) : TunnelConfig :=
  mkTC n "" "" "" "" "" false "" "" false false "" "" false g [] 0 "" "" "".

Definition tunnel_param (p : option params) : result TunnelConfig :=
  match p with
  | None => Err no_params
  | Some (PTunnel tc) => Ok tc
  | Some (PName n) | Some (PLogs n _) => Ok (named_tunnel n "")
  | Some (PGroup g) => Ok (named_tunnel "" g)
  end.

(** The switch on the method. *)
Definition method_of (req : Request) : Method :=
  let p := rq_Params req in
  let named := fun s => bool_decide (rq_Method req = s) in
  if named "list" then MList
  else if named "stop" then MStop
  else if named "stop-group" then MStopGroup (group_param p)
  else if named "start-group" then MStartGroup (group_param p)
  else if named "add" then MAdd (tunnel_param p)
  else if named "remove" then MRemove (name_param p)
  else if named "enable" then MEnable (name_param p)
  else if named "disable" then MDisable (name_param p)
  else if named "restart" then MRestart (name_param p)
  else if named "save" then MSave
  else if named "status" then MStatus (name_param p)
  else if named "logs" then MLogs (logs_param p)
  else if named "reload" then MReload
  else MUnknown (rq_Method req).

(** A response of the manager on the wire; [Error] is the method of errors. *)
Definition to_wire (Error : error -> string) (r : Response) : wire :=
  match rs_Result r with
  | Ok x => mkWire (Some x) "" (rs_ID r)
  | Err e => mkWire None (Error e) (rs_ID r)
  end.

Definition manager_handler (Error : error -> string) (e : env) (req : Request) (m : Manager) : wire * Manager :=
  let '(resp, m) := HandleControl (method_of req) (rq_ID req) e m in (to_wire Error resp, m).

Section Exchange.
Context `{!Json Request, !Json wire} {St : Type}.

(** [json.NewEncoder(conn).Encode(a)] and [json.NewDecoder(conn).Decode(&a)]. *)
Definition Encode {A} `{!Json A} (a : A) : IO unit := Conn.Write (json_encode a ++ [newline]).

Definition Decode {A} `{!Json A} : IO A := fun c =>
  match json_decode (rx c) with
  | Some (a, rest) => (Ok a, Conn rest (rx_end c) (tx c) (tx_room c) (tx_err c))
  | None => (Err (if decide (rx c = []) then rx_end c else json_error (rx c) (rx_end c)),
             Conn [] (rx_end c) (tx c) (tx_room c) (tx_err c))
  end.

(** The server's goroutine for one connection; [handler] is its state change. *)
Definition handleControlConn (handler : Request -> St -> wire * St) (s : St) (c : conn) : St * conn :=
  match Decode c with
  | (Err _, c) => (s, c)
  | (Ok req, c) =>
      let '(resp, s) := handler req s in
      (s, (ignore_err (Encode resp) c).2)
  end.

(** The client, on the connection it dialled. *)
Definition SendControl (method : string) (ps : option params) : IO (option Result) :=
  _ ← wrap_err "send request: %w" (Encode (mkReq method ps 1));
  resp ← wrap_err "read response: %w" Decode;
  if decide (w_Error resp <> "") then fail (Errorf "control error: %s" [AStr (w_Error resp)])
  else mret (w_Result resp).

(** One exchange: what the client sends, the server's run on it, the client's
    run on the server's answer. *)
Definition exchange (handler : Request -> St -> wire * St) (method : string) (ps : option params) (s : St)
    : result (option Result) * St :=
  let request := tx (SendControl method ps (conn_of [])).2 in
  let '(s, c) := handleControlConn handler s (conn_of request) in
  ((SendControl method ps (conn_of (tx c))).1, s).

(** ** Lemmas *)

Lemma Decode_Ok {A} `{!Json A} (a : A) (c : conn) rest :
  json_ok a -> rx c = json_encode a ++ rest ->
  Decode c = (Ok a, Conn rest (rx_end c) (tx c) (tx_room c) (tx_err c)).
Proof. intros Ha E. unfold Decode. by rewrite E, json_decode_encode. Qed.

Lemma SendControl_sends method ps c :
  tx_room c = None -> tx (SendControl method ps c).2 = tx c ++ json_encode (mkReq method ps 1) ++ [newline].
Proof.
  intros Hr. unfold SendControl, mbind, IO_bind, wrap_err at 1, Encode, Conn.Write. rewrite Hr.
  unfold wrap_err, Decode. simpl. destruct (json_decode (rx c)) as [[resp rest]|]; [|done].
  destruct (decide (w_Error resp <> "")); done.
Qed.

Lemma SendControl_reads method ps resp c rest :
  tx_room c = None -> json_ok resp -> rx c = json_encode resp ++ rest ->
  (SendControl method ps c).1 =
    if decide (w_Error resp <> "") then Err (Errorf "control error: %s" [AStr (w_Error resp)]) else Ok (w_Result resp).
Proof.
  intros Hr Hok E. unfold SendControl, mbind, IO_bind, wrap_err at 1, Encode, Conn.Write. rewrite Hr.
  unfold wrap_err, Decode. simpl. rewrite E, json_decode_encode by done.
  destruct (decide (w_Error resp <> "")); done.
Qed.

Lemma handleControlConn_reads handler s req rest :
  json_ok req ->
  handleControlConn handler s (conn_of (json_encode req ++ rest)) =
    ((handler req s).2, Conn rest EOF (json_encode (handler req s).1 ++ [newline]) None EOF).
Proof.
  intros Hok. unfold handleControlConn. rewrite (Decode_Ok req _ rest) by done.
  destruct (handler req s) as [resp s']. done.
Qed.

Lemma exchange_handler (handler : Request -> St -> wire * St) method ps s :
  let req := mkReq method ps 1 in
  let resp := (handler req s).1 in
  json_ok req -> json_ok resp ->
  exchange handler method ps s =
    (if decide (w_Error resp <> "") then Err (Errorf "control error: %s" [AStr (w_Error resp)]) else Ok (w_Result resp),
     (handler req s).2).
Proof.
  intros req resp Hq Hr. unfold exchange. rewrite SendControl_sends by done. simpl.
  fold req. rewrite handleControlConn_reads by done. cbn [tx]. f_equal.
  by apply (SendControl_reads method ps resp _ [newline]).
Qed.
End Exchange.

(** ** Properties *)

(** The control protocol is one call of the handler: on working
    connections the client's [SendControl] runs the daemon's handler on exactly
    the request it was asked to send, once, and returns the handler's result or
    its error text; and a request that arrives cut short changes nothing and is
    not answered. *)
Theorem control_exchange {St : Type} `{!Json Request, !Json wire} (handler : Request -> St -> wire * St)
    (method : string) (ps : option params) (s : St) :
  let req := mkReq method ps 1 in
  let resp := (handler req s).1 in
  json_ok req -> json_ok resp ->
  exchange handler method ps s =
    (if decide (w_Error resp <> "") then Err (Errorf "control error: %s" [AStr (w_Error resp)]) else Ok (w_Result resp),
     (handler req s).2)
  /\ forall p q, json_encode req = p ++ q -> q <> [] ->
       let '(s', c) := handleControlConn handler s (conn_of p) in s' = s /\ tx c = [].
Proof.
  intros req resp Hq Hr. split; [by apply exchange_handler|].
  intros p q Hpq Hne. unfold handleControlConn, Decode. simpl. by rewrite (json_decode_prefix req p q).
Qed.

(** A codec for the witness: a length byte before a byte that tells the known
    values apart. *)
Definition demo_req : Request := mkReq "save" None 1.
Definition demo_resp : wire := mkWire (Some RNull) "" 1.

#[refine] Definition demo_json {A : Type} (a0 : A) : Json A :=
  {| json_encode _ := [x7b; x7d];
     json_decode l := match l with x7b :: x7d :: r => Some (a0, r) | _ => None end;
     json_error _ _ := ErrUnexpectedEOF;
     json_ok a := a = a0 |}.
Proof.
  - by intros a rest ->.
  - intros a p q _ Hp Hq. destruct p as [|b1 [|b2 p]]; [done|by injection Hp as <- _|].
    injection Hp as <- <- Hp. symmetry in Hp. apply app_nil in Hp as [_ ?]. done.
Defined.

Lemma control_exchange_witness :
  let _ := demo_json demo_req in let _ := demo_json demo_resp in
  exchange (fun _ n => (demo_resp, S n)) "save" None 0%nat = (Ok (Some RNull), 1%nat).
Proof.
  intros J1 J2. destruct (control_exchange (Json0 := J1) (Json1 := J2) (fun _ n => (demo_resp, S n)) "save" None 0%nat) as [E _];
    [reflexivity|reflexivity|]. exact E.
Defined.
