(* ===== verification/Daemon.v ===== *)
(** * The daemon process ([runDaemon], [cmdStart] and [cmdStop] in
    [src/main.go], [ServeControl] in [src/manager/control.go] and
    [src/manager/daemon.go])

    A daemon is its manager, the [shutdown] channel, the goroutines that sleep
    before closing it, the control server and the phase of [runDaemon] itself;
    what happens to it is an [event], taken by [daemon_apply] ([None]: not
    possible now).  The last part puts several processes on one machine: they
    share the pid file and the path of the control socket. *)
From S2P Require Import Prelude GoStrings Specs LogBuffer Manager Control.

(** ** The pid file: its content, if it exists *)

(** What the system does when the file is written; a failed write leaves some
    content at the path. *)
Record pid_write := mkPidWrite { pw_mkdir : result unit; pw_write : result unit; pw_left : option bytes }.

Definition WritePidfile (pid : Z) (o : pid_write) (f : option bytes) : result unit * option bytes :=
  match pw_mkdir o with
  | Err e => (Err e, f)
  | Ok _ =>
      match pw_write o with
      | Err e => (Err e, pw_left o)
      | Ok _ => (Ok tt, Some (Itoa pid ++ [newline]))
      end
  end.

Definition RemovePidfile (f : option bytes) : result unit * option bytes :=
  match f with
  | Some _ => (Ok tt, None)
  | None => (Err (OsError "ENOENT"), None)
  end.

Definition ReadPidfile (f : option bytes) : result Z :=
  match f with
  | None => Err (OsError "ENOENT")
  | Some data =>
      match Atoi (TrimSpace data) with
      | Ok pid => Ok pid
      | Err e => Err (Wrapf "invalid pid: %w" [] e)
      end
  end.

(** [syscall.Kill(pid, 0) == nil] is [processExists]. *)
Definition IsRunning (processExists : Z -> bool) (f : option bytes) : bool :=
  match ReadPidfile f with
  | Err _ => false
  | Ok pid => processExists pid
  end.

(** ** One daemon *)

(** [ServeControl]: not listening yet, in its accept loop, returned. *)
Inductive server := SrvStarting | SrvAccepting | SrvReturned.

(** [runDaemon]: waiting for [shutdown], after [mgr.Stop()], returned. *)
Inductive phase := Waiting | Stopped | Exited.

#[global] Instance server_eq_dec : EqDecision server.
Proof. solve_decision. Defined.
#[global] Instance phase_eq_dec : EqDecision phase.
Proof. solve_decision. Defined.

Record daemon := mkDaemon {
  d_mgr : Manager;
  d_shutdown : bool;      (* [shutdown] is closed *)
  d_timers : nat;         (* goroutines that sleep before [triggerShutdown] *)
  d_conns : nat;          (* accepted control connections not answered yet *)
  d_server : server;
  d_phase : phase;
}.

Definition set_mgr (m : Manager) (d : daemon) : daemon :=
  mkDaemon m (d_shutdown d) (d_timers d) (d_conns d) (d_server d) (d_phase d).
Definition set_timers (n : nat) (d : daemon) : daemon :=
  mkDaemon (d_mgr d) (d_shutdown d) n (d_conns d) (d_server d) (d_phase d).
Definition set_conns (n : nat) (d : daemon) : daemon :=
  mkDaemon (d_mgr d) (d_shutdown d) (d_timers d) n (d_server d) (d_phase d).
Definition set_server (s : server) (d : daemon) : daemon :=
  mkDaemon (d_mgr d) (d_shutdown d) (d_timers d) (d_conns d) s (d_phase d).
Definition set_phase (p : phase) (d : daemon) : daemon :=
  mkDaemon (d_mgr d) (d_shutdown d) (d_timers d) (d_conns d) (d_server d) p.

(** [shutdownOnce.Do(func() { close(shutdown) })]. *)
Definition triggerShutdown (d : daemon) : daemon :=
  mkDaemon (d_mgr d) true (d_timers d) (d_conns d) (d_server d) (d_phase d).

(** [runDaemon] up to the start of its goroutines; an error is [log.Fatalf]. *)
Definition runDaemon (pid : Z) (o : pid_write) (cfg : Config) (disk : option Config) (f : option bytes)
    : result daemon * option bytes :=
  match WritePidfile pid o f with
  | (Err e, f) => (Err (Wrapf "pidfile: %v" [] e), f)
  | (Ok _, f) => (Ok (mkDaemon (startLocked (NewManager cfg disk)) false 0 0 SrvStarting Waiting), f)
  end.

Section Daemon.
Variable Error : error -> string.   (* the method [Error] of errors *)

(** The control handler: a stop request also starts the delayed shutdown. *)
Definition handler (e : env) (req : Request) (d : daemon) : wire * daemon :=
  let '(resp, m) := manager_handler Error e req (d_mgr d) in
  let d := set_mgr m d in
  (resp, if decide (rq_Method req = "stop"%string) then set_timers (S (d_timers d)) d else d).

Inductive signal := SIGHUP | SIGINT | SIGTERM.

Inductive event :=
  | DListen (r : result unit)              (* [ServeControl] up to its loop *)
  | DAccept
  | DAcceptError
  | DRequest (req : Request) (e : env)     (* a connection's request is handled *)
  | DDropped                               (* a connection without a request *)
  | DTimer                                 (* a sleeping goroutine wakes up *)
  | DSignal (s : signal) (file : read_result)
  | DTask (t : nat) (now : Z) (ev : task_event)
  | DStop                                  (* the last lines of [runDaemon] *)
  | DExit.

Definition only_if {A} (b : bool) (a : A) : option A := if b then Some a else None.

Definition serve_failed (d : daemon) : daemon := triggerShutdown (set_server SrvReturned d).

Definition signalled (s : signal) (file : read_result) (d : daemon) : daemon :=
  match s with
  | SIGHUP => set_mgr (Reload file (d_mgr d)).2 d
  | SIGINT | SIGTERM => triggerShutdown d
  end.

Definition live_event (ev : event) (d : daemon) : option daemon :=
  match ev with
  | DListen r =>
      only_if (bool_decide (d_server d = SrvStarting))
        (match r with Ok _ => set_server SrvAccepting d | Err _ => serve_failed d end)
  | DAccept => only_if (bool_decide (d_server d = SrvAccepting)) (set_conns (S (d_conns d)) d)
  | DAcceptError =>
      only_if (bool_decide (d_server d = SrvAccepting))
        (if d_shutdown d then set_server SrvReturned d else serve_failed d)
  | DRequest req e => match d_conns d with O => None | S n => Some (set_conns n (handler e req d).2) end
  | DDropped => match d_conns d with O => None | S n => Some (set_conns n d) end
  | DTimer => match d_timers d with O => None | S n => Some (triggerShutdown (set_timers n d)) end
  | DSignal s file => Some (signalled s file d)
  | DTask t now ev =>
      match m_tasks (d_mgr d) !! t with
      | Some tk =>
          if tk_done tk then None
          else Some (set_mgr (m_set_tasks (<[t := task_apply now ev tk]> (m_tasks (d_mgr d))) (d_mgr d)) d)
      | None => None
      end
  | DStop =>
      only_if (bool_decide (d_phase d = Waiting) && d_shutdown d) (set_phase Stopped (set_mgr (stopLocked (d_mgr d)) d))
  | DExit => only_if (bool_decide (d_phase d = Stopped)) (set_phase Exited d)
  end.

Definition daemon_apply (ev : event) (d : daemon) : option daemon :=
  if decide (d_phase d = Exited) then None else live_event ev d.

Fixpoint daemon_run (evs : list event) (d : daemon) : option daemon :=
  match evs with
  | [] => Some d
  | ev :: evs => daemon_apply ev d ≫= daemon_run evs
  end.

(** The shutdown is under way: [shutdown] is closed or will be. *)
Definition stopping (d : daemon) : bool := d_shutdown d || bool_decide (d_timers d <> O).

(** The events that ask for it. *)
Definition asks_stop (ev : event) : bool :=
  match ev with
  | DRequest req _ => bool_decide (rq_Method req = "stop"%string)
  | DSignal SIGINT _ | DSignal SIGTERM _ => true
  | DAcceptError | DListen (Err _) => true
  | _ => false
  end.

(** The steps of the daemon's own goroutines that end it. *)
Definition own_step (ev : event) : bool :=
  match ev with DTimer | DStop | DExit => true | _ => false end.

(** ** Lemmas *)

Lemma only_if_Some {A} b (a x : A) : only_if b a = Some x <-> b = true /\ a = x.
Proof. destruct b; simpl; naive_solver. Qed.

Lemma handler_mgr e req d :
  d_mgr (handler e req d).2 = (HandleControl (method_of req) (rq_ID req) e (d_mgr d)).2.
Proof.
  unfold handler, manager_handler. destruct (HandleControl _ _ _ _) as [resp m]. simpl. by case_decide.
Qed.

Lemma stopLocked_inv m : m_inv m -> m_inv (stopLocked m).
Proof. intros Hi. rewrite stopLocked_entries. by destruct (stop_entries_all (fun _ => true) m Hi). Qed.

Lemma daemon_apply_live ev d d' : daemon_apply ev d = Some d' -> live_event ev d = Some d'.
Proof. unfold daemon_apply. by case_decide. Qed.

(** Case analysis of an event that took place. *)
Ltac event_cases H :=
  apply daemon_apply_live in H; unfold live_event in H;
  repeat match type of H with
         | only_if _ _ = Some _ => apply only_if_Some in H as [? H]
         | context [match ?x with _ => _ end] => destruct x eqn:?
         end; simplify_eq.

Lemma daemon_apply_inv ev d d' : daemon_apply ev d = Some d' -> m_inv (d_mgr d) -> m_inv (d_mgr d').
Proof.
  intros H Hi. destruct ev; event_cases H; try done; simpl.
  - rewrite handler_mgr. unfold HandleControl. pose proof (handle_inv (method_of req) e (d_mgr d) Hi) as Hh.
    by destruct (handle _ _ _).
  - by destruct s; simpl; [apply Reload_inv| |].
  - eapply m_step_inv; [by eapply ms_task|done].
  - by apply stopLocked_inv.
Qed.

Lemma handler_stopping e req d :
  stopping (handler e req d).2 = stopping d || bool_decide (rq_Method req = "stop"%string).
Proof.
  unfold handler, stopping. destruct (manager_handler _ _ _ _) as [resp m]. simpl.
  case_decide as E; cbn [d_shutdown d_timers set_timers set_mgr].
  - rewrite (bool_decide_eq_true_2 _ E), (bool_decide_eq_true_2 (S _ <> O)) by done. by rewrite !orb_true_r.
  - by rewrite (bool_decide_eq_false_2 _ E), orb_false_r.
Qed.

Lemma daemon_apply_stopping ev d d' : daemon_apply ev d = Some d' -> stopping d' = stopping d || asks_stop ev.
Proof.
  intros H. destruct ev; event_cases H; simpl; rewrite ?orb_false_r, ?orb_true_r; try done.
  - by unfold stopping; simpl; rewrite Heqb.
  - apply handler_stopping.
  - unfold stopping. simpl. by rewrite Heqn, orb_true_r.
  - destruct s; simpl; by rewrite ?orb_false_r, ?orb_true_r.
Qed.

Lemma daemon_run_invariant evs d d' :
  daemon_run evs d = Some d' -> m_inv (d_mgr d) ->
  m_inv (d_mgr d') /\ stopping d' = stopping d || existsb asks_stop evs.
Proof.
  revert d. induction evs as [|ev evs IH]; intros d H Hi; simpl in H.
  { injection H as <-. by rewrite orb_false_r. }
  apply bind_Some in H as (d1 & H1 & H2). destruct (IH d1 H2) as [Hi' Hs]; [by eapply daemon_apply_inv|].
  split; [done|]. rewrite Hs, (daemon_apply_stopping _ _ _ H1). simpl. by rewrite orb_assoc.
Qed.

(** The final [mgr.Stop()] leaves nothing running. *)
Lemma daemon_stop_all d d' :
  daemon_apply DStop d = Some d' -> m_inv (d_mgr d) ->
  m_tunnels (d_mgr d') = ∅ /\ forall t tk, m_tasks (d_mgr d') !! t = Some tk -> tk_cancelled tk = true.
Proof.
  intros H Hi. event_cases H. simpl. rewrite stopLocked_entries.
  destruct (stop_entries_all (fun _ => true) (d_mgr d) Hi) as ([_ Hl _] & _ & _ & _ & Hn).
  assert (m_tunnels (stop_entries (fun _ => true) (map_to_list (m_tunnels (d_mgr d))) (d_mgr d)) = ∅) as E.
  { apply map_empty. intros n. apply eq_None_not_Some. intros [t Ht]. by apply Hn in Ht as [_ ?]. }
  split; [done|]. intros t tk Htk. destruct (tk_cancelled tk) eqn:Ec; [done|].
  specialize (Hl t tk Htk Ec). rewrite E in Hl. by apply lookup_empty_Some in Hl.
Qed.

(** From a state where the shutdown is under way three own steps are enough. *)
Lemma stopping_exits d :
  stopping d = true -> d_phase d <> Exited ->
  exists evs d', (length evs <= 3)%nat /\ forallb own_step evs = true /\ daemon_run evs d = Some d' /\ d_phase d' = Exited.
Proof.
  intros Hs Hp. destruct d as [m sh ti co sv ph]. unfold stopping in Hs. simpl in *.
  destruct ph; [|exists [DExit]; eexists; split_and!; [simpl; lia|done|done|done]|done].
  destruct sh.
  - exists [DStop; DExit]. eexists. split_and!; [simpl; lia|done|done|done].
  - destruct ti as [|ti]; [done|]. exists [DTimer; DStop; DExit]. eexists. split_and!; [simpl; lia|done|done|done].
Qed.
End Daemon.

(** ** Several processes

    Processes are named by their pid; [w_starting] are those between the check
    of [cmdStart] and [runDaemon].  The socket is the daemon listening at the
    path, if any.  Closing a listener removes the path, whoever listens there,
    and so do the deferred calls of [ServeControl] and [runDaemon]. *)
Record world := mkWorld {
  w_pidfile : option bytes;
  w_socket : option Z;
  w_starting : gset Z;
  w_daemons : gmap Z daemon;
}.

Inductive wevent :=
  | WStart (pid : Z)                       (* [cmdStart] up to [runDaemon] *)
  | WRun (pid : Z) (o : pid_write) (cfg : Config)
  | WEvent (pid : Z) (ev : event)
  | WStop (e : env).                       (* [cmdStop] *)

Definition alive (w : world) (pid : Z) : bool :=
  bool_decide (pid ∈ w_starting w)
  || match w_daemons w !! pid with Some d => bool_decide (d_phase d <> Exited) | None => false end.

(** What an event of a daemon does to the paths. *)
Definition paths_after (pid : Z) (ev : event) (f : option bytes) (s : option Z) : option bytes * option Z :=
  match ev with
  | DListen (Ok _) => (f, Some pid)
  | DListen (Err _) | DAcceptError => (f, None)
  | DExit => ((RemovePidfile f).2, s)
  | _ => (f, s)
  end.

Definition stop_request : Request := mkReq "stop" None 1.

Definition world_apply (Error : error -> string) (ev : wevent) (w : world) : option world :=
  match ev with
  | WStart pid =>
      if alive w pid || IsRunning (alive w) (w_pidfile w) then None
      else Some (mkWorld (w_pidfile w) (w_socket w) ({[pid]} ∪ w_starting w) (w_daemons w))
  | WRun pid o cfg =>
      if decide (pid ∈ w_starting w) then
        let starting := w_starting w ∖ {[pid]} in
        Some (match runDaemon pid o cfg None (w_pidfile w) with
              | (Ok d, f) => mkWorld f (w_socket w) starting (<[pid := d]> (w_daemons w))
              | (Err _, f) => mkWorld f (w_socket w) starting (w_daemons w)
              end)
      else None
  | WEvent pid ev =>
      d ← w_daemons w !! pid;
      d' ← daemon_apply Error ev d;
      let '(f, s) := paths_after pid ev (w_pidfile w) (w_socket w) in
      Some (mkWorld f s (w_starting w) (<[pid := d']> (w_daemons w)))
  | WStop e =>
      pid ← w_socket w;
      d ← w_daemons w !! pid;
      d' ← daemon_run Error [DAccept; DRequest stop_request e] d;
      Some (mkWorld (RemovePidfile (w_pidfile w)).2 (w_socket w) (w_starting w) (<[pid := d']> (w_daemons w)))
  end.

Fixpoint world_run (Error : error -> string) (evs : list wevent) (w : world) : option world :=
  match evs with
  | [] => Some w
  | ev :: evs => world_apply Error ev w ≫= world_run Error evs
  end.

(** A daemon [a] in service, stopped by [tunnel stop]; [tunnel start] right after
    it, while [a] still sleeps before its shutdown. *)
Definition in_service (a : Z) (o : pid_write) (cfg : Config) : list wevent :=
  [WStart a; WRun a o cfg; WEvent a (DListen (Ok tt))].

Definition shuts_down (a : Z) : list wevent :=
  [WEvent a DTimer; WEvent a DAcceptError; WEvent a DStop; WEvent a DExit].

Definition stop_start (a b : Z) (o : pid_write) (cfg : Config) (e : env) : list wevent :=
  in_service a o cfg ++ [WStop e] ++ in_service b o cfg ++ shuts_down a.

Definition empty_world : world := mkWorld None None ∅ ∅.

Definition fine_write : pid_write := mkPidWrite (Ok tt) (Ok tt) None.

(** *** Runs of several processes *)

Definition serving (m : Manager) : daemon := mkDaemon m false 0 0 SrvAccepting Waiting.

Lemma world_run_app Error evs evs' w :
  world_run Error (evs ++ evs') w = world_run Error evs w ≫= world_run Error evs'.
Proof. revert w. induction evs as [|ev evs IH]; intros w; simpl; [done|]. destruct (world_apply Error ev w); simpl; auto. Qed.

Lemma in_service_run Error a cfg w :
  alive w a = false -> w_pidfile w = None ->
  world_run Error (in_service a fine_write cfg) w =
    Some (mkWorld (Some (Itoa a ++ [newline])) (Some a) (w_starting w)
            (<[a := serving (startLocked (NewManager cfg None))]> (w_daemons w))).
Proof.
  intros Ha Hf. unfold in_service. cbn [world_run world_apply]. rewrite Ha, Hf.
  assert (a ∉ w_starting w) as Hst by (unfold alive in Ha; apply orb_false_iff in Ha as [Ha%bool_decide_eq_false _]; done).
  cbn [IsRunning ReadPidfile orb mbind option_bind w_starting].
  rewrite decide_True by set_solver. simpl. rewrite lookup_insert_eq. simpl. rewrite insert_insert_eq.
  do 2 f_equal. set_solver.
Qed.

(** [WStop] at a daemon in service. *)
Lemma WStop_run Error a e w m :
  w_socket w = Some a -> w_daemons w !! a = Some (serving m) ->
  world_apply Error (WStop e) w =
    Some (mkWorld None (Some a) (w_starting w)
            (<[a := mkDaemon (stopLocked m) false 1 0 SrvAccepting Waiting]> (w_daemons w))).
Proof. intros Hs Hd. cbn [world_apply]. rewrite Hs. simpl. rewrite Hd. simpl. by destruct (w_pidfile w). Qed.

Lemma shuts_down_run Error a w m :
  w_daemons w !! a = Some (mkDaemon m false 1 0 SrvAccepting Waiting) ->
  world_run Error (shuts_down a) w =
    Some (mkWorld None None (w_starting w)
            (<[a := mkDaemon (stopLocked m) true 0 0 SrvReturned Exited]> (w_daemons w))).
Proof.
  intros Hd. unfold shuts_down. cbn [world_run world_apply]. rewrite Hd. simpl.
  do 3 (rewrite lookup_insert_eq; simpl). rewrite !insert_insert_eq. by destruct (w_pidfile w).
Qed.

Ltac not_alive := done || (unfold alive; simpl; by rewrite !lookup_insert_ne).

(** The table after a start that follows a stop at once, and one that waits. *)
Lemma stop_start_run Error a b cfg e :
  a <> b ->
  let m := startLocked (NewManager cfg None) in
  world_run Error (stop_start a b fine_write cfg e) empty_world =
    Some (mkWorld None None ∅
            (<[a := mkDaemon (stopLocked (stopLocked m)) true 0 0 SrvReturned Exited]>
            (<[b := serving m]>
            (<[a := mkDaemon (stopLocked m) false 1 0 SrvAccepting Waiting]> (<[a := serving m]> ∅))))).
Proof.
  intros Hab m. unfold stop_start.
  rewrite world_run_app, in_service_run by done. cbn [mbind option_bind app world_run].
  rewrite (WStop_run Error a e _ m) by (done || apply lookup_insert_eq).
  cbn [mbind option_bind]. rewrite world_run_app, in_service_run by not_alive. cbn [mbind option_bind].
  by erewrite shuts_down_run by (simpl; rewrite lookup_insert_ne by done; apply lookup_insert_eq).
Qed.

Lemma stop_wait_start_run Error a b cfg e :
  a <> b ->
  exists w, world_run Error (in_service a fine_write cfg ++ [WStop e] ++ shuts_down a ++ in_service b fine_write cfg)
    empty_world = Some w /\ w_socket w = Some b /\ w_pidfile w = Some (Itoa b ++ [newline]).
Proof.
  intros Hab. rewrite world_run_app, in_service_run by done. cbn [mbind option_bind app world_run].
  rewrite (WStop_run Error a e _ (startLocked (NewManager cfg None))) by (done || apply lookup_insert_eq).
  cbn [mbind option_bind]. rewrite world_run_app.
  erewrite shuts_down_run by (simpl; apply lookup_insert_eq). cbn [mbind option_bind].
  rewrite in_service_run by not_alive. by eexists.
Qed.

(** ** Properties *)

(** The pid file.  What [WritePidfile] writes reads back as the same pid,
    so from then on, and as long as nobody touches the file, [IsRunning] answers
    whether that process exists; without a file, or with a file that holds no
    number, the answer is no; and a file that [WritePidfile] could not write
    keeps the daemon from starting. *)
Theorem pidfile_exact (pid : Z) (o : pid_write) (f : option bytes) (processExists : Z -> bool) :
  0 < pid < 2 ^ 63 ->
  let '(r, f') := WritePidfile pid o f in
  (r = Ok tt <-> is_Ok (pw_mkdir o) && is_Ok (pw_write o) = true)
  /\ (r = Ok tt -> ReadPidfile f' = Ok pid /\ IsRunning processExists f' = processExists pid)
  /\ (forall cfg disk, is_Ok (runDaemon pid o cfg disk f).1 = is_Ok r)
  /\ IsRunning processExists (RemovePidfile f').2 = false
  /\ forall data, is_Ok (Atoi (TrimSpace data)) = false -> IsRunning processExists (Some data) = false.
Proof.
  intros Hp. destruct (WritePidfile pid o f) as [r f'] eqn:E. split_and!.
  - unfold WritePidfile in E. destruct (pw_mkdir o), (pw_write o) as [[]|]; simplify_eq/=; naive_solver.
  - intros ->. unfold WritePidfile in E. destruct (pw_mkdir o), (pw_write o) as [[]|]; simplify_eq/=.
    destruct (Itoa_spec pid ltac:(lia)) as (Hd & Hv & Hne).
    assert (ReadPidfile (Some (Itoa pid ++ [newline])) = Ok pid) as HR.
    { unfold ReadPidfile. by rewrite TrimSpace_decimal, Atoi_Itoa by (done || lia). }
    split; [done|]. unfold IsRunning. by rewrite HR.
  - intros cfg disk. unfold runDaemon. rewrite E. by destruct r.
  - by destruct f'.
  - intros data Hd. unfold IsRunning, ReadPidfile. by destruct (Atoi (TrimSpace data)).
Qed.

Lemma pidfile_exact_witness :
  ReadPidfile (WritePidfile 4711 (mkPidWrite (Ok tt) (Ok tt) None) None).2 = Ok 4711.
Proof.
  pose proof (pidfile_exact 4711 (mkPidWrite (Ok tt) (Ok tt) None) None (fun _ => true) ltac:(lia)) as H.
  apply H. reflexivity.
Defined.

(** C5: the life of the daemon.  Whatever requests, signals, failures of the
    control socket and events of the tunnels happen, in whatever order: no
    tunnel is stopped twice (the manager's invariant, so the final [Stop] after
    a stop request is safe); the shutdown is under way exactly when something
    has asked for it - a stop request, SIGINT, SIGTERM, a failed listen or
    accept - and it is never forgotten; from then on at most three steps of the
    daemon's own goroutines end the process; and its final [Stop] leaves the
    table empty and every tunnel cancelled. *)
Theorem daemon_shutdown (Error : error -> string) (pid : Z) (o : pid_write) (cfg : Config) (disk : option Config)
    (f f0 : option bytes) (d0 : daemon) (evs : list event) (d : daemon) :
  runDaemon pid o cfg disk f = (Ok d0, f0) ->
  daemon_run Error evs d0 = Some d ->
  m_inv (d_mgr d)
  /\ stopping d = existsb asks_stop evs
  /\ (stopping d = true -> d_phase d <> Exited ->
        exists own d', (length own <= 3)%nat /\ forallb own_step own = true
          /\ daemon_run Error own d = Some d' /\ d_phase d' = Exited)
  /\ forall d', daemon_apply Error DStop d = Some d' ->
       m_tunnels (d_mgr d') = ∅ /\ forall t tk, m_tasks (d_mgr d') !! t = Some tk -> tk_cancelled tk = true.
Proof.
  intros H0 Hr. assert (m_inv (d_mgr d0) /\ stopping d0 = false) as [Hi Hs].
  { unfold runDaemon in H0. destruct (WritePidfile pid o f) as [[]]; simplify_eq.
    split; [|done]. eapply m_step_inv; [apply ms_start|apply NewManager_inv]. }
  destruct (daemon_run_invariant _ _ _ _ Hr Hi) as [Hi' Hs']. rewrite Hs in Hs'.
  split_and!; [done|done|apply stopping_exits|]. intros d' Hd'. by apply (daemon_stop_all Error d d').
Qed.

Definition fine_env : env := mkEnv Saved ReadMissing (NewLogBuffer 10).

Definition demo_stop : list event :=
  [DListen (Ok tt); DAccept; DRequest (mkReq "stop" None 1) fine_env; DTimer; DStop; DExit].

Lemma daemon_shutdown_witness :
  exists d, daemon_run (fun _ => ""%string) demo_stop (mkDaemon (startLocked (NewManager demo_cfg None)) false 0 0 SrvStarting Waiting) = Some d
    /\ stopping d = true /\ d_phase d = Exited.
Proof.
  eexists. split; [reflexivity|]. split; [|reflexivity].
  erewrite (proj1 (proj2 (daemon_shutdown (fun _ => ""%string) 1 fine_write demo_cfg None None _ _ demo_stop _ eq_refl eq_refl))).
  reflexivity.
Defined.

(** C37: [tunnel stop] followed at once by [tunnel start] leaves a daemon nobody
    can reach.  The stop command removes the pid file before the old daemon has
    ended, so the start is let through; the old daemon then removes the socket
    and the pid file of the new one by their paths.  The new daemon runs its
    tunnels and waits, but there is no socket to send it a request and no pid
    file, so a further start is let through too.  Started after the old daemon
    has ended, the new one owns both. *)
Theorem stop_start_orphans (Error : error -> string) (a b : Z) (cfg : Config) (e : env) :
  a <> b ->
  exists w d,
    world_run Error (stop_start a b fine_write cfg e) empty_world = Some w
    /\ w_daemons w !! b = Some d /\ d_phase d = Waiting /\ stopping d = false /\ d_server d = SrvAccepting
    /\ d_mgr d = startLocked (NewManager cfg None)
    /\ w_socket w = None /\ world_apply Error (WStop e) w = None
    /\ IsRunning (alive w) (w_pidfile w) = false
    /\ (forall c, alive w c = false -> is_Some (world_apply Error (WStart c) w))
    /\ exists w', world_run Error (in_service a fine_write cfg ++ [WStop e] ++ shuts_down a ++ in_service b fine_write cfg)
                    empty_world = Some w'
         /\ w_socket w' = Some b /\ w_pidfile w' = Some (Itoa b ++ [newline]).
Proof.
  intros Hab. eexists _, _. split; [by apply stop_start_run|]. simpl.
  split; [rewrite !lookup_insert_ne by done; apply lookup_insert_eq|].
  split_and!; try done; [intros c Hc; by rewrite Hc|]. by apply stop_wait_start_run.
Qed.

Lemma stop_start_orphans_witness :
  exists w, world_run (fun _ => ""%string) (stop_start 100 200 fine_write demo_cfg fine_env) empty_world = Some w
    /\ w_socket w = None /\ w_pidfile w = None.
Proof.
  destruct (stop_start_orphans (fun _ => ""%string) 100 200 demo_cfg fine_env) as (w & d & H & _); [lia|].
  exists w. split; [exact H|]. vm_compute in H. injection H as <-. split; reflexivity.
Defined.
