(* ===== verification/Flags.v ===== *)
(** * Go's package [flag], as [src/main.go] uses it

    [FlagSet.Parse] over the three kinds of flags the program declares.  A
    parsed flag set is the map of the values given, as text, and the arguments
    left over; the getters apply the default.  Numbers are read by
    [strconv.ParseInt] with base 0 (a prefix chooses the base), as [flag.Int]
    does. *)
From S2P Require Import Prelude GoStrings.

Inductive flag_kind := FString | FBool | FInt.

#[global] Instance flag_kind_eq_dec : EqDecision flag_kind.
Proof. solve_decision. Defined.

(** Errors of [Parse]: [ErrHelp] and the others; with [flag.ExitOnError] the
    process exits with 0 and 2. *)
Inductive flag_error := ErrHelp | BadFlag (e : error).

Definition minus : byte := x2d.
Definition equals : byte := x3d.
Definition underscore : byte := x5f.

(** [strconv.ParseBool]. *)
Definition ParseBool (s : string) : option bool :=
  if bool_decide (s ∈ ["1"; "t"; "T"; "true"; "TRUE"; "True"]%string) then Some true
  else if bool_decide (s ∈ ["0"; "f"; "F"; "false"; "FALSE"; "False"]%string) then Some false
  else None.

(** *** [strconv.ParseInt(s, 0, 64)] *)

(** The value of a digit or letter; [lower] maps letters to lower case. *)
Definition lower (b : byte) : Z := Z.lor (byte_to_Z b) 32.
Definition alnum_value (b : byte) : option Z :=
  match digit_value b with
  | Some d => Some d
  | None => if decide (97 <= lower b <= 122) then Some (lower b - 97 + 10) else None
  end.

Fixpoint digits_loop (base : Z) (s : bytes) (n : Z) : option Z :=
  match s with
  | [] => Some n
  | b :: s =>
      if decide (b = underscore) then digits_loop base s n else
      d ← alnum_value b;
      if decide (d >= base) then None else
      let n := n * base + d in
      if decide (n >= 2 ^ 64) then None else digits_loop base s n
  end.

(** The base a prefix chooses, and the digits. *)
Definition split_base (s : bytes) : Z * bytes :=
  match s with
  | x30 :: b :: (_ :: _) =>
      if decide (lower b = 98) then (2, drop 2 s)
      else if decide (lower b = 111) then (8, drop 2 s)
      else if decide (lower b = 120) then (16, drop 2 s)
      else (8, drop 1 s)
  | x30 :: _ => (8, drop 1 s)
  | _ => (10, s)
  end.

(** [underscoreOK] after the sign and the prefix: an underscore only between
    digits, a prefix counting as one; [digit] tells that the last byte was one. *)
Fixpoint underscores_ok (digit : bool) (s : bytes) : bool :=
  match s with
  | [] => true
  | b :: s =>
      if decide (b = underscore)
      then digit && (match s with [] => false | c :: _ => negb (bool_decide (c = underscore)) end) && underscores_ok false s
      else underscores_ok true s
  end.

Definition ParseInt0 (s : bytes) : option Z :=
  let '(neg, t) := match s with
    | x2d :: t => (true, t)
    | x2b :: t => (false, t)
    | _ => (false, s)
    end in
  if decide (t = []) then None else
  let '(base, digits) := split_base t in
  un ← digits_loop base digits 0;
  if negb (underscores_ok (bool_decide (digits <> t)) digits) then None else
  if decide (un > if (neg : bool) then 2 ^ 63 else 2 ^ 63 - 1) then None
  else Some (if neg then - un else un).

(** *** [FlagSet.Parse] *)

(** What the next argument is to [parseOne]. *)
Inductive token :=
  | TStop                                        (* not a flag: parsing ends *)
  | TEnd                                         (* "--": consumed, parsing ends *)
  | TBad
  | TFlag (name : string) (value : option string).

(** A flag's text at its first '=' after the first byte. *)
Fixpoint split_equals (s : bytes) : bytes * option bytes :=
  match s with
  | [] => ([], None)
  | b :: s => if decide (b = equals) then ([], Some s)
              else let '(n, v) := split_equals s in (b :: n, v)
  end.

Definition token_of (arg : string) : token :=
  match bytes_of arg with
  | b :: c :: rest =>
      if decide (b <> minus) then TStop else
      if decide (c = minus /\ rest = []) then TEnd else
      match (if decide (c = minus) then rest else c :: rest) with
      | [] => TBad
      | first :: name =>
          if decide (first = minus \/ first = equals) then TBad
          else let '(n, v) := split_equals name in TFlag (string_of (first :: n)) (string_of <$> v)
      end
  | _ => TStop
  end.

(** [Value.Set]: whether the text is a value of the kind. *)
Definition settable (k : flag_kind) (v : string) : bool :=
  match k with
  | FString => true
  | FBool => match ParseBool v with Some _ => true | None => false end
  | FInt => match ParseInt0 (bytes_of v) with Some _ => true | None => false end
  end.

Record flag_set := mkFlags { fl_values : gmap string string; fl_args : list string }.

(** The outcome of [Parse]. *)
Inductive parsed := Parsed (fs : flag_set) | ParseFailed (e : flag_error).

Definition formals : Type := list (string * flag_kind).

Fixpoint lookup_flag (name : string) (formal : formals) : option flag_kind :=
  match formal with
  | [] => None
  | (n, k) :: formal => if decide (n = name) then Some k else lookup_flag name formal
  end.

Definition not_defined (name : string) : flag_error :=
  if decide (name = "help" \/ name = "h")%string then ErrHelp
  else BadFlag (Errorf "flag provided but not defined: -%s" [AStr name]).

(** [Set], then the rest of the arguments. *)
Definition set_flag (k : flag_kind) (name v : string) (vals : gmap string string)
    (next : gmap string string -> parsed) : parsed :=
  if settable k v then next (<[name := v]> vals)
  else ParseFailed (BadFlag (Errorf "invalid value %q for flag -%s" [AStr v; AStr name])).

Fixpoint parse_loop (formal : formals) (args : list string) (vals : gmap string string) : parsed :=
  match args with
  | [] => Parsed (mkFlags vals [])
  | a :: rest =>
      match token_of a with
      | TStop => Parsed (mkFlags vals args)
      | TEnd => Parsed (mkFlags vals rest)
      | TBad => ParseFailed (BadFlag (Errorf "bad flag syntax: %s" [AStr a]))
      | TFlag name v =>
          match lookup_flag name formal with
          | None => ParseFailed (not_defined name)
          | Some FBool => set_flag FBool name (default "true"%string v) vals (parse_loop formal rest)
          | Some k =>
              match v, rest with
              | Some v, _ => set_flag k name v vals (parse_loop formal rest)
              | None, v :: rest => set_flag k name v vals (parse_loop formal rest)
              | None, [] => ParseFailed (BadFlag (Errorf "flag needs an argument: -%s" [AStr name]))
              end
          end
      end
  end.

Definition Parse (formal : formals) (args : list string) : parsed := parse_loop formal args ∅.

(** The variables the flags are bound to. *)
Definition get_string (name : string) (fs : flag_set) : string := default ""%string (fl_values fs !! name).
Definition get_bool (name : string) (d : bool) (fs : flag_set) : bool := default d (fl_values fs !! name ≫= ParseBool).
Definition get_int (name : string) (d : Z) (fs : flag_set) : Z :=
  default d (fl_values fs !! name ≫= fun v => ParseInt0 (bytes_of v)).

(** [FlagSet.Arg(i)]: empty beyond the arguments. *)
Definition Arg (i : nat) (fs : flag_set) : string := default ""%string (fl_args fs !! i).

(** ** Lemmas *)

Definition is_flag_arg (a : string) : bool :=
  match token_of a with TStop => false | _ => true end.

(** Parsing stops at the first argument that is no flag. *)
Lemma Parse_stop formal a rest : is_flag_arg a = false -> Parse formal (a :: rest) = Parsed (mkFlags ∅ (a :: rest)).
Proof. unfold is_flag_arg, Parse. simpl. by destruct (token_of a). Qed.

(** Numerals without a leading zero read the same in base 0. *)
Example ParseInt0_examples :
  ParseInt0 (bytes_of "250") = Some 250 /\ ParseInt0 (bytes_of "-0x1F") = Some (-31)
  /\ ParseInt0 (bytes_of "1_000") = Some 1000 /\ ParseInt0 (bytes_of "1__0") = None
  /\ ParseInt0 (bytes_of "08") = None /\ ParseInt0 (bytes_of "9223372036854775808") = None.
Proof. vm_compute. done. Qed.
