(* ===== verification/Cli.v ===== *)
(** * The command line ([src/main.go])

    What the process decides from its arguments, as an [action]: which control
    request to send, whether to become the daemon or to start one, or which
    ad-hoc mode to run.  Printing is left out.  [running] is the answer of
    [IsRunning], [file] the outcome of reading the configuration file. *)
From S2P Require Import Prelude Transport GoStrings Specs LogBuffer Manager Runner Control Daemon Flags.

Inductive unit_file := PrintSystemd | WriteUser | InstallHint.

Inductive action :=
  | AUsage                                           (* usage, exit code 1 *)
  | AFlagError (e : flag_error)
  | AFatal (e : error)                               (* [log.Fatal] *)
  | AControl (method : string) (ps : option params)  (* [SendControl] *)
  | AInit (u : unit_file)
  | ADaemon (cfg : Config)                           (* [runDaemon] *)
  | AFork (args : list string)                       (* [os.StartProcess] *)
  | ALocal (spec protocol : string) (tls : bool) (cert key : string) (verify : bool)
  | ADynamic (spec user pass : string)
  | ARemote (spec server token : string) (tls : bool) (cert key : string) (verify tofu : bool) (fingerprint : string)
  | AServer (server token : string) (tls : bool) (cert key : string) (verify : bool).

Open Scope string_scope.

(** The continuation after [Parse]: an error ends the process. *)
Definition with_flags (formal : formals) (args : list string) (k : flag_set -> action) : action :=
  match Parse formal args with
  | ParseFailed e => AFlagError e
  | Parsed fs => k fs
  end.

Definition is_background (a : string) : bool := bool_decide (a = "--background" \/ a = "-background").

Definition cmdStart (running : bool) (file : read_result) (args : list string) : action :=
  if running then AFatal (Errorf "tunneld is already running" []) else
  match LoadConfig file with
  | Err e => AFatal (Wrapf "load config: %v" [] e)
  | Ok cfg =>
      if existsb is_background (drop 2 args)
      then AFork (hd "" args :: "start" :: "--foreground" :: drop 3 args)
      else ADaemon cfg
  end.

(** The commands without parameters. *)
Definition cmdStop : action := AControl "stop" None.
Definition cmdList : action := AControl "list" None.
Definition cmdSave : action := AControl "save" None.
Definition cmdReload : action := AControl "reload" None.

Definition add_formals : formals :=
  [("L", FString); ("R", FString); ("D", FString); ("name", FString); ("s", FString); ("token", FString);
   ("tls", FBool); ("tls-verify", FBool); ("tls-cert", FString); ("tls-key", FString);
   ("trust-on-first-use", FBool); ("server-fingerprint", FString); ("socks-user", FString);
   ("socks-pass", FString); ("udp", FBool); ("group", FString); ("autostart", FBool)].

Definition protocol_of (udp : bool) : string := if udp then "udp" else "tcp".

Definition add_params (fs : flag_set) : addParams :=
  mkAdd (get_string "L" fs) (get_string "R" fs) (get_string "D" fs) (get_string "name" fs)
    (get_string "s" fs) (get_string "token" fs)
    (get_bool "tls" false fs) (get_bool "tls-verify" false fs)
    (get_string "tls-cert" fs) (get_string "tls-key" fs)
    (get_bool "trust-on-first-use" false fs) (get_string "server-fingerprint" fs)
    (get_string "socks-user" fs) (get_string "socks-pass" fs)
    (protocol_of (get_bool "udp" false fs)) (get_string "group" fs) (get_bool "autostart" true fs).

Definition cmdAdd (args : list string) : action :=
  with_flags add_formals (drop 2 args) (fun fs =>
    match buildTunnelConfig (add_params fs) with
    | Err e => AFatal e
    | Ok tc => AControl "add" (Some (PTunnel tc))
    end).

(** The commands with one operand: [cmdRemove], [cmdEnable], ... *)
Definition with_operand (usage : string) (args : list string) (k : string -> action) : action :=
  match args !! 2%nat with
  | None => AFatal (Errorf usage [])
  | Some name => k name
  end.

Definition cmdRemove (args : list string) : action :=
  with_operand "usage: tunnel rm <name>" args (fun name => AControl "remove" (Some (PName name))).
Definition cmdEnable (args : list string) : action :=
  with_operand "usage: tunnel enable <name>" args (fun name => AControl "enable" (Some (PName name))).
Definition cmdDisable (args : list string) : action :=
  with_operand "usage: tunnel disable <name>" args (fun name => AControl "disable" (Some (PName name))).
Definition cmdRestart (args : list string) : action :=
  with_operand "usage: tunnel restart <name>" args (fun name => AControl "restart" (Some (PName name))).
Definition cmdStartGroup (args : list string) : action :=
  with_operand "usage: tunnel start-group <group>" args (fun group => AControl "start-group" (Some (PGroup group))).
Definition cmdStopGroup (args : list string) : action :=
  with_operand "usage: tunnel stop-group <group>" args (fun group => AControl "stop-group" (Some (PGroup group))).

(** Without an operand [cmdStatus] asks for the list and counts. *)
Definition cmdStatus (args : list string) : action :=
  match args !! 2%nat with
  | None => AControl "list" None
  | Some name => AControl "status" (Some (PName name))
  end.

Definition status_counts (statuses : list TunnelStatus) : Z * Z * Z :=
  let running := foldl (fun n s => if decide (s_Status s <> "stopped") then n + 1 else n)%Z 0%Z statuses in
  (zlen statuses, running, zlen statuses - running)%Z.

Definition cmdLogs (args : list string) : action :=
  with_flags [("lines", FInt)] (drop 2 args) (fun fs =>
    AControl "logs" (Some (PLogs (Arg 0 fs) (get_int "lines" 100 fs)))).

Definition cmdInit (args : list string) : action :=
  with_flags [("systemd", FBool); ("systemd-user", FBool)] (drop 2 args) (fun fs =>
    if get_bool "systemd" false fs then AInit PrintSystemd
    else if get_bool "systemd-user" false fs then AInit WriteUser
    else AInit InstallHint).

Definition main_formals : formals :=
  [("L", FString); ("R", FString); ("D", FString); ("s", FString); ("token", FString); ("tls", FBool);
   ("tls-cert", FString); ("tls-key", FString); ("tls-verify", FBool); ("trust-on-first-use", FBool);
   ("server-fingerprint", FString); ("udp", FBool); ("socks-user", FString); ("socks-pass", FString)].

(** The ad-hoc modes. *)
Definition adhoc (fs : flag_set) : action :=
  let str n := get_string n fs in
  let bool n := get_bool n false fs in
  if decide (str "L" <> "") then
    ALocal (str "L") (protocol_of (bool "udp")) (bool "tls") (str "tls-cert") (str "tls-key") (bool "tls-verify")
  else if decide (str "D" <> "") then ADynamic (str "D") (str "socks-user") (str "socks-pass")
  else if decide (str "R" <> "" /\ str "s" <> "") then
    ARemote (str "R") (str "s") (str "token") (bool "tls") (str "tls-cert") (str "tls-key") (bool "tls-verify")
      (bool "trust-on-first-use") (str "server-fingerprint")
  else if decide (str "R" = "" /\ str "s" <> "") then
    AServer (str "s") (str "token") (bool "tls") (str "tls-cert") (str "tls-key") (bool "tls-verify")
  else AUsage.

Definition main (running : bool) (file : read_result) (args : list string) : action :=
  match args with
  | _ :: cmd :: _ =>
      if decide (cmd = "start") then cmdStart running file args
      else if decide (cmd = "stop") then cmdStop
      else if decide (cmd = "ls" \/ cmd = "list") then cmdList
      else if decide (cmd = "add") then cmdAdd args
      else if decide (cmd = "rm" \/ cmd = "remove") then cmdRemove args
      else if decide (cmd = "enable") then cmdEnable args
      else if decide (cmd = "disable") then cmdDisable args
      else if decide (cmd = "restart") then cmdRestart args
      else if decide (cmd = "save") then cmdSave
      else if decide (cmd = "status") then cmdStatus args
      else if decide (cmd = "logs") then cmdLogs args
      else if decide (cmd = "init") then cmdInit args
      else if decide (cmd = "reload") then cmdReload
      else if decide (cmd = "start-group") then cmdStartGroup args
      else if decide (cmd = "stop-group") then cmdStopGroup args
      else with_flags main_formals (drop 1 args) adhoc
  | _ => AUsage
  end.

(** The control socket both the daemon and the commands use. *)
Definition applyGlobalConfig (file : read_result) : string :=
  match LoadConfig file with
  | Err _ => ""
  | Ok cfg => g_ControlSocket (c_Global cfg)
  end.

Definition ControlSocketPath (override data_dir : string) : string :=
  if decide (override <> "") then override else data_dir ++ "/control.sock".

(** ** The ad-hoc modes, by the outcomes of their set-up *)

(** The process ends: normally, by [log.Fatal], or by the run-time error of a
    nil pointer. *)
Inductive adhoc_end := Ended | Fatal (e : error) | NilPanic.

(** A proxy that may be nil is served until it is closed. *)
Definition serve_proxy (proxy : bool) (o : outcomes) : adhoc_end :=
  if proxy then
    match oc_wait o with
    | StopRequested | ServeReturned (Ok _) => Ended
    | ServeReturned (Err e) => Fatal e
    end
  else NilPanic.

Definition start_proxy (message : string) (r : result unit) (o : outcomes) : adhoc_end :=
  match r with
  | Err e => Fatal (Wrapf message [] e)
  | Ok _ => serve_proxy true o
  end.

Definition runAdhocLocal (spec protocol : string) (tls : bool) (o : outcomes) : adhoc_end :=
  if decide (protocol = "udp") then
    if tls then Fatal (Errorf "TLS is not supported with UDP forwarding" []) else
    match parseLocalSpec spec with
    | Err e => Fatal e
    | Ok _ => start_proxy "Failed to start UDP proxy: %v" (oc_listen o) o
    end
  else
    match parseLocalSpec spec with
    | Err e => Fatal e
    | Ok _ =>
        if tls then
          match oc_tls o with
          | Err e => Fatal (Wrapf "TLS setup: %v" [] e)
          | Ok _ => serve_proxy (is_Ok (oc_listen o)) o       (* the error went to the inner [err] *)
          end
        else start_proxy "Failed to start proxy: %v" (oc_listen o) o
    end.

Definition adhoc_tls (tls : bool) (o : outcomes) (k : adhoc_end) : adhoc_end :=
  if tls then match oc_tls o with Err e => Fatal (Wrapf "TLS setup: %v" [] e) | Ok _ => k end else k.

Definition runAdhocRemote (spec : string) (tls : bool) (o : outcomes) : adhoc_end :=
  match parseRemoteSpec spec with
  | Err e => Fatal e
  | Ok _ => adhoc_tls tls o Ended
  end.

Definition runAdhocRemoteServer (tls : bool) (o : outcomes) : adhoc_end :=
  adhoc_tls tls o (start_proxy "Failed to start remote server: %v" (oc_listen o) o).

Definition runAdhocDynamic (spec : string) (o : outcomes) : adhoc_end :=
  if decide (spec = "") then Fatal (Errorf "dynamic port cannot be empty" [])
  else start_proxy "Failed to start SOCKS proxy: %v" (oc_listen o) o.

(** ** What the commands mean *)

(** The method of the manager a command with the operand [x] is for. *)
Definition commands (x : string) : list (string * Method) :=
  [("stop", MStop); ("ls", MList); ("list", MList); ("rm", MRemove (Ok x)); ("remove", MRemove (Ok x));
   ("enable", MEnable (Ok x)); ("disable", MDisable (Ok x)); ("restart", MRestart (Ok x)); ("save", MSave);
   ("status", MStatus (Ok x)); ("reload", MReload); ("start-group", MStartGroup (Ok x));
   ("stop-group", MStopGroup (Ok x))].

(** The flags of [tunnel add] for given parameters. *)
Definition bool_text (b : bool) : string := if b then "true" else "false".

Definition add_args (p : addParams) : list string :=
  ["-L"; ap_local p; "-R"; ap_remote p; "-D"; ap_dynamic p; "--name"; ap_name p; "-s"; ap_server p;
   "--token"; ap_token p; "--tls=" ++ bool_text (ap_tls p); "--tls-verify=" ++ bool_text (ap_tlsVerify p);
   "--tls-cert"; ap_tlsCert p; "--tls-key"; ap_tlsKey p;
   "--trust-on-first-use=" ++ bool_text (ap_tlsTrustOnFirstUse p);
   "--server-fingerprint"; ap_tlsServerFingerprint p; "--socks-user"; ap_socksUser p;
   "--socks-pass"; ap_socksPass p; "--udp=" ++ bool_text (bool_decide (ap_protocol p = "udp"));
   "--group"; ap_group p; "--autostart=" ++ bool_text (ap_autostart p)].

(** ** Lemmas *)

(** A command reaches the method it is for. *)
Lemma main_command running file prog cmd x rest m :
  In (cmd, m) (commands x) ->
  exists method ps, main running file (prog :: cmd :: x :: rest) = AControl method ps
    /\ method_of (mkReq method ps 1) = m.
Proof.
  intros H. simpl in H.
  repeat destruct H as [[= <- <-]|H]; [eexists _, _; split; reflexivity..|done].
Qed.

(** One flag at a time. *)
Lemma Parse_add p :
  Parse add_formals (add_args p) =
    Parsed (mkFlags
      (<["autostart" := bool_text (ap_autostart p)]> (<["group" := ap_group p]>
       (<["udp" := bool_text (bool_decide (ap_protocol p = "udp"))]>
       (<["socks-pass" := ap_socksPass p]> (<["socks-user" := ap_socksUser p]>
       (<["server-fingerprint" := ap_tlsServerFingerprint p]>
       (<["trust-on-first-use" := bool_text (ap_tlsTrustOnFirstUse p)]>
       (<["tls-key" := ap_tlsKey p]> (<["tls-cert" := ap_tlsCert p]>
       (<["tls-verify" := bool_text (ap_tlsVerify p)]> (<["tls" := bool_text (ap_tls p)]>
       (<["token" := ap_token p]> (<["s" := ap_server p]> (<["name" := ap_name p]>
       (<["D" := ap_dynamic p]> (<["R" := ap_remote p]> (<["L" := ap_local p]> ∅))))))))))))))))) []).
Proof.
  destruct p as [l r d n s t tls tlsVerify c k tofu fp u w protocol g auto].
  unfold Parse, add_args.
  cbn [ap_local ap_remote ap_dynamic ap_name ap_server ap_token ap_tls ap_tlsVerify ap_tlsCert ap_tlsKey
    ap_tlsTrustOnFirstUse ap_tlsServerFingerprint ap_socksUser ap_socksPass ap_protocol ap_group ap_autostart].
  generalize (bool_decide (protocol = "udp")). intros udp.
  destruct tls, tlsVerify, tofu, udp, auto; reflexivity.
Qed.

Lemma add_params_args p : ap_protocol p = "tcp" \/ ap_protocol p = "udp" ->
  match Parse add_formals (add_args p) with Parsed fs => add_params fs = p | ParseFailed _ => False end.
Proof.
  intros Hp. rewrite Parse_add.
  destruct p as [l r d n s t tls tlsVerify c k tofu fp u w protocol g auto].
  cbn in Hp. destruct tls, tlsVerify, tofu, auto, Hp as [-> | ->]; vm_compute; reflexivity.
Qed.

(** [cmdStart] when no daemon runs and the configuration can be read. *)
Lemma main_start cfg prog rest :
  main false (ReadConfig cfg) (prog :: "start" :: rest) =
    if existsb is_background rest then AFork (prog :: "start" :: "--foreground" :: drop 1 rest) else ADaemon cfg.
Proof. reflexivity. Qed.

(** ** Properties *)

(** C8: from the command line to the manager.  Every command with an operand
    [x] (and whatever follows it) sends one request, which the daemon takes for
    exactly the method the command names, with [x] as its parameter; and when
    the exchange works, what it does to the daemon's manager is that method and
    nothing else. *)
Theorem cli_commands `{!Json Request, !Json wire} (Error : error -> string) (running : bool) (file : read_result)
    (prog cmd x : string) (rest : list string) (m : Method) (e : env) (d : daemon) :
  In (cmd, m) (commands x) ->
  exists method ps,
    main running file (prog :: cmd :: x :: rest) = AControl method ps
    /\ method_of (mkReq method ps 1) = m
    /\ (json_ok (mkReq method ps 1) -> json_ok (handler Error e (mkReq method ps 1) d).1 ->
        let '(r, d') := exchange (handler Error e) method ps d in
        d_mgr d' = (handle m e (d_mgr d)).2
        /\ (forall v, (handle m e (d_mgr d)).1 = Ok v -> r = Ok (Some v))
        /\ stopping d' = stopping d || bool_decide (method = "stop")).
Proof.
  intros Hin. destruct (main_command running file prog cmd x rest m Hin) as (method & ps & H1 & H2).
  exists method, ps. split_and!; [done|done|]. intros Hq Hr. rewrite exchange_handler by done.
  split_and!; [|intros v Hv|apply handler_stopping].
  - rewrite handler_mgr, H2. unfold HandleControl. by destruct (handle m e (d_mgr d)).
  - unfold handler, manager_handler, HandleControl. rewrite H2. destruct (handle m e (d_mgr d)) as [r m'].
    simpl in Hv. by rewrite Hv.
Qed.

Lemma cli_commands_witness :
  exists method ps, main false ReadMissing ["tunnel"; "rm"; "web"] = AControl method ps
    /\ method_of (mkReq method ps 1) = MRemove (Ok "web").
Proof.
  destruct (@cli_commands (demo_json demo_req) (demo_json demo_resp) (fun _ => "") false ReadMissing "tunnel" "rm" "web" []
    (MRemove (Ok "web")) fine_env (mkDaemon (NewManager DefaultConfig None) false 0 0 SrvAccepting Waiting))
    as (method & ps & H1 & H2 & _).
  - right. right. right. left. reflexivity.
  - exists method, ps. split; assumption.
Defined.

(** C34: [tunnel add] and its flags.  Any parameters, written out as the flags of
    the command, are parsed back to the same parameters, so the request it sends
    carries exactly the configuration [buildTunnelConfig] makes of them, and a
    specification it rejects ends the command with that error before anything is
    sent. *)
Theorem add_flags_roundtrip (running : bool) (file : read_result) (prog : string) (p : addParams) :
  ap_protocol p = "tcp" \/ ap_protocol p = "udp" ->
  main running file (prog :: "add" :: add_args p) =
    match buildTunnelConfig p with
    | Err e => AFatal e
    | Ok tc => AControl "add" (Some (PTunnel tc))
    end
  /\ forall tc, buildTunnelConfig p = Ok tc -> method_of (mkReq "add" (Some (PTunnel tc)) 1) = MAdd (Ok tc).
Proof.
  intros Hp. split; [|done]. pose proof (add_params_args p Hp) as H.
  change (main running file (prog :: "add" :: add_args p)) with (cmdAdd (prog :: "add" :: add_args p)).
  unfold cmdAdd, with_flags. change (drop 2 (prog :: "add" :: add_args p)) with (add_args p).
  destruct (Parse add_formals (add_args p)) as [fs|]; [by rewrite H|done].
Qed.

Lemma add_flags_roundtrip_witness :
  exists tc, main false ReadMissing ("tunnel" :: "add" ::
      add_args (mkAdd "8080:web:80" "" "" "web" "" "" false false "" "" false "" "" "" "tcp" "g" true))
    = AControl "add" (Some (PTunnel tc)) /\ tc_Name tc = "web" /\ tc_Remote tc = "web:80".
Proof.
  pose proof (add_flags_roundtrip false ReadMissing "tunnel"
    (mkAdd "8080:web:80" "" "" "web" "" "" false false "" "" false "" "" "" "tcp" "g" true) (or_introl eq_refl)) as [H _].
  eexists. split; [exact H|]. split; reflexivity.
Defined.

(** [tunnel start --background].  The command starts a copy of itself that
    must run in the foreground, with the arguments after the first operand
    passed on.  Without the flag it becomes the daemon; with the flag as the
    first operand only, the copy becomes the daemon; with the flag in any later
    place the copy gets the flag again and starts the same copy again, for ever:
    no daemon ever runs. *)
Theorem start_background (cfg : Config) (prog : string) (rest : list string) :
  let start args := main false (ReadConfig cfg) args in
  let child := prog :: "start" :: "--foreground" :: drop 1 rest in
  (existsb is_background rest = false -> start (prog :: "start" :: rest) = ADaemon cfg)
  /\ (existsb is_background rest = true -> start (prog :: "start" :: rest) = AFork child)
  /\ (existsb is_background (drop 1 rest) = false -> start child = ADaemon cfg)
  /\ (existsb is_background (drop 1 rest) = true -> start child = AFork child)
  /\ start [prog; "start"; "--foreground"; "--background"] = AFork [prog; "start"; "--foreground"; "--background"].
Proof.
  intros start child.
  assert (start child = if existsb is_background (drop 1 rest) then AFork child else ADaemon cfg) as Hc by reflexivity.
  unfold start at 1 2. rewrite main_start. split_and!; [by intros ->|by intros ->|..]; rewrite ?Hc; by try intros ->.
Qed.

(** [tunnel logs].  The number of lines is read only before the name: after
    it, where the usage text puts it, parsing has already stopped, and the
    command asks for 100 lines whatever is given. *)
Theorem logs_lines (running : bool) (file : read_result) (prog name : string) (n : Z) (digits : string) (rest : list string) :
  is_flag_arg name = false ->
  ParseInt0 (bytes_of digits) = Some n ->
  main running file (prog :: "logs" :: "--lines" :: digits :: name :: rest) = AControl "logs" (Some (PLogs name n))
  /\ main running file (prog :: "logs" :: name :: "--lines" :: digits :: rest) = AControl "logs" (Some (PLogs name 100)).
Proof.
  intros Hn Hd. split.
  - change (main _ _ _) with (cmdLogs (prog :: "logs" :: "--lines" :: digits :: name :: rest)).
    unfold cmdLogs, with_flags. change (drop 2 _) with ("--lines" :: digits :: name :: rest).
    assert (Parse [("lines", FInt)] ("--lines" :: digits :: name :: rest) =
      Parsed (mkFlags (<["lines" := digits]> ∅) (name :: rest))) as ->.
    { unfold Parse. change (parse_loop [("lines", FInt)] ("--lines" :: digits :: name :: rest) ∅)
        with (set_flag FInt "lines" digits ∅ (parse_loop [("lines", FInt)] (name :: rest))).
      unfold set_flag, settable. rewrite Hd. simpl. unfold is_flag_arg in Hn. by destruct (token_of name). }
    unfold get_int. simpl. rewrite lookup_insert_eq. simpl. by rewrite Hd.
  - change (main _ _ _) with (cmdLogs (prog :: "logs" :: name :: "--lines" :: digits :: rest)).
    unfold cmdLogs, with_flags. change (drop 2 _) with (name :: "--lines" :: digits :: rest).
    by rewrite Parse_stop.
Qed.

Lemma logs_lines_witness :
  main false ReadMissing ["tunnel"; "logs"; "web"; "--lines"; "20"] = AControl "logs" (Some (PLogs "web" 100)).
Proof. apply (logs_lines false ReadMissing "tunnel" "web" 20 "20" []); reflexivity. Defined.

(** How the ad-hoc modes end when something fails.  A bad specification and
    a failed TLS set-up end the process with the error.  So does a listener that
    cannot be opened, except for a TCP forward with TLS: there the error is lost
    and the process ends in a nil pointer; and that is the only way it does. *)
Theorem adhoc_failures (spec protocol : string) (tls : bool) (o : outcomes) :
  (runAdhocLocal spec protocol tls o = NilPanic
     <-> protocol <> "udp" /\ tls = true /\ is_Ok (parseLocalSpec spec) = true
         /\ is_Ok (oc_tls o) = true /\ is_Ok (oc_listen o) = false)
  /\ (forall e, parseLocalSpec spec = Err e -> exists e', runAdhocLocal spec protocol tls o = Fatal e')
  /\ (is_Ok (oc_listen o) = false -> tls = false -> exists e, runAdhocLocal spec protocol tls o = Fatal e)
  /\ (is_Ok (oc_listen o) = false -> exists e, runAdhocRemoteServer tls o = Fatal e)
  /\ (is_Ok (oc_listen o) = false -> exists e, runAdhocDynamic spec o = Fatal e)
  /\ (forall e, parseRemoteSpec spec = Err e -> runAdhocRemote spec tls o = Fatal e).
Proof.
  unfold runAdhocLocal, runAdhocRemoteServer, runAdhocDynamic, runAdhocRemote, adhoc_tls, start_proxy, serve_proxy.
  split_and!; [split|..].
  - case_decide; destruct tls, (parseLocalSpec spec), (oc_tls o), (oc_listen o), (oc_wait o) as [|[]]; by intros ?; simplify_eq/=.
  - intros (H1 & -> & H2 & H3 & H4). rewrite decide_False by done.
    by destruct (parseLocalSpec spec), (oc_tls o), (oc_listen o).
  - intros e ->. case_decide; destruct tls; eauto.
  - intros H ->. destruct (oc_listen o); [done|]. case_decide; destruct (parseLocalSpec spec); eauto.
  - intros H. destruct (oc_listen o); [done|]. destruct tls, (oc_tls o); eauto.
  - intros H. destruct (oc_listen o); [done|]. case_decide; eauto.
  - by intros e ->.
Qed.
