(* ===== verification/Systemd.v ===== *)
(** * The systemd unit ([src/manager/systemd.go], [tunnel init] of
    [src/main.go])

    The text of the unit, where it is written, and what the command prints.
    [lookPath] is the path [exec.LookPath(os.Args[0])] returns (its error is
    ignored), [user] and [home] are [$USER] and [$HOME]. *)
From S2P Require Import Prelude GoStrings Paths Specs LogBuffer Manager ConfigFile Control Daemon Cli.
Open Scope string_scope.

(** A text literal, line by line. *)
Definition text (ls : list string) : bytes := mjoin ((fun l => bytes_of l ++ [newline])%list <$> ls).

Definition unit_binary (lookPath : string) : string := if decide (lookPath = "") then "/usr/local/bin/tunnel" else lookPath.

Definition GenerateSystemdUnit (lookPath user home : string) : bytes :=
  let binPath := unit_binary lookPath in
  let configPath := ConfigPath home in
  let user := if decide (user = "") then "root" else user in
  text
    ["[Unit]";
     "Description=Tunnel - port forwarding daemon";
     "After=network.target";
     "";
     "[Service]";
     "Type=simple";
     "User=" ++ user;
     "ExecStart=" ++ binPath ++ " start --foreground";
     "ExecReload=/bin/kill -HUP $MAINPID";
     "Restart=on-failure";
     "RestartSec=5";
     "Environment=TUNNEL_CONFIG=" ++ configPath;
     "";
     "[Install]";
     "WantedBy=multi-user.target"].

Definition WriteSystemdUnit (lookPath user home path : string) (written : write_outcome) (fs : files) : result unit * files :=
  let content := GenerateSystemdUnit lookPath user home in
  let path := if decide (path = "") then "tunnel.service" else path in
  WriteFile path content written fs.

(** [userHome] is the result of [os.UserHomeDir], [mkdir] that of
    [os.MkdirAll]. *)
Definition WriteSystemdUnitUser (lookPath user home : string) (userHome : result string) (path : string)
    (mkdir : result unit) (written : write_outcome) (fs : files) : result unit * files :=
  match (if decide (path = "") then
           match userHome with
           | Err e => Err (Wrapf "resolve home dir: %w" [] e)
           | Ok home => Ok (join [home; ".config"; "systemd"; "user"; "tunnel.service"])
           end
         else Ok path) with
  | Err e => (Err e, fs)
  | Ok path =>
      match mkdir with
      | Err e => (Err (Wrapf "create systemd user dir: %w" [] e), fs)
      | Ok _ => WriteSystemdUnit lookPath user home path written fs
      end
  end.

Definition SystemdInstallHint : bytes :=
  TrimSpace (text
    ["# Generate systemd unit:";
     "  tunnel init --systemd > /etc/systemd/system/tunnel.service";
     "  systemctl daemon-reload";
     "  systemctl enable --now tunnel";
     "";
     "# Or for user mode:";
     "  mkdir -p ~/.config/systemd/user";
     "  tunnel init --systemd-user > ~/.config/systemd/user/tunnel.service";
     "  systemctl --user daemon-reload";
     "  systemctl --user enable --now tunnel"]).

(** [tunnel init]: what it prints on the standard output, or the error it dies
    of, and the files. *)
Definition run_init (lookPath user home : string) (userHome : result string) (mkdir : result unit) (written : write_outcome)
    (u : unit_file) (fs : files) : result bytes * files :=
  match u with
  | PrintSystemd => (Ok (GenerateSystemdUnit lookPath user home), fs)
  | WriteUser =>
      match WriteSystemdUnitUser lookPath user home userHome "" mkdir written fs with
      | (Err e, fs) => (Err (Wrapf "write user unit: %v" [] e), fs)
      | (Ok _, fs) => (Ok (text ["Wrote tunnel.service to ~/.config/systemd/user/"]), fs)
      end
  | InstallHint => (Ok (SystemdInstallHint ++ [newline])%list, fs)
  end.

(** [tunnel init ... > path] in a shell: the file is truncated first, and the
    output goes to its start, over what the command itself has written there. *)
Definition overwrite (out data : bytes) : bytes := (out ++ drop (length out) data)%list.

Definition redirected (path : string) (command : files -> result bytes * files) (fs : files) : files :=
  match command (<[path := []]> fs) with
  | (Ok out, fs) => <[path := overwrite out (default [] (fs !! path))]> fs
  | (Err _, fs) => fs
  end.

(** ** Lemmas *)

(** [l] is one of the lines of [data]. *)
Definition has_line (l : string) (data : bytes) : Prop :=
  exists a b, data = (a ++ bytes_of l ++ newline :: b)%list /\ (a = [] \/ last a = Some newline).

Lemma text_app xs ys : text (xs ++ ys)%list = (text xs ++ text ys)%list.
Proof. unfold text. by rewrite fmap_app, join_app. Qed.

Lemma text_last xs : text xs = [] \/ last (text xs) = Some newline.
Proof.
  destruct xs as [|x xs] using rev_ind; [by left|right]. rewrite text_app. unfold text at 2. simpl.
  rewrite app_nil_r, (assoc_L (++)%list). apply last_snoc.
Qed.

Lemma text_line l ls : l ∈ ls -> has_line l (text ls).
Proof.
  intros (xs & ys & ->)%list_elem_of_split. exists (text xs), (text ys). split; [|apply text_last].
  rewrite text_app. f_equal. change (l :: ys) with ([l] ++ ys)%list. rewrite text_app. unfold text at 1. simpl.
  by rewrite app_nil_r, <-app_assoc.
Qed.

(** [text_line] on a literal list of lines. *)
Ltac line := apply text_line; repeat (first [apply list_elem_of_here | apply list_elem_of_further]).

Lemma below_nonempty home names : below home names <> "".
Proof.
  intros E. apply (f_equal bytes_of) in E. unfold below in E. rewrite bytes_of_string_of in E. by destruct (bytes_of home).
Qed.

(** Where the unit of a user goes. *)
Lemma user_unit_path home :
  home_ok home -> join [home; ".config"; "systemd"; "user"; "tunnel.service"] = below home [".config"; "systemd"; "user"; "tunnel.service"].
Proof. intros Hh. by join_names home Hh. Qed.

(** ** Properties *)


(** [tunnel init --systemd-user] of a user with a usual home directory: on
    success the unit is where systemd looks for the units of a user and no
    other file has changed; the error of every step is reported, and the files
    are then as they were unless the write itself stopped half way. *)
Theorem user_unit_written (lookPath user home : string) (userHome : result string) (mkdir : result unit)
    (written : write_outcome) (fs : files) :
  home_ok home ->
  let path := below home [".config"; "systemd"; "user"; "tunnel.service"] in
  let u := GenerateSystemdUnit lookPath user home in
  let '(r, fs') := run_init lookPath user home userHome mkdir written WriteUser fs in
  (userHome = Ok home -> is_Ok mkdir = true -> written = Written -> is_Ok r = true /\ fs' = <[path := u]> fs)
  /\ (forall e, userHome = Err e -> r = Err (Wrapf "write user unit: %v" [] (Wrapf "resolve home dir: %w" [] e)) /\ fs' = fs)
  /\ (forall e, userHome = Ok home -> mkdir = Err e ->
        r = Err (Wrapf "write user unit: %v" [] (Wrapf "create systemd user dir: %w" [] e)) /\ fs' = fs)
  /\ (forall e, userHome = Ok home -> is_Ok mkdir = true -> written = WriteRefused e ->
        r = Err (Wrapf "write user unit: %v" [] e) /\ fs' = fs).
Proof.
  intros Hh path u. pose proof (user_unit_path home Hh) as Hp. pose proof (below_nonempty home [".config"; "systemd"; "user"; "tunnel.service"]) as Hne.
  unfold run_init, WriteSystemdUnitUser, WriteSystemdUnit. rewrite (decide_True (P := "" = "")) by done.
  destruct userHome as [home'|e']; [|by split_and!; [..|intros e [= ->]| |]].
  destruct (decide (home' = home)) as [->|Hn]; [rewrite Hp, (decide_False _ _ Hne); destruct mkdir as [[]|], written|destruct mkdir, written];
    simpl; split_and!; naive_solver.
Qed.

(** The hint for user mode, [tunnel init --systemd-user >
    ~/.config/systemd/user/tunnel.service], sends the message of the command
    over the unit it has just written to the same file: the file no longer
    starts with the [[Unit]] section. *)
Theorem hint_overwrites_unit (lookPath user home : string) (fs : files) :
  home_ok home ->
  let path := below home [".config"; "systemd"; "user"; "tunnel.service"] in
  let fs' := redirected path (run_init lookPath user home (Ok home) (Ok tt) Written WriteUser) fs in
  exists rest,
    fs' !! path = Some (bytes_of "Wrote tunnel.service to ~/.config/systemd/user/" ++ newline :: rest)%list
    /\ GenerateSystemdUnit lookPath user home <> (bytes_of "Wrote tunnel.service to ~/.config/systemd/user/" ++ newline :: rest)%list.
Proof.
  intros Hh path fs'. pose proof (user_unit_path home Hh) as Hp. pose proof (below_nonempty home [".config"; "systemd"; "user"; "tunnel.service"]) as Hne.
  eexists. split; [|intros E; apply (f_equal head) in E; discriminate E].
  unfold fs', redirected, run_init, WriteSystemdUnitUser, WriteSystemdUnit. rewrite (decide_True (P := "" = "")) by done.
  rewrite Hp, (decide_False _ _ Hne). fold path. simpl. rewrite !lookup_insert_eq. reflexivity.
Qed.
