(* ===== verification/Health.v ===== *)
(** * Health checks ([src/relay/healthcheck.go], started in [startOne] of
    [src/manager/manager.go])

    A check is a counter of consecutive failures; every tick dials the address
    once and may log a line.  The ticks until [stop] are a list of dial
    outcomes. *)
From S2P Require Import Prelude Specs.

Inductive health_line := Down (consecutive : Z) | Recovered.

(** The case of the ticker: the lines logged and the new counter. *)
Definition health_tick (failures : Z) (dialled : bool) (consecutive : Z) : list health_line * Z :=
  if dialled then ((if decide (consecutive >= failures) then [Recovered] else []), 0)
  else
    let consecutive := int64 (consecutive + 1) in
    ((if decide (consecutive >= failures) then [Down consecutive] else []), consecutive).

Fixpoint health_loop (failures : Z) (dials : list bool) (consecutive : Z) : list (list health_line) :=
  match dials with
  | [] => []
  | ok :: dials =>
      let '(lines, consecutive) := health_tick failures ok consecutive in
      lines :: health_loop failures dials consecutive
  end.

(** [time.NewTicker] panics ([None]) when the interval is not positive. *)
Definition HealthCheck (interval failures : Z) (dials : list bool) : option (list (list health_line)) :=
  if decide (interval <= 0) then None else Some (health_loop failures dials 0).

(** The check [startOne] starts: address, interval and number of failures;
    [ParseDuration] is that of package [time], in nanoseconds. *)
Definition start_health (ParseDuration : string -> option Z) (tc : TunnelConfig) : option (string * Z * Z) :=
  if decide (tc_HealthCheck tc <> "") then
    match ParseDuration (tc_HealthCheck tc) with
    | Some d => Some (tc_Local tc, d, 3)
    | None => None
    end
  else None.

(** ** What the log says *)

(** The number of failures since the last success. *)
Definition outage (past : list bool) : Z := foldl (fun n ok => if ok : bool then 0 else n + 1) 0 past.

(** What is logged when [ok] is observed after [past]. *)
Definition expected_lines (failures : Z) (past : list bool) (ok : bool) : list health_line :=
  let n := outage past in
  if ok then (if decide (n >= failures) then [Recovered] else [])
  else if decide (n + 1 >= failures) then [Down (n + 1)] else [].

(** ** Lemmas *)

Lemma outage_snoc past ok : outage (past ++ [ok]) = if ok : bool then 0 else outage past + 1.
Proof. unfold outage. by rewrite foldl_app. Qed.

Lemma outage_range past : 0 <= outage past <= zlen past.
Proof.
  induction past as [|ok past IH] using rev_ind; [done|]. rewrite outage_snoc, zlen_app. change (zlen [ok]) with 1.
  pose proof (zlen_nonneg past). destruct ok; lia.
Qed.

Lemma health_loop_spec failures dials past i ok :
  zlen past + zlen dials < 2 ^ 63 -> dials !! i = Some ok ->
  health_loop failures dials (outage past) !! i = Some (expected_lines failures (past ++ take i dials) ok).
Proof.
  revert past i. induction dials as [|d dials IH]; intros past i Hlen Hi; [done|].
  rewrite zlen_cons in Hlen. pose proof (zlen_nonneg dials). pose proof (outage_range past).
  assert (health_tick failures d (outage past) = (expected_lines failures past d, outage (past ++ [d]))) as E.
  { unfold health_tick, expected_lines. rewrite outage_snoc. destruct d; [done|]. by rewrite int64_id by lia. }
  cbn [health_loop]. rewrite E. destruct i as [|i]; [injection Hi as <-; by rewrite app_nil_r|].
  cbn [lookup list_lookup]. change (take (S i) (d :: dials)) with ([d] ++ take i dials). rewrite app_assoc.
  apply IH; [rewrite zlen_app; change (zlen [d]) with 1; lia|done].
Qed.

(** ** Properties *)

(** What a health check logs.  At every tick the lines are exactly those of
    [expected_lines]: "down" with the length of the outage from the third
    failure in a row on, at every failure; "recovered" at the first success
    after such an outage, and nothing otherwise; and an interval that is not
    positive, which [ParseDuration] lets through, panics instead. *)
Theorem health_lines (ParseDuration : string -> option Z) (tc : TunnelConfig) (addr : string) (interval failures : Z)
    (dials : list bool) :
  start_health ParseDuration tc = Some (addr, interval, failures) ->
  zlen dials < 2 ^ 63 ->
  addr = tc_Local tc /\ failures = 3
  /\ (HealthCheck interval failures dials = None <-> interval <= 0)
  /\ forall logged i ok, HealthCheck interval failures dials = Some logged -> dials !! i = Some ok ->
       logged !! i = Some (expected_lines 3 (take i dials) ok).
Proof.
  unfold start_health. intros Hs Hlen. case_decide; [|done]. destruct (ParseDuration _); simplify_eq.
  unfold HealthCheck. split_and!; [done|done|case_decide; split; done|].
  intros logged i ok Hl Hi. case_decide; simplify_eq. by apply (health_loop_spec 3 dials []).
Qed.

Lemma health_lines_witness :
  HealthCheck 10 3 [false; false; false; false; true; true] = Some [[]; []; [Down 3]; [Down 4]; [Recovered]; []]
  /\ expected_lines 3 [false; false; false; false] true = [Recovered].
Proof.
  split; [reflexivity|].
  pose proof (health_lines (fun _ => Some 10)
    (mkTC "web" "local" "" "" "" "" false "" "" false false "" "" false "" [] 0 "10" "" "") "" 10 3
    [false; false; false; false; true; true] eq_refl ltac:(reflexivity)) as (_ & _ & _ & H).
  symmetry. exact (f_equal (default []) (H _ 4%nat true eq_refl eq_refl)).
Defined.
